(* ===== verification/_CoqProject ===== *)
-Q . S2P
Prelude.v
Machine.v
Hashing.v
Sha256.v
MerkleTree.v
MerkleProof.v
TreeNode.v
Airdrop.v
ProgramError.v
ClaimStatus.v
Solana.v
Token.v
State.v
Handlers.v
Program.v
Execution.v
Scenario.v
Safety.v
NoPanic.v
Invariants.v
HandlerTheorems.v
Ledger.v
Schedule.v
EndToEnd.v
Layout.v
TokenBurner.v
Api.v
Routes.v
ApiTheorems.v
Startup.v
ApiStream.v
ServerSync.v
BTree.v
Aggregate.v
Sharding.v
ShardingTheorems.v
Network.v
NetworkTheorems.v
Signatures.v
Deploy.v
KvCheck.v
Files.v
DeployTheorems.v
Funding.v
Commands.v
CommandsTheorems.v
MassSend.v
MassSendTheorems.v
ListTools.v
BadDebt.v
Pipeline.v
Tool.v
ToolTheorems.v
AirdropRun.v
AggregateFiles.v
