(* ===== verification/Prelude.v ===== *)
(** * Verification of the multi-distributor repository

    ** The system

    A token airdrop on Solana.  Off chain, allocation lists (CSV) become Merkle
    trees (crate [merkle-tree]); the command-line tool ([cli]) shards the lists,
    creates one on-chain distributor per tree, funds the vaults and sends claims
    and admin instructions; a server ([api]) serves every claimant's proof and
    what can be claimed now.  On chain, the distributor program
    ([programs/merkle-distributor]) checks a proof ([verify]) and pays from the
    vault of the distributor, half of the unlocked allocation at once and the
    rest and the locked part linearly over the vesting window, with re-rooting,
    clawback and admin instructions; [programs/token-burner] burns what a clawback
    sends to it; [cpi-example] is a program that claims for itself.

    ** Files, sources, correspondence

    Foundations.  [Prelude]: results, do-blocks, [try_fold], sums over lists and
    maps, tactics ([inv_ok], [zbool]).  [Machine]: [u64], [i64], [u128] as
    integers with checked and truncating operations, bytes, 32-byte arrays and
    their order.  [Solana], [Token]: public keys, clock, the address-derivation
    and token-program interfaces with reference instances.  [BTree]: iteration of
    a [BTreeMap], sorting.

    Trees.  [Hashing] (src/verify, hashing macros of merkle_tree.rs, the hash
    interface), [Sha256] (a concrete hash for examples), [MerkleTree] and
    [MerkleProof] (merkle_tree.rs, utils.rs: the index loops of [MerkleTree::new],
    [get_proof], [find_path], and the levels they refine), [TreeNode]
    (tree_node.rs, csv_amount_unit.rs, csv_entry.rs), [Airdrop]
    (airdrop_merkle_tree.rs).

    On-chain program.  [ProgramError] (error.rs), [ClaimStatus]
    (state/claim_status.rs: the vesting arithmetic), [State]
    (state/merkle_distributor.rs, claimed_event.rs; the ledger: program accounts,
    token state, clock, event log), [Handlers] (instructions/*.rs: per instruction
    the accounts struct as a record of keys, the Anchor checks in Anchor's order,
    the handler), [Program] (lib.rs: the dispatcher, and for every handler exactly
    when it succeeds with which state), [Execution] (steps of a ledger: any
    instruction with any signers, time, foreign token transactions; the invariant
    [state_ok]), [Scenario] (one concrete execution, the source of witnesses),
    [Safety], [NoPanic], [Invariants], [HandlerTheorems], [Ledger], [Schedule],
    [EndToEnd] (theorems), [Layout] (the accounts as bytes, and the account
    queries of the server and of the tool), [TokenBurner]
    (token-burner/src/lib.rs), [BadDebt] (bad-debt-example/src/lib.rs).

    Server.  [Api] (router.rs, cache.rs, error.rs, main.rs: amounts, handlers, cache
    updates, loading of trees), [Routes] (router.rs: routing table, credentials,
    responses), [Startup] (main.rs up to the listener), [ApiStream] (the
    subscription and polling tasks of cache.rs), [ServerSync] (the same tasks
    reading the accounts of the ledger), [ApiTheorems].

    Tool.  [Aggregate] (process_aggregate_if_csvs.rs), [Sharding] and
    [ShardingTheorems] (process_create_merkle_tree.rs, process_generate_kv_proof.rs,
    process_find_airdrop_version.rs, process_create_test_list.rs).  [Network] is
    the node as the RPC client of the tool sees it: the ledger, the transactions
    submitted and still in flight (each lands, fails or is lost, at most once), the
    signatures processed, and what happens before each call (transactions land,
    blocks, time, others) with the way the call is answered (answered, refused,
    or taken with the answer lost); a command is a state transformer [io Network]
    that keeps the state at a panic.  [NetworkTheorems]: what a ledger owes to the
    transactions in flight; [Signatures]: a concrete signature scheme.  [Deploy],
    [DeployTheorems] and [Funding] (process_new_distributor.rs,
    process_fund_all.rs, process_verify.rs, helpers of cli.rs), [Commands] and
    [CommandsTheorems] (the admin commands, slots, claiming), [MassSend] and
    [MassSendTheorems] (process_send.rs), [ListTools] (the list filters and
    generators), [KvCheck] (verify_kv_proof.rs).  What a command only submits
    (funding, mass send, admin commands) goes through the network; the
    transactions that deployment and the claim commands wait for are executed on
    the ledger.  [Files] is the file system with the readers and writers of trees
    and lists, and [Tool] is the tool itself: the commands and options of cli.rs,
    [main], and every command as a run over network and files.  [ToolTheorems],
    [AirdropRun], [AggregateFiles]: theorems of runs.

    Together.  [Pipeline]: the tool's commands and the program composed, from the
    rows of an allocation to the payment of an entry.

    ** What the theorems show

    End to end ([EndToEnd], [Ledger], [Airdrop], [MerkleProof]): the tree built
    from the rows has every claimant once with the summed amounts; its proofs are
    accepted by the on-chain check and nothing else is (up to hash collisions,
    which the statements exhibit); from the creation of a distributor for a tree
    on, whatever sequence of steps follows, only entries are paid, at most their
    amounts (up to a re-root by the admin), and, when the distributor is not
    closable and was not re-rooted, its vault is covered and its window is open,
    every entry that has not claimed can claim and every claimant can withdraw
    what is released.  Invariants: counters equal the sums over the claim
    statuses, a covered vault stays covered, a claim cannot be made twice,
    clawback is late, complete and final, only the admin changes the
    configuration, every reachable state is well formed, no instruction panics in
    one (close_claim_status apart, which always does), the dispatcher refines an
    abstract transition system of seven effects.  Handlers: each pays, burns or
    stores exactly what it should, at machine width.

    The whole path ([Pipeline]): rows built into a tree, deployed and funded with
    the commands, the transfers landed, then anything on the ledger but a re-root;
    every entry still gets its vested amount with the claim command.  Through the
    files ([AirdropRun]): a list of recipients made into trees, deployed and funded
    by the commands is, once the transfers have landed, on the ledger and on the
    server for every row, with the sums of its chunk of the list; the aggregation's
    files read back with the exact sums and are a fixed point ([AggregateFiles]).

    Vesting ([Schedule]): at no moment has a claimant been paid more than the
    schedule released by then.

    Server: what is served is accepted on chain; a server that read the accounts
    of the ledger, as bytes and in any order, reports exactly the ledger and, for
    every start percentage and time, the amounts of the vesting formula
    ([ServerSync]), which for a distributor that is enabled and not clawed back is
    what the program would pay (the server does not look at the flag or at the
    slot).  Per account the cache holds the newest message whatever the order of
    arrival; the subscription task reconnects exactly until the failures in a row
    pass its limit or a connection cannot be opened, which panics it; credentials
    guard the data, the order of the loading tasks does not matter.

    Tool: aggregation and sharding lose nothing and terminate; deployment is exact
    and repeatable and makes verification pass; whatever becomes of the transfers
    of the funding command no vault gets more than it lacks, and once they have
    landed the vaults are solvent and a rerun does nothing (a rerun before that
    funds twice, shown by an example); a retry loop returns exactly when the
    program accepts its instruction at the time of an attempt; a mass send pays
    each of its distinct accounts at most once, also with a resend once nothing is
    in flight, and a recorded address is paid exactly when its transaction has
    succeeded; the check of exported proofs passes
    exactly for entries with a locked amount; and whatever is run, panics included,
    the tool acts for its operator only ([ToolTheorems]).  The example program's
    tokens move for its admin only.

    ** Interfaces and parameters

    Code outside the repository is a class with its documented laws, and the
    theorems hold for every instance: [Hasher] (SHA-256 of slices; no law, security
    is stated as the absence of a collision among the hashed messages),
    [AddressDerivation] ([find_program_address] and [create_program_address]
    agree), [TokenProgram] (effect of a transfer or burn, and when it succeeds),
    [AtaProgram] (creates an empty account of the wallet), [SignatureScheme]
    (different transactions have different signatures), [PubkeyParser] and
    [PubkeyText] (base-58 text, which parses back), [AccountCodec] (Anchor's
    account data: written fields are read back, the discriminators differ), [Base64]
    and [BasicAuth] (no laws), [Serde] (JSON of the two proof records),
    [FileFormats] (CSV and JSON files: what was written is read back).  Each has
    an instance used by the witnesses.  What the network does is the future of a
    [Network], over which the theorems quantify.

    ** Fuel and bounds

    Loops that are not structural take fuel: the levels of a tree and the path
    search (the number of nodes is enough, [MerkleTree_new_refines_levels]), the
    sharding loop (the number of rows), the version search (the distance to the
    bound), the retry loops (unbounded in the source: the theorem says when some
    fuel is enough and when none is).  Sizes that the source casts to [u32] or
    [u64] are bounded in the hypotheses where it matters (rows below 2^32).

    ** Not modelled

    Rent, lamports, compute budget, priority fees and log messages; commitment
    levels (one ledger, the one the client sees at its commitment); the expiry of a
    blockhash, other than as the loss of a transaction; failures of the node while
    the tool waits for the transactions of a deployment or a claim (in [Deploy] and
    in the claim commands of [Commands]); [calculate_vec_capacity], which only
    sizes an allocation; the text of CSV and JSON files (parameters with laws); the
    zip variant of the proof export, which nothing calls; HTTP, the decisions of
    the middleware layers (an argument), tracing, the listener; the command line
    itself (clap), the keypair file (the payer is its key).  A panic of the tool
    ends the run. *)
From stdpp Require Export base tactics option list gmap strings.
From Stdlib Require Export ZArith Lia.

#[global] Open Scope Z_scope.

(** ** Results

    Rust's [Result<T, E>]; a panic is one of the values of [E]. *)
Inductive result (E A : Type) : Type :=
| Ok (a : A)
| Err (e : E).
Arguments Ok {E A} _.
Arguments Err {E A} _.

#[global] Instance result_ret E : MRet (result E) := λ A a, Ok a.
#[global] Instance result_bind E : MBind (result E) := λ A B f r,
  match r with Ok a => f a | Err e => Err e end.
#[global] Instance result_fmap E : FMap (result E) := λ A B f r,
  match r with Ok a => Ok (f a) | Err e => Err e end.

#[global] Instance result_eq_dec E A `{!EqDecision E, !EqDecision A} :
  EqDecision (result E A).
Proof. solve_decision. Defined.

(** [require!(cond, err)] and [opt.ok_or(err)]. *)
Definition require {E : Type} (b : bool) (e : E) : result E unit :=
  if b then Ok tt else Err e.

Definition ok_or {E A : Type} (o : option A) (e : E) : result E A :=
  match o with Some a => Ok a | None => Err e end.

Definition is_ok {E A : Type} (r : result E A) : bool :=
  match r with Ok _ => true | Err _ => false end.

(** Left fold that stops at the first error, [Iterator::try_fold]. *)
Fixpoint try_fold {E A B : Type} (f : B → A → result E B) (b : B) (l : list A)
  : result E B :=
  match l with
  | [] => Ok b
  | a :: l => b' ← f b a; try_fold f b' l
  end.

(** [iter().map(f).collect::<Result<Vec<_>, _>>()]. *)
Fixpoint try_map {E A B : Type} (f : A → result E B) (l : list A)
  : result E (list B) :=
  match l with
  | [] => Ok []
  | a :: l => b ← f a; bs ← try_map f l; Ok (b :: bs)
  end.

Section result_lemmas.
Context {E : Type}.

Lemma bind_Ok {A B} (r : result E A) (f : A → result E B) b :
  (r ≫= f) = Ok b ↔ ∃ a, r = Ok a ∧ f a = Ok b.
Proof. destruct r; simpl; naive_solver. Qed.

Lemma require_Ok (b : bool) (e : E) u : require b e = Ok u ↔ b = true.
Proof. destruct b, u; simpl; naive_solver. Qed.

Lemma ok_or_Ok {A} (o : option A) (e : E) a : ok_or o e = Ok a ↔ o = Some a.
Proof. destruct o; simpl; naive_solver. Qed.

Lemma is_ok_true {A} (r : result E A) : is_ok r = true ↔ ∃ a, r = Ok a.
Proof. destruct r; simpl; naive_solver. Qed.

Lemma try_fold_app {A B} (f : B → A → result E B) b l1 l2 :
  try_fold f b (l1 ++ l2) = (b' ← try_fold f b l1; try_fold f b' l2).
Proof. revert b; induction l1; intros b; simpl; [done|]. destruct (f b a); simpl; auto. Qed.

Lemma try_map_Forall2 {A B} (f : A → result E B) l l' :
  try_map f l = Ok l' ↔ Forall2 (λ a b, f a = Ok b) l l'.
Proof.
  revert l'; induction l as [|a l IH]; intros l'; simpl.
  - split; [intros [= <-]; constructor|inversion 1; done].
  - rewrite bind_Ok. split.
    + intros (b & Hb & H). apply bind_Ok in H as (bs & Hbs & [= <-]).
      constructor; [done|by apply IH].
    + inversion 1 as [|? b ? bs Hb Hbs]; subst. exists b; split; [done|].
      apply bind_Ok. exists bs. by rewrite IH.
Qed.

Lemma try_map_Ok_iff {A B} (f : A → result E B) l :
  (∃ l', try_map f l = Ok l') ↔ ∀ a, a ∈ l → ∃ b, f a = Ok b.
Proof.
  induction l as [|a l IH]; simpl.
  - split; [intros _ a Ha; by apply elem_of_nil in Ha|eauto].
  - split.
    + intros [l' (b & Hb & (bs & Hbs & _)%bind_Ok)%bind_Ok] x [->|Hx]%elem_of_cons; eauto.
      apply IH; eauto.
    + intros H. destruct (H a) as [b Hb]; [set_solver|].
      destruct (proj2 IH) as [bs Hbs]; [intros x Hx; apply H; set_solver|].
      exists (b :: bs). by rewrite Hb; simpl; rewrite Hbs.
Qed.
End result_lemmas.

(** ** Automation *)

(** Decompose a hypothesis [do-block = Ok _] into its successful steps. *)
Ltac inv_ok :=
  repeat match goal with
  | H : mbind (M:=result _) _ _ = Ok _ |- _ =>
      let a := fresh "v" in let Ha := fresh "Hok" in
      apply bind_Ok in H as (a & Ha & H); simpl in H
  | H : require _ _ = Ok _ |- _ => apply require_Ok in H
  | H : ok_or _ _ = Ok _ |- _ => apply ok_or_Ok in H
  | H : Ok _ = Ok _ |- _ => injection H as H; try subst
  | H : Err _ = Ok _ |- _ => discriminate H
  | H : bool_decide _ = true |- _ => apply bool_decide_eq_true in H
  | H : negb _ = true |- _ => apply negb_true_iff in H
  | H : _ && _ = true |- _ => apply andb_true_iff in H as [? ?]
  | u : unit |- _ => destruct u
  end.

(** Turn boolean integer comparisons into propositions. *)
Ltac zbool :=
  repeat match goal with
  | H : (_ <=? _)%Z = true |- _ => apply Z.leb_le in H
  | H : (_ <=? _)%Z = false |- _ => apply Z.leb_gt in H
  | H : (_ <? _)%Z = true |- _ => apply Z.ltb_lt in H
  | H : (_ <? _)%Z = false |- _ => apply Z.ltb_ge in H
  | H : (_ =? _)%Z = true |- _ => apply Z.eqb_eq in H
  | H : (_ =? _)%Z = false |- _ => apply Z.eqb_neq in H
  end.

Create HintDb distributor.

(** ** Pointwise related lists *)
Lemma Forall2_elem_l {A B} (P : A → B → Prop) l k a :
  Forall2 P l k → a ∈ l → ∃ b, b ∈ k ∧ P a b.
Proof. induction 1; [by intros ?%elem_of_nil|]. intros [-> | ?]%elem_of_cons; set_solver. Qed.
Lemma Forall2_elem_r {A B} (P : A → B → Prop) l k b :
  Forall2 P l k → b ∈ k → ∃ a, a ∈ l ∧ P a b.
Proof. induction 1; [by intros ?%elem_of_nil|]. intros [-> | ?]%elem_of_cons; set_solver. Qed.

(** ** Sums over lists and finite maps *)

Definition sum_list {A : Type} (f : A → Z) (l : list A) : Z :=
  foldr (λ a acc, f a + acc) 0 l.

Section sum_list.
Context {A : Type}.
Implicit Types (f g : A → Z) (l : list A).

Lemma sum_list_app f l1 l2 : sum_list f (l1 ++ l2) = sum_list f l1 + sum_list f l2.
Proof. induction l1; simpl; [done|]. rewrite IHl1; lia. Qed.

Lemma sum_list_nonneg f l : (∀ a, a ∈ l → 0 ≤ f a) → 0 ≤ sum_list f l.
Proof.
  induction l as [|a l IH]; simpl; intros H; [done|].
  specialize (IH ltac:(set_solver)). specialize (H a ltac:(set_solver)). lia.
Qed.

Lemma sum_list_ext f g l : (∀ a, a ∈ l → f a = g a) → sum_list f l = sum_list g l.
Proof.
  induction l as [|a l IH]; simpl; intros H; [done|].
  rewrite (H a), IH by set_solver; done.
Qed.

Lemma sum_list_le f g l : (∀ a, a ∈ l → f a ≤ g a) → sum_list f l ≤ sum_list g l.
Proof.
  induction l as [|a l IH]; simpl; intros H; [done|].
  specialize (IH ltac:(set_solver)). specialize (H a ltac:(set_solver)). lia.
Qed.

Lemma sum_list_add f g l : sum_list (λ a, f a + g a) l = sum_list f l + sum_list g l.
Proof. induction l; simpl; lia. Qed.

Lemma sum_list_elem f l a :
  (∀ x, x ∈ l → 0 ≤ f x) → a ∈ l → f a ≤ sum_list f l.
Proof.
  intros Hp Ha. apply list_elem_of_split in Ha as (l1 & l2 & ->).
  rewrite sum_list_app. simpl.
  assert (0 ≤ sum_list f l1) by (apply sum_list_nonneg; set_solver).
  assert (0 ≤ sum_list f l2) by (apply sum_list_nonneg; set_solver). lia.
Qed.

Lemma sum_list_Permutation f l1 l2 : l1 ≡ₚ l2 → sum_list f l1 = sum_list f l2.
Proof. induction 1; simpl; lia. Qed.
End sum_list.

#[global] Instance sum_list_Proper {A} (f : A → Z) :
  Proper ((≡ₚ) ==> (=)) (sum_list f).
Proof. intros l1 l2. apply sum_list_Permutation. Qed.

Lemma sum_list_map {A B} (f : B → Z) (g : A → B) l :
  sum_list f (map g l) = sum_list (λ a, f (g a)) l.
Proof. induction l; simpl; lia. Qed.

Definition sum_map `{Countable K} {A : Type} (f : A → Z) (m : gmap K A) : Z :=
  sum_list (λ p, f p.2) (map_to_list m).

Section sum_map.
Context `{Countable K} {A : Type}.
Implicit Types (f : A → Z) (m : gmap K A).

Lemma sum_map_empty f : sum_map f (∅ : gmap K A) = 0.
Proof. unfold sum_map. by rewrite map_to_list_empty. Qed.

Lemma sum_map_insert_new f m k a :
  m !! k = None → sum_map f (<[k := a]> m) = f a + sum_map f m.
Proof. intros Hk. unfold sum_map. by rewrite map_to_list_insert. Qed.

Lemma sum_map_delete f m k a :
  m !! k = Some a → sum_map f m = f a + sum_map f (delete k m).
Proof.
  intros Hk. rewrite <- (sum_map_insert_new f _ k) by apply lookup_delete_eq.
  by rewrite insert_delete_id.
Qed.

Lemma sum_map_update f m k a a' :
  m !! k = Some a → sum_map f (<[k := a']> m) = sum_map f m - f a + f a'.
Proof.
  intros Hk. rewrite (sum_map_delete f m k a) by done.
  rewrite <- insert_delete_eq, sum_map_insert_new by apply lookup_delete_eq. lia.
Qed.

Lemma sum_map_zero f m : (∀ k a, m !! k = Some a → f a = 0) → sum_map f m = 0.
Proof.
  unfold sum_map. intros Hz.
  assert (∀ p, p ∈ map_to_list m → f p.2 = 0) as Hz'.
  { intros [k a] Hp%elem_of_map_to_list. eauto. }
  induction (map_to_list m) as [|p l IH]; simpl; [done|].
  rewrite Hz', IH by set_solver. done.
Qed.

Lemma sum_map_nonneg f m : (∀ k a, m !! k = Some a → 0 ≤ f a) → 0 ≤ sum_map f m.
Proof.
  intros Hp. apply sum_list_nonneg. intros [k a] Hin%elem_of_map_to_list. eauto.
Qed.

Lemma sum_map_elem f m k a :
  (∀ k a, m !! k = Some a → 0 ≤ f a) → m !! k = Some a → f a ≤ sum_map f m.
Proof.
  intros Hp Hk. rewrite (sum_map_delete f m k a) by done.
  assert (0 ≤ sum_map f (delete k m)); [|lia].
  apply sum_map_nonneg. intros j b [_ Hj]%lookup_delete_Some. eauto.
Qed.
End sum_map.
