(* ===== verification/Machine.v ===== *)
(** * Machine integers and byte strings

    Rust's [u64], [i64] and [u128] as integers with their ranges and the
    checked, truncating and panicking operations the sources use, little-endian
    encodings, fixed 32-byte arrays ([[u8; 32]], [Pubkey], [Hash]) and the
    lexicographic order Rust gives them. *)
From S2P Require Import Prelude.
From Stdlib Require Export Strings.Byte.

(** ** Widths *)
Definition U64_MAX : Z := 18446744073709551615.
Definition I64_MIN : Z := -9223372036854775808.
Definition I64_MAX : Z := 9223372036854775807.
Definition U128_MAX : Z := 340282366920938463463374607431768211455.

Definition is_u64 (z : Z) : Prop := 0 ≤ z ≤ U64_MAX.
Definition is_i64 (z : Z) : Prop := I64_MIN ≤ z ≤ I64_MAX.
Definition is_u128 (z : Z) : Prop := 0 ≤ z ≤ U128_MAX.
Definition is_u8 (z : Z) : Prop := 0 ≤ z ≤ 255.

#[global] Instance is_u64_dec z : Decision (is_u64 z).
Proof. unfold is_u64. apply _. Defined.
#[global] Instance is_i64_dec z : Decision (is_i64 z).
Proof. unfold is_i64. apply _. Defined.

(** ** Checked operations: [None] where the exact result leaves the type. *)
Definition checked_add_u64 (a b : Z) : option Z :=
  if a + b <=? U64_MAX then Some (a + b) else None.
Definition checked_sub_u64 (a b : Z) : option Z :=
  if b <=? a then Some (a - b) else None.
Definition checked_mul_u64 (a b : Z) : option Z :=
  if a * b <=? U64_MAX then Some (a * b) else None.
Definition checked_add_i64 (a b : Z) : option Z :=
  if (I64_MIN <=? a + b) && (a + b <=? I64_MAX) then Some (a + b) else None.
Definition checked_sub_i64 (a b : Z) : option Z :=
  if (I64_MIN <=? a - b) && (a - b <=? I64_MAX) then Some (a - b) else None.
Definition checked_mul_u128 (a b : Z) : option Z :=
  if a * b <=? U128_MAX then Some (a * b) else None.
Definition checked_add_u128 (a b : Z) : option Z :=
  if a + b <=? U128_MAX then Some (a + b) else None.
Definition checked_div_u128 (a b : Z) : option Z :=
  if b =? 0 then None else Some (a / b).

(** [10u64.checked_pow(e)] and its relatives: exponentiation of a base [> 1]. *)
Definition checked_pow_u64 (b e : Z) : option Z :=
  if b ^ e <=? U64_MAX then Some (b ^ e) else None.

(** ** Casts: [as u64] and [as u128] keep the low bits. *)
Definition as_u64 (z : Z) : Z := z mod 2 ^ 64.
Definition as_u128 (z : Z) : Z := z mod 2 ^ 128.

Ltac unfold_width :=
  unfold is_u64, is_i64, is_u128, is_u8, U64_MAX, I64_MIN, I64_MAX, U128_MAX in *.
Ltac zlia := unfold_width; lia.

Section checked_lemmas.
Implicit Types a b c : Z.

Lemma checked_add_u64_Some a b c :
  checked_add_u64 a b = Some c ↔ c = a + b ∧ a + b ≤ U64_MAX.
Proof. unfold checked_add_u64. case_match; zbool; naive_solver lia. Qed.

Lemma checked_sub_u64_Some a b c :
  checked_sub_u64 a b = Some c ↔ c = a - b ∧ b ≤ a.
Proof. unfold checked_sub_u64. case_match; zbool; naive_solver lia. Qed.

Lemma checked_mul_u64_Some a b c :
  checked_mul_u64 a b = Some c ↔ c = a * b ∧ a * b ≤ U64_MAX.
Proof. unfold checked_mul_u64. case_match; zbool; naive_solver lia. Qed.

Lemma checked_sub_i64_Some a b c :
  checked_sub_i64 a b = Some c ↔ c = a - b ∧ is_i64 (a - b).
Proof.
  unfold checked_sub_i64, is_i64.
  destruct (Z.leb_spec I64_MIN (a - b)), (Z.leb_spec (a - b) I64_MAX); simpl;
    naive_solver lia.
Qed.

Lemma checked_add_i64_Some a b c :
  checked_add_i64 a b = Some c ↔ c = a + b ∧ is_i64 (a + b).
Proof.
  unfold checked_add_i64, is_i64.
  destruct (Z.leb_spec I64_MIN (a + b)), (Z.leb_spec (a + b) I64_MAX); simpl;
    naive_solver lia.
Qed.

Lemma checked_mul_u128_Some a b c :
  checked_mul_u128 a b = Some c ↔ c = a * b ∧ a * b ≤ U128_MAX.
Proof. unfold checked_mul_u128. case_match; zbool; naive_solver lia. Qed.

Lemma checked_div_u128_Some a b c :
  checked_div_u128 a b = Some c ↔ c = a / b ∧ b ≠ 0.
Proof. unfold checked_div_u128. case_match; zbool; naive_solver lia. Qed.

(** The product of two [u64] values fits [u128]. *)
Lemma checked_mul_u128_u64 a b :
  is_u64 a → is_u64 b → checked_mul_u128 a b = Some (a * b).
Proof. intros Ha Hb. apply checked_mul_u128_Some. split; [done|]. unfold_width. nia. Qed.

Lemma as_u64_id a : is_u64 a → as_u64 a = a.
Proof. intros Ha. apply Z.mod_small. zlia. Qed.

Lemma as_u128_id a : is_u128 a → as_u128 a = a.
Proof. intros Ha. apply Z.mod_small. zlia. Qed.

Lemma as_u128_u64 a : is_u64 a → as_u128 a = a.
Proof. intros Ha. apply as_u128_id. zlia. Qed.
End checked_lemmas.

(** [floor (t * a / T)] for [0 ≤ t ≤ T], the linear vesting share. *)
Section linear_share.
Implicit Types t T a : Z.

Lemma share_bounds t T a : 0 ≤ t ≤ T → 0 < T → 0 ≤ a → 0 ≤ t * a / T ≤ a.
Proof.
  intros Ht HT Ha. split; [apply Z.div_pos; nia|].
  apply Z.div_le_upper_bound; nia.
Qed.

Lemma share_mono t1 t2 T a : t1 ≤ t2 → 0 < T → 0 ≤ a → t1 * a / T ≤ t2 * a / T.
Proof. intros. apply Z.div_le_mono; nia. Qed.
End linear_share.

(** ** Bytes *)
#[global] Instance byte_eq_dec : EqDecision byte := byte_eq_dec.
#[global] Instance byte_countable : Countable byte.
Proof. apply (inj_countable to_N of_N). intros b. apply of_to_N. Defined.

Definition byte_to_Z (b : byte) : Z := Z.of_N (to_N b).
Definition byte_of_Z (z : Z) : byte := default x00 (of_N (Z.to_N (z mod 256))).

Lemma byte_to_Z_range b : 0 ≤ byte_to_Z b < 256.
Proof. unfold byte_to_Z. pose proof (to_N_bounded b). lia. Qed.

Lemma byte_to_of_Z z : byte_to_Z (byte_of_Z z) = z mod 256.
Proof.
  unfold byte_to_Z, byte_of_Z. pose proof (Z.mod_pos_bound z 256 ltac:(done)).
  destruct (of_N (Z.to_N (z mod 256))) as [b|] eqn:E; simpl.
  - apply to_of_N in E. rewrite E. lia.
  - apply of_N_None_iff in E. lia.
Qed.

#[global] Instance byte_to_Z_inj : Inj (=) (=) byte_to_Z.
Proof.
  unfold byte_to_Z. intros a b H. apply (inj Z.of_N) in H.
  pose proof (of_to_N a) as Ha. rewrite H, of_to_N in Ha. congruence.
Qed.

(** [to_le_bytes] of an [n]-byte integer and its inverse. *)
Fixpoint to_le_bytes (n : nat) (z : Z) : list byte :=
  match n with
  | O => []
  | S n => byte_of_Z z :: to_le_bytes n (z / 256)
  end.

Fixpoint from_le_bytes (l : list byte) : Z :=
  match l with
  | [] => 0
  | b :: l => byte_to_Z b + 256 * from_le_bytes l
  end.

Definition u64_to_le_bytes (z : Z) : list byte := to_le_bytes 8 z.

Lemma length_to_le_bytes n z : length (to_le_bytes n z) = n.
Proof. revert z; induction n; intros z; simpl; auto. Qed.

Lemma from_to_le_bytes n z :
  0 ≤ z < 256 ^ Z.of_nat n → from_le_bytes (to_le_bytes n z) = z.
Proof.
  revert z; induction n as [|n IH]; intros z Hz; simpl.
  - change (256 ^ Z.of_nat 0) with 1 in Hz. lia.
  - rewrite Nat2Z.inj_succ, Z.pow_succ_r in Hz by lia.
    rewrite byte_to_of_Z, IH.
    + pose proof (Z.div_mod z 256). lia.
    + split; [apply Z.div_pos; lia|apply Z.div_lt_upper_bound; lia].
Qed.

Lemma to_from_le_bytes l : to_le_bytes (length l) (from_le_bytes l) = l.
Proof.
  induction l as [|b l IH]; simpl; [done|].
  pose proof (byte_to_Z_range b). f_equal.
  - apply (inj byte_to_Z). rewrite byte_to_of_Z, (Z.mul_comm 256), Z.mod_add by done.
    by apply Z.mod_small.
  - rewrite (Z.mul_comm 256), Z.div_add, Z.div_small by done. exact IH.
Qed.

Lemma u64_to_le_bytes_inj a b :
  is_u64 a → is_u64 b → u64_to_le_bytes a = u64_to_le_bytes b → a = b.
Proof.
  intros Ha Hb H. apply (f_equal from_le_bytes) in H. unfold u64_to_le_bytes in H.
  rewrite !from_to_le_bytes in H; [done|zlia..].
Qed.

(** ** Lexicographic order on byte strings *)
Fixpoint bytes_leb (a b : list byte) : bool :=
  match a, b with
  | [], _ => true
  | _ :: _, [] => false
  | x :: a, y :: b =>
      if byte_to_Z x <? byte_to_Z y then true
      else if byte_to_Z y <? byte_to_Z x then false
      else bytes_leb a b
  end.

Lemma bytes_leb_total a b : bytes_leb a b = false → bytes_leb b a = true.
Proof.
  revert b; induction a as [|x a IH]; intros [|y b]; simpl; try done.
  repeat case_match; zbool; try done; try lia; auto.
Qed.

Lemma bytes_leb_antisym a b : bytes_leb a b = true → bytes_leb b a = true → a = b.
Proof.
  revert b; induction a as [|x a IH]; intros [|y b]; simpl; try done.
  repeat case_match; zbool; try done; try lia. intros Ha Hb.
  assert (x = y) as -> by (apply (inj byte_to_Z); lia). f_equal; auto.
Qed.

Lemma bytes_leb_trans a b c :
  bytes_leb a b = true → bytes_leb b c = true → bytes_leb a c = true.
Proof.
  revert b c; induction a as [|x a IH]; intros [|y b] [|z c]; simpl; try done.
  repeat case_match; zbool; try done; try lia. apply IH.
Qed.

(** ** 32-byte arrays *)
Record Bytes32 := mkBytes32 {
  b32_list : list byte;
  b32_ok : Is_true (Nat.eqb (length b32_list) 32)
}.

Definition Pubkey : Type := Bytes32.
Definition Hash : Type := Bytes32.

Lemma b32_length (h : Bytes32) : length (b32_list h) = 32%nat.
Proof. apply Nat.eqb_eq, Is_true_true, b32_ok. Qed.

#[global] Instance b32_list_inj : Inj (=) (=) b32_list.
Proof.
  intros [a Ha] [b Hb]; simpl; intros ->. f_equal. apply proof_irrel.
Qed.

#[global] Instance Bytes32_eq_dec : EqDecision Bytes32.
Proof.
  intros a b. destruct (decide (b32_list a = b32_list b)) as [H|H].
  - left. by apply (inj b32_list).
  - right. congruence.
Defined.

(** The [n]-byte prefix of [l], padded with zeros: always 32 bytes long. *)
Definition pad32 (l : list byte) : list byte := take 32 (l ++ replicate 32 x00).

Lemma pad32_ok l : Is_true (Nat.eqb (length (pad32 l)) 32).
Proof.
  apply Is_true_true, Nat.eqb_eq. unfold pad32.
  rewrite length_take, length_app, length_replicate. lia.
Qed.

Definition b32_of_list (l : list byte) : Bytes32 := mkBytes32 (pad32 l) (pad32_ok l).

Lemma b32_of_list_list (h : Bytes32) : b32_of_list (b32_list h) = h.
Proof.
  apply (inj b32_list). unfold b32_of_list, pad32; simpl.
  rewrite take_app_le by (rewrite b32_length; lia).
  apply take_ge. rewrite b32_length. lia.
Qed.

(** The key whose bytes are the little-endian digits of [z]. *)
Definition key (z : Z) : Bytes32 := b32_of_list (to_le_bytes 32 z).

Lemma key_value (h : Bytes32) : key (from_le_bytes (b32_list h)) = h.
Proof.
  unfold key. rewrite <-(b32_length h) at 1. rewrite to_from_le_bytes.
  apply b32_of_list_list.
Qed.

(** Map keys are the integers the arrays spell, which keeps concrete maps small. *)
#[global] Instance Bytes32_countable : Countable Bytes32.
Proof.
  apply (inj_countable' (λ h, from_le_bytes (b32_list h)) key). exact key_value.
Defined.

Definition b32_leb (a b : Bytes32) : bool := bytes_leb (b32_list a) (b32_list b).

Lemma b32_leb_total a b : b32_leb a b = false → b32_leb b a = true.
Proof. apply bytes_leb_total. Qed.

Lemma b32_leb_antisym a b : b32_leb a b = true → b32_leb b a = true → a = b.
Proof. intros H1 H2. apply (inj b32_list). by apply bytes_leb_antisym. Qed.

(** Splitting a concatenation at a known length. *)
Lemma app_inj_length {A} (a1 a2 b1 b2 : list A) :
  length a1 = length a2 → a1 ++ b1 = a2 ++ b2 → a1 = a2 ∧ b1 = b2.
Proof. intros Hl H. by apply app_inj_1. Qed.
