(* ===== verification/Hashing.v ===== *)
(** * Hashing and the on-chain proof check (src/verify)

    [hashv] (solana_program) is a parameter: the interface [Hasher].  Nothing
    is assumed of it except, where a theorem needs it, that the finitely many
    messages the two computations at hand feed to it do not collide
    ([collision_free]); a global injectivity assumption would be false for any
    32-byte hash. *)
From S2P Require Import Prelude Machine.

Class Hasher := hashv : list (list byte) → Hash.

(** The prefixes that separate leaves from intermediate nodes. *)
Definition LEAF_PREFIX : list byte := [x00].
Definition INTERMEDIATE_PREFIX : list byte := [x01].

Section hashing.
Context `{Hasher}.

Definition hash_leaf (d : list byte) : Hash := hashv [LEAF_PREFIX; d].
Definition hash_intermediate (l r : Hash) : Hash :=
  hashv [INTERMEDIATE_PREFIX; b32_list l; b32_list r].

(** No two different messages among [qs] have the same hash.  A message is a
    list of slices, hashed as their concatenation. *)
Definition collision_free (qs : list (list (list byte))) : Prop :=
  ∀ x y, x ∈ qs → y ∈ qs → hashv x = hashv y → concat x = concat y.

(** [verify(proof, root, leaf)]: one loop iteration, then the loop. *)
Definition verify_step (computed_hash proof_element : Hash) : Hash :=
  if b32_leb computed_hash proof_element
  then hashv [[x01]; b32_list computed_hash; b32_list proof_element]
  else hashv [[x01]; b32_list proof_element; b32_list computed_hash].

Definition verify (proof : list Hash) (root leaf : Hash) : bool :=
  bool_decide (foldl verify_step leaf proof = root).

(** The message hashed by one iteration, and by a whole run. *)
Definition verify_query (c p : Hash) : list (list byte) :=
  if b32_leb c p then [[x01]; b32_list c; b32_list p]
  else [[x01]; b32_list p; b32_list c].

Fixpoint verify_queries (leaf : Hash) (proof : list Hash) : list (list (list byte)) :=
  match proof with
  | [] => []
  | p :: proof => verify_query leaf p :: verify_queries (verify_step leaf p) proof
  end.

Lemma collision_free_mono qs qs' :
  (∀ x, x ∈ qs' → x ∈ qs) → collision_free qs → collision_free qs'.
Proof. unfold collision_free. eauto. Qed.

Lemma verify_step_query c p : verify_step c p = hashv (verify_query c p).
Proof. unfold verify_step, verify_query. by case_match. Qed.

Lemma verify_queries_app leaf p1 p2 :
  verify_queries leaf (p1 ++ p2) =
  verify_queries leaf p1 ++ verify_queries (foldl verify_step leaf p1) p2.
Proof. revert leaf; induction p1; intros leaf; simpl; [done|]. by rewrite IHp1. Qed.

(** Both orders of a pair are hashed the same way. *)
Lemma verify_step_comm a b : verify_step a b = verify_step b a.
Proof.
  unfold verify_step.
  destruct (b32_leb a b) eqn:E1, (b32_leb b a) eqn:E2; try done.
  - by rewrite (b32_leb_antisym a b).
  - apply b32_leb_total in E1. congruence.
Qed.

Lemma concat_query (pre : byte) (a b : Hash) :
  concat [[pre]; b32_list a; b32_list b] = pre :: b32_list a ++ b32_list b.
Proof. simpl. by rewrite app_nil_r. Qed.

(** The message of an intermediate node determines its two children. *)
Lemma query_pair_inj pre (a b c d : Hash) :
  concat [[pre]; b32_list a; b32_list b] = concat [[pre]; b32_list c; b32_list d] →
  a = c ∧ b = d.
Proof.
  rewrite !concat_query. intros [= Heq].
  apply app_inj_length in Heq as [H1 H2]; [|by rewrite !b32_length].
  split; by apply (inj b32_list).
Qed.

Lemma verify_query_mem c p q d :
  concat (verify_query c p) = concat (verify_query q d) → c = q ∨ c = d.
Proof.
  unfold verify_query.
  repeat case_match; intros Heq; apply query_pair_inj in Heq; naive_solver.
Qed.

(** A leaf message never equals an intermediate message. *)
Lemma leaf_query_ne d c p : concat [LEAF_PREFIX; d] ≠ concat (verify_query c p).
Proof. unfold verify_query. by case_match. Qed.

Lemma leaf_query_inj d d' :
  concat [LEAF_PREFIX; d] = concat [LEAF_PREFIX; d'] → d = d'.
Proof. simpl. rewrite !app_nil_r. naive_solver. Qed.

Lemma verify_true proof root leaf :
  verify proof root leaf = true ↔ foldl verify_step leaf proof = root.
Proof. apply bool_decide_eq_true. Qed.
End hashing.
