(* ===== verification/Sha256.v ===== *)
(** * A concrete hasher: SHA-256 (FIPS 180-4)

    [solana_program::hash::hashv] is documented to be the SHA-256 digest of
    the concatenated slices.  The development never depends on this file's
    definitions: it is the concrete instance with which the definitions are
    run against the repository's own test vector. *)
From S2P Require Import Prelude Machine Hashing.
#[local] Open Scope N_scope.

Definition mask32 (x : N) : N := N.land x 0xffffffff.
Definition add32 (x y : N) : N := mask32 (x + y).
Definition rotr (x n : N) : N :=
  mask32 (N.lor (N.shiftr x n) (N.shiftl x (32 - n))).
Definition not32 (x : N) : N := N.lxor x 0xffffffff.

Definition Ch (x y z : N) : N := N.lxor (N.land x y) (N.land (not32 x) z).
Definition Maj (x y z : N) : N := N.lxor (N.lxor (N.land x y) (N.land x z)) (N.land y z).
Definition Sigma0 (x : N) : N := N.lxor (N.lxor (rotr x 2) (rotr x 13)) (rotr x 22).
Definition Sigma1 (x : N) : N := N.lxor (N.lxor (rotr x 6) (rotr x 11)) (rotr x 25).
Definition sigma0 (x : N) : N := N.lxor (N.lxor (rotr x 7) (rotr x 18)) (N.shiftr x 3).
Definition sigma1 (x : N) : N := N.lxor (N.lxor (rotr x 17) (rotr x 19)) (N.shiftr x 10).

(** The constants, computed as FIPS 180-4 defines them: the first 32 fractional
    bits of the square and cube roots of the first primes. *)
Definition primes (bound : nat) : list N :=
  filter (λ n, forallb (λ d, negb (n mod N.of_nat d =? 0)) (seq 2 (N.to_nat n - 2)) = true)
    (map N.of_nat (seq 2 (bound - 2))).

(** The integer cube root of [n] below [2^bits], found bit by bit. *)
Fixpoint cube_root (bits : nat) (n r : N) : N :=
  match bits with
  | O => r
  | S bits =>
      let r' := r + 2 ^ N.of_nat bits in
      cube_root bits n (if r' * r' * r' <=? n then r' else r)
  end.

Definition K256 : list N :=
  Eval vm_compute in map (λ p, mask32 (cube_root 40 (p * 2 ^ 96) 0)) (primes 312).

Record words8 := mkW { wa : N; wb : N; wc : N; wd : N; we : N; wf : N; wg : N; wh : N }.

Definition H0 : words8 :=
  Eval vm_compute in
  match map (λ p, mask32 (N.sqrt (p * 2 ^ 64))) (primes 20) with
  | [a; b; c; d; e; f; g; h] => mkW a b c d e f g h
  | _ => mkW 0 0 0 0 0 0 0 0
  end.

Definition round (s : words8) (k w : N) : words8 :=
  let t1 := mask32 (wh s + Sigma1 (we s) + Ch (we s) (wf s) (wg s) + k + w) in
  let t2 := mask32 (Sigma0 (wa s) + Maj (wa s) (wb s) (wc s)) in
  mkW (add32 t1 t2) (wa s) (wb s) (wc s) (add32 (wd s) t1) (we s) (wf s) (wg s).

(** The 64 rounds; [win] is the sliding window of the last 16 schedule words. *)
Fixpoint rounds (ks : list N) (win : list N) (s : words8) : words8 :=
  match ks, win with
  | k :: ks, w0 :: rest =>
      let w16 := mask32 (sigma1 (nth 13 rest 0) + nth 8 rest 0 + sigma0 (nth 0 rest 0) + w0) in
      rounds ks (rest ++ [w16]) (round s k w0)
  | _, _ => s
  end.

Definition add_words (s t : words8) : words8 :=
  mkW (add32 (wa s) (wa t)) (add32 (wb s) (wb t)) (add32 (wc s) (wc t)) (add32 (wd s) (wd t))
      (add32 (we s) (we t)) (add32 (wf s) (wf t)) (add32 (wg s) (wg t)) (add32 (wh s) (wh t)).

Fixpoint be_words (bs : list N) : list N :=
  match bs with
  | a :: b :: c :: d :: bs => (((a * 256 + b) * 256 + c) * 256 + d) :: be_words bs
  | _ => []
  end.

Fixpoint blocks (n : nat) (ws : list N) (s : words8) : words8 :=
  match n with
  | O => s
  | S n => blocks n (drop 16 ws) (add_words s (rounds K256 (take 16 ws) s))
  end.

Definition be_bytes (n : nat) (x : N) : list N :=
  rev (map (λ i, N.land (N.shiftr x (8 * N.of_nat i)) 255) (seq 0 n)).

Definition padded (m : list N) : list N :=
  let len := length m in
  let z := Nat.modulo (Nat.sub 119 (Nat.modulo len 64)) 64 in
  m ++ [128] ++ replicate z 0 ++ be_bytes 8 (8 * N.of_nat len).

Definition byte_of_N' (x : N) : byte := default x00 (of_N x).

Definition sha256 (m : list byte) : list byte :=
  let ws := be_words (padded (map to_N m)) in
  let s := blocks (Nat.div (length ws) 16) ws H0 in
  map byte_of_N' (concat (map (be_bytes 4) [wa s; wb s; wc s; wd s; we s; wf s; wg s; wh s])).

Definition sha256_hasher : Hasher := λ xs, b32_of_list (sha256 (concat xs)).

(** FIPS 180-4 test vector: the digest of "abc". *)
Example sha256_abc :
  map to_N (sha256 [x61; x62; x63]) =
  be_bytes 32 0xba7816bf8f01cfea414140de5dae2223b00361a396177a9cb410ff61f20015ad.
Proof. vm_compute. reflexivity. Qed.
