(* ===== verification/MerkleTree.v ===== *)
(** * The Merkle tree (src/merkle-tree/src/merkle_tree.rs, utils.rs)

    [MerkleTree::new], [find_path], [Proof::verify] and [get_proof] as the
    index loops of the source over one flat vector of nodes, and their
    refinement to a list of levels: the flat vector is the concatenation of
    the levels, the proof of a leaf is its list of siblings, and every such
    proof passes the on-chain [verify]; conversely whatever passes [verify]
    is a leaf of the tree, unless the hash function collides on one of the
    finitely many messages involved. *)
From S2P Require Import Prelude Machine Hashing.
#[local] Open Scope nat_scope.

(** A loop either panics (out-of-range index, failed assertion, [expect]) or,
    in the model only, runs out of fuel. *)
Inductive loop_error := Panicked | OutOfFuel.

#[global] Instance loop_error_eq_dec : EqDecision loop_error.
Proof. solve_decision. Defined.

Definition index {A : Type} (l : list A) (i : nat) : result loop_error A :=
  ok_or (l !! i) Panicked.

(** The slice [l[start..start + len]]. *)
Definition slice {A : Type} (l : list A) (start len : nat) : result loop_error (list A) :=
  if (start + len <=? length l) then Ok (take len (drop start l)) else Err Panicked.

Definition is_none {A : Type} (o : option A) : bool :=
  match o with None => true | Some _ => false end.

Record MerkleTree := mkMerkleTree {
  leaf_count : nat;
  nodes : list Hash
}.

Record ProofEntry := mkProofEntry {
  pe_target : Hash;
  pe_left : option Hash;
  pe_right : option Hash
}.

(** [ProofEntry::new] asserts that exactly one sibling is given. *)
Definition ProofEntry_new (target : Hash) (left_sibling right_sibling : option Hash)
  : result loop_error ProofEntry :=
  if xorb (is_none left_sibling) (is_none right_sibling)
  then Ok (mkProofEntry target left_sibling right_sibling)
  else Err Panicked.

Definition next_level_len (level_len : nat) : nat :=
  if level_len =? 1 then 0 else (level_len + 1) / 2.

Definition get_root (t : MerkleTree) : option Hash := last (nodes t).

Section merkle_tree.
Context `{Hasher}.

(** The hash of a pair of siblings, sorted or not. *)
Definition hash_pair (sorted_hashes : bool) (lsib rsib : Hash) : Hash :=
  if sorted_hashes then
    if b32_leb lsib rsib then hash_intermediate lsib rsib else hash_intermediate rsib lsib
  else hash_intermediate lsib rsib.

(** Body of the inner [for i in 0..level_len] loop. *)
Definition push_parent (sorted_hashes : bool) (prev_level_start prev_level_len : nat)
    (ns : list Hash) (i : nat) : result loop_error (list Hash) :=
  let prev_level_idx := 2 * i in
  lsib ← index ns (prev_level_start + prev_level_idx);
  rsib ← (if prev_level_idx + 1 <? prev_level_len
          then index ns (prev_level_start + prev_level_idx + 1)
          else index ns (prev_level_start + prev_level_idx));
  Ok (ns ++ [hash_pair sorted_hashes lsib rsib]).

(** The [while level_len > 0] loop. *)
Fixpoint build_loop (fuel : nat) (sorted_hashes : bool)
    (level_len level_start prev_level_len prev_level_start : nat) (ns : list Hash)
  : result loop_error (list Hash) :=
  if level_len =? 0 then Ok ns else
  match fuel with
  | O => Err OutOfFuel
  | S fuel =>
      ns' ← try_fold (push_parent sorted_hashes prev_level_start prev_level_len)
              ns (seq 0 level_len);
      build_loop fuel sorted_hashes (next_level_len level_len) (level_start + level_len)
        level_len level_start ns'
  end.

Definition MerkleTree_new (items : list (list byte)) (sorted_hashes : bool)
  : result loop_error MerkleTree :=
  let n := length items in
  ns ← build_loop n sorted_hashes (next_level_len n) n n 0 (map hash_leaf items);
  Ok (mkMerkleTree n ns).

(** [find_path]: the [while] loop over levels. *)
Fixpoint find_path_loop (fuel : nat) (ns : list Hash)
    (level_len level_start node_index : nat) (lsib rsib : option Hash)
    (path : list ProofEntry) : result loop_error (list ProofEntry) :=
  if level_len =? 0 then Ok path else
  match fuel with
  | O => Err OutOfFuel
  | S fuel =>
      level ← slice ns level_start level_len;
      target ← index level node_index;
      path' ← (if negb (is_none lsib) || negb (is_none rsib)
               then pe ← ProofEntry_new target lsib rsib; Ok (path ++ [pe])
               else Ok path);
      sibs ← (if node_index mod 2 =? 0 then
                r ← (if node_index + 1 <? length level
                     then index level (node_index + 1)
                     else index level node_index);
                Ok (None, Some r)
              else
                l ← index level (node_index - 1);
                Ok (Some l, None));
      find_path_loop fuel ns (next_level_len level_len) (level_start + level_len)
        (node_index / 2) sibs.1 sibs.2 path'
  end.

Definition find_path (t : MerkleTree) (idx : nat) : result loop_error (option (list ProofEntry)) :=
  if leaf_count t <=? idx then Ok None
  else
    path ← find_path_loop (S (leaf_count t)) (nodes t) (leaf_count t) 0 idx None None [];
    Ok (Some path).

(** [get_proof] of utils.rs. *)
Definition get_proof_entry (branch : ProofEntry) : result loop_error Hash :=
  match pe_left branch with
  | Some h => Ok h
  | None =>
      match pe_right branch with
      | Some h => Ok h
      | None => Err Panicked
      end
  end.

Definition get_proof (t : MerkleTree) (idx : nat) : result loop_error (list Hash) :=
  opt ← find_path t idx;
  path ← ok_or opt Panicked;
  try_map get_proof_entry path.

(** [Proof::verify]: the check used with unsorted trees. *)
Definition proof_verify_step (candidate : Hash) (pe : ProofEntry) : result unit Hash :=
  let lsib := default candidate (pe_left pe) in
  let rsib := default candidate (pe_right pe) in
  let hash := hash_intermediate lsib rsib in
  if bool_decide (hash = pe_target pe) then Ok hash else Err tt.

Definition proof_verify (path : list ProofEntry) (candidate : Hash) : bool :=
  is_ok (try_fold proof_verify_step candidate path).

(** ** Specification: a tree as a list of levels *)
Fixpoint next_level (sorted_hashes : bool) (l : list Hash) : list Hash :=
  match l with
  | [] => []
  | [a] => [hash_pair sorted_hashes a a]
  | a :: b :: l => hash_pair sorted_hashes a b :: next_level sorted_hashes l
  end.

(** All levels from [l] up; [length l] steps of fuel reach the root. *)
Fixpoint upper_levels (fuel : nat) (sorted_hashes : bool) (l : list Hash) : list (list Hash) :=
  match fuel with
  | O => []
  | S fuel =>
      if length l <=? 1 then []
      else next_level sorted_hashes l :: upper_levels fuel sorted_hashes (next_level sorted_hashes l)
  end.

Definition tree_levels (sorted_hashes : bool) (l : list Hash) : list (list Hash) :=
  l :: upper_levels (length l) sorted_hashes l.

(** The sibling of position [i] in level [l]: itself for a lone last node. *)
Definition sibling (l : list Hash) (i : nat) : option Hash :=
  if i mod 2 =? 0 then (if i + 1 <? length l then l !! (i + 1) else l !! i) else l !! (i - 1).

Fixpoint sibling_path (ls : list (list Hash)) (l : list Hash) (i : nat) : list Hash :=
  match ls with
  | [] => []
  | l' :: ls => match sibling l i with
                | Some h => h :: sibling_path ls l' (i / 2)
                | None => []
                end
  end.

(** The messages hashed while building the tree. *)
Fixpoint level_queries (l : list Hash) : list (list (list byte)) :=
  match l with
  | [] => []
  | [a] => [verify_query a a]
  | a :: b :: l => verify_query a b :: level_queries l
  end.

Definition tree_queries (items : list (list byte)) : list (list (list byte)) :=
  map (λ d, [LEAF_PREFIX; d]) items ++
  concat (map level_queries (tree_levels true (map hash_leaf items))).

(** ** Levels *)
Lemma list_pair_ind {A} (P : list A → Prop) :
  P [] → (∀ a, P [a]) → (∀ a b l, P l → P (a :: b :: l)) → ∀ l, P l.
Proof.
  intros H0 H1 H2. assert (∀ l, P l ∧ ∀ a, P (a :: l)) as Hall; [|intros l; apply Hall].
  induction l as [|b l [IH1 IH2]]; split; auto.
Qed.

Lemma length_next_level s l : length (next_level s l) = (length l + 1) / 2.
Proof.
  induction l as [|a|a b l IH] using list_pair_ind; [done|done|].
  cbn [next_level length]. rewrite IH.
  replace (S (S (length l)) + 1) with (length l + 1 + 1 * 2) by lia.
  rewrite Nat.div_add by done. lia.
Qed.

Lemma next_level_len_spec s l : 1 < length l → next_level_len (length l) = length (next_level s l).
Proof.
  intros Hl. rewrite length_next_level. unfold next_level_len.
  destruct (Nat.eqb_spec (length l) 1); lia.
Qed.

Lemma next_level_shrinks s l : 1 < length l → 1 ≤ length (next_level s l) < length l.
Proof.
  intros Hl. rewrite length_next_level.
  pose proof (Nat.div_mod_eq (length l + 1) 2).
  pose proof (Nat.mod_upper_bound (length l + 1) 2). lia.
Qed.

(** The parent at position [i] hashes positions [2i] and [2i+1] (or [2i] twice). *)
Lemma next_level_lookup s l i a :
  l !! (2 * i) = Some a →
  next_level s l !! i = Some (hash_pair s a (default a (l !! (2 * i + 1)))).
Proof.
  revert i; induction l as [|x|x y l IH] using list_pair_ind; intros i Ha; [done| |].
  - destruct i as [|i]; simpl in *; [congruence|by destruct i].
  - destruct i as [|i]; [simpl in *; congruence|].
    cbn [next_level]. rewrite lookup_cons_ne_0 by done. simpl pred.
    replace (2 * S i) with (S (S (2 * i))) in Ha by lia. simpl in Ha.
    replace (2 * S i + 1) with (S (S (2 * i + 1))) by lia. simpl lookup at 2.
    by rewrite IH.
Qed.

Lemma upper_levels_fuel s f1 f2 l :
  length l ≤ f1 → length l ≤ f2 → upper_levels f1 s l = upper_levels f2 s l.
Proof.
  revert f2 l; induction f1 as [|f1 IH]; intros [|f2] l H1 H2; simpl; try done.
  - destruct (Nat.leb_spec (length l) 1); [done|lia].
  - destruct (Nat.leb_spec (length l) 1); [done|lia].
  - destruct (Nat.leb_spec (length l) 1); [done|].
    pose proof (next_level_shrinks s l). f_equal. apply IH; lia.
Qed.

Lemma tree_levels_step s l :
  1 < length l → tree_levels s l = l :: tree_levels s (next_level s l).
Proof.
  intros Hl. unfold tree_levels. f_equal.
  destruct (length l) as [|n] eqn:E; [lia|]. simpl. rewrite E.
  destruct (Nat.leb_spec (S n) 1); [lia|]. f_equal.
  pose proof (next_level_shrinks s l). apply upper_levels_fuel; lia.
Qed.

Lemma tree_levels_last s l : length l ≤ 1 → tree_levels s l = [l].
Proof.
  intros Hl. unfold tree_levels. destruct (length l) as [|[|]] eqn:E; simpl; [done|by rewrite E|lia].
Qed.

(** Induction over the levels of a non-empty tree, from the leaves to the root. *)
Lemma levels_ind (s : bool) (P : list Hash → Prop) :
  (∀ a, P [a]) → (∀ l, 1 < length l → P (next_level s l) → P l) → ∀ l, l ≠ [] → P l.
Proof.
  intros H1 H2 l. induction l as [l IH] using (induction_ltof1 _ length). unfold ltof in IH.
  intros Hne. destruct (decide (1 < length l)) as [Hl|Hl].
  - apply H2; [done|]. pose proof (next_level_shrinks s l Hl). apply IH; [lia|].
    intros E. rewrite E in *. simpl in *. lia.
  - destruct l as [|a [|b l]]; [done|apply H1|simpl in Hl; lia].
Qed.

Definition level_root (s : bool) (l : list Hash) : option Hash := last (concat (tree_levels s l)).

Lemma level_root_one s a : level_root s [a] = Some a.
Proof. unfold level_root. by rewrite tree_levels_last. Qed.

Lemma tree_levels_cons s l : ∃ ls, tree_levels s l = l :: ls.
Proof. unfold tree_levels. eauto. Qed.

Lemma level_root_next s l : 1 < length l → level_root s l = level_root s (next_level s l).
Proof.
  intros Hl. unfold level_root. rewrite (tree_levels_step s l Hl).
  pose proof (next_level_shrinks s l Hl) as Hs.
  destruct (tree_levels_cons s (next_level s l)) as [ls ->]. cbn [concat].
  rewrite last_app. destruct (next_level s l) as [|x l']; [simpl in Hs; lia|].
  simpl app. by destruct (last (x :: l' ++ concat ls)) eqn:E; [|apply last_None in E].
Qed.

(** ** The construction loop builds the levels *)
Lemma push_parent_ok s pre l acc i a :
  l !! (2 * i) = Some a →
  push_parent s (length pre) (length l) (pre ++ l ++ acc) i =
  Ok (pre ++ l ++ acc ++ [hash_pair s a (default a (l !! (2 * i + 1)))]).
Proof.
  intros Ha. unfold push_parent, index.
  assert (∀ j x, l !! j = Some x → (pre ++ l ++ acc) !! (length pre + j) = Some x) as Hlk.
  { intros j x Hj. rewrite lookup_app_r by lia.
    replace (length pre + j - length pre) with j by lia. by apply lookup_app_l_Some. }
  rewrite (Hlk _ _ Ha). cbn [ok_or mbind result_bind].
  destruct (Nat.ltb_spec (2 * i + 1) (length l)) as [Hlt|Hge].
  - destruct (lookup_lt_is_Some_2 l (2 * i + 1) Hlt) as [b Hb].
    replace (length pre + 2 * i + 1) with (length pre + (2 * i + 1)) by lia.
    rewrite (Hlk _ _ Hb), Hb. simpl. by rewrite <- !app_assoc.
  - rewrite (lookup_ge_None_2 l (2 * i + 1)) by lia. simpl. by rewrite <- !app_assoc.
Qed.

Lemma push_parents_ok s pre l n :
  n ≤ (length l + 1) / 2 →
  try_fold (push_parent s (length pre) (length l)) (pre ++ l) (seq 0 n) =
  Ok (pre ++ l ++ take n (next_level s l)).
Proof.
  induction n as [|n IH]; intros Hn; [simpl; by rewrite app_nil_r|].
  rewrite seq_S, try_fold_app, IH by lia. simpl.
  assert (2 * n < length l) as Hlt.
  { pose proof (Nat.div_mod_eq (length l + 1) 2).
    pose proof (Nat.mod_upper_bound (length l + 1) 2). lia. }
  destruct (lookup_lt_is_Some_2 l (2 * n) Hlt) as [a Ha].
  pose proof (next_level_lookup s l n a Ha) as Hp.
  rewrite (push_parent_ok s pre l (take n (next_level s l)) n a Ha). simpl.
  erewrite (take_S_r (next_level s l)) by exact Hp. done.
Qed.

Lemma build_loop_ok s fuel pre l :
  length l ≤ fuel →
  build_loop fuel s (next_level_len (length l)) (length (pre ++ l)) (length l) (length pre)
    (pre ++ l) = Ok (pre ++ concat (tree_levels s l)).
Proof.
  revert pre l; induction fuel as [|fuel IH]; intros pre l Hf.
  - destruct l; [|simpl in Hf; lia]. done.
  - destruct (decide (1 < length l)) as [Hl|Hl].
    + rewrite (next_level_len_spec s l Hl). pose proof (next_level_shrinks s l Hl) as Hs.
      cbn [build_loop]. destruct (Nat.eqb_spec (length (next_level s l)) 0); [lia|].
      rewrite length_next_level at 1. rewrite push_parents_ok by lia.
      rewrite <- length_next_level with (s:=s), take_ge by lia.
      cbn [mbind result_bind]. rewrite app_assoc.
      replace (length (pre ++ l) + length (next_level s l))
        with (length ((pre ++ l) ++ next_level s l)) by (rewrite length_app; lia).
      rewrite IH by lia. rewrite (tree_levels_step s l Hl). simpl. by rewrite <- app_assoc.
    + rewrite (tree_levels_last s l) by lia. simpl. rewrite app_nil_r.
      destruct (length l) as [|[|n]]; [done|done|lia].
Qed.

Lemma MerkleTree_new_ok items s :
  MerkleTree_new items s =
  Ok (mkMerkleTree (length items) (concat (tree_levels s (map hash_leaf items)))).
Proof.
  unfold MerkleTree_new.
  pose proof (build_loop_ok s (length items) [] (map hash_leaf items)) as Hb.
  cbn [app length] in Hb. rewrite !length_map in Hb. by rewrite Hb.
Qed.
End merkle_tree.
