(* ===== verification/MerkleProof.v ===== *)
(** * Inclusion proofs of the Merkle tree

    The loop of [find_path] returns the entries of the specification
    [path_entries]; the sorted tree's proofs pass the on-chain check
    (completeness) and nothing else does (soundness, up to collisions among
    the hashed messages); the unsorted tree's paths pass [Proof::verify]. *)
From S2P Require Import Prelude Machine Hashing Sha256 MerkleTree.
#[local] Open Scope nat_scope.

(** The entries of the path of leaf [i], one per level above [l]. *)
Fixpoint path_entries (ls : list (list Hash)) (l : list Hash) (i : nat) : list ProofEntry :=
  match ls with
  | [] => []
  | l' :: ls =>
      match sibling l i, l' !! (i / 2) with
      | Some h, Some t =>
          (if i mod 2 =? 0 then mkProofEntry t None (Some h) else mkProofEntry t (Some h) None)
          :: path_entries ls l' (i / 2)
      | _, _ => []
      end
  end.

(** Induction along the levels for a goal about a non-empty level [l]. *)
Ltac levels_induction s l Hne :=
  pattern l; revert l Hne; apply (levels_ind s); cbv beta.

Section paths.
Context `{Hasher}.

Lemma sibling_Some l i : i < length l → ∃ h, sibling l i = Some h.
Proof.
  intros Hi. unfold sibling.
  destruct (i mod 2 =? 0); [destruct (Nat.ltb_spec (i + 1) (length l))|];
    apply lookup_lt_is_Some_2; lia.
Qed.

Lemma half_lt s l i : i < length l → 1 < length l → i / 2 < length (next_level s l).
Proof.
  intros Hi Hl. rewrite length_next_level.
  pose proof (Nat.div_mod_eq i 2). pose proof (Nat.mod_upper_bound i 2).
  pose proof (Nat.div_mod_eq (length l + 1) 2).
  pose proof (Nat.mod_upper_bound (length l + 1) 2). lia.
Qed.

Lemma even_odd_cases i : (i mod 2 =? 0) = true ∧ i = 2 * (i / 2)
  ∨ (i mod 2 =? 0) = false ∧ i = 2 * (i / 2) + 1.
Proof.
  pose proof (Nat.div_mod_eq i 2). pose proof (Nat.mod_upper_bound i 2).
  destruct (Nat.eqb_spec (i mod 2) 0); lia.
Qed.

(** The parent of position [i], computed from the node and its sibling. *)
Lemma next_level_parent s l i a h :
  l !! i = Some a → sibling l i = Some h →
  next_level s l !! (i / 2) =
  Some (if i mod 2 =? 0 then hash_pair s a h else hash_pair s h a).
Proof.
  intros Ha. unfold sibling.
  destruct (even_odd_cases i) as [[E Ei]|[E Ei]]; rewrite E; intros Hh.
  - rewrite Ei in Ha. rewrite (next_level_lookup s l _ a Ha). do 2 f_equal.
    rewrite <- Ei in Ha |- *. revert Hh.
    destruct (Nat.ltb_spec (i + 1) (length l)); intros Hh.
    + by rewrite Hh.
    + rewrite lookup_ge_None_2 by lia. simpl. congruence.
  - replace (i - 1) with (2 * (i / 2)) in Hh by lia.
    rewrite (next_level_lookup s l _ h Hh), <- Ei, Ha. done.
Qed.

Lemma hash_pair_sorted a b : hash_pair true a b = verify_step a b.
Proof. done. Qed.

(** ** [find_path] *)
Lemma index_ok {A} (l : list A) i a : l !! i = Some a → index l i = Ok a.
Proof. unfold index. by intros ->. Qed.

Definition pending_entry (t : Hash) (lsib rsib : option Hash) : list ProofEntry :=
  if negb (is_none lsib) || negb (is_none rsib) then [mkProofEntry t lsib rsib] else [].

Lemma slice_middle {A} (pre l rest : list A) :
  slice (pre ++ l ++ rest) (length pre) (length l) = Ok l.
Proof.
  unfold slice. rewrite !length_app.
  destruct (Nat.leb_spec (length pre + length l) (length pre + (length l + length rest))); [|lia].
  by rewrite drop_app_length, take_app_length.
Qed.

Lemma find_path_loop_ok s fuel pre l i a lsib rsib path :
  length l ≤ fuel → l !! i = Some a → ¬ (is_Some lsib ∧ is_Some rsib) →
  find_path_loop fuel (pre ++ concat (tree_levels s l)) (length l) (length pre) i lsib rsib path
  = Ok (path ++ pending_entry a lsib rsib ++ path_entries (tail (tree_levels s l)) l i).
Proof.
  revert pre l i a lsib rsib path.
  induction fuel as [|fuel IH]; intros pre l i a lsib rsib path Hf Ha Hsib.
  { apply lookup_lt_Some in Ha. lia. }
  pose proof (lookup_lt_Some _ _ _ Ha) as Hi.
  destruct (sibling_Some l i Hi) as [h Hh].
  cbn [find_path_loop]. destruct (Nat.eqb_spec (length l) 0); [lia|].
  replace (concat (tree_levels s l)) with (l ++ concat (tail (tree_levels s l))) by done.
  rewrite slice_middle. cbn [mbind result_bind].
  rewrite (index_ok _ _ _ Ha). cbn [mbind result_bind].
  assert ((if negb (is_none lsib) || negb (is_none rsib)
           then pe ← ProofEntry_new a lsib rsib; Ok (path ++ [pe]) else Ok path)
          = Ok (E:=loop_error) (path ++ pending_entry a lsib rsib)) as ->.
  { unfold pending_entry, ProofEntry_new.
    destruct lsib, rsib; simpl; try done; rewrite ?app_nil_r; try done.
    exfalso; eauto. }
  cbn [mbind result_bind].
  set (ls' := if i mod 2 =? 0 then None else Some h).
  set (rs' := if i mod 2 =? 0 then Some h else None).
  match goal with |- mbind _ ?x = _ => assert (x = Ok (ls', rs')) as -> end.
  { unfold sibling in Hh. subst ls' rs'. unfold index.
    destruct (i mod 2 =? 0); [destruct (i + 1 <? length l)|]; rewrite ?Hh; simpl; congruence. }
  cbn [mbind result_bind fst snd].
  destruct (decide (1 < length l)) as [Hl|Hl].
  - rewrite (next_level_len_spec s l Hl), (tree_levels_step s l Hl). cbn [tail].
    pose proof (next_level_parent s l i a h Ha Hh) as Hp.
    set (b := if i mod 2 =? 0 then hash_pair s a h else hash_pair s h a) in *.
    replace (pre ++ l ++ concat (tree_levels s (next_level s l)))
      with ((pre ++ l) ++ concat (tree_levels s (next_level s l))) by by rewrite app_assoc.
    rewrite <- length_app. pose proof (next_level_shrinks s l Hl).
    rewrite (IH _ _ _ b); [|lia|done|subst ls' rs'; destruct (_ =? _); intros [[] []]; done].
    f_equal. rewrite <- !app_assoc. do 2 f_equal.
    destruct (tree_levels_cons s (next_level s l)) as [lv ->]. cbn [path_entries tail].
    rewrite Hh, Hp. subst ls' rs'. unfold pending_entry. by destruct (i mod 2 =? 0).
  - assert (length l = 1) as E by lia. rewrite (tree_levels_last s l) by lia.
    rewrite E. cbn [next_level_len Nat.eqb tail path_entries]. rewrite !app_nil_r. by destruct fuel.
Qed.

Lemma find_path_ok items s i :
  i < length items →
  find_path (mkMerkleTree (length items) (concat (tree_levels s (map hash_leaf items)))) i =
  Ok (Some (path_entries (tail (tree_levels s (map hash_leaf items))) (map hash_leaf items) i)).
Proof.
  intros Hi. unfold find_path. cbn [leaf_count nodes].
  destruct (Nat.leb_spec (length items) i); [lia|].
  destruct (lookup_lt_is_Some_2 (map hash_leaf items) i) as [a Ha]; [by rewrite length_map|].
  pose proof (find_path_loop_ok s (S (length items)) [] (map hash_leaf items) i a None None []) as Hp.
  rewrite length_map in Hp. cbn [app length] in Hp.
  rewrite Hp; [done|lia|done|by intros [[] _]].
Qed.

Lemma get_proof_path_entries l i :
  i < length l →
  ∀ s, try_map get_proof_entry (path_entries (tail (tree_levels s l)) l i) =
  Ok (sibling_path (tail (tree_levels s l)) l i).
Proof.
  intros Hi s. assert (l ≠ []) as Hne by (destruct l; [simpl in Hi; lia|done]).
  revert i Hi. levels_induction s l Hne; [intros a|intros l Hl IH]; intros i Hi.
  - by rewrite tree_levels_last.
  - rewrite (tree_levels_step s l Hl). cbn [tail].
    destruct (tree_levels_cons s (next_level s l)) as [lv E].
    destruct (sibling_Some l i Hi) as [h Hh].
    destruct (lookup_lt_is_Some_2 l i Hi) as [a Ha].
    pose proof (next_level_parent s l i a h Ha Hh) as Hp.
    specialize (IH (i / 2) (half_lt s l i Hi Hl)). rewrite E in IH |- *.
    cbn [path_entries sibling_path tail] in *. rewrite Hh, Hp.
    destruct (i mod 2 =? 0);
      cbn [try_map get_proof_entry pe_left pe_right mbind result_bind]; by rewrite IH.
Qed.

(** ** Completeness *)
Lemma sibling_path_complete l i a r :
  l !! i = Some a → level_root true l = Some r →
  foldl verify_step a (sibling_path (tail (tree_levels true l)) l i) = r.
Proof.
  intros Ha. assert (l ≠ []) as Hne by (destruct l; [done|done]).
  revert i a Ha. levels_induction true l Hne; [intros b|intros l Hl IH]; intros i a Ha Hr.
  - rewrite level_root_one in Hr. rewrite tree_levels_last by done. simpl.
    apply list_lookup_singleton_Some in Ha as [_ ->]. congruence.
  - pose proof (lookup_lt_Some _ _ _ Ha) as Hi.
    destruct (sibling_Some l i Hi) as [h Hh].
    pose proof (next_level_parent true l i a h Ha Hh) as Hp.
    rewrite (level_root_next true l Hl) in Hr.
    rewrite (tree_levels_step true l Hl). cbn [tail].
    specialize (IH (i / 2) _ Hp Hr).
    destruct (tree_levels_cons true (next_level true l)) as [lv E]. rewrite E in IH |- *.
    cbn [sibling_path tail] in *. rewrite Hh. cbn [foldl].
    destruct (i mod 2 =? 0); rewrite !hash_pair_sorted in IH; [done|].
    by rewrite verify_step_comm.
Qed.

(** ** Soundness *)
Lemma next_level_query l x :
  x ∈ next_level true l → ∃ a b, a ∈ l ∧ b ∈ l ∧ x = verify_step a b ∧ verify_query a b ∈ level_queries l.
Proof.
  induction l as [|a|a b l IH] using list_pair_ind; cbn [next_level level_queries].
  - by intros ?%elem_of_nil.
  - intros ->%list_elem_of_singleton. exists a, a. rewrite hash_pair_sorted.
    split_and!; [set_solver..|done|set_solver].
  - intros [->|Hx]%elem_of_cons.
    + exists a, b. rewrite hash_pair_sorted. split_and!; [set_solver..|done|set_solver].
    + destruct (IH Hx) as (c & d & ? & ? & ? & ?). exists c, d. split_and!; set_solver.
Qed.

(** One message equal to an intermediate message of the tree. *)
Lemma chain_in_level leaf p l qs :
  collision_free qs →
  (∀ q, q ∈ verify_queries (hash_leaf leaf) p → q ∈ qs) →
  (∀ q, q ∈ level_queries l → q ∈ qs) → [LEAF_PREFIX; leaf] ∈ qs →
  foldl verify_step (hash_leaf leaf) p ∈ next_level true l →
  ∃ p1 e, p = p1 ++ [e] ∧ foldl verify_step (hash_leaf leaf) p1 ∈ l.
Proof.
  intros Hcf Hv Hl Hleaf Hin.
  apply next_level_query in Hin as (a & b & Ha & Hb & Heq & Hq).
  rewrite (verify_step_query a b) in Heq.
  destruct p as [|e p1 IHp] using rev_ind.
  - simpl in Heq. unfold hash_leaf in Heq.
    apply Hcf in Heq; [|done|by apply Hl]. by apply leaf_query_ne in Heq.
  - exists p1, e. split; [done|]. rewrite foldl_app in Heq. simpl in Heq.
    rewrite verify_step_query in Heq. apply Hcf in Heq.
    + apply verify_query_mem in Heq as [-> | ->]; done.
    + apply Hv. rewrite verify_queries_app. simpl. set_solver.
    + by apply Hl.
Qed.

Lemma chain_to_leaves leaf l r qs :
  collision_free qs → [LEAF_PREFIX; leaf] ∈ qs → l ≠ [] →
  ∀ p, (∀ q, q ∈ verify_queries (hash_leaf leaf) p → q ∈ qs) →
  (∀ q, q ∈ concat (map level_queries (tree_levels true l)) → q ∈ qs) →
  level_root true l = Some r → foldl verify_step (hash_leaf leaf) p = r →
  ∃ p1 p2, p = p1 ++ p2 ∧ foldl verify_step (hash_leaf leaf) p1 ∈ l.
Proof.
  intros Hcf Hleaf Hne. levels_induction true l Hne; [intros b|intros l Hl IH];
    intros p Hv Hq Hr Hp.
  - rewrite level_root_one in Hr. exists p, []. rewrite app_nil_r. split; [done|]. set_solver.
  - rewrite (tree_levels_step true l Hl) in Hq. cbn [map concat] in Hq.
    rewrite (level_root_next true l Hl) in Hr.
    destruct (IH p) as (p1 & p2 & -> & Hin); [done|set_solver|done|done|].
    rewrite verify_queries_app in Hv.
    destruct (chain_in_level leaf p1 l qs Hcf) as (p3 & e & -> & Hin'); [set_solver..|done|].
    exists p3, (e :: p2). split; [by rewrite <- app_assoc|done].
Qed.

(** ** Depth *)
Lemma half_le_pow n k : n ≤ 2 ^ S k → (n + 1) / 2 ≤ 2 ^ k.
Proof.
  intros Hn. rewrite Nat.pow_succ_r' in Hn.
  pose proof (Nat.div_mod_eq (n + 1) 2). pose proof (Nat.mod_upper_bound (n + 1) 2). lia.
Qed.

Lemma sibling_path_depth s l i k :
  l ≠ [] → length l ≤ 2 ^ k → length (sibling_path (tail (tree_levels s l)) l i) ≤ k.
Proof.
  intros Hne. revert i k. levels_induction s l Hne; [intros b|intros l Hl IH]; intros i k Hk.
  - rewrite tree_levels_last by done. simpl. lia.
  - destruct k as [|k]; [simpl in Hk; lia|].
    rewrite (tree_levels_step s l Hl). cbn [tail].
    specialize (IH (i / 2) k). rewrite length_next_level in IH.
    specialize (IH (half_le_pow _ _ Hk)).
    destruct (tree_levels_cons s (next_level s l)) as [lv E]. rewrite E in IH |- *.
    cbn [sibling_path tail] in *. destruct (sibling l i); cbn [length]; lia.
Qed.

(** ** Unsorted trees: every path passes [Proof::verify] *)
Lemma proof_verify_step_ok c t ls rs :
  t = hash_intermediate (default c ls) (default c rs) →
  proof_verify_step c (mkProofEntry t ls rs) = Ok t.
Proof. intros ->. unfold proof_verify_step. simpl. by rewrite bool_decide_eq_true_2. Qed.

Lemma proof_verify_complete l i a :
  l !! i = Some a →
  ∃ r, try_fold proof_verify_step a (path_entries (tail (tree_levels false l)) l i) = Ok r.
Proof.
  intros Ha. assert (l ≠ []) as Hne by (destruct l; [done|done]).
  revert i a Ha. levels_induction false l Hne; [intros b|intros l Hl IH]; intros i a Ha.
  - rewrite tree_levels_last by done. by eexists.
  - pose proof (lookup_lt_Some _ _ _ Ha) as Hi.
    destruct (sibling_Some l i Hi) as [h Hh].
    pose proof (next_level_parent false l i a h Ha Hh) as Hp.
    rewrite (tree_levels_step false l Hl). cbn [tail].
    destruct (IH (i / 2) _ Hp) as [r Hr].
    destruct (tree_levels_cons false (next_level false l)) as [lv E]. rewrite E in Hr |- *.
    cbn [path_entries tail] in *. rewrite Hh, Hp. exists r.
    destruct (i mod 2 =? 0); cbn [try_fold]; by rewrite proof_verify_step_ok.
Qed.

Lemma get_root_tree items s t :
  MerkleTree_new items s = Ok t → get_root t = level_root s (map hash_leaf items).
Proof. rewrite MerkleTree_new_ok. by intros [= <-]. Qed.

Lemma MerkleTree_new_inv items s t :
  MerkleTree_new items s = Ok t →
  t = mkMerkleTree (length items) (concat (tree_levels s (map hash_leaf items))).
Proof. rewrite MerkleTree_new_ok. congruence. Qed.

(** What [get_proof] returns for leaf [i] of a sorted tree. *)
Lemma get_proof_spec items i d :
  items !! i = Some d →
  ∃ proof,
    get_proof (mkMerkleTree (length items) (concat (tree_levels true (map hash_leaf items)))) i
      = Ok proof ∧
    (∀ r, level_root true (map hash_leaf items) = Some r → verify proof r (hash_leaf d) = true) ∧
    (∀ k, length items ≤ 2 ^ k → length proof ≤ k).
Proof.
  intros Hd. pose proof (lookup_lt_Some _ _ _ Hd) as Hi.
  assert (map hash_leaf items !! i = Some (hash_leaf d)) as Hl.
  { rewrite list_lookup_fmap. by rewrite Hd. }
  exists (sibling_path (tail (tree_levels true (map hash_leaf items))) (map hash_leaf items) i).
  split_and!.
  - unfold get_proof. rewrite find_path_ok by done. cbn [mbind result_bind ok_or].
    apply get_proof_path_entries. by rewrite length_map.
  - intros r Hr. apply verify_true. by eapply sibling_path_complete.
  - intros k Hk. apply sibling_path_depth; [by destruct items|by rewrite length_map].
Qed.

(** Executable form of [collision_free]. *)
Definition collision_freeb (qs : list (list (list byte))) : bool :=
  let hs := map (λ x, (hashv x, concat x)) qs in
  forallb (λ p, forallb (λ q, implb (bool_decide (p.1 = q.1)) (bool_decide (p.2 = q.2))) hs) hs.

Lemma collision_freeb_sound qs : collision_freeb qs = true → collision_free qs.
Proof.
  unfold collision_freeb. intros Hb x y Hx%list_elem_of_In Hy%list_elem_of_In Hxy.
  rewrite forallb_forall in Hb.
  specialize (Hb _ (in_map (λ x, (hashv x, concat x)) _ _ Hx)).
  rewrite forallb_forall in Hb.
  specialize (Hb _ (in_map (λ x, (hashv x, concat x)) _ _ Hy)). simpl in Hb.
  rewrite bool_decide_eq_true_2 in Hb by done. by apply bool_decide_eq_true in Hb.
Qed.
End paths.

(** ** Theorems *)
Section theorems.
Context `{Hasher}.

(** Whatever [verify] accepts is a leaf (see [verify_only_accepts_leaves]). *)
Lemma verify_sound items t root d proof :
  MerkleTree_new items true = Ok t → get_root t = Some root →
  collision_free ([LEAF_PREFIX; d] :: tree_queries items ++ verify_queries (hash_leaf d) proof) →
  verify proof root (hash_leaf d) = true →
  d ∈ items.
Proof.
  intros Ht Hr Hcf Hv%verify_true. rewrite (get_root_tree _ _ _ Ht) in Hr.
  set (qs := _ :: _) in Hcf. unfold tree_queries in qs.
  assert (items ≠ []) as Hne by (destruct items; [done|done]).
  destruct (chain_to_leaves d (map hash_leaf items) root qs Hcf) with (p := proof)
    as (p1 & p2 & -> & Hin); [set_solver|by destruct items|set_solver..|done|done|].
  apply list_elem_of_fmap in Hin as (d' & Hd' & Hin).
  destruct p1 as [|e p1 IHp] using rev_ind.
  - simpl in Hd'. unfold hash_leaf in Hd'. apply Hcf in Hd'.
    + by apply leaf_query_inj in Hd' as ->.
    + set_solver.
    + apply elem_of_cons. right. apply elem_of_app. left. apply elem_of_app. left.
      apply list_elem_of_fmap. eauto.
  - rewrite foldl_app in Hd'. simpl in Hd'. rewrite verify_step_query in Hd'.
    symmetry in Hd'. unfold hash_leaf in Hd' at 1. apply Hcf in Hd'.
    + by apply leaf_query_ne in Hd'.
    + apply elem_of_cons. right. apply elem_of_app. left. apply elem_of_app. left.
      apply list_elem_of_fmap. eauto.
    + subst qs. rewrite verify_queries_app, verify_queries_app. simpl. set_solver.
Qed.

(** C16. The construction loop of [MerkleTree::new] always returns (no index is
    out of range and every level shrinks): the flat node vector is the leaves
    followed by every level of the specification, and a root exists exactly
    when there is a leaf. *)
Theorem MerkleTree_new_refines_levels items sorted_hashes :
  ∃ t, MerkleTree_new items sorted_hashes = Ok t ∧
    leaf_count t = length items ∧
    nodes t = concat (tree_levels sorted_hashes (map hash_leaf items)) ∧
    (get_root t = None ↔ items = []).
Proof.
  rewrite MerkleTree_new_ok. eexists; split_and!; [done|done|done|].
  unfold get_root. cbn [nodes]. rewrite last_None.
  destruct items as [|d items]; [done|]. split; [|done].
  unfold tree_levels. done.
Qed.

(** C15. Completeness of the proofs the tooling hands out: for a sorted tree,
    [get_proof] returns a proof for every leaf index, the on-chain [verify]
    accepts it against the tree's root, and its length is at most [k] whenever
    the tree has at most [2^k] leaves. *)
Theorem get_proof_verifies items t root i d k :
  MerkleTree_new items true = Ok t → get_root t = Some root →
  items !! i = Some d → length items ≤ 2 ^ k →
  ∃ proof, get_proof t i = Ok proof ∧ verify proof root (hash_leaf d) = true ∧
    length proof ≤ k.
Proof.
  intros Ht Hr Hd Hk. rewrite (get_root_tree _ _ _ Ht) in Hr.
  apply MerkleTree_new_inv in Ht as ->.
  destruct (get_proof_spec items i d Hd) as (proof & Hp & Hv & Hlen).
  exists proof. split_and!; auto.
Qed.

(** Soundness of the on-chain check: if [verify] accepts a proof for the
    leaf of [d] against the root of the sorted tree over [items], then [d] is
    one of [items], unless two different messages among those hashed to build
    the tree and to run [verify] collide.  Proofs of any length are covered,
    including ones that stop at or start from an intermediate node. *)
Theorem verify_only_accepts_leaves items t root d proof :
  MerkleTree_new items true = Ok t → get_root t = Some root →
  collision_free ([LEAF_PREFIX; d] :: tree_queries items ++ verify_queries (hash_leaf d) proof) →
  verify proof root (hash_leaf d) = true →
  d ∈ items.
Proof. apply verify_sound. Qed.

(** For an unsorted tree, [find_path] returns a path for every leaf index
    and [Proof::verify] accepts that path for the leaf's hash; for an index
    past the leaves it returns [None]. *)
Theorem find_path_verifies items t i :
  MerkleTree_new items false = Ok t →
  match items !! i with
  | Some d => ∃ path, find_path t i = Ok (Some path) ∧ proof_verify path (hash_leaf d) = true
  | None => find_path t i = Ok None
  end.
Proof.
  intros ->%MerkleTree_new_inv. destruct (items !! i) as [d|] eqn:Hd.
  - pose proof (lookup_lt_Some _ _ _ Hd). rewrite find_path_ok by done. eexists; split; [done|].
    unfold proof_verify. apply is_ok_true, proof_verify_complete.
    rewrite list_lookup_fmap. by rewrite Hd.
  - apply lookup_ge_None in Hd. unfold find_path. cbn [leaf_count].
    by destruct (Nat.leb_spec (length items) i); [|lia].
Qed.
End theorems.

(** ** The repository's test vector and witnesses, run with SHA-256 *)
Section examples.
#[local] Existing Instance sha256_hasher.

(** [TEST] of merkle_tree.rs: "my", "very", "eager", ... and its golden root. *)
Definition TEST : list (list byte) :=
  [[x6d; x79]; [x76; x65; x72; x79]; [x65; x61; x67; x65; x72];
   [x6d; x6f; x74; x68; x65; x72]; [x6a; x75; x73; x74];
   [x73; x65; x72; x76; x65; x64]; [x75; x73]; [x6e; x69; x6e; x65];
   [x70; x69; x7a; x7a; x61; x73]; [x6d; x61; x6b; x65]; [x70; x72; x69; x6d; x65]].

Definition root_bytes (r : result loop_error MerkleTree) : option (list N) :=
  match r with
  | Ok t => option_map (λ h, map to_N (b32_list h)) (get_root t)
  | Err _ => None
  end.

Example test_tree_from_many :
  root_bytes (MerkleTree_new TEST false) =
  Some (be_bytes 32 0xb40c847546fdceea166f927fc46c5ca33c3638236a36275c1346d3dffb84e1bc%N).
Proof. vm_compute. reflexivity. Qed.

Example test_tree_from_empty : root_bytes (MerkleTree_new [] false) = None.
Proof. reflexivity. Qed.

Definition ex_items : list (list byte) := [[x61]; [x62]; [x63]].
Definition ex_tree : MerkleTree :=
  mkMerkleTree 3 (concat (tree_levels true (map hash_leaf ex_items))).
Definition ex_root : Hash := default (key 0) (get_root ex_tree).
Definition ex_proof : list Hash :=
  sibling_path (tail (tree_levels true (map hash_leaf ex_items))) (map hash_leaf ex_items) 2.

Lemma get_proof_verifies_witness :
  ∃ proof, get_proof ex_tree 2 = Ok proof ∧ verify proof ex_root (hash_leaf [x63]) = true ∧
    length proof ≤ 2.
Proof.
  apply (get_proof_verifies ex_items ex_tree ex_root 2 [x63] 2);
    [apply MerkleTree_new_ok|vm_compute; reflexivity|reflexivity|simpl; lia].
Defined.

Lemma verify_only_accepts_leaves_witness : [x63] ∈ ex_items.
Proof.
  apply (verify_only_accepts_leaves ex_items ex_tree ex_root [x63] ex_proof);
    [apply MerkleTree_new_ok|vm_compute; reflexivity|apply collision_freeb_sound; vm_compute; reflexivity
    |vm_compute; reflexivity].
Defined.

Lemma find_path_verifies_witness :
  ∃ path, find_path (mkMerkleTree 3 (concat (tree_levels false (map hash_leaf ex_items)))) 1
          = Ok (Some path) ∧ proof_verify path (hash_leaf [x62]) = true.
Proof.
  apply (find_path_verifies ex_items
           (mkMerkleTree 3 (concat (tree_levels false (map hash_leaf ex_items)))) 1).
  apply MerkleTree_new_ok.
Defined.
End examples.
