(* ===== verification/TreeNode.v ===== *)
(** * Claim entries (src/merkle-tree: csv_amount_unit.rs, csv_entry.rs,
    tree_node.rs, error.rs)

    Scaling of CSV amounts to base units, the leaf record and its hash.
    [Pubkey::from_str] (base-58 decoding) is the parameter [PubkeyParser]. *)
From S2P Require Import Prelude Machine Hashing MerkleTree.

(** [MerkleTreeError], without the texts of its messages. *)
Inductive MerkleTreeError :=
| MerkleValidationError
| MerkleRootError
| IoError
| SerdeError
| AmountConversionError.

(** How a call of the crate fails: an error value, a panic ([unwrap],
    [expect], [assert_eq!], [panic!]), or fuel in the model of a loop. *)
Inductive tree_error :=
| TreeErr (e : MerkleTreeError)
| TreePanic
| TreeFuel.

#[global] Instance MerkleTreeError_eq_dec : EqDecision MerkleTreeError.
Proof. solve_decision. Defined.
#[global] Instance tree_error_eq_dec : EqDecision tree_error.
Proof. solve_decision. Defined.

Definition lift_loop {A : Type} (r : result loop_error A) : result tree_error A :=
  match r with
  | Ok a => Ok a
  | Err Panicked => Err TreePanic
  | Err OutOfFuel => Err TreeFuel
  end.

Inductive CsvAmountUnit := Tokens | Cents.

Definition csv_amount_to_base_units (amount mint_decimals : Z) (unit : CsvAmountUnit)
  : result tree_error Z :=
  match unit with
  | Tokens =>
      scale ← ok_or (checked_pow_u64 10 mint_decimals) (TreeErr AmountConversionError);
      ok_or (checked_mul_u64 amount scale) (TreeErr AmountConversionError)
  | Cents =>
      if mint_decimals <? 2 then Err (TreeErr AmountConversionError)
      else
        let exp := mint_decimals - 2 in
        scale ← ok_or (checked_pow_u64 10 exp) (TreeErr AmountConversionError);
        ok_or (checked_mul_u64 amount scale) (TreeErr AmountConversionError)
  end.

Record CsvEntry := mkCsvEntry {
  ce_pubkey : string;
  ce_amount : Z;
  ce_locked_amount : option Z
}.

Record TreeNode := mkTreeNode {
  tn_claimant : Pubkey;
  tn_amount : Z;
  tn_locked_amount : option Z;
  tn_proof : option (list Hash)
}.

Class PubkeyParser := pubkey_from_str : string → option Pubkey.

Definition unlocked_amount_of (n : TreeNode) : Z := tn_amount n.
Definition locked_amount_of (n : TreeNode) : Z := default 0 (tn_locked_amount n).

(** [total_amount]: panics on overflow. *)
Definition total_amount (n : TreeNode) : result tree_error Z :=
  ok_or (checked_add_u64 (tn_amount n) (default 0 (tn_locked_amount n))) TreePanic.

(** The bytes of a claim entry, as the leaf and the on-chain handler hash them. *)
Definition claim_slices (claimant : Pubkey) (amount_unlocked amount_locked : Z)
  : list (list byte) :=
  [b32_list claimant; u64_to_le_bytes amount_unlocked; u64_to_le_bytes amount_locked].

Definition node_hash `{Hasher} (n : TreeNode) : Hash :=
  hashv (claim_slices (tn_claimant n) (tn_amount n) (default 0 (tn_locked_amount n))).

Definition TreeNode_from_csv `{PubkeyParser} (entry : CsvEntry) (mint_decimals : Z)
    (csv_amount_unit : CsvAmountUnit) : result tree_error TreeNode :=
  amount ← csv_amount_to_base_units (ce_amount entry) mint_decimals csv_amount_unit;
  locked_amount ←
    match ce_locked_amount entry with
    | Some la => v ← csv_amount_to_base_units la mint_decimals csv_amount_unit; Ok (Some v)
    | None => Ok None
    end;
  claimant ← ok_or (pubkey_from_str (ce_pubkey entry)) (TreeErr AmountConversionError);
  Ok (mkTreeNode claimant amount locked_amount None).

(** ** Well-formed entries: amounts are [u64] values. *)
Definition node_wf (n : TreeNode) : Prop :=
  is_u64 (tn_amount n) ∧ is_u64 (locked_amount_of n).

(** Unlocked plus locked, as an integer. *)
Definition node_total (n : TreeNode) : Z := tn_amount n + locked_amount_of n.

Lemma node_total_nonneg n : node_wf n → 0 ≤ node_total n.
Proof. unfold node_wf, node_total. zlia. Qed.

Lemma total_amount_Ok n a :
  total_amount n = Ok a ↔ a = node_total n ∧ node_total n ≤ U64_MAX.
Proof. unfold total_amount. rewrite ok_or_Ok. apply checked_add_u64_Some. Qed.

(** The encoding of a claim entry is injective. *)
Lemma claim_slices_inj c1 u1 l1 c2 u2 l2 :
  is_u64 u1 → is_u64 l1 → is_u64 u2 → is_u64 l2 →
  concat (claim_slices c1 u1 l1) = concat (claim_slices c2 u2 l2) →
  c1 = c2 ∧ u1 = u2 ∧ l1 = l2.
Proof.
  intros ???? Heq. unfold claim_slices in Heq. cbn [concat] in Heq. rewrite !app_nil_r in Heq.
  apply app_inj_length in Heq as [Hc Heq]; [|by rewrite !b32_length].
  apply (inj b32_list) in Hc. unfold u64_to_le_bytes in Heq.
  apply app_inj_length in Heq as [Hu Hl]; [|by rewrite !length_to_le_bytes].
  split_and!; [done|by apply u64_to_le_bytes_inj..].
Qed.

Lemma pow10_positive e : 0 ≤ e → 0 < 10 ^ e.
Proof. intros. apply Z.pow_pos_nonneg; lia. Qed.

Lemma csv_amount_to_base_units_spec amount mint_decimals unit :
  is_u64 amount → 0 ≤ mint_decimals →
  let exp := match unit with Tokens => mint_decimals | Cents => mint_decimals - 2 end in
  match csv_amount_to_base_units amount mint_decimals unit with
  | Ok base => base = amount * 10 ^ exp ∧ is_u64 base ∧ 0 ≤ exp
  | Err e => e = TreeErr AmountConversionError ∧
             (exp < 0 ∨ U64_MAX < 10 ^ exp ∨ U64_MAX < amount * 10 ^ exp)
  end.
Proof.
  intros Ha Hd exp.
  assert (∀ e, 0 ≤ e →
    match (scale ← ok_or (checked_pow_u64 10 e) (TreeErr AmountConversionError);
           ok_or (checked_mul_u64 amount scale) (TreeErr AmountConversionError)) with
    | Ok base => base = amount * 10 ^ e ∧ is_u64 base ∧ 0 ≤ e
    | Err err => err = TreeErr AmountConversionError ∧
               (e < 0 ∨ U64_MAX < 10 ^ e ∨ U64_MAX < amount * 10 ^ e)
    end) as Hscale.
  { intros e He. pose proof (pow10_positive e He).
    unfold checked_pow_u64. destruct (Z.leb_spec (10 ^ e) U64_MAX); simpl; [|auto].
    unfold checked_mul_u64. destruct (Z.leb_spec (amount * 10 ^ e) U64_MAX); simpl; [|auto].
    unfold is_u64 in *. split_and!; [done|nia|done|done]. }
  unfold csv_amount_to_base_units. destruct unit; subst exp; [by apply Hscale|].
  destruct (Z.ltb_spec mint_decimals 2); [split; [done|left; lia]|].
  apply Hscale. lia.
Qed.

Definition csv_entry_wf (e : CsvEntry) : Prop :=
  is_u64 (ce_amount e) ∧ is_u64 (default 0 (ce_locked_amount e)).

Lemma csv_amount_to_base_units_u64 amount mint_decimals unit base :
  is_u64 amount → 0 ≤ mint_decimals →
  csv_amount_to_base_units amount mint_decimals unit = Ok base → is_u64 base.
Proof.
  intros Ha Hd Hok. pose proof (csv_amount_to_base_units_spec amount mint_decimals unit Ha Hd) as Hs.
  rewrite Hok in Hs. apply Hs.
Qed.

(** A converted row is a well-formed node of the row's key. *)
Lemma TreeNode_from_csv_Ok `{PubkeyParser} e mint_decimals unit n :
  csv_entry_wf e → 0 ≤ mint_decimals → TreeNode_from_csv e mint_decimals unit = Ok n →
  node_wf n ∧ pubkey_from_str (ce_pubkey e) = Some (tn_claimant n).
Proof.
  intros [Ha Hl] Hd. unfold TreeNode_from_csv.
  destruct (csv_amount_to_base_units (ce_amount e) mint_decimals unit) as [a|] eqn:Ea; [|done].
  apply csv_amount_to_base_units_u64 in Ea; [|done..]. cbn [mbind result_bind].
  destruct (ce_locked_amount e) as [l|]; cbn [mbind result_bind].
  - destruct (csv_amount_to_base_units l mint_decimals unit) as [v|] eqn:El; [|done].
    apply csv_amount_to_base_units_u64 in El; [|done..]. cbn [mbind result_bind].
    destruct (pubkey_from_str (ce_pubkey e)) as [k|]; [|done]. intros [= <-]. done.
  - destruct (pubkey_from_str (ce_pubkey e)) as [k|]; [|done]. intros [= <-].
    split; [split; [done|]|done]. unfold locked_amount_of. simpl. zlia.
Qed.

(** Scaling a CSV amount is exact or an error: a successful conversion
    multiplies by [10^decimals] (tokens) or [10^(decimals-2)] (cents, which
    needs at least two decimals), never wraps, and the conversion fails exactly
    when the scaled amount (or the scale) leaves [u64]. *)
Theorem csv_amount_to_base_units_exact amount mint_decimals unit :
  is_u64 amount → 0 ≤ mint_decimals →
  let exp := match unit with Tokens => mint_decimals | Cents => mint_decimals - 2 end in
  match csv_amount_to_base_units amount mint_decimals unit with
  | Ok base => base = amount * 10 ^ exp ∧ is_u64 base ∧ 0 ≤ exp
  | Err e => e = TreeErr AmountConversionError ∧
             (exp < 0 ∨ U64_MAX < 10 ^ exp ∨ U64_MAX < amount * 10 ^ exp)
  end.
Proof. apply csv_amount_to_base_units_spec. Qed.

Lemma csv_amount_to_base_units_exact_witness :
  82550000 = 8255 * 10 ^ (6 - 2) ∧ is_u64 82550000 ∧ 0 ≤ 6 - 2.
Proof.
  exact (csv_amount_to_base_units_exact 8255 6 Cents ltac:(zlia) ltac:(lia)).
Defined.
