(* ===== verification/Airdrop.v ===== *)
(** * The airdrop tree (src/merkle-tree/src/airdrop_merkle_tree.rs, utils.rs)

    [AirdropMerkleTree::new] with its merging of duplicate claimants, the
    proofs it stores, [get_max_total_claim] and [validate].  The [IndexMap]
    is an association list in insertion order. *)
From S2P Require Import Prelude Machine Hashing Sha256 MerkleTree MerkleProof TreeNode.

Record AirdropMerkleTree := mkAirdrop {
  at_merkle_root : Hash;
  at_airdrop_version : Z;
  at_max_num_nodes : Z;
  at_max_total_claim : Z;
  at_tree_nodes : list TreeNode
}.

(** [and_modify] of a duplicate claimant: both amounts are added, [unwrap]ped. *)
Definition combine_nodes (n tree_node : TreeNode) : result tree_error TreeNode :=
  amount ← ok_or (checked_add_u64 (tn_amount n) (tn_amount tree_node)) TreePanic;
  locked ←
    match tn_locked_amount n, tn_locked_amount tree_node with
    | Some a, Some b => v ← ok_or (checked_add_u64 a b) TreePanic; Ok (Some v)
    | Some a, None => Ok (Some a)
    | None, Some b => Ok (Some b)
    | None, None => Ok None
    end;
  Ok (mkTreeNode (tn_claimant n) amount locked (tn_proof n)).

(** [map.entry(claimant).and_modify(..).or_insert_with(..)]. *)
Fixpoint entry_combine (m : list (Pubkey * TreeNode)) (tree_node : TreeNode)
  : result tree_error (list (Pubkey * TreeNode)) :=
  match m with
  | [] => Ok [(tn_claimant tree_node, tree_node)]
  | (k, n) :: m =>
      if bool_decide (k = tn_claimant tree_node)
      then n' ← combine_nodes n tree_node; Ok ((k, n') :: m)
      else m' ← entry_combine m tree_node; Ok ((k, n) :: m')
  end.

(** Panics on overflow. *)
Definition get_max_total_claim (ns : list TreeNode) : result tree_error Z :=
  try_fold (λ acc n, a ← total_amount n; ok_or (checked_add_u64 acc a) TreePanic) 0 ns.

Definition with_proof (n : TreeNode) (p : list Hash) : TreeNode :=
  mkTreeNode (tn_claimant n) (tn_amount n) (tn_locked_amount n) (Some p).

Section airdrop.
Context `{Hasher}.

Definition hashed_nodes (ns : list TreeNode) : list (list byte) :=
  map (λ n, b32_list (node_hash n)) ns.

(** [for (i, tree_node) in tree_nodes.iter_mut().enumerate()]. *)
Definition set_proofs (t : MerkleTree) (ns : list TreeNode) : result tree_error (list TreeNode) :=
  try_map (λ '(i, n), p ← lift_loop (get_proof t i); Ok (with_proof n p))
          (zip (seq 0 (length ns)) ns).

(** [verify_proof]: rebuild the tree and check every leaf's proof. *)
Definition verify_proof (tree : AirdropMerkleTree) : result tree_error unit :=
  let hs := hashed_nodes (at_tree_nodes tree) in
  mk ← lift_loop (MerkleTree_new hs true);
  root ← ok_or (get_root mk) (TreeErr MerkleValidationError);
  _ ← require (bool_decide (root = at_merkle_root tree)) TreePanic;
  try_fold (λ _ '(i, d),
      proof ← lift_loop (get_proof mk i);
      require (verify proof (at_merkle_root tree) (hash_leaf d)) (TreeErr MerkleValidationError))
    tt (zip (seq 0 (length hs)) hs).

Definition validate (tree : AirdropMerkleTree) : result tree_error unit :=
  _ ← require (negb (2 ^ 32 - 1 <? at_max_num_nodes tree)) (TreeErr MerkleValidationError);
  _ ← require (bool_decide (Z.of_nat (length (at_tree_nodes tree)) = at_max_num_nodes tree))
        (TreeErr MerkleValidationError);
  _ ← require (bool_decide
        (size (list_to_set (map tn_claimant (at_tree_nodes tree)) : gset Pubkey)
         = length (at_tree_nodes tree))) (TreeErr MerkleValidationError);
  sum ← get_max_total_claim (at_tree_nodes tree);
  _ ← require (bool_decide (sum = at_max_total_claim tree)) (TreeErr MerkleValidationError);
  match verify_proof tree with
  | Ok _ => Ok tt
  | Err (TreeErr _) => Err (TreeErr MerkleValidationError)
  | Err e => Err e
  end.

Definition AirdropMerkleTree_new (tree_nodes : list TreeNode) (airdrop_version : Z)
  : result tree_error AirdropMerkleTree :=
  tree_nodes_map ← try_fold entry_combine [] tree_nodes;
  let ns := map snd tree_nodes_map in
  tree ← lift_loop (MerkleTree_new (hashed_nodes ns) true);
  ns' ← set_proofs tree ns;
  max_total_claim ← get_max_total_claim ns';
  root ← ok_or (get_root tree) (TreeErr MerkleRootError);
  let result := mkAirdrop root airdrop_version (Z.of_nat (length ns')) max_total_claim ns' in
  _ ← validate result;
  Ok result.

Definition new_from_entries `{PubkeyParser} (csv_entries : list CsvEntry) (version : Z)
    (mint_decimals : Z) (csv_amount_unit : CsvAmountUnit) : result tree_error AirdropMerkleTree :=
  tree_nodes ← try_map (λ x, TreeNode_from_csv x mint_decimals csv_amount_unit) csv_entries;
  AirdropMerkleTree_new tree_nodes version.

(** [get_node] panics when the claimant is not in the tree. *)
Fixpoint get_node_in (ns : list TreeNode) (claimant : Pubkey) : result tree_error TreeNode :=
  match ns with
  | [] => Err TreePanic
  | n :: ns => if bool_decide (tn_claimant n = claimant) then Ok n else get_node_in ns claimant
  end.
Definition get_node (tree : AirdropMerkleTree) (claimant : Pubkey) : result tree_error TreeNode :=
  get_node_in (at_tree_nodes tree) claimant.

(** [convert_to_hashmap]: collecting into a [HashMap], later keys win. *)
Definition convert_to_hashmap (tree : AirdropMerkleTree) : gmap Pubkey TreeNode :=
  foldl (λ m n, <[tn_claimant n := n]> m) ∅ (at_tree_nodes tree).

(** ** Merging duplicate claimants *)

(** What the input rows give to claimant [c]. *)
Definition amount_for (c : Pubkey) (rows : list TreeNode) : Z :=
  sum_list (λ n, if bool_decide (tn_claimant n = c) then tn_amount n else 0) rows.
Definition locked_for (c : Pubkey) (rows : list TreeNode) : Z :=
  sum_list (λ n, if bool_decide (tn_claimant n = c) then locked_amount_of n else 0) rows.

(** Invariant of the map: distinct keys, each the claimant of its node. *)
Record map_ok (m : list (Pubkey * TreeNode)) : Prop := {
  mo_nodup : NoDup (map fst m);
  mo_keys : Forall (λ p, tn_claimant p.2 = p.1) m;
  mo_wf : Forall (λ p, node_wf p.2) m
}.

Lemma combine_nodes_spec n n' r :
  node_wf n → node_wf n' → combine_nodes n n' = Ok r →
  tn_claimant r = tn_claimant n ∧ tn_amount r = tn_amount n + tn_amount n' ∧
  locked_amount_of r = locked_amount_of n + locked_amount_of n' ∧ node_wf r.
Proof.
  intros Hn Hn' Hr. unfold combine_nodes in Hr. inv_ok.
  apply checked_add_u64_Some in Hok as [-> ?].
  unfold node_wf, locked_amount_of, is_u64 in *; simpl in *.
  destruct (tn_locked_amount n), (tn_locked_amount n'); simpl in *; inv_ok; simpl;
    try match goal with E : checked_add_u64 _ _ = Some _ |- _ =>
      apply checked_add_u64_Some in E as [-> ?] end; split_and!; try lia; done.
Qed.

Lemma combine_nodes_ok n n' :
  node_wf n → node_wf n' → node_total n + node_total n' ≤ U64_MAX →
  ∃ r, combine_nodes n n' = Ok r.
Proof.
  unfold node_wf, node_total, locked_amount_of, is_u64. intros Hn Hn' Hs.
  assert (∀ a b, a + b ≤ U64_MAX → checked_add_u64 a b = Some (a + b)) as Hadd.
  { intros. by apply checked_add_u64_Some. }
  unfold combine_nodes. rewrite Hadd by lia. simpl.
  destruct (tn_locked_amount n), (tn_locked_amount n'); simpl in *;
    rewrite ?Hadd by lia; simpl; eauto.
Qed.

Lemma entry_combine_keys m n m' :
  entry_combine m n = Ok m' →
  map fst m' = map fst m ++ (if bool_decide (tn_claimant n ∈ map fst m) then [] else [tn_claimant n]).
Proof.
  revert m'; induction m as [|[k x] m IH]; intros m' Hm; simpl in *.
  - by inv_ok.
  - case_bool_decide as E1; inv_ok; simpl.
    + rewrite bool_decide_eq_true_2 by (subst; set_solver). by rewrite app_nil_r.
    + rewrite (IH _ Hok).
      rewrite (bool_decide_ext (tn_claimant n ∈ k :: map fst m) (tn_claimant n ∈ map fst m));
        set_solver.
Qed.

Lemma entry_combine_sum (f : TreeNode → Z) m n m' :
  (∀ a b r, node_wf a → node_wf b → combine_nodes a b = Ok r → f r = f a + f b) →
  node_wf n → map_ok m → entry_combine m n = Ok m' →
  (∀ c, sum_list (λ p, if bool_decide (p.1 = c) then f p.2 else 0) m' =
        sum_list (λ p, if bool_decide (p.1 = c) then f p.2 else 0) m +
        (if bool_decide (tn_claimant n = c) then f n else 0)) ∧
  sum_list (λ p, f p.2) m' = sum_list (λ p, f p.2) m + f n.
Proof.
  intros Hf Hn [_ _ Hwf]. revert m'. induction Hwf as [|[k x] m Hx Hwf IH]; intros m' Hm; simpl in *.
  - inv_ok. simpl. split; [intros c|]; lia.
  - case_bool_decide as E1; inv_ok; simpl.
    + rewrite (Hf _ _ _ Hx Hn Hok). split; [intros c; case_bool_decide|]; lia.
    + destruct (IH _ Hok) as [IH1 IH2]. split; [intros c; rewrite IH1|]; lia.
Qed.

Lemma entry_combine_ok m n m' :
  node_wf n → map_ok m → entry_combine m n = Ok m' → map_ok m'.
Proof.
  intros Hn Hm Hr. pose proof (entry_combine_keys _ _ _ Hr) as Hk. destruct Hm as [Hnd Hkeys Hwf].
  assert (Forall (λ p, tn_claimant p.2 = p.1) m' ∧ Forall (λ p, node_wf p.2) m') as [? ?].
  { clear Hk Hnd. revert m' Hr. induction m as [|[k x] m IH]; intros m' Hr; simpl in *.
    - inv_ok. split; repeat constructor; simpl; done || apply Hn.
    - inversion_clear Hkeys as [|?? Hk1 Hk2]. inversion_clear Hwf as [|?? Hw1 Hw2]. simpl in *.
      case_bool_decide as E1; inv_ok.
      + destruct (combine_nodes_spec _ _ _ Hw1 Hn Hok) as (? & ? & ? & ?).
        split; constructor; simpl; congruence || done.
      + destruct (IH Hk2 Hw2 _ Hok). split; by constructor. }
  split; [|done..]. rewrite Hk. apply NoDup_app. split_and!; [done| |].
  - intros x Hx. case_bool_decide; [apply not_elem_of_nil|]. set_solver.
  - case_bool_decide; [constructor|apply NoDup_singleton].
Qed.

Lemma entry_combine_progress m n :
  node_wf n → map_ok m → sum_list (λ p, node_total p.2) m + node_total n ≤ U64_MAX →
  ∃ m', entry_combine m n = Ok m'.
Proof.
  intros Hn [_ _ Hwf]. induction Hwf as [|[k x] m Hx Hwf IH]; simpl; intros Hs; [eauto|].
  simpl in Hx.
  assert (0 ≤ sum_list (λ p, node_total p.2) m).
  { apply sum_list_nonneg. intros p Hp. apply node_total_nonneg.
    by eapply (proj1 (Forall_forall _ _) Hwf). }
  pose proof (node_total_nonneg x Hx).
  case_bool_decide.
  - destruct (combine_nodes_ok x n) as [r ->]; [done..|lia|]. simpl; eauto.
  - destruct IH as [m' ->]; [lia|]. simpl; eauto.
Qed.

Lemma sum_at_key (f : TreeNode → Z) m k n :
  NoDup (map fst m) → (k, n) ∈ m →
  sum_list (λ p : Pubkey * TreeNode, if bool_decide (p.1 = k) then f p.2 else 0) m = f n.
Proof.
  induction m as [|[j x] m IH]; simpl; [by intros _ ?%elem_of_nil|].
  intros [Hj Hnd]%NoDup_cons [[= <- <-]|Hin]%elem_of_cons.
  - rewrite bool_decide_eq_true_2 by done. rewrite (sum_list_ext _ (λ _, 0)).
    + assert (∀ l : list (Pubkey * TreeNode), sum_list (λ _, 0) l = 0) as -> by by induction l.
      lia.
    + intros [j x] Hp. simpl. case_bool_decide; [|done]. subst j.
      destruct Hj. apply list_elem_of_fmap. by exists (k, x).
  - rewrite bool_decide_eq_false_2, IH; [lia|done|done|]. intros ->. apply Hj.
    apply list_elem_of_fmap. by exists (k, n).
Qed.

(** The merged map of a list of well-formed rows. *)
Lemma combine_all_spec rows m :
  Forall node_wf rows → try_fold entry_combine [] rows = Ok m →
  map_ok m ∧
  (∀ k n, (k, n) ∈ m → tn_amount n = amount_for k rows ∧ locked_amount_of n = locked_for k rows) ∧
  sum_list (λ p, node_total p.2) m = sum_list node_total rows ∧
  (∀ c, c ∈ map fst m ↔ c ∈ map tn_claimant rows).
Proof.
  intros Hwf Hm.
  assert (map_ok m ∧
    (∀ c, sum_list (λ p, if bool_decide (p.1 = c) then tn_amount p.2 else 0) m = amount_for c rows) ∧
    (∀ c, sum_list (λ p, if bool_decide (p.1 = c) then locked_amount_of p.2 else 0) m = locked_for c rows) ∧
    sum_list (λ p, node_total p.2) m = sum_list node_total rows ∧
    (∀ c, c ∈ map fst m ↔ c ∈ map tn_claimant rows)) as (Hok & Ha & Hl & Ht & Hk).
  2: { split_and!; [done| |done|done]. intros k n Hin. rewrite <- Ha, <- Hl.
       by rewrite !(sum_at_key _ m k n) by (done || apply Hok). }
  revert m Hm. induction rows as [|n rows IH] using rev_ind; intros m Hm.
  { simpl in Hm. inv_ok. split_and!; try done. split; constructor. }
  apply Forall_app in Hwf as [Hwf [Hn _]%Forall_cons].
  rewrite try_fold_app in Hm. apply bind_Ok in Hm as (v & Hok & Hm). simpl in Hm.
  destruct (entry_combine v n) as [m'|] eqn:Hc; simpl in Hm; [|done]. injection Hm as <-.
  destruct (IH Hwf _ Hok) as (Hmo & Ha & Hl & Ht & Hk).
  destruct (entry_combine_sum tn_amount v n m') as [Ha' _]; [|done|done|done|].
  { intros a b r ?? Hr. destruct (combine_nodes_spec a b r) as (?&?&?&?); auto. }
  destruct (entry_combine_sum locked_amount_of v n m') as [Hl' _]; [|done|done|done|].
  { intros a b r ?? Hr. destruct (combine_nodes_spec a b r) as (?&?&?&?); auto. }
  destruct (entry_combine_sum node_total v n m') as [_ Ht']; [|done|done|done|].
  { intros a b r ?? Hr. destruct (combine_nodes_spec a b r) as (?&?&?&?); auto.
    unfold node_total. lia. }
  unfold amount_for, locked_for in *. split_and!.
  - by eapply entry_combine_ok.
  - intros c. rewrite Ha', Ha, sum_list_app. simpl. lia.
  - intros c. rewrite Hl', Hl, sum_list_app. simpl. lia.
  - rewrite Ht', Ht, sum_list_app. simpl. lia.
  - intros c. rewrite (entry_combine_keys _ _ _ Hc), map_app. simpl.
    case_bool_decide; set_solver.
Qed.

Lemma combine_all_progress rows :
  Forall node_wf rows → sum_list node_total rows ≤ U64_MAX →
  ∃ m, try_fold entry_combine [] rows = Ok m.
Proof.
  intros Hwf Hs. induction rows as [|n rows IH] using rev_ind; [simpl; eauto|].
  apply Forall_app in Hwf as [Hwf [Hn _]%Forall_cons].
  rewrite sum_list_app in Hs. simpl in Hs. pose proof (node_total_nonneg n Hn).
  destruct IH as [m Hm]; [done|lia|].
  destruct (combine_all_spec rows m Hwf Hm) as (Hmo & _ & Ht & _).
  destruct (entry_combine_progress m n Hn Hmo) as [m' Hm']; [lia|].
  exists m'. rewrite try_fold_app, Hm. simpl. by rewrite Hm'.
Qed.

Lemma combine_all_err rows m e : try_fold entry_combine m rows = Err e → e = TreePanic.
Proof.
  assert (∀ a b e, combine_nodes a b = Err e → e = TreePanic) as Hc.
  { intros a b e'. unfold combine_nodes, ok_or. 
    repeat (case_match; simpl; try congruence). }
  assert (∀ n m e, entry_combine m n = Err e → e = TreePanic) as He.
  { intros n m'. induction m' as [|[k x] m' IH]; intros e' He'; simpl in He'; [done|].
    case_bool_decide.
    - destruct (combine_nodes x n) eqn:E; simpl in He'; [done|]. injection He' as <-. eauto.
    - destruct (entry_combine m' n) eqn:E; simpl in He'; [done|]. injection He' as <-. eauto. }
  revert m; induction rows as [|n rows IH]; intros m Hm; simpl in Hm; [done|].
  destruct (entry_combine m n) eqn:E; simpl in Hm; [eauto|]. injection Hm as <-. eauto.
Qed.

(** ** Totals *)
Lemma max_total_claim_from ns acc :
  Forall node_wf ns → 0 ≤ acc ≤ U64_MAX →
  try_fold (λ acc n, a ← total_amount n; ok_or (checked_add_u64 acc a) TreePanic) acc ns =
  if acc + sum_list node_total ns <=? U64_MAX then Ok (acc + sum_list node_total ns)
  else Err TreePanic.
Proof.
  intros Hwf. revert acc. induction Hwf as [|n ns Hn Hwf IH]; intros acc Hacc; simpl.
  { rewrite Z.add_0_r. by destruct (Z.leb_spec acc U64_MAX); [|lia]. }
  pose proof (node_total_nonneg n Hn) as Hpos.
  assert (0 ≤ sum_list node_total ns).
  { apply sum_list_nonneg. intros x Hx. apply node_total_nonneg. by eapply Forall_forall in Hwf. }
  destruct (total_amount n) as [a|e] eqn:Ha; simpl.
  - apply total_amount_Ok in Ha as [-> Ha]. unfold checked_add_u64.
    destruct (Z.leb_spec (acc + node_total n) U64_MAX); simpl.
    + rewrite IH by lia. by rewrite !Z.add_assoc.
    + destruct (Z.leb_spec (acc + (node_total n + sum_list node_total ns)) U64_MAX); [lia|done].
  - unfold total_amount, checked_add_u64, node_total, locked_amount_of in *.
    destruct (Z.leb_spec (tn_amount n + default 0 (tn_locked_amount n)) U64_MAX); simpl in Ha; [done|].
    injection Ha as <-.
    match goal with |- context [?x <=? _] => destruct (Z.leb_spec x U64_MAX) end; [lia|done].
Qed.

Lemma get_max_total_claim_eq ns :
  Forall node_wf ns →
  get_max_total_claim ns =
  if sum_list node_total ns <=? U64_MAX then Ok (sum_list node_total ns) else Err TreePanic.
Proof. intros Hwf. unfold get_max_total_claim. by rewrite max_total_claim_from. Qed.

(** ** Stored proofs *)
Lemma elem_of_enumerate {A} (l : list A) i x :
  (i, x) ∈ zip (seq 0 (length l)) l → l !! i = Some x.
Proof.
  intros (j & Hj)%list_elem_of_lookup. apply lookup_zip_with_Some in Hj as (a & b & [= -> ->] & Ha & Hb).
  apply lookup_seq in Ha as [-> _]. done.
Qed.

Lemma node_hash_with_proof n p : node_hash (with_proof n p) = node_hash n.
Proof. done. Qed.

Lemma set_proofs_ok ns :
  let hs := hashed_nodes ns in
  ∃ ns', set_proofs (mkMerkleTree (length hs) (concat (tree_levels true (map hash_leaf hs)))) ns
           = Ok ns' ∧
    Forall2 (λ n n', ∃ p, n' = with_proof n p ∧
      (∀ r, level_root true (map hash_leaf hs) = Some r →
            verify p r (hash_leaf (b32_list (node_hash n))) = true) ∧
      (∀ k, (length hs ≤ 2 ^ k)%nat → (length p ≤ k)%nat)) ns ns'.
Proof.
  intros hs. set (t := mkMerkleTree _ _).
  assert (∀ i n, ns !! i = Some n → hs !! i = Some (b32_list (node_hash n))) as Hlk.
  { intros i n Hi. unfold hs, hashed_nodes. rewrite list_lookup_fmap. by rewrite Hi. }
  destruct (proj2 (try_map_Ok_iff
      (λ '(i, n), p ← lift_loop (get_proof t i); Ok (with_proof n p)) (zip (seq 0 (length ns)) ns)))
    as [ns' Hns'].
  { intros [i n] Hin%elem_of_enumerate.
    destruct (get_proof_spec hs i _ (Hlk _ _ Hin)) as (p & Hp & _).
    unfold t. rewrite Hp. simpl. eauto. }
  exists ns'. split; [exact Hns'|]. apply try_map_Forall2 in Hns'.
  rewrite Forall2_same_length_lookup in Hns'. destruct Hns' as [Hlen Hf].
  assert (length (zip (seq 0 (length ns)) ns) = length ns) as Hzl.
  { rewrite length_zip_with, length_seq. lia. }
  apply Forall2_same_length_lookup. split; [lia|]. intros i n n' Hn Hn'.
  assert (zip (seq 0 (length ns)) ns !! i = Some (i, n)) as Hz.
  { apply lookup_zip_with_Some. exists i, n. split_and!; [done| |done].
    apply lookup_seq. split; [done|]. by eapply lookup_lt_Some. }
  specialize (Hf i (i, n) n' Hz Hn'). simpl in Hf.
  destruct (get_proof_spec hs i _ (Hlk _ _ Hn)) as (p & Hp & Hv & Hk).
  unfold t in Hf. rewrite Hp in Hf. simpl in Hf. injection Hf as <-. eauto.
Qed.

(** The nodes with proofs differ from the merged nodes in their proofs only. *)
Lemma with_proof_Forall2 (P : TreeNode → list Hash → Prop) ns ns' :
  Forall2 (λ n n', ∃ p, n' = with_proof n p ∧ P n p) ns ns' →
  map tn_claimant ns' = map tn_claimant ns ∧ hashed_nodes ns' = hashed_nodes ns ∧
  sum_list node_total ns' = sum_list node_total ns ∧ (Forall node_wf ns → Forall node_wf ns').
Proof.
  induction 1 as [|n n' ns ns' (p & -> & _) Hf (IH1 & IH2 & IH3 & IH4)]; [done|].
  simpl. rewrite IH1, IH2, IH3. split_and!; [done..|].
  intros [Hn Hns]%Forall_cons. constructor; auto.
Qed.

(** ** Validation never rejects a tree that [new] built *)
Lemma verify_proof_ok tree root :
  level_root true (map hash_leaf (hashed_nodes (at_tree_nodes tree))) = Some root →
  at_merkle_root tree = root → verify_proof tree = Ok tt.
Proof.
  intros Hr Hroot. unfold verify_proof. rewrite MerkleTree_new_ok. simpl mbind.
  change (get_root _) with (level_root true (map hash_leaf (hashed_nodes (at_tree_nodes tree)))).
  rewrite Hr, Hroot. simpl mbind. rewrite bool_decide_eq_true_2 by done. simpl mbind.
  set (hs := hashed_nodes (at_tree_nodes tree)) in *.
  assert (∀ l, (∀ i d, (i, d) ∈ l → hs !! i = Some d) →
    try_fold (λ (_ : unit) '(i, d),
      proof ← lift_loop (get_proof (mkMerkleTree (length hs)
                 (concat (tree_levels true (map hash_leaf hs)))) i);
      require (verify proof root (hash_leaf d)) (TreeErr MerkleValidationError)) tt l = Ok tt) as Hf.
  { induction l as [|[i d] l IH]; intros Hl; [done|]. cbn [try_fold].
    destruct (get_proof_spec hs i d) as (p & Hp & Hv & _); [apply Hl; set_solver|].
    rewrite Hp. cbn [lift_loop mbind result_bind]. rewrite (Hv root Hr).
    cbn [require mbind result_bind]. apply IH. intros j x Hj. apply Hl. set_solver. }
  apply Hf. intros i d. apply elem_of_enumerate.
Qed.

Lemma size_list_to_set_NoDup (l : list Pubkey) :
  NoDup l → size (list_to_set l : gset Pubkey) = length l.
Proof. apply size_list_to_set. Qed.

Lemma validate_ok tree root :
  NoDup (map tn_claimant (at_tree_nodes tree)) → Forall node_wf (at_tree_nodes tree) →
  at_max_num_nodes tree = Z.of_nat (length (at_tree_nodes tree)) →
  at_max_num_nodes tree ≤ 2 ^ 32 - 1 →
  at_max_total_claim tree = sum_list node_total (at_tree_nodes tree) →
  at_max_total_claim tree ≤ U64_MAX →
  level_root true (map hash_leaf (hashed_nodes (at_tree_nodes tree))) = Some root →
  at_merkle_root tree = root →
  validate tree = Ok tt.
Proof.
  intros Hnd Hwf Hn Hn' Hs Hs' Hr Hroot. unfold validate.
  destruct (Z.ltb_spec (2 ^ 32 - 1) (at_max_num_nodes tree)); [lia|]. simpl negb. simpl mbind.
  rewrite (bool_decide_eq_true_2 (Z.of_nat _ = _)) by done. simpl mbind.
  rewrite size_list_to_set_NoDup, length_map by done.
  rewrite (bool_decide_eq_true_2 (length _ = _)) by done. simpl mbind.
  rewrite get_max_total_claim_eq by done. rewrite <- Hs.
  destruct (Z.leb_spec (at_max_total_claim tree) U64_MAX); [|lia]. simpl mbind.
  rewrite bool_decide_eq_true_2 by done. simpl mbind.
  by rewrite (verify_proof_ok tree root).
Qed.

Lemma hashed_nodes_length ns : length (hashed_nodes ns) = length ns.
Proof. apply length_map. Qed.

Lemma level_root_is_Some l : l ≠ [] → is_Some (level_root true l).
Proof.
  intros Hne. levels_induction true l Hne; [intros a|intros l Hl IH].
  - rewrite level_root_one. eauto.
  - by rewrite level_root_next.
Qed.

(** What a tree built from [rows] is. *)
Record airdrop_ok (rows : list TreeNode) (version : Z) (tree : AirdropMerkleTree) : Prop := {
  ao_version : at_airdrop_version tree = version;
  ao_nodup : NoDup (map tn_claimant (at_tree_nodes tree));
  ao_claimants c : c ∈ map tn_claimant (at_tree_nodes tree) ↔ c ∈ map tn_claimant rows;
  ao_amounts n : n ∈ at_tree_nodes tree →
    tn_amount n = amount_for (tn_claimant n) rows ∧
    locked_amount_of n = locked_for (tn_claimant n) rows ∧ node_wf n;
  ao_count : at_max_num_nodes tree = Z.of_nat (length (at_tree_nodes tree));
  ao_total : at_max_total_claim tree = sum_list node_total (at_tree_nodes tree) ∧
             at_max_total_claim tree = sum_list node_total rows ∧ is_u64 (at_max_total_claim tree);
  ao_root : ∃ t, MerkleTree_new (hashed_nodes (at_tree_nodes tree)) true = Ok t ∧
                 get_root t = Some (at_merkle_root tree);
  ao_proofs n : n ∈ at_tree_nodes tree → ∃ p, tn_proof n = Some p ∧
    verify p (at_merkle_root tree) (hash_leaf (b32_list (node_hash n))) = true ∧
    (length p ≤ 32)%nat
}.

(** Everything [new] computes before validation. *)
Lemma airdrop_new_parts rows m ns' root version :
  Forall node_wf rows → try_fold entry_combine [] rows = Ok m →
  sum_list node_total rows ≤ U64_MAX → Z.of_nat (length m) ≤ 2 ^ 32 - 1 →
  let hs := hashed_nodes (map snd m) in
  set_proofs (mkMerkleTree (length hs) (concat (tree_levels true (map hash_leaf hs)))) (map snd m)
    = Ok ns' →
  level_root true (map hash_leaf hs) = Some root →
  let tree := mkAirdrop root version (Z.of_nat (length ns')) (sum_list node_total ns') ns' in
  validate tree = Ok tt ∧ airdrop_ok rows version tree.
Proof.
  intros Hwf Hm Hs Hlen hs Hns' Hr tree.
  destruct (combine_all_spec rows m Hwf Hm) as ([Hnd Hkeys Hmwf] & Hamt & Htot & Hcl).
  destruct (set_proofs_ok (map snd m)) as (ns2 & Hns2 & Hf2).
  assert (ns2 = ns') as -> by (subst hs; congruence). clear Hns2.
  destruct (with_proof_Forall2 _ _ _ Hf2) as (Hc' & Hh' & Ht' & Hw').
  assert (map tn_claimant (map snd m) = map fst m) as Hkm.
  { rewrite map_map. apply map_ext_in. intros p Hp%list_elem_of_In.
    by eapply (proj1 (Forall_forall _ _) Hkeys). }
  assert (Forall node_wf (map snd m)) as Hw by (by apply Forall_map).
  specialize (Hw' Hw).
  assert (sum_list node_total ns' = sum_list node_total rows) as Htot'.
  { rewrite Ht', sum_list_map. done. }
  assert (length ns' = length m) as Hl'.
  { rewrite <- (length_map tn_claimant ns'), Hc'. by rewrite !length_map. }
  assert (0 ≤ sum_list node_total ns').
  { apply sum_list_nonneg. intros n Hn. apply node_total_nonneg. by eapply Forall_forall in Hw'. }
  split.
  - apply (validate_ok tree root); unfold tree; cbn [at_tree_nodes at_max_num_nodes
      at_max_total_claim at_merkle_root]; rewrite ?Hc', ?Hkm, ?Hh'; try done; lia.
  - split; unfold tree; cbn [at_tree_nodes at_max_num_nodes at_max_total_claim at_merkle_root
      at_airdrop_version]; rewrite ?Hc', ?Hkm; try done.
    + intros n (i & Hi)%list_elem_of_lookup.
      destruct (Forall2_lookup_r _ _ _ _ _ Hf2 Hi) as (n0 & Hn0 & p & -> & _ & _).
      apply list_elem_of_lookup_2, list_elem_of_fmap in Hn0 as ([k n1] & -> & Hin).
      assert (tn_claimant n1 = k) as Hk by (by eapply (proj1 (Forall_forall _ _) Hkeys (k, n1))).
      destruct (Hamt k n1 Hin) as [? ?]. simpl. rewrite Hk. split_and!; try done.
      by eapply (proj1 (Forall_forall _ _) Hmwf (k, n1)).
    + split_and!; [done|done|split; [done|lia]].
    + rewrite Hh'. eexists. split; [apply MerkleTree_new_ok|done].
    + intros n (i & Hi)%list_elem_of_lookup.
      destruct (Forall2_lookup_r _ _ _ _ _ Hf2 Hi) as (n0 & Hn0 & p & -> & Hv & Hk).
      exists p. split_and!; [done|by apply Hv|]. apply Hk.
      rewrite hashed_nodes_length, length_map. apply Nat2Z.inj_le. rewrite Nat2Z.inj_pow.
      change (Z.of_nat 2 ^ Z.of_nat 32) with (2 ^ 32). lia.
Qed.

Lemma combine_all_length rows m :
  try_fold entry_combine [] rows = Ok m → (length m ≤ length rows)%nat.
Proof.
  revert m. induction rows as [|n rows IH] using rev_ind; intros m Hm.
  { simpl in Hm. by inv_ok. }
  rewrite try_fold_app in Hm. apply bind_Ok in Hm as (v & Hok & Hm). simpl in Hm.
  destruct (entry_combine v n) as [m'|] eqn:Hc; simpl in Hm; [|done]. injection Hm as <-.
  apply entry_combine_keys, (f_equal length) in Hc. rewrite length_app, !length_map in Hc.
  specialize (IH _ Hok). rewrite length_app. case_bool_decide; simpl in *; lia.
Qed.

Lemma new_unfold rows version m ns' :
  try_fold entry_combine [] rows = Ok m →
  let hs := hashed_nodes (map snd m) in
  set_proofs (mkMerkleTree (length hs) (concat (tree_levels true (map hash_leaf hs)))) (map snd m)
    = Ok ns' →
  AirdropMerkleTree_new rows version =
  (mx ← get_max_total_claim ns';
   root ← ok_or (level_root true (map hash_leaf hs)) (TreeErr MerkleRootError);
   let tree := mkAirdrop root version (Z.of_nat (length ns')) mx ns' in
   _ ← validate tree; Ok tree).
Proof.
  intros Hm hs Hns. unfold AirdropMerkleTree_new. rewrite Hm. cbn [mbind result_bind].
  rewrite MerkleTree_new_ok. cbn [lift_loop mbind result_bind]. fold hs. by rewrite Hns.
Qed.

(** Whoever passes the on-chain check is an entry of the tree, up to collisions. *)
Definition claim_queries (ns : list TreeNode) (c : Pubkey) (u l : Z) (proof : list Hash)
  : list (list (list byte)) :=
  let h := hashv (claim_slices c u l) in
  claim_slices c u l ::
  map (λ n, claim_slices (tn_claimant n) (tn_amount n) (default 0 (tn_locked_amount n))) ns ++
  ([LEAF_PREFIX; b32_list h] ::
   tree_queries (hashed_nodes ns) ++ verify_queries (hash_leaf (b32_list h)) proof).

Lemma claim_entry_sound ns t root c u l proof :
  Forall node_wf ns → is_u64 u → is_u64 l →
  MerkleTree_new (hashed_nodes ns) true = Ok t → get_root t = Some root →
  collision_free (claim_queries ns c u l proof) →
  verify proof root (hash_leaf (b32_list (hashv (claim_slices c u l)))) = true →
  ∃ n, n ∈ ns ∧ tn_claimant n = c ∧ tn_amount n = u ∧ locked_amount_of n = l.
Proof.
  intros Hwf Hu Hl Ht Hr Hcf Hv. unfold claim_queries in Hcf.
  assert (b32_list (hashv (claim_slices c u l)) ∈ hashed_nodes ns) as Hin.
  { eapply verify_sound; [done|done| |done].
    eapply collision_free_mono; [|exact Hcf]. set_solver. }
  apply list_elem_of_fmap in Hin as (n & Hn & Hin). apply (inj b32_list) in Hn.
  exists n. split; [done|]. unfold node_hash in Hn.
  pose proof (proj1 (Forall_forall _ _) Hwf n Hin) as [Hn1 Hn2].
  apply Hcf in Hn; [|set_solver|].
  - by apply claim_slices_inj in Hn as (-> & -> & ->).
  - apply elem_of_cons. right. apply elem_of_app. left. apply list_elem_of_fmap. eauto.
Qed.

Lemma get_node_in_spec ns c n :
  NoDup (map tn_claimant ns) →
  get_node_in ns c = Ok n ↔ n ∈ ns ∧ tn_claimant n = c.
Proof.
  induction ns as [|x ns IH]; simpl.
  - intros _. split; [done|]. by intros [?%elem_of_nil _].
  - intros [Hx Hnd]%NoDup_cons. case_bool_decide as E.
    + split; [intros [= ->]; set_solver|]. intros [[->|Hn]%elem_of_cons Hc]; [done|].
      destruct Hx. apply list_elem_of_fmap. exists n. split; [congruence|done].
    + rewrite IH by done. split; [set_solver|]. intros [[->|Hn]%elem_of_cons Hc]; done.
Qed.

Lemma hashmap_lookup ns (m : gmap Pubkey TreeNode) c :
  NoDup (map tn_claimant ns) →
  foldl (λ m n, <[tn_claimant n := n]> m) m ns !! c =
  match get_node_in ns c with Ok n => Some n | Err _ => m !! c end.
Proof.
  revert m. induction ns as [|x ns IH]; intros m; simpl; [done|].
  intros [Hx Hnd]%NoDup_cons. rewrite IH by done. case_bool_decide as E.
  - destruct (get_node_in ns c) as [n|] eqn:Hg.
    + apply get_node_in_spec in Hg as [Hn Hc]; [|done].
      destruct Hx. apply list_elem_of_fmap. exists n. split; [congruence|done].
    + subst c. by rewrite lookup_insert_eq.
  - destruct (get_node_in ns c); [done|]. by rewrite lookup_insert_ne.
Qed.

(** What [new] returns (see [AirdropMerkleTree_new_correct]). *)
Lemma AirdropMerkleTree_new_spec rows version :
  Forall node_wf rows → Z.of_nat (length rows) ≤ 2 ^ 32 - 1 →
  match AirdropMerkleTree_new rows version with
  | Ok tree => rows ≠ [] ∧ airdrop_ok rows version tree
  | Err e => rows = [] ∧ e = TreeErr MerkleRootError ∨
             U64_MAX < sum_list node_total rows ∧ e = TreePanic
  end.
Proof.
  intros Hwf Hlen. destruct (try_fold entry_combine [] rows) as [m|e] eqn:Hm.
  2: { unfold AirdropMerkleTree_new. rewrite Hm. simpl. right.
       rewrite (combine_all_err _ _ _ Hm). split; [|done].
       destruct (Z.le_gt_cases (sum_list node_total rows) U64_MAX) as [Hle|]; [|done].
       apply combine_all_progress in Hle as [m Hm']; [congruence|done]. }
  destruct (combine_all_spec rows m Hwf Hm) as (Hmo & _ & Htot & Hcl).
  pose proof (combine_all_length _ _ Hm).
  destruct (set_proofs_ok (map snd m)) as (ns' & Hns' & Hf2).
  rewrite (new_unfold rows version m ns' Hm Hns').
  destruct (with_proof_Forall2 _ _ _ Hf2) as (_ & _ & Ht' & Hw').
  rewrite get_max_total_claim_eq by (apply Hw', Forall_map, Hmo).
  rewrite Ht', sum_list_map, Htot.
  destruct (Z.leb_spec (sum_list node_total rows) U64_MAX); [|right; split; [lia|done]].
  cbn [mbind result_bind].
  destruct (level_root true _) as [root|] eqn:Hr.
  - cbn [ok_or mbind result_bind].
    destruct (airdrop_new_parts rows m ns' root version Hwf Hm) as [Hv Hok]; [lia..|done|done|].
    rewrite Ht', sum_list_map, Htot in Hv, Hok. rewrite Hv. cbn [mbind result_bind].
    split; [|done]. intros ->. simpl in Hm. injection Hm as <-. done.
  - left. split; [|done]. destruct m as [|p m].
    + destruct rows as [|n rows]; [done|].
      specialize (Hcl (tn_claimant n)). simpl in Hcl. set_solver.
    + exfalso. rewrite eq_None_not_Some in Hr. apply Hr, level_root_is_Some. done.
Qed.

(** ** Theorems *)

(** C13. [AirdropMerkleTree::new] is total on well-formed input: on fewer than
    [2^32] rows it builds a tree exactly when there is a row and the amounts
    fit [u64]; no rows give [MerkleRootError] and an overflow panics.  The tree
    has one node per claimant with that claimant's unlocked and locked amounts
    summed over all rows, the total of all rows as [max_total_claim], the Merkle
    root of its nodes, and for every node a proof of at most 32 hashes that the
    on-chain [verify] accepts. *)
Theorem AirdropMerkleTree_new_correct rows version :
  Forall node_wf rows → Z.of_nat (length rows) ≤ 2 ^ 32 - 1 →
  match AirdropMerkleTree_new rows version with
  | Ok tree => rows ≠ [] ∧ airdrop_ok rows version tree
  | Err e => rows = [] ∧ e = TreeErr MerkleRootError ∨
             U64_MAX < sum_list node_total rows ∧ e = TreePanic
  end.
Proof. apply AirdropMerkleTree_new_spec. Qed.

(** C14. The on-chain proof check admits nobody but the tree's entries: a proof
    accepted for claimant [c] with amounts [u] and [l] against the tree's root
    means the tree has a node with exactly that claimant and those amounts,
    unless the hash collides on one of the messages involved. *)
Theorem verify_admits_only_entries ns t root c u l proof :
  Forall node_wf ns → is_u64 u → is_u64 l →
  MerkleTree_new (hashed_nodes ns) true = Ok t → get_root t = Some root →
  collision_free (claim_queries ns c u l proof) →
  verify proof root (hash_leaf (b32_list (hashv (claim_slices c u l)))) = true →
  ∃ n, n ∈ ns ∧ tn_claimant n = c ∧ tn_amount n = u ∧ locked_amount_of n = l.
Proof. apply claim_entry_sound. Qed.

(** The linear search [get_node] and the hash map of [convert_to_hashmap]
    agree on a tree without duplicate claimants: both return the claimant's own
    node, and [get_node] panics exactly for keys absent from the map. *)
Theorem get_node_agrees_with_hashmap tree c :
  NoDup (map tn_claimant (at_tree_nodes tree)) →
  match get_node tree c with
  | Ok n => convert_to_hashmap tree !! c = Some n ∧ n ∈ at_tree_nodes tree ∧ tn_claimant n = c
  | Err e => convert_to_hashmap tree !! c = None ∧ e = TreePanic ∧
             c ∉ map tn_claimant (at_tree_nodes tree)
  end.
Proof.
  intros Hnd. unfold get_node, convert_to_hashmap. rewrite hashmap_lookup by done.
  destruct (get_node_in _ c) as [n|e] eqn:Hg.
  - by apply get_node_in_spec in Hg.
  - split_and!; [done| |].
    + clear Hnd. revert Hg. induction (at_tree_nodes tree) as [|x ns IH]; simpl; [congruence|].
      case_bool_decide; [done|exact IH].
    + intros (n & -> & Hn)%list_elem_of_fmap.
      rewrite (proj2 (get_node_in_spec _ _ n Hnd)) in Hg; done.
Qed.
End airdrop.

(** ** Witnesses, run with SHA-256: three rows, two of them for one claimant *)
Section examples.
#[local] Existing Instance sha256_hasher.

Definition ex_rows : list TreeNode :=
  [mkTreeNode (key 1) 100 (Some 7) None; mkTreeNode (key 2) 40 None None;
   mkTreeNode (key 1) 5 None None].

Definition ex_airdrop : AirdropMerkleTree :=
  match AirdropMerkleTree_new ex_rows 3 with
  | Ok tree => tree
  | Err _ => mkAirdrop (key 0) 0 0 0 []
  end.

Lemma ex_rows_wf : Forall node_wf ex_rows.
Proof. repeat constructor; unfold node_wf, locked_amount_of; simpl; zlia. Qed.

Lemma AirdropMerkleTree_new_correct_witness :
  match AirdropMerkleTree_new ex_rows 3 with
  | Ok tree => ex_rows ≠ [] ∧ airdrop_ok ex_rows 3 tree
  | Err e => ex_rows = [] ∧ e = TreeErr MerkleRootError ∨
             U64_MAX < sum_list node_total ex_rows ∧ e = TreePanic
  end ∧ at_max_total_claim ex_airdrop = 152.
Proof.
  split; [|vm_compute; reflexivity].
  apply (AirdropMerkleTree_new_correct ex_rows 3); [apply ex_rows_wf|simpl; lia].
Defined.

Definition ex_nodes : list TreeNode :=
  [mkTreeNode (key 1) 105 (Some 7) None; mkTreeNode (key 2) 40 None None].
Definition ex_airdrop_tree : MerkleTree :=
  mkMerkleTree 2 (concat (tree_levels true (map hash_leaf (hashed_nodes ex_nodes)))).
Definition ex_airdrop_proof : list Hash :=
  [hash_leaf (b32_list (node_hash (mkTreeNode (key 1) 105 (Some 7) None)))].

Lemma verify_admits_only_entries_witness :
  ∃ n, n ∈ ex_nodes ∧ tn_claimant n = key 2 ∧ tn_amount n = 40 ∧ locked_amount_of n = 0.
Proof.
  apply (verify_admits_only_entries ex_nodes ex_airdrop_tree
           (default (key 0) (get_root ex_airdrop_tree)) (key 2) 40 0 ex_airdrop_proof);
    [repeat constructor; unfold node_wf, locked_amount_of; simpl; zlia|zlia|zlia
    |apply MerkleTree_new_ok|vm_compute; reflexivity
    |apply collision_freeb_sound; vm_compute; reflexivity|vm_compute; reflexivity].
Defined.

Lemma get_node_agrees_with_hashmap_witness :
  match get_node (mkAirdrop (key 0) 0 2 152 ex_nodes) (key 2) with
  | Ok n => convert_to_hashmap (mkAirdrop (key 0) 0 2 152 ex_nodes) !! key 2 = Some n ∧
            n ∈ ex_nodes ∧ tn_claimant n = key 2
  | Err e => convert_to_hashmap (mkAirdrop (key 0) 0 2 152 ex_nodes) !! key 2 = None ∧
             e = TreePanic ∧ key 2 ∉ map tn_claimant ex_nodes
  end.
Proof.
  apply (get_node_agrees_with_hashmap (mkAirdrop (key 0) 0 2 152 ex_nodes) (key 2)).
  apply (bool_decide_unpack _). vm_compute. exact I.
Defined.
End examples.
