(* ===== verification/ProgramError.v ===== *)
(** * Errors of the on-chain programs
    (src/programs/merkle-distributor/src/error.rs)

    [ErrorCode] is the program's own enum.  A transaction also fails on an
    Anchor account constraint, inside the token program, when a CPI signer is
    not derived from the given seeds, or by a panic; the release profile keeps
    overflow checks, so an overflowing [+] or [-] panics. *)
From S2P Require Import Prelude.

Inductive ErrorCode :=
| InsufficientUnlockedTokens
| StartTooFarInFuture
| InvalidProof
| ExceededMaxClaim
| MaxNodesExceeded
| Unauthorized
| OwnerMismatch
| ClawbackDuringVesting
| ClawbackBeforeStart
| ClawbackAlreadyClaimed
| InsufficientClawbackDelay
| SameClawbackReceiver
| SameAdmin
| ClaimExpired
| ArithmeticError
| StartTimestampAfterEnd
| TimestampsNotInFuture
| InvalidVersion
| ClaimingIsNotStarted
| CannotCloseDistributor
| CannotCloseClaimStatus
| MintNotReRootable
| DistributorNotPaused
| RootMismatch
| MaxTotalClaimIncrease
| ClaimCountMismatch.

#[global] Instance ErrorCode_eq_dec : EqDecision ErrorCode.
Proof. solve_decision. Defined.

(** The constraints of Anchor the account structs use. *)
Inductive AnchorError :=
| AccountNotInitialized
| AccountNotSigner
| AccountAlreadyInUse
| ConstraintSeeds
| ConstraintAddress
| ConstraintHasOne
| ConstraintTokenMint
| ConstraintTokenOwner
| ConstraintAssociated
| ConstraintClose.

#[global] Instance AnchorError_eq_dec : EqDecision AnchorError.
Proof. solve_decision. Defined.

Inductive ProgramError :=
| Custom (e : ErrorCode)
| Anchor (e : AnchorError)
| TokenProgramError
| PrivilegeEscalation
| Panic.

#[global] Instance ProgramError_eq_dec : EqDecision ProgramError.
Proof. solve_decision. Defined.

(** Anchor's [Result<T>]. *)
Abbreviation fallible := (result ProgramError).
