(* ===== verification/ClaimStatus.v ===== *)
(** * The claim status account
    (src/programs/merkle-distributor/src/state/claim_status.rs)

    The vesting arithmetic: what a claimant may take of the unlocked part when
    claiming, and how the locked part is released. *)
From S2P Require Import Prelude Machine ProgramError.

Definition START_CLAIM_PCT : Z := 500000.
Definition PCT_PRECISION : Z := 1000000.

Record ClaimStatus := mkClaimStatus {
  cs_claimant : Pubkey;
  cs_locked_amount : Z;
  cs_locked_amount_withdrawn : Z;
  cs_unlocked_amount : Z;
  cs_unlocked_amount_claimed : Z;
  cs_closable : bool;
  cs_distributor : Pubkey
}.

#[global] Instance ClaimStatus_eq_dec : EqDecision ClaimStatus.
Proof. solve_decision. Defined.

(** [ClaimStatus::default()], what [init] leaves in a fresh account. *)
Definition ClaimStatus_default : ClaimStatus :=
  mkClaimStatus (key 0) 0 0 0 0 false (key 0).

Definition set_unlocked_amount_claimed (cs : ClaimStatus) (v : Z) : ClaimStatus :=
  mkClaimStatus (cs_claimant cs) (cs_locked_amount cs) (cs_locked_amount_withdrawn cs)
    (cs_unlocked_amount cs) v (cs_closable cs) (cs_distributor cs).

Definition set_locked_amount_withdrawn (cs : ClaimStatus) (v : Z) : ClaimStatus :=
  mkClaimStatus (cs_claimant cs) (cs_locked_amount cs) v
    (cs_unlocked_amount cs) (cs_unlocked_amount_claimed cs) (cs_closable cs) (cs_distributor cs).

Definition unlocked_amount (cs : ClaimStatus) (curr_ts start_ts end_ts : Z) : fallible Z :=
  if start_ts <=? curr_ts then
    if end_ts <=? curr_ts then Ok (cs_locked_amount cs)
    else
      time_into_unlock ← ok_or (checked_sub_i64 curr_ts start_ts) (Custom ArithmeticError);
      total_unlock_time ← ok_or (checked_sub_i64 end_ts start_ts) (Custom ArithmeticError);
      prod ← ok_or (checked_mul_u128 (as_u128 time_into_unlock) (as_u128 (cs_locked_amount cs)))
               (Custom ArithmeticError);
      quot ← ok_or (checked_div_u128 prod (as_u128 total_unlock_time)) (Custom ArithmeticError);
      Ok (as_u64 quot)
  else Ok 0.

Definition amount_withdrawable (cs : ClaimStatus) (curr_ts start_ts end_ts : Z) : fallible Z :=
  unlocked ← unlocked_amount cs curr_ts start_ts end_ts;
  ok_or (checked_sub_u64 unlocked (cs_locked_amount_withdrawn cs)) (Custom ArithmeticError).

Definition update_unlocked_amount_claimed (cs : ClaimStatus) (curr_ts start_ts end_ts : Z)
  : fallible ClaimStatus :=
  if start_ts <=? curr_ts then
    if end_ts <=? curr_ts then Ok (set_unlocked_amount_claimed cs (cs_unlocked_amount cs))
    else
      time_into_unlock ← ok_or (checked_sub_i64 curr_ts start_ts) (Custom ArithmeticError);
      total_unlock_time ← ok_or (checked_sub_i64 end_ts start_ts) (Custom ArithmeticError);
      start_prod ← ok_or (checked_mul_u128 (as_u128 (cs_unlocked_amount cs)) START_CLAIM_PCT)
                     (Custom ArithmeticError);
      start_quot ← ok_or (checked_div_u128 start_prod PCT_PRECISION) (Custom ArithmeticError);
      let start_amount := as_u64 start_quot in
      rest ← ok_or (checked_sub_u64 (cs_unlocked_amount cs) start_amount) (Custom ArithmeticError);
      prod ← ok_or (checked_mul_u128 (as_u128 time_into_unlock) (as_u128 rest))
               (Custom ArithmeticError);
      quot ← ok_or (checked_div_u128 prod (as_u128 total_unlock_time)) (Custom ArithmeticError);
      let bonus_amount := as_u64 quot in
      claimed ← ok_or (checked_add_u64 start_amount bonus_amount) (Custom ArithmeticError);
      Ok (set_unlocked_amount_claimed cs claimed)
  else Err (Custom ClaimingIsNotStarted).

Definition get_unlocked_amount_forgone (cs : ClaimStatus) : fallible Z :=
  ok_or (checked_sub_u64 (cs_unlocked_amount cs) (cs_unlocked_amount_claimed cs))
    (Custom ArithmeticError).

(** The module's own unit test. *)
Example claim_status_test :
  let cs := mkClaimStatus (key 0) 0 0 1000000 0 false (key 0) in
  update_unlocked_amount_claimed cs 0 1 10 = Err (Custom ClaimingIsNotStarted) ∧
  (cs_unlocked_amount_claimed <$> update_unlocked_amount_claimed cs 1 1 11) = Ok 500000 ∧
  (cs_unlocked_amount_claimed <$> update_unlocked_amount_claimed cs 6 1 11) = Ok 750000 ∧
  (update_unlocked_amount_claimed cs 6 1 11 ≫= get_unlocked_amount_forgone) = Ok 250000 ∧
  (cs_unlocked_amount_claimed <$> update_unlocked_amount_claimed cs 11 1 11) = Ok 1000000 ∧
  (update_unlocked_amount_claimed cs 12 1 11 ≫= get_unlocked_amount_forgone) = Ok 0.
Proof. vm_compute. repeat split. Qed.

(** ** Specification: linear release over the exact integers *)

(** The window arithmetic leaves [i64]. *)
Definition window_overflow (curr_ts start_ts end_ts : Z) : bool :=
  (start_ts <=? curr_ts) && (curr_ts <? end_ts) && (I64_MAX <? end_ts - start_ts).

Definition released (locked curr_ts start_ts end_ts : Z) : Z :=
  if curr_ts <? start_ts then 0
  else if end_ts <=? curr_ts then locked
  else (curr_ts - start_ts) * locked / (end_ts - start_ts).

(** Half at once, the other half linearly. *)
Definition vested (unlocked curr_ts start_ts end_ts : Z) : Z :=
  unlocked / 2 + released (unlocked - unlocked / 2) curr_ts start_ts end_ts.

Definition cs_wf (cs : ClaimStatus) : Prop :=
  is_u64 (cs_locked_amount cs) ∧
  0 ≤ cs_locked_amount_withdrawn cs ≤ cs_locked_amount cs ∧
  is_u64 (cs_unlocked_amount cs) ∧
  0 ≤ cs_unlocked_amount_claimed cs ≤ cs_unlocked_amount cs.

Lemma released_bounds a c s e : 0 ≤ a → 0 ≤ released a c s e ≤ a.
Proof.
  intros. unfold released. destruct (Z.ltb_spec c s); [lia|].
  destruct (Z.leb_spec e c); [lia|]. apply share_bounds; lia.
Qed.

Lemma released_mono a c1 c2 s e :
  0 ≤ a → c1 ≤ c2 → released a c1 s e ≤ released a c2 s e.
Proof.
  intros Ha Hc. pose proof (released_bounds a c1 s e Ha). pose proof (released_bounds a c2 s e Ha).
  unfold released in *. destruct (Z.ltb_spec c1 s), (Z.ltb_spec c2 s); try lia.
  destruct (Z.leb_spec e c1), (Z.leb_spec e c2); try lia. apply share_mono; lia.
Qed.

Lemma vested_bounds u c s e : 0 ≤ u → u / 2 ≤ vested u c s e ≤ u.
Proof.
  intros. unfold vested. pose proof (Z.div_mod u 2 ltac:(done)).
  pose proof (Z.mod_pos_bound u 2 ltac:(done)).
  pose proof (released_bounds (u - u / 2) c s e ltac:(lia)). lia.
Qed.

Lemma vested_nonneg u c s e : 0 ≤ u → 0 ≤ vested u c s e ≤ u.
Proof.
  intros. pose proof (vested_bounds u c s e). pose proof (Z.div_pos u 2). lia.
Qed.

Lemma vested_mono u c1 c2 s e : 0 ≤ u → c1 ≤ c2 → vested u c1 s e ≤ vested u c2 s e.
Proof.
  intros. unfold vested. pose proof (Z.div_mod u 2 ltac:(done)).
  pose proof (Z.mod_pos_bound u 2 ltac:(done)).
  pose proof (released_mono (u - u / 2) c1 c2 s e ltac:(lia) ltac:(lia)). lia.
Qed.

(** ** The code computes the specification *)

(** The u128 share computation shared by both operations, at a time inside the
    vesting window. *)
Lemma share_u128 a c s e :
  is_u64 a → is_i64 s → is_i64 e → s ≤ c → c < e →
  (t ← ok_or (checked_sub_i64 c s) (Custom ArithmeticError);
   T ← ok_or (checked_sub_i64 e s) (Custom ArithmeticError);
   p ← ok_or (checked_mul_u128 (as_u128 t) (as_u128 a)) (Custom ArithmeticError);
   q ← ok_or (checked_div_u128 p (as_u128 T)) (Custom ArithmeticError);
   Ok (as_u64 q)) =
  if I64_MAX <? e - s then Err (Custom ArithmeticError)
  else Ok ((c - s) * a / (e - s)).
Proof.
  intros Ha Hs He Hsc Hce. unfold checked_sub_i64.
  destruct (Z.ltb_spec I64_MAX (e - s)).
  - destruct (Z.leb_spec (e - s) I64_MAX); [lia|]. rewrite (andb_comm _ false). simpl.
    destruct (_ && _); done.
  - rewrite !(proj2 (Z.leb_le _ _)) by zlia. cbn [andb ok_or mbind result_bind].
    rewrite !as_u128_u64 by zlia. rewrite checked_mul_u128_u64 by zlia.
    cbn [ok_or mbind result_bind]. unfold checked_div_u128.
    destruct (Z.eqb_spec (e - s) 0); [lia|]. cbn [ok_or mbind result_bind].
    pose proof (share_bounds (c - s) (e - s) a ltac:(lia) ltac:(lia) ltac:(zlia)).
    rewrite as_u64_id by zlia. done.
Qed.

Lemma unlocked_amount_eq cs c s e :
  is_u64 (cs_locked_amount cs) → is_i64 s → is_i64 e →
  unlocked_amount cs c s e =
  if window_overflow c s e then Err (Custom ArithmeticError)
  else Ok (released (cs_locked_amount cs) c s e).
Proof.
  intros Ha Hs He. unfold unlocked_amount, window_overflow, released.
  destruct (Z.leb_spec s c), (Z.ltb_spec c s); try lia; [|done].
  destruct (Z.leb_spec e c), (Z.ltb_spec c e); try lia; [done|].
  rewrite share_u128 by done. cbn [andb]. by destruct (I64_MAX <? e - s).
Qed.

(** [u * 500_000 / 1_000_000], computed in u128, is half of [u]. *)
Lemma start_amount_eq u :
  is_u64 u →
  (p ← ok_or (checked_mul_u128 (as_u128 u) START_CLAIM_PCT) (Custom ArithmeticError);
   ok_or (checked_div_u128 p PCT_PRECISION) (Custom ArithmeticError)) = Ok (u / 2).
Proof.
  intros Hu. rewrite as_u128_u64 by done.
  rewrite checked_mul_u128_u64 by (done || unfold START_CLAIM_PCT; zlia).
  cbn [ok_or mbind result_bind checked_div_u128]. unfold checked_div_u128. simpl.
  unfold START_CLAIM_PCT, PCT_PRECISION. f_equal.
  replace 1000000 with (2 * 500000) by lia. apply Z.div_mul_cancel_r; lia.
Qed.

Lemma update_unlocked_amount_claimed_eq cs c s e :
  is_u64 (cs_unlocked_amount cs) → is_i64 s → is_i64 e →
  update_unlocked_amount_claimed cs c s e =
  if c <? s then Err (Custom ClaimingIsNotStarted)
  else if window_overflow c s e then Err (Custom ArithmeticError)
  else Ok (set_unlocked_amount_claimed cs (vested (cs_unlocked_amount cs) c s e)).
Proof.
  intros Hu Hs He. unfold update_unlocked_amount_claimed.
  pose proof (Z.div_mod (cs_unlocked_amount cs) 2 ltac:(done)).
  pose proof (Z.mod_pos_bound (cs_unlocked_amount cs) 2 ltac:(done)).
  pose proof (vested_bounds (cs_unlocked_amount cs) c s e ltac:(zlia)) as Hv.
  unfold window_overflow. unfold vested, released in *.
  destruct (Z.leb_spec s c), (Z.ltb_spec c s); try lia; [|done].
  destruct (Z.leb_spec e c), (Z.ltb_spec c e); try lia.
  { cbn [andb]. do 2 f_equal. lia. }
  set (u := cs_unlocked_amount cs) in *. cbn [andb].
  pose proof (share_u128 (u - u / 2) c s e ltac:(zlia) Hs He ltac:(lia) ltac:(lia)) as Hshare.
  pose proof (start_amount_eq u Hu) as Hstart.
  destruct (ok_or (checked_sub_i64 c s) _) as [t|]; cbn [mbind result_bind] in *.
  2: { revert Hshare. destruct (I64_MAX <? e - s); congruence. }
  destruct (ok_or (checked_sub_i64 e s) _) as [T|]; cbn [mbind result_bind] in *.
  2: { revert Hshare. destruct (I64_MAX <? e - s); congruence. }
  destruct (ok_or (checked_mul_u128 (as_u128 u) _) _) as [p|]; cbn [mbind result_bind] in *; [|done].
  rewrite Hstart. cbn [mbind result_bind]. rewrite (as_u64_id (u / 2)) by zlia.
  unfold checked_sub_u64. rewrite (proj2 (Z.leb_le _ _)) by lia. cbn [ok_or mbind result_bind].
  destruct (ok_or (checked_mul_u128 (as_u128 t) _) _) as [m|]; cbn [mbind result_bind] in *.
  2: { revert Hshare. destruct (I64_MAX <? e - s); congruence. }
  destruct (ok_or (checked_div_u128 m _) _) as [q|]; cbn [mbind result_bind] in *.
  2: { revert Hshare. destruct (I64_MAX <? e - s); congruence. }
  revert Hshare. destruct (I64_MAX <? e - s); [done|]. intros [= ->].
  unfold checked_add_u64. rewrite (proj2 (Z.leb_le _ _)) by zlia. done.
Qed.

Lemma window_no_overflow c s e : e - s ≤ I64_MAX → window_overflow c s e = false.
Proof.
  intros H. unfold window_overflow. rewrite (proj2 (Z.ltb_ge _ _) H). apply andb_false_r.
Qed.

(** Inversion forms, for handlers whose execution succeeded. *)
Lemma update_unlocked_amount_claimed_Ok cs cs' c s e :
  is_u64 (cs_unlocked_amount cs) → is_i64 s → is_i64 e →
  update_unlocked_amount_claimed cs c s e = Ok cs' →
  s ≤ c ∧ cs' = set_unlocked_amount_claimed cs (vested (cs_unlocked_amount cs) c s e).
Proof.
  intros Hu Hs He. rewrite update_unlocked_amount_claimed_eq by done.
  destruct (Z.ltb_spec c s); [done|]. destruct (window_overflow c s e); [done|]. intros [= <-]. done.
Qed.

Lemma amount_withdrawable_Ok cs c s e a :
  is_u64 (cs_locked_amount cs) → is_i64 s → is_i64 e →
  amount_withdrawable cs c s e = Ok a →
  a = released (cs_locked_amount cs) c s e - cs_locked_amount_withdrawn cs ∧ 0 ≤ a.
Proof.
  intros Hl Hs He. unfold amount_withdrawable. rewrite unlocked_amount_eq by done.
  destruct (window_overflow c s e); [done|]. cbn [mbind result_bind].
  rewrite ok_or_Ok, checked_sub_u64_Some. intros [-> ?]. split; [done|lia].
Qed.

Lemma get_unlocked_amount_forgone_Ok cs a :
  get_unlocked_amount_forgone cs = Ok a ↔
  a = cs_unlocked_amount cs - cs_unlocked_amount_claimed cs ∧
  cs_unlocked_amount_claimed cs ≤ cs_unlocked_amount cs.
Proof. unfold get_unlocked_amount_forgone. by rewrite ok_or_Ok, checked_sub_u64_Some. Qed.

(** ** Theorems *)
Section vesting.
Context (cs : ClaimStatus) (start_ts end_ts : Z).
Context (Hcs : cs_wf cs) (Hs : is_i64 start_ts) (He : is_i64 end_ts).

(** [unlocked_amount] on every branch, at machine width: 0 before the start,
    the whole locked amount from the end on, and in between exactly the floor of
    [locked * elapsed / duration]: the u128 product never overflows and the cast
    to u64 never truncates.  The only error is [ArithmeticError] inside a window
    longer than [i64::MAX].  The released amount never exceeds the locked amount
    and never decreases with time. *)
Theorem unlocked_amount_exact curr_ts :
  unlocked_amount cs curr_ts start_ts end_ts =
    (if window_overflow curr_ts start_ts end_ts then Err (Custom ArithmeticError)
     else Ok (released (cs_locked_amount cs) curr_ts start_ts end_ts)) ∧
  0 ≤ released (cs_locked_amount cs) curr_ts start_ts end_ts ≤ cs_locked_amount cs ∧
  (∀ later, curr_ts ≤ later →
     released (cs_locked_amount cs) curr_ts start_ts end_ts
     ≤ released (cs_locked_amount cs) later start_ts end_ts).
Proof.
  destruct Hcs as (? & ? & _). split_and!.
  - by apply unlocked_amount_eq.
  - apply released_bounds. zlia.
  - apply released_bounds. zlia.
  - intros. apply released_mono; [zlia|done].
Qed.

(** A new claim pays half of the unlocked amount at the start, all of it
    from the end on, and in between half plus the linear share of the rest: the
    code computes exactly [vested], at machine width and without truncation.
    What is paid and what is forgone always add up to the unlocked amount, the
    payout is at least half, and waiting never lowers it. *)
Lemma update_unlocked_amount_claimed_exact curr_ts :
  match update_unlocked_amount_claimed cs curr_ts start_ts end_ts with
  | Ok cs' =>
      start_ts ≤ curr_ts ∧
      cs' = set_unlocked_amount_claimed cs
              (vested (cs_unlocked_amount cs) curr_ts start_ts end_ts) ∧
      (∃ forgone, get_unlocked_amount_forgone cs' = Ok forgone ∧
         cs_unlocked_amount_claimed cs' + forgone = cs_unlocked_amount cs) ∧
      cs_unlocked_amount cs / 2 ≤ cs_unlocked_amount_claimed cs' ≤ cs_unlocked_amount cs ∧
      (end_ts ≤ curr_ts → cs_unlocked_amount_claimed cs' = cs_unlocked_amount cs) ∧
      (∀ later cs'', curr_ts ≤ later →
         update_unlocked_amount_claimed cs later start_ts end_ts = Ok cs'' →
         cs_unlocked_amount_claimed cs' ≤ cs_unlocked_amount_claimed cs'')
  | Err e =>
      e = Custom ClaimingIsNotStarted ∧ curr_ts < start_ts ∨
      e = Custom ArithmeticError ∧ window_overflow curr_ts start_ts end_ts = true
  end.
Proof.
  destruct Hcs as (_ & _ & Hu & _). rewrite update_unlocked_amount_claimed_eq by done.
  destruct (Z.ltb_spec curr_ts start_ts); [auto|].
  destruct (window_overflow curr_ts start_ts end_ts); [auto|].
  pose proof (vested_bounds (cs_unlocked_amount cs) curr_ts start_ts end_ts ltac:(zlia)) as Hb.
  split_and!; try done; simpl; try lia.
  - exists (cs_unlocked_amount cs - vested (cs_unlocked_amount cs) curr_ts start_ts end_ts).
    split; [|lia]. apply get_unlocked_amount_forgone_Ok. simpl. split; [done|lia].
  - intros Hend. unfold vested, released. destruct (Z.ltb_spec curr_ts start_ts); [lia|].
    rewrite (proj2 (Z.leb_le _ _) Hend). lia.
  - intros later cs'' Hl Hok. apply update_unlocked_amount_claimed_Ok in Hok as [_ ->]; [|done..].
    simpl. apply vested_mono; zlia.
Qed.

(** Withdrawals of the locked part telescope: whenever the amount already
    withdrawn was what had been released at some earlier time, the withdrawable
    amount is exactly what has been released since, so it never underflows and
    the total over any sequence of withdrawals depends on the last time only. *)
Theorem amount_withdrawable_telescopes before curr_ts :
  end_ts - start_ts ≤ I64_MAX → before ≤ curr_ts →
  cs_locked_amount_withdrawn cs = released (cs_locked_amount cs) before start_ts end_ts →
  ∃ amount, amount_withdrawable cs curr_ts start_ts end_ts = Ok amount ∧ 0 ≤ amount ∧
    let cs' := set_locked_amount_withdrawn cs (cs_locked_amount_withdrawn cs + amount) in
    cs_locked_amount_withdrawn cs' = released (cs_locked_amount cs) curr_ts start_ts end_ts ∧
    cs_wf cs'.
Proof.
  intros Hd Hbc Hw. destruct Hcs as (Hl & Hlw & Hu & Huc).
  pose proof (released_mono (cs_locked_amount cs) before curr_ts start_ts end_ts ltac:(zlia) Hbc).
  pose proof (released_bounds (cs_locked_amount cs) curr_ts start_ts end_ts ltac:(zlia)).
  exists (released (cs_locked_amount cs) curr_ts start_ts end_ts - cs_locked_amount_withdrawn cs).
  split_and!; try (simpl; lia).
  - unfold amount_withdrawable. rewrite unlocked_amount_eq by done.
    rewrite window_no_overflow by done. cbn [mbind result_bind].
    apply ok_or_Ok, checked_sub_u64_Some. split; [done|lia].
  - unfold cs_wf. simpl. split_and!; try done; lia.
Qed.
End vesting.

(** ** Witnesses *)
Definition ex_cs : ClaimStatus := mkClaimStatus (key 1) 1000 300 999 0 false (key 2).

Lemma ex_cs_wf : cs_wf ex_cs.
Proof. unfold cs_wf; simpl. zlia. Qed.

Lemma unlocked_amount_exact_witness :
  unlocked_amount ex_cs 35 0 100 = Ok 350 ∧
  0 ≤ released 1000 35 0 100 ≤ 1000 ∧
  (∀ later, 35 ≤ later → released 1000 35 0 100 ≤ released 1000 later 0 100).
Proof. exact (unlocked_amount_exact ex_cs 0 100 ex_cs_wf ltac:(zlia) ltac:(zlia) 35). Defined.

Lemma update_unlocked_amount_claimed_exact_witness :
  ∃ cs', update_unlocked_amount_claimed ex_cs 50 0 100 = Ok cs' ∧
    cs_unlocked_amount_claimed cs' = 749 ∧ 499 ≤ cs_unlocked_amount_claimed cs' ≤ 999.
Proof.
  pose proof (update_unlocked_amount_claimed_exact ex_cs 0 100 ex_cs_wf ltac:(zlia) ltac:(zlia) 50)
    as (_ & _ & _ & H & _).
  eexists. split; [reflexivity|]. split; [reflexivity|exact H].
Defined.

Lemma amount_withdrawable_telescopes_witness :
  ∃ amount, amount_withdrawable ex_cs 35 0 100 = Ok amount ∧ 0 ≤ amount ∧
    300 + amount = released 1000 35 0 100 ∧
    cs_wf (set_locked_amount_withdrawn ex_cs (300 + amount)).
Proof.
  exact (amount_withdrawable_telescopes ex_cs 0 100 ex_cs_wf ltac:(zlia) ltac:(zlia) 30 35
           ltac:(zlia) ltac:(lia) eq_refl).
Defined.
