(* ===== verification/Solana.v ===== *)
(** * The Solana runtime as the programs use it

    Public keys written in base58, the clock, program-derived addresses and
    associated token addresses.  Address derivation is code of the Solana SDK:
    it is the parameter [AddressDerivation], with what its documentation
    promises in [AddressDerivationSpec]. *)
From S2P Require Import Prelude Machine.

(** ** Base58 literals ([declare_id!], [pubkey!]) *)
Definition base58_alphabet : string :=
  "123456789ABCDEFGHJKLMNPQRSTUVWXYZabcdefghijkmnopqrstuvwxyz".

Fixpoint index_of (c : Ascii.ascii) (s : string) (i : Z) : option Z :=
  match s with
  | EmptyString => None
  | String.String c' s => if Ascii.eqb c c' then Some i else index_of c s (i + 1)
  end.

Fixpoint base58_value (s : string) (acc : Z) : option Z :=
  match s with
  | EmptyString => Some acc
  | String.String c s =>
      match index_of c base58_alphabet 0 with
      | Some d => base58_value s (acc * 58 + d)
      | None => None
      end
  end.

(** Big-endian digits, as base58 decoding yields them. *)
Definition pubkey (s : string) : Pubkey :=
  b32_of_list (rev (to_le_bytes 32 (default 0 (base58_value s 0)))).

(** ** Clock sysvar *)
Record Clock := mkClock { clk_slot : Z; clk_unix_timestamp : Z }.

(** ** Address derivation *)
Class AddressDerivation := {
  (** [Pubkey::find_program_address(seeds, program_id)]: address and bump. *)
  find_program_address : list (list byte) → Pubkey → Pubkey * Z;
  (** [Pubkey::create_program_address(seeds, program_id)]. *)
  create_program_address : list (list byte) → Pubkey → option Pubkey;
  (** [get_associated_token_address(wallet, mint)]. *)
  get_associated_token_address : Pubkey → Pubkey → Pubkey
}.

(** The documented relation of the two derivations: the bump that
    [find_program_address] returns, appended as the last seed, makes
    [create_program_address] return the same address.  A bump is a [u8]. *)
Class AddressDerivationSpec `{AddressDerivation} : Prop := {
  find_program_address_create seeds program_id addr bump :
    find_program_address seeds program_id = (addr, bump) →
    create_program_address (seeds ++ [[byte_of_Z bump]]) program_id = Some addr;
  find_program_address_bump seeds program_id : is_u8 (find_program_address seeds program_id).2
}.

(** ** A concrete derivation, for evaluating examples: a digest of the seeds
    and the program id, with a fixed bump. *)
Definition mix (h : Z) (bs : list byte) : Z :=
  foldl (λ acc b, (acc * 31 + byte_to_Z b) mod 65521) h bs.

Definition digest_address (seeds : list (list byte)) (program_id : Pubkey) : Pubkey :=
  key (foldl mix 1 (seeds ++ [b32_list program_id])).

Definition example_bump : Z := 254.

#[local] Instance example_derivation : AddressDerivation := {
  find_program_address seeds program_id :=
    (digest_address (seeds ++ [[byte_of_Z example_bump]]) program_id, example_bump);
  create_program_address seeds program_id := Some (digest_address seeds program_id);
  get_associated_token_address wallet mint :=
    digest_address [b32_list wallet; b32_list mint] (key 0)
}.

#[local] Instance example_derivation_spec : AddressDerivationSpec.
Proof. split; [by intros seeds program_id addr bump [= <- <-]|done]. Qed.
