(* ===== verification/Token.v ===== *)
(** * The SPL token program as the programs use it

    Token accounts and mints are data of the token program; its instructions
    are third-party code, so they are the parameter [TokenProgram], and
    [TokenProgramSpec] states the documented effect of a successful transfer or
    burn and when one is guaranteed to succeed.  The clients' theorems are
    proved against this interface; [reference_token] shows that it can be met. *)
From S2P Require Import Prelude Machine.

Record TokenAccount := mkTokenAccount {
  ta_mint : Pubkey;
  ta_owner : Pubkey;
  ta_amount : Z;
  ta_delegate : option Pubkey;
  ta_frozen : bool
}.

#[global] Instance TokenAccount_eq_dec : EqDecision TokenAccount.
Proof. solve_decision. Defined.

(** Token accounts, and the supply of every mint. *)
Record TokenState := mkTokenState {
  tk_accounts : gmap Pubkey TokenAccount;
  tk_mints : gmap Pubkey Z
}.

Definition set_amount (a : TokenAccount) (v : Z) : TokenAccount :=
  mkTokenAccount (ta_mint a) (ta_owner a) v (ta_delegate a) (ta_frozen a).

(** [a'] is [a] after giving [amount] away; a delegate's allowance may end. *)
Definition debited (a : TokenAccount) (amount : Z) (a' : TokenAccount) : Prop :=
  a' = set_amount a (ta_amount a - amount) ∨
  a' = mkTokenAccount (ta_mint a) (ta_owner a) (ta_amount a - amount) None (ta_frozen a).

Class TokenProgram := {
  (** [transfer] with accounts [from], [to] and [authority]. *)
  token_transfer : TokenState → Pubkey → Pubkey → Pubkey → Z → option TokenState;
  (** [burn] with accounts [account], [mint] and [authority]. *)
  token_burn : TokenState → Pubkey → Pubkey → Pubkey → Z → option TokenState
}.

(** Who may move the tokens of [a]. *)
Definition may_spend (a : TokenAccount) (authority : Pubkey) : Prop :=
  ta_owner a = authority ∨ ta_delegate a = Some authority.

Class TokenProgramSpec `{TokenProgram} : Prop := {
  token_transfer_effect ts from to authority amount ts' :
    token_transfer ts from to authority amount = Some ts' →
    ∃ a b, tk_accounts ts !! from = Some a ∧ tk_accounts ts !! to = Some b ∧
      ta_mint a = ta_mint b ∧ may_spend a authority ∧ amount ≤ ta_amount a ∧
      tk_mints ts' = tk_mints ts ∧
      if bool_decide (from = to) then tk_accounts ts' = tk_accounts ts
      else ∃ a', debited a amount a' ∧
        tk_accounts ts' =
          <[to := set_amount b (ta_amount b + amount)]> (<[from := a']> (tk_accounts ts));
  token_burn_effect ts account mint authority amount ts' :
    token_burn ts account mint authority amount = Some ts' →
    ∃ a supply a', tk_accounts ts !! account = Some a ∧ tk_mints ts !! mint = Some supply ∧
      ta_mint a = mint ∧ may_spend a authority ∧ amount ≤ ta_amount a ∧ debited a amount a' ∧
      tk_accounts ts' = <[account := a']> (tk_accounts ts) ∧
      tk_mints ts' = <[mint := supply - amount]> (tk_mints ts);
  token_transfer_progress ts from to authority amount a b :
    tk_accounts ts !! from = Some a → tk_accounts ts !! to = Some b → from ≠ to →
    ta_mint a = ta_mint b → ta_owner a = authority → 0 ≤ amount ≤ ta_amount a →
    ta_frozen a = false → ta_frozen b = false → ta_amount b + amount ≤ U64_MAX →
    is_Some (token_transfer ts from to authority amount);
  token_burn_progress ts account mint authority amount a supply :
    tk_accounts ts !! account = Some a → tk_mints ts !! mint = Some supply →
    ta_mint a = mint → ta_owner a = authority → 0 ≤ amount ≤ ta_amount a →
    amount ≤ supply → ta_frozen a = false →
    is_Some (token_burn ts account mint authority amount)
}.

(** ** Consequences shared by the clients *)
Section token.
Context `{TokenProgramSpec}.

(** [a'] is what [a] became without its owner's or a delegate's consent. *)
Definition kept (a a' : TokenAccount) : Prop :=
  ta_mint a' = ta_mint a ∧ ta_owner a' = ta_owner a ∧ ta_delegate a' = ta_delegate a ∧
  ta_amount a ≤ ta_amount a'.

#[global] Instance kept_preorder : PreOrder kept.
Proof.
  split; [by intros a|]. intros a b c (?&?&?&?) (?&?&?&?). unfold kept.
  split_and!; congruence || lia.
Qed.

Lemma debited_fields a amount a' :
  debited a amount a' →
  ta_mint a' = ta_mint a ∧ ta_owner a' = ta_owner a ∧ ta_amount a' = ta_amount a - amount ∧
  ta_frozen a' = ta_frozen a ∧ (ta_delegate a = None → ta_delegate a' = None).
Proof. by intros [-> | ->]. Qed.

(** A transfer debits [from], credits [to], and leaves the rest alone. *)
Lemma token_transfer_lookup ts from to authority amount ts' p a :
  0 ≤ amount → token_transfer ts from to authority amount = Some ts' →
  tk_accounts ts !! p = Some a → p ≠ from →
  ∃ a', tk_accounts ts' !! p = Some a' ∧ kept a a' ∧
    ta_amount a' = ta_amount a + (if bool_decide (p = to) then amount else 0).
Proof.
  intros Hpos Ht Hp Hne.
  destruct (token_transfer_effect _ _ _ _ _ _ Ht) as (x & y & Hx & Hy & _ & _ & _ & _ & Hc).
  case_bool_decide as Heq.
  - rewrite Hc. exists a. split_and!; [done|reflexivity|].
    rewrite bool_decide_eq_false_2 by congruence. lia.
  - destruct Hc as (x' & Hx' & ->). destruct (decide (p = to)) as [-> | Hpt].
    + rewrite lookup_insert_eq. eexists. split; [done|].
      assert (a = y) as -> by congruence. unfold kept. simpl.
      rewrite bool_decide_eq_true_2 by done. split_and!; done || lia.
    + rewrite !lookup_insert_ne by done. exists a. split_and!; [done|reflexivity|].
      rewrite bool_decide_eq_false_2 by done. lia.
Qed.

Lemma token_transfer_from ts from to authority amount ts' :
  token_transfer ts from to authority amount = Some ts' → from ≠ to →
  ∃ a a' b, tk_accounts ts !! from = Some a ∧ tk_accounts ts' !! from = Some a' ∧
    debited a amount a' ∧ amount ≤ ta_amount a ∧ may_spend a authority ∧
    tk_accounts ts !! to = Some b ∧
    tk_accounts ts' !! to = Some (set_amount b (ta_amount b + amount)).
Proof.
  intros Ht Hne.
  destruct (token_transfer_effect _ _ _ _ _ _ Ht) as (a & b & Ha & Hb & _ & Hs & Hle & _ & Hc).
  rewrite bool_decide_eq_false_2 in Hc by done. destruct Hc as (a' & Ha' & ->).
  exists a, a', b. rewrite lookup_insert_eq, lookup_insert_ne, lookup_insert_eq by done.
  split_and!; done.
Qed.

(** An account is untouched by whoever may not spend from it, up to deposits. *)
Lemma token_transfer_kept ts from to authority amount ts' p a :
  0 ≤ amount → token_transfer ts from to authority amount = Some ts' →
  tk_accounts ts !! p = Some a → ¬ may_spend a authority →
  ∃ a', tk_accounts ts' !! p = Some a' ∧ kept a a'.
Proof.
  intros Hpos Ht Hp Hns. destruct (decide (p = from)) as [-> |Hne].
  - destruct (token_transfer_effect _ _ _ _ _ _ Ht) as (x & y & Hx & _ & _ & Hs & _).
    assert (x = a) as -> by congruence. done.
  - destruct (token_transfer_lookup _ _ _ _ _ _ p a Hpos Ht Hp Hne) as (a' & ? & ? & _). eauto.
Qed.

Lemma token_burn_kept ts account mint authority amount ts' p a :
  token_burn ts account mint authority amount = Some ts' →
  tk_accounts ts !! p = Some a → ¬ may_spend a authority →
  ∃ a', tk_accounts ts' !! p = Some a' ∧ kept a a'.
Proof.
  intros Ht Hp Hns.
  destruct (token_burn_effect _ _ _ _ _ _ Ht) as (x & s & x' & Hx & _ & _ & Hs & _ & _ & -> & _).
  destruct (decide (p = account)) as [-> |Hne].
  - assert (x = a) as -> by congruence. done.
  - rewrite lookup_insert_ne by done. exists a. split; [done|reflexivity].
Qed.
End token.

(** ** A reference token program that meets the interface *)
Definition may_spendb (a : TokenAccount) (authority : Pubkey) : bool :=
  bool_decide (ta_owner a = authority) || bool_decide (ta_delegate a = Some authority).

#[local] Instance reference_token : TokenProgram := {
  token_transfer ts from to authority amount :=
    match tk_accounts ts !! from, tk_accounts ts !! to with
    | Some a, Some b =>
        if bool_decide (ta_mint a = ta_mint b) && may_spendb a authority
           && (0 <=? amount) && (amount <=? ta_amount a)
           && negb (ta_frozen a) && negb (ta_frozen b)
           && (bool_decide (from = to) || (ta_amount b + amount <=? U64_MAX))
        then Some (if bool_decide (from = to) then ts
                   else mkTokenState
                     (<[to := set_amount b (ta_amount b + amount)]>
                        (<[from := set_amount a (ta_amount a - amount)]> (tk_accounts ts)))
                     (tk_mints ts))
        else None
    | _, _ => None
    end;
  token_burn ts account mint authority amount :=
    match tk_accounts ts !! account, tk_mints ts !! mint with
    | Some a, Some supply =>
        if bool_decide (ta_mint a = mint) && may_spendb a authority
           && (0 <=? amount) && (amount <=? ta_amount a) && (amount <=? supply)
           && negb (ta_frozen a)
        then Some (mkTokenState
               (<[account := set_amount a (ta_amount a - amount)]> (tk_accounts ts))
               (<[mint := supply - amount]> (tk_mints ts)))
        else None
    | _, _ => None
    end
}.

Lemma may_spendb_spec a authority : may_spendb a authority = true ↔ may_spend a authority.
Proof. unfold may_spendb, may_spend. rewrite orb_true_iff, !bool_decide_eq_true. done. Qed.

#[local] Instance reference_token_spec : TokenProgramSpec.
Proof.
  split; simpl.
  - intros ts from to authority amount ts' Ht.
    destruct (_ !! from) as [a|] eqn:Ha, (_ !! to) as [b|] eqn:Hb; try done.
    destruct (_ && _) eqn:Hc; [|done]. injection Ht as <-. inv_ok. zbool.
    exists a, b. split_and!; try done; [by apply may_spendb_spec| |]; case_bool_decide; try done.
    eexists. split; [by left|done].
  - intros ts account mint authority amount ts' Ht.
    destruct (_ !! account) as [a|] eqn:Ha, (_ !! mint) as [s|] eqn:Hs; try done.
    destruct (_ && _) eqn:Hc; [|done]. injection Ht as <-. inv_ok. zbool.
    exists a, s, (set_amount a (ta_amount a - amount)).
    split_and!; try done; [by apply may_spendb_spec|by left].
  - intros ts from to authority amount a b -> -> Hne Hm Ho Ha Hfa Hfb Hle.
    rewrite Hfa, Hfb, (bool_decide_eq_true_2 _ Hm), (bool_decide_eq_false_2 _ Hne).
    rewrite (proj2 (may_spendb_spec a authority)) by by left.
    rewrite !(proj2 (Z.leb_le _ _)) by lia. simpl. eauto.
  - intros ts account mint authority amount a s -> -> Hm Ho Ha Hs Hf.
    rewrite Hf, (bool_decide_eq_true_2 _ Hm).
    rewrite (proj2 (may_spendb_spec a authority)) by by left.
    rewrite !(proj2 (Z.leb_le _ _)) by lia. simpl. eauto.
Qed.
