(* ===== verification/State.v ===== *)
(** * Program state
    (src/programs/merkle-distributor/src/state/merkle_distributor.rs,
    claimed_event.rs)

    The distributor account, the events, and the ledger state a transaction
    reads and writes: the program's accounts, the token program's state, the
    clock and the event log. *)
From S2P Require Import Prelude Machine ProgramError ClaimStatus Solana Token.

Record MerkleDistributor := mkMerkleDistributor {
  md_bump : Z;
  md_version : Z;
  md_root : Hash;
  md_mint : Pubkey;
  md_token_vault : Pubkey;
  md_max_total_claim : Z;
  md_max_num_nodes : Z;
  md_total_amount_claimed : Z;
  md_total_amount_forgone : Z;
  md_num_nodes_claimed : Z;
  md_start_ts : Z;
  md_end_ts : Z;
  md_clawback_start_ts : Z;
  md_clawback_receiver : Pubkey;
  md_admin : Pubkey;
  md_clawed_back : bool;
  md_enable_slot : Z;
  md_closable : bool;
  md_buffer_0 : Bytes32;
  md_buffer_1 : Bytes32;
  md_buffer_2 : Bytes32
}.

#[global] Instance MerkleDistributor_eq_dec : EqDecision MerkleDistributor.
Proof. solve_decision. Defined.

(** [MerkleDistributor::default()], what [init] leaves in a fresh account. *)
Definition MerkleDistributor_default : MerkleDistributor :=
  mkMerkleDistributor 0 0 (key 0) (key 0) (key 0) 0 0 0 0 0 0 0 0 (key 0) (key 0) false 0 false (key 0) (key 0) (key 0).

(** ** Field assignments *)
Definition set_bump (v : Z) (d : MerkleDistributor) : MerkleDistributor :=
  mkMerkleDistributor v (md_version d) (md_root d) (md_mint d) (md_token_vault d)
    (md_max_total_claim d) (md_max_num_nodes d) (md_total_amount_claimed d)
    (md_total_amount_forgone d) (md_num_nodes_claimed d) (md_start_ts d) (md_end_ts d)
    (md_clawback_start_ts d) (md_clawback_receiver d) (md_admin d) (md_clawed_back d)
    (md_enable_slot d) (md_closable d) (md_buffer_0 d) (md_buffer_1 d) (md_buffer_2 d).
Definition set_version (v : Z) (d : MerkleDistributor) : MerkleDistributor :=
  mkMerkleDistributor (md_bump d) v (md_root d) (md_mint d) (md_token_vault d)
    (md_max_total_claim d) (md_max_num_nodes d) (md_total_amount_claimed d)
    (md_total_amount_forgone d) (md_num_nodes_claimed d) (md_start_ts d) (md_end_ts d)
    (md_clawback_start_ts d) (md_clawback_receiver d) (md_admin d) (md_clawed_back d)
    (md_enable_slot d) (md_closable d) (md_buffer_0 d) (md_buffer_1 d) (md_buffer_2 d).
Definition set_root (v : Hash) (d : MerkleDistributor) : MerkleDistributor :=
  mkMerkleDistributor (md_bump d) (md_version d) v (md_mint d) (md_token_vault d)
    (md_max_total_claim d) (md_max_num_nodes d) (md_total_amount_claimed d)
    (md_total_amount_forgone d) (md_num_nodes_claimed d) (md_start_ts d) (md_end_ts d)
    (md_clawback_start_ts d) (md_clawback_receiver d) (md_admin d) (md_clawed_back d)
    (md_enable_slot d) (md_closable d) (md_buffer_0 d) (md_buffer_1 d) (md_buffer_2 d).
Definition set_mint (v : Pubkey) (d : MerkleDistributor) : MerkleDistributor :=
  mkMerkleDistributor (md_bump d) (md_version d) (md_root d) v (md_token_vault d)
    (md_max_total_claim d) (md_max_num_nodes d) (md_total_amount_claimed d)
    (md_total_amount_forgone d) (md_num_nodes_claimed d) (md_start_ts d) (md_end_ts d)
    (md_clawback_start_ts d) (md_clawback_receiver d) (md_admin d) (md_clawed_back d)
    (md_enable_slot d) (md_closable d) (md_buffer_0 d) (md_buffer_1 d) (md_buffer_2 d).
Definition set_token_vault (v : Pubkey) (d : MerkleDistributor) : MerkleDistributor :=
  mkMerkleDistributor (md_bump d) (md_version d) (md_root d) (md_mint d) v
    (md_max_total_claim d) (md_max_num_nodes d) (md_total_amount_claimed d)
    (md_total_amount_forgone d) (md_num_nodes_claimed d) (md_start_ts d) (md_end_ts d)
    (md_clawback_start_ts d) (md_clawback_receiver d) (md_admin d) (md_clawed_back d)
    (md_enable_slot d) (md_closable d) (md_buffer_0 d) (md_buffer_1 d) (md_buffer_2 d).
Definition set_max_total_claim (v : Z) (d : MerkleDistributor) : MerkleDistributor :=
  mkMerkleDistributor (md_bump d) (md_version d) (md_root d) (md_mint d) (md_token_vault d) v
    (md_max_num_nodes d) (md_total_amount_claimed d) (md_total_amount_forgone d)
    (md_num_nodes_claimed d) (md_start_ts d) (md_end_ts d) (md_clawback_start_ts d)
    (md_clawback_receiver d) (md_admin d) (md_clawed_back d) (md_enable_slot d) (md_closable d)
    (md_buffer_0 d) (md_buffer_1 d) (md_buffer_2 d).
Definition set_max_num_nodes (v : Z) (d : MerkleDistributor) : MerkleDistributor :=
  mkMerkleDistributor (md_bump d) (md_version d) (md_root d) (md_mint d) (md_token_vault d)
    (md_max_total_claim d) v (md_total_amount_claimed d) (md_total_amount_forgone d)
    (md_num_nodes_claimed d) (md_start_ts d) (md_end_ts d) (md_clawback_start_ts d)
    (md_clawback_receiver d) (md_admin d) (md_clawed_back d) (md_enable_slot d) (md_closable d)
    (md_buffer_0 d) (md_buffer_1 d) (md_buffer_2 d).
Definition set_total_amount_claimed (v : Z) (d : MerkleDistributor) : MerkleDistributor :=
  mkMerkleDistributor (md_bump d) (md_version d) (md_root d) (md_mint d) (md_token_vault d)
    (md_max_total_claim d) (md_max_num_nodes d) v (md_total_amount_forgone d)
    (md_num_nodes_claimed d) (md_start_ts d) (md_end_ts d) (md_clawback_start_ts d)
    (md_clawback_receiver d) (md_admin d) (md_clawed_back d) (md_enable_slot d) (md_closable d)
    (md_buffer_0 d) (md_buffer_1 d) (md_buffer_2 d).
Definition set_total_amount_forgone (v : Z) (d : MerkleDistributor) : MerkleDistributor :=
  mkMerkleDistributor (md_bump d) (md_version d) (md_root d) (md_mint d) (md_token_vault d)
    (md_max_total_claim d) (md_max_num_nodes d) (md_total_amount_claimed d) v
    (md_num_nodes_claimed d) (md_start_ts d) (md_end_ts d) (md_clawback_start_ts d)
    (md_clawback_receiver d) (md_admin d) (md_clawed_back d) (md_enable_slot d) (md_closable d)
    (md_buffer_0 d) (md_buffer_1 d) (md_buffer_2 d).
Definition set_num_nodes_claimed (v : Z) (d : MerkleDistributor) : MerkleDistributor :=
  mkMerkleDistributor (md_bump d) (md_version d) (md_root d) (md_mint d) (md_token_vault d)
    (md_max_total_claim d) (md_max_num_nodes d) (md_total_amount_claimed d)
    (md_total_amount_forgone d) v (md_start_ts d) (md_end_ts d) (md_clawback_start_ts d)
    (md_clawback_receiver d) (md_admin d) (md_clawed_back d) (md_enable_slot d) (md_closable d)
    (md_buffer_0 d) (md_buffer_1 d) (md_buffer_2 d).
Definition set_start_ts (v : Z) (d : MerkleDistributor) : MerkleDistributor :=
  mkMerkleDistributor (md_bump d) (md_version d) (md_root d) (md_mint d) (md_token_vault d)
    (md_max_total_claim d) (md_max_num_nodes d) (md_total_amount_claimed d)
    (md_total_amount_forgone d) (md_num_nodes_claimed d) v (md_end_ts d)
    (md_clawback_start_ts d) (md_clawback_receiver d) (md_admin d) (md_clawed_back d)
    (md_enable_slot d) (md_closable d) (md_buffer_0 d) (md_buffer_1 d) (md_buffer_2 d).
Definition set_end_ts (v : Z) (d : MerkleDistributor) : MerkleDistributor :=
  mkMerkleDistributor (md_bump d) (md_version d) (md_root d) (md_mint d) (md_token_vault d)
    (md_max_total_claim d) (md_max_num_nodes d) (md_total_amount_claimed d)
    (md_total_amount_forgone d) (md_num_nodes_claimed d) (md_start_ts d) v
    (md_clawback_start_ts d) (md_clawback_receiver d) (md_admin d) (md_clawed_back d)
    (md_enable_slot d) (md_closable d) (md_buffer_0 d) (md_buffer_1 d) (md_buffer_2 d).
Definition set_clawback_start_ts (v : Z) (d : MerkleDistributor) : MerkleDistributor :=
  mkMerkleDistributor (md_bump d) (md_version d) (md_root d) (md_mint d) (md_token_vault d)
    (md_max_total_claim d) (md_max_num_nodes d) (md_total_amount_claimed d)
    (md_total_amount_forgone d) (md_num_nodes_claimed d) (md_start_ts d) (md_end_ts d) v
    (md_clawback_receiver d) (md_admin d) (md_clawed_back d) (md_enable_slot d) (md_closable d)
    (md_buffer_0 d) (md_buffer_1 d) (md_buffer_2 d).
Definition set_clawback_receiver (v : Pubkey) (d : MerkleDistributor) : MerkleDistributor :=
  mkMerkleDistributor (md_bump d) (md_version d) (md_root d) (md_mint d) (md_token_vault d)
    (md_max_total_claim d) (md_max_num_nodes d) (md_total_amount_claimed d)
    (md_total_amount_forgone d) (md_num_nodes_claimed d) (md_start_ts d) (md_end_ts d)
    (md_clawback_start_ts d) v (md_admin d) (md_clawed_back d) (md_enable_slot d)
    (md_closable d) (md_buffer_0 d) (md_buffer_1 d) (md_buffer_2 d).
Definition set_admin (v : Pubkey) (d : MerkleDistributor) : MerkleDistributor :=
  mkMerkleDistributor (md_bump d) (md_version d) (md_root d) (md_mint d) (md_token_vault d)
    (md_max_total_claim d) (md_max_num_nodes d) (md_total_amount_claimed d)
    (md_total_amount_forgone d) (md_num_nodes_claimed d) (md_start_ts d) (md_end_ts d)
    (md_clawback_start_ts d) (md_clawback_receiver d) v (md_clawed_back d) (md_enable_slot d)
    (md_closable d) (md_buffer_0 d) (md_buffer_1 d) (md_buffer_2 d).
Definition set_clawed_back (v : bool) (d : MerkleDistributor) : MerkleDistributor :=
  mkMerkleDistributor (md_bump d) (md_version d) (md_root d) (md_mint d) (md_token_vault d)
    (md_max_total_claim d) (md_max_num_nodes d) (md_total_amount_claimed d)
    (md_total_amount_forgone d) (md_num_nodes_claimed d) (md_start_ts d) (md_end_ts d)
    (md_clawback_start_ts d) (md_clawback_receiver d) (md_admin d) v (md_enable_slot d)
    (md_closable d) (md_buffer_0 d) (md_buffer_1 d) (md_buffer_2 d).
Definition set_enable_slot (v : Z) (d : MerkleDistributor) : MerkleDistributor :=
  mkMerkleDistributor (md_bump d) (md_version d) (md_root d) (md_mint d) (md_token_vault d)
    (md_max_total_claim d) (md_max_num_nodes d) (md_total_amount_claimed d)
    (md_total_amount_forgone d) (md_num_nodes_claimed d) (md_start_ts d) (md_end_ts d)
    (md_clawback_start_ts d) (md_clawback_receiver d) (md_admin d) (md_clawed_back d) v
    (md_closable d) (md_buffer_0 d) (md_buffer_1 d) (md_buffer_2 d).
Definition set_closable (v : bool) (d : MerkleDistributor) : MerkleDistributor :=
  mkMerkleDistributor (md_bump d) (md_version d) (md_root d) (md_mint d) (md_token_vault d)
    (md_max_total_claim d) (md_max_num_nodes d) (md_total_amount_claimed d)
    (md_total_amount_forgone d) (md_num_nodes_claimed d) (md_start_ts d) (md_end_ts d)
    (md_clawback_start_ts d) (md_clawback_receiver d) (md_admin d) (md_clawed_back d)
    (md_enable_slot d) v (md_buffer_0 d) (md_buffer_1 d) (md_buffer_2 d).

(** ** Accounts, events and state *)
Inductive ProgramAccount :=
| DistributorAcc (d : MerkleDistributor)
| ClaimStatusAcc (cs : ClaimStatus).

Inductive Event :=
| NewClaimEvent (claimant : Pubkey) (timestamp amount_claimed amount_forgone : Z)
| ClaimedEvent (claimant : Pubkey) (amount : Z)
| SetRootEvent (distributor : Pubkey) (old_root new_root : Hash)
    (old_max_total_claim new_max_total_claim burned : Z).

Record State := mkState {
  st_accounts : gmap Pubkey ProgramAccount;
  st_tokens : TokenState;
  st_clock : Clock;
  st_events : list Event
}.

Definition curr_ts (st : State) : Z := clk_unix_timestamp (st_clock st).
Definition curr_slot (st : State) : Z := clk_slot (st_clock st).

Definition put (k : Pubkey) (a : ProgramAccount) (st : State) : State :=
  mkState (<[k := a]> (st_accounts st)) (st_tokens st) (st_clock st) (st_events st).
Definition close_account (k : Pubkey) (st : State) : State :=
  mkState (delete k (st_accounts st)) (st_tokens st) (st_clock st) (st_events st).
Definition set_tokens (ts : TokenState) (st : State) : State :=
  mkState (st_accounts st) ts (st_clock st) (st_events st).
Definition emit (e : Event) (st : State) : State :=
  mkState (st_accounts st) (st_tokens st) (st_clock st) (st_events st ++ [e]).

Definition get_distributor (st : State) (k : Pubkey) : option MerkleDistributor :=
  match st_accounts st !! k with Some (DistributorAcc d) => Some d | _ => None end.
Definition get_claim_status (st : State) (k : Pubkey) : option ClaimStatus :=
  match st_accounts st !! k with Some (ClaimStatusAcc cs) => Some cs | _ => None end.

(** ** Anchor account loading ([Account<T>], [Signer]) *)
Definition load_distributor (st : State) (k : Pubkey) : fallible MerkleDistributor :=
  ok_or (get_distributor st k) (Anchor AccountNotInitialized).
Definition load_claim_status (st : State) (k : Pubkey) : fallible ClaimStatus :=
  ok_or (get_claim_status st k) (Anchor AccountNotInitialized).
Definition load_token (st : State) (k : Pubkey) : fallible TokenAccount :=
  ok_or (tk_accounts (st_tokens st) !! k) (Anchor AccountNotInitialized).
Definition load_mint (st : State) (k : Pubkey) : fallible Z :=
  ok_or (tk_mints (st_tokens st) !! k) (Anchor AccountNotInitialized).
Definition check_signer (signers : gset Pubkey) (k : Pubkey) : fallible unit :=
  require (bool_decide (k ∈ signers)) (Anchor AccountNotSigner).

(** Equality constraints: [address = .. @ err], [has_one = ..], [token::mint = ..]. *)
Definition check_eq (a b : Pubkey) (e : ProgramError) : fallible unit :=
  require (bool_decide (a = b)) e.

Lemma check_eq_Ok a b e u : check_eq a b e = Ok u ↔ a = b.
Proof. unfold check_eq. by rewrite require_Ok, bool_decide_eq_true. Qed.

Lemma check_signer_Ok ss k u : check_signer ss k = Ok u ↔ k ∈ ss.
Proof. unfold check_signer. by rewrite require_Ok, bool_decide_eq_true. Qed.

Lemma get_distributor_Some st k d :
  get_distributor st k = Some d ↔ st_accounts st !! k = Some (DistributorAcc d).
Proof. unfold get_distributor. repeat case_match; naive_solver. Qed.

Lemma get_claim_status_Some st k cs :
  get_claim_status st k = Some cs ↔ st_accounts st !! k = Some (ClaimStatusAcc cs).
Proof. unfold get_claim_status. repeat case_match; naive_solver. Qed.

Section derived.
Context `{AddressDerivation}.

(** ** Program-derived addresses of the distributor program *)
Definition PROGRAM_ID : Pubkey := pubkey "distAitdwx9mDm3SaPMtGZRjpXMPUenLhmPwoySV3Hp".

(** The bytes of the seed literals. *)
Definition bytes_of_string (s : string) : list byte := String.list_byte_of_string s.

Definition distributor_seeds (mint : Pubkey) (version : Z) : list (list byte) :=
  [bytes_of_string "MerkleDistributor"; b32_list mint; u64_to_le_bytes version].
Definition claim_status_seeds (claimant distributor : Pubkey) : list (list byte) :=
  [bytes_of_string "ClaimStatus"; b32_list claimant; b32_list distributor].

(** As the off-chain tools derive them, for a program of their configuration. *)
Definition get_merkle_distributor_pda (program_id mint : Pubkey) (version : Z) : Pubkey * Z :=
  find_program_address (distributor_seeds mint version) program_id.
Definition get_claim_status_pda (program_id claimant distributor : Pubkey) : Pubkey * Z :=
  find_program_address (claim_status_seeds claimant distributor) program_id.

(** As the program derives them. *)
Definition distributor_address (mint : Pubkey) (version : Z) : Pubkey :=
  (find_program_address (distributor_seeds mint version) PROGRAM_ID).1.
Definition distributor_bump (mint : Pubkey) (version : Z) : Z :=
  (find_program_address (distributor_seeds mint version) PROGRAM_ID).2.
Definition claim_status_address (claimant distributor : Pubkey) : Pubkey :=
  (find_program_address (claim_status_seeds claimant distributor) PROGRAM_ID).1.

(** [associated_token::mint = mint, associated_token::authority = authority]. *)
Definition check_associated (k : Pubkey) (a : TokenAccount) (mint authority : Pubkey)
  : fallible unit :=
  _ ← check_eq (ta_owner a) authority (Anchor ConstraintTokenOwner);
  check_eq k (get_associated_token_address authority mint) (Anchor ConstraintAssociated).

(** [init] with [seeds] and [bump]: the address is the derived one and not in
    use; the account is created with its default contents. *)
Definition init_account (k addr : Pubkey) (a : ProgramAccount) (st : State) : fallible State :=
  _ ← check_eq k addr (Anchor ConstraintSeeds);
  _ ← require (bool_decide (st_accounts st !! k = None)) (Anchor AccountAlreadyInUse);
  Ok (put k a st).

(** ** CPIs signed by the distributor: [CpiContext::new(..).with_signer(&[&seeds[..]])] *)
Context `{TokenProgram}.

Definition signer_seeds (d : MerkleDistributor) : list (list byte) :=
  distributor_seeds (md_mint d) (md_version d) ++ [[byte_of_Z (md_bump d)]].

(** The runtime accepts [k] as a signer only if the seeds derive it. *)
Definition invoke_signed (k : Pubkey) (d : MerkleDistributor) : fallible unit :=
  require (bool_decide (create_program_address (signer_seeds d) PROGRAM_ID = Some k))
    PrivilegeEscalation.

Definition cpi_transfer (st : State) (k : Pubkey) (d : MerkleDistributor) (from to : Pubkey)
    (amount : Z) : fallible State :=
  _ ← invoke_signed k d;
  ts ← ok_or (token_transfer (st_tokens st) from to k amount) TokenProgramError;
  Ok (set_tokens ts st).

Definition cpi_burn (st : State) (k : Pubkey) (d : MerkleDistributor) (mint from : Pubkey)
    (amount : Z) : fallible State :=
  _ ← invoke_signed k d;
  ts ← ok_or (token_burn (st_tokens st) from mint k amount) TokenProgramError;
  Ok (set_tokens ts st).
End derived.
