(* ===== verification/Handlers.v ===== *)
(** * The instructions of the distributor program
    (src/programs/merkle-distributor/src/instructions/)

    For every instruction: its accounts struct as a record of keys, the Anchor
    checks of that struct ([<Struct>_try_accounts], in Anchor's order: load
    every field and check signers, create [init] accounts, then the constraints
    field by field), and the handler.  A handler returns the state after the
    instruction; an [Err] leaves the ledger as it was. *)
From S2P Require Import Prelude Machine Hashing TreeNode ProgramError ClaimStatus Solana Token.
From S2P Require Import State.

Section handlers.
Context `{Hasher} `{AddressDerivation} `{TokenProgram}.
Implicit Types (st : State) (signers : gset Pubkey).

(** ** new_distributor.rs *)
Definition SECONDS_PER_HOUR : Z := 3600.
Definition HOURS_PER_DAY : Z := 24.
Definition SECONDS_PER_DAY : Z := SECONDS_PER_HOUR * HOURS_PER_DAY.
Definition ADMIN_ID : Pubkey := pubkey "prpHJmuXnqdaz92tBVdwsqmqyhqPLuq5Km35a5QWco3".

Record NewDistributor := mkNewDistributor {
  nd_distributor : Pubkey;
  nd_clawback_receiver : Pubkey;
  nd_mint : Pubkey;
  nd_token_vault : Pubkey;
  nd_admin : Pubkey
}.

Record NewDistributorArgs := mkNewDistributorArgs {
  nda_version : Z;
  nda_root : Hash;
  nda_max_total_claim : Z;
  nda_max_num_nodes : Z;
  nda_start_vesting_ts : Z;
  nda_end_vesting_ts : Z;
  nda_clawback_start_ts : Z;
  nda_enable_slot : Z;
  nda_closable : bool
}.

Definition NewDistributor_try_accounts signers st (a : NewDistributor) (version : Z)
  : fallible State :=
  receiver ← load_token st (nd_clawback_receiver a);
  _ ← load_mint st (nd_mint a);
  vault ← load_token st (nd_token_vault a);
  _ ← check_signer signers (nd_admin a);
  st ← init_account (nd_distributor a) (distributor_address (nd_mint a) version)
         (DistributorAcc MerkleDistributor_default) st;
  _ ← check_eq (ta_mint receiver) (nd_mint a) (Anchor ConstraintTokenMint);
  _ ← check_associated (nd_token_vault a) vault (nd_mint a) (nd_distributor a);
  _ ← check_eq (nd_admin a) ADMIN_ID (Anchor ConstraintAddress);
  Ok st.

Definition handle_new_distributor signers st (a : NewDistributor) (p : NewDistributorArgs)
  : fallible State :=
  st ← NewDistributor_try_accounts signers st a (nda_version p);
  _ ← require (nda_start_vesting_ts p <? nda_end_vesting_ts p) (Custom StartTimestampAfterEnd);
  _ ← require ((curr_ts st <? nda_end_vesting_ts p) && (curr_ts st <? nda_clawback_start_ts p))
        (Custom TimestampsNotInFuture);
  _ ← require (nda_end_vesting_ts p <? nda_clawback_start_ts p) (Custom ClawbackDuringVesting);
  earliest ← ok_or (checked_add_i64 (nda_end_vesting_ts p) SECONDS_PER_DAY)
               (Custom ArithmeticError);
  _ ← require (earliest <=? nda_clawback_start_ts p) (Custom InsufficientClawbackDelay);
  d ← load_distributor st (nd_distributor a);
  let d := set_bump (distributor_bump (nd_mint a) (nda_version p)) d in
  let d := set_version (nda_version p) d in
  let d := set_root (nda_root p) d in
  let d := set_mint (nd_mint a) d in
  let d := set_token_vault (nd_token_vault a) d in
  let d := set_max_total_claim (nda_max_total_claim p) d in
  let d := set_max_num_nodes (nda_max_num_nodes p) d in
  let d := set_total_amount_claimed 0 d in
  let d := set_num_nodes_claimed 0 d in
  let d := set_start_ts (nda_start_vesting_ts p) d in
  let d := set_end_ts (nda_end_vesting_ts p) d in
  let d := set_clawback_start_ts (nda_clawback_start_ts p) d in
  let d := set_clawback_receiver (nd_clawback_receiver a) d in
  let d := set_admin (nd_admin a) d in
  let d := set_clawed_back false d in
  let d := set_enable_slot (nda_enable_slot p) d in
  let d := set_closable (nda_closable p) d in
  Ok (put (nd_distributor a) (DistributorAcc d) st).

(** ** new_claim.rs *)
Record NewClaim := mkNewClaim {
  nc_distributor : Pubkey;
  nc_claim_status : Pubkey;
  nc_from : Pubkey;
  nc_to : Pubkey;
  nc_claimant : Pubkey
}.

Definition NewClaim_try_accounts signers st (a : NewClaim) : fallible State :=
  d ← load_distributor st (nc_distributor a);
  from ← load_token st (nc_from a);
  to ← load_token st (nc_to a);
  _ ← check_signer signers (nc_claimant a);
  st ← init_account (nc_claim_status a)
         (claim_status_address (nc_claimant a) (nc_distributor a))
         (ClaimStatusAcc ClaimStatus_default) st;
  _ ← check_associated (nc_from a) from (md_mint d) (nc_distributor a);
  _ ← check_eq (nc_from a) (md_token_vault d) (Anchor ConstraintAddress);
  _ ← check_eq (ta_mint to) (md_mint d) (Anchor ConstraintTokenMint);
  _ ← check_eq (ta_owner to) (nc_claimant a) (Anchor ConstraintTokenOwner);
  _ ← check_eq (nc_claimant a) (ta_owner to) (Custom OwnerMismatch);
  Ok st.

(** The leaf a claim proves: [hashv([LEAF_PREFIX, hashv([claimant, u, l])])]. *)
Definition claim_leaf (claimant : Pubkey) (amount_unlocked amount_locked : Z) : Hash :=
  hash_leaf (b32_list (hashv (claim_slices claimant amount_unlocked amount_locked))).

Definition handle_new_claim signers st (a : NewClaim) (amount_unlocked amount_locked : Z)
    (proof : list Hash) : fallible State :=
  st ← NewClaim_try_accounts signers st a;
  d ← load_distributor st (nc_distributor a);
  _ ← require (negb (md_clawed_back d)) (Custom ClaimExpired);
  _ ← require (md_enable_slot d <=? curr_slot st) (Custom ClaimingIsNotStarted);
  _ ← require (md_start_ts d <=? curr_ts st) (Custom ClaimingIsNotStarted);
  n ← ok_or (checked_add_u64 (md_num_nodes_claimed d) 1) (Custom ArithmeticError);
  let d := set_num_nodes_claimed n d in
  _ ← require (md_num_nodes_claimed d <=? md_max_num_nodes d) (Custom MaxNodesExceeded);
  _ ← require (verify proof (md_root d) (claim_leaf (nc_claimant a) amount_unlocked amount_locked))
        (Custom InvalidProof);
  cs ← load_claim_status st (nc_claim_status a);
  let cs := mkClaimStatus (nc_claimant a) amount_locked 0 amount_unlocked
              (cs_unlocked_amount_claimed cs) (md_closable d) (nc_distributor a) in
  cs ← update_unlocked_amount_claimed cs (curr_ts st) (md_start_ts d) (md_end_ts d);
  amount_forgone ← get_unlocked_amount_forgone cs;
  st ← cpi_transfer st (nc_distributor a) d (nc_from a) (nc_to a) (cs_unlocked_amount_claimed cs);
  claimed ← ok_or (checked_add_u64 (md_total_amount_claimed d) (cs_unlocked_amount_claimed cs))
              (Custom ArithmeticError);
  let d := set_total_amount_claimed claimed d in
  forgone ← ok_or (checked_add_u64 (md_total_amount_forgone d) amount_forgone)
              (Custom ArithmeticError);
  let d := set_total_amount_forgone forgone d in
  settled ← ok_or (checked_add_u64 (md_total_amount_claimed d) (md_total_amount_forgone d))
              (Custom ArithmeticError);
  _ ← require (settled <=? md_max_total_claim d) (Custom ExceededMaxClaim);
  let st := emit (NewClaimEvent (nc_claimant a) (curr_ts st) (cs_unlocked_amount_claimed cs)
                    amount_forgone) st in
  Ok (put (nc_claim_status a) (ClaimStatusAcc cs) (put (nc_distributor a) (DistributorAcc d) st)).

(** ** claim_locked.rs *)
Record ClaimLocked := mkClaimLocked {
  cl_distributor : Pubkey;
  cl_claim_status : Pubkey;
  cl_from : Pubkey;
  cl_to : Pubkey;
  cl_claimant : Pubkey
}.

Definition ClaimLocked_try_accounts signers st (a : ClaimLocked)
  : fallible (MerkleDistributor * ClaimStatus) :=
  d ← load_distributor st (cl_distributor a);
  cs ← load_claim_status st (cl_claim_status a);
  from ← load_token st (cl_from a);
  to ← load_token st (cl_to a);
  _ ← check_signer signers (cl_claimant a);
  _ ← check_eq (cl_claim_status a) (claim_status_address (cl_claimant a) (cl_distributor a))
        (Anchor ConstraintSeeds);
  _ ← check_associated (cl_from a) from (md_mint d) (cl_distributor a);
  _ ← check_eq (cl_from a) (md_token_vault d) (Anchor ConstraintAddress);
  _ ← check_eq (ta_owner to) (cl_claimant a) (Anchor ConstraintTokenOwner);
  _ ← check_eq (cl_claimant a) (ta_owner to) (Custom OwnerMismatch);
  Ok (d, cs).

Definition handle_claim_locked signers st (a : ClaimLocked) : fallible State :=
  '(d, cs) ← ClaimLocked_try_accounts signers st a;
  _ ← require (negb (md_clawed_back d)) (Custom ClaimExpired);
  _ ← require (md_enable_slot d <=? curr_slot st) (Custom ClaimingIsNotStarted);
  amount ← amount_withdrawable cs (curr_ts st) (md_start_ts d) (md_end_ts d);
  _ ← require (0 <? amount) (Custom InsufficientUnlockedTokens);
  st ← cpi_transfer st (cl_distributor a) d (cl_from a) (cl_to a) amount;
  withdrawn ← ok_or (checked_add_u64 (cs_locked_amount_withdrawn cs) amount)
                (Custom ArithmeticError);
  let cs := set_locked_amount_withdrawn cs withdrawn in
  _ ← require (cs_locked_amount_withdrawn cs <=? cs_locked_amount cs) (Custom ExceededMaxClaim);
  claimed ← ok_or (checked_add_u64 (md_total_amount_claimed d) amount) (Custom ArithmeticError);
  let d := set_total_amount_claimed claimed d in
  _ ← require (md_total_amount_claimed d <=? md_max_total_claim d) (Custom ExceededMaxClaim);
  remaining_seconds ←
    (if curr_ts st <? md_end_ts d
     then ok_or (checked_sub_i64 (md_end_ts d) (curr_ts st)) Panic
     else Ok 0);
  let st := emit (ClaimedEvent (cl_claimant a) amount) st in
  Ok (put (cl_claim_status a) (ClaimStatusAcc cs) (put (cl_distributor a) (DistributorAcc d) st)).

(** ** clawback.rs *)
Record Clawback := mkClawback {
  cb_distributor : Pubkey;
  cb_from : Pubkey;
  cb_to : Pubkey;
  cb_claimant : Pubkey
}.

Definition Clawback_try_accounts signers st (a : Clawback)
  : fallible (MerkleDistributor * TokenAccount) :=
  d ← load_distributor st (cb_distributor a);
  from ← load_token st (cb_from a);
  _ ← load_token st (cb_to a);
  _ ← check_signer signers (cb_claimant a);
  _ ← check_associated (cb_from a) from (md_mint d) (cb_distributor a);
  _ ← check_eq (cb_from a) (md_token_vault d) (Anchor ConstraintAddress);
  _ ← check_eq (cb_to a) (md_clawback_receiver d) (Anchor ConstraintAddress);
  Ok (d, from).

Definition handle_clawback signers st (a : Clawback) : fallible State :=
  '(d, from) ← Clawback_try_accounts signers st a;
  _ ← require (negb (md_clawed_back d)) (Custom ClawbackAlreadyClaimed);
  _ ← require (negb (curr_ts st <? md_clawback_start_ts d)) (Custom ClawbackBeforeStart);
  st ← cpi_transfer st (cb_distributor a) d (cb_from a) (cb_to a) (ta_amount from);
  Ok (put (cb_distributor a) (DistributorAcc (set_clawed_back true d)) st).

(** ** set_root.rs *)
Definition DFX_MINTS : list Pubkey :=
  [pubkey "dfxQsZjikuu5DGXPgX7yEpRog74HT5cJgytT3i5iLtw";
   pubkey "dfxKL8VLUjLMCnFiJ57ZjrjGDiDMLRX8tHmg8biUV39"].

Record SetRoot := mkSetRoot {
  sr_distributor : Pubkey;
  sr_token_vault : Pubkey;
  sr_mint : Pubkey;
  sr_admin : Pubkey
}.

Definition SetRoot_try_accounts signers st (a : SetRoot)
  : fallible (MerkleDistributor * TokenAccount) :=
  d ← load_distributor st (sr_distributor a);
  vault ← load_token st (sr_token_vault a);
  _ ← load_mint st (sr_mint a);
  _ ← check_signer signers (sr_admin a);
  _ ← check_eq (sr_token_vault a) (md_token_vault d) (Anchor ConstraintAddress);
  _ ← check_eq (sr_mint a) (md_mint d) (Anchor ConstraintAddress);
  _ ← check_eq (sr_admin a) (md_admin d) (Custom Unauthorized);
  Ok (d, vault).

Definition validate_set_root (d : MerkleDistributor) (vault_amount : Z) (expected_old_root : Hash)
    (expected_num_nodes_claimed new_max_total_claim : Z) : fallible Z :=
  _ ← require (bool_decide (md_mint d ∈ DFX_MINTS)) (Custom MintNotReRootable);
  _ ← require (negb (md_clawed_back d)) (Custom ClawbackAlreadyClaimed);
  _ ← require (md_enable_slot d =? U64_MAX) (Custom DistributorNotPaused);
  _ ← require (bool_decide (md_root d = expected_old_root)) (Custom RootMismatch);
  _ ← require (md_num_nodes_claimed d =? expected_num_nodes_claimed) (Custom ClaimCountMismatch);
  _ ← require (new_max_total_claim <=? md_max_total_claim d) (Custom MaxTotalClaimIncrease);
  settled ← ok_or (checked_add_u64 (md_total_amount_claimed d) (md_total_amount_forgone d))
              (Custom ArithmeticError);
  _ ← require (settled <=? new_max_total_claim) (Custom ExceededMaxClaim);
  owed ← ok_or (checked_sub_u64 (md_max_total_claim d) (md_total_amount_claimed d)) Panic;
  _ ← require (owed <=? vault_amount) (Custom InsufficientUnlockedTokens);
  ok_or (checked_sub_u64 (md_max_total_claim d) new_max_total_claim) Panic.

Definition handle_set_root signers st (a : SetRoot) (new_root expected_old_root : Hash)
    (expected_num_nodes_claimed new_max_total_claim : Z) : fallible State :=
  '(d, vault) ← SetRoot_try_accounts signers st a;
  burn_amount ← validate_set_root d (ta_amount vault) expected_old_root
                  expected_num_nodes_claimed new_max_total_claim;
  st ← (if 0 <? burn_amount
        then cpi_burn st (sr_distributor a) d (sr_mint a) (sr_token_vault a) burn_amount
        else Ok st);
  let st := emit (SetRootEvent (sr_distributor a) (md_root d) new_root (md_max_total_claim d)
                    new_max_total_claim burn_amount) st in
  let d := set_root new_root d in
  let d := set_max_total_claim new_max_total_claim d in
  Ok (put (sr_distributor a) (DistributorAcc d) st).

(** ** set_clawback_start_ts.rs *)
Record SetClawbackStartTs := mkSetClawbackStartTs {
  sc_distributor : Pubkey;
  sc_admin : Pubkey
}.

Definition validate_clawback_start_ts (d : MerkleDistributor) (clawback_start_ts curr_ts : Z)
  : fallible unit :=
  _ ← require (negb (md_clawed_back d)) (Custom ClawbackAlreadyClaimed);
  _ ← require (curr_ts <? clawback_start_ts) (Custom TimestampsNotInFuture);
  earliest ← ok_or (checked_add_i64 (md_end_ts d) SECONDS_PER_DAY) (Custom ArithmeticError);
  require (earliest <=? clawback_start_ts) (Custom InsufficientClawbackDelay).

(** The accounts of the admin-only setters: the distributor and its admin. *)
Definition SetClawbackStartTs_try_accounts signers st (a : SetClawbackStartTs)
  : fallible MerkleDistributor :=
  d ← load_distributor st (sc_distributor a);
  _ ← check_signer signers (sc_admin a);
  _ ← check_eq (sc_admin a) (md_admin d) (Custom Unauthorized);
  Ok d.

Definition handle_set_clawback_start_ts signers st (a : SetClawbackStartTs)
    (clawback_start_ts : Z) : fallible State :=
  d ← SetClawbackStartTs_try_accounts signers st a;
  _ ← validate_clawback_start_ts d clawback_start_ts (curr_ts st);
  Ok (put (sc_distributor a) (DistributorAcc (set_clawback_start_ts clawback_start_ts d)) st).

(** ** set_clawback_receiver.rs *)
Record SetClawbackReceiver := mkSetClawbackReceiver {
  sv_distributor : Pubkey;
  sv_new_clawback_account : Pubkey;
  sv_admin : Pubkey
}.

Definition SetClawbackReceiver_try_accounts signers st (a : SetClawbackReceiver)
  : fallible MerkleDistributor :=
  d ← load_distributor st (sv_distributor a);
  account ← load_token st (sv_new_clawback_account a);
  _ ← check_signer signers (sv_admin a);
  _ ← check_eq (ta_mint account) (md_mint d) (Anchor ConstraintTokenMint);
  _ ← check_eq (sv_admin a) (md_admin d) (Custom Unauthorized);
  Ok d.

Definition handle_set_clawback_receiver signers st (a : SetClawbackReceiver) : fallible State :=
  d ← SetClawbackReceiver_try_accounts signers st a;
  _ ← require (bool_decide (md_clawback_receiver d ≠ sv_new_clawback_account a))
        (Custom SameClawbackReceiver);
  Ok (put (sv_distributor a)
        (DistributorAcc (set_clawback_receiver (sv_new_clawback_account a) d)) st).

(** ** set_admin.rs *)
Record SetAdmin := mkSetAdmin {
  sa_distributor : Pubkey;
  sa_admin : Pubkey;
  sa_new_admin : Pubkey
}.

Definition SetAdmin_try_accounts signers st (a : SetAdmin) : fallible MerkleDistributor :=
  d ← load_distributor st (sa_distributor a);
  _ ← check_signer signers (sa_admin a);
  _ ← check_eq (sa_admin a) (md_admin d) (Custom Unauthorized);
  Ok d.

Definition handle_set_admin signers st (a : SetAdmin) : fallible State :=
  d ← SetAdmin_try_accounts signers st a;
  _ ← require (bool_decide (sa_admin a ≠ sa_new_admin a)) (Custom SameAdmin);
  Ok (put (sa_distributor a) (DistributorAcc (set_admin (sa_new_admin a) d)) st).

(** ** set_enable_slot.rs *)
Record SetEnableSlot := mkSetEnableSlot {
  se_distributor : Pubkey;
  se_admin : Pubkey
}.

Definition SetEnableSlot_try_accounts signers st (a : SetEnableSlot)
  : fallible MerkleDistributor :=
  d ← load_distributor st (se_distributor a);
  _ ← check_signer signers (se_admin a);
  _ ← check_eq (md_admin d) (se_admin a) (Anchor ConstraintHasOne);
  Ok d.

Definition handle_set_enable_slot signers st (a : SetEnableSlot) (enable_slot : Z)
  : fallible State :=
  d ← SetEnableSlot_try_accounts signers st a;
  Ok (put (se_distributor a) (DistributorAcc (set_enable_slot enable_slot d)) st).

(** ** close_distributor.rs *)
Record CloseDistributor := mkCloseDistributor {
  cd_distributor : Pubkey;
  cd_token_vault : Pubkey;
  cd_admin : Pubkey;
  cd_destination_token_account : Pubkey
}.

Definition CloseDistributor_try_accounts signers st (a : CloseDistributor)
  : fallible (MerkleDistributor * TokenAccount) :=
  d ← load_distributor st (cd_distributor a);
  vault ← load_token st (cd_token_vault a);
  _ ← check_signer signers (cd_admin a);
  _ ← load_token st (cd_destination_token_account a);
  _ ← check_eq (md_admin d) (cd_admin a) (Anchor ConstraintHasOne);
  _ ← check_eq (md_token_vault d) (cd_token_vault a) (Anchor ConstraintHasOne);
  _ ← require (md_closable d) (Custom CannotCloseDistributor);
  _ ← require (bool_decide (cd_distributor a ≠ cd_admin a)) (Anchor ConstraintClose);
  Ok (d, vault).

(** The handler, and [close = admin] when the instruction exits. *)
Definition handle_close_distributor signers st (a : CloseDistributor) : fallible State :=
  '(d, vault) ← CloseDistributor_try_accounts signers st a;
  st ← cpi_transfer st (cd_distributor a) d (cd_token_vault a) (cd_destination_token_account a)
         (ta_amount vault);
  Ok (close_account (cd_distributor a) st).

(** ** close_claim_status.rs *)
Record CloseClaimStatus := mkCloseClaimStatus {
  cc_claim_status : Pubkey;
  cc_claimant : Pubkey;
  cc_admin : Pubkey;
  cc_distributor : Pubkey
}.

Definition CloseClaimStatus_try_accounts signers st (a : CloseClaimStatus) : fallible unit :=
  cs ← load_claim_status st (cc_claim_status a);
  _ ← check_signer signers (cc_admin a);
  d ← load_distributor st (cc_distributor a);
  _ ← check_eq (cs_claimant cs) (cc_claimant a) (Anchor ConstraintHasOne);
  _ ← check_eq (cs_distributor cs) (cc_distributor a) (Anchor ConstraintHasOne);
  _ ← require (cs_closable cs) (Custom CannotCloseClaimStatus);
  _ ← require (bool_decide (cc_claim_status a ≠ cc_claimant a)) (Anchor ConstraintClose);
  check_eq (md_admin d) (cc_admin a) (Anchor ConstraintHasOne).

Definition handle_close_status signers st (a : CloseClaimStatus) : fallible State :=
  _ ← CloseClaimStatus_try_accounts signers st a;
  Err Panic.
End handlers.
