(* ===== verification/Program.v ===== *)
(** * The program entry point and its executions
    (src/programs/merkle-distributor/src/lib.rs)

    The dispatcher over all instructions, what each instruction did when it
    succeeded, and the step relation of the ledger. *)
From S2P Require Import Prelude Machine Hashing TreeNode ProgramError ClaimStatus Solana Token.
From S2P Require Import State Handlers.

Inductive Instruction :=
| INewDistributor (a : NewDistributor) (p : NewDistributorArgs)
| ICloseDistributor (a : CloseDistributor)
| ICloseClaimStatus (a : CloseClaimStatus)
| ISetEnableSlot (a : SetEnableSlot) (enable_slot : Z)
| ISetRoot (a : SetRoot) (new_root expected_old_root : Hash)
    (expected_num_nodes_claimed new_max_total_claim : Z)
| INewClaim (a : NewClaim) (amount_unlocked amount_locked : Z) (proof : list Hash)
| IClaimLocked (a : ClaimLocked)
| IClawback (a : Clawback)
| ISetClawbackReceiver (a : SetClawbackReceiver)
| ISetClawbackStartTs (a : SetClawbackStartTs) (clawback_start_ts : Z)
| ISetAdmin (a : SetAdmin).

(** Extend [inv_ok] to the account checks of the handlers. *)
Ltac inv_checks :=
  repeat (inv_ok; match goal with
  | H : check_eq _ _ _ = Ok _ |- _ => apply check_eq_Ok in H
  | H : check_signer _ _ = Ok _ |- _ => apply check_signer_Ok in H
  | H : load_distributor _ _ = Ok _ |- _ => unfold load_distributor in H
  | H : load_claim_status _ _ = Ok _ |- _ => unfold load_claim_status in H
  | H : load_token _ _ = Ok _ |- _ => unfold load_token in H
  | H : load_mint _ _ = Ok _ |- _ => unfold load_mint in H
  | H : check_associated _ _ _ _ = Ok _ |- _ => unfold check_associated in H
  | H : init_account _ _ _ _ = Ok _ |- _ => unfold init_account in H
  | v : _ * _ |- _ => destruct v
  end); inv_ok; zbool.

(** Invert the checked arithmetic of a successful run. *)
Ltac inv_checked :=
  repeat match goal with
  | H : checked_add_u64 _ _ = Some _ |- _ => apply checked_add_u64_Some in H as [? ?]; subst
  | H : checked_sub_u64 _ _ = Some _ |- _ => apply checked_sub_u64_Some in H as [? ?]; subst
  | H : checked_add_i64 _ _ = Some _ |- _ => apply checked_add_i64_Some in H as [? ?]; subst
  | H : checked_sub_i64 _ _ = Some _ |- _ => apply checked_sub_i64_Some in H as [? ?]; subst
  | H : get_distributor _ _ = Some _ |- _ => apply get_distributor_Some in H
  | H : get_claim_status _ _ = Some _ |- _ => apply get_claim_status_Some in H
  end.

(** Run a handler forwards: every step of the goal succeeds, leaving the
    conditions that are not in the context. *)
Ltac run_step :=
  lazymatch goal with
  | |- mbind (M:=result _) _ _ = Ok _ => apply bind_Ok; first [exists tt | eexists]; split
  | |- require _ _ = Ok _ => apply require_Ok
  | |- ok_or _ _ = Ok _ => apply ok_or_Ok
  | |- check_eq _ _ _ = Ok _ => apply check_eq_Ok
  | |- check_signer _ _ = Ok _ => apply check_signer_Ok
  | |- load_distributor _ _ = Ok _ => apply ok_or_Ok, get_distributor_Some
  | |- load_claim_status _ _ = Ok _ => apply ok_or_Ok, get_claim_status_Some
  | |- load_token _ _ = Ok _ => apply ok_or_Ok
  | |- load_mint _ _ = Ok _ => apply ok_or_Ok
  | |- check_associated _ _ _ _ = Ok _ => unfold check_associated
  | |- init_account _ _ _ _ = Ok _ => unfold init_account
  | |- checked_add_u64 _ _ = Some _ => apply checked_add_u64_Some; split
  | |- checked_sub_u64 _ _ = Some _ => apply checked_sub_u64_Some; split
  | |- checked_add_i64 _ _ = Some _ => apply checked_add_i64_Some; split
  | |- checked_sub_i64 _ _ = Some _ => apply checked_sub_i64_Some; split
  | |- bool_decide _ = true => apply bool_decide_eq_true
  | |- negb _ = true => apply negb_true_iff
  | |- _ && _ = true => apply andb_true_iff; split
  | |- (_ <=? _) = true => apply Z.leb_le
  | |- (_ <? _) = true => apply Z.ltb_lt
  | |- (_ <? _) = false => apply Z.ltb_ge
  | |- (_ =? _) = true => apply Z.eqb_eq
  end.

Ltac run_ok := repeat first [run_step | eassumption | done | progress simpl].

Section program.
Context `{Hasher} `{AddressDerivation} `{TokenProgram}.
Implicit Types (st : State) (signers : gset Pubkey).

Definition process_instruction signers st (ix : Instruction) : fallible State :=
  match ix with
  | INewDistributor a p => handle_new_distributor signers st a p
  | ICloseDistributor a => handle_close_distributor signers st a
  | ICloseClaimStatus a => handle_close_status signers st a
  | ISetEnableSlot a s => handle_set_enable_slot signers st a s
  | ISetRoot a r o n m => handle_set_root signers st a r o n m
  | INewClaim a u l proof => handle_new_claim signers st a u l proof
  | IClaimLocked a => handle_claim_locked signers st a
  | IClawback a => handle_clawback signers st a
  | ISetClawbackReceiver a => handle_set_clawback_receiver signers st a
  | ISetClawbackStartTs a t => handle_set_clawback_start_ts signers st a t
  | ISetAdmin a => handle_set_admin signers st a
  end.

(** The instruction's data fits its declared types. *)
Definition ix_typed (ix : Instruction) : Prop :=
  match ix with
  | INewDistributor _ p =>
      is_u64 (nda_version p) ∧ is_u64 (nda_max_total_claim p) ∧ is_u64 (nda_max_num_nodes p) ∧
      is_i64 (nda_start_vesting_ts p) ∧ is_i64 (nda_end_vesting_ts p) ∧
      is_i64 (nda_clawback_start_ts p) ∧ is_u64 (nda_enable_slot p)
  | ISetEnableSlot _ s => is_u64 s
  | ISetRoot _ _ _ n m => is_u64 n ∧ is_u64 m
  | INewClaim _ u l _ => is_u64 u ∧ is_u64 l
  | ISetClawbackStartTs _ t => is_i64 t
  | _ => True
  end.

(** The account [new_distributor] creates. *)
Definition initial_distributor (a : NewDistributor) (p : NewDistributorArgs) : MerkleDistributor :=
  mkMerkleDistributor (distributor_bump (nd_mint a) (nda_version p)) (nda_version p) (nda_root p)
    (nd_mint a) (nd_token_vault a) (nda_max_total_claim p) (nda_max_num_nodes p) 0 0 0
    (nda_start_vesting_ts p) (nda_end_vesting_ts p) (nda_clawback_start_ts p)
    (nd_clawback_receiver a) (nd_admin a) false (nda_enable_slot p) (nda_closable p)
    (key 0) (key 0) (key 0).

Lemma put_put k a b st : put k a (put k b st) = put k a st.
Proof. unfold put. simpl. by rewrite insert_insert_eq. Qed.

Lemma get_distributor_put st k d : get_distributor (put k (DistributorAcc d) st) k = Some d.
Proof. unfold get_distributor, put. simpl. by rewrite lookup_insert_eq. Qed.

Lemma get_claim_status_put st k cs : get_claim_status (put k (ClaimStatusAcc cs) st) k = Some cs.
Proof. unfold get_claim_status, put. simpl. by rewrite lookup_insert_eq. Qed.

(** ** What a successful instruction did *)
Lemma handle_new_distributor_Ok signers st a p st' :
  handle_new_distributor signers st a p = Ok st' ↔
  ∃ receiver vault supply,
    tk_accounts (st_tokens st) !! nd_clawback_receiver a = Some receiver ∧
    tk_mints (st_tokens st) !! nd_mint a = Some supply ∧
    tk_accounts (st_tokens st) !! nd_token_vault a = Some vault ∧
    nd_admin a ∈ signers ∧ nd_admin a = ADMIN_ID ∧
    nd_distributor a = distributor_address (nd_mint a) (nda_version p) ∧
    st_accounts st !! nd_distributor a = None ∧
    ta_mint receiver = nd_mint a ∧ ta_owner vault = nd_distributor a ∧
    nd_token_vault a = get_associated_token_address (nd_distributor a) (nd_mint a) ∧
    nda_start_vesting_ts p < nda_end_vesting_ts p ∧ curr_ts st < nda_end_vesting_ts p ∧
    is_i64 (nda_end_vesting_ts p + SECONDS_PER_DAY) ∧
    nda_end_vesting_ts p + SECONDS_PER_DAY ≤ nda_clawback_start_ts p ∧
    st' = put (nd_distributor a) (DistributorAcc (initial_distributor a p)) st.
Proof.
  unfold handle_new_distributor, NewDistributor_try_accounts. split.
  - intros Hst. inv_checks. inv_checked. simpl in Hok5. rewrite lookup_insert_eq in Hok5.
    injection Hok5 as <-. rewrite put_put. do 3 eexists. by split_and!.
  - intros (r & v & s & Hr & Hs & Hv & Hsig & Hadm & Hk & Hfree & Hrm & Hvo & Hva & ? & ? & ?
      & ? & ->).
    unfold SECONDS_PER_DAY, SECONDS_PER_HOUR, HOURS_PER_DAY in *.
    run_ok; try (unfold curr_ts in *; simpl; lia).
    + simpl. apply lookup_insert_eq.
    + by rewrite put_put.
Qed.

(** The account keys a claim must name, given the loaded accounts. *)
Definition claim_accounts_ok (d : MerkleDistributor) (k from claimant : Pubkey)
    (vault dest : TokenAccount) : Prop :=
  ta_owner vault = k ∧ from = get_associated_token_address k (md_mint d) ∧
  from = md_token_vault d ∧ ta_owner dest = claimant.

Lemma cpi_transfer_Ok st k d from to amount st' :
  cpi_transfer st k d from to amount = Ok st' ↔
  create_program_address (signer_seeds d) PROGRAM_ID = Some k ∧
  ∃ ts, token_transfer (st_tokens st) from to k amount = Some ts ∧ st' = set_tokens ts st.
Proof.
  unfold cpi_transfer, invoke_signed. split.
  - intros Hc. inv_checks. eauto.
  - intros (Hs & ts & Ht & ->). run_ok.
Qed.

Lemma cpi_burn_Ok st k d mint from amount st' :
  cpi_burn st k d mint from amount = Ok st' ↔
  create_program_address (signer_seeds d) PROGRAM_ID = Some k ∧
  ∃ ts, token_burn (st_tokens st) from mint k amount = Some ts ∧ st' = set_tokens ts st.
Proof.
  unfold cpi_burn, invoke_signed. split.
  - intros Hc. inv_checks. eauto.
  - intros (Hs & ts & Ht & ->). run_ok.
Qed.

(** [run_ok] through a transfer whose result is in the context. *)
Local Ltac run_cpi :=
  repeat first
    [ run_step
    | apply cpi_transfer_Ok; split; [eassumption|eexists; split; [eassumption|reflexivity]]
    | eassumption | done | progress simpl ].

(** The claim status and the distributor account a successful claim writes. *)
Definition claim_record (st : State) (d : MerkleDistributor) (k claimant : Pubkey) (u l : Z)
  : ClaimStatus :=
  mkClaimStatus claimant l 0 u (vested u (curr_ts st) (md_start_ts d) (md_end_ts d))
    (md_closable d) k.

Definition count_claim (d : MerkleDistributor) (paid forgone : Z) : MerkleDistributor :=
  set_total_amount_forgone (md_total_amount_forgone d + forgone)
    (set_total_amount_claimed (md_total_amount_claimed d + paid)
       (set_num_nodes_claimed (md_num_nodes_claimed d + 1) d)).

(** When [new_claim] succeeds, with the accounts it loads. *)
Record new_claim_accepts signers st (a : NewClaim) (u l : Z) (proof : list Hash)
    (d : MerkleDistributor) (vault dest : TokenAccount) (ts : TokenState) : Prop := {
  nca_distributor : st_accounts st !! nc_distributor a = Some (DistributorAcc d);
  nca_vault : tk_accounts (st_tokens st) !! nc_from a = Some vault;
  nca_dest : tk_accounts (st_tokens st) !! nc_to a = Some dest;
  nca_signed : nc_claimant a ∈ signers;
  nca_status : nc_claim_status a = claim_status_address (nc_claimant a) (nc_distributor a);
  nca_fresh : st_accounts st !! nc_claim_status a = None;
  nca_accounts : claim_accounts_ok d (nc_distributor a) (nc_from a) (nc_claimant a) vault dest;
  nca_mint : ta_mint dest = md_mint d;
  nca_open : md_clawed_back d = false;
  nca_enabled : md_enable_slot d ≤ curr_slot st;
  nca_started : md_start_ts d ≤ curr_ts st;
  nca_window : window_overflow (curr_ts st) (md_start_ts d) (md_end_ts d) = false;
  nca_nodes : md_num_nodes_claimed d + 1 ≤ U64_MAX ∧
              md_num_nodes_claimed d + 1 ≤ md_max_num_nodes d;
  nca_proof : verify proof (md_root d) (claim_leaf (nc_claimant a) u l) = true;
  nca_seeds : create_program_address (signer_seeds d) PROGRAM_ID = Some (nc_distributor a);
  nca_transfer : token_transfer (st_tokens st) (nc_from a) (nc_to a) (nc_distributor a)
    (vested u (curr_ts st) (md_start_ts d) (md_end_ts d)) = Some ts;
  nca_claimed :
    md_total_amount_claimed d + vested u (curr_ts st) (md_start_ts d) (md_end_ts d) ≤ U64_MAX;
  nca_forgone :
    md_total_amount_forgone d + (u - vested u (curr_ts st) (md_start_ts d) (md_end_ts d)) ≤ U64_MAX;
  nca_settled : md_total_amount_claimed d + md_total_amount_forgone d + u ≤ U64_MAX ∧
                md_total_amount_claimed d + md_total_amount_forgone d + u ≤ md_max_total_claim d
}.

(** The state it leaves. *)
Definition new_claim_result st (a : NewClaim) (u l : Z) (d : MerkleDistributor) (ts : TokenState)
  : State :=
  let paid := vested u (curr_ts st) (md_start_ts d) (md_end_ts d) in
  put (nc_claim_status a)
      (ClaimStatusAcc (claim_record st d (nc_distributor a) (nc_claimant a) u l))
    (put (nc_distributor a) (DistributorAcc (count_claim d paid (u - paid)))
      (emit (NewClaimEvent (nc_claimant a) (curr_ts st) paid (u - paid)) (set_tokens ts st))).

Lemma NewClaim_try_accounts_Ok signers st a st' :
  NewClaim_try_accounts signers st a = Ok st' ↔
  ∃ d vault dest,
    st_accounts st !! nc_distributor a = Some (DistributorAcc d) ∧
    tk_accounts (st_tokens st) !! nc_from a = Some vault ∧
    tk_accounts (st_tokens st) !! nc_to a = Some dest ∧
    nc_claimant a ∈ signers ∧
    nc_claim_status a = claim_status_address (nc_claimant a) (nc_distributor a) ∧
    st_accounts st !! nc_claim_status a = None ∧
    claim_accounts_ok d (nc_distributor a) (nc_from a) (nc_claimant a) vault dest ∧
    ta_mint dest = md_mint d ∧
    st' = put (nc_claim_status a) (ClaimStatusAcc ClaimStatus_default) st.
Proof.
  unfold NewClaim_try_accounts, claim_accounts_ok. split.
  - intros Hst. inv_checks. inv_checked. do 3 eexists. by split_and!.
  - intros (d & v & r & Hd & Hv & Hr & Hs & Hk & Hf & (? & ? & ? & ?) & ? & ->). run_ok.
Qed.

Definition window_typed st (k : Pubkey) : Prop :=
  ∀ d, st_accounts st !! k = Some (DistributorAcc d) → is_i64 (md_start_ts d) ∧ is_i64 (md_end_ts d).

(** Writing both accounts on exit overwrites the freshly created status. *)
Lemma put_over_init s k cs0 cs d e ts st :
  s ≠ k →
  put s (ClaimStatusAcc cs) (put k (DistributorAcc d) (emit e (set_tokens ts (put s cs0 st)))) =
  put s (ClaimStatusAcc cs) (put k (DistributorAcc d) (emit e (set_tokens ts st))).
Proof.
  intros Hne. unfold put, emit, set_tokens. simpl. f_equal.
  rewrite !(insert_insert_ne _ s k) by done. by rewrite insert_insert_eq.
Qed.

Lemma handle_new_claim_Ok signers st a u l proof st' :
  window_typed st (nc_distributor a) → is_u64 u →
  handle_new_claim signers st a u l proof = Ok st' ↔
  ∃ d vault dest ts, new_claim_accepts signers st a u l proof d vault dest ts ∧
    st' = new_claim_result st a u l d ts.
Proof.
  intros Hty Hu. unfold handle_new_claim. split.
  - intros Hst. apply bind_Ok in Hst as (st1 & Hacc & Hst).
    apply NewClaim_try_accounts_Ok in Hacc
      as (d & vault & dest & Hd & Hv & Hto & Hsg & Hk & Hf & Hacc & Hm & ->).
    destruct (Hty d Hd) as [? ?].
    assert (nc_claim_status a ≠ nc_distributor a) as Hne by congruence.
    inv_checks. inv_checked.
    change (curr_ts (put _ _ st)) with (curr_ts st) in *.
    change (curr_slot (put _ _ st)) with (curr_slot st) in *.
    simpl in Hok, Hok6. rewrite lookup_insert_ne, Hd in Hok by done. injection Hok as <-.
    rewrite update_unlocked_amount_claimed_eq in Hok7 by done. simpl in Hok7.
    destruct (_ <? _); [done|]. destruct (window_overflow _ _ _) eqn:Hw; [done|].
    injection Hok7 as <-. apply get_unlocked_amount_forgone_Ok in Hok8 as [-> ?]. simpl in *.
    apply cpi_transfer_Ok in Hok9 as (Hseeds & ts & Hts & ->). simpl in Hts.
    exists d, vault, dest, ts. split; [split; try done; lia|].
    rewrite put_over_init by done. done.
  - intros (d & vault & dest & ts & [] & ->). destruct (Hty d) as [? ?]; [done|].
    assert (nc_claim_status a ≠ nc_distributor a) as Hne by congruence.
    apply bind_Ok. eexists. split.
    { apply NewClaim_try_accounts_Ok. exists d, vault, dest. by split_and!. }
    pose proof (vested_nonneg u (curr_ts st) (md_start_ts d) (md_end_ts d) ltac:(zlia)).
    run_ok.
    + by rewrite lookup_insert_ne.
    + lia.
    + lia.
    + simpl. apply lookup_insert_eq.
    + change (curr_ts (put _ _ st)) with (curr_ts st).
      rewrite update_unlocked_amount_claimed_eq by done.
      by rewrite (proj2 (Z.ltb_ge _ _)), nca_window0.
    + apply get_unlocked_amount_forgone_Ok. simpl. split; [done|lia].
    + apply cpi_transfer_Ok. split; [done|]. exists ts. done.
    + done.
    + simpl. lia.
    + simpl. lia.
    + rewrite put_over_init by done. done.
Qed.

(** When [claim_locked] succeeds, with the accounts it loads. *)
Record claim_locked_accepts signers st (a : ClaimLocked) (d : MerkleDistributor)
    (cs : ClaimStatus) (vault dest : TokenAccount) (amount : Z) (ts : TokenState) : Prop := {
  cla_distributor : st_accounts st !! cl_distributor a = Some (DistributorAcc d);
  cla_status : st_accounts st !! cl_claim_status a = Some (ClaimStatusAcc cs);
  cla_vault : tk_accounts (st_tokens st) !! cl_from a = Some vault;
  cla_dest : tk_accounts (st_tokens st) !! cl_to a = Some dest;
  cla_signed : cl_claimant a ∈ signers;
  cla_address : cl_claim_status a = claim_status_address (cl_claimant a) (cl_distributor a);
  cla_accounts : claim_accounts_ok d (cl_distributor a) (cl_from a) (cl_claimant a) vault dest;
  cla_open : md_clawed_back d = false;
  cla_enabled : md_enable_slot d ≤ curr_slot st;
  cla_amount : amount = released (cs_locked_amount cs) (curr_ts st) (md_start_ts d) (md_end_ts d)
                        - cs_locked_amount_withdrawn cs;
  cla_positive : 0 < amount;
  cla_window : window_overflow (curr_ts st) (md_start_ts d) (md_end_ts d) = false;
  cla_seeds : create_program_address (signer_seeds d) PROGRAM_ID = Some (cl_distributor a);
  cla_transfer :
    token_transfer (st_tokens st) (cl_from a) (cl_to a) (cl_distributor a) amount = Some ts;
  cla_max : md_total_amount_claimed d + amount ≤ U64_MAX ∧
            md_total_amount_claimed d + amount ≤ md_max_total_claim d
}.

Definition claim_locked_result st (a : ClaimLocked) (d : MerkleDistributor) (cs : ClaimStatus)
    (amount : Z) (ts : TokenState) : State :=
  put (cl_claim_status a)
      (ClaimStatusAcc (set_locked_amount_withdrawn cs (cs_locked_amount_withdrawn cs + amount)))
    (put (cl_distributor a)
        (DistributorAcc (set_total_amount_claimed (md_total_amount_claimed d + amount) d))
      (emit (ClaimedEvent (cl_claimant a) amount) (set_tokens ts st))).

(** The [u64] and [i64] fields the withdrawal arithmetic reads. *)
Definition claim_locked_typed st (a : ClaimLocked) : Prop :=
  window_typed st (cl_distributor a) ∧
  ∀ cs, st_accounts st !! cl_claim_status a = Some (ClaimStatusAcc cs) → cs_wf cs.

Lemma ClaimLocked_try_accounts_Ok signers st a d cs :
  ClaimLocked_try_accounts signers st a = Ok (d, cs) ↔
  ∃ vault dest,
    st_accounts st !! cl_distributor a = Some (DistributorAcc d) ∧
    st_accounts st !! cl_claim_status a = Some (ClaimStatusAcc cs) ∧
    tk_accounts (st_tokens st) !! cl_from a = Some vault ∧
    tk_accounts (st_tokens st) !! cl_to a = Some dest ∧
    cl_claimant a ∈ signers ∧
    cl_claim_status a = claim_status_address (cl_claimant a) (cl_distributor a) ∧
    claim_accounts_ok d (cl_distributor a) (cl_from a) (cl_claimant a) vault dest.
Proof.
  unfold ClaimLocked_try_accounts, claim_accounts_ok. split.
  - intros Hst. inv_checks. inv_checked.
    do 2 eexists. by split_and!.
  - intros (v & r & ? & ? & ? & ? & ? & ? & (? & ? & ? & ?)). run_ok.
Qed.

(** [end_ts - curr_ts] never overflows once the amount was computed: a positive
    amount before the end means the window is at most [i64::MAX] long. *)
Lemma remaining_seconds_ok c s e amount locked withdrawn :
  is_i64 e → 0 ≤ withdrawn → amount = released locked c s e - withdrawn → 0 < amount →
  window_overflow c s e = false →
  ∃ r, (if c <? e then ok_or (checked_sub_i64 e c) Panic else Ok 0) = Ok r.
Proof.
  intros He Hwd Ha Hpos Hw. destruct (Z.ltb_spec c e); [|eauto].
  unfold released in Ha. destruct (Z.ltb_spec c s); [lia|].
  unfold window_overflow in Hw. rewrite (proj2 (Z.leb_le s c)), (proj2 (Z.ltb_lt c e)) in Hw by lia.
  simpl in Hw. zbool. exists (e - c). apply ok_or_Ok, checked_sub_i64_Some. split; [done|zlia].
Qed.

Lemma handle_claim_locked_Ok signers st a st' :
  claim_locked_typed st a →
  handle_claim_locked signers st a = Ok st' ↔
  ∃ d cs vault dest amount ts, claim_locked_accepts signers st a d cs vault dest amount ts ∧
    st' = claim_locked_result st a d cs amount ts.
Proof.
  intros [Hty Hcs]. unfold handle_claim_locked. split.
  - intros Hst. apply bind_Ok in Hst as ([d cs] & Hacc & Hst).
    apply ClaimLocked_try_accounts_Ok in Hacc as (vault & dest & ? & Hc & ? & ? & ? & ? & ?).
    destruct (Hty d) as [? ?]; [done|]. destruct (Hcs cs Hc) as (? & ? & ? & ?).
    inv_checks. inv_checked.
    unfold amount_withdrawable in Hok1. rewrite unlocked_amount_eq in Hok1 by done.
    destruct (window_overflow _ _ _) eqn:Hw; [done|]. cbn [mbind result_bind] in Hok1.
    inv_ok. inv_checked.
    apply cpi_transfer_Ok in Hok3 as (Hseeds & ts & Hts & ->).
    do 6 eexists. split; [split; try done|done].
  - intros (d & cs & vault & dest & amount & ts & [] & ->).
    destruct (Hty d) as [? ?]; [done|]. destruct (Hcs cs) as (? & ? & ? & ?); [done|].
    pose proof (released_bounds (cs_locked_amount cs) (curr_ts st) (md_start_ts d) (md_end_ts d)
      ltac:(zlia)).
    destruct (remaining_seconds_ok (curr_ts st) (md_start_ts d) (md_end_ts d) amount
      (cs_locked_amount cs) (cs_locked_amount_withdrawn cs)) as [r Hr]; [done|lia|done..|].
    apply bind_Ok. exists (d, cs). split; [apply ClaimLocked_try_accounts_Ok; eauto 10|].
    run_cpi.
    + unfold amount_withdrawable. rewrite unlocked_amount_eq, cla_window0 by done.
      cbn [mbind result_bind]. apply ok_or_Ok, checked_sub_u64_Some. split; [done|lia].
    + zlia.
    + lia.
    + lia.
    + lia.
Qed.

Lemma handle_clawback_Ok signers st a st' :
  handle_clawback signers st a = Ok st' ↔
  ∃ d vault dest ts,
    let k := cb_distributor a in
    st_accounts st !! k = Some (DistributorAcc d) ∧
    tk_accounts (st_tokens st) !! cb_from a = Some vault ∧
    tk_accounts (st_tokens st) !! cb_to a = Some dest ∧
    cb_claimant a ∈ signers ∧
    ta_owner vault = k ∧ cb_from a = get_associated_token_address k (md_mint d) ∧
    cb_from a = md_token_vault d ∧ cb_to a = md_clawback_receiver d ∧
    md_clawed_back d = false ∧ md_clawback_start_ts d ≤ curr_ts st ∧
    create_program_address (signer_seeds d) PROGRAM_ID = Some k ∧
    token_transfer (st_tokens st) (cb_from a) (cb_to a) k (ta_amount vault) = Some ts ∧
    st' = put k (DistributorAcc (set_clawed_back true d)) (set_tokens ts st).
Proof.
  unfold handle_clawback, Clawback_try_accounts. split.
  - intros Hst. inv_checks. inv_checked.
    match goal with Hc : cpi_transfer _ _ _ _ _ _ = Ok _ |- _ =>
      apply cpi_transfer_Ok in Hc as (? & ts & ? & ->) end.
    do 4 eexists. by split_and!.
  - intros (d & v & r & ts & ? & ? & ? & ? & ? & ? & ? & ? & ? & ? & ? & ? & ->).
    apply bind_Ok. exists (d, v). split; [run_ok|]. run_cpi.
Qed.

Lemma validate_set_root_Ok d vault_amount old_root n new_max burn :
  validate_set_root d vault_amount old_root n new_max = Ok burn ↔
  md_mint d ∈ DFX_MINTS ∧ md_clawed_back d = false ∧ md_enable_slot d = U64_MAX ∧
  md_root d = old_root ∧ md_num_nodes_claimed d = n ∧
  md_total_amount_claimed d + md_total_amount_forgone d ≤ U64_MAX ∧
  md_total_amount_claimed d + md_total_amount_forgone d ≤ new_max ≤ md_max_total_claim d ∧
  md_total_amount_claimed d ≤ md_max_total_claim d ∧
  md_max_total_claim d - md_total_amount_claimed d ≤ vault_amount ∧
  burn = md_max_total_claim d - new_max.
Proof.
  unfold validate_set_root. split.
  - intros Hv. inv_checks. inv_checked. by split_and!.
  - intros (? & ? & ? & ? & ? & ? & [? ?] & ? & ? & ->). run_ok.
Qed.

Lemma handle_set_root_Ok signers st a new_root old_root n new_max st' :
  handle_set_root signers st a new_root old_root n new_max = Ok st' ↔
  ∃ d vault supply burn ts,
    let k := sr_distributor a in
    st_accounts st !! k = Some (DistributorAcc d) ∧
    tk_accounts (st_tokens st) !! sr_token_vault a = Some vault ∧
    tk_mints (st_tokens st) !! sr_mint a = Some supply ∧
    sr_admin a ∈ signers ∧ sr_token_vault a = md_token_vault d ∧ sr_mint a = md_mint d ∧
    sr_admin a = md_admin d ∧
    validate_set_root d (ta_amount vault) old_root n new_max = Ok burn ∧
    (if 0 <? burn
     then create_program_address (signer_seeds d) PROGRAM_ID = Some k ∧
          token_burn (st_tokens st) (sr_token_vault a) (sr_mint a) k burn = Some ts
     else ts = st_tokens st) ∧
    st' = put k (DistributorAcc (set_max_total_claim new_max (set_root new_root d)))
            (emit (SetRootEvent k (md_root d) new_root (md_max_total_claim d) new_max burn)
              (set_tokens ts st)).
Proof.
  unfold handle_set_root. split.
  - intros Hst. apply bind_Ok in Hst as ([d vault] & Hacc & Hst).
    apply bind_Ok in Hst as (burn & Hv & Hst). apply bind_Ok in Hst as (st1 & Hb & Hst).
    injection Hst as <-. unfold SetRoot_try_accounts in Hacc. inv_checks. inv_checked.
    destruct (0 <? _) eqn:Hpos.
    + apply cpi_burn_Ok in Hb as (? & ts & ? & ->).
      exists d, vault. do 2 eexists. exists ts. rewrite Hpos. by split_and!.
    + injection Hb as ->. exists d, vault. do 2 eexists. exists (st_tokens st1).
      rewrite Hpos. by split_and!.
  - intros (d & v & s & b & ts & ? & ? & ? & ? & ? & ? & ? & Hv & Hb & ->).
    apply bind_Ok. exists (d, v). split; [unfold SetRoot_try_accounts; run_ok|].
    apply bind_Ok. exists b. split; [done|].
    apply bind_Ok. exists (set_tokens ts st). split; [|done]. destruct (0 <? b).
    + apply cpi_burn_Ok. destruct Hb. eauto.
    + subst ts. by destruct st.
Qed.

Lemma validate_clawback_start_ts_Ok d t now u :
  validate_clawback_start_ts d t now = Ok u ↔
  md_clawed_back d = false ∧ now < t ∧ is_i64 (md_end_ts d + SECONDS_PER_DAY) ∧
  md_end_ts d + SECONDS_PER_DAY ≤ t.
Proof.
  unfold validate_clawback_start_ts. destruct u. split.
  - intros Hv. inv_checks. inv_checked. by split_and!.
  - intros (? & ? & ? & ?). run_ok.
Qed.

(** What the five admin-only setters share: the distributor they rewrite. *)
Definition admin_update signers st (k admin : Pubkey) (d : MerkleDistributor) : Prop :=
  st_accounts st !! k = Some (DistributorAcc d) ∧ admin ∈ signers ∧ admin = md_admin d.

Lemma handle_set_clawback_start_ts_Ok signers st a t st' :
  handle_set_clawback_start_ts signers st a t = Ok st' ↔
  ∃ d, admin_update signers st (sc_distributor a) (sc_admin a) d ∧
    md_clawed_back d = false ∧ curr_ts st < t ∧ is_i64 (md_end_ts d + SECONDS_PER_DAY) ∧
    md_end_ts d + SECONDS_PER_DAY ≤ t ∧
    st' = put (sc_distributor a) (DistributorAcc (set_clawback_start_ts t d)) st.
Proof.
  unfold handle_set_clawback_start_ts, SetClawbackStartTs_try_accounts, admin_update. split.
  - intros Hst. inv_checks. inv_checked.
    apply validate_clawback_start_ts_Ok in Hok0 as (? & ? & ? & ?). naive_solver.
  - intros (d & (? & ? & ?) & ? & ? & ? & ? & ->). apply bind_Ok. exists d. split; [run_ok|].
    apply bind_Ok. exists tt. split; [by apply validate_clawback_start_ts_Ok|done].
Qed.

Lemma handle_set_clawback_receiver_Ok signers st a st' :
  handle_set_clawback_receiver signers st a = Ok st' ↔
  ∃ d account, admin_update signers st (sv_distributor a) (sv_admin a) d ∧
    tk_accounts (st_tokens st) !! sv_new_clawback_account a = Some account ∧
    ta_mint account = md_mint d ∧ md_clawback_receiver d ≠ sv_new_clawback_account a ∧
    st' = put (sv_distributor a)
            (DistributorAcc (set_clawback_receiver (sv_new_clawback_account a) d)) st.
Proof.
  unfold handle_set_clawback_receiver, SetClawbackReceiver_try_accounts, admin_update. split.
  - intros Hst. inv_checks. inv_checked. naive_solver.
  - intros (d & r & (? & ? & ?) & ? & ? & ? & ->). run_ok.
Qed.

Lemma handle_set_admin_Ok signers st a st' :
  handle_set_admin signers st a = Ok st' ↔
  ∃ d, admin_update signers st (sa_distributor a) (sa_admin a) d ∧
    sa_admin a ≠ sa_new_admin a ∧
    st' = put (sa_distributor a) (DistributorAcc (set_admin (sa_new_admin a) d)) st.
Proof.
  unfold handle_set_admin, SetAdmin_try_accounts, admin_update. split.
  - intros Hst. inv_checks. inv_checked. naive_solver.
  - intros (d & (? & ? & ?) & ? & ->). run_ok.
Qed.

Lemma handle_set_enable_slot_Ok signers st a s st' :
  handle_set_enable_slot signers st a s = Ok st' ↔
  ∃ d, admin_update signers st (se_distributor a) (se_admin a) d ∧
    st' = put (se_distributor a) (DistributorAcc (set_enable_slot s d)) st.
Proof.
  unfold handle_set_enable_slot, SetEnableSlot_try_accounts, admin_update. split.
  - intros Hst. inv_checks. inv_checked. naive_solver.
  - intros (d & (? & ? & ?) & ->). run_ok.
Qed.

Lemma handle_close_distributor_Ok signers st a st' :
  handle_close_distributor signers st a = Ok st' ↔
  ∃ d vault dest ts,
    let k := cd_distributor a in
    admin_update signers st k (cd_admin a) d ∧
    tk_accounts (st_tokens st) !! cd_token_vault a = Some vault ∧
    tk_accounts (st_tokens st) !! cd_destination_token_account a = Some dest ∧
    md_token_vault d = cd_token_vault a ∧ md_closable d = true ∧ k ≠ cd_admin a ∧
    create_program_address (signer_seeds d) PROGRAM_ID = Some k ∧
    token_transfer (st_tokens st) (cd_token_vault a) (cd_destination_token_account a) k
      (ta_amount vault) = Some ts ∧
    st' = close_account k (set_tokens ts st).
Proof.
  unfold handle_close_distributor, CloseDistributor_try_accounts, admin_update. split.
  - intros Hst. inv_checks. inv_checked.
    match goal with Hc : cpi_transfer _ _ _ _ _ _ = Ok _ |- _ =>
      apply cpi_transfer_Ok in Hc as (? & ts & ? & ->) end.
    do 4 eexists. by split_and!.
  - intros (d & v & r & ts & (? & ? & ?) & ? & ? & ? & ? & ? & ? & ? & ->).
    apply bind_Ok. exists (d, v). split; [run_ok|]. run_cpi.
Qed.

Lemma handle_close_status_Err signers st a st' : handle_close_status signers st a ≠ Ok st'.
Proof. unfold handle_close_status. intros Hst. by inv_checks. Qed.
End program.
