(* ===== verification/Execution.v ===== *)
(** * Executions of the distributor program

    [effect] is the abstract transition of the program: what an instruction may
    do to the ledger.  [process_instruction] refines it.  [step] interleaves
    transactions with the passing of time and with other people's token
    transactions; [state_ok] is the invariant of the reachable states. *)
From S2P Require Import Prelude Machine Hashing TreeNode ProgramError ClaimStatus Solana Token.
From S2P Require Import State Handlers Program.

Section execution.
Context `{Hasher} `{AddressDerivation} `{TokenProgram}.
Implicit Types (st : State) (signers : gset Pubkey) (k : Pubkey) (d : MerkleDistributor).

(** ** Abstract transitions *)

(** What the admin may change of a distributor without touching tokens. *)
Inductive admin_change st d : MerkleDistributor → Prop :=
| change_enable_slot s : is_u64 s → admin_change st d (set_enable_slot s d)
| change_admin new_admin : admin_change st d (set_admin new_admin d)
| change_clawback_receiver r account :
    tk_accounts (st_tokens st) !! r = Some account → ta_mint account = md_mint d →
    admin_change st d (set_clawback_receiver r d)
| change_clawback_start t :
    md_clawed_back d = false → curr_ts st < t → is_i64 t → md_end_ts d + SECONDS_PER_DAY ≤ t →
    admin_change st d (set_clawback_start_ts t d).

(** The parameters a new distributor is created with. *)
Record creation_ok signers st (a : NewDistributor) (p : NewDistributorArgs) (vault : TokenAccount)
    : Prop := {
  co_typed : ix_typed (INewDistributor a p);
  co_signed : nd_admin a ∈ signers ∧ nd_admin a = ADMIN_ID;
  co_address : nd_distributor a = distributor_address (nd_mint a) (nda_version p);
  co_fresh : st_accounts st !! nd_distributor a = None;
  co_vault : tk_accounts (st_tokens st) !! nd_token_vault a = Some vault;
  co_owner : ta_owner vault = nd_distributor a;
  co_ata : nd_token_vault a = get_associated_token_address (nd_distributor a) (nd_mint a);
  co_vesting : nda_start_vesting_ts p < nda_end_vesting_ts p;
  co_clawback : nda_end_vesting_ts p + SECONDS_PER_DAY ≤ nda_clawback_start_ts p
}.

(** [ix] is a [set_root] of the distributor at [k]. *)
Definition reroots (ix : Instruction) k : Prop :=
  match ix with ISetRoot a _ _ _ _ => sr_distributor a = k | _ => False end.

Inductive effect signers st (ix : Instruction) : State → Prop :=
| effect_new_distributor a p vault :
    creation_ok signers st a p vault →
    effect signers st ix (put (nd_distributor a) (DistributorAcc (initial_distributor a p)) st)
| effect_admin k admin d d' :
    admin_update signers st k admin d → admin_change st d d' →
    effect signers st ix (put k (DistributorAcc d') st)
| effect_new_claim a u l proof d vault dest ts :
    ix = INewClaim a u l proof → is_u64 u → is_u64 l →
    new_claim_accepts signers st a u l proof d vault dest ts →
    effect signers st ix (new_claim_result st a u l d ts)
| effect_claim_locked a d cs vault dest amount ts :
    ix = IClaimLocked a → claim_locked_accepts signers st a d cs vault dest amount ts →
    effect signers st ix (claim_locked_result st a d cs amount ts)
| effect_clawback k d vault ts :
    st_accounts st !! k = Some (DistributorAcc d) → md_clawed_back d = false →
    md_clawback_start_ts d ≤ curr_ts st →
    tk_accounts (st_tokens st) !! md_token_vault d = Some vault → ta_owner vault = k →
    token_transfer (st_tokens st) (md_token_vault d) (md_clawback_receiver d) k (ta_amount vault)
      = Some ts →
    effect signers st ix (put k (DistributorAcc (set_clawed_back true d)) (set_tokens ts st))
| effect_set_root k admin d vault new_root old_root n new_max burn ts :
    reroots ix k → admin_update signers st k admin d → is_u64 new_max →
    tk_accounts (st_tokens st) !! md_token_vault d = Some vault →
    validate_set_root d (ta_amount vault) old_root n new_max = Ok burn →
    (if 0 <? burn
     then token_burn (st_tokens st) (md_token_vault d) (md_mint d) k burn = Some ts
     else ts = st_tokens st) →
    effect signers st ix
      (put k (DistributorAcc (set_max_total_claim new_max (set_root new_root d)))
        (emit (SetRootEvent k (md_root d) new_root (md_max_total_claim d) new_max burn)
          (set_tokens ts st)))
| effect_close k admin d vault to ts :
    admin_update signers st k admin d → md_closable d = true →
    tk_accounts (st_tokens st) !! md_token_vault d = Some vault →
    token_transfer (st_tokens st) (md_token_vault d) to k (ta_amount vault) = Some ts →
    effect signers st ix (close_account k (set_tokens ts st)).

(** The fields the arithmetic of the claim handlers reads are of their types. *)
Definition accounts_typed st : Prop :=
  (∀ k d, st_accounts st !! k = Some (DistributorAcc d) →
     is_i64 (md_start_ts d) ∧ is_i64 (md_end_ts d)) ∧
  (∀ k cs, st_accounts st !! k = Some (ClaimStatusAcc cs) → cs_wf cs).

Lemma accounts_typed_window st k : accounts_typed st → window_typed st k.
Proof. intros [Hd _] d Hk. eauto. Qed.

Lemma accounts_typed_locked st a : accounts_typed st → claim_locked_typed st a.
Proof. intros Ht. split; [by apply accounts_typed_window|]. destruct Ht as [_ Hcs]. eauto. Qed.

(** Every successful instruction is one of the abstract transitions. *)
Lemma process_instruction_effect signers st ix st' :
  accounts_typed st → ix_typed ix →
  process_instruction signers st ix = Ok st' → effect signers st ix st'.
Proof.
  intros Htyp Hty. destruct ix; simpl; intros Hp.
  - apply handle_new_distributor_Ok in Hp as (r & v & s & Hp). destruct_and! Hp. subst st'.
    eapply effect_new_distributor. by split.
  - apply handle_close_distributor_Ok in Hp as (d & v & r & ts & Hp).
    destruct Hp as (? & Hv & ? & Hvk & ? & ? & ? & Ht & ->). rewrite <- Hvk in *.
    by eapply effect_close.
  - by apply handle_close_status_Err in Hp.
  - apply handle_set_enable_slot_Ok in Hp as (d & ? & ->).
    by eapply effect_admin; [|constructor].
  - apply handle_set_root_Ok in Hp as (d & v & s & b & ts & Hd' & Hv & _ & Hsg & Hvk & Hmk &
      Hadm & Hval & Hb & ->).
    rewrite Hvk, Hmk in *. destruct Hty. eapply effect_set_root; [done|by split_and!|done..|].
    destruct (0 <? b); [|done]. by destruct Hb.
  - destruct Hty. apply handle_new_claim_Ok in Hp as (d & v & r & ts & ? & ->); [|by apply accounts_typed_window|done].
    by eapply effect_new_claim.
  - apply handle_claim_locked_Ok in Hp as (d & cs & v & r & am & ts & ? & ->).
    + by eapply effect_claim_locked.
    + by apply accounts_typed_locked.
  - apply handle_clawback_Ok in Hp as (d & v & r & ts & ? & Hv & ? & ? & ? & _ & Hvk & Htk & ? &
      ? & ? & Ht & ->).
    rewrite Hvk, Htk in *. by eapply effect_clawback.
  - apply handle_set_clawback_receiver_Ok in Hp as (d & r & ? & ? & ? & ? & ->).
    by eapply effect_admin; [|econstructor].
  - apply handle_set_clawback_start_ts_Ok in Hp as (d & ? & ? & ? & ? & ? & ->).
    by eapply effect_admin; [|constructor].
  - apply handle_set_admin_Ok in Hp as (d & ? & ? & ->). by eapply effect_admin; [|constructor].
Qed.

(** ** Steps of the ledger *)
Definition is_distributor st k : Prop := ∃ d, st_accounts st !! k = Some (DistributorAcc d).

(** What the token program's other users may do: a token account whose owner
    cannot sign keeps its mint and owner, and without a delegate keeps its
    tokens.  A distributor address has no private key. *)
Definition env_tokens st (ts' : TokenState) : Prop :=
  (∀ p a, tk_accounts (st_tokens st) !! p = Some a → is_distributor st (ta_owner a) →
     ∃ a', tk_accounts ts' !! p = Some a' ∧ ta_mint a' = ta_mint a ∧ ta_owner a' = ta_owner a ∧
       (ta_delegate a = None → kept a a')) ∧
  (∀ p a', tk_accounts ts' !! p = Some a' → 0 ≤ ta_amount a').

Definition set_clock (c : Clock) st : State :=
  mkState (st_accounts st) (st_tokens st) c (st_events st).

(** One step, with transactions restricted to the instructions [allowed]. *)
Inductive step (allowed : Instruction → Prop) : State → State → Prop :=
| step_tx signers ix st st' :
    ix_typed ix → allowed ix → (∀ k, is_distributor st k → k ∉ signers) →
    process_instruction signers st ix = Ok st' → step allowed st st'
| step_clock st slot t :
    curr_slot st ≤ slot → curr_ts st ≤ t → is_u64 slot → is_i64 t →
    step allowed st (set_clock (mkClock slot t) st)
| step_tokens st ts' :
    env_tokens st ts' → step allowed st (set_tokens ts' st).

Definition any_ix (_ : Instruction) : Prop := True.

Definition steps (allowed : Instruction → Prop) : State → State → Prop := rtc (step allowed).

Lemma step_allowed_mono (P Q : Instruction → Prop) st st' :
  (∀ ix, P ix → Q ix) → step P st st' → step Q st st'.
Proof.
  intros Hpq Hs. destruct Hs; [eapply step_tx; eauto|by apply step_clock|by apply step_tokens].
Qed.

(** ** The invariant of every reachable state *)
Record distributor_ok st k d : Prop := {
  do_u64 : is_u64 (md_version d) ∧ is_u64 (md_max_total_claim d) ∧ is_u64 (md_max_num_nodes d) ∧
           is_u64 (md_enable_slot d) ∧ is_u64 (md_total_amount_forgone d);
  do_i64 : is_i64 (md_start_ts d) ∧ is_i64 (md_end_ts d) ∧ is_i64 (md_clawback_start_ts d);
  do_claimed : 0 ≤ md_total_amount_claimed d ≤ md_max_total_claim d;
  do_nodes : 0 ≤ md_num_nodes_claimed d ≤ md_max_num_nodes d;
  do_address : k = distributor_address (md_mint d) (md_version d);
  do_bump : md_bump d = distributor_bump (md_mint d) (md_version d);
  do_vault : md_token_vault d = get_associated_token_address k (md_mint d);
  do_vault_owner : ∃ a, tk_accounts (st_tokens st) !! md_token_vault d = Some a ∧ ta_owner a = k;
  do_vesting : md_start_ts d < md_end_ts d;
  do_clawback : md_end_ts d + SECONDS_PER_DAY ≤ md_clawback_start_ts d
}.

Record status_ok k (cs : ClaimStatus) : Prop := {
  so_wf : cs_wf cs;
  so_address : k = claim_status_address (cs_claimant cs) (cs_distributor cs)
}.

Record state_ok st : Prop := {
  ok_slot : is_u64 (curr_slot st);
  ok_ts : is_i64 (curr_ts st);
  ok_tokens p a : tk_accounts (st_tokens st) !! p = Some a → 0 ≤ ta_amount a;
  ok_distributors k d : st_accounts st !! k = Some (DistributorAcc d) → distributor_ok st k d;
  ok_statuses k cs : st_accounts st !! k = Some (ClaimStatusAcc cs) → status_ok k cs
}.

Lemma state_ok_typed st : state_ok st → accounts_typed st.
Proof.
  intros Hok. split.
  - intros k d Hd. apply (ok_distributors st Hok) in Hd. by destruct (do_i64 _ _ _ Hd) as (? & ? & _).
  - intros k cs Hcs. by destruct (ok_statuses st Hok _ _ Hcs).
Qed.

(** ** Preservation *)
Context `{!TokenProgramSpec}.

(** Accounts keep their mint and owner, and balances stay non-negative. *)
Definition tokens_step (ts ts' : TokenState) : Prop :=
  (∀ p a, tk_accounts ts !! p = Some a →
     ∃ a', tk_accounts ts' !! p = Some a' ∧ ta_mint a' = ta_mint a ∧ ta_owner a' = ta_owner a) ∧
  ((∀ p a, tk_accounts ts !! p = Some a → 0 ≤ ta_amount a) →
   ∀ p a, tk_accounts ts' !! p = Some a → 0 ≤ ta_amount a).

Lemma tokens_step_refl ts : tokens_step ts ts.
Proof. split; eauto. Qed.

Lemma transfer_tokens_step ts from to authority amount ts' :
  0 ≤ amount → token_transfer ts from to authority amount = Some ts' → tokens_step ts ts'.
Proof.
  intros Hpos Ht.
  destruct (token_transfer_effect _ _ _ _ _ _ Ht) as (a & b & Ha & Hb & _ & _ & Hle & _ & Hc).
  case_bool_decide as E; [unfold tokens_step; rewrite Hc; apply tokens_step_refl|].
  destruct Hc as (a' & (? & ? & Ham & _ & _)%debited_fields & Hts).
  unfold tokens_step. rewrite Hts. split.
  - intros p x Hp. destruct (decide (p = to)) as [-> |].
    { rewrite lookup_insert_eq. assert (x = b) as -> by congruence. eauto. }
    rewrite lookup_insert_ne by done. destruct (decide (p = from)) as [-> |].
    { rewrite lookup_insert_eq. assert (x = a) as -> by congruence. eauto. }
    rewrite lookup_insert_ne by done. eauto.
  - intros Hnn p x. rewrite !lookup_insert_Some.
    intros [[<- <-]|[_ [[<- <-]|[_ ?]]]]; simpl; [|lia|eauto]. apply Hnn in Hb. lia.
Qed.

Lemma burn_tokens_step ts account mint authority amount ts' :
  token_burn ts account mint authority amount = Some ts' → tokens_step ts ts'.
Proof.
  intros Ht.
  destruct (token_burn_effect _ _ _ _ _ _ Ht) as (a & s & a' & Ha & _ & _ & _ & Hle & Hdeb & Hts & _).
  apply debited_fields in Hdeb as (? & ? & ? & _ & _). unfold tokens_step. rewrite Hts. split.
  - intros p x Hp. destruct (decide (p = account)) as [-> |].
    { rewrite lookup_insert_eq. assert (x = a) as -> by congruence. eauto. }
    rewrite lookup_insert_ne by done. eauto.
  - intros Hnn p x. rewrite !lookup_insert_Some. intros [[<- <-]|[_ ?]]; [lia|eauto].
Qed.

Lemma distributor_ok_tokens st k d accs ts' c ev :
  tokens_step (st_tokens st) ts' → distributor_ok st k d →
  distributor_ok (mkState accs ts' c ev) k d.
Proof.
  intros [Ht _] []. split; try done. destruct do_vault_owner0 as (a & Ha & Ho).
  destruct (Ht _ _ Ha) as (a' & ? & _ & ?). exists a'. split; [done|congruence].
Qed.

(** Rewriting accounts: what is new must be well-formed. *)
Lemma state_ok_update st accs ts' ev :
  state_ok st → tokens_step (st_tokens st) ts' →
  (∀ k d, accs !! k = Some (DistributorAcc d) →
     st_accounts st !! k = Some (DistributorAcc d) ∨ distributor_ok st k d) →
  (∀ k cs, accs !! k = Some (ClaimStatusAcc cs) →
     st_accounts st !! k = Some (ClaimStatusAcc cs) ∨ status_ok k cs) →
  state_ok (mkState accs ts' (st_clock st) ev).
Proof.
  intros [Hs Ht Htok Hd Hc] Hts Hd' Hc'. split; try done; simpl.
  - by apply Hts.
  - intros k d Hk. eapply distributor_ok_tokens; [done|]. destruct (Hd' k d Hk); eauto.
  - intros k cs Hk. destruct (Hc' k cs Hk); eauto.
Qed.

(** Case analysis of a lookup in an updated account map. *)
Local Ltac lookup_cases :=
  intros ? ?; rewrite ?lookup_insert_Some;
  repeat match goal with
  | |- _ ∨ _ → _ => intros [?|?]
  | |- _ ∧ _ → _ => intros [? ?]
  | Hx : _ ∧ _ |- _ => destruct Hx
  | Hx : _ ∨ _ |- _ => destruct Hx
  | Hx : DistributorAcc _ = DistributorAcc _ |- _ => injection Hx as <-
  | Hx : ClaimStatusAcc _ = ClaimStatusAcc _ |- _ => injection Hx as <-
  | Hx : DistributorAcc _ = ClaimStatusAcc _ |- _ => discriminate Hx
  | Hx : ClaimStatusAcc _ = DistributorAcc _ |- _ => discriminate Hx
  end; intros; subst; auto.

Lemma admin_change_ok st k d d' :
  admin_change st d d' → distributor_ok st k d → distributor_ok st k d'.
Proof.
  intros Hch []. destruct do_u65 as (? & ? & ? & ? & ?). destruct do_i65 as (? & ? & ?).
  destruct Hch; split; try done; by split_and!.
Qed.

Lemma initial_distributor_ok signers st a p vault :
  creation_ok signers st a p vault →
  distributor_ok st (nd_distributor a) (initial_distributor a p).
Proof.
  intros [(? & ? & ? & ? & ? & ? & ?) _ ? _ ? ? ? ? ?].
  split; simpl; try (done || (split_and!; zlia)); try zlia. eauto.
Qed.

Lemma count_claim_ok st k d u paid :
  distributor_ok st k d → 0 ≤ paid ≤ u →
  md_num_nodes_claimed d + 1 ≤ md_max_num_nodes d →
  md_total_amount_claimed d + md_total_amount_forgone d + u ≤ md_max_total_claim d →
  distributor_ok st k (count_claim d paid (u - paid)).
Proof.
  intros [] ???. destruct do_u65 as (? & ? & ? & ? & ?).
  split; simpl; try (done || (split_and!; zlia)); try lia.
Qed.

Lemma claim_record_ok st a d u l :
  is_u64 u → is_u64 l →
  status_ok (claim_status_address (nc_claimant a) (nc_distributor a))
    (claim_record st d (nc_distributor a) (nc_claimant a) u l).
Proof.
  intros Hu Hl. split; [|done]. unfold cs_wf. simpl.
  pose proof (vested_nonneg u (curr_ts st) (md_start_ts d) (md_end_ts d) ltac:(zlia)).
  split_and!; zlia.
Qed.

Lemma claim_locked_wf cs c s e amount :
  amount = released (cs_locked_amount cs) c s e - cs_locked_amount_withdrawn cs → 0 < amount →
  cs_wf cs → cs_wf (set_locked_amount_withdrawn cs (cs_locked_amount_withdrawn cs + amount)).
Proof.
  intros -> Hpos (? & ? & ? & ?).
  pose proof (released_bounds (cs_locked_amount cs) c s e ltac:(zlia)).
  unfold cs_wf. simpl. split_and!; zlia.
Qed.

Lemma effect_ok signers st ix st' : state_ok st → effect signers st ix st' → state_ok st'.
Proof.
  intros Hok [a p vault Hc | k admin d d' [Hd _] Hch | a u l proof d vault dest ts _ Hu Hl Hacc
    | a d cs vault dest amount ts _ Hacc | k d vault ts Hd Hcl Hts Hv Ho Ht
    | k admin d vault r r' n m b ts _ [Hd _] Hm Hv Hval Hb | k admin d vault to ts [Hd _] Hcl Hv Ht].
  - apply (state_ok_update st); [done|apply tokens_step_refl|lookup_cases..].
    right. by eapply initial_distributor_ok.
  - apply (state_ok_update st); [done|apply tokens_step_refl|lookup_cases..].
    right. eapply admin_change_ok; [done|]. by apply Hok.
  - pose proof (vested_nonneg u (curr_ts st) (md_start_ts d) (md_end_ts d) ltac:(zlia)).
    pose proof (ok_distributors st Hok _ _ (nca_distributor _ _ _ _ _ _ _ _ _ _ Hacc)) as Hdok.
    unfold new_claim_result, put, emit, set_tokens. simpl.
    apply (state_ok_update st); [done|eapply transfer_tokens_step; [|apply Hacc]; lia|lookup_cases..].
    + right. apply count_claim_ok; [done|done|apply Hacc..].
    + right. rewrite (nca_status _ _ _ _ _ _ _ _ _ _ Hacc). by apply claim_record_ok.
  - pose proof (ok_distributors st Hok _ _ (cla_distributor _ _ _ _ _ _ _ _ _ Hacc)) as Hdok.
    pose proof (ok_statuses st Hok _ _ (cla_status _ _ _ _ _ _ _ _ _ Hacc)) as Hsok.
    destruct Hacc. destruct cla_max. unfold claim_locked_result, put, emit, set_tokens. simpl.
    pose proof (claim_locked_wf _ _ _ _ _ cla_amount cla_positive (so_wf _ _ Hsok)).
    apply (state_ok_update st); [done|by eapply transfer_tokens_step; [|done]; lia|lookup_cases..].
    + right. destruct Hdok. split; simpl; try done. lia.
    + right. split; [done|]. apply Hsok.
  - apply (state_ok_update st); [done| |lookup_cases..].
    + eapply transfer_tokens_step; [|done]. by eapply ok_tokens.
    + right. destruct (ok_distributors st Hok _ _ Hd). by split.
  - apply (state_ok_update st); [done| |lookup_cases..].
    + destruct (0 <? b); [by eapply burn_tokens_step|subst; apply tokens_step_refl].
    + right. apply validate_set_root_Ok in Hval as (_ & _ & _ & _ & _ & _ & ? & _ & _ & _).
      destruct (ok_distributors st Hok _ _ Hd). destruct do_u65 as (? & ? & ? & ? & ?).
      split; simpl; try done; try zlia; by split_and!.
  - apply (state_ok_update st); [done| | |].
    + eapply transfer_tokens_step; [|done]. by eapply ok_tokens.
    + intros j d' [_ Hj]%lookup_delete_Some. auto.
    + intros j cs [_ Hj]%lookup_delete_Some. auto.
Qed.

Lemma step_ok allowed st st' : state_ok st → step allowed st st' → state_ok st'.
Proof.
  intros Hok Hstep. revert Hok.
  destruct Hstep as [signers ix s s' Hty _ _ Hp | s slot t ???? | s ts' [Ht Hnn]]; intros Hok.
  - eapply effect_ok; [done|]. eapply process_instruction_effect; eauto using state_ok_typed.
  - destruct Hok as [? ? ? Hd ?]. split; try done. intros k d Hk.
    destruct (Hd k d Hk). by split.
  - destruct Hok as [? ? ? Hd ?]. split; try done. intros k d Hk.
    destruct (Hd k d Hk). split; try done. destruct do_vault_owner0 as (a & Ha & Ho).
    destruct (Ht _ _ Ha) as (a' & ? & _ & ? & _); [rewrite Ho; by exists d|].
    exists a'. split; [done|congruence].
Qed.

Lemma steps_ok allowed st st' : state_ok st → steps allowed st st' → state_ok st'.
Proof. intros Hok Hs. induction Hs; eauto using step_ok. Qed.
End execution.
