(* ===== verification/Scenario.v ===== *)
(** * A concrete execution

    One small airdrop run through the program with SHA-256, the example address
    derivation and the reference token program: creation, a claim, a withdrawal
    and a clawback.  The theorems' witnesses are taken from it. *)
From S2P Require Import Prelude Machine Hashing Sha256 MerkleTree MerkleProof TreeNode Airdrop.
From S2P Require Import ProgramError ClaimStatus Solana Token State Handlers Program Execution.

#[export] Existing Instances sha256_hasher example_derivation example_derivation_spec
  reference_token reference_token_spec.

(** ** Keys *)
Definition sc_mint_key : Pubkey := pubkey "dfxQsZjikuu5DGXPgX7yEpRog74HT5cJgytT3i5iLtw".
Definition sc_dist : Pubkey := distributor_address sc_mint_key 1.
Definition sc_vault : Pubkey := get_associated_token_address sc_dist sc_mint_key.
Definition sc_receiver : Pubkey := key 20.
Definition sc_alice : Pubkey := key 1.
Definition sc_bob : Pubkey := key 2.
Definition sc_alice_token : Pubkey := key 11.
Definition sc_bob_token : Pubkey := key 12.
Definition sc_crank : Pubkey := key 99.

(** ** The tree: alice 105 + 7 locked, bob 40 *)
Definition sc_root : Hash := default (key 0) (get_root ex_airdrop_tree).
Definition sc_alice_proof : list Hash :=
  [hash_leaf (b32_list (node_hash (mkTreeNode sc_bob 40 None None)))].
Definition sc_bob_proof : list Hash :=
  [hash_leaf (b32_list (node_hash (mkTreeNode sc_alice 105 (Some 7) None)))].

(** ** States *)
Definition sc_tokens : TokenState :=
  mkTokenState
    (list_to_map [(sc_vault, mkTokenAccount sc_mint_key sc_dist 152 None false);
                  (sc_receiver, mkTokenAccount sc_mint_key (key 21) 0 None false);
                  (sc_alice_token, mkTokenAccount sc_mint_key sc_alice 3 None false);
                  (sc_bob_token, mkTokenAccount sc_mint_key sc_bob 0 None false)])
    {[ sc_mint_key := 1000 ]}.

Definition sc_state0 : State := mkState ∅ sc_tokens (mkClock 50 1000) [].

Definition sc_new_accounts : NewDistributor :=
  mkNewDistributor sc_dist sc_receiver sc_mint_key sc_vault ADMIN_ID.
Definition sc_new_args : NewDistributorArgs :=
  mkNewDistributorArgs 1 sc_root 152 2 500 2500 88900 10 false.
Definition sc_ix_new : Instruction := INewDistributor sc_new_accounts sc_new_args.

Definition sc_alice_claim : NewClaim :=
  mkNewClaim sc_dist (claim_status_address sc_alice sc_dist) sc_vault sc_alice_token sc_alice.
Definition sc_bob_claim : NewClaim :=
  mkNewClaim sc_dist (claim_status_address sc_bob sc_dist) sc_vault sc_bob_token sc_bob.
Definition sc_alice_locked : ClaimLocked :=
  mkClaimLocked sc_dist (claim_status_address sc_alice sc_dist) sc_vault sc_alice_token sc_alice.
Definition sc_ix_alice : Instruction := INewClaim sc_alice_claim 105 7 sc_alice_proof.
Definition sc_ix_bob : Instruction := INewClaim sc_bob_claim 40 0 sc_bob_proof.
Definition sc_ix_locked : Instruction := IClaimLocked sc_alice_locked.
Definition sc_clawback_accounts : Clawback := mkClawback sc_dist sc_vault sc_receiver sc_crank.
Definition sc_ix_clawback : Instruction := IClawback sc_clawback_accounts.

(** The state after an instruction; unchanged when it fails. *)
Definition run (signers : gset Pubkey) (st : State) (ix : Instruction) : State :=
  match process_instruction signers st ix with Ok st' => st' | Err _ => st end.

Lemma run_ok signers st ix :
  is_ok (process_instruction signers st ix) = true →
  process_instruction signers st ix = Ok (run signers st ix).
Proof. unfold run. by destruct (process_instruction signers st ix). Qed.

Definition sc_state1 : State := run {[ ADMIN_ID ]} sc_state0 sc_ix_new.
Definition sc_state2 : State := run {[ sc_alice ]} sc_state1 sc_ix_alice.
Definition sc_state3 : State := set_clock (mkClock 90 1500) sc_state2.
Definition sc_state4 : State := run {[ sc_alice ]} sc_state3 sc_ix_locked.
Definition sc_state5 : State := set_clock (mkClock 9000 88900) sc_state4.
Definition sc_state6 : State := run {[ sc_crank ]} sc_state5 sc_ix_clawback.

(** ** Every instruction of the scenario succeeds *)
Lemma sc_step1 : process_instruction {[ ADMIN_ID ]} sc_state0 sc_ix_new = Ok sc_state1.
Proof. apply run_ok. vm_compute. reflexivity. Qed.
Lemma sc_step2 : process_instruction {[ sc_alice ]} sc_state1 sc_ix_alice = Ok sc_state2.
Proof. apply run_ok. vm_compute. reflexivity. Qed.
Lemma sc_step4 : process_instruction {[ sc_alice ]} sc_state3 sc_ix_locked = Ok sc_state4.
Proof. apply run_ok. vm_compute. reflexivity. Qed.
Lemma sc_step6 : process_instruction {[ sc_crank ]} sc_state5 sc_ix_clawback = Ok sc_state6.
Proof. apply run_ok. vm_compute. reflexivity. Qed.

(** What the ledger shows on the way. *)
Definition balance (st : State) (k : Pubkey) : option Z :=
  option_map ta_amount (tk_accounts (st_tokens st) !! k).

(** Alice takes 52 + 53*500/2000 = 65 of her 105 and later 3 of her 7. *)
Example sc_balances :
  balance sc_state2 sc_alice_token = Some 68 ∧ balance sc_state2 sc_vault = Some 87 ∧
  balance sc_state4 sc_alice_token = Some 71 ∧ balance sc_state4 sc_vault = Some 84 ∧
  balance sc_state6 sc_vault = Some 0 ∧ balance sc_state6 sc_receiver = Some 84.
Proof. vm_compute. repeat split. Qed.

(** Bob cannot claim with Alice's amounts, nor Alice twice, nor Bob too late. *)
Example sc_failures :
  process_instruction {[ sc_bob ]} sc_state2 (INewClaim sc_bob_claim 105 7 sc_bob_proof)
    = Err (Custom InvalidProof) ∧
  process_instruction {[ sc_alice ]} sc_state2 sc_ix_alice = Err (Anchor AccountAlreadyInUse) ∧
  process_instruction {[ sc_bob ]} sc_state6 sc_ix_bob = Err (Custom ClaimExpired) ∧
  process_instruction {[ sc_crank ]} sc_state4 sc_ix_clawback = Err (Custom ClawbackBeforeStart).
Proof. vm_compute. repeat split. Qed.

(** ** The scenario is an execution in the sense of [steps] *)
Lemma sc_signers_ok (st : State) (signers : gset Pubkey) :
  forallb (λ p, match p.2 with DistributorAcc _ => bool_decide (p.1 ∉ signers) | _ => true end)
    (map_to_list (st_accounts st)) = true →
  ∀ k, is_distributor st k → k ∉ signers.
Proof.
  rewrite forallb_forall. intros Hb k [d Hd%elem_of_map_to_list%list_elem_of_In].
  by apply Hb, bool_decide_eq_true in Hd.
Qed.

Lemma sc_state0_ok : state_ok sc_state0.
Proof.
  split; [vm_compute; intuition congruence|vm_compute; intuition congruence| |done|done].
  assert (map_Forall (λ _ a, 0 ≤ ta_amount a) (tk_accounts sc_tokens)) as Hf.
  { apply (bool_decide_unpack _). vm_compute. exact I. }
  exact Hf.
Qed.

Local Ltac sc_tx step :=
  eapply step_tx; cycle 3; [exact step|vm_compute; intuition congruence|exact I
                  |apply sc_signers_ok; vm_compute; reflexivity].
Local Ltac sc_time :=
  apply step_clock; [vm_compute; congruence|vm_compute; congruence
                    |vm_compute; intuition congruence|vm_compute; intuition congruence].

Lemma sc_step_new : step any_ix sc_state0 sc_state1.
Proof. sc_tx sc_step1. Qed.
Lemma sc_step_claim : step any_ix sc_state1 sc_state2.
Proof. sc_tx sc_step2. Qed.
Lemma sc_step_time : step any_ix sc_state2 sc_state3.
Proof. sc_time. Qed.
Lemma sc_step_locked : step any_ix sc_state3 sc_state4.
Proof. sc_tx sc_step4. Qed.
Lemma sc_step_time' : step any_ix sc_state4 sc_state5.
Proof. sc_time. Qed.
Lemma sc_step_clawback : step any_ix sc_state5 sc_state6.
Proof. sc_tx sc_step6. Qed.

Lemma sc_steps_1_4 : steps any_ix sc_state1 sc_state4.
Proof.
  eapply rtc_l; [exact sc_step_claim|]. eapply rtc_l; [exact sc_step_time|].
  eapply rtc_l; [exact sc_step_locked|]. reflexivity.
Qed.
Lemma sc_steps_2_6 : steps any_ix sc_state2 sc_state6.
Proof.
  eapply rtc_l; [exact sc_step_time|]. eapply rtc_l; [exact sc_step_locked|].
  eapply rtc_l; [exact sc_step_time'|]. eapply rtc_l; [exact sc_step_clawback|]. reflexivity.
Qed.
Lemma sc_steps_0_6 : steps any_ix sc_state0 sc_state6.
Proof.
  eapply rtc_l; [exact sc_step_new|]. eapply rtc_l; [exact sc_step_claim|]. exact sc_steps_2_6.
Qed.

Lemma sc_state1_ok : state_ok sc_state1.
Proof. exact (step_ok _ _ _ sc_state0_ok sc_step_new). Qed.
Lemma sc_state2_ok : state_ok sc_state2.
Proof. exact (step_ok _ _ _ sc_state1_ok sc_step_claim). Qed.
Lemma sc_state3_ok : state_ok sc_state3.
Proof. exact (step_ok _ _ _ sc_state2_ok sc_step_time). Qed.
Lemma sc_state5_ok : state_ok sc_state5.
Proof. exact (steps_ok _ _ _ sc_state1_ok (rtc_r _ _ _ sc_steps_1_4 sc_step_time')). Qed.

(** The distributor account of the scenario at a state. *)
Definition sc_distributor_at (st : State) : MerkleDistributor :=
  default MerkleDistributor_default (get_distributor st sc_dist).
Definition sc_status_at (st : State) (c : Pubkey) : ClaimStatus :=
  default ClaimStatus_default (get_claim_status st (claim_status_address c sc_dist)).

Lemma sc_distributor_lookup st :
  bool_decide (is_Some (get_distributor st sc_dist)) = true →
  st_accounts st !! sc_dist = Some (DistributorAcc (sc_distributor_at st)).
Proof.
  intros [d Hd]%bool_decide_eq_true. apply get_distributor_Some. unfold sc_distributor_at.
  by rewrite Hd.
Qed.

Lemma sc_status_lookup st c :
  bool_decide (is_Some (get_claim_status st (claim_status_address c sc_dist))) = true →
  st_accounts st !! claim_status_address c sc_dist = Some (ClaimStatusAcc (sc_status_at st c)).
Proof.
  intros [d Hd]%bool_decide_eq_true. apply get_claim_status_Some. unfold sc_status_at.
  by rewrite Hd.
Qed.

Definition sc_vault_at (st : State) : TokenAccount :=
  default (mkTokenAccount (key 0) (key 0) 0 None false) (tk_accounts (st_tokens st) !! sc_vault).

Lemma sc_vault_lookup st :
  bool_decide (is_Some (tk_accounts (st_tokens st) !! sc_vault)) = true →
  tk_accounts (st_tokens st) !! sc_vault = Some (sc_vault_at st).
Proof. intros [a Ha]%bool_decide_eq_true. unfold sc_vault_at. by rewrite Ha. Qed.
