(* ===== verification/Safety.v ===== *)
(** * Safety of the vault, of claims and of the configuration

    Invariants of every execution: the vault keeps covering what is still owed
    until the clawback, claim statuses persist so that nobody claims twice,
    clawback is late, final and complete, and only the admin changes the
    configuration. *)
From S2P Require Import Prelude Machine Hashing TreeNode ProgramError ClaimStatus Solana Token.
From S2P Require Import State Handlers Program Execution.

Section safety.
Context `{Hasher} `{AddressDerivation} `{TokenProgram} `{!TokenProgramSpec}.
Implicit Types (st : State) (signers : gset Pubkey) (k : Pubkey) (d : MerkleDistributor).

(** No distributor address signs a transaction: it has no private key. *)
Definition signers_ok st signers : Prop := ∀ k, is_distributor st k → k ∉ signers.

(** ** The vault *)

(** The vault of [d], without a delegate, and what it lacks to cover all that
    can still be claimed. *)
Definition vault_of st d (a : TokenAccount) : Prop :=
  tk_accounts (st_tokens st) !! md_token_vault d = Some a ∧ ta_delegate a = None.
Definition deficit d (a : TokenAccount) : Z :=
  md_max_total_claim d - md_total_amount_claimed d - ta_amount a.

(** The part of a distributor no instruction ever changes. *)
Definition same_identity d d' : Prop :=
  md_bump d' = md_bump d ∧ md_version d' = md_version d ∧ md_mint d' = md_mint d ∧
  md_token_vault d' = md_token_vault d ∧ md_max_num_nodes d' = md_max_num_nodes d ∧
  md_start_ts d' = md_start_ts d ∧ md_end_ts d' = md_end_ts d ∧ md_closable d' = md_closable d.

#[global] Instance same_identity_preorder : PreOrder same_identity.
Proof.
  split; [by intros d|].
  intros a b c (?&?&?&?&?&?&?&?) (?&?&?&?&?&?&?&?). unfold same_identity. split_and!; congruence.
Qed.

Lemma vault_not_spendable st k k' d a :
  state_ok st → st_accounts st !! k = Some (DistributorAcc d) → vault_of st d a → k' ≠ k →
  ¬ may_spend a k'.
Proof.
  intros Hok Hd [Ha Hdel] Hne [Ho|Hd'].
  - destruct (do_vault_owner _ _ _ (ok_distributors st Hok k d Hd)) as (a' & Ha' & Ho').
    congruence.
  - congruence.
Qed.

(** Paying out of the vault to somebody else's account. *)
Lemma vault_pays st k d a to amount ts' dest :
  state_ok st → st_accounts st !! k = Some (DistributorAcc d) → vault_of st d a →
  tk_accounts (st_tokens st) !! to = Some dest → ta_owner dest ≠ k →
  token_transfer (st_tokens st) (md_token_vault d) to k amount = Some ts' →
  ∃ a', tk_accounts ts' !! md_token_vault d = Some a' ∧ ta_delegate a' = None ∧
    ta_amount a' = ta_amount a - amount ∧ amount ≤ ta_amount a ∧
    tk_accounts ts' !! to = Some (set_amount dest (ta_amount dest + amount)).
Proof.
  intros Hok Hd [Ha Hdel] Hdest Hne Ht.
  destruct (do_vault_owner _ _ _ (ok_distributors st Hok k d Hd)) as (a2 & Ha2 & Ho2).
  assert (md_token_vault d ≠ to) as Hvt by congruence.
  destruct (token_transfer_from _ _ _ _ _ _ Ht Hvt) as (x & x' & b & Hx & Hx' & Hdeb & Hle & _ & Hb & Hb').
  assert (x = a) as -> by congruence. assert (b = dest) as -> by congruence.
  apply debited_fields in Hdeb as (_ & _ & ? & _ & ?). exists x'. auto 10.
Qed.

(** Somebody else's vault keeps its tokens. *)
Lemma other_vault_transfer st k k' d a from to amount ts' :
  state_ok st → st_accounts st !! k = Some (DistributorAcc d) → vault_of st d a → k' ≠ k →
  0 ≤ amount → token_transfer (st_tokens st) from to k' amount = Some ts' →
  ∃ a', tk_accounts ts' !! md_token_vault d = Some a' ∧ kept a a'.
Proof.
  intros Hok Hd Hv Hne Hpos Ht. eapply token_transfer_kept; [done|done|apply Hv|].
  by eapply vault_not_spendable.
Qed.

(** What an instruction did to the distributor at [k] and its vault. *)
Inductive vault_effect signers st st' k d (a : TokenAccount) : Prop :=
| vault_alive d' a' :
    st_accounts st' !! k = Some (DistributorAcc d') → vault_of st' d' a' →
    same_identity d d' → md_clawed_back d' = md_clawed_back d →
    deficit d' a' ≤ deficit d a → vault_effect signers st st' k d a
| vault_clawed_back :
    st_accounts st' !! k = Some (DistributorAcc (set_clawed_back true d)) →
    md_clawed_back d = false → md_clawback_start_ts d ≤ curr_ts st →
    vault_effect signers st st' k d a
| vault_closed :
    st_accounts st' !! k = None → md_closable d = true → md_admin d ∈ signers →
    vault_effect signers st st' k d a.

Lemma vault_alive_kept signers st st' k d a a' :
  st_accounts st' !! k = Some (DistributorAcc d) →
  tk_accounts (st_tokens st') !! md_token_vault d = Some a' → ta_delegate a = None → kept a a' →
  vault_effect signers st st' k d a.
Proof.
  intros Hd Ha' Hdel (? & ? & ? & ?).
  apply (vault_alive _ _ _ _ _ _ d a'); [done|split; congruence|reflexivity|done|].
  unfold deficit. lia.
Qed.

(** A payment signed by another distributor. *)
Lemma vault_other_payment signers st st' k k' d a from to amount :
  state_ok st → st_accounts st !! k = Some (DistributorAcc d) → vault_of st d a → k' ≠ k →
  0 ≤ amount → token_transfer (st_tokens st) from to k' amount = Some (st_tokens st') →
  st_accounts st' !! k = Some (DistributorAcc d) → vault_effect signers st st' k d a.
Proof.
  intros Hok Hd Hv Hne Hpos Ht Hd'.
  destruct (other_vault_transfer st k k' d a from to amount (st_tokens st')) as (a' & ? & ?);
    [done..|].
  destruct Hv. by apply (vault_alive_kept _ _ _ _ _ _ a').
Qed.

(** A payment out of the vault that the distributor counts as claimed. *)
Lemma vault_own_payment signers st st' k d d' a to dest amount :
  state_ok st → st_accounts st !! k = Some (DistributorAcc d) → vault_of st d a →
  tk_accounts (st_tokens st) !! to = Some dest → ta_owner dest ≠ k →
  token_transfer (st_tokens st) (md_token_vault d) to k amount = Some (st_tokens st') →
  st_accounts st' !! k = Some (DistributorAcc d') → same_identity d d' →
  md_clawed_back d' = md_clawed_back d → md_max_total_claim d' = md_max_total_claim d →
  md_total_amount_claimed d' = md_total_amount_claimed d + amount →
  vault_effect signers st st' k d a.
Proof.
  intros Hok Hd Hv Hdest Hown Ht Hd' Hid Hcb Hmax Hcl.
  destruct (vault_pays st k d a to amount (st_tokens st') dest)
    as (a' & Ha' & Hdel' & Ham & _); [done..|].
  apply (vault_alive _ _ _ _ _ _ d' a'); [done| |done|done|unfold deficit; lia].
  destruct Hid as (_ & _ & _ & Hvk & _). split; [by rewrite Hvk|done].
Qed.

(** The burn of [set_root] removes from the vault what it removes from the maximum. *)
Lemma vault_burned st d a k m ts :
  vault_of st d a → m ≤ md_max_total_claim d →
  (if 0 <? md_max_total_claim d - m
   then token_burn (st_tokens st) (md_token_vault d) (md_mint d) k (md_max_total_claim d - m)
          = Some ts
   else ts = st_tokens st) →
  ∃ a', tk_accounts ts !! md_token_vault d = Some a' ∧ ta_delegate a' = None ∧
    ta_amount a' = ta_amount a - (md_max_total_claim d - m).
Proof.
  intros [Ha Hdel] Hm Hb. destruct (Z.ltb_spec 0 (md_max_total_claim d - m)).
  - destruct (token_burn_effect _ _ _ _ _ _ Hb)
      as (x & s & x' & Hx & _ & _ & _ & _ & (_ & _ & ? & _ & ?)%debited_fields & -> & _).
    assert (x = a) as -> by congruence. exists x'. rewrite lookup_insert_eq. auto.
  - subst ts. exists a. split_and!; [done|done|lia].
Qed.

Lemma other_vault_burned st k k' d a account mint amount ts :
  state_ok st → st_accounts st !! k = Some (DistributorAcc d) → vault_of st d a → k' ≠ k →
  (if 0 <? amount then token_burn (st_tokens st) account mint k' amount = Some ts
   else ts = st_tokens st) →
  ∃ a', tk_accounts ts !! md_token_vault d = Some a' ∧ kept a a'.
Proof.
  intros Hok Hd Hv Hne Hb. pose proof Hv as [Ha _].
  destruct (0 <? _); [|subst ts; exists a; split; [done|reflexivity]].
  eapply token_burn_kept; [done..|]. by eapply vault_not_spendable.
Qed.

(** Look up the distributor at [k] in the updated account map. *)
Local Ltac lookup_updated :=
  simpl; repeat first [rewrite lookup_insert_eq; done | rewrite lookup_insert_ne by congruence
                      | rewrite lookup_delete_eq; done | rewrite lookup_delete_ne by congruence];
  done.

Lemma effect_vault signers st ix st' k d a :
  state_ok st → signers_ok st signers → st_accounts st !! k = Some (DistributorAcc d) →
  vault_of st d a → effect signers st ix st' → vault_effect signers st st' k d a.
Proof.
  intros Hok Hsig Hd Hv Heff. pose proof Hv as [Ha Hdel].
  assert (k ∉ signers) as Hks by (apply Hsig; by exists d).
  destruct Heff as [na p v Hc | k' admin d0 d' [Hd0 _] Hch | na u l proof d0 v dest ts _ Hu Hl Hacc
    | ca d0 cs v dest amount ts _ Hacc | k' d0 v ts Hd0 Hcl Hts Hv0 Ho Ht
    | k' admin d0 v r r' n m b ts _ [Hd0 _] Hm Hv0 Hval Hb
    | k' admin d0 v to ts (Hd0 & Hsg & Hadm) Hcl Hv0 Ht].
  - pose proof (co_fresh _ _ _ _ _ Hc).
    apply (vault_alive_kept _ _ _ _ _ _ a); [lookup_updated|done|done|reflexivity].
  - destruct (decide (k' = k)) as [-> |Hne].
    + assert (d0 = d) as -> by congruence.
      apply (vault_alive _ _ _ _ _ _ d' a); destruct Hch; done || lookup_updated.
    + apply (vault_alive_kept _ _ _ _ _ _ a); [lookup_updated|done|done|reflexivity].
  - destruct Hacc. destruct nca_accounts as (? & ? & Hfrom & Hown). rewrite Hfrom in *.
    pose proof (vested_nonneg u (curr_ts st) (md_start_ts d0) (md_end_ts d0) ltac:(zlia)).
    destruct (decide (nc_distributor na = k)) as [<- |Hne].
    + assert (d0 = d) as -> by congruence.
      eapply (vault_own_payment _ _ _ _ _ _ _ (nc_to na) dest);
        [done|done|done|done| |done|lookup_updated|done..].
      intros ?; apply Hks; congruence.
    + eapply vault_other_payment; [done|done|done|done| |done|lookup_updated]. lia.
  - destruct Hacc. destruct cla_accounts as (? & ? & Hfrom & Hown). rewrite Hfrom in *.
    destruct (decide (cl_distributor ca = k)) as [<- |Hne].
    + assert (d0 = d) as -> by congruence.
      eapply (vault_own_payment _ _ _ _ _ _ _ (cl_to ca) dest);
        [done|done|done|done| |done|lookup_updated|done..].
      intros ?; apply Hks; congruence.
    + eapply vault_other_payment; [done|done|done|done| |done|lookup_updated]. lia.
  - destruct (decide (k' = k)) as [-> |Hne].
    + assert (d0 = d) as -> by congruence. apply vault_clawed_back; [lookup_updated|done..].
    + eapply vault_other_payment; [done|done|done|done| |done|lookup_updated]. by eapply ok_tokens.
  - apply validate_set_root_Ok in Hval as (_ & _ & _ & _ & _ & _ & ? & _ & _ & ->).
    destruct (decide (k' = k)) as [-> |Hne].
    + assert (d0 = d) as -> by congruence.
      destruct (vault_burned st d a k m ts) as (a' & Ha' & Hdel' & Ham); [done|lia|done|].
      eapply (vault_alive _ _ _ _ _ _ _ a'); [lookup_updated|by split|done|done|].
      unfold deficit. simpl. lia.
    + destruct (other_vault_burned st k k' d a _ _ _ ts Hok Hd Hv Hne Hb) as (a' & Ha' & Hk').
      apply (vault_alive_kept _ _ _ _ _ _ a'); [lookup_updated|done..].
  - destruct (decide (k' = k)) as [-> |Hne].
    + assert (d0 = d) as -> by congruence.
      apply vault_closed; [lookup_updated|done|congruence].
    + eapply vault_other_payment; [done|done|done|done| |done|lookup_updated]. by eapply ok_tokens.
Qed.

(** ** The life of a distributor account *)
Definition same_config d d' : Prop :=
  md_root d' = md_root d ∧ md_max_total_claim d' = md_max_total_claim d ∧
  md_clawback_start_ts d' = md_clawback_start_ts d ∧
  md_clawback_receiver d' = md_clawback_receiver d ∧
  md_admin d' = md_admin d ∧ md_enable_slot d' = md_enable_slot d.

#[global] Instance same_config_preorder : PreOrder same_config.
Proof.
  split; [by intros d|].
  intros a b c (?&?&?&?&?&?) (?&?&?&?&?&?). unfold same_config. split_and!; congruence.
Qed.

Definition same_counters d d' : Prop :=
  md_total_amount_claimed d' = md_total_amount_claimed d ∧
  md_total_amount_forgone d' = md_total_amount_forgone d ∧
  md_num_nodes_claimed d' = md_num_nodes_claimed d.

Record evolves signers st d d' : Prop := {
  ev_identity : same_identity d d';
  ev_config : md_admin d ∉ signers → same_config d d';
  ev_grows : md_total_amount_claimed d ≤ md_total_amount_claimed d' ∧
             md_total_amount_forgone d ≤ md_total_amount_forgone d' ∧
             md_num_nodes_claimed d ≤ md_num_nodes_claimed d';
  ev_max : md_max_total_claim d' ≤ md_max_total_claim d;
  ev_final : md_clawed_back d = true →
    md_clawed_back d' = true ∧ same_counters d d' ∧ md_root d' = md_root d ∧
    md_max_total_claim d' = md_max_total_claim d ∧
    md_clawback_start_ts d' = md_clawback_start_ts d;
  ev_late : md_clawed_back d = false → md_clawed_back d' = true →
    md_clawback_start_ts d ≤ curr_ts st;
  ev_reroot : md_root d' ≠ md_root d →
    md_mint d ∈ DFX_MINTS ∧ md_enable_slot d = U64_MAX ∧ same_counters d d'
}.

Lemma evolves_refl signers st d : evolves signers st d d.
Proof. split; try done; congruence. Qed.

Lemma effect_distributor signers st ix st' k d :
  state_ok st → st_accounts st !! k = Some (DistributorAcc d) → effect signers st ix st' →
  (st_accounts st' !! k = None ∧ md_closable d = true ∧ md_admin d ∈ signers) ∨
  ∃ d', st_accounts st' !! k = Some (DistributorAcc d') ∧ evolves signers st d d'.
Proof.
  intros Hok Hd Heff.
  assert (st_accounts st' !! k = Some (DistributorAcc d) → ∃ d',
    st_accounts st' !! k = Some (DistributorAcc d') ∧ evolves signers st d d') as Hsame
    by eauto using evolves_refl.
  destruct Heff as [na p v Hc | k' admin d0 d' (Hd0 & Hsg & Hadm) Hch
    | na u l proof d0 v dest ts _ Hu Hl Hacc | ca d0 cs v dest amount ts _ Hacc
    | k' d0 v ts Hd0 Hcl Hts Hv0 Ho Ht
    | k' admin d0 v r r' n m b ts Hre (Hd0 & Hsg & Hadm) Hm Hv0 Hval Hb
    | k' admin d0 v to ts (Hd0 & Hsg & Hadm) Hcl Hv0 Ht].
  - pose proof (co_fresh _ _ _ _ _ Hc). right. apply Hsame. lookup_updated.
  - right. destruct (decide (k' = k)) as [-> |Hne]; [|apply Hsame; lookup_updated].
    assert (d0 = d) as -> by congruence. exists d'. split; [lookup_updated|].
    destruct Hch; split; simpl; try done; try congruence.
  - right. destruct Hacc.
    pose proof (vested_nonneg u (curr_ts st) (md_start_ts d0) (md_end_ts d0) ltac:(zlia)).
    destruct (decide (nc_distributor na = k)) as [<- |Hne]; [|apply Hsame; lookup_updated].
    assert (d0 = d) as -> by congruence. eexists. split; [lookup_updated|].
    split; simpl; try done; try congruence. lia.
  - right. destruct Hacc.
    destruct (decide (cl_distributor ca = k)) as [<- |Hne]; [|apply Hsame; lookup_updated].
    assert (d0 = d) as -> by congruence. eexists. split; [lookup_updated|].
    split; simpl; try done; try congruence. lia.
  - right. destruct (decide (k' = k)) as [-> |Hne]; [|apply Hsame; lookup_updated].
    assert (d0 = d) as -> by congruence. eexists. split; [lookup_updated|].
    split; simpl; try done; congruence.
  - right. apply validate_set_root_Ok in Hval as (? & ? & ? & _ & _ & _ & ? & _ & _ & _).
    destruct (decide (k' = k)) as [-> |Hne]; [|apply Hsame; lookup_updated].
    assert (d0 = d) as -> by congruence. eexists. split; [lookup_updated|].
    split; simpl; try done; try congruence. lia.
  - destruct (decide (k' = k)) as [-> |Hne].
    + assert (d0 = d) as -> by congruence. left.
      split_and!; [lookup_updated|done|congruence].
    + right. apply Hsame. lookup_updated.
Qed.

(** Steps keep a distributor that is not closable. *)
Lemma step_distributor allowed st st' k d :
  state_ok st → st_accounts st !! k = Some (DistributorAcc d) → md_closable d = false →
  step allowed st st' →
  ∃ signers d', st_accounts st' !! k = Some (DistributorAcc d') ∧ evolves signers st d d'.
Proof.
  intros Hok Hd Hcl Hstep. revert Hok Hd.
  destruct Hstep as [signers ix s s' Hty _ _ Hp | s slot t ???? | s ts' _]; intros Hok Hd.
  - apply process_instruction_effect in Hp; [|by apply state_ok_typed|done].
    destruct (effect_distributor _ _ _ _ k d Hok Hd Hp) as [(_ & ? & _)|(d' & ? & ?)];
      [congruence|eauto].
  - exists ∅. eauto using evolves_refl.
  - exists ∅. eauto using evolves_refl.
Qed.

Lemma step_vault allowed st st' k d a :
  state_ok st → st_accounts st !! k = Some (DistributorAcc d) → vault_of st d a →
  step allowed st st' → ∃ signers, vault_effect signers st st' k d a.
Proof.
  intros Hok Hd Hv Hstep. revert Hok Hd Hv.
  destruct Hstep as [signers ix s s' Hty _ Hsig Hp | s slot t ???? | s ts' [Ht _]];
    intros Hok Hd [Ha Hdel].
  - exists signers. eapply effect_vault; [done|done|done|by split|].
    eapply process_instruction_effect; eauto using state_ok_typed.
  - exists ∅. by apply (vault_alive_kept _ _ _ _ _ _ a).
  - exists ∅. destruct (do_vault_owner _ _ _ (ok_distributors s Hok k d Hd)) as (x & Hx & Ho).
    destruct (Ht _ _ Ha) as (a' & Ha' & _ & _ & Hk'); [assert (x = a) as -> by congruence|].
    { rewrite Ho. by exists d. }
    apply (vault_alive_kept _ _ _ _ _ _ a'); auto.
Qed.

(** The vault covers everything that can still be claimed. *)
Definition solvent st k : Prop :=
  ∃ d, st_accounts st !! k = Some (DistributorAcc d) ∧ md_closable d = false ∧
    (md_clawed_back d = true ∨ ∃ a, vault_of st d a ∧ deficit d a ≤ 0).

Lemma step_solvent allowed st st' k : state_ok st → solvent st k → step allowed st st' → solvent st' k.
Proof.
  intros Hok (d & Hd & Hcl & Hs) Hstep.
  destruct (step_distributor _ _ _ k d Hok Hd Hcl Hstep) as (signers & d' & Hd' & Hev).
  assert (md_closable d' = false) as Hcl'.
  { destruct (ev_identity _ _ _ _ Hev) as (_ & _ & _ & _ & _ & _ & _ & ->). done. }
  exists d'. split_and!; [done..|].
  destruct Hs as [Hcb|(a & Hv & Hdef)]; [left; by apply (ev_final _ _ _ _ Hev)|].
  destruct (step_vault _ _ _ k d a Hok Hd Hv Hstep) as [sg [d2 a2 Hd2 Hv2 _ _ Hle|Hd2 _ _|Hn _ _]].
  - assert (d2 = d') as -> by congruence. right. exists a2. split; [done|lia].
  - left. assert (d' = set_clawed_back true d) as -> by congruence. done.
  - congruence.
Qed.

Lemma steps_solvent allowed st st' k : state_ok st → solvent st k → steps allowed st st' → solvent st' k.
Proof.
  intros Hok Hs Hsteps. induction Hsteps as [|s s1 s2 Hstep _ IH]; [done|].
  apply IH; eauto using step_ok, step_solvent.
Qed.

(** ** Claim statuses *)

(** A status only ever gains withdrawals. *)
Definition status_grows (cs cs' : ClaimStatus) : Prop :=
  cs' = set_locked_amount_withdrawn cs (cs_locked_amount_withdrawn cs') ∧
  cs_locked_amount_withdrawn cs ≤ cs_locked_amount_withdrawn cs'.

#[global] Instance status_grows_preorder : PreOrder status_grows.
Proof.
  split; [by intros []|]. intros a b c [Hb ?] [Hc ?]. split; [|lia].
  rewrite Hc at 1. rewrite Hb at 1. done.
Qed.

Lemma effect_status signers st ix st' s cs :
  state_ok st → st_accounts st !! s = Some (ClaimStatusAcc cs) → effect signers st ix st' →
  ∃ cs', st_accounts st' !! s = Some (ClaimStatusAcc cs') ∧ status_grows cs cs' ∧
    (cs' ≠ cs → ∃ c k, c ∈ signers ∧ s = claim_status_address c k).
Proof.
  intros Hok Hs Heff.
  assert (st_accounts st' !! s = Some (ClaimStatusAcc cs) → ∃ cs',
    st_accounts st' !! s = Some (ClaimStatusAcc cs') ∧ status_grows cs cs' ∧
    (cs' ≠ cs → ∃ c k, c ∈ signers ∧ s = claim_status_address c k)) as Hsame.
  { intros Hs'. exists cs. split_and!; [done|reflexivity|done]. }
  destruct Heff as [na p v Hc | k' admin d0 d' (Hd0 & Hsg & Hadm) Hch
    | na u l proof d0 v dest ts _ Hu Hl Hacc | ca d0 cs0 v dest amount ts _ Hacc
    | k' d0 v ts Hd0 Hcl Hts Hv0 Ho Ht
    | k' admin d0 v r r' n m b ts Hre (Hd0 & Hsg & Hadm) Hm Hv0 Hval Hb
    | k' admin d0 v to ts (Hd0 & Hsg & Hadm) Hcl Hv0 Ht].
  - pose proof (co_fresh _ _ _ _ _ Hc). apply Hsame. lookup_updated.
  - apply Hsame. lookup_updated.
  - destruct Hacc. apply Hsame. lookup_updated.
  - destruct Hacc. destruct (decide (cl_claim_status ca = s)) as [<- |Hne];
      [|apply Hsame; lookup_updated].
    assert (cs0 = cs) as -> by congruence. eexists. split_and!; [lookup_updated| |eauto].
    split; simpl; [done|lia].
  - apply Hsame. lookup_updated.
  - apply Hsame. lookup_updated.
  - apply Hsame. lookup_updated.
Qed.

(** Where a claim status of the next state comes from: it was there before, up to
    withdrawals, or the instruction was the claim that created it. *)
Lemma effect_status_origin signers st ix st' j cs :
  effect signers st ix st' → st_accounts st' !! j = Some (ClaimStatusAcc cs) →
  (∃ cs0, st_accounts st !! j = Some (ClaimStatusAcc cs0) ∧ status_grows cs0 cs) ∨
  (∃ a u l proof d v dest ts, ix = INewClaim a u l proof ∧ is_u64 u ∧ is_u64 l ∧
     new_claim_accepts signers st a u l proof d v dest ts ∧
     cs = claim_record st d (nc_distributor a) (nc_claimant a) u l).
Proof.
  intros Heff.
  assert (st_accounts st !! j = Some (ClaimStatusAcc cs) → ∃ cs0,
    st_accounts st !! j = Some (ClaimStatusAcc cs0) ∧ status_grows cs0 cs) as Hold.
  { intros Hj. exists cs. split; [done|reflexivity]. }
  destruct Heff as [na p v Hc | k' admin d0 d' Hd0 Hch
    | na u l proof d0 v dest ts Hix Hu Hl Hacc | ca d0 cs0 v dest amount ts _ Hacc
    | k' d0 v ts Hd0 Hcl Hts Hv0 Ho Ht | k' admin d0 v r r' n m b ts _ Hd0 Hm Hv0 Hval Hb
    | k' admin d0 v to ts Hd0 Hcl Hv0 Ht]; simpl; rewrite ?lookup_insert_Some, ?lookup_delete_Some.
  3: { intros [[_ [= <-]]|[_ [[_ [=]]|[_ ?]]]]; [right; eauto 20|auto]. }
  3: { destruct Hacc. intros [[<- [= <-]]|[_ [[_ [=]]|[_ ?]]]]; [|auto].
       left. exists cs0. split; [done|]. split; simpl; [done|lia]. }
  5: intros [_ ?]; auto.
  all: intros [[_ [=]]|[_ ?]]; auto.
Qed.

Lemma step_status allowed st st' s cs :
  state_ok st → st_accounts st !! s = Some (ClaimStatusAcc cs) → step allowed st st' →
  ∃ cs', st_accounts st' !! s = Some (ClaimStatusAcc cs') ∧ status_grows cs cs'.
Proof.
  intros Hok Hs Hstep. revert Hok Hs.
  destruct Hstep as [signers ix s0 s' Hty _ Hsig Hp | s0 slot t ???? | s0 ts' [Ht _]]; intros Hok Hs.
  - apply process_instruction_effect in Hp; [|by apply state_ok_typed|done].
    destruct (effect_status _ _ _ _ s cs Hok Hs Hp) as (cs' & ? & ? & _). eauto.
  - exists cs. by split.
  - exists cs. by split.
Qed.

Lemma steps_status allowed st st' s cs :
  state_ok st → st_accounts st !! s = Some (ClaimStatusAcc cs) → steps allowed st st' →
  ∃ cs', st_accounts st' !! s = Some (ClaimStatusAcc cs') ∧ status_grows cs cs'.
Proof.
  intros Hok Hs Hsteps. revert cs Hs.
  induction Hsteps as [st|st st1 st2 Hstep _ IH]; intros cs Hs; [exists cs; split; [done|reflexivity]|].
  destruct (step_status _ _ _ s cs Hok Hs Hstep) as (cs1 & Hs1 & Hg1).
  destruct (IH (step_ok _ _ _ Hok Hstep) cs1 Hs1) as (cs2 & Hs2 & Hg2).
  exists cs2. split; [done|by etrans].
Qed.
End safety.
