(* ===== verification/NoPanic.v ===== *)
(** * No panics, and valid signer seeds

    In a well-formed state no instruction but [close_claim_status] panics, and
    the seeds the handlers sign their CPIs with always derive the distributor's
    address. *)
From S2P Require Import Prelude Machine Hashing TreeNode ProgramError ClaimStatus Solana Token.
From S2P Require Import State Handlers Program Execution Scenario.

(** The errors a program can return in an orderly way. *)
Definition orderly (e : ProgramError) : Prop := e ≠ Panic ∧ e ≠ PrivilegeEscalation.
Definition safe {A} (r : fallible A) : Prop := ∀ e, r = Err e → orderly e.

Section safe.
Context {A B : Type}.

Lemma safe_Ok (a : A) : safe (Ok a).
Proof. by intros e. Qed.

Lemma safe_Err e : orderly e → safe (@Err _ A e).
Proof. intros He e' [= <-]. done. Qed.

Lemma safe_bind (r : fallible A) (f : A → fallible B) :
  safe r → (∀ a, r = Ok a → safe (f a)) → safe (r ≫= f).
Proof. intros Hr Hf. destruct r as [a|e]; [by apply Hf|]. intros e' [= <-]. by apply Hr. Qed.

Lemma safe_require b e : orderly e → safe (require b e).
Proof. intros He e'. destruct b; simpl; [done|]. by intros [= <-]. Qed.

Lemma safe_ok_or (o : option A) e : orderly e → safe (ok_or o e).
Proof. intros He e'. destruct o; simpl; [done|]. by intros [= <-]. Qed.

Lemma safe_ok_or_Some (o : option A) e : is_Some o → safe (ok_or o e).
Proof. intros [a ->]. apply safe_Ok. Qed.
End safe.

Ltac orderly := split; discriminate.

Lemma safe_check_eq a b e : orderly e → safe (check_eq a b e).
Proof. apply safe_require. Qed.
Lemma safe_check_signer ss k : safe (check_signer ss k).
Proof. apply safe_require. orderly. Qed.
Lemma safe_load_distributor st k : safe (load_distributor st k).
Proof. apply safe_ok_or. orderly. Qed.
Lemma safe_load_claim_status st k : safe (load_claim_status st k).
Proof. apply safe_ok_or. orderly. Qed.
Lemma safe_load_token st k : safe (load_token st k).
Proof. apply safe_ok_or. orderly. Qed.
Lemma safe_load_mint st k : safe (load_mint st k).
Proof. apply safe_ok_or. orderly. Qed.

#[export] Hint Resolve safe_Ok safe_check_signer safe_load_distributor safe_load_claim_status
  safe_load_token safe_load_mint : distributor.
#[export] Hint Extern 3 (orderly _) => orderly : distributor.
#[export] Hint Extern 2 (safe (require _ _)) => apply safe_require; orderly : distributor.
#[export] Hint Extern 2 (safe (check_eq _ _ _)) => apply safe_check_eq; orderly : distributor.
#[export] Hint Extern 2 (safe (ok_or _ _)) => apply safe_ok_or; orderly : distributor.

(** Walk through a do-block, keeping the equation of every successful step. *)
Ltac safe_step :=
  first [ apply safe_bind; [solve [auto with distributor]|intros ? ?]
        | solve [auto with distributor] ].
Ltac safe_steps := repeat (cbn zeta; safe_step).

Section no_panic.
Context `{Hasher} `{AddressDerivation} `{!AddressDerivationSpec} `{TokenProgram}.
Implicit Types (st : State) (signers : gset Pubkey) (k : Pubkey) (d : MerkleDistributor).

Lemma safe_check_associated k a mint authority : safe (check_associated k a mint authority).
Proof. unfold check_associated. safe_steps. Qed.
Lemma safe_init_account k addr a st : safe (init_account k addr a st).
Proof. unfold init_account. safe_steps. Qed.

#[local] Hint Resolve safe_check_associated safe_init_account : distributor.

Lemma safe_update_unlocked cs c s e : safe (update_unlocked_amount_claimed cs c s e).
Proof.
  unfold update_unlocked_amount_claimed. destruct (s <=? c); [|apply safe_Err; orderly].
  destruct (e <=? c); safe_steps.
Qed.
Lemma safe_amount_withdrawable cs c s e : safe (amount_withdrawable cs c s e).
Proof.
  unfold amount_withdrawable, unlocked_amount. destruct (s <=? c), (e <=? c); safe_steps.
  apply safe_bind; [|safe_steps]. safe_steps.
Qed.
Lemma safe_forgone cs : safe (get_unlocked_amount_forgone cs).
Proof. unfold get_unlocked_amount_forgone. safe_steps. Qed.

#[local] Hint Resolve safe_update_unlocked safe_amount_withdrawable safe_forgone : distributor.

(** The stored bump is the canonical one, so the seeds derive the address. *)
Lemma signer_seeds_valid st k d :
  distributor_ok st k d → create_program_address (signer_seeds d) PROGRAM_ID = Some k.
Proof.
  intros Hd. unfold signer_seeds. rewrite (do_bump _ _ _ Hd).
  apply find_program_address_create. rewrite (do_address _ _ _ Hd) at 1.
  unfold distributor_address, distributor_bump. by destruct (find_program_address _ _).
Qed.

Lemma safe_cpi_transfer st k d from to amount :
  create_program_address (signer_seeds d) PROGRAM_ID = Some k →
  safe (cpi_transfer st k d from to amount).
Proof.
  intros Hs. unfold cpi_transfer, invoke_signed.
  rewrite bool_decide_eq_true_2 by done. simpl. safe_steps.
Qed.
Lemma safe_cpi_burn st k d mint from amount :
  create_program_address (signer_seeds d) PROGRAM_ID = Some k →
  safe (cpi_burn st k d mint from amount).
Proof.
  intros Hs. unfold cpi_burn, invoke_signed.
  rewrite bool_decide_eq_true_2 by done. simpl. safe_steps.
Qed.

Lemma safe_NewDistributor_accounts signers st a version :
  safe (NewDistributor_try_accounts signers st a version).
Proof. unfold NewDistributor_try_accounts. safe_steps. Qed.
Lemma safe_NewClaim_accounts signers st a : safe (NewClaim_try_accounts signers st a).
Proof. unfold NewClaim_try_accounts. safe_steps. Qed.
Lemma safe_ClaimLocked_accounts signers st a : safe (ClaimLocked_try_accounts signers st a).
Proof. unfold ClaimLocked_try_accounts. safe_steps. Qed.
Lemma safe_Clawback_accounts signers st a : safe (Clawback_try_accounts signers st a).
Proof. unfold Clawback_try_accounts. safe_steps. Qed.
Lemma safe_SetRoot_accounts signers st a : safe (SetRoot_try_accounts signers st a).
Proof. unfold SetRoot_try_accounts. safe_steps. Qed.
Lemma safe_CloseDistributor_accounts signers st a :
  safe (CloseDistributor_try_accounts signers st a).
Proof. unfold CloseDistributor_try_accounts. safe_steps. Qed.

#[local] Hint Resolve safe_NewDistributor_accounts safe_NewClaim_accounts safe_ClaimLocked_accounts safe_Clawback_accounts
  safe_SetRoot_accounts safe_CloseDistributor_accounts : distributor.

Lemma safe_new_distributor signers st a p : safe (handle_new_distributor signers st a p).
Proof. unfold handle_new_distributor. safe_steps. Qed.

Lemma safe_new_claim signers st a u l proof :
  state_ok st → safe (handle_new_claim signers st a u l proof).
Proof.
  intros Hok. unfold handle_new_claim.
  apply safe_bind; [auto with distributor|intros st1 Hacc].
  apply NewClaim_try_accounts_Ok in Hacc as (d & v & r & Hd & _ & _ & _ & _ & Hfree & _ & _ & ->).
  apply safe_bind; [auto with distributor|intros d1 Hd1]. inv_checks. inv_checked.
  simpl in Hd1. rewrite lookup_insert_ne, Hd in Hd1 by congruence. injection Hd1 as <-.
  pose proof (signer_seeds_valid _ _ _ (ok_distributors st Hok _ _ Hd)).
  safe_steps. apply safe_bind; [by apply safe_cpi_transfer|intros ? _]. safe_steps.
Qed.

Lemma safe_claim_locked signers st a : state_ok st → safe (handle_claim_locked signers st a).
Proof.
  intros Hok. unfold handle_claim_locked. safe_step.
  match goal with Hx : _ = Ok ?v |- _ => destruct v as [d cs]; rename Hx into Hacc end.
  apply ClaimLocked_try_accounts_Ok in Hacc as (v & r & Hd & Hcs & _).
  pose proof (ok_distributors st Hok _ _ Hd) as Hdok.
  destruct (so_wf _ _ (ok_statuses st Hok _ _ Hcs)) as (Hl & Hw & _).
  pose proof (signer_seeds_valid _ _ _ Hdok).
  destruct (do_i64 _ _ _ Hdok) as (? & ? & _).
  do 2 safe_step. apply safe_bind; [auto with distributor|intros amount Ham].
  unfold amount_withdrawable in Ham. rewrite unlocked_amount_eq in Ham by done.
  destruct (window_overflow _ _ _) eqn:Hwin; [done|]. simpl in Ham. inv_checks. inv_checked.
  apply safe_bind; [auto with distributor|intros ? Hpos]. inv_checks.
  apply safe_bind; [by apply safe_cpi_transfer|intros st1 Hst1].
  apply cpi_transfer_Ok in Hst1 as (_ & ts & _ & ->). simpl. do 4 safe_step.
  destruct (remaining_seconds_ok (curr_ts st) (md_start_ts d) (md_end_ts d) _
    (cs_locked_amount cs) (cs_locked_amount_withdrawn cs) ltac:(done) ltac:(lia) eq_refl Hpos Hwin)
    as [rem Hrem].
  apply safe_bind; [|safe_steps].
  change (curr_ts (set_tokens ts st)) with (curr_ts st). rewrite Hrem. apply safe_Ok.
Qed.

Lemma safe_clawback signers st a : state_ok st → safe (handle_clawback signers st a).
Proof.
  intros Hok. unfold handle_clawback. safe_step.
  match goal with Hx : _ = Ok ?v |- _ => destruct v as [d from]; rename Hx into Hacc end.
  unfold Clawback_try_accounts in Hacc. inv_checks. inv_checked.
  pose proof (signer_seeds_valid _ _ _ (ok_distributors st Hok _ _ Hok0)).
  safe_steps. apply safe_bind; [by apply safe_cpi_transfer|intros ? _]. safe_steps.
Qed.

Lemma safe_validate_set_root d vault_amount r n m :
  md_total_amount_claimed d ≤ md_max_total_claim d → safe (validate_set_root d vault_amount r n m).
Proof.
  intros Hle. unfold validate_set_root. do 5 safe_step.
  apply safe_bind; [auto with distributor|intros ? Hm]. inv_checks. do 2 safe_step.
  apply safe_bind; [|intros ? _; safe_step].
  - apply safe_ok_or_Some. eexists. by apply checked_sub_u64_Some.
  - apply safe_ok_or_Some. eexists. by apply checked_sub_u64_Some.
Qed.

Lemma safe_set_root signers st a r r' n m :
  state_ok st → safe (handle_set_root signers st a r r' n m).
Proof.
  intros Hok. unfold handle_set_root. safe_step.
  match goal with Hx : _ = Ok ?v |- _ => destruct v as [d vault]; rename Hx into Hacc end.
  unfold SetRoot_try_accounts in Hacc. inv_checks. inv_checked.
  pose proof (ok_distributors st Hok _ _ Hok0) as Hdok.
  pose proof (signer_seeds_valid _ _ _ Hdok).
  apply safe_bind; [apply safe_validate_set_root, (do_claimed _ _ _ Hdok)|intros b _].
  apply safe_bind; [|intros ? _; safe_steps].
  destruct (0 <? b); [by apply safe_cpi_burn|apply safe_Ok].
Qed.

Lemma safe_close_distributor signers st a :
  state_ok st → safe (handle_close_distributor signers st a).
Proof.
  intros Hok. unfold handle_close_distributor. safe_step.
  match goal with Hx : _ = Ok ?v |- _ => destruct v as [d vault]; rename Hx into Hacc end.
  unfold CloseDistributor_try_accounts in Hacc. inv_checks. inv_checked.
  pose proof (signer_seeds_valid _ _ _ (ok_distributors st Hok _ _ Hok0)).
  apply safe_bind; [by apply safe_cpi_transfer|intros ? _]. safe_steps.
Qed.

Lemma safe_set_clawback_start_ts signers st a t :
  safe (handle_set_clawback_start_ts signers st a t).
Proof.
  unfold handle_set_clawback_start_ts, SetClawbackStartTs_try_accounts, validate_clawback_start_ts.
  apply safe_bind; [safe_steps|intros d _]. apply safe_bind; [safe_steps|intros ? _]. safe_steps.
Qed.
Lemma safe_set_clawback_receiver signers st a : safe (handle_set_clawback_receiver signers st a).
Proof.
  unfold handle_set_clawback_receiver, SetClawbackReceiver_try_accounts.
  apply safe_bind; [safe_steps|intros d _]. safe_steps.
Qed.
Lemma safe_set_admin signers st a : safe (handle_set_admin signers st a).
Proof.
  unfold handle_set_admin, SetAdmin_try_accounts.
  apply safe_bind; [safe_steps|intros d _]. safe_steps.
Qed.
Lemma safe_set_enable_slot signers st a s : safe (handle_set_enable_slot signers st a s).
Proof.
  unfold handle_set_enable_slot, SetEnableSlot_try_accounts.
  apply safe_bind; [safe_steps|intros d _]. safe_steps.
Qed.

#[local] Hint Resolve safe_new_distributor safe_new_claim safe_claim_locked safe_clawback
  safe_set_root safe_close_distributor safe_set_clawback_start_ts safe_set_clawback_receiver
  safe_set_admin safe_set_enable_slot : distributor.

(** C22. In a well-formed state no instruction panics except
    [close_claim_status], which always panics once its account checks pass and
    so can never succeed; the unchecked subtractions of [set_root] and
    [claim_locked] cannot overflow.  No CPI is ever refused for its signer
    seeds either: the stored mint, version and bump always derive the
    distributor's own address. *)
Theorem process_instruction_never_panics signers st ix e :
  state_ok st → process_instruction signers st ix = Err e →
  match ix with
  | ICloseClaimStatus _ => True
  | _ => e ≠ Panic ∧ e ≠ PrivilegeEscalation
  end ∧
  (∀ a st', process_instruction signers st (ICloseClaimStatus a) ≠ Ok st').
Proof.
  intros Hok He. split; [|intros a st'; apply handle_close_status_Err].
  destruct ix; try done; simpl in He; revert He;
    match goal with |- ?r = Err _ → _ => assert (safe r) as Hs by auto with distributor end; apply Hs.
Qed.
End no_panic.

(** A claim for the wrong amounts on the scenario's distributor. *)
Lemma process_instruction_never_panics_witness :
  Custom InvalidProof ≠ Panic ∧ Custom InvalidProof ≠ PrivilegeEscalation.
Proof.
  apply (process_instruction_never_panics {[ sc_bob ]} sc_state2
           (INewClaim sc_bob_claim 105 7 sc_bob_proof) (Custom InvalidProof) sc_state2_ok).
  apply sc_failures.
Defined.
