(* ===== verification/Invariants.v ===== *)
(** * Theorems about every execution of the distributor program *)
From S2P Require Import Prelude Machine Hashing TreeNode ProgramError ClaimStatus Solana Token.
From S2P Require Import State Handlers Program Execution Scenario Safety.

Section invariants.
Context `{Hasher} `{AddressDerivation} `{TokenProgram} `{!TokenProgramSpec}.
Implicit Types (st : State) (signers : gset Pubkey) (k : Pubkey) (d : MerkleDistributor).

(** C23. Every state reachable from a ledger without program accounts is well
    formed: counters and parameters fit their types, every distributor sits at
    the address its mint, version and bump derive and owns its vault (the
    associated token account), vesting starts before it ends, the clawback
    starts at least a day after the end, never more is claimed than
    [max_total_claim] or by more nodes than [max_num_nodes], no claimant is
    recorded above their amounts, and every claim status sits at the address of
    its claimant and distributor. *)
Theorem reachable_state_ok allowed st st' :
  st_accounts st = ∅ → is_u64 (curr_slot st) → is_i64 (curr_ts st) →
  (∀ p a, tk_accounts (st_tokens st) !! p = Some a → 0 ≤ ta_amount a) →
  steps allowed st st' → state_ok st'.
Proof.
  intros Hempty Hs Ht Hnn Hsteps. eapply steps_ok; [|done].
  split; try done; intros k x; by rewrite Hempty, lookup_empty.
Qed.

(** C24. The dispatcher refines the abstract transition system: from a
    well-formed state, an instruction that succeeds is one of the seven abstract
    transitions (creation, an admin change, a claim, a withdrawal, a clawback, a
    re-root, a closure) and leaves a well-formed state. *)
Theorem process_instruction_refines signers st ix st' :
  state_ok st → ix_typed ix → process_instruction signers st ix = Ok st' →
  effect signers st ix st' ∧ state_ok st'.
Proof.
  intros Hok Hty Hp. pose proof (process_instruction_effect _ _ _ _ (state_ok_typed _ Hok) Hty Hp).
  eauto using effect_ok.
Qed.

(** C8. Solvency: once the vault of a non-closable distributor covers
    [max_total_claim - total_amount_claimed], it keeps covering it through every
    sequence of claims, withdrawals, re-rootings with their burns, admin
    changes, instructions on other distributors and foreign token transactions,
    until the clawback. *)
Theorem vault_stays_solvent allowed st st' k :
  state_ok st → solvent st k → steps allowed st st' → solvent st' k.
Proof. apply steps_solvent. Qed.

(** C9. Nobody claims twice: a successful [new_claim] leaves a claim status that
    survives every later step with its amounts unchanged (only withdrawals of
    the locked part are added), and every later [new_claim] of the same claimant
    on the same distributor fails, whatever its amounts, proof or signers. *)
Theorem no_double_claim allowed signers st a u l proof st1 st2 :
  state_ok st → ix_typed (INewClaim a u l proof) →
  process_instruction signers st (INewClaim a u l proof) = Ok st1 → steps allowed st1 st2 →
  (∃ cs, st_accounts st2 !! claim_status_address (nc_claimant a) (nc_distributor a)
           = Some (ClaimStatusAcc cs) ∧
     cs_claimant cs = nc_claimant a ∧ cs_distributor cs = nc_distributor a ∧
     cs_unlocked_amount cs = u ∧ cs_locked_amount cs = l) ∧
  (∀ signers' a' u' l' proof' st3,
     nc_claimant a' = nc_claimant a → nc_distributor a' = nc_distributor a →
     process_instruction signers' st2 (INewClaim a' u' l' proof') ≠ Ok st3).
Proof.
  intros Hok [Hu Hl] Hp Hsteps. pose proof Hp as Heff.
  apply process_instruction_effect in Heff; [|by apply state_ok_typed|done].
  simpl in Hp. apply handle_new_claim_Ok in Hp as (d & v & r & ts & Hacc & ->);
    [|by apply accounts_typed_window, state_ok_typed|done].
  destruct (steps_status allowed _ st2 (nc_claim_status a)
    (claim_record st d (nc_distributor a) (nc_claimant a) u l) (effect_ok _ _ _ _ Hok Heff))
    as (cs & Hcs & Hg & _); [simpl; apply lookup_insert_eq|done|].
  rewrite (nca_status _ _ _ _ _ _ _ _ _ _ Hacc) in Hcs. split.
  - exists cs. split; [done|]. rewrite Hg. done.
  - intros signers' a' u' l' proof' st3 Hc Hd Hp'. simpl in Hp'. unfold handle_new_claim in Hp'.
    apply bind_Ok in Hp' as (st4 & Hacc' & _).
    apply NewClaim_try_accounts_Ok in Hacc' as (_ & _ & _ & _ & _ & _ & _ & Haddr & Hfree & _).
    rewrite Haddr, Hc, Hd in Hfree. congruence.
Qed.

(** C20. Only the admin configures: an instruction that the distributor's admin
    did not sign leaves root, [max_total_claim], clawback start and receiver,
    admin and enable slot as they were, and cannot close the account.  No
    instruction at all changes bump, version, mint, vault, [max_num_nodes], the
    vesting window or the closable flag, lowers a counter, raises
    [max_total_claim], or re-roots unless the mint is a DFX mint and claims are
    paused. *)
Theorem configuration_needs_admin signers st ix st' k d :
  state_ok st → ix_typed ix → process_instruction signers st ix = Ok st' →
  st_accounts st !! k = Some (DistributorAcc d) →
  (st_accounts st' !! k = None ∧ md_closable d = true ∧ md_admin d ∈ signers) ∨
  ∃ d', st_accounts st' !! k = Some (DistributorAcc d') ∧ evolves signers st d d'.
Proof.
  intros Hok Hty Hp Hd. eapply effect_distributor; [done|done|].
  eapply process_instruction_effect; eauto using state_ok_typed.
Qed.

(** C18. Clawback, whoever sends it, is refused before the clawback start (hence
    until a day after vesting ended) and after a previous clawback; when it
    succeeds it moves the whole vault to the configured receiver, and to nobody
    else, leaves the vault empty, and only sets [clawed_back]. *)
Theorem clawback_late_and_complete signers st a st' :
  state_ok st → process_instruction signers st (IClawback a) = Ok st' →
  ∃ d vault, st_accounts st !! cb_distributor a = Some (DistributorAcc d) ∧
    tk_accounts (st_tokens st) !! md_token_vault d = Some vault ∧
    md_clawed_back d = false ∧
    md_end_ts d + SECONDS_PER_DAY ≤ md_clawback_start_ts d ≤ curr_ts st ∧
    st_accounts st' = <[cb_distributor a := DistributorAcc (set_clawed_back true d)]> (st_accounts st) ∧
    (md_clawback_receiver d ≠ md_token_vault d →
     ∃ vault' receiver, tk_accounts (st_tokens st') !! md_token_vault d = Some vault' ∧
       ta_amount vault' = 0 ∧
       tk_accounts (st_tokens st) !! md_clawback_receiver d = Some receiver ∧
       tk_accounts (st_tokens st') !! md_clawback_receiver d
         = Some (set_amount receiver (ta_amount receiver + ta_amount vault)) ∧
       ∀ p, p ≠ md_token_vault d → p ≠ md_clawback_receiver d →
         tk_accounts (st_tokens st') !! p = tk_accounts (st_tokens st) !! p).
Proof.
  intros Hok Hp. simpl in Hp.
  apply handle_clawback_Ok in Hp as (d & v & r & ts & Hd & Hv & _ & _ & _ & _ & Hf & Ht & Hcb & Hts
    & _ & Htr & ->).
  rewrite Hf, Ht in *. exists d, v.
  pose proof (do_clawback _ _ _ (ok_distributors st Hok _ _ Hd)).
  split_and!; [done..|]. intros Hne.
  destruct (token_transfer_effect _ _ _ _ _ _ Htr) as (x & y & Hx & Hy & _ & _ & _ & _ & Hc).
  rewrite bool_decide_eq_false_2 in Hc by done.
  destruct Hc as (x' & (_ & _ & Ham & _ & _)%debited_fields & Hacc).
  assert (x = v) as -> by congruence. exists x', y. simpl. rewrite Hacc.
  split_and!; [by rewrite lookup_insert_ne, lookup_insert_eq|lia|done|by rewrite lookup_insert_eq|].
  intros p Hp1 Hp2. by rewrite !lookup_insert_ne by done.
Qed.

(** The instruction concerns the distributor [k] and pays or re-roots. *)
Definition pays_from k (ix : Instruction) : Prop :=
  match ix with
  | INewClaim a _ _ _ => nc_distributor a = k
  | IClaimLocked a => cl_distributor a = k
  | IClawback a => cb_distributor a = k
  | ISetRoot a _ _ _ _ => sr_distributor a = k
  | ISetClawbackStartTs a _ => sc_distributor a = k
  | _ => False
  end.

(** C19. Clawback is final: once a non-closable distributor is clawed back it
    stays so, with its counters, root and maximum frozen, and in every later
    state claims, withdrawals, a second clawback, re-rooting and rescheduling
    the clawback all fail on it. *)
Theorem clawback_is_final allowed st st' k d :
  state_ok st → st_accounts st !! k = Some (DistributorAcc d) →
  md_clawed_back d = true → md_closable d = false → steps allowed st st' →
  (∃ d', st_accounts st' !! k = Some (DistributorAcc d') ∧ md_clawed_back d' = true ∧
     same_counters d d' ∧ md_root d' = md_root d ∧
     md_max_total_claim d' = md_max_total_claim d) ∧
  (∀ signers ix st2, ix_typed ix → pays_from k ix → process_instruction signers st' ix ≠ Ok st2).
Proof.
  intros Hok Hd Hcb Hcl Hsteps.
  assert (∃ d', st_accounts st' !! k = Some (DistributorAcc d') ∧ md_clawed_back d' = true ∧
    same_counters d d' ∧ md_root d' = md_root d ∧
    md_max_total_claim d' = md_max_total_claim d) as (d' & Hd' & Hcb' & Hrest).
  { revert d Hd Hcb Hcl. induction Hsteps as [|s s1 s2 Hstep _ IH]; intros d Hd Hcb Hcl.
    { exists d. by split_and!. }
    destruct (step_distributor _ _ _ k d Hok Hd Hcl Hstep) as (sg & d1 & Hd1 & Hev).
    destruct (ev_final _ _ _ _ Hev Hcb) as (Hcb1 & (C1 & C2 & C3) & Hr & Hm & _).
    destruct (ev_identity _ _ _ _ Hev) as (_ & _ & _ & _ & _ & _ & _ & Hcl1).
    destruct (IH (step_ok _ _ _ Hok Hstep) d1) as (d2 & ? & ? & (?&?&?) & ? & ?); [done..|congruence|].
    exists d2. unfold same_counters. split_and!; congruence. }
  split; [eauto 10|]. pose proof (steps_ok _ _ _ Hok Hsteps) as Hok'.
  pose proof (state_ok_typed _ Hok') as Htyp.
  intros signers ix st2 Hty Hk Hp. destruct ix; simpl in Hk; try done; subst k; simpl in Hp.
  - apply handle_set_root_Ok in Hp as (d0 & v & s & b & ts & ? & _ & _ & _ & _ & _ & _ & Hval & _).
    apply validate_set_root_Ok in Hval as (_ & ? & _). congruence.
  - destruct Hty. apply handle_new_claim_Ok in Hp as (d0 & v & r & ts & [] & _); 
      [congruence|by apply accounts_typed_window|done].
  - apply handle_claim_locked_Ok in Hp as (d0 & cs & v & r & am & ts & [] & _);
      [congruence|by apply accounts_typed_locked].
  - apply handle_clawback_Ok in Hp as (d0 & v & r & ts & Hp). destruct_and! Hp. congruence.
  - apply handle_set_clawback_start_ts_Ok in Hp as (d0 & [? _] & ? & _). congruence.
Qed.
End invariants.

(** ** Witnesses, from the scenario *)
Lemma sc_ix_alice_typed : ix_typed sc_ix_alice.
Proof. vm_compute. intuition congruence. Qed.

Lemma sc_solvent1 : solvent sc_state1 sc_dist.
Proof.
  exists (sc_distributor_at sc_state1).
  split; [apply sc_distributor_lookup; vm_compute; reflexivity|].
  split; [vm_compute; reflexivity|]. right. exists (sc_vault_at sc_state1). split; [split|].
  - replace (md_token_vault (sc_distributor_at sc_state1)) with sc_vault by (vm_compute; reflexivity).
    apply sc_vault_lookup. vm_compute. reflexivity.
  - vm_compute. reflexivity.
  - vm_compute. congruence.
Qed.

Lemma reachable_state_ok_witness : state_ok sc_state6.
Proof.
  apply (reachable_state_ok any_ix sc_state0 sc_state6);
    [reflexivity|vm_compute; intuition congruence|vm_compute; intuition congruence
    |apply sc_state0_ok|exact sc_steps_0_6].
Defined.

Lemma process_instruction_refines_witness :
  effect {[ sc_alice ]} sc_state1 sc_ix_alice sc_state2 ∧ state_ok sc_state2.
Proof.
  exact (process_instruction_refines {[ sc_alice ]} sc_state1 sc_ix_alice sc_state2
           sc_state1_ok sc_ix_alice_typed sc_step2).
Defined.

Lemma vault_stays_solvent_witness : solvent sc_state4 sc_dist.
Proof.
  exact (vault_stays_solvent any_ix sc_state1 sc_state4 sc_dist sc_state1_ok sc_solvent1
           sc_steps_1_4).
Defined.

Lemma no_double_claim_witness :
  process_instruction {[ sc_alice ]} sc_state6 sc_ix_alice ≠ Ok sc_state6.
Proof.
  exact (proj2 (no_double_claim any_ix {[ sc_alice ]} sc_state1 sc_alice_claim 105 7 sc_alice_proof
                  sc_state2 sc_state6 sc_state1_ok sc_ix_alice_typed sc_step2 sc_steps_2_6)
           {[ sc_alice ]} sc_alice_claim 105 7 sc_alice_proof sc_state6 eq_refl eq_refl).
Defined.

Lemma configuration_needs_admin_witness :
  (st_accounts sc_state2 !! sc_dist = None ∧ md_closable (sc_distributor_at sc_state1) = true ∧
   md_admin (sc_distributor_at sc_state1) ∈ ({[ sc_alice ]} : gset Pubkey)) ∨
  ∃ d', st_accounts sc_state2 !! sc_dist = Some (DistributorAcc d') ∧
    evolves {[ sc_alice ]} sc_state1 (sc_distributor_at sc_state1) d'.
Proof.
  apply (configuration_needs_admin {[ sc_alice ]} sc_state1 sc_ix_alice sc_state2 sc_dist
           (sc_distributor_at sc_state1) sc_state1_ok sc_ix_alice_typed sc_step2).
  apply sc_distributor_lookup. vm_compute. reflexivity.
Defined.

Lemma clawback_late_and_complete_witness :
  ∃ d vault, st_accounts sc_state5 !! sc_dist = Some (DistributorAcc d) ∧
    tk_accounts (st_tokens sc_state5) !! md_token_vault d = Some vault ∧
    md_end_ts d + SECONDS_PER_DAY ≤ md_clawback_start_ts d ≤ curr_ts sc_state5.
Proof.
  destruct (clawback_late_and_complete {[ sc_crank ]} sc_state5 sc_clawback_accounts sc_state6
              sc_state5_ok sc_step6) as (d & vault & Hd & Hv & _ & Hts & _).
  exists d, vault. exact (conj Hd (conj Hv Hts)).
Defined.

Lemma sc_final6 :
  st_accounts sc_state6 !! sc_dist = Some (DistributorAcc (sc_distributor_at sc_state6)) ∧
  md_clawed_back (sc_distributor_at sc_state6) = true ∧
  md_closable (sc_distributor_at sc_state6) = false.
Proof.
  split; [apply sc_distributor_lookup; vm_compute; reflexivity|].
  split; vm_compute; reflexivity.
Qed.

Lemma sc_ix_bob_typed : ix_typed sc_ix_bob.
Proof. vm_compute. intuition congruence. Qed.

Lemma clawback_is_final_witness :
  process_instruction {[ sc_bob ]} sc_state6 sc_ix_bob ≠ Ok sc_state6.
Proof.
  destruct sc_final6 as (Hd & Hcb & Hcl).
  exact (proj2 (clawback_is_final any_ix sc_state6 sc_state6 sc_dist (sc_distributor_at sc_state6)
                  (steps_ok _ _ _ sc_state0_ok sc_steps_0_6) Hd Hcb Hcl (rtc_refl _ _))
           {[ sc_bob ]} sc_ix_bob sc_state6 sc_ix_bob_typed eq_refl).
Defined.
