(* ===== verification/HandlerTheorems.v ===== *)
(** * What each instruction does to the ledger

    Functional correctness of the instructions that move tokens or create
    accounts: exactly which accounts change, by how much, and exactly when the
    instruction is accepted. *)
From S2P Require Import Prelude Machine Hashing TreeNode ProgramError ClaimStatus Solana Token.
From S2P Require Import State Handlers Program Execution Scenario Safety NoPanic.

Section handler_theorems.
Context `{Hasher} `{AddressDerivation} `{!AddressDerivationSpec} `{TokenProgram} `{!TokenProgramSpec}.
Implicit Types (st : State) (signers : gset Pubkey) (k : Pubkey) (d : MerkleDistributor).

(** Exactly [amount] tokens moved from [from] to [to], and nothing else. *)
Definition moved (ts ts' : TokenState) (from to : Pubkey) (amount : Z) : Prop :=
  tk_mints ts' = tk_mints ts ∧
  (∃ a a', tk_accounts ts !! from = Some a ∧ tk_accounts ts' !! from = Some a' ∧
     ta_amount a' = ta_amount a - amount ∧ amount ≤ ta_amount a) ∧
  (∃ b, tk_accounts ts !! to = Some b ∧
     tk_accounts ts' !! to = Some (set_amount b (ta_amount b + amount))) ∧
  (∀ p, p ≠ from → p ≠ to → tk_accounts ts' !! p = tk_accounts ts !! p).

Lemma transfer_moved ts from to authority amount ts' :
  token_transfer ts from to authority amount = Some ts' → from ≠ to → moved ts ts' from to amount.
Proof.
  intros Ht Hne.
  destruct (token_transfer_effect _ _ _ _ _ _ Ht) as (x & y & Hx & Hy & _ & _ & Hle & Hm & Hc).
  rewrite bool_decide_eq_false_2 in Hc by done.
  destruct Hc as (x' & (_ & _ & Ham & _ & _)%debited_fields & Hacc).
  unfold moved. rewrite Hacc. split_and!; [done| | |].
  - exists x, x'. by rewrite lookup_insert_ne, lookup_insert_eq.
  - exists y. by rewrite lookup_insert_eq.
  - intros p Hp1 Hp2. by rewrite !lookup_insert_ne by done.
Qed.

(** The vault and the claimant's account differ: a distributor cannot sign. *)
Lemma vault_ne_dest st signers k d claimant to dest :
  state_ok st → signers_ok st signers → st_accounts st !! k = Some (DistributorAcc d) →
  claimant ∈ signers → tk_accounts (st_tokens st) !! to = Some dest → ta_owner dest = claimant →
  md_token_vault d ≠ to.
Proof.
  intros Hok Hsig Hd Hc Hto Ho Heq.
  destruct (do_vault_owner _ _ _ (ok_distributors st Hok k d Hd)) as (a & Ha & Hown).
  apply (Hsig k); [by exists d|]. congruence.
Qed.

(** C10. A successful [new_claim] proves the claimant's signature and a valid
    proof for exactly the claimed amounts, pays exactly the vested part of the
    unlocked amount from the vault to a token account the claimant owns, creates
    the claim status with the amounts, books payment and forgone rest on the
    distributor, logs the event, and changes nothing else. *)
Theorem new_claim_pays_exactly_vested signers st a u l proof st' :
  state_ok st → signers_ok st signers → ix_typed (INewClaim a u l proof) →
  process_instruction signers st (INewClaim a u l proof) = Ok st' →
  ∃ d dest,
    let now := curr_ts st in
    let pay := vested u now (md_start_ts d) (md_end_ts d) in
    st_accounts st !! nc_distributor a = Some (DistributorAcc d) ∧
    nc_claimant a ∈ signers ∧
    verify proof (md_root d) (claim_leaf (nc_claimant a) u l) = true ∧
    md_clawed_back d = false ∧ md_enable_slot d ≤ curr_slot st ∧ md_start_ts d ≤ now ∧
    tk_accounts (st_tokens st) !! nc_to a = Some dest ∧ ta_owner dest = nc_claimant a ∧
    moved (st_tokens st) (st_tokens st') (md_token_vault d) (nc_to a) pay ∧
    st_accounts st' =
      <[claim_status_address (nc_claimant a) (nc_distributor a) :=
          ClaimStatusAcc (mkClaimStatus (nc_claimant a) l 0 u pay (md_closable d) (nc_distributor a))]>
      (<[nc_distributor a := DistributorAcc
           (set_total_amount_forgone (md_total_amount_forgone d + (u - pay))
             (set_total_amount_claimed (md_total_amount_claimed d + pay)
               (set_num_nodes_claimed (md_num_nodes_claimed d + 1) d)))]> (st_accounts st)) ∧
    st_events st' = st_events st ++ [NewClaimEvent (nc_claimant a) now pay (u - pay)].
Proof.
  intros Hok Hsig [Hu Hl] Hp. simpl in Hp.
  apply handle_new_claim_Ok in Hp as (d & v & dest & ts & Hacc & ->);
    [|by apply accounts_typed_window, state_ok_typed|done].
  destruct Hacc. destruct nca_accounts as (? & ? & Hfrom & Hown). exists d, dest. simpl.
  split_and!; try done; [|by rewrite nca_status].
  rewrite Hfrom in nca_transfer. eapply transfer_moved; [done|]. by eapply vault_ne_dest.
Qed.

(** C11. A successful [claim_locked] pays the claimant exactly what vesting has
    released of the locked amount and was not withdrawn before (a positive
    amount), from the vault to a token account the claimant owns; the status
    then records exactly the released amount as withdrawn, never more than the
    locked amount, and nothing else changes. *)
Theorem claim_locked_pays_exactly_released signers st a st' :
  state_ok st → signers_ok st signers →
  process_instruction signers st (IClaimLocked a) = Ok st' →
  ∃ d cs dest,
    let rel := released (cs_locked_amount cs) (curr_ts st) (md_start_ts d) (md_end_ts d) in
    let pay := rel - cs_locked_amount_withdrawn cs in
    st_accounts st !! cl_distributor a = Some (DistributorAcc d) ∧
    st_accounts st !! claim_status_address (cl_claimant a) (cl_distributor a)
      = Some (ClaimStatusAcc cs) ∧
    cl_claimant a ∈ signers ∧ md_clawed_back d = false ∧ md_enable_slot d ≤ curr_slot st ∧
    0 < pay ∧ rel ≤ cs_locked_amount cs ∧
    tk_accounts (st_tokens st) !! cl_to a = Some dest ∧ ta_owner dest = cl_claimant a ∧
    moved (st_tokens st) (st_tokens st') (md_token_vault d) (cl_to a) pay ∧
    st_accounts st' =
      <[claim_status_address (cl_claimant a) (cl_distributor a) :=
          ClaimStatusAcc (set_locked_amount_withdrawn cs rel)]>
      (<[cl_distributor a := DistributorAcc
           (set_total_amount_claimed (md_total_amount_claimed d + pay) d)]> (st_accounts st)) ∧
    st_events st' = st_events st ++ [ClaimedEvent (cl_claimant a) pay].
Proof.
  intros Hok Hsig Hp. simpl in Hp.
  apply handle_claim_locked_Ok in Hp as (d & cs & v & dest & amount & ts & Hacc & ->);
    [|by apply accounts_typed_locked, state_ok_typed].
  destruct Hacc. destruct cla_accounts as (? & ? & Hfrom & Hown). exists d, cs, dest. simpl.
  destruct (so_wf _ _ (ok_statuses st Hok _ _ cla_status)) as (Hlk & _).
  pose proof (released_bounds (cs_locked_amount cs) (curr_ts st) (md_start_ts d) (md_end_ts d)
    ltac:(zlia)). subst amount.
  rewrite <- cla_address. split_and!; try done; try lia.
  - rewrite Hfrom in cla_transfer. eapply transfer_moved; [done|]. by eapply vault_ne_dest.
  - do 3 f_equal. lia.
Qed.

(** C17. [set_root] is accepted only under its checks, and then burns exactly
    the decrease of [max_total_claim] from vault and supply, installs the new root
    and maximum, logs the event, and changes nothing else; afterwards the vault still covers
    [new_max_total_claim - total_amount_claimed]. *)
Theorem set_root_burns_exactly_the_decrease signers st a new_root old_root n new_max st' :
  state_ok st → ix_typed (ISetRoot a new_root old_root n new_max) →
  process_instruction signers st (ISetRoot a new_root old_root n new_max) = Ok st' →
  ∃ d vault vault' supply,
    let burned := md_max_total_claim d - new_max in
    st_accounts st !! sr_distributor a = Some (DistributorAcc d) ∧
    md_admin d ∈ signers ∧ md_mint d ∈ DFX_MINTS ∧ md_clawed_back d = false ∧
    md_enable_slot d = U64_MAX ∧ md_root d = old_root ∧ md_num_nodes_claimed d = n ∧
    md_total_amount_claimed d + md_total_amount_forgone d ≤ new_max ≤ md_max_total_claim d ∧
    tk_accounts (st_tokens st) !! md_token_vault d = Some vault ∧
    tk_accounts (st_tokens st') !! md_token_vault d = Some vault' ∧
    ta_amount vault' = ta_amount vault - burned ∧
    new_max - md_total_amount_claimed d ≤ ta_amount vault' ∧
    tk_mints (st_tokens st) !! md_mint d = Some supply ∧
    tk_mints (st_tokens st') !! md_mint d = Some (supply - burned) ∧
    (∀ p, p ≠ md_token_vault d → tk_accounts (st_tokens st') !! p = tk_accounts (st_tokens st) !! p) ∧
    st_accounts st' = <[sr_distributor a := DistributorAcc
      (set_max_total_claim new_max (set_root new_root d))]> (st_accounts st) ∧
    st_events st' = st_events st ++
      [SetRootEvent (sr_distributor a) (md_root d) new_root (md_max_total_claim d) new_max burned].
Proof.
  intros Hok Hty Hp. simpl in Hp.
  apply handle_set_root_Ok in Hp as (d & v & s & b & ts & Hd & Hv & Hs & Hsg & Hvk & Hmk & Hadm &
    Hval & Hb & ->).
  apply validate_set_root_Ok in Hval as (? & ? & ? & ? & ? & ? & ? & ? & Hcov & ->).
  rewrite Hvk, Hmk in *. exists d, v.
  assert (∃ v', tk_accounts ts !! md_token_vault d = Some v' ∧
    ta_amount v' = ta_amount v - (md_max_total_claim d - new_max) ∧
    tk_mints ts !! md_mint d = Some (s - (md_max_total_claim d - new_max)) ∧
    ∀ p, p ≠ md_token_vault d → tk_accounts ts !! p = tk_accounts (st_tokens st) !! p)
    as (v' & Hv' & Ham & Hsup & Hrest).
  { destruct (Z.ltb_spec 0 (md_max_total_claim d - new_max)).
    - destruct Hb as [_ Hb]. destruct (token_burn_effect _ _ _ _ _ _ Hb)
        as (x & s' & x' & Hx & Hs' & _ & _ & _ & (_ & _ & ? & _ & _)%debited_fields & -> & ->).
      exists x'. rewrite !lookup_insert_eq. split_and!; [done|congruence|congruence|].
      intros p Hp. by rewrite lookup_insert_ne.
    - subst ts. exists v. replace (md_max_total_claim d - new_max) with 0 by lia.
      rewrite !Z.sub_0_r. by split_and!. }
  exists v', s. simpl. split_and!; try done; try lia. by rewrite <- Hadm.
Qed.

(** C25. [new_distributor] accepts exactly the documented parameters, signed by
    the fixed admin key, on an unused derived address with its associated token
    account as vault, and stores exactly those parameters with zero counters.
    The end and the clawback start must lie in the future and the clawback at
    least a day after the end; the start only has to precede the end. *)
Theorem new_distributor_accepts_exactly signers st a p st' :
  process_instruction signers st (INewDistributor a p) = Ok st' ↔
  (∃ receiver vault supply,
    tk_accounts (st_tokens st) !! nd_clawback_receiver a = Some receiver ∧
    tk_mints (st_tokens st) !! nd_mint a = Some supply ∧
    tk_accounts (st_tokens st) !! nd_token_vault a = Some vault ∧
    ta_mint receiver = nd_mint a ∧ ta_owner vault = nd_distributor a) ∧
  nd_admin a ∈ signers ∧ nd_admin a = ADMIN_ID ∧
  nd_distributor a = distributor_address (nd_mint a) (nda_version p) ∧
  st_accounts st !! nd_distributor a = None ∧
  nd_token_vault a = get_associated_token_address (nd_distributor a) (nd_mint a) ∧
  nda_start_vesting_ts p < nda_end_vesting_ts p ∧ curr_ts st < nda_end_vesting_ts p ∧
  is_i64 (nda_end_vesting_ts p + SECONDS_PER_DAY) ∧
  nda_end_vesting_ts p + SECONDS_PER_DAY ≤ nda_clawback_start_ts p ∧
  st' = put (nd_distributor a) (DistributorAcc (initial_distributor a p)) st.
Proof.
  simpl. rewrite handle_new_distributor_Ok. naive_solver.
Qed.
End handler_theorems.

(** ** Witnesses, from the scenario *)
Lemma sc_signers2 : signers_ok sc_state1 {[ sc_alice ]}.
Proof. unfold signers_ok. apply sc_signers_ok. vm_compute. reflexivity. Qed.
Lemma sc_signers4 : signers_ok sc_state3 {[ sc_alice ]}.
Proof. unfold signers_ok. apply sc_signers_ok. vm_compute. reflexivity. Qed.
Lemma sc_alice_typed : ix_typed (INewClaim sc_alice_claim 105 7 sc_alice_proof).
Proof. vm_compute. intuition congruence. Qed.

Lemma new_claim_pays_exactly_vested_witness :
  ∃ d dest, st_accounts sc_state1 !! sc_dist = Some (DistributorAcc d) ∧
    tk_accounts (st_tokens sc_state1) !! sc_alice_token = Some dest ∧ ta_owner dest = sc_alice ∧
    moved (st_tokens sc_state1) (st_tokens sc_state2) (md_token_vault d) sc_alice_token
      (vested 105 (curr_ts sc_state1) (md_start_ts d) (md_end_ts d)).
Proof.
  destruct (new_claim_pays_exactly_vested {[ sc_alice ]} sc_state1 sc_alice_claim 105 7
    sc_alice_proof sc_state2 sc_state1_ok sc_signers2 sc_alice_typed sc_step2)
    as (d & dest & Hd & _ & _ & _ & _ & _ & Hto & Ho & Hm & _).
  exists d, dest. exact (conj Hd (conj Hto (conj Ho Hm))).
Defined.

Lemma claim_locked_pays_exactly_released_witness :
  ∃ d cs dest, st_accounts sc_state3 !! sc_dist = Some (DistributorAcc d) ∧
    tk_accounts (st_tokens sc_state3) !! sc_alice_token = Some dest ∧
    0 < released (cs_locked_amount cs) (curr_ts sc_state3) (md_start_ts d) (md_end_ts d)
        - cs_locked_amount_withdrawn cs.
Proof.
  destruct (claim_locked_pays_exactly_released {[ sc_alice ]} sc_state3 sc_alice_locked sc_state4
    sc_state3_ok sc_signers4 sc_step4)
    as (d & cs & dest & Hd & _ & _ & _ & _ & Hpos & _ & Hto & _).
  exists d, cs, dest. exact (conj Hd (conj Hto Hpos)).
Defined.

(** The admin pauses the distributor and takes 2 of its 152 tokens off the tree. *)
Definition sc_pause : Instruction := ISetEnableSlot (mkSetEnableSlot sc_dist ADMIN_ID) U64_MAX.
Definition sc_paused : State := run {[ ADMIN_ID ]} sc_state1 sc_pause.
Definition sc_reroot_accounts : SetRoot := mkSetRoot sc_dist sc_vault sc_mint_key ADMIN_ID.
Definition sc_reroot : Instruction := ISetRoot sc_reroot_accounts (key 5) sc_root 0 150.
Definition sc_rerooted : State := run {[ ADMIN_ID ]} sc_paused sc_reroot.

Lemma sc_step_pause : process_instruction {[ ADMIN_ID ]} sc_state1 sc_pause = Ok sc_paused.
Proof. apply run_ok. vm_compute. reflexivity. Qed.
Lemma sc_step_reroot : process_instruction {[ ADMIN_ID ]} sc_paused sc_reroot = Ok sc_rerooted.
Proof. apply run_ok. vm_compute. reflexivity. Qed.

Lemma sc_paused_ok : state_ok sc_paused.
Proof.
  eapply effect_ok; [exact sc_state1_ok|].
  eapply process_instruction_effect; [apply state_ok_typed, sc_state1_ok| |exact sc_step_pause].
  vm_compute. intuition congruence.
Qed.
Lemma sc_reroot_typed : ix_typed sc_reroot.
Proof. vm_compute. intuition congruence. Qed.

Lemma set_root_burns_exactly_the_decrease_witness :
  ∃ d vault vault', st_accounts sc_paused !! sc_dist = Some (DistributorAcc d) ∧
    tk_accounts (st_tokens sc_paused) !! md_token_vault d = Some vault ∧
    tk_accounts (st_tokens sc_rerooted) !! md_token_vault d = Some vault' ∧
    ta_amount vault' = ta_amount vault - (md_max_total_claim d - 150).
Proof.
  destruct (set_root_burns_exactly_the_decrease {[ ADMIN_ID ]} sc_paused sc_reroot_accounts (key 5)
    sc_root 0 150 sc_rerooted sc_paused_ok sc_reroot_typed sc_step_reroot)
    as (d & v & v' & s & Hd & _ & _ & _ & _ & _ & _ & _ & Hv & Hv' & Ham & _).
  exists d, v, v'. exact (conj Hd (conj Hv (conj Hv' Ham))).
Defined.
