(* ===== verification/Ledger.v ===== *)
(** * The distributor's counters are the sums over its claim statuses

    [total_amount_claimed], [total_amount_forgone] and [num_nodes_claimed] of a
    distributor that is not closable equal, in every reachable state, what its
    claim statuses record.  [claim_locked] trusts the address of the status it
    is given, so the statement is relative to a set of claimants and
    distributors whose status addresses do not collide. *)
From S2P Require Import Prelude Machine Hashing TreeNode ProgramError ClaimStatus Solana Token.
From S2P Require Import State Handlers Program Execution Scenario Safety.

(** Sum of [f] over the claim statuses of distributor [k]. *)
Definition status_weight (f : ClaimStatus → Z) (k : Pubkey) (acc : ProgramAccount) : Z :=
  match acc with
  | ClaimStatusAcc cs => if bool_decide (cs_distributor cs = k) then f cs else 0
  | DistributorAcc _ => 0
  end.
Definition ledger_sum (f : ClaimStatus → Z) (k : Pubkey) (st : State) : Z :=
  sum_map (status_weight f k) (st_accounts st).

Definition paid (cs : ClaimStatus) : Z := cs_unlocked_amount_claimed cs + cs_locked_amount_withdrawn cs.
Definition forgone (cs : ClaimStatus) : Z := cs_unlocked_amount cs - cs_unlocked_amount_claimed cs.
Definition one (_ : ClaimStatus) : Z := 1.

(** The counters of [d] agree with the statuses. *)
Record ledger_ok (st : State) (k : Pubkey) (d : MerkleDistributor) : Prop := {
  lo_claimed : md_total_amount_claimed d = ledger_sum paid k st;
  lo_forgone : md_total_amount_forgone d = ledger_sum forgone k st;
  lo_nodes : md_num_nodes_claimed d = ledger_sum one k st
}.

Section sums.
Context (f : ClaimStatus → Z) (k : Pubkey).
Implicit Types (st : State) (m : gmap Pubkey ProgramAccount).

Definition not_status m j : Prop := ∀ cs, m !! j ≠ Some (ClaimStatusAcc cs).

Lemma sum_put_distributor m j d :
  not_status m j →
  sum_map (status_weight f k) (<[j := DistributorAcc d]> m) = sum_map (status_weight f k) m.
Proof.
  intros Hn. destruct (m !! j) as [[d0|cs]|] eqn:Hj.
  - rewrite (sum_map_update _ _ _ _ _ Hj). simpl. lia.
  - by destruct (Hn cs).
  - rewrite sum_map_insert_new by done. simpl. lia.
Qed.

Lemma sum_close_distributor m j d :
  m !! j = Some (DistributorAcc d) →
  sum_map (status_weight f k) (delete j m) = sum_map (status_weight f k) m.
Proof. intros Hj. rewrite (sum_map_delete _ m j _ Hj). simpl. lia. Qed.

Lemma sum_new_status m j cs :
  m !! j = None →
  sum_map (status_weight f k) (<[j := ClaimStatusAcc cs]> m) =
  status_weight f k (ClaimStatusAcc cs) + sum_map (status_weight f k) m.
Proof. intros Hj. by rewrite sum_map_insert_new. Qed.

Lemma sum_update_status m j cs cs' :
  m !! j = Some (ClaimStatusAcc cs) →
  sum_map (status_weight f k) (<[j := ClaimStatusAcc cs']> m) =
  sum_map (status_weight f k) m - status_weight f k (ClaimStatusAcc cs)
  + status_weight f k (ClaimStatusAcc cs').
Proof. intros Hj. by rewrite (sum_map_update _ _ _ _ _ Hj). Qed.

(** A withdrawal writes the distributor and then the claim status. *)
Lemma sum_put_both m i j d d' cs cs' :
  m !! i = Some (DistributorAcc d) → m !! j = Some (ClaimStatusAcc cs) →
  sum_map (status_weight f k) (<[j := ClaimStatusAcc cs']> (<[i := DistributorAcc d']> m)) =
  sum_map (status_weight f k) m - status_weight f k (ClaimStatusAcc cs)
  + status_weight f k (ClaimStatusAcc cs').
Proof.
  intros Hi Hj. rewrite (sum_update_status _ _ cs) by (by rewrite lookup_insert_ne by congruence).
  by rewrite sum_put_distributor by (intros ? ?; congruence).
Qed.
End sums.

Section ledger.
Context `{Hasher} `{AddressDerivation} `{TokenProgram} `{!TokenProgramSpec}.
Context (U : list (Pubkey * Pubkey)).
Implicit Types (st : State) (signers : gset Pubkey) (k : Pubkey) (d : MerkleDistributor).

(** No two pairs of [U] share a claim status address. *)
Definition addresses_distinct : Prop :=
  ∀ p q, p ∈ U → q ∈ U →
    claim_status_address p.1 p.2 = claim_status_address q.1 q.2 → p = q.

Definition in_universe (ix : Instruction) : Prop :=
  match ix with
  | INewClaim a _ _ _ => (nc_claimant a, nc_distributor a) ∈ U
  | IClaimLocked a => (cl_claimant a, cl_distributor a) ∈ U
  | _ => True
  end.

Definition statuses_in st : Prop :=
  ∀ s cs, st_accounts st !! s = Some (ClaimStatusAcc cs) → (cs_claimant cs, cs_distributor cs) ∈ U.

Lemma statuses_in_step allowed st st' :
  (∀ ix, allowed ix → in_universe ix) → state_ok st → statuses_in st → step allowed st st' →
  statuses_in st'.
Proof.
  intros Hall Hok Hin Hstep. revert Hok Hin.
  destruct Hstep as [signers ix s s' Hty Hal _ Hp | s slot t ???? | s ts' _]; intros Hok Hin;
    [|done|done].
  apply process_instruction_effect in Hp; [|by apply state_ok_typed|done].
  specialize (Hall ix Hal). intros j cs Hcs.
  destruct (effect_status_origin _ _ _ _ _ _ Hp Hcs)
    as [(cs0 & Hcs0 & Hg & _)|(a & u & l & proof & d & v & r & ts & -> & _ & _ & _ & ->)]; [|done].
  rewrite Hg. apply (Hin _ _ Hcs0).
Qed.

Lemma steps_statuses_in allowed st st' :
  (∀ ix, allowed ix → in_universe ix) → state_ok st → statuses_in st → steps allowed st st' →
  statuses_in st'.
Proof.
  intros Hall Hok Hin Hsteps. induction Hsteps as [|s s1 s2 Hstep _ IH]; [done|].
  apply IH; [by eapply step_ok|by eapply statuses_in_step].
Qed.

(** The status a withdrawal updates belongs to the distributor it is paid from. *)
Lemma claim_locked_own st signers a d cs v dest amount ts :
  addresses_distinct → state_ok st → statuses_in st → in_universe (IClaimLocked a) →
  claim_locked_accepts signers st a d cs v dest amount ts →
  cs_claimant cs = cl_claimant a ∧ cs_distributor cs = cl_distributor a.
Proof.
  intros Hdist Hok Hin Hu [].
  pose proof (so_address _ _ (ok_statuses st Hok _ _ cla_status)) as Haddr.
  rewrite cla_address in Haddr.
  apply (Hdist (_, _) (_, _)) in Haddr; [by injection Haddr|done|by eapply Hin].
Qed.

(** Rewrite the sums of an updated account map. *)
Local Ltac ledger_sums :=
  unfold ledger_sum in *; simpl;
  repeat first
    [ rewrite sum_new_status by
        (repeat first [rewrite lookup_insert_ne by congruence | congruence])
    | rewrite sum_put_distributor by (intros ? ?; congruence) ];
  simpl; try lia.

(** An update that leaves the counters of the account it rewrites alone. *)
Lemma put_counters (m : gmap Pubkey ProgramAccount) k k' d d0 d1 d' :
  m !! k = Some (DistributorAcc d) → m !! k' = Some (DistributorAcc d0) →
  <[k' := DistributorAcc d1]> m !! k = Some (DistributorAcc d') → same_counters d0 d1 →
  same_counters d d'.
Proof.
  intros Hd Hd0 [[-> [= <-]]|[_ Hd']]%lookup_insert_Some Hs.
  - by assert (d0 = d) as <- by congruence.
  - by assert (d' = d) as -> by congruence.
Qed.

Lemma effect_ledger signers st ix st' k d d' :
  addresses_distinct → state_ok st → statuses_in st → in_universe ix →
  st_accounts st !! k = Some (DistributorAcc d) → ledger_ok st k d →
  effect signers st ix st' → st_accounts st' !! k = Some (DistributorAcc d') → ledger_ok st' k d'.
Proof.
  intros Hdist Hok Hin Hu Hd [Hcl Hfo Hno] Heff Hd'.
  destruct Heff as [na p v Hc | k' admin d0 d1 [Hd0 _] Hch
    | na u l proof d0 v dest ts -> Hu' Hl Hacc | ca d0 cs v dest amount ts -> Hacc
    | k' d0 v ts Hd0 Hcb Hts Hv0 Ho Ht | k' admin d0 v r r' n m b ts _ [Hd0 _] Hm Hv0 Hval Hb
    | k' admin d0 v to ts [Hd0 _] Hcb Hv0 Ht]; simpl in Hd'.
  - pose proof (co_fresh _ _ _ _ _ Hc). rewrite lookup_insert_ne, Hd in Hd' by congruence.
    injection Hd' as <-. split; ledger_sums.
  - destruct (put_counters _ _ _ _ _ _ _ Hd Hd0 Hd') as (? & ? & ?); [by destruct Hch|].
    split; ledger_sums.
  - destruct Hacc. rewrite lookup_insert_ne in Hd' by congruence.
    destruct (decide (nc_distributor na = k)) as [<- |Hne].
    + assert (d0 = d) as -> by congruence. rewrite lookup_insert_eq in Hd'. injection Hd' as <-.
      split; ledger_sums; rewrite bool_decide_eq_true_2 by done;
        unfold paid, forgone, one in *; simpl; lia.
    + rewrite lookup_insert_ne, Hd in Hd' by done. injection Hd' as <-.
      split; ledger_sums; by rewrite bool_decide_eq_false_2.
  - destruct (claim_locked_own _ _ _ _ _ _ _ _ _ Hdist Hok Hin Hu Hacc) as [_ Hown].
    destruct Hacc. rewrite lookup_insert_ne in Hd' by congruence.
    destruct (decide (cl_distributor ca = k)) as [<- |Hne].
    + assert (d0 = d) as -> by congruence. rewrite lookup_insert_eq in Hd'. injection Hd' as <-.
      split; unfold ledger_sum in *; simpl; erewrite sum_put_both by done; simpl; rewrite bool_decide_eq_true_2 by done;
        unfold paid, forgone, one in *; simpl; lia.
    + rewrite lookup_insert_ne, Hd in Hd' by done. injection Hd' as <-.
      split; unfold ledger_sum in *; simpl; erewrite sum_put_both by done; simpl;
        rewrite bool_decide_eq_false_2 by congruence; lia.
  - destruct (put_counters _ _ _ _ _ _ _ Hd Hd0 Hd') as (? & ? & ?); [done|].
    split; ledger_sums.
  - destruct (put_counters _ _ _ _ _ _ _ Hd Hd0 Hd') as (? & ? & ?); [done|].
    split; ledger_sums.
  - apply lookup_delete_Some in Hd' as [_ Hd']. assert (d' = d) as -> by congruence.
    split; unfold ledger_sum; simpl; by rewrite (sum_close_distributor _ _ _ _ _ Hd0).
Qed.

(** The invariant over executions. *)
Definition ledger_inv st k : Prop :=
  ∃ d, st_accounts st !! k = Some (DistributorAcc d) ∧ md_closable d = false ∧ ledger_ok st k d.

Lemma step_ledger st st' k :
  addresses_distinct → state_ok st → statuses_in st → ledger_inv st k →
  step in_universe st st' → ledger_inv st' k.
Proof.
  intros Hdist Hok Hin (d & Hd & Hcl & Hl) Hstep.
  destruct (step_distributor _ _ _ k d Hok Hd Hcl Hstep) as (sg & d' & Hd' & Hev).
  exists d'. split_and!; [done| |].
  { destruct (ev_identity _ _ _ _ Hev) as (_ & _ & _ & _ & _ & _ & _ & ->). done. }
  clear Hev. revert Hok Hin Hd Hl Hd'.
  destruct Hstep as [signers ix s s' Hty Hal _ Hp | s slot t ???? | s ts' _]; intros Hok Hin Hd Hl Hd'.
  - apply process_instruction_effect in Hp; [|by apply state_ok_typed|done].
    by eapply effect_ledger.
  - simpl in Hd'. assert (d' = d) as -> by congruence. by destruct Hl.
  - simpl in Hd'. assert (d' = d) as -> by congruence. by destruct Hl.
Qed.

Lemma steps_ledger st st' k :
  addresses_distinct → state_ok st → statuses_in st → ledger_inv st k →
  steps in_universe st st' → ledger_inv st' k.
Proof.
  intros Hdist Hok Hin Hl Hsteps. induction Hsteps as [|s s1 s2 Hstep _ IH]; [done|].
  apply IH; eauto using step_ok, step_ledger.
  eapply statuses_in_step; [|done..]. done.
Qed.

(** No claim status names [k] as its distributor. *)
Definition no_status_for st k : Prop :=
  ∀ s cs, st_accounts st !! s = Some (ClaimStatusAcc cs) → cs_distributor cs ≠ k.

Lemma ledger_sum_none f st k : no_status_for st k → ledger_sum f k st = 0.
Proof.
  intros Hn. apply sum_map_zero. intros s [d|cs] Hs; [done|]. simpl.
  by rewrite bool_decide_eq_false_2 by eauto.
Qed.

Lemma creation_ledger signers st a p st' :
  process_instruction signers st (INewDistributor a p) = Ok st' →
  nda_closable p = false → no_status_for st (nd_distributor a) → ledger_inv st' (nd_distributor a).
Proof.
  intros Hp Hcl Hn. simpl in Hp. apply handle_new_distributor_Ok in Hp as (r & v & s & Hp).
  destruct_and! Hp. subst st'. exists (initial_distributor a p).
  split_and!; [simpl; by rewrite lookup_insert_eq|done|].
  split; unfold ledger_sum; simpl; rewrite sum_put_distributor by (intros ? ?; congruence);
    symmetry; by apply ledger_sum_none.
Qed.

Lemma creation_statuses_in signers st a p st' :
  statuses_in st → process_instruction signers st (INewDistributor a p) = Ok st' → statuses_in st'.
Proof.
  intros Hin Hp. simpl in Hp. apply handle_new_distributor_Ok in Hp as (r & v & s & Hp). destruct_and! Hp.
  subst st'. intros j cs. simpl. intros [[_ [=]]|[_ ?]]%lookup_insert_Some. eauto.
Qed.

(** C5. Accounting: from the creation of a non-closable distributor on (with no
    claim status left over for its address), after any sequence of steps its
    [total_amount_claimed] is the sum of what its claimants were paid (unlocked
    part and withdrawals), [total_amount_forgone] the sum of what they gave up,
    and [num_nodes_claimed] the number of its claim statuses; what was paid never
    exceeds [max_total_claim].  Relative to claimants whose claim status
    addresses do not collide. *)
Theorem counters_equal_claim_statuses signers st a p st1 st2 :
  addresses_distinct → state_ok st → statuses_in st →
  ix_typed (INewDistributor a p) →
  process_instruction signers st (INewDistributor a p) = Ok st1 →
  nda_closable p = false → no_status_for st (nd_distributor a) →
  steps in_universe st1 st2 →
  ∃ d, st_accounts st2 !! nd_distributor a = Some (DistributorAcc d) ∧
    md_total_amount_claimed d = ledger_sum paid (nd_distributor a) st2 ∧
    md_total_amount_forgone d = ledger_sum forgone (nd_distributor a) st2 ∧
    md_num_nodes_claimed d = ledger_sum one (nd_distributor a) st2 ∧
    ledger_sum paid (nd_distributor a) st2 ≤ md_max_total_claim d ∧
    ledger_sum one (nd_distributor a) st2 ≤ md_max_num_nodes d.
Proof.
  intros Hdist Hok Hin Hty Hp Hcl Hn Hsteps.
  pose proof (process_instruction_effect _ _ _ _ (state_ok_typed _ Hok) Hty Hp) as Heff.
  pose proof (effect_ok _ _ _ _ Hok Heff) as Hok1.
  pose proof (creation_statuses_in _ _ _ _ _ Hin Hp) as Hin1.
  destruct (steps_ledger st1 st2 (nd_distributor a) Hdist Hok1 Hin1
    (creation_ledger _ _ _ _ _ Hp Hcl Hn) Hsteps) as (d & Hd & _ & [Hc Hf Hno]).
  pose proof (ok_distributors _ (steps_ok _ _ _ Hok1 Hsteps) _ _ Hd) as [].
  exists d. split_and!; try done; lia.
Qed.
End ledger.

(** ** Witness: alice and bob in the scenario *)
Definition sc_universe : list (Pubkey * Pubkey) := [(sc_alice, sc_dist); (sc_bob, sc_dist)].

Lemma sc_addresses_distinct : addresses_distinct sc_universe.
Proof.
  assert (forallb (λ p, forallb (λ q, implb
    (bool_decide (claim_status_address p.1 p.2 = claim_status_address q.1 q.2))
    (bool_decide (p = q))) sc_universe) sc_universe = true) as Hb by (vm_compute; reflexivity).
  intros p q Hp%list_elem_of_In Hq%list_elem_of_In Heq. rewrite forallb_forall in Hb.
  specialize (Hb p Hp). rewrite forallb_forall in Hb. specialize (Hb q Hq).
  rewrite (bool_decide_eq_true_2 _ Heq) in Hb. by apply bool_decide_eq_true in Hb.
Qed.

Lemma sc_steps_in_universe : steps (in_universe sc_universe) sc_state1 sc_state4.
Proof.
  eapply rtc_l.
  { eapply step_tx; cycle 3; [exact sc_step2|vm_compute; intuition congruence| |].
    - unfold in_universe, sc_ix_alice, sc_universe. simpl. apply elem_of_cons. by left.
    - apply sc_signers_ok. vm_compute. reflexivity. }
  eapply rtc_l.
  { apply (step_clock _ sc_state2 90 1500); [vm_compute; congruence|vm_compute; congruence
      |vm_compute; intuition congruence|vm_compute; intuition congruence]. }
  apply rtc_once. eapply step_tx; cycle 3; [exact sc_step4|exact I| |].
  - unfold in_universe, sc_ix_locked, sc_universe. simpl. apply elem_of_cons. by left.
  - apply sc_signers_ok. vm_compute. reflexivity.
Qed.

Lemma sc_state0_statuses : statuses_in sc_universe sc_state0 ∧ no_status_for sc_state0 sc_dist.
Proof. split; intros s cs; simpl; by rewrite lookup_empty. Qed.

Lemma counters_equal_claim_statuses_witness :
  ∃ d, st_accounts sc_state4 !! sc_dist = Some (DistributorAcc d) ∧
    md_total_amount_claimed d = ledger_sum paid sc_dist sc_state4.
Proof.
  destruct (counters_equal_claim_statuses sc_universe {[ ADMIN_ID ]} sc_state0 sc_new_accounts
    sc_new_args sc_state1 sc_state4 sc_addresses_distinct sc_state0_ok (proj1 sc_state0_statuses)
    ltac:(vm_compute; intuition congruence) sc_step1 eq_refl (proj2 sc_state0_statuses)
    sc_steps_in_universe) as (d & Hd & Hc & _).
  exists d. exact (conj Hd Hc).
Defined.
