(* ===== verification/Schedule.v ===== *)
(** * Nobody is ahead of the vesting schedule

    The vesting rules as an invariant of executions: whatever claims and
    withdrawals are made, in whatever order and however often, a claimant never
    holds more than the schedule has released by then. *)
From S2P Require Import Prelude Machine Hashing TreeNode ProgramError ClaimStatus Solana Token.
From S2P Require Import State Handlers Program Execution Scenario Safety Ledger.

(** What the schedule of [d] allows a claim status to record at time [now]. *)
Record on_schedule (now : Z) (d : MerkleDistributor) (cs : ClaimStatus) : Prop := {
  os_started : md_start_ts d ≤ now;
  os_unlocked : cs_unlocked_amount_claimed cs
                  ≤ vested (cs_unlocked_amount cs) now (md_start_ts d) (md_end_ts d);
  os_locked : cs_locked_amount_withdrawn cs
                ≤ released (cs_locked_amount cs) now (md_start_ts d) (md_end_ts d)
}.

Lemma on_schedule_later now now' d d' cs :
  cs_wf cs → now ≤ now' → same_identity d d' → on_schedule now d cs → on_schedule now' d' cs.
Proof.
  intros (? & ? & ? & ?) Hle (_ & _ & _ & _ & _ & Hs & He & _) [Hst Hu Hl]. split; rewrite ?Hs, ?He.
  - lia.
  - pose proof (vested_mono (cs_unlocked_amount cs) now now' (md_start_ts d) (md_end_ts d)). zlia.
  - pose proof (released_mono (cs_locked_amount cs) now now' (md_start_ts d) (md_end_ts d)). zlia.
Qed.

Section schedule.
Context `{Hasher} `{AddressDerivation} `{TokenProgram} `{!TokenProgramSpec}.
Context (U : list (Pubkey * Pubkey)).
Implicit Types (st : State) (k : Pubkey) (d : MerkleDistributor) (cs : ClaimStatus).

(** Every claim status of the distributor at [k] is on schedule. *)
Definition scheduled st k d : Prop :=
  ∀ s cs, st_accounts st !! s = Some (ClaimStatusAcc cs) → cs_distributor cs = k →
    on_schedule (curr_ts st) d cs.

Lemma effect_scheduled signers st ix st' k d :
  addresses_distinct U → state_ok st → statuses_in U st → in_universe U ix →
  st_accounts st !! k = Some (DistributorAcc d) → scheduled st k d →
  effect signers st ix st' → scheduled st' k d.
Proof.
  intros Hdist Hok Hin Hu Hd Hsch Heff s cs.
  destruct Heff as [na p v Hc | k' admin d0 d1 _ Hch
    | na u l proof d0 v dest ts -> Hu' Hl Hacc | ca d0 cs0 v dest amount ts -> Hacc
    | k' d0 v ts _ Hcb Hts Hv0 Ho Ht | k' admin d0 v r r' n m b ts _ _ Hm Hv0 Hval Hb
    | k' admin d0 v to ts _ Hcb Hv0 Ht]; simpl; rewrite ?lookup_insert_Some, ?lookup_delete_Some.
  3: { intros [[<- [= <-]]|[_ [[_ [=]]|[_ Hs]]]] Hk; [|by apply (Hsch s)].
       destruct Hacc. simpl in Hk. assert (d0 = d) as -> by congruence.
       pose proof (released_bounds l (curr_ts st) (md_start_ts d) (md_end_ts d) ltac:(zlia)).
       split; simpl; [exact nca_started|reflexivity|]. unfold curr_ts in *. simpl. lia. }
  3: { destruct (claim_locked_own _ _ _ _ _ _ _ _ _ _ Hdist Hok Hin Hu Hacc) as [_ Hown].
       intros [[<- [= <-]]|[_ [[_ [=]]|[_ Hs]]]] Hk; [|by apply (Hsch s)].
       destruct Hacc. simpl in Hk. assert (d0 = d) as -> by congruence.
       destruct (Hsch _ _ cla_status Hk) as [? ? ?]. split; simpl; [done|done|].
       unfold curr_ts in *. simpl. lia. }
  5: intros [_ Hs]; by apply (Hsch s).
  all: intros [[_ [=]]|[_ Hs]]; by apply (Hsch s).
Qed.

Definition schedule_inv st k (start_ts end_ts : Z) : Prop :=
  ∃ d, st_accounts st !! k = Some (DistributorAcc d) ∧ md_closable d = false ∧
    md_start_ts d = start_ts ∧ md_end_ts d = end_ts ∧ scheduled st k d.

Lemma scheduled_later st st' k d d' :
  state_ok st' → curr_ts st ≤ curr_ts st' → same_identity d d' →
  (∀ s cs, st_accounts st' !! s = Some (ClaimStatusAcc cs) → cs_distributor cs = k →
     on_schedule (curr_ts st) d cs) → scheduled st' k d'.
Proof.
  intros Hok Hle Hid Hsch s cs Hs Hk. eapply on_schedule_later; [|done|done|by apply (Hsch s)].
  by destruct (ok_statuses st' Hok s cs Hs).
Qed.

Lemma step_schedule st st' k start_ts end_ts :
  addresses_distinct U → state_ok st → statuses_in U st → schedule_inv st k start_ts end_ts →
  step (in_universe U) st st' → schedule_inv st' k start_ts end_ts.
Proof.
  intros Hdist Hok Hin (d & Hd & Hcl & Hs & He & Hsch) Hstep.
  pose proof (step_ok _ _ _ Hok Hstep) as Hok'.
  destruct (step_distributor _ _ _ k d Hok Hd Hcl Hstep) as (sg & d' & Hd' & Hev).
  pose proof (ev_identity _ _ _ _ Hev) as Hid. exists d'. split; [done|].
  pose proof Hid as (_ & _ & _ & _ & _ & -> & -> & ->). split_and!; [done..|]. clear Hev Hd'. revert Hok Hok' Hin Hd Hsch.
  destruct Hstep as [signers ix s s' Hty Hal _ Hp | s slot t ???? | s ts' _];
    intros Hok Hok' Hin Hd Hsch.
  - apply process_instruction_effect in Hp; [|by apply state_ok_typed|done].
    pose proof (effect_scheduled _ _ _ _ _ _ Hdist Hok Hin Hal Hd Hsch Hp) as Hsch'.
    eapply (scheduled_later s'); [done|reflexivity|done|exact Hsch'].
  - by eapply (scheduled_later s).
  - by eapply (scheduled_later s).
Qed.

Lemma steps_schedule st st' k start_ts end_ts :
  addresses_distinct U → state_ok st → statuses_in U st → schedule_inv st k start_ts end_ts →
  steps (in_universe U) st st' → schedule_inv st' k start_ts end_ts.
Proof.
  intros Hdist Hok Hin Hs Hsteps. induction Hsteps as [|s s1 s2 Hstep _ IH]; [done|].
  apply IH; eauto using step_ok, step_schedule. by eapply statuses_in_step.
Qed.

Lemma creation_schedule signers st a p st' :
  process_instruction signers st (INewDistributor a p) = Ok st' → nda_closable p = false →
  no_status_for st (nd_distributor a) →
  schedule_inv st' (nd_distributor a) (nda_start_vesting_ts p) (nda_end_vesting_ts p).
Proof.
  intros Hp Hcl Hn. simpl in Hp. apply handle_new_distributor_Ok in Hp as (r & v & s & Hp).
  destruct_and! Hp. subst st'. exists (initial_distributor a p). simpl. rewrite lookup_insert_eq.
  split_and!; [done..|]. intros j cs. simpl. intros [[_ [=]]|[_ Hj]]%lookup_insert_Some Hk.
  by destruct (Hn j cs Hj).
Qed.

(** C6. Vesting is never overtaken.  From the creation of a non-closable
    distributor on (with no claim status left over for its address), after any
    sequence of instructions by anybody, foreign token transactions and time: a
    claim status of it exists only from the start of the vesting, the unlocked
    part paid is at most what has vested by then, and what was withdrawn of the
    locked part is at most what the linear schedule has released; so the total
    paid to a claimant is bounded by the schedule at every moment. *)
Theorem nobody_is_ahead_of_schedule signers st a p st1 st2 s cs :
  addresses_distinct U → state_ok st → statuses_in U st →
  ix_typed (INewDistributor a p) →
  process_instruction signers st (INewDistributor a p) = Ok st1 →
  nda_closable p = false → no_status_for st (nd_distributor a) →
  steps (in_universe U) st1 st2 →
  st_accounts st2 !! s = Some (ClaimStatusAcc cs) → cs_distributor cs = nd_distributor a →
  let now := curr_ts st2 in
  let start_ts := nda_start_vesting_ts p in
  let end_ts := nda_end_vesting_ts p in
  start_ts ≤ now ∧
  cs_unlocked_amount_claimed cs ≤ vested (cs_unlocked_amount cs) now start_ts end_ts ∧
  cs_locked_amount_withdrawn cs ≤ released (cs_locked_amount cs) now start_ts end_ts ∧
  paid cs ≤ vested (cs_unlocked_amount cs) now start_ts end_ts
            + released (cs_locked_amount cs) now start_ts end_ts.
Proof.
  intros Hdist Hok Hin Hty Hp Hcl Hn Hsteps Hs Hk now start_ts end_ts.
  pose proof (process_instruction_effect _ _ _ _ (state_ok_typed _ Hok) Hty Hp) as Heff.
  pose proof (effect_ok _ _ _ _ Hok Heff) as Hok1.
  destruct (steps_schedule st1 st2 _ _ _ Hdist Hok1 (creation_statuses_in _ _ _ _ _ _ Hin Hp)
    (creation_schedule _ _ _ _ _ Hp Hcl Hn) Hsteps) as (d & Hd & _ & Hs1 & He1 & Hsch).
  destruct (Hsch s cs Hs Hk) as [Hst Hu Hl]. unfold paid. rewrite Hs1, He1 in *.
  split_and!; [done|done|done|]. unfold now, start_ts, end_ts. lia.
Qed.
End schedule.

(** Alice in the scenario: 65 of 105 vested and paid, 3 of 7 released and withdrawn. *)
Definition sx_alice : ClaimStatus :=
  default ClaimStatus_default (get_claim_status sc_state4 (claim_status_address sc_alice sc_dist)).

Lemma sx_alice_at :
  st_accounts sc_state4 !! claim_status_address sc_alice sc_dist = Some (ClaimStatusAcc sx_alice).
Proof. vm_compute. reflexivity. Qed.

Example sx_alice_paid :
  paid sx_alice = 68 ∧ vested 105 (curr_ts sc_state4) 500 2500 = 78 ∧
  released 7 (curr_ts sc_state4) 500 2500 = 3.
Proof. vm_compute. repeat split. Qed.

Lemma nobody_is_ahead_of_schedule_witness :
  cs_locked_amount_withdrawn sx_alice
    ≤ released (cs_locked_amount sx_alice) (curr_ts sc_state4) 500 2500.
Proof.
  destruct (nobody_is_ahead_of_schedule sc_universe {[ ADMIN_ID ]} sc_state0 sc_new_accounts
    sc_new_args sc_state1 sc_state4 (claim_status_address sc_alice sc_dist) sx_alice
    sc_addresses_distinct sc_state0_ok (proj1 sc_state0_statuses)
    ltac:(vm_compute; intuition congruence) sc_step1 eq_refl (proj2 sc_state0_statuses)
    sc_steps_in_universe sx_alice_at ltac:(vm_compute; reflexivity)) as (_ & _ & Hl & _).
  exact Hl.
Defined.
