(* ===== verification/EndToEnd.v ===== *)
(** * From the allocation list to the chain

    A distributor created with the root, maximum and node count of an
    [AirdropMerkleTree] pays exactly the entries of that tree: whoever claims is
    an entry and gets the entry's amounts, and every entry that has not claimed
    yet can claim, in any order, whatever the others did before. *)
From S2P Require Import Prelude Machine Hashing Sha256 MerkleTree MerkleProof TreeNode Airdrop.
From S2P Require Import ProgramError ClaimStatus Solana Token State Handlers Program Execution.
From S2P Require Import Scenario Safety NoPanic Ledger.

(** ** Counting claims against entries *)

(** The claim statuses of distributor [k]. *)
Definition status_of (k : Pubkey) (p : Pubkey * ProgramAccount) : option ClaimStatus :=
  match p.2 with
  | ClaimStatusAcc cs => if bool_decide (cs_distributor cs = k) then Some cs else None
  | DistributorAcc _ => None
  end.
Definition statuses_list (st : State) (k : Pubkey) : list ClaimStatus :=
  omap (status_of k) (map_to_list (st_accounts st)).

Lemma status_of_Some k s acc cs :
  status_of k (s, acc) = Some cs ↔ acc = ClaimStatusAcc cs ∧ cs_distributor cs = k.
Proof.
  unfold status_of. simpl. destruct acc as [d|cs']; [naive_solver|].
  case_bool_decide; naive_solver.
Qed.

Lemma ledger_sum_list f k st : ledger_sum f k st = sum_list f (statuses_list st k).
Proof.
  unfold ledger_sum, statuses_list, sum_map.
  induction (map_to_list (st_accounts st)) as [|[s acc] l IH]; [done|].
  simpl. rewrite IH. destruct (status_of k (s, acc)) as [cs|] eqn:Hs.
  - apply status_of_Some in Hs as [-> Hk]. simpl. by rewrite bool_decide_eq_true_2.
  - destruct acc as [d|cs]; [done|]. unfold status_of in Hs. simpl in *. by case_bool_decide.
Qed.

Lemma elem_of_statuses_list st k cs :
  cs ∈ statuses_list st k ↔
  ∃ s, st_accounts st !! s = Some (ClaimStatusAcc cs) ∧ cs_distributor cs = k.
Proof.
  unfold statuses_list. rewrite list_elem_of_omap. split.
  - intros ([s acc] & Hin%elem_of_map_to_list & [-> ?]%status_of_Some). eauto.
  - intros (s & Hs & Hk). exists (s, ClaimStatusAcc cs).
    split; [by apply elem_of_map_to_list|by apply status_of_Some].
Qed.

Section counting.
Context `{AddressDerivation}.

(** One status per claimant: the address is determined by the claimant. *)
Lemma statuses_list_NoDup st k :
  (∀ s cs, st_accounts st !! s = Some (ClaimStatusAcc cs) →
     s = claim_status_address (cs_claimant cs) (cs_distributor cs)) →
  NoDup (map cs_claimant (statuses_list st k)).
Proof.
  intros Haddr. unfold statuses_list.
  assert (∀ p cs, p ∈ map_to_list (st_accounts st) → status_of k p = Some cs →
    p.1 = claim_status_address (cs_claimant cs) k) as Hl.
  { intros [s acc] cs Hin%elem_of_map_to_list [-> <-]%status_of_Some. by apply Haddr. }
  pose proof (NoDup_fst_map_to_list (st_accounts st)) as Hnd.
  induction (map_to_list (st_accounts st)) as [|p l IH]; simpl; [constructor|].
  apply NoDup_cons in Hnd as [Hp Hnd]. specialize (IH ltac:(set_solver) Hnd).
  destruct (status_of k p) as [cs|] eqn:Hs; [|done]. simpl. constructor; [|done].
  intros (cs' & Hc & (q & Hq & Hqs)%list_elem_of_omap)%list_elem_of_fmap.
  apply Hp. apply list_elem_of_fmap. exists q. split; [|done].
  rewrite (Hl p cs), (Hl q cs') by set_solver. congruence.
Qed.
End counting.

Lemma sum_list_submseteq {A} (f : A → Z) l1 l2 :
  (∀ a, a ∈ l2 → 0 ≤ f a) → l1 ⊆+ l2 → sum_list f l1 ≤ sum_list f l2.
Proof.
  intros Hp [l3 Hl]%submseteq_Permutation. rewrite Hl, sum_list_app.
  assert (0 ≤ sum_list f l3); [|lia]. apply sum_list_nonneg. intros a Ha. apply Hp. rewrite Hl. set_solver.
Qed.

(** The weight of a claimant's own node. *)
Definition weight_at (ns : list TreeNode) (g : TreeNode → Z) (c : Pubkey) : Z :=
  match get_node_in ns c with Ok n => g n | Err _ => 0 end.

Lemma sum_weight_at ns g :
  NoDup (map tn_claimant ns) → sum_list (weight_at ns g) (map tn_claimant ns) = sum_list g ns.
Proof.
  intros Hnd. rewrite sum_list_map. apply sum_list_ext. intros n Hn. unfold weight_at.
  by rewrite (proj2 (get_node_in_spec ns (tn_claimant n) n Hnd)).
Qed.

(** Distinct claimants of the tree weigh at most the whole tree. *)
Lemma claimants_below_nodes ns (g : TreeNode → Z) (cl : list Pubkey) :
  NoDup (map tn_claimant ns) → (∀ n, n ∈ ns → 0 ≤ g n) → NoDup cl →
  (∀ c, c ∈ cl → c ∈ map tn_claimant ns) → sum_list (weight_at ns g) cl ≤ sum_list g ns.
Proof.
  intros Hnd Hg Hcl Hsub. rewrite <- (sum_weight_at ns g Hnd).
  apply sum_list_submseteq; [|by apply NoDup_submseteq].
  intros c _. unfold weight_at. destruct (get_node_in ns c) as [n|] eqn:Hc; [|done].
  apply get_node_in_spec in Hc as [Hn _]; auto.
Qed.

(** Statuses that stem from distinct nodes weigh no more than those nodes. *)
Section statuses_below.
Context (L : list ClaimStatus) (ns : list TreeNode) (f : ClaimStatus → Z) (g : TreeNode → Z).
Context (Hnd : NoDup (map tn_claimant ns)) (Hg : ∀ n, n ∈ ns → 0 ≤ g n).
Context (HL : NoDup (map cs_claimant L)).
Context (Hf : ∀ cs, cs ∈ L → ∃ n, n ∈ ns ∧ tn_claimant n = cs_claimant cs ∧ f cs ≤ g n).

Lemma statuses_weight : sum_list f L ≤ sum_list (weight_at ns g) (map cs_claimant L).
Proof.
  rewrite sum_list_map. apply sum_list_le. intros cs Hcs.
  destruct (Hf cs Hcs) as (n & Hn & Hc & Hle). unfold weight_at.
  by rewrite (proj2 (get_node_in_spec ns (cs_claimant cs) n Hnd)).
Qed.

Lemma statuses_claimants c : c ∈ map cs_claimant L → c ∈ map tn_claimant ns.
Proof.
  intros (cs & -> & Hcs)%list_elem_of_fmap. destruct (Hf cs Hcs) as (n & Hn & <- & _).
  apply list_elem_of_fmap. eauto.
Qed.

Lemma statuses_within_nodes : sum_list f L ≤ sum_list g ns.
Proof.
  pose proof (claimants_below_nodes ns g (map cs_claimant L) Hnd Hg HL statuses_claimants).
  pose proof statuses_weight. lia.
Qed.

Lemma statuses_below_nodes n0 :
  n0 ∈ ns → tn_claimant n0 ∉ map cs_claimant L → sum_list f L + g n0 ≤ sum_list g ns.
Proof.
  intros Hn0 Hnot.
  assert (weight_at ns g (tn_claimant n0) = g n0) as Hw.
  { unfold weight_at. by rewrite (proj2 (get_node_in_spec ns (tn_claimant n0) n0 Hnd)). }
  assert (sum_list (weight_at ns g) (tn_claimant n0 :: map cs_claimant L) ≤ sum_list g ns) as Hle.
  { apply claimants_below_nodes; [done|done|by constructor|].
    intros c [->|Hc]%elem_of_cons; [apply list_elem_of_fmap; eauto|by apply statuses_claimants]. }
  simpl in Hle. pose proof statuses_weight. lia.
Qed.
End statuses_below.

(** One summand may grow up to its bound. *)
Lemma sum_list_le_one {A} (f g : A → Z) l x delta :
  (∀ a, a ∈ l → f a ≤ g a) → x ∈ l → f x + delta ≤ g x → sum_list f l + delta ≤ sum_list g l.
Proof.
  intros Hle (l1 & l2 & ->)%list_elem_of_split Hx. rewrite !sum_list_app. simpl.
  assert (sum_list f l1 ≤ sum_list g l1) by (apply sum_list_le; set_solver).
  assert (sum_list f l2 ≤ sum_list g l2) by (apply sum_list_le; set_solver). lia.
Qed.

Section end_to_end.
Context `{Hasher} `{AddressDerivation} `{!AddressDerivationSpec} `{TokenProgram} `{!TokenProgramSpec}.
Context (U : list (Pubkey * Pubkey)) (k : Pubkey).
Context (rows : list TreeNode) (version : Z) (tree : AirdropMerkleTree).
Implicit Types (st : State) (signers : gset Pubkey) (d : MerkleDistributor).

(** Instructions under which the tree keeps its meaning: no re-rooting of [k],
    and claims on [k] that do not exhibit a hash collision. *)
Definition honest_ix (ix : Instruction) : Prop :=
  in_universe U ix ∧
  match ix with
  | INewClaim a u l proof =>
      nc_distributor a = k →
      collision_free (claim_queries (at_tree_nodes tree) (nc_claimant a) u l proof)
  | ISetRoot a _ _ _ _ => sr_distributor a ≠ k
  | _ => True
  end.

(** The distributor was created for the tree. *)
Definition tree_params d : Prop :=
  md_root d = at_merkle_root tree ∧ md_max_total_claim d = at_max_total_claim tree ∧
  md_max_num_nodes d = at_max_num_nodes tree.

(** [cs] is the claim of an entry of the tree. *)
Definition entry_of (cs : ClaimStatus) (n : TreeNode) : Prop :=
  n ∈ at_tree_nodes tree ∧ tn_claimant n = cs_claimant cs ∧
  tn_amount n = cs_unlocked_amount cs ∧ locked_amount_of n = cs_locked_amount cs.
Definition from_tree st : Prop :=
  ∀ s cs, st_accounts st !! s = Some (ClaimStatusAcc cs) → cs_distributor cs = k →
    ∃ n, entry_of cs n.

Definition honest st : Prop :=
  ∃ d, st_accounts st !! k = Some (DistributorAcc d) ∧ md_closable d = false ∧
    ledger_ok st k d ∧ tree_params d ∧ from_tree st.

(** Without re-rooting, root and maximum stay. *)
Lemma effect_root signers st ix st' d d' :
  effect signers st ix st' → ¬ reroots ix k →
  st_accounts st !! k = Some (DistributorAcc d) → st_accounts st' !! k = Some (DistributorAcc d') →
  md_root d' = md_root d ∧ md_max_total_claim d' = md_max_total_claim d.
Proof.
  intros Heff Hno Hd. destruct Heff as [na p v Hc | k' admin d0 d1 [Hd0 _] Hch
    | na u l proof d0 v dest ts -> Hu' Hl Hacc | ca d0 cs v dest amount ts -> Hacc
    | k' d0 v ts Hd0 Hcb Hts Hv0 Ho Ht | k' admin d0 v r r' n m b ts Hre [Hd0 _] Hm Hv0 Hval Hb
    | k' admin d0 v to ts [Hd0 _] Hcb Hv0 Ht]; simpl.
  - pose proof (co_fresh _ _ _ _ _ Hc). rewrite lookup_insert_ne by congruence. naive_solver.
  - intros [[-> [= <-]]|[_ ?]]%lookup_insert_Some; [|naive_solver].
    assert (d0 = d) as -> by congruence. by destruct Hch.
  - destruct Hacc. intros [[_ [=]]|[_ [[<- [= <-]]|[_ ?]]%lookup_insert_Some]]%lookup_insert_Some;
      [|naive_solver]. by assert (d0 = d) as -> by congruence.
  - destruct Hacc. intros [[_ [=]]|[_ [[<- [= <-]]|[_ ?]]%lookup_insert_Some]]%lookup_insert_Some;
      [|naive_solver]. by assert (d0 = d) as -> by congruence.
  - intros [[-> [= <-]]|[_ ?]]%lookup_insert_Some; [|naive_solver].
    by assert (d0 = d) as -> by congruence.
  - intros [[-> [= <-]]|[_ ?]]%lookup_insert_Some; [done|naive_solver].
  - intros [_ ?]%lookup_delete_Some. naive_solver.
Qed.

Lemma tree_wf : airdrop_ok rows version tree → Forall node_wf (at_tree_nodes tree).
Proof. intros Ht. apply Forall_forall. intros n Hn. by destruct (ao_amounts _ _ _ Ht n Hn) as (_ & _ & ?). Qed.

Lemma tree_totals :
  airdrop_ok rows version tree → ∀ n, n ∈ at_tree_nodes tree → 0 ≤ node_total n.
Proof.
  intros Ht n Hn. apply node_total_nonneg. by destruct (ao_amounts _ _ _ Ht n Hn) as (_ & _ & ?).
Qed.

(** A claim accepted against the tree's root is an entry. *)
Lemma accepted_is_entry st signers a u l proof d v dest ts :
  airdrop_ok rows version tree → is_u64 u → is_u64 l →
  honest_ix (INewClaim a u l proof) → nc_distributor a = k → md_root d = at_merkle_root tree →
  new_claim_accepts signers st a u l proof d v dest ts →
  ∃ n, n ∈ at_tree_nodes tree ∧ tn_claimant n = nc_claimant a ∧ tn_amount n = u ∧
    locked_amount_of n = l.
Proof.
  intros Htree Hu Hl [_ Hcf] Hk Hroot Hacc. destruct (ao_root _ _ _ Htree) as (t & Ht & Hr).
  eapply (claim_entry_sound _ t); [by apply tree_wf|done|done|done|done|by apply Hcf|].
  rewrite <- Hroot. apply (nca_proof _ _ _ _ _ _ _ _ _ _ Hacc).
Qed.

Lemma step_from_tree st st' d :
  airdrop_ok rows version tree → state_ok st → step honest_ix st st' →
  st_accounts st !! k = Some (DistributorAcc d) → md_root d = at_merkle_root tree →
  from_tree st → from_tree st'.
Proof.
  intros Htree Hok Hstep. revert Hok.
  destruct Hstep as [signers ix s s' Hty Hal _ Hp | s slot t ???? | s ts' _]; intros Hok Hd Hroot Hft;
    [|done|done].
  apply process_instruction_effect in Hp; [|by apply state_ok_typed|done].
  intros j cs Hcs Hk.
  destruct (effect_status_origin _ _ _ _ _ _ Hp Hcs)
    as [(cs0 & Hcs0 & Hg & _)|(a & u & l & proof & d0 & v & r & ts & -> & Hu & Hl & Hacc & ->)].
  - rewrite Hg in Hk |- *. apply (Hft _ _ Hcs0 Hk).
  - simpl in Hk. assert (d0 = d) as -> by (destruct Hacc; congruence).
    by eapply accepted_is_entry.
Qed.

Lemma step_honest st st' :
  airdrop_ok rows version tree → addresses_distinct U → state_ok st → statuses_in U st →
  honest st → step honest_ix st st' → honest st'.
Proof.
  intros Htree Hdist Hok Hin (d & Hd & Hcl & Hl & (Hroot & Hmax & Hnum) & Hft) Hstep.
  destruct (step_distributor _ _ _ k d Hok Hd Hcl Hstep) as (sg & d' & Hd' & Hev).
  destruct (step_ledger U st st' k) as (d2 & Hd2 & Hcl2 & Hl2); [done..|by exists d| |].
  { eapply step_allowed_mono; [|done]. by intros ix [? _]. }
  assert (d2 = d') as -> by congruence. exists d'.
  split_and!; [done|done|done| |by eapply step_from_tree].
  destruct (ev_identity _ _ _ _ Hev) as (_ & _ & _ & _ & Hn' & _).
  assert (md_root d' = md_root d ∧ md_max_total_claim d' = md_max_total_claim d) as [Hr' Hm'].
  { revert Hok Hd Hd'. destruct Hstep as [signers ix s s' Hty Hal _ Hp | s slot t ???? | s ts' _];
      intros Hok Hd Hd'; [|simpl in Hd'; naive_solver..].
    apply process_instruction_effect in Hp; [|by apply state_ok_typed|done].
    eapply effect_root; [done| |done|done]. destruct Hal as [_ Hal]. intros Hre. by destruct ix. }
  split_and!; congruence.
Qed.

Lemma steps_honest st st' :
  airdrop_ok rows version tree → addresses_distinct U → state_ok st → statuses_in U st →
  honest st → steps honest_ix st st' → state_ok st' ∧ honest st'.
Proof.
  intros Htree Hdist Hok Hin Hh Hsteps. induction Hsteps as [|s s1 s2 Hstep _ IH]; [done|].
  apply IH; eauto using step_ok, step_honest.
  eapply statuses_in_step; [|done..]. by intros ix [? _].
Qed.

(** An entry that has not claimed always has room. *)
Lemma entry_has_room st d n :
  airdrop_ok rows version tree → state_ok st → ledger_ok st k d → tree_params d → from_tree st →
  n ∈ at_tree_nodes tree → st_accounts st !! claim_status_address (tn_claimant n) k = None →
  md_num_nodes_claimed d + 1 ≤ md_max_num_nodes d ∧
  md_total_amount_claimed d + md_total_amount_forgone d + node_total n ≤ md_max_total_claim d.
Proof.
  intros Htree Hok [Hc Hf Hno] (_ & Hmax & Hnum) Hft Hn Hfree.
  assert (NoDup (map cs_claimant (statuses_list st k))) as Hnd.
  { apply statuses_list_NoDup. intros s cs Hs. apply (ok_statuses st Hok s cs Hs). }
  assert (tn_claimant n ∉ map cs_claimant (statuses_list st k)) as Hnot.
  { intros (cs & Hcs & (s & Hs & Hk)%elem_of_statuses_list)%list_elem_of_fmap.
    pose proof (so_address _ _ (ok_statuses st Hok s cs Hs)). congruence. }
  rewrite Hc, Hf, Hno, Hmax, Hnum, !ledger_sum_list, (ao_count _ _ _ Htree).
  destruct (ao_total _ _ _ Htree) as (-> & _ & _). split.
  - assert (Z.of_nat (length (at_tree_nodes tree)) = sum_list (λ _, 1) (at_tree_nodes tree)) as ->.
    { clear. induction (at_tree_nodes tree); simpl; lia. }
    apply (statuses_below_nodes _ _ one (λ _, 1)) with (n0 := n); [apply Htree|done|done| |done|done].
    intros cs (s & Hs & Hk)%elem_of_statuses_list.
    destruct (Hft s cs Hs Hk) as (n' & ? & ? & _). exists n'. by split_and!.
  - rewrite <- sum_list_add.
    apply (statuses_below_nodes _ _ (λ cs, paid cs + forgone cs) node_total) with (n0 := n);
      [apply Htree|by apply tree_totals|done| |done|done].
    intros cs (s & Hs & Hk)%elem_of_statuses_list.
    destruct (Hft s cs Hs Hk) as (n' & ? & ? & Hu & Hl). exists n'. split_and!; [done|done|].
    destruct (so_wf _ _ (ok_statuses st Hok s cs Hs)) as (_ & ? & _ & _).
    unfold paid, forgone, node_total. lia.
Qed.

(** A claimant always has room for the rest of their own entry. *)
Lemma withdrawal_has_room st d s cs amount :
  airdrop_ok rows version tree → state_ok st → ledger_ok st k d → tree_params d → from_tree st →
  st_accounts st !! s = Some (ClaimStatusAcc cs) → cs_distributor cs = k →
  cs_locked_amount_withdrawn cs + amount ≤ cs_locked_amount cs →
  md_total_amount_claimed d + amount ≤ md_max_total_claim d.
Proof.
  intros Htree Hok [Hc _ _] (_ & Hmax & _) Hft Hs Hk Ham.
  rewrite Hc, Hmax, ledger_sum_list. destruct (ao_total _ _ _ Htree) as (-> & _ & _).
  set (cap := λ cs, cs_unlocked_amount cs + cs_locked_amount cs).
  trans (sum_list cap (statuses_list st k)).
  - apply (sum_list_le_one _ _ _ cs); [|by apply elem_of_statuses_list; eauto|].
    + intros x (j & Hj & _)%elem_of_statuses_list.
      destruct (so_wf _ _ (ok_statuses st Hok j x Hj)) as (_ & ? & _ & ?). unfold paid, cap. lia.
    + destruct (so_wf _ _ (ok_statuses st Hok s cs Hs)) as (_ & ? & _ & ?). unfold paid, cap. lia.
  - apply statuses_within_nodes; [apply Htree|by apply tree_totals| |].
    + apply statuses_list_NoDup. intros j x Hj. apply (ok_statuses st Hok j x Hj).
    + intros x (j & Hj & Hjk)%elem_of_statuses_list.
      destruct (Hft j x Hj Hjk) as (n & ? & ? & Hu & Hl). exists n. split_and!; [done|done|].
      unfold cap, node_total. lia.
Qed.

(** ** Entries can claim *)

(** What a claimant needs besides the tree: the claim window is open, a token
    account of theirs can take the amount, and they sign. *)
Record ready_to_claim signers st d (c to : Pubkey) (amount : Z) : Prop := {
  rc_open : md_clawed_back d = false;
  rc_enabled : md_enable_slot d ≤ curr_slot st;
  rc_started : md_start_ts d ≤ curr_ts st;
  rc_window : md_end_ts d - md_start_ts d ≤ I64_MAX;
  rc_signers : signers_ok st signers ∧ c ∈ signers;
  rc_vault : ∀ a, vault_of st d a → ta_mint a = md_mint d ∧ ta_frozen a = false;
  rc_dest : ∃ dest, tk_accounts (st_tokens st) !! to = Some dest ∧ ta_owner dest = c ∧
    ta_mint dest = md_mint d ∧ ta_frozen dest = false ∧ ta_amount dest + amount ≤ U64_MAX
}.

(** The vault pays [amount] to the claimant's account. *)
Lemma ready_transfer signers st d a c to full amount :
  state_ok st → st_accounts st !! k = Some (DistributorAcc d) → vault_of st d a →
  ready_to_claim signers st d c to full → 0 ≤ amount ≤ full → amount ≤ ta_amount a →
  is_Some (token_transfer (st_tokens st) (md_token_vault d) to k amount).
Proof.
  intros Hok Hd [Ha Hdel] [_ _ _ _ [Hsig Hc] Hv (dest & Hdest & Ho & Hm & Hfr & Hle)] Ham Hpaid.
  destruct (Hv a) as [Hma Hfa]; [by split|].
  destruct (do_vault_owner _ _ _ (ok_distributors st Hok k d Hd)) as (a' & Ha' & Ho').
  assert (a' = a) as -> by congruence.
  assert (k ∉ signers) by (apply Hsig; by exists d).
  eapply (token_transfer_progress _ _ _ _ _ a dest); try done; try lia; congruence.
Qed.

Lemma entry_claim_accepts signers st d a to n proof :
  airdrop_ok rows version tree → state_ok st → st_accounts st !! k = Some (DistributorAcc d) →
  ledger_ok st k d → tree_params d → from_tree st → n ∈ at_tree_nodes tree →
  st_accounts st !! claim_status_address (tn_claimant n) k = None →
  vault_of st d a → deficit d a ≤ 0 → ready_to_claim signers st d (tn_claimant n) to (tn_amount n) →
  verify proof (at_merkle_root tree) (hash_leaf (b32_list (node_hash n))) = true →
  ∃ st', process_instruction signers st
    (INewClaim (mkNewClaim k (claim_status_address (tn_claimant n) k) (md_token_vault d) to
       (tn_claimant n)) (tn_amount n) (locked_amount_of n) proof) = Ok st'.
Proof.
  intros Htree Hok Hd Hl Htp Hft Hn Hfree Hva Hdef Hready Hver.
  destruct (entry_has_room st d n) as [Hnodes Htot]; [done..|].
  pose proof (ok_distributors st Hok k d Hd) as Hdok. destruct Htp as (Hroot & _).
  destruct (ao_amounts _ _ _ Htree n Hn) as (_ & _ & Hwu & Hwl).
  pose proof (vested_nonneg (tn_amount n) (curr_ts st) (md_start_ts d) (md_end_ts d) ltac:(zlia)).
  pose proof (do_claimed _ _ _ Hdok). destruct (do_u64 _ _ _ Hdok) as (_ & Hmx & Hmn & _ & Hfo).
  unfold node_total, deficit in *.
  destruct (ready_transfer signers st d a (tn_claimant n) to (tn_amount n)
    (vested (tn_amount n) (curr_ts st) (md_start_ts d) (md_end_ts d))) as [ts Hts];
    [done..|zlia|].
  pose proof Hva as [Ha _]. destruct (do_vault_owner _ _ _ Hdok) as (a' & Ha' & Ho').
  destruct Hready as [? ? ? ? [? ?] _ (dest & ? & ? & ? & ? & ?)].
  eexists. apply handle_new_claim_Ok; [by apply accounts_typed_window, state_ok_typed|done|].
  exists d, a, dest, ts. split; [|reflexivity]. split; simpl; try done; try zlia.
  - unfold claim_accounts_ok. split_and!; [congruence|apply Hdok|done|done].
  - by apply window_no_overflow.
  - by rewrite Hroot.
  - by eapply signer_seeds_valid.
Qed.

(** The tooling's instruction creates the distributor for the tree. *)
Definition creates_for_tree (a : NewDistributor) (p : NewDistributorArgs) : Prop :=
  nd_distributor a = k ∧ nda_root p = at_merkle_root tree ∧
  nda_max_total_claim p = at_max_total_claim tree ∧ nda_max_num_nodes p = at_max_num_nodes tree ∧
  nda_closable p = false.

Lemma creation_honest signers st a p st' :
  creates_for_tree a p → no_status_for st k →
  process_instruction signers st (INewDistributor a p) = Ok st' → honest st'.
Proof.
  intros (Hk & Hr & Hm & Hn & Hcl) Hno Hp. rewrite <- Hk in *.
  destruct (creation_ledger _ _ _ _ _ Hp Hcl Hno) as (d & Hd & Hcld & Hl).
  simpl in Hp. apply handle_new_distributor_Ok in Hp as (r & v & s & Hp). destruct_and! Hp.
  subst st'. simpl in Hd. rewrite lookup_insert_eq in Hd. injection Hd as <-.
  exists (initial_distributor a p). split_and!; try done; [simpl; by rewrite Hk, lookup_insert_eq| |].
  - by rewrite <- Hk.
  - intros j cs. simpl. intros [[_ [=]]|[_ Hj]]%lookup_insert_Some Hc.
    rewrite <- Hk in Hc. by destruct (Hno j cs Hj).
Qed.

Section from_creation.
Context (signers0 : gset Pubkey) (st0 st1 : State) (a : NewDistributor) (p : NewDistributorArgs).
Context (Hrows : Forall node_wf rows) (Hlen : Z.of_nat (length rows) ≤ 2 ^ 32 - 1).
Context (Hbuilt : AirdropMerkleTree_new rows version = Ok tree) (Hdist : addresses_distinct U).
Context (Hok0 : state_ok st0) (Hin0 : statuses_in U st0) (Hno0 : no_status_for st0 k).
Context (Hty : ix_typed (INewDistributor a p)) (Hfor : creates_for_tree a p).
Context (Hp : process_instruction signers0 st0 (INewDistributor a p) = Ok st1).

Lemma built_tree_ok : airdrop_ok rows version tree.
Proof.
  pose proof (AirdropMerkleTree_new_spec rows version Hrows Hlen) as Hs. rewrite Hbuilt in Hs.
  by destruct Hs.
Qed.

Lemma from_creation st : steps honest_ix st1 st → state_ok st ∧ honest st.
Proof.
  intros Hsteps. pose proof built_tree_ok as Htree.
  pose proof (process_instruction_effect _ _ _ _ (state_ok_typed _ Hok0) Hty Hp) as Heff.
  pose proof (creation_statuses_in _ _ _ _ _ _ Hin0 Hp) as Hin1.
  eapply steps_honest; [done|done|by eapply effect_ok|done|by eapply creation_honest|done].
Qed.

(** C4. Nobody but the entries is paid: from the creation of a distributor for
    the tree that [AirdropMerkleTree::new] built from the rows on, every claim status it ever has is that of an entry of the tree,
    with the entry's claimant and amounts, at most one per entry, and what was
    paid to it never exceeds the entry's unlocked plus locked amount (unless a
    hash collision is exhibited, or the admin re-roots). *)
Theorem only_entries_are_paid st s cs :
  steps honest_ix st1 st → st_accounts st !! s = Some (ClaimStatusAcc cs) →
  cs_distributor cs = k →
  ∃ n, entry_of cs n ∧ paid cs ≤ node_total n ∧
    s = claim_status_address (tn_claimant n) k.
Proof.
  intros Hsteps Hs Hk. destruct (from_creation st Hsteps) as [Hok (d & _ & _ & _ & _ & Hft)].
  destruct (Hft s cs Hs Hk) as (n & Hn & Hc & Hu & Hl). exists n. split_and!; [by split_and!| |].
  - destruct (so_wf _ _ (ok_statuses st Hok s cs Hs)) as (_ & ? & _ & ?).
    unfold paid, node_total. lia.
  - rewrite (so_address _ _ (ok_statuses st Hok s cs Hs)). congruence.
Qed.

(** C1. Every entry can claim: from the creation of a non-closable distributor for
    the tree on, after any sequence of instructions by anybody, foreign token
    transactions and time, as long as this distributor is not re-rooted
    ([set_root]) and no claim on it exhibits a hash collision: an entry whose
    status does not exist yet and whose claimant is ready (not clawed back, window
    open, slot enabled, a token account that can take the amount, a signature) has
    its [new_claim] with the tree's own proof accepted, while the vault covers what
    is still owed: neither the node count nor the maximum can be exhausted by the
    others. *)
Theorem every_entry_can_claim signers st d vault to n :
  steps honest_ix st1 st → n ∈ at_tree_nodes tree →
  st_accounts st !! k = Some (DistributorAcc d) →
  st_accounts st !! claim_status_address (tn_claimant n) k = None →
  vault_of st d vault → deficit d vault ≤ 0 →
  ready_to_claim signers st d (tn_claimant n) to (tn_amount n) →
  ∃ proof st', tn_proof n = Some proof ∧
    process_instruction signers st
      (INewClaim (mkNewClaim k (claim_status_address (tn_claimant n) k) (md_token_vault d) to
         (tn_claimant n)) (tn_amount n) (locked_amount_of n) proof) = Ok st'.
Proof.
  intros Hsteps Hn Hd Hfree Hv Hdef Hready. pose proof built_tree_ok as Htree.
  destruct (from_creation st Hsteps) as [Hok (d' & Hd' & _ & Hl & Htp & Hft)].
  assert (d' = d) as -> by congruence.
  destruct (ao_proofs _ _ _ Htree n Hn) as (proof & Hproof & Hver & _). exists proof.
  destruct (entry_claim_accepts signers st d vault to n proof) as [st' Hst']; [done..|eauto].
Qed.

End from_creation.
End end_to_end.

(** ** Witnesses: the tree of two entries and the scenario's distributor *)
Definition sc_nodes : list TreeNode :=
  [mkTreeNode sc_alice 105 (Some 7) (Some sc_alice_proof);
   mkTreeNode sc_bob 40 None (Some sc_bob_proof)].
Definition sc_tree : AirdropMerkleTree := mkAirdrop sc_root 1 2 152 sc_nodes.

(** The tree [AirdropMerkleTree::new] builds from the rows. *)
Example sc_tree_built : AirdropMerkleTree_new ex_rows 1 = Ok sc_tree.
Proof. vm_compute. reflexivity. Qed.


Lemma sc_creates_for_tree : creates_for_tree sc_dist sc_tree sc_new_accounts sc_new_args.
Proof. done. Qed.

(** Alice's claim, then time passing, are honest steps. *)
Lemma sc_alice_honest : honest_ix sc_universe sc_dist sc_tree sc_ix_alice.
Proof.
  split; [apply elem_of_cons; by left|]. intros _.
  apply collision_freeb_sound. vm_compute. reflexivity.
Qed.

Lemma sc_honest_steps : steps (honest_ix sc_universe sc_dist sc_tree) sc_state1 sc_state3.
Proof.
  eapply rtc_l.
  { eapply step_tx; cycle 3; [exact sc_step2|vm_compute; intuition congruence
      |exact sc_alice_honest|apply sc_signers_ok; vm_compute; reflexivity]. }
  apply rtc_once. apply (step_clock _ sc_state2 90 1500);
    [vm_compute; congruence|vm_compute; congruence
    |vm_compute; intuition congruence|vm_compute; intuition congruence].
Qed.

Lemma sc_new_typed : ix_typed (INewDistributor sc_new_accounts sc_new_args).
Proof. vm_compute. intuition congruence. Qed.

Lemma sc_rows_short : Z.of_nat (length ex_rows) ≤ 2 ^ 32 - 1.
Proof. vm_compute. congruence. Qed.

Lemma sc_dist_at3 :
  st_accounts sc_state3 !! sc_dist = Some (DistributorAcc (sc_distributor_at sc_state3)).
Proof. apply sc_distributor_lookup. vm_compute. reflexivity. Qed.

Lemma sc_alice_at3 :
  st_accounts sc_state3 !! claim_status_address sc_alice sc_dist
    = Some (ClaimStatusAcc (sc_status_at sc_state3 sc_alice)) ∧
  cs_distributor (sc_status_at sc_state3 sc_alice) = sc_dist.
Proof. split; [apply sc_status_lookup; vm_compute; reflexivity|vm_compute; reflexivity]. Qed.

Lemma sc_bob_free3 : st_accounts sc_state3 !! claim_status_address sc_bob sc_dist = None.
Proof. vm_compute. reflexivity. Qed.

Lemma sc_vault_at3 :
  vault_of sc_state3 (sc_distributor_at sc_state3) (sc_vault_at sc_state3) ∧
  deficit (sc_distributor_at sc_state3) (sc_vault_at sc_state3) ≤ 0.
Proof.
  split; [split|vm_compute; congruence].
  - replace (md_token_vault (sc_distributor_at sc_state3)) with sc_vault by (vm_compute; reflexivity).
    apply sc_vault_lookup. vm_compute. reflexivity.
  - vm_compute. reflexivity.
Qed.

(** A claimant who signs alone, with an account of 100 tokens at most. *)
Definition dest_check (ts : TokenState) (c to : Pubkey) : bool :=
  match tk_accounts ts !! to with
  | Some dest => bool_decide (ta_owner dest = c) && bool_decide (ta_mint dest = sc_mint_key)
                 && negb (ta_frozen dest) && (ta_amount dest <=? 100)
  | None => false
  end.

Lemma dest_check_sound ts c to amount :
  dest_check ts c to = true → amount ≤ 1000 →
  ∃ dest, tk_accounts ts !! to = Some dest ∧ ta_owner dest = c ∧
    ta_mint dest = sc_mint_key ∧ ta_frozen dest = false ∧ ta_amount dest + amount ≤ U64_MAX.
Proof.
  unfold dest_check. intros Hc Ham. destruct (_ !! to) as [dest|] eqn:Hd; [|done].
  inv_ok. zbool. exists dest. split_and!; try done. zlia.
Qed.

Lemma sc_mint_at3 : md_mint (sc_distributor_at sc_state3) = sc_mint_key.
Proof. vm_compute. reflexivity. Qed.

Lemma sc_vault_clean3 :
  ta_mint (sc_vault_at sc_state3) = sc_mint_key ∧ ta_frozen (sc_vault_at sc_state3) = false.
Proof. split; vm_compute; reflexivity. Qed.

Lemma sc_window3 :
  md_clawed_back (sc_distributor_at sc_state3) = false ∧
  md_enable_slot (sc_distributor_at sc_state3) ≤ curr_slot sc_state3 ∧
  md_start_ts (sc_distributor_at sc_state3) ≤ curr_ts sc_state3 ∧
  md_end_ts (sc_distributor_at sc_state3) - md_start_ts (sc_distributor_at sc_state3) ≤ I64_MAX.
Proof.
  split; [vm_compute; reflexivity|]. split; [vm_compute; congruence|].
  split; [vm_compute; congruence|vm_compute; congruence].
Qed.

Lemma sc_ready c to amount :
  dest_check (st_tokens sc_state3) c to = true → amount ≤ 1000 →
  forallb (λ p, match p.2 with DistributorAcc _ => bool_decide (p.1 ∉ ({[ c ]} : gset Pubkey))
                | _ => true end) (map_to_list (st_accounts sc_state3)) = true →
  ready_to_claim {[ c ]} sc_state3 (sc_distributor_at sc_state3) c to amount.
Proof.
  intros Hc Ham Hs. destruct sc_window3 as (H1 & H2 & H3 & H4).
  refine (Build_ready_to_claim _ _ _ _ _ _ H1 H2 H3 H4 (conj (sc_signers_ok _ _ Hs) _) _ _).
  - apply elem_of_singleton. reflexivity.
  - intros a [Ha _]. destruct sc_vault_at3 as [[Hv _] _].
    rewrite (inj Some _ _ (eq_trans (eq_sym Ha) Hv)), sc_mint_at3. exact sc_vault_clean3.
  - rewrite sc_mint_at3. exact (dest_check_sound _ _ _ _ Hc Ham).
Qed.

Lemma sc_bob_ready :
  ready_to_claim {[ sc_bob ]} sc_state3 (sc_distributor_at sc_state3) sc_bob sc_bob_token 40.
Proof. apply sc_ready; [vm_compute; reflexivity|lia|vm_compute; reflexivity]. Qed.

Lemma sc_alice_ready :
  ready_to_claim {[ sc_alice ]} sc_state3 (sc_distributor_at sc_state3) sc_alice sc_alice_token 3.
Proof. apply sc_ready; [vm_compute; reflexivity|lia|vm_compute; reflexivity]. Qed.

Lemma only_entries_are_paid_witness :
  ∃ n, entry_of sc_tree (sc_status_at sc_state3 sc_alice) n ∧
    paid (sc_status_at sc_state3 sc_alice) ≤ node_total n ∧
    claim_status_address sc_alice sc_dist = claim_status_address (tn_claimant n) sc_dist.
Proof.
  destruct sc_alice_at3 as [Hs Hk].
  exact (only_entries_are_paid sc_universe sc_dist ex_rows 1 sc_tree {[ ADMIN_ID ]} sc_state0
    sc_state1 sc_new_accounts sc_new_args ex_rows_wf sc_rows_short sc_tree_built
    sc_addresses_distinct sc_state0_ok (proj1 sc_state0_statuses) (proj2 sc_state0_statuses)
    sc_new_typed sc_creates_for_tree sc_step1 sc_state3 _ _ sc_honest_steps Hs Hk).
Defined.

Lemma sc_bob_entry : mkTreeNode sc_bob 40 None (Some sc_bob_proof) ∈ at_tree_nodes sc_tree.
Proof. apply elem_of_cons. right. apply elem_of_cons. by left. Qed.

Lemma every_entry_can_claim_witness :
  ∃ proof st', Some sc_bob_proof = Some proof ∧
    process_instruction {[ sc_bob ]} sc_state3
      (INewClaim (mkNewClaim sc_dist (claim_status_address sc_bob sc_dist)
         (md_token_vault (sc_distributor_at sc_state3)) sc_bob_token sc_bob) 40 0 proof) = Ok st'.
Proof.
  exact (every_entry_can_claim sc_universe sc_dist ex_rows 1 sc_tree {[ ADMIN_ID ]} sc_state0
    sc_state1 sc_new_accounts sc_new_args ex_rows_wf sc_rows_short sc_tree_built
    sc_addresses_distinct sc_state0_ok (proj1 sc_state0_statuses) (proj2 sc_state0_statuses)
    sc_new_typed sc_creates_for_tree sc_step1 {[ sc_bob ]} sc_state3 (sc_distributor_at sc_state3)
    (sc_vault_at sc_state3) sc_bob_token (mkTreeNode sc_bob 40 None (Some sc_bob_proof))
    sc_honest_steps sc_bob_entry sc_dist_at3 sc_bob_free3 (proj1 sc_vault_at3) (proj2 sc_vault_at3)
    sc_bob_ready).
Defined.

Lemma sc_alice_released3 :
  3 = released (cs_locked_amount (sc_status_at sc_state3 sc_alice)) (curr_ts sc_state3)
        (md_start_ts (sc_distributor_at sc_state3)) (md_end_ts (sc_distributor_at sc_state3))
      - cs_locked_amount_withdrawn (sc_status_at sc_state3 sc_alice).
Proof. vm_compute. reflexivity. Qed.

Lemma sc_alice_in_universe : (sc_alice, sc_dist) ∈ sc_universe.
Proof. apply elem_of_cons. by left. Qed.

