(* ===== verification/Layout.v ===== *)
(** * Account data and the queries over it
    (struct declarations of src/programs/merkle-distributor/src/state,
    [subscribe] of src/api/src/cache.rs, process_close_claim_status.rs)

    The server and the tool find claim statuses by comparing bytes of the account
    data at fixed offsets.  The bytes are written and read by Anchor's generated
    code: it is the parameter [AccountCodec] with the documented wire format (an
    8-byte discriminator, then the fields in the order of their declaration,
    integers little-endian) in [AccountCodecSpec]; [borsh_codec] is an instance.
    What an RPC node answers to a query is the relation [program_accounts]. *)
From S2P Require Import Prelude Machine Hashing Sha256 ProgramError ClaimStatus Solana Token State.
From S2P Require Import Handlers Program Execution Scenario.

(** ** The fields in the order of their declaration *)
Definition bool_byte (b : bool) : list byte := [if b then x01 else x00].
Definition i64_to_le_bytes (z : Z) : list byte := to_le_bytes 8 z.

Definition claim_status_fields (cs : ClaimStatus) : list (list byte) :=
  [b32_list (cs_claimant cs); u64_to_le_bytes (cs_locked_amount cs);
   u64_to_le_bytes (cs_locked_amount_withdrawn cs); u64_to_le_bytes (cs_unlocked_amount cs);
   u64_to_le_bytes (cs_unlocked_amount_claimed cs); bool_byte (cs_closable cs);
   b32_list (cs_distributor cs)].

Definition distributor_fields (d : MerkleDistributor) : list (list byte) :=
  [to_le_bytes 1 (md_bump d); u64_to_le_bytes (md_version d); b32_list (md_root d);
   b32_list (md_mint d); b32_list (md_token_vault d); u64_to_le_bytes (md_max_total_claim d);
   u64_to_le_bytes (md_max_num_nodes d); u64_to_le_bytes (md_total_amount_claimed d);
   u64_to_le_bytes (md_total_amount_forgone d); u64_to_le_bytes (md_num_nodes_claimed d);
   i64_to_le_bytes (md_start_ts d); i64_to_le_bytes (md_end_ts d);
   i64_to_le_bytes (md_clawback_start_ts d); b32_list (md_clawback_receiver d);
   b32_list (md_admin d); bool_byte (md_clawed_back d); u64_to_le_bytes (md_enable_slot d);
   bool_byte (md_closable d); b32_list (md_buffer_0 d); b32_list (md_buffer_1 d);
   b32_list (md_buffer_2 d)].

(** [8 + std::mem::size_of::<T>()]: the sizes of the fields, rounded up to the
    alignment of [u64]. *)
Definition size_of (fields : nat) : nat := (fields + 7) / 8 * 8.
Definition ClaimStatus_LEN : nat := 8 + size_of (32 + 8 + 8 + 8 + 8 + 1 + 32).
Definition MerkleDistributor_LEN : nat :=
  8 + size_of (1 + 8 + 32 + 32 + 32 + 5 * 8 + 3 * 8 + 32 + 32 + 1 + 8 + 1 + 3 * 32).

Example account_lengths : ClaimStatus_LEN = 112%nat ∧ MerkleDistributor_LEN = 352%nat.
Proof. done. Qed.

(** The values of the machine types. *)
Definition claim_status_typed (cs : ClaimStatus) : Prop :=
  is_u64 (cs_locked_amount cs) ∧ is_u64 (cs_locked_amount_withdrawn cs) ∧
  is_u64 (cs_unlocked_amount cs) ∧ is_u64 (cs_unlocked_amount_claimed cs).
Definition distributor_typed (d : MerkleDistributor) : Prop :=
  is_u8 (md_bump d) ∧ is_u64 (md_version d) ∧ is_u64 (md_max_total_claim d) ∧
  is_u64 (md_max_num_nodes d) ∧ is_u64 (md_total_amount_claimed d) ∧
  is_u64 (md_total_amount_forgone d) ∧ is_u64 (md_num_nodes_claimed d) ∧ is_i64 (md_start_ts d) ∧
  is_i64 (md_end_ts d) ∧ is_i64 (md_clawback_start_ts d) ∧ is_u64 (md_enable_slot d).

(** ** Anchor's account (de)serialization *)
Class AccountCodec := {
  (** [T::DISCRIMINATOR]. *)
  ClaimStatus_DISCRIMINATOR : list byte;
  MerkleDistributor_DISCRIMINATOR : list byte;
  (** [try_serialize] and [T::try_deserialize]. *)
  try_serialize : ProgramAccount → list byte;
  ClaimStatus_try_deserialize : list byte → option ClaimStatus;
  MerkleDistributor_try_deserialize : list byte → option MerkleDistributor
}.

Class AccountCodecSpec `{AccountCodec} : Prop := {
  discriminator_length :
    length ClaimStatus_DISCRIMINATOR = 8%nat ∧ length MerkleDistributor_DISCRIMINATOR = 8%nat;
  discriminator_distinct : ClaimStatus_DISCRIMINATOR ≠ MerkleDistributor_DISCRIMINATOR;
  serialize_claim_status cs :
    try_serialize (ClaimStatusAcc cs) = ClaimStatus_DISCRIMINATOR ++ concat (claim_status_fields cs);
  serialize_distributor d :
    try_serialize (DistributorAcc d) = MerkleDistributor_DISCRIMINATOR ++ concat (distributor_fields d);
  (** Reading ignores what follows the fields, and checks the discriminator. *)
  deserialize_claim_status cs rest : claim_status_typed cs →
    ClaimStatus_try_deserialize (try_serialize (ClaimStatusAcc cs) ++ rest) = Some cs;
  deserialize_distributor d rest : distributor_typed d →
    MerkleDistributor_try_deserialize (try_serialize (DistributorAcc d) ++ rest) = Some d;
  deserialize_status_kind data cs : ClaimStatus_try_deserialize data = Some cs →
    take 8 data = ClaimStatus_DISCRIMINATOR;
  deserialize_distributor_kind data d : MerkleDistributor_try_deserialize data = Some d →
    take 8 data = MerkleDistributor_DISCRIMINATOR
}.

(** ** Queries *)
Inductive RpcFilterType :=
| DataSize (n : nat)
| Memcmp (offset : nat) (bytes : list byte).

Definition filter_matches (data : list byte) (f : RpcFilterType) : bool :=
  match f with
  | DataSize n => Nat.eqb (length data) n
  | Memcmp offset bytes => bool_decide (take (length bytes) (drop offset data) = bytes)
  end.

Section queries.
Context `{AccountCodec}.
Implicit Types (st : State) (k : Pubkey).

(** [init] allocates [space = T::LEN] zero bytes; the contents are written over
    them when the instruction ends. *)
Definition account_data (a : ProgramAccount) : list byte :=
  let len := match a with ClaimStatusAcc _ => ClaimStatus_LEN | DistributorAcc _ => MerkleDistributor_LEN end in
  try_serialize a ++ replicate (len - length (try_serialize a)) x00.

(** [getProgramAccounts]: the program's accounts that match every filter, each
    once, in no particular order. *)
Definition program_accounts st (filters : list RpcFilterType) (answer : list (Pubkey * list byte)) : Prop :=
  NoDup (map fst answer) ∧
  ∀ k data, (k, data) ∈ answer ↔
    ∃ a, st_accounts st !! k = Some a ∧ data = account_data a ∧ forallb (filter_matches data) filters = true.

(** The node's answer, computed from the ledger. *)
Definition node_answer st (filters : list RpcFilterType) : list (Pubkey * list byte) :=
  filter (λ p, forallb (filter_matches p.2) filters = true)
    (map (λ p, (p.1, account_data p.2)) (map_to_list (st_accounts st))).

(** The configuration of the server for one distributor (cache.rs). *)
Definition subscribe_filters (distributor : Pubkey) : list RpcFilterType :=
  [Memcmp 0 ClaimStatus_DISCRIMINATOR; Memcmp 73 (b32_list distributor)].

(** The filters of the tool (process_close_claim_status.rs); [Program::accounts]
    puts the discriminator in front of them. *)
Definition closable_filters : list RpcFilterType :=
  [Memcmp 0 ClaimStatus_DISCRIMINATOR; DataSize ClaimStatus_LEN; Memcmp (8 + 32 + 8 + 8 + 8) [x01]].

(** [Program::accounts::<ClaimStatus>]: the answer, deserialized. *)
Definition claim_status_accounts (answer : list (Pubkey * list byte)) : option (list (Pubkey * ClaimStatus)) :=
  mapM (λ p, cs ← ClaimStatus_try_deserialize p.2; Some (p.1, cs)) answer.

(** [view_claim_status] prints how many there are. *)
Definition view_claim_status (answer : list (Pubkey * list byte)) : option nat :=
  length <$> claim_status_accounts answer.
End queries.

(** ** Where the fields are *)
Section layout.
Context `{AccountCodec} `{!AccountCodecSpec}.
Implicit Types (st : State) (k : Pubkey) (cs : ClaimStatus) (d : MerkleDistributor).

Lemma length_bool_byte b : length (bool_byte b) = 1%nat.
Proof. done. Qed.
Lemma length_u64 z : length (u64_to_le_bytes z) = 8%nat.
Proof. apply length_to_le_bytes. Qed.

Lemma memcmp_at (pre field rest : list byte) offset n :
  length pre = offset → length field = n → take n (drop offset (pre ++ field ++ rest)) = field.
Proof. intros <- <-. by rewrite drop_app_length, take_app_length. Qed.

(** The bytes of a claim status account: the fields, then padding. *)
Lemma status_data_split cs :
  ∃ pad, account_data (ClaimStatusAcc cs) =
    ClaimStatus_DISCRIMINATOR ++ b32_list (cs_claimant cs) ++ u64_to_le_bytes (cs_locked_amount cs) ++
    u64_to_le_bytes (cs_locked_amount_withdrawn cs) ++ u64_to_le_bytes (cs_unlocked_amount cs) ++
    u64_to_le_bytes (cs_unlocked_amount_claimed cs) ++ bool_byte (cs_closable cs) ++
    b32_list (cs_distributor cs) ++ pad.
Proof.
  eexists. unfold account_data. rewrite serialize_claim_status. unfold claim_status_fields. cbn [concat].
  rewrite <- !(assoc_L (++)). reflexivity.
Qed.

Tactic Notation "field_at" int_or_var(n) :=
  match goal with
  | cs : ClaimStatus |- _ => destruct (status_data_split cs) as [pad ->]
  end; rewrite ?(assoc_L (++)); do n rewrite <- (assoc_L (++)); apply memcmp_at;
  rewrite ?length_app, ?b32_length, ?length_u64, ?length_bool_byte, ?(proj1 discriminator_length); done.

Lemma status_discriminator cs : take 8 (drop 0 (account_data (ClaimStatusAcc cs))) = ClaimStatus_DISCRIMINATOR.
Proof.
  destruct (status_data_split cs) as [pad ->]. apply (memcmp_at []); [done|apply discriminator_length].
Qed.
Lemma status_distributor cs :
  take 32 (drop 73 (account_data (ClaimStatusAcc cs))) = b32_list (cs_distributor cs).
Proof. field_at 1. Qed.
Lemma status_claimed cs :
  take 8 (drop 64 (account_data (ClaimStatusAcc cs))) = u64_to_le_bytes (cs_unlocked_amount_claimed cs).
Proof. field_at 3. Qed.
Lemma status_closable cs :
  take 1 (drop 72 (account_data (ClaimStatusAcc cs))) = bool_byte (cs_closable cs).
Proof. field_at 2. Qed.

Lemma distributor_discriminator d :
  take 8 (account_data (DistributorAcc d)) = MerkleDistributor_DISCRIMINATOR.
Proof.
  unfold account_data. rewrite serialize_distributor, <- (assoc_L (++)).
  apply take_app_length'. symmetry. apply discriminator_length.
Qed.

(** The serialization fits the space that [init] allocates. *)
Lemma length_serialized a :
  length (try_serialize a) = match a with ClaimStatusAcc _ => 105%nat | DistributorAcc _ => 347%nat end.
Proof.
  destruct discriminator_length. destruct a; [rewrite serialize_distributor|rewrite serialize_claim_status];
    cbn [concat claim_status_fields distributor_fields]; unfold i64_to_le_bytes;
    rewrite ?length_app, ?b32_length, ?length_u64, ?length_to_le_bytes, ?length_bool_byte; simpl; lia.
Qed.
Lemma length_account_data a :
  length (account_data a) =
  match a with ClaimStatusAcc _ => ClaimStatus_LEN | DistributorAcc _ => MerkleDistributor_LEN end.
Proof.
  unfold account_data. rewrite length_app, length_replicate, length_serialized. by destruct a.
Qed.

(** ** Reading accounts of a well-formed ledger *)
Definition account_typed (a : ProgramAccount) : Prop :=
  match a with ClaimStatusAcc cs => claim_status_typed cs | DistributorAcc d => distributor_typed d end.

Lemma read_status a :
  account_typed a →
  ClaimStatus_try_deserialize (account_data a) = match a with ClaimStatusAcc cs => Some cs | _ => None end.
Proof.
  destruct a as [d|cs]; intros Ht; [|by apply deserialize_claim_status].
  destruct (ClaimStatus_try_deserialize _) as [cs|] eqn:He; [|done].
  apply deserialize_status_kind in He. rewrite distributor_discriminator in He.
  by destruct discriminator_distinct.
Qed.
Lemma read_distributor a :
  account_typed a →
  MerkleDistributor_try_deserialize (account_data a) = match a with DistributorAcc d => Some d | _ => None end.
Proof.
  destruct a as [d|cs]; intros Ht; [by apply deserialize_distributor|].
  destruct (MerkleDistributor_try_deserialize _) as [d|] eqn:He; [|done].
  apply deserialize_distributor_kind in He. rewrite <- (drop_0 (account_data _)) in He.
  rewrite status_discriminator in He. by destruct discriminator_distinct.
Qed.

(** Every account of a reachable ledger is typed. *)
Lemma state_ok_account_typed `{AddressDerivation} `{!AddressDerivationSpec} st k a :
  state_ok st → st_accounts st !! k = Some a → account_typed a.
Proof.
  intros Hok Ha. destruct a as [d|cs].
  - destruct (ok_distributors st Hok k d Ha) as [(? & ? & ? & ? & ?) (? & ? & ?) ? ? _ Hb _ _ _ _].
    pose proof (find_program_address_bump (distributor_seeds (md_mint d) (md_version d)) PROGRAM_ID).
    unfold account_typed, distributor_typed. rewrite Hb. split_and!; done || zlia.
  - destruct (ok_statuses st Hok k cs Ha) as [(? & ? & ? & ?) _].
    unfold account_typed, claim_status_typed. split_and!; done || zlia.
Qed.

Lemma claim_status_accounts_spec st filters answer :
  (∀ k a, st_accounts st !! k = Some a → account_typed a) →
  program_accounts st (Memcmp 0 ClaimStatus_DISCRIMINATOR :: filters) answer →
  ∃ l, claim_status_accounts answer = Some l ∧ NoDup (map fst l) ∧
    ∀ k cs, (k, cs) ∈ l ↔ st_accounts st !! k = Some (ClaimStatusAcc cs) ∧
      forallb (filter_matches (account_data (ClaimStatusAcc cs))) filters = true.
Proof.
  intros Hty [Hnd Hin].
  assert (∀ p, p ∈ answer → ∃ cs, st_accounts st !! p.1 = Some (ClaimStatusAcc cs) ∧
    ClaimStatus_try_deserialize p.2 = Some cs ∧ p.2 = account_data (ClaimStatusAcc cs) ∧
    forallb (filter_matches p.2) filters = true) as Hst.
  { intros [k data] (a & Ha & -> & [Hd Hf]%andb_true_iff)%Hin. simpl in Hd.
    apply bool_decide_eq_true in Hd. rewrite (proj1 discriminator_length), drop_0 in Hd.
    destruct a as [d|cs].
    - rewrite distributor_discriminator in Hd. by destruct discriminator_distinct.
    - exists cs. split_and!; try done. apply (read_status _ (Hty _ _ Ha)). }
  assert (∃ l, claim_status_accounts answer = Some l ∧
    Forall2 (λ p q, q.1 = p.1 ∧ ClaimStatus_try_deserialize p.2 = Some q.2) answer l) as (l & Hl & Hall).
  { clear Hnd Hin. unfold claim_status_accounts. induction answer as [|p answer IH]; [by exists []|].
    destruct IH as (l & Hl & Hall); [set_solver|]. destruct (Hst p) as (cs & _ & Hcs & _); [set_solver|].
    exists ((p.1, cs) :: l). simpl. rewrite Hcs. simpl. rewrite Hl. split; [done|by constructor]. }
  exists l. split; [done|]. split.
  { replace (map fst l) with (map fst answer); [done|]. clear -Hall. induction Hall as [|? ? ? ? [? ?]]; simpl; congruence. }
  intros k cs. split.
  - intros (p & Hp & Hk & Hd)%(Forall2_elem_r _ _ _ _ Hall). simpl in *. subst k.
    destruct (Hst p Hp) as (cs' & Ha & Hcs & Hdata & Hf). assert (cs' = cs) as -> by congruence.
    by rewrite <- Hdata.
  - intros [Ha Hf]. destruct (Forall2_elem_l _ _ _ (k, account_data (ClaimStatusAcc cs)) Hall) as (q & Hq & Hk & Hd).
    { apply Hin. exists (ClaimStatusAcc cs). split_and!; [done|done|]. simpl. rewrite Hf, andb_true_r.
      apply bool_decide_eq_true. rewrite (proj1 discriminator_length). apply status_discriminator. }
    simpl in *. rewrite (read_status _ (Hty _ _ Ha)) in Hd. destruct q as [k' cs']. simpl in *. congruence.
Qed.

(** The server's query for a distributor answers exactly the claim statuses of
    that distributor, and every account of the answer deserializes. *)
Lemma subscription_query_is_exact `{AddressDerivation} `{!AddressDerivationSpec} st k answer :
  state_ok st → program_accounts st (subscribe_filters k) answer →
  ∃ l, claim_status_accounts answer = Some l ∧ NoDup (map fst l) ∧
    ∀ s cs, (s, cs) ∈ l ↔ st_accounts st !! s = Some (ClaimStatusAcc cs) ∧ cs_distributor cs = k.
Proof.
  intros Hok Hq. eapply claim_status_accounts_spec in Hq as (l & Hl & Hnd & Hin);
    [|by intros; eapply state_ok_account_typed].
  exists l. split_and!; [done|done|]. intros s cs. rewrite Hin. cbn [forallb filter_matches].
  rewrite andb_true_r, bool_decide_eq_true, b32_length, status_distributor.
  by split; intros [? ?]; (split; [done|]); [apply (inj b32_list)|congruence].
Qed.

(** The tool's query for closable claim statuses compares the byte at 64, the
    lowest of [unlocked_amount_claimed], instead of the one at 72. *)
Lemma closable_query_reads_the_claimed_amount `{AddressDerivation} `{!AddressDerivationSpec} st answer :
  state_ok st → program_accounts st closable_filters answer →
  ∃ l, claim_status_accounts answer = Some l ∧ view_claim_status answer = Some (length l) ∧
    ∀ s cs, (s, cs) ∈ l ↔ st_accounts st !! s = Some (ClaimStatusAcc cs) ∧
                           cs_unlocked_amount_claimed cs mod 256 = 1.
Proof.
  intros Hok Hq. eapply claim_status_accounts_spec in Hq as (l & Hl & Hnd & Hin);
    [|by intros; eapply state_ok_account_typed].
  exists l. unfold view_claim_status. rewrite Hl. split_and!; [done|done|].
  intros s cs. rewrite Hin. cbn [forallb filter_matches].
  rewrite andb_true_r, length_account_data, Nat.eqb_refl. cbn [andb]. rewrite bool_decide_eq_true.
  assert (take 1 (drop 64 (account_data (ClaimStatusAcc cs))) = [byte_of_Z (cs_unlocked_amount_claimed cs)]) as Hb.
  { rewrite <- (Nat.min_l 1 8), <- take_take by lia. by rewrite status_claimed. }
  cbn [length plus]. rewrite Hb. split; intros [? Hv]; (split; [done|]).
  - injection Hv as Hv. rewrite <- byte_to_of_Z, Hv. done.
  - f_equal. apply (inj byte_to_Z). by rewrite byte_to_of_Z, Hv.
Qed.

(** A node that filters the ledger's accounts answers so. *)
Lemma node_answer_program_accounts st filters : program_accounts st filters (node_answer st filters).
Proof.
  unfold node_answer. split.
  - eapply sublist_NoDup; [apply (NoDup_fst_map_to_list (st_accounts st))|].
    replace (map_to_list (st_accounts st)).*1 with
      (map fst (map (λ p, (p.1, account_data p.2)) (map_to_list (st_accounts st)))).
    { apply (fmap_sublist fst), sublist_filter. }
    rewrite map_map. done.
  - intros k data. rewrite list_elem_of_filter, list_elem_of_fmap. simpl. split.
    + intros (Hf & [k' a] & [= -> ->] & Ha%elem_of_map_to_list). eauto.
    + intros (a & Ha & -> & Hf). split; [done|]. exists (k, a). by rewrite elem_of_map_to_list.
Qed.
End layout.

(** ** Borsh *)
Section borsh.

(** Readers: a value and the rest of the input. *)
Definition reader (A : Type) : Type := list byte → option (A * list byte).

Definition read_bytes (n : nat) : reader (list byte) := λ l,
  if (n <=? length l)%nat then Some (take n l, drop n l) else None.
Definition read_uint (n : nat) : reader Z := λ l,
  '(bs, l) ← read_bytes n l; Some (from_le_bytes bs, l).
Definition read_i64 : reader Z := λ l,
  '(z, l) ← read_uint 8 l; Some (if z <=? I64_MAX then z else z - 2 ^ 64, l).
Definition read_bool : reader bool := λ l,
  match l with
  | x00 :: l => Some (false, l)
  | x01 :: l => Some (true, l)
  | _ => None
  end.
Definition read_b32 : reader Bytes32 := λ l,
  '(bs, l) ← read_bytes 32 l; Some (b32_of_list bs, l).

Lemma read_bytes_app n x rest : length x = n → read_bytes n (x ++ rest) = Some (x, rest).
Proof.
  intros <-. unfold read_bytes. rewrite length_app, (proj2 (Nat.leb_le _ _)) by lia.
  by rewrite take_app_length, drop_app_length.
Qed.
Lemma read_uint_app n z rest :
  0 ≤ z < 256 ^ Z.of_nat n → read_uint n (to_le_bytes n z ++ rest) = Some (z, rest).
Proof.
  intros Hz. unfold read_uint. rewrite read_bytes_app by apply length_to_le_bytes. simpl.
  by rewrite from_to_le_bytes.
Qed.
Lemma read_u64_app z rest : is_u64 z → read_uint 8 (u64_to_le_bytes z ++ rest) = Some (z, rest).
Proof. intros. apply read_uint_app. zlia. Qed.
Lemma read_u8_app z rest : is_u8 z → read_uint 1 (to_le_bytes 1 z ++ rest) = Some (z, rest).
Proof. intros. apply read_uint_app. zlia. Qed.

(** Two's complement. *)
Lemma to_le_bytes_shift n z : to_le_bytes n (z + 256 ^ Z.of_nat n) = to_le_bytes n z.
Proof.
  revert z. induction n as [|n IH]; intros z; [done|]. cbn [to_le_bytes].
  rewrite Nat2Z.inj_succ, Z.pow_succ_r, (Z.mul_comm 256) by lia. f_equal.
  - unfold byte_of_Z. by rewrite Z.mod_add.
  - by rewrite Z.div_add, IH.
Qed.
Lemma read_i64_app z rest : is_i64 z → read_i64 (i64_to_le_bytes z ++ rest) = Some (z, rest).
Proof.
  intros Hz. unfold read_i64, i64_to_le_bytes. destruct (Z.leb_spec 0 z).
  - rewrite read_uint_app by zlia. simpl. by rewrite (proj2 (Z.leb_le _ _)) by zlia.
  - rewrite <- to_le_bytes_shift, read_uint_app by zlia. simpl.
    rewrite (proj2 (Z.leb_gt _ _)) by zlia. do 2 f_equal. lia.
Qed.
Lemma read_bool_app b rest : read_bool (bool_byte b ++ rest) = Some (b, rest).
Proof. by destruct b. Qed.
Lemma read_b32_app h rest : read_b32 (b32_list h ++ rest) = Some (h, rest).
Proof.
  unfold read_b32. rewrite read_bytes_app by apply b32_length. simpl. by rewrite b32_of_list_list.
Qed.
End borsh.

Create Rewrite HintDb borsh.
#[export] Hint Rewrite read_bool_app read_b32_app : borsh.
#[export] Hint Rewrite read_u64_app read_i64_app read_u8_app using assumption : borsh.

(** The discriminators are the first 8 bytes of [sha256("account:<Name>")]. *)
Definition sha_discriminator (name : string) : list byte :=
  take 8 (b32_list (sha256_hasher [bytes_of_string name])).

Definition read_claim_status : reader ClaimStatus := λ l,
  '(claimant, l) ← read_b32 l;
  '(locked_amount, l) ← read_uint 8 l;
  '(locked_amount_withdrawn, l) ← read_uint 8 l;
  '(unlocked_amount, l) ← read_uint 8 l;
  '(unlocked_amount_claimed, l) ← read_uint 8 l;
  '(closable, l) ← read_bool l;
  '(distributor, l) ← read_b32 l;
  Some (mkClaimStatus claimant locked_amount locked_amount_withdrawn unlocked_amount
          unlocked_amount_claimed closable distributor, l).

Definition read_merkle_distributor : reader MerkleDistributor := λ l,
  '(bump, l) ← read_uint 1 l;
  '(version, l) ← read_uint 8 l;
  '(root, l) ← read_b32 l;
  '(mint, l) ← read_b32 l;
  '(token_vault, l) ← read_b32 l;
  '(max_total_claim, l) ← read_uint 8 l;
  '(max_num_nodes, l) ← read_uint 8 l;
  '(total_amount_claimed, l) ← read_uint 8 l;
  '(total_amount_forgone, l) ← read_uint 8 l;
  '(num_nodes_claimed, l) ← read_uint 8 l;
  '(start_ts, l) ← read_i64 l;
  '(end_ts, l) ← read_i64 l;
  '(clawback_start_ts, l) ← read_i64 l;
  '(clawback_receiver, l) ← read_b32 l;
  '(admin, l) ← read_b32 l;
  '(clawed_back, l) ← read_bool l;
  '(enable_slot, l) ← read_uint 8 l;
  '(closable, l) ← read_bool l;
  '(buffer_0, l) ← read_b32 l;
  '(buffer_1, l) ← read_b32 l;
  '(buffer_2, l) ← read_b32 l;
  Some (mkMerkleDistributor bump version root mint token_vault max_total_claim max_num_nodes
          total_amount_claimed total_amount_forgone num_nodes_claimed start_ts end_ts
          clawback_start_ts clawback_receiver admin clawed_back enable_slot closable buffer_0
          buffer_1 buffer_2, l).

(** Discriminator first, then the fields; the rest is ignored. *)
Definition read_account {A : Type} (discriminator : list byte) (r : reader A) (data : list byte) : option A :=
  if bool_decide (take 8 data = discriminator) then fst <$> r (drop 8 data) else None.

Definition borsh_codec : AccountCodec := {|
  ClaimStatus_DISCRIMINATOR := sha_discriminator "account:ClaimStatus";
  MerkleDistributor_DISCRIMINATOR := sha_discriminator "account:MerkleDistributor";
  try_serialize a :=
    match a with
    | ClaimStatusAcc cs => sha_discriminator "account:ClaimStatus" ++ concat (claim_status_fields cs)
    | DistributorAcc d => sha_discriminator "account:MerkleDistributor" ++ concat (distributor_fields d)
    end;
  ClaimStatus_try_deserialize := read_account (sha_discriminator "account:ClaimStatus") read_claim_status;
  MerkleDistributor_try_deserialize :=
    read_account (sha_discriminator "account:MerkleDistributor") read_merkle_distributor
|}.

Lemma sha_discriminators :
  length (sha_discriminator "account:ClaimStatus") = 8%nat ∧
  length (sha_discriminator "account:MerkleDistributor") = 8%nat ∧
  sha_discriminator "account:ClaimStatus" ≠ sha_discriminator "account:MerkleDistributor".
Proof. vm_compute. split_and!; congruence. Qed.

Lemma read_account_app {A} disc (r : reader A) fields rest a rest' :
  length disc = 8%nat → r (fields ++ rest) = Some (a, rest') →
  read_account disc r ((disc ++ fields) ++ rest) = Some a.
Proof.
  intros Hl Hr. unfold read_account. rewrite <- (assoc_L (++)), <- Hl, take_app_length, drop_app_length, Hr.
  by rewrite bool_decide_eq_true_2.
Qed.
Lemma read_account_kind {A} disc (r : reader A) data a :
  read_account disc r data = Some a → take 8 data = disc.
Proof. unfold read_account. by case_bool_decide. Qed.

#[local] Ltac read_fields :=
  cbn [concat claim_status_fields distributor_fields]; rewrite <- ?(assoc_L (++));
  repeat (autorewrite with borsh; cbn [mbind option_bind]).

Lemma read_claim_status_app cs rest :
  claim_status_typed cs →
  read_claim_status (concat (claim_status_fields cs) ++ rest) = Some (cs, rest).
Proof. intros (? & ? & ? & ?). unfold read_claim_status. read_fields. by destruct cs. Qed.
Lemma read_merkle_distributor_app d rest :
  distributor_typed d →
  read_merkle_distributor (concat (distributor_fields d) ++ rest) = Some (d, rest).
Proof.
  intros (? & ? & ? & ? & ? & ? & ? & ? & ? & ? & ?). unfold read_merkle_distributor.
  read_fields. by destruct d.
Qed.

Lemma borsh_codec_spec : @AccountCodecSpec borsh_codec.
Proof.
  destruct sha_discriminators as (Hc & Hd & Hne). split; [done|done|done|done| | | |].
  - intros cs rest Ht. by eapply read_account_app, read_claim_status_app.
  - intros d rest Ht. by eapply read_account_app, read_merkle_distributor_app.
  - intros data cs. apply read_account_kind.
  - intros data d. apply read_account_kind.
Qed.
