(* ===== verification/TokenBurner.v ===== *)
(** * The token burner program (src/programs/token-burner/src/lib.rs)

    A program without state: anybody may burn the whole balance of a token
    account owned by its PDA.  DFX distributors use such an account as their
    clawback receiver. *)
From S2P Require Import Prelude Machine Hashing TreeNode ProgramError ClaimStatus Solana Token.
From S2P Require Import State Handlers Program Execution Scenario.

Section burner.
Context `{AddressDerivation} `{TokenProgram}.

Definition BURNER_ID : Pubkey := pubkey "burnhrRSRkbYBPbVWCVwMUxJMmVPtQqHBCUAVzkJ5tW".
Definition BURNER_SEED : list byte := bytes_of_string "burner".

Record BurnAll := mkBurnAll {
  ba_burner : Pubkey;
  ba_mint : Pubkey;
  ba_token_account : Pubkey
}.

Record BurnEvent := mkBurnEvent {
  be_mint : Pubkey;
  be_token_account : Pubkey;
  be_amount : Z
}.

Definition burner_address : Pubkey := (find_program_address [BURNER_SEED] BURNER_ID).1.
Definition burner_bump : Z := (find_program_address [BURNER_SEED] BURNER_ID).2.

(** The checks of the accounts struct; returns the loaded token account. *)
Definition BurnAll_try_accounts (ts : TokenState) (a : BurnAll) : fallible TokenAccount :=
  _ ← ok_or (tk_mints ts !! ba_mint a) (Anchor AccountNotInitialized);
  account ← ok_or (tk_accounts ts !! ba_token_account a) (Anchor AccountNotInitialized);
  _ ← check_eq (ba_burner a) burner_address (Anchor ConstraintSeeds);
  _ ← check_eq (ta_mint account) (ba_mint a) (Anchor ConstraintTokenMint);
  _ ← check_eq (ta_owner account) (ba_burner a) (Anchor ConstraintTokenOwner);
  Ok account.

(** [burn]: the token state after it and the event it emits, if any. *)
Definition handle_burn (ts : TokenState) (a : BurnAll) : fallible (TokenState * option BurnEvent) :=
  account ← BurnAll_try_accounts ts a;
  let amount := ta_amount account in
  if amount =? 0 then Ok (ts, None)
  else
    _ ← require (bool_decide (create_program_address [BURNER_SEED; [byte_of_Z burner_bump]]
                                BURNER_ID = Some (ba_burner a))) PrivilegeEscalation;
    ts' ← ok_or (token_burn ts (ba_token_account a) (ba_mint a) (ba_burner a) amount)
            TokenProgramError;
    Ok (ts', Some (mkBurnEvent (ba_mint a) (ba_token_account a) amount)).

Context `{!AddressDerivationSpec} `{!TokenProgramSpec}.

Lemma burner_seeds_valid :
  create_program_address [BURNER_SEED; [byte_of_Z burner_bump]] BURNER_ID = Some burner_address.
Proof.
  apply (find_program_address_create [BURNER_SEED]). unfold burner_address, burner_bump.
  by destruct (find_program_address [BURNER_SEED] BURNER_ID).
Qed.

(** Exactly the [amount] tokens of [p] and of the supply of [mint] are gone. *)
Definition burned (ts ts' : TokenState) (p mint : Pubkey) (amount : Z) : Prop :=
  (∃ a a', tk_accounts ts !! p = Some a ∧ tk_accounts ts' !! p = Some a' ∧
     ta_amount a = amount ∧ ta_amount a' = 0 ∧ ta_mint a' = mint ∧ ta_owner a' = ta_owner a) ∧
  (∃ supply, tk_mints ts !! mint = Some supply ∧ tk_mints ts' !! mint = Some (supply - amount)) ∧
  (∀ q, q ≠ p → tk_accounts ts' !! q = tk_accounts ts !! q).

Lemma handle_burn_burned ts a ts' ev :
  handle_burn ts a = Ok (ts', ev) →
  ∃ account, tk_accounts ts !! ba_token_account a = Some account ∧
    ta_owner account = burner_address ∧ ta_mint account = ba_mint a ∧
    burned ts ts' (ba_token_account a) (ba_mint a) (ta_amount account) ∧
    ev = if ta_amount account =? 0 then None
         else Some (mkBurnEvent (ba_mint a) (ba_token_account a) (ta_amount account)).
Proof.
  unfold handle_burn, BurnAll_try_accounts. intros Hb. inv_checks.
  exists v. destruct (Z.eqb_spec (ta_amount v) 0) as [Hz|Hnz].
  - injection Hb as <- <-. split_and!; try congruence. unfold burned. split_and!; try done.
    + do 2 eexists. by split_and!.
    + eexists. rewrite Hz, Z.sub_0_r. eauto.
  - apply bind_Ok in Hb as ([] & _ & Hb). apply bind_Ok in Hb as (ts1 & Ht & [= <- <-]).
    apply ok_or_Ok in Ht. split_and!; try congruence.
    destruct (token_burn_effect _ _ _ _ _ _ Ht)
      as (x & s & x' & Hx & Hs & _ & _ & _ & (? & ? & ? & _ & _)%debited_fields & Hts & Hms).
    unfold burned. rewrite Hts, Hms, !lookup_insert_eq. split_and!.
    + exists x, x'. assert (x = v) as -> by congruence. split_and!; try done; try lia; congruence.
    + eauto.
    + intros q Hq. by rewrite lookup_insert_ne.
Qed.

(** Burning is complete and permissionless: whenever the burner's token
    account and mint exist, anybody's [burn] succeeds (its signer seeds are
    always valid), and a successful [burn] empties the account, lowers the supply
    by exactly the balance, touches no other account, and emits an event for a
    non-zero balance only; an account not owned by the burner PDA is refused. *)
Theorem burn_is_complete ts a account supply :
  tk_accounts ts !! ba_token_account a = Some account → tk_mints ts !! ba_mint a = Some supply →
  ba_burner a = burner_address → ta_mint account = ba_mint a → ta_frozen account = false →
  0 ≤ ta_amount account ≤ supply →
  if bool_decide (ta_owner account = burner_address)
  then ∃ ts' ev, handle_burn ts a = Ok (ts', ev) ∧
         burned ts ts' (ba_token_account a) (ba_mint a) (ta_amount account) ∧
         ev = (if ta_amount account =? 0 then None
               else Some (mkBurnEvent (ba_mint a) (ba_token_account a) (ta_amount account)))
  else handle_burn ts a = Err (Anchor ConstraintTokenOwner).
Proof.
  intros Ha Hs Hb Hm Hf Ham. case_bool_decide as Ho.
  - assert (∃ r, handle_burn ts a = Ok r) as [[ts' ev] Hr].
    { unfold handle_burn, BurnAll_try_accounts, check_eq. rewrite Ha, Hs. simpl.
      rewrite (bool_decide_eq_true_2 _ Hb), (bool_decide_eq_true_2 _ Hm). simpl.
      rewrite (bool_decide_eq_true_2 (ta_owner account = ba_burner a)) by congruence. simpl.
      destruct (ta_amount account =? 0); [eauto|].
      rewrite Hb, burner_seeds_valid, (bool_decide_eq_true_2 (Some _ = Some _)) by done. simpl.
      destruct (token_burn_progress ts (ba_token_account a) (ba_mint a) burner_address
        (ta_amount account) account supply) as [ts' ->]; [done..|lia|lia|done|]. simpl. eauto. }
    exists ts', ev. destruct (handle_burn_burned _ _ _ _ Hr) as (x & Hx & _ & _ & Hbd & Hev).
    assert (x = account) as -> by congruence. auto.
  - unfold handle_burn, BurnAll_try_accounts, check_eq. rewrite Ha, Hs. simpl.
    rewrite (bool_decide_eq_true_2 _ Hb), (bool_decide_eq_true_2 _ Hm). simpl.
    by rewrite (bool_decide_eq_false_2 (ta_owner account = ba_burner a)) by congruence.
Qed.

(** C26. Clawback into the burner destroys the rest of the airdrop: after a
    successful clawback to a receiver owned by the burner PDA, a [burn] of the
    receiver leaves vault and receiver empty and has lowered the supply of the
    mint by exactly the vault's and the receiver's balance before the clawback. *)
Theorem clawback_then_burn `{Hasher} signers st a st1 ts2 ev d vault receiver supply :
  state_ok st → st_accounts st !! cb_distributor a = Some (DistributorAcc d) →
  tk_accounts (st_tokens st) !! md_token_vault d = Some vault →
  tk_accounts (st_tokens st) !! md_clawback_receiver d = Some receiver →
  tk_mints (st_tokens st) !! ta_mint receiver = Some supply →
  md_clawback_receiver d ≠ md_token_vault d →
  process_instruction signers st (IClawback a) = Ok st1 →
  handle_burn (st_tokens st1)
    (mkBurnAll burner_address (ta_mint receiver) (md_clawback_receiver d)) = Ok (ts2, ev) →
  ta_owner receiver = burner_address ∧
  (∃ vault2, tk_accounts ts2 !! md_token_vault d = Some vault2 ∧ ta_amount vault2 = 0) ∧
  (∃ receiver2, tk_accounts ts2 !! md_clawback_receiver d = Some receiver2 ∧
     ta_amount receiver2 = 0) ∧
  tk_mints ts2 !! ta_mint receiver = Some (supply - (ta_amount receiver + ta_amount vault)).
Proof.
  intros Hok Hd Hv Hr Hs Hne Hc Hb. simpl in Hc.
  apply handle_clawback_Ok in Hc as (d' & v & r & ts & Hd' & Hv' & _ & _ & _ & _ & Hf & Ht & _ & _
    & _ & Htr & ->).
  assert (d' = d) as -> by congruence. rewrite Hf, Ht in *. assert (v = vault) as -> by congruence.
  destruct (token_transfer_effect _ _ _ _ _ _ Htr) as (x & y & Hx & Hy & _ & _ & _ & Hm & Hacc).
  rewrite bool_decide_eq_false_2 in Hacc by done.
  destruct Hacc as (x' & (_ & _ & Ham & _ & _)%debited_fields & Hacc).
  assert (x = vault) as -> by congruence. assert (y = receiver) as -> by congruence.
  simpl in Hb. apply handle_burn_burned in Hb
    as (acc & Hacc' & Ho & _ & ((a1 & a2 & _ & Ha2 & _ & Hz & _) & (s' & Hs' & Hs2) & Hrest) & _).
  simpl in *. rewrite Hacc, lookup_insert_eq in Hacc'. injection Hacc' as <-. simpl in *.
  split_and!; [done| | |].
  - exists x'. rewrite Hrest by done. rewrite Hacc, lookup_insert_ne, lookup_insert_eq by done.
    split; [done|lia].
  - eauto.
  - rewrite Hs2. f_equal. assert (s' = supply) as -> by congruence. done.
Qed.
End burner.

(** ** Witnesses *)
Definition burn_key : Pubkey := key 30.
Definition burn_ex_tokens : TokenState :=
  mkTokenState {[ burn_key := mkTokenAccount sc_mint_key burner_address 25 None false ]}
    {[ sc_mint_key := 100 ]}.
Definition burn_ex_accounts : BurnAll := mkBurnAll burner_address sc_mint_key burn_key.

Lemma burn_ex_account :
  tk_accounts burn_ex_tokens !! ba_token_account burn_ex_accounts
    = Some (mkTokenAccount sc_mint_key burner_address 25 None false).
Proof. apply lookup_singleton_eq. Qed.
Lemma burn_ex_supply : tk_mints burn_ex_tokens !! ba_mint burn_ex_accounts = Some 100.
Proof. apply lookup_singleton_eq. Qed.

Lemma burn_is_complete_witness :
  ∃ ts' ev, handle_burn burn_ex_tokens burn_ex_accounts = Ok (ts', ev) ∧
    burned burn_ex_tokens ts' burn_key sc_mint_key 25 ∧
    ev = Some (mkBurnEvent sc_mint_key burn_key 25).
Proof.
  pose proof (burn_is_complete burn_ex_tokens burn_ex_accounts
    (mkTokenAccount sc_mint_key burner_address 25 None false) 100
    burn_ex_account burn_ex_supply eq_refl eq_refl eq_refl ltac:(simpl; lia)) as Hb.
  rewrite bool_decide_eq_true_2 in Hb by reflexivity. exact Hb.
Defined.

(** The scenario's distributor, clawed back into the burner's account. *)
Definition burn_sc1 : State :=
  set_tokens (mkTokenState
    (<[burn_key := mkTokenAccount sc_mint_key burner_address 5 None false]>
       (tk_accounts (st_tokens sc_state4))) (tk_mints (st_tokens sc_state4))) sc_state4.
Definition burn_sc_receiver : Instruction :=
  ISetClawbackReceiver (mkSetClawbackReceiver sc_dist burn_key ADMIN_ID).
Definition burn_sc2 : State := run {[ ADMIN_ID ]} burn_sc1 burn_sc_receiver.
Definition burn_sc3 : State := set_clock (mkClock 9000 88900) burn_sc2.
Definition burn_sc_clawback : Clawback := mkClawback sc_dist sc_vault burn_key sc_crank.
Definition burn_sc4 : State := run {[ sc_crank ]} burn_sc3 (IClawback burn_sc_clawback).

Lemma burn_sc1_ok : state_ok burn_sc1.
Proof.
  apply (state_ok_update sc_state4); [exact (steps_ok _ _ _ sc_state1_ok sc_steps_1_4)| |auto|auto].
  assert (tk_accounts (st_tokens sc_state4) !! burn_key = None) as Hn by (vm_compute; reflexivity).
  unfold tokens_step. cbn [tk_accounts].
  generalize dependent (tk_accounts (st_tokens sc_state4)). intros m Hn. split.
  - intros p a Hp. rewrite lookup_insert_ne by congruence. eauto.
  - intros Hnn p a [[_ <-]|[_ Ha]]%lookup_insert_Some; [simpl; lia|eauto].
Qed.

Lemma burn_sc_step2 : process_instruction {[ ADMIN_ID ]} burn_sc1 burn_sc_receiver = Ok burn_sc2.
Proof. apply run_ok. vm_compute. reflexivity. Qed.
Lemma burn_sc_step4 :
  process_instruction {[ sc_crank ]} burn_sc3 (IClawback burn_sc_clawback) = Ok burn_sc4.
Proof. apply run_ok. vm_compute. reflexivity. Qed.

Lemma burn_sc3_ok : state_ok burn_sc3.
Proof.
  assert (state_ok burn_sc2) as Hok2.
  { eapply effect_ok; [exact burn_sc1_ok|].
    eapply process_instruction_effect; [apply state_ok_typed, burn_sc1_ok| |exact burn_sc_step2].
    exact I. }
  apply (step_ok any_ix burn_sc2); [exact Hok2|]. apply step_clock;
    [vm_compute; congruence|vm_compute; congruence
    |vm_compute; intuition congruence|vm_compute; intuition congruence].
Qed.

Definition burn_sc_dist : MerkleDistributor := sc_distributor_at burn_sc3.
Definition burn_sc_receiver_acc : TokenAccount :=
  default (mkTokenAccount (key 0) (key 0) 0 None false) (tk_accounts (st_tokens burn_sc3) !! burn_key).

Lemma burn_sc_facts :
  st_accounts burn_sc3 !! sc_dist = Some (DistributorAcc burn_sc_dist) ∧
  tk_accounts (st_tokens burn_sc3) !! md_token_vault burn_sc_dist = Some (sc_vault_at burn_sc3) ∧
  tk_accounts (st_tokens burn_sc3) !! md_clawback_receiver burn_sc_dist
    = Some burn_sc_receiver_acc ∧
  tk_mints (st_tokens burn_sc3) !! ta_mint burn_sc_receiver_acc = Some 1000 ∧
  md_clawback_receiver burn_sc_dist ≠ md_token_vault burn_sc_dist.
Proof.
  split; [apply sc_distributor_lookup; vm_compute; reflexivity|].
  split; [vm_compute; reflexivity|]. split; [vm_compute; reflexivity|].
  split; [vm_compute; reflexivity|]. apply (bool_decide_unpack _). vm_compute. exact I.
Qed.

Definition burn_sc_accounts : BurnAll :=
  mkBurnAll burner_address (ta_mint burn_sc_receiver_acc) (md_clawback_receiver burn_sc_dist).
Definition burn_sc_run : fallible (TokenState * option BurnEvent) :=
  handle_burn (st_tokens burn_sc4) burn_sc_accounts.
Definition ok_default {A} (dflt : A) (r : fallible A) : A :=
  match r with Ok a => a | Err _ => dflt end.
Definition burn_sc_result : TokenState * option BurnEvent :=
  ok_default (burn_ex_tokens, None) burn_sc_run.

Lemma burn_sc_burn :
  handle_burn (st_tokens burn_sc4) burn_sc_accounts = Ok (burn_sc_result.1, burn_sc_result.2).
Proof.
  assert (is_ok burn_sc_run = true) as Hok by (vm_compute; reflexivity).
  fold burn_sc_run. unfold burn_sc_result. revert Hok. generalize burn_sc_run. by intros [[? ?]|].
Qed.

Lemma clawback_then_burn_witness :
  tk_mints burn_sc_result.1 !! ta_mint burn_sc_receiver_acc
    = Some (1000 - (ta_amount burn_sc_receiver_acc + ta_amount (sc_vault_at burn_sc3))).
Proof.
  destruct burn_sc_facts as (Hd & Hv & Hr & Hs & Hne).
  exact (proj2 (proj2 (proj2 (clawback_then_burn {[ sc_crank ]} burn_sc3 burn_sc_clawback burn_sc4
    burn_sc_result.1 burn_sc_result.2 burn_sc_dist (sc_vault_at burn_sc3) burn_sc_receiver_acc 1000
    burn_sc3_ok Hd Hv Hr Hs Hne burn_sc_step4 burn_sc_burn)))).
Defined.

(** 84 left in the vault and 5 in the receiver are gone from the supply. *)
Example burn_sc_supply : tk_mints burn_sc_result.1 !! sc_mint_key = Some 911.
Proof. vm_compute. reflexivity. Qed.
