(* ===== verification/Api.v ===== *)
(** * The claim API (src/api/src: error.rs, cache.rs, router.rs, main.rs)

    The server's state, its in-memory cache of claim statuses and distributors,
    and the request handlers.  The workspace builds with [overflow-checks], so
    plain arithmetic panics on overflow: a panic of a handler is [ApiPanic].
    The text form of public keys is code of the Solana SDK: [PubkeyParser] and
    [PubkeyText], with the documented round trip [PubkeyTextSpec]. *)
From S2P Require Import Prelude Machine Hashing MerkleTree TreeNode Airdrop.
From S2P Require Import ProgramError ClaimStatus Solana Token State.
From stdpp Require Import pretty.
#[local] Open Scope Z_scope.

(** ** Errors (error.rs) *)

(** The payloads of foreign error types are dropped. *)
Inductive ApiError :=
| EMerkleTreeError (e : MerkleTreeError)
| EUserNotFound (user : string)
| ERpcError
| EProofNotFound (user : string)
| EParsePubkeyError
| EVestingError (msg : string)
| EMerkleDistributorError (msg : string)
| EInternalError
| EMaxReconnectionAttemptsReached
| EMerkleDistributorNotFound (key : string)
| EMathError
| EUnauthorized.

Definition INTERNAL_SERVER_ERROR : Z := 500.
Definition NOT_FOUND : Z := 404.
Definition UNAUTHORIZED : Z := 401.
Definition REQUEST_TIMEOUT : Z := 408.
Definition SERVICE_UNAVAILABLE : Z := 503.

(** Status code and message of the JSON body. *)
Definition into_response (e : ApiError) : Z * string :=
  match e with
  | EMerkleTreeError _ => (INTERNAL_SERVER_ERROR, "Internal Server Error")
  | EUserNotFound _ => (NOT_FOUND, "User not found")
  | EProofNotFound _ => (INTERNAL_SERVER_ERROR, "Proof not found")
  | EParsePubkeyError => (INTERNAL_SERVER_ERROR, "Pubkey parse error")
  | ERpcError => (INTERNAL_SERVER_ERROR, "Rpc error")
  | EVestingError _ => (INTERNAL_SERVER_ERROR, "Vesting error")
  | EMerkleDistributorError _ => (INTERNAL_SERVER_ERROR, "Internal Server Error")
  | EInternalError => (INTERNAL_SERVER_ERROR, "Internal Server Error")
  | EMaxReconnectionAttemptsReached =>
      (INTERNAL_SERVER_ERROR, "Max connection attempts reached")
  | EMerkleDistributorNotFound _ => (INTERNAL_SERVER_ERROR, "Merkle Distributor not found")
  | EMathError => (INTERNAL_SERVER_ERROR, "Math Error")
  | EUnauthorized => (UNAUTHORIZED, "Unauthorized")
  end%string.

(** The errors of the middleware that [handle_error] tells apart. *)
Inductive BoxError := Elapsed | Overloaded | OtherError.

(** Status code, and the [code] and [error] fields of the body. *)
Definition handle_error (e : BoxError) : Z * (Z * string) :=
  match e with
  | Elapsed => (REQUEST_TIMEOUT, (408, "Request Timeout"%string))
  | Overloaded => (SERVICE_UNAVAILABLE, (503, "Service Unavailable"%string))
  | OtherError => (INTERNAL_SERVER_ERROR, (500, "Internal Server Error"%string))
  end.

Inductive api_failure :=
| ApiErr (e : ApiError)
| ApiPanic.

(** Arithmetic under [overflow-checks], and [unwrap]. *)
Definition or_panic {A : Type} (o : option A) : result api_failure A := ok_or o ApiPanic.

(** ** Claimable amounts (router.rs) *)
Definition START_AMOUNT_PCT_PRECISION : Z := 1000.
Definition START_AMOUNT_PCT_DENOM : Z := 100 * START_AMOUNT_PCT_PRECISION.

Definition calculate_claimable_amount_for_new_user
    (unlocked_amount curr_ts start_ts end_ts start_amount_pct : Z) : result api_failure Z :=
  if curr_ts <? start_ts then Ok 0
  else if end_ts <=? curr_ts then Ok unlocked_amount
  else
    into ← or_panic (checked_sub_i64 curr_ts start_ts);
    let time_into_unlock := as_u128 into in
    total ← or_panic (checked_sub_i64 end_ts start_ts);
    let total_unlock_time := as_u128 total in
    if total_unlock_time =? 0 then Ok unlocked_amount
    else
      start_amount_pct_num ←
        or_panic (checked_mul_u128 start_amount_pct START_AMOUNT_PCT_PRECISION);
      start_prod ← or_panic (checked_mul_u128 (as_u128 unlocked_amount) start_amount_pct_num);
      start_quot ← or_panic (checked_div_u128 start_prod START_AMOUNT_PCT_DENOM);
      let start_amount := as_u64 start_quot in
      rest ← or_panic (checked_sub_u64 unlocked_amount start_amount);
      prod ← or_panic (checked_mul_u128 time_into_unlock (as_u128 rest));
      quot ← or_panic (checked_div_u128 prod total_unlock_time);
      let bonus_amount := as_u64 quot in
      or_panic (checked_add_u64 start_amount bonus_amount).

Definition calculate_locked_amount_claimable (locked_amount curr_ts start_ts end_ts : Z)
  : result api_failure Z :=
  if curr_ts <? start_ts then Ok 0
  else if end_ts <=? curr_ts then Ok locked_amount
  else
    into ← or_panic (checked_sub_i64 curr_ts start_ts);
    let time_into_unlock := as_u128 into in
    total ← or_panic (checked_sub_i64 end_ts start_ts);
    let total_unlock_time := as_u128 total in
    if total_unlock_time =? 0 then Ok locked_amount
    else
      prod ← or_panic (checked_mul_u128 time_into_unlock (as_u128 locked_amount));
      quot ← or_panic (checked_div_u128 prod total_unlock_time);
      Ok (as_u64 quot).

(** ** The cache (cache.rs) *)
Record DataAndSlot := mkDataAndSlot { ds_data : ClaimStatus; ds_slot : Z }.

Record SingleDistributor := mkSingleDistributor {
  sd_distributor_pubkey : string;
  sd_airdrop_version : Z;
  sd_max_num_nodes : Z;
  sd_max_total_claim : Z
}.

Record Cache := mkCache {
  ca_claim_status_cache : gmap string DataAndSlot;
  ca_distributor_cache : gmap string MerkleDistributor;
  ca_program_id : Pubkey;
  ca_subscribed : bool;
  ca_distributors : list SingleDistributor;
  ca_unvested_users : option (gmap string Z);
  ca_default_start_ts : Z;
  ca_default_end_ts : Z;
  ca_default_mint : string
}.

Definition Cache_new (program_id : Pubkey) (distributors : list SingleDistributor)
    (unvested_users : option (gmap string Z)) (default_start_ts default_end_ts : Z)
    (default_mint : string) : Cache :=
  mkCache ∅ ∅ program_id false distributors unvested_users default_start_ts default_end_ts
    default_mint.

Definition set_claim_status_cache (m : gmap string DataAndSlot) (c : Cache) : Cache :=
  mkCache m (ca_distributor_cache c) (ca_program_id c) (ca_subscribed c) (ca_distributors c)
    (ca_unvested_users c) (ca_default_start_ts c) (ca_default_end_ts c) (ca_default_mint c).
Definition set_distributor_cache (m : gmap string MerkleDistributor) (c : Cache) : Cache :=
  mkCache (ca_claim_status_cache c) m (ca_program_id c) (ca_subscribed c) (ca_distributors c)
    (ca_unvested_users c) (ca_default_start_ts c) (ca_default_end_ts c) (ca_default_mint c).

Definition cache_get_claim_status (c : Cache) (claimant : string) : option DataAndSlot :=
  ca_claim_status_cache c !! claimant.
(** In the iteration order of the map, which the source leaves open. *)
Definition get_all_distributors (c : Cache) : list (string * MerkleDistributor) :=
  map_to_list (ca_distributor_cache c).
Definition cache_get_distributor (c : Cache) (pubkey : string) : option MerkleDistributor :=
  ca_distributor_cache c !! pubkey.
Definition cache_len (c : Cache) : nat := size (ca_claim_status_cache c).

Definition get_unvested_amount (c : Cache) (user_pubkey : string) : Z :=
  match ca_unvested_users c with
  | None => 0
  | Some m => default 0 (m !! user_pubkey)
  end.

Class PubkeyText := pubkey_to_string : Pubkey → string.

(** [to_string] is the base-58 form that [from_str] reads back. *)
Class PubkeyTextSpec `{PubkeyParser} `{PubkeyText} : Prop :=
  pubkey_text_roundtrip k : pubkey_from_str (pubkey_to_string k) = Some k.

#[global] Instance pubkey_to_string_inj `{PubkeyTextSpec} : Inj (=) (=) pubkey_to_string.
Proof.
  intros a b Hab. pose proof (pubkey_text_roundtrip a) as Ha.
  rewrite Hab, pubkey_text_roundtrip in Ha. congruence.
Qed.

Section api.
Context `{PubkeyParser} `{PubkeyText}.

Definition get_distributor_keys (c : Cache) : result api_failure (list Pubkey) :=
  try_map (λ d, or_panic (pubkey_from_str (sd_distributor_pubkey d))) (ca_distributors c).

(** One message of the update channel, as [start_cache_updater] treats it. *)
Definition apply_update (m : gmap string DataAndSlot) (data : DataAndSlot)
  : gmap string DataAndSlot :=
  let k := pubkey_to_string (cs_claimant (ds_data data)) in
  match m !! k with
  | Some entry =>
      if bool_decide (ds_data entry = ds_data data) then m
      else if (ds_slot entry <=? ds_slot data)
              || ((ds_slot data =? 0) && negb (bool_decide (ds_data entry = ds_data data)))
      then <[k := data]> m
      else m
  | None => <[k := data]> m
  end.

(** [while let Some((pubkey, data)) = update_rx.recv().await]. *)
Definition cache_updater (c : Cache) (updates : list DataAndSlot) : Cache :=
  set_claim_status_cache (foldl apply_update (ca_claim_status_cache c) updates) c.

(** One response of [get_multiple_accounts]: the accounts come in the order of
    the keys; [None] is a missing account, [Some None] one that does not
    deserialize ([unwrap]). *)
Definition hydrate_distributors_cache (c : Cache)
    (accounts : list (option (option MerkleDistributor))) : result api_failure Cache :=
  m ← try_fold (λ m '(index, account),
        d ← or_panic (ca_distributors c !! index);
        match account with
        | Some data => v ← or_panic data; Ok (<[sd_distributor_pubkey d := v]> m)
        | None => Ok m
        end)
      (ca_distributor_cache c) (zip (seq 0 (length accounts)) accounts);
  Ok (set_distributor_cache m c).

(** A response of the RPC call: the accounts, or an error, which is worth
    retrying when its text names a network failure. *)
Inductive gma_response :=
| GmaAccounts (accounts : list (option (option MerkleDistributor)))
| GmaError (network : bool).

Definition MAX_RETRIES : nat := 3.

(** The retry loop: [retries] retries remain, [rpc] are the responses to come. *)
Fixpoint hydrate_retry (retries : nat) (rpc : nat → gma_response) (c : Cache)
  : result api_failure Cache :=
  match rpc 0%nat with
  | GmaAccounts accounts => hydrate_distributors_cache c accounts
  | GmaError network =>
      match retries with
      | O => Ok c
      | S retries => if network then hydrate_retry retries (λ i, rpc (S i)) c else Ok c
      end
  end.

(** One cycle of the background task; the keys are parsed first ([unwrap]). *)
Definition hydrate_cycle (rpc : nat → gma_response) (c : Cache) : result api_failure Cache :=
  _ ← get_distributor_keys c;
  hydrate_retry (MAX_RETRIES - 1) rpc c.

(** ** Routes (router.rs) *)
Record RouterState := mkRouterState {
  rs_basic_auth_user : option string;
  rs_basic_auth_password : option string;
  rs_program_id : Pubkey;
  rs_tree : gmap Pubkey (Pubkey * TreeNode);
  rs_cache : Cache;
  rs_start_amount_pct : Z
}.

Definition needs_auth (s : RouterState) : bool :=
  match rs_basic_auth_user s, rs_basic_auth_password s with
  | Some _, Some _ => true
  | _, _ => false
  end.

Record UserProof := mkUserProof {
  up_merkle_tree : string;
  up_amount : Z;
  up_locked_amount : Z;
  up_proof : list Hash
}.

Definition get_user_proof (merkle_tree : gmap Pubkey (Pubkey * TreeNode)) (pubkey : string)
  : result api_failure UserProof :=
  user_pubkey ← ok_or (pubkey_from_str pubkey) (ApiErr EParsePubkeyError);
  node ← ok_or (merkle_tree !! user_pubkey)
           (ApiErr (EUserNotFound (pubkey_to_string user_pubkey)));
  proof ← ok_or (tn_proof node.2) (ApiErr (EProofNotFound (pubkey_to_string user_pubkey)));
  Ok (mkUserProof (pubkey_to_string node.1) (unlocked_amount_of node.2)
        (locked_amount_of node.2) proof).

Definition get_user_info (s : RouterState) (user_pubkey : string) : result api_failure UserProof :=
  get_user_proof (rs_tree s) user_pubkey.

Record ClaimStatusResp := mkClaimStatusResp {
  csr_claimant : Pubkey;
  csr_locked_amount : Z;
  csr_locked_amount_withdrawn : Z;
  csr_unlocked_amount : Z;
  csr_unlocked_amount_claimed : Z;
  csr_closable : bool;
  csr_distributor : Pubkey
}.

Definition route_claim_status (s : RouterState) (user_pubkey : string)
  : result api_failure ClaimStatusResp :=
  match cache_get_claim_status (rs_cache s) user_pubkey with
  | Some data =>
      let cs := ds_data data in
      Ok (mkClaimStatusResp (cs_claimant cs) (cs_locked_amount cs) (cs_locked_amount_withdrawn cs)
            (cs_unlocked_amount cs) (cs_unlocked_amount_claimed cs) (cs_closable cs)
            (cs_distributor cs))
  | None => Err (ApiErr (EUserNotFound user_pubkey))
  end.

Record EligibilityResp := mkEligibilityResp {
  er_claimant : string;
  er_merkle_tree : string;
  er_mint : string;
  er_start_ts : Z;
  er_end_ts : Z;
  er_proof : list Hash;
  er_start_amount : string;
  er_end_amount : string;
  er_unvested_amount : string;
  er_claimed_amount : string;
  er_unlocked_amount_claimed : string;
  er_locked_amount_withdrawn : string;
  er_locked_amount : string;
  er_claimable_amount : string
}.

(** Start, end and mint of the user's distributor, or the configured defaults. *)
Definition vesting_window (s : RouterState) (distributor : option MerkleDistributor)
  : Z * Z * string :=
  match distributor with
  | Some d => (md_start_ts d, md_end_ts d, pubkey_to_string (md_mint d))
  | None => (ca_default_start_ts (rs_cache s), ca_default_end_ts (rs_cache s),
             ca_default_mint (rs_cache s))
  end.

(** Unlocked amount claimed, locked amount withdrawn and claimable amount. *)
Definition claim_progress (s : RouterState) (user_pubkey : string) (proof : UserProof)
    (curr_ts start_ts end_ts : Z) : result api_failure (Z * Z * Z) :=
  match cache_get_claim_status (rs_cache s) user_pubkey with
  | Some r =>
      Ok (cs_unlocked_amount_claimed (ds_data r), cs_locked_amount_withdrawn (ds_data r),
          match amount_withdrawable (ds_data r) curr_ts start_ts end_ts with
          | Ok a => a
          | Err _ => 0
          end)
  | None =>
      unlocked_claimable ← calculate_claimable_amount_for_new_user (up_amount proof) curr_ts
                             start_ts end_ts (rs_start_amount_pct s);
      locked_claimable ← calculate_locked_amount_claimable (up_locked_amount proof) curr_ts
                           start_ts end_ts;
      claimable ← or_panic (checked_add_u64 unlocked_claimable locked_claimable);
      Ok (0, 0, claimable)
  end.

(** [curr_ts] is the system time. *)
Definition get_eligibility (s : RouterState) (curr_ts : Z) (user_pubkey : string)
  : result api_failure (list EligibilityResp) :=
  proof ← get_user_proof (rs_tree s) user_pubkey;
  let distributor := cache_get_distributor (rs_cache s) (up_merkle_tree proof) in
  let '(start_ts, end_ts, mint) := vesting_window s distributor in
  '(unlocked_amount_claimed, locked_amount_withdrawn, claimable_amount) ←
    claim_progress s user_pubkey proof curr_ts start_ts end_ts;
  start_amount_pct_num ←
    or_panic (checked_mul_u128 (rs_start_amount_pct s) START_AMOUNT_PCT_PRECISION);
  start_prod ← ok_or (checked_mul_u128 (as_u128 (up_amount proof)) start_amount_pct_num)
                 (ApiErr EMathError);
  start_amount ← ok_or (checked_div_u128 start_prod START_AMOUNT_PCT_DENOM) (ApiErr EMathError);
  claimed ← or_panic (checked_add_u64 unlocked_amount_claimed locked_amount_withdrawn);
  Ok [mkEligibilityResp user_pubkey (up_merkle_tree proof) mint start_ts end_ts (up_proof proof)
        (pretty start_amount) (pretty (up_amount proof))
        (pretty (get_unvested_amount (rs_cache s) user_pubkey)) (pretty claimed)
        (pretty unlocked_amount_claimed) (pretty locked_amount_withdrawn)
        (pretty (up_locked_amount proof)) (pretty claimable_amount)].

Record MerkleDistributorResp := mkMerkleDistributorResp {
  mr_pubkey : string;
  mr_version : Z;
  mr_mint : string;
  mr_token_vault : string;
  mr_max_total_claim : Z;
  mr_max_num_nodes : Z;
  mr_total_amount_claimed : Z;
  mr_total_amount_forgone : Z;
  mr_num_nodes_claimed : Z;
  mr_start_ts : Z;
  mr_end_ts : Z;
  mr_clawback_start_ts : Z;
  mr_clawback_receiver : string;
  mr_admin : string;
  mr_clawed_back : bool;
  mr_enable_slot : Z;
  mr_closable : bool
}.

Definition MerkleDistributorResp_from (pubkey : string) (d : MerkleDistributor)
  : MerkleDistributorResp :=
  mkMerkleDistributorResp pubkey (md_version d) (pubkey_to_string (md_mint d))
    (pubkey_to_string (md_token_vault d)) (md_max_total_claim d) (md_max_num_nodes d)
    (md_total_amount_claimed d) (md_total_amount_forgone d) (md_num_nodes_claimed d)
    (md_start_ts d) (md_end_ts d) (md_clawback_start_ts d)
    (pubkey_to_string (md_clawback_receiver d)) (pubkey_to_string (md_admin d))
    (md_clawed_back d) (md_enable_slot d) (md_closable d).

Definition get_distributors (s : RouterState) : list MerkleDistributorResp :=
  map (λ '(k, v), MerkleDistributorResp_from k v) (get_all_distributors (rs_cache s)).

(** ** Start-up (main.rs) *)
Definition ui_amount_to_token_amount (amount decimals : Z) : result api_failure Z :=
  scale ← or_panic (if 10 ^ decimals <=? U128_MAX then Some (10 ^ decimals) else None);
  or_panic (checked_mul_u128 amount scale).

(** The rows of the vested-accounts file, parsed. *)
Definition load_vested_users (rows : list (string * Z)) (decimals : Z)
  : result api_failure (gmap string Z) :=
  try_fold (λ m '(user, amount),
      vested_amount ← ui_amount_to_token_amount amount decimals;
      match m !! user with
      | Some e => e' ← or_panic (checked_add_u128 e vested_amount); Ok (<[user := e']> m)
      | None => Ok (<[user := vested_amount]> m)
      end) ∅ rows.

Context `{AddressDerivation}.

(** A task loads one tree while it holds the lock of the distributor list, so
    the trees are inserted one after the other, in the order of that lock. *)
Definition load_tree (program_id mint : Pubkey)
    (acc : list SingleDistributor * gmap Pubkey (Pubkey * TreeNode)) (tree : AirdropMerkleTree)
  : list SingleDistributor * gmap Pubkey (Pubkey * TreeNode) :=
  let distributor_pubkey :=
    (get_merkle_distributor_pda program_id mint (at_airdrop_version tree)).1 in
  (acc.1 ++ [mkSingleDistributor (pubkey_to_string distributor_pubkey) (at_airdrop_version tree)
               (at_max_num_nodes tree) (at_max_total_claim tree)],
   foldl (λ m n, <[tn_claimant n := (distributor_pubkey, n)]> m) acc.2 (at_tree_nodes tree)).

Definition load_trees (program_id mint : Pubkey) (trees : list AirdropMerkleTree)
  : list SingleDistributor * gmap Pubkey (Pubkey * TreeNode) :=
  foldl (load_tree program_id mint) ([], ∅) trees.
End api.

(** ** A concrete text form, for evaluating examples: keys written as 32 characters *)
Definition raw_text : PubkeyText := λ k, String.string_of_list_byte (b32_list k).
Definition raw_parser : PubkeyParser := λ s,
  let l := String.list_byte_of_string s in
  if Nat.eqb (length l) 32 then Some (b32_of_list l) else None.

Lemma raw_text_spec : @PubkeyTextSpec raw_parser raw_text.
Proof.
  intros k. unfold pubkey_from_str, raw_parser, pubkey_to_string, raw_text.
  rewrite String.list_byte_of_string_of_list_byte, b32_length, b32_of_list_list. done.
Qed.

