(* ===== verification/Routes.v ===== *)
(** * Routing and authentication
    (src/api/src/router.rs: [get_routes], the handlers' responses; error.rs:
    [IntoResponse] and [handle_error]; main.rs: start-up)

    A request is matched to a route, passes the credential check when the server
    is configured with credentials, and is answered by a handler.  The layers of
    the middleware that can refuse a request are code of tower: what they decide
    is the argument [layers].  The check of tower-http is the comparison of the
    header with the credentials' encoding, the parameter [BasicAuth]. *)
From S2P Require Import Prelude Machine Hashing MerkleTree TreeNode Airdrop.
From S2P Require Import ProgramError ClaimStatus Solana Token State Api.

Inductive Method := GET | HEAD | OPTIONS | OtherMethod.

(** The path in segments: [/user/x] is [["user"; "x"]]. *)
Record Request := mkRequest {
  rq_method : Method;
  rq_path : list string;
  rq_authorization : option string
}.

(** [ValidateRequestHeaderLayer::basic(user, password)] accepts this header. *)
Class BasicAuth := basic_header : string → string → string.

Definition OK : Z := 200.
Definition METHOD_NOT_ALLOWED : Z := 405.

Inductive Body :=
| TextBody (s : string)
| UserProofBody (p : UserProof)
| ClaimStatusBody (r : ClaimStatusResp)
| EligibilityBody (l : list EligibilityResp)
| DistributorsBody (l : list MerkleDistributorResp)
| ErrorBody (error : string)
| CodeBody (code : Z) (error : string)
| EmptyBody.

Record Response := mkResponse { rp_status : Z; rp_body : Body }.

(** The routes of [get_routes]; [:user_pubkey] matches a non-empty segment. *)
Inductive Route :=
| Root
| Distributors
| UserInfo (user_pubkey : string)
| Claim (user_pubkey : string)
| Eligibility (user_pubkey : string).

Definition match_route (path : list string) : option Route :=
  match path with
  | [] => Some Root
  | [p] => if String.eqb p "distributors" then Some Distributors else None
  | [p; user_pubkey] =>
      if String.eqb user_pubkey "" then None
      else if String.eqb p "user" then Some (UserInfo user_pubkey)
      else if String.eqb p "claim" then Some (Claim user_pubkey)
      else if String.eqb p "eligibility" then Some (Eligibility user_pubkey)
      else None
  | _ => None
  end.

(** Every route but the root is behind [route_layer] when credentials are set. *)
Definition guarded (r : Route) : bool := match r with Root => false | _ => true end.

Section routes.
Context `{PubkeyParser} `{PubkeyText} `{BasicAuth}.

(** [Result<impl IntoResponse>]: the error becomes a response; a panic ends the
    connection. *)
Definition respond {A : Type} (body : A → Body) (r : result api_failure A) : result api_failure Response :=
  match r with
  | Ok a => Ok (mkResponse OK (body a))
  | Err (ApiErr e) => let '(status, msg) := into_response e in Ok (mkResponse status (ErrorBody msg))
  | Err ApiPanic => Err ApiPanic
  end.

Definition root : string := "hey what u doing here".

(** [now] is the system time. *)
Definition handle (s : RouterState) (now : Z) (r : Route) : result api_failure Response :=
  match r with
  | Root => Ok (mkResponse OK (TextBody root))
  | Distributors => Ok (mkResponse OK (DistributorsBody (get_distributors s)))
  | UserInfo user_pubkey => respond UserProofBody (get_user_info s user_pubkey)
  | Claim user_pubkey => respond ClaimStatusBody (route_claim_status s user_pubkey)
  | Eligibility user_pubkey => respond EligibilityBody (get_eligibility s now user_pubkey)
  end.

(** The layer around the guarded routes. *)
Definition authorized (s : RouterState) (rq : Request) : bool :=
  match rs_basic_auth_user s, rs_basic_auth_password s with
  | Some user, Some password => bool_decide (rq_authorization rq = Some (basic_header user password))
  | _, _ => true
  end.

(** [get(handler)] answers GET and HEAD (without the body). *)
Definition by_method (m : Method) (r : result api_failure Response) : result api_failure Response :=
  match m with
  | GET => r
  | HEAD => rp ← r; Ok (mkResponse (rp_status rp) EmptyBody)
  | OPTIONS | OtherMethod => Ok (mkResponse METHOD_NOT_ALLOWED EmptyBody)
  end.

(** The router: an unknown path is not found; the layer around a matched route
    comes before the choice by method. *)
Definition get_routes (s : RouterState) (now : Z) (rq : Request) : result api_failure Response :=
  match match_route (rq_path rq) with
  | None => Ok (mkResponse NOT_FOUND EmptyBody)
  | Some r =>
      if needs_auth s && guarded r && negb (authorized s rq)
      then Ok (mkResponse UNAUTHORIZED EmptyBody)
      else by_method (rq_method rq) (handle s now r)
  end.

(** The middleware around the router: one of its layers fails ([HandleErrorLayer]
    answers), or the router does. *)
Definition middleware (layers : option BoxError) (inner : result api_failure Response)
  : result api_failure Response :=
  match layers with
  | Some e => let '(status, (code, msg)) := handle_error e in Ok (mkResponse status (CodeBody code msg))
  | None => inner
  end.

(** The outermost layer, [CorsLayer], answers every OPTIONS request itself, with an
    empty body; it only adds headers to the other responses. *)
Definition cors (m : Method) (inner : result api_failure Response) : result api_failure Response :=
  match m with
  | OPTIONS => Ok (mkResponse OK EmptyBody)
  | _ => inner
  end.

(** [router.layer(middleware).layer(cors)]. *)
Definition serve (s : RouterState) (now : Z) (layers : option BoxError) (rq : Request)
  : result api_failure Response :=
  cors (rq_method rq) (middleware layers (get_routes s now rq)).

(** ** The credential check *)
Definition with_credentials (s : RouterState) (user password : option string) : RouterState :=
  mkRouterState user password (rs_program_id s) (rs_tree s) (rs_cache s) (rs_start_amount_pct s).

(** C29. Credentials guard the data.  On a server configured with a user and a
    password, the response to a request without exactly those credentials does
    not depend on what the server knows (trees, cache, percentage, time): it is
    the greeting of the root, 401, 404, 405, the empty answer to OPTIONS or an
    error of the middleware.  With
    the credentials, or on a server that lacks one of the two options, every
    request is answered as by an open server. *)
Theorem credentials_guard_the_data s s' now now' layers rq user password :
  (rq_authorization rq ≠ Some (basic_header user password) →
     serve (with_credentials s (Some user) (Some password)) now layers rq =
     serve (with_credentials s' (Some user) (Some password)) now' layers rq ∧
     ∃ rp, serve (with_credentials s (Some user) (Some password)) now layers rq = Ok rp ∧
       match rp_body rp with
       | TextBody t => t = root
       | CodeBody _ _ => is_Some layers
       | EmptyBody => rp_status rp ∈ [OK; UNAUTHORIZED; NOT_FOUND; METHOD_NOT_ALLOWED]
       | _ => False
       end) ∧
  (rq_authorization rq = Some (basic_header user password) →
     serve (with_credentials s (Some user) (Some password)) now layers rq =
     serve (with_credentials s None None) now layers rq) ∧
  serve (with_credentials s (Some user) None) now layers rq
    = serve (with_credentials s None None) now layers rq ∧
  serve (with_credentials s None (Some password)) now layers rq
    = serve (with_credentials s None None) now layers rq.
Proof.
  assert (∀ u p r, handle (with_credentials s u p) now r = handle (with_credentials s None None) now r)
    as Hh by (by intros u p []).
  assert (rq_method rq = OPTIONS ∨ ∀ r, cors (rq_method rq) r = r) as [Hopt|Hcors]
    by (destruct (rq_method rq); auto).
  { unfold serve. rewrite Hopt. split_and!; try done. intros _. split; [done|]. eexists. split; [done|].
    simpl. set_solver. }
  unfold serve, middleware, get_routes, authorized. rewrite !Hcors. simpl. destruct layers as [e|]; simpl.
  { split_and!; try done. intros _. split; [done|]. destruct e; eexists; (split; [done|]); simpl; eauto. }
  destruct (match_route (rq_path rq)) as [r|]; simpl.
  2: { split_and!; try done. intros _. split; [done|]. eexists. split; [done|]. simpl. set_solver. }
  rewrite !Hh. split_and!; try done.
  - intros Hno. rewrite bool_decide_eq_false_2 by done. simpl. rewrite andb_true_r.
    destruct r; simpl; (split; [done|]); [destruct (rq_method rq)|..]; eexists;
      (split; [reflexivity|]); simpl; set_solver.
  - intros ->. rewrite bool_decide_eq_true_2 by done. by rewrite andb_false_r.
Qed.
End routes.

(** A server with credentials and no data. *)
#[local] Existing Instances raw_parser raw_text.
#[local] Instance plain_auth : BasicAuth := λ user password, (user ++ ":" ++ password)%string.
Definition rx_server : RouterState :=
  mkRouterState None None (key 0) ∅ (Cache_new (key 0) [] None 0 0 EmptyString) 50.

Example rx_responses :
  let s := with_credentials rx_server (Some "a") (Some "b") in
  serve s 0 None (mkRequest GET ["distributors"] (Some "a:b")) = Ok (mkResponse 200 (DistributorsBody [])) ∧
  serve s 0 None (mkRequest GET ["distributors"] None) = Ok (mkResponse 401 EmptyBody) ∧
  serve s 0 None (mkRequest OPTIONS ["distributors"] None) = Ok (mkResponse 200 EmptyBody) ∧
  serve s 0 None (mkRequest GET [] None) = Ok (mkResponse 200 (TextBody root)) ∧
  serve s 0 None (mkRequest GET ["user"; "x"] (Some "a:b"))
    = Ok (mkResponse 500 (ErrorBody "Pubkey parse error")).
Proof. vm_compute. repeat split. Qed.

Lemma credentials_guard_the_data_witness :
  serve (with_credentials rx_server (Some "a") (Some "b")) 0 None (mkRequest GET ["distributors"] None) =
  serve (with_credentials rx_server (Some "a") (Some "b")) 7 None (mkRequest GET ["distributors"] None).
Proof.
  destruct (credentials_guard_the_data rx_server rx_server 0 7 None (mkRequest GET ["distributors"] None)
    "a" "b") as [Hno _].
  destruct (Hno ltac:(discriminate)) as [He _]. exact He.
Defined.
