(* ===== verification/ApiTheorems.v ===== *)
(** * What the API answers

    The amounts the server computes are the ones the program pays, the proofs
    it serves are the ones the program accepts, and its cache follows the
    ledger. *)
From S2P Require Import Prelude Machine Hashing MerkleTree MerkleProof TreeNode Airdrop.
From S2P Require Import ProgramError ClaimStatus Solana Token State Handlers Program Execution.
From S2P Require Import Safety Sha256 Scenario Ledger EndToEnd Api.
From stdpp Require Import pretty.
#[local] Open Scope Z_scope.

(** ** Claimable amounts *)

(** [pct] percent at once, the rest linearly. *)
Definition vested_pct (unlocked pct curr_ts start_ts end_ts : Z) : Z :=
  unlocked * pct / 100
  + released (unlocked - unlocked * pct / 100) curr_ts start_ts end_ts.

Lemma start_share_bounds u pct : 0 ≤ u → 0 ≤ pct ≤ 100 → 0 ≤ u * pct / 100 ≤ u.
Proof. intros. rewrite (Z.mul_comm u). apply share_bounds; lia. Qed.

Lemma vested_pct_50 u c s e : vested_pct u 50 c s e = vested u c s e.
Proof.
  unfold vested_pct, vested. replace (u * 50 / 100) with (u / 2); [done|].
  replace 100 with (2 * 50) by lia. symmetry. apply Z.div_mul_cancel_r; lia.
Qed.

Lemma vested_pct_bounds u pct c s e :
  0 ≤ u → 0 ≤ pct ≤ 100 → 0 ≤ vested_pct u pct c s e ≤ u.
Proof.
  intros. unfold vested_pct. pose proof (start_share_bounds u pct ltac:(lia) ltac:(lia)).
  pose proof (released_bounds (u - u * pct / 100) c s e ltac:(lia)). lia.
Qed.

(** Inside the window the two subtractions succeed together. *)
Lemma window_times c s e :
  is_i64 s → is_i64 e → s ≤ c → c < e →
  if I64_MAX <? e - s
  then checked_sub_i64 e s = None
  else checked_sub_i64 c s = Some (c - s) ∧ checked_sub_i64 e s = Some (e - s).
Proof.
  intros. unfold checked_sub_i64. destruct (Z.ltb_spec I64_MAX (e - s)).
  - destruct (Z.leb_spec (e - s) I64_MAX); [lia|]. by rewrite andb_false_r.
  - by rewrite !(proj2 (Z.leb_le _ _)) by zlia.
Qed.

(** The share the code computes once both times are known. *)
Lemma share_panics a t T :
  is_u64 a → 0 ≤ t < T → T ≤ I64_MAX →
  (p ← or_panic (checked_mul_u128 t (as_u128 a));
   q ← or_panic (checked_div_u128 p T); Ok (as_u64 q)) = Ok (t * a / T) ∧ is_u64 (t * a / T).
Proof.
  intros Ha Ht HT. pose proof (share_bounds t T a ltac:(lia) ltac:(lia) ltac:(zlia)).
  rewrite (as_u128_u64 a) by done. rewrite checked_mul_u128_u64 by zlia.
  unfold or_panic, checked_div_u128. cbn [ok_or mbind result_bind].
  destruct (Z.eqb_spec T 0); [lia|]. cbn [ok_or mbind result_bind].
  rewrite as_u64_id by zlia. split; [done|zlia].
Qed.

Lemma start_amount_panics u pct :
  or_panic (checked_div_u128 (u * (pct * START_AMOUNT_PCT_PRECISION)) START_AMOUNT_PCT_DENOM)
  = Ok (u * pct / 100).
Proof.
  unfold or_panic, checked_div_u128, START_AMOUNT_PCT_DENOM, START_AMOUNT_PCT_PRECISION.
  simpl. f_equal. rewrite Z.mul_assoc. change 100000 with (100 * 1000).
  apply Z.div_mul_cancel_r; lia.
Qed.

Lemma calculate_locked_eq l c s e :
  is_u64 l → is_i64 s → is_i64 e →
  calculate_locked_amount_claimable l c s e =
  if window_overflow c s e then Err ApiPanic else Ok (released l c s e).
Proof.
  intros Hl Hs He. unfold calculate_locked_amount_claimable, window_overflow, released.
  destruct (Z.ltb_spec c s), (Z.leb_spec s c); try lia; [done|].
  destruct (Z.leb_spec e c), (Z.ltb_spec c e); try lia; [done|]. cbn [andb].
  pose proof (window_times c s e Hs He ltac:(lia) ltac:(lia)) as Hw.
  destruct (Z.ltb_spec I64_MAX (e - s)).
  - rewrite Hw. by destruct (checked_sub_i64 c s).
  - destruct Hw as [-> ->]. cbn [or_panic ok_or mbind result_bind].
    rewrite !(as_u128_id (_ - _)) by zlia. destruct (Z.eqb_spec (e - s) 0); [lia|].
    by apply share_panics; [|lia..].
Qed.

Lemma calculate_claimable_eq u c s e pct :
  is_u64 u → is_i64 s → is_i64 e → 0 ≤ pct ≤ 100 →
  calculate_claimable_amount_for_new_user u c s e pct =
  if c <? s then Ok 0
  else if window_overflow c s e then Err ApiPanic
  else Ok (vested_pct u pct c s e).
Proof.
  intros Hu Hs He Hpct.
  pose proof (start_share_bounds u pct ltac:(zlia) Hpct) as Hstart.
  unfold calculate_claimable_amount_for_new_user, window_overflow.
  pose proof (vested_pct_bounds u pct c s e ltac:(zlia) Hpct) as Hb.
  unfold vested_pct, released in *.
  destruct (Z.ltb_spec c s), (Z.leb_spec s c); try lia; [done|].
  destruct (Z.leb_spec e c), (Z.ltb_spec c e); try lia; [cbn [andb]; f_equal; lia|]. cbn [andb].
  pose proof (window_times c s e Hs He ltac:(lia) ltac:(lia)) as Hw.
  destruct (Z.ltb_spec I64_MAX (e - s)).
  { rewrite Hw. by destruct (checked_sub_i64 c s). }
  destruct Hw as [-> ->]. cbn [or_panic ok_or mbind result_bind].
  rewrite !(as_u128_id (_ - _)) by zlia. destruct (Z.eqb_spec (e - s) 0); [lia|].
  rewrite checked_mul_u128_u64 by (unfold START_AMOUNT_PCT_PRECISION; zlia).
  cbn [or_panic ok_or mbind result_bind]. rewrite (as_u128_u64 u) by done.
  rewrite checked_mul_u128_u64 by (unfold START_AMOUNT_PCT_PRECISION; zlia).
  cbn [or_panic ok_or mbind result_bind].
  rewrite start_amount_panics. cbn [mbind result_bind].
  rewrite (as_u64_id (u * pct / 100)) by zlia.
  unfold checked_sub_u64. rewrite (proj2 (Z.leb_le _ _)) by lia.
  cbn [or_panic ok_or mbind result_bind].
  destruct (share_panics (u - u * pct / 100) (c - s) (e - s)) as [Hsh _]; [zlia|lia|lia|].
  destruct (or_panic (checked_mul_u128 (c - s) _)) as [p|]; cbn [mbind result_bind] in *; [|done].
  destruct (or_panic (checked_div_u128 p _)) as [q|]; cbn [mbind result_bind] in *; [|done].
  injection Hsh as ->. unfold or_panic, checked_add_u64. by rewrite (proj2 (Z.leb_le _ _)) by zlia.
Qed.

(** ** Loaded trees *)
Section served.
Context `{Hasher} `{PubkeyParser} `{PubkeyText} `{!PubkeyTextSpec} `{AddressDerivation}.

(** A tree file written by the tree builder. *)
Definition built (tree : AirdropMerkleTree) : Prop :=
  ∃ rows, Forall node_wf rows ∧ Z.of_nat (length rows) ≤ 2 ^ 32 - 1 ∧
    AirdropMerkleTree_new rows (at_airdrop_version tree) = Ok tree.

Lemma built_ok tree : built tree → ∃ rows, airdrop_ok rows (at_airdrop_version tree) tree.
Proof.
  intros (rows & Hwf & Hlen & Hnew).
  pose proof (AirdropMerkleTree_new_spec rows (at_airdrop_version tree) Hwf Hlen) as Hs.
  rewrite Hnew in Hs. destruct Hs. eauto.
Qed.

(** The map after inserting a tree's nodes. *)
Lemma insert_nodes_lookup k ns (m : gmap Pubkey (Pubkey * TreeNode)) c v :
  foldl (λ m n, <[tn_claimant n := (k, n)]> m) m ns !! c = Some v →
  (∃ n, n ∈ ns ∧ tn_claimant n = c ∧ v = (k, n)) ∨
  m !! c = Some v ∧ c ∉ map tn_claimant ns.
Proof.
  revert m. induction ns as [|n ns IH]; intros m; simpl; [set_solver|].
  intros [(n' & ? & ? & ->)|[Hm Hc]]%IH; [left; exists n'; set_solver|].
  apply lookup_insert_Some in Hm as [[<- <-]|[Hne Hm]].
  - left. exists n. set_solver.
  - right. set_solver.
Qed.

Lemma insert_nodes_Some k ns (m : gmap Pubkey (Pubkey * TreeNode)) c :
  is_Some (m !! c) ∨ c ∈ map tn_claimant ns →
  is_Some (foldl (λ m n, <[tn_claimant n := (k, n)]> m) m ns !! c).
Proof.
  revert m. induction ns as [|n ns IH]; intros m; simpl; [set_solver|].
  intros Hc. apply IH. destruct (decide (tn_claimant n = c)) as [<- |Hne].
  - left. rewrite lookup_insert_eq. eauto.
  - rewrite lookup_insert_ne by done. set_solver.
Qed.

Lemma load_trees_snoc program_id mint trees tree :
  load_trees program_id mint (trees ++ [tree]) =
  load_tree program_id mint (load_trees program_id mint trees) tree.
Proof. unfold load_trees. by rewrite foldl_snoc. Qed.

Lemma load_trees_lookup program_id mint trees c v :
  (load_trees program_id mint trees).2 !! c = Some v →
  ∃ tree, tree ∈ trees ∧ v.2 ∈ at_tree_nodes tree ∧ tn_claimant v.2 = c ∧
    v.1 = (get_merkle_distributor_pda program_id mint (at_airdrop_version tree)).1.
Proof.
  induction trees as [|tree trees IH] using rev_ind; [done|].
  rewrite load_trees_snoc. intros [(n & ? & ? & ->)|[(t & ? & ?)%IH _]]%insert_nodes_lookup.
  - exists tree. set_solver.
  - exists t. set_solver.
Qed.

Lemma load_trees_Some program_id mint trees tree c :
  tree ∈ trees → c ∈ map tn_claimant (at_tree_nodes tree) →
  is_Some ((load_trees program_id mint trees).2 !! c).
Proof.
  intros Ht Hc. induction trees as [|t trees IH] using rev_ind; [set_solver|].
  rewrite load_trees_snoc. apply insert_nodes_Some.
  apply elem_of_app in Ht as [Ht|<- %list_elem_of_singleton]; auto.
Qed.

(** The leaf the program checks is the leaf of the node. *)
Lemma claim_leaf_of_node n :
  claim_leaf (tn_claimant n) (tn_amount n) (locked_amount_of n)
  = hash_leaf (b32_list (node_hash n)).
Proof. done. Qed.

(** C27. The API serves exactly the claimants of the loaded trees, and what it
    serves is accepted on chain: for the text of key [c] it answers with an
    error (404, user not found) only when no loaded tree has [c]; otherwise the
    response names the distributor address of a loaded tree that has an entry
    for [c], that entry's amounts, and a proof that passes the program's check
    against that tree's root. *)
Theorem served_proofs_are_accepted mint trees c :
  Forall built trees →
  match get_user_proof (load_trees PROGRAM_ID mint trees).2 (pubkey_to_string c) with
  | Ok p =>
      ∃ tree n, tree ∈ trees ∧ n ∈ at_tree_nodes tree ∧ tn_claimant n = c ∧
        up_merkle_tree p = pubkey_to_string (distributor_address mint (at_airdrop_version tree)) ∧
        up_amount p = tn_amount n ∧ up_locked_amount p = locked_amount_of n ∧
        verify (up_proof p) (at_merkle_root tree)
          (claim_leaf c (up_amount p) (up_locked_amount p)) = true
  | Err e =>
      e = ApiErr (EUserNotFound (pubkey_to_string c)) ∧
      ∀ tree, tree ∈ trees → c ∉ map tn_claimant (at_tree_nodes tree)
  end.
Proof.
  intros Hb. unfold get_user_proof. rewrite pubkey_text_roundtrip. cbn [ok_or mbind result_bind].
  destruct (_ !! c) as [[k n]|] eqn:Hl; cbn [ok_or mbind result_bind].
  - apply load_trees_lookup in Hl as (tree & Ht & Hn & Hc & Hk). cbn [fst snd] in *.
    destruct (built_ok tree) as [rows Hok]; [by eapply Forall_forall in Hb|].
    destruct (ao_proofs _ _ _ Hok n Hn) as (p & Hp & Hv & _). rewrite Hp.
    cbn [ok_or mbind result_bind]. exists tree, n. subst c.
    rewrite claim_leaf_of_node. split_and!; try done. by rewrite Hk.
  - split; [done|]. intros tree Ht Hc.
    destruct (load_trees_Some PROGRAM_ID mint trees tree c Ht Hc). congruence.
Qed.
End served.

(** The amounts the server quotes are the amounts the program computes, at
    machine width: with the default 50 percent the quote for the unlocked part
    is what [update_unlocked_amount_claimed] pays, 0 before the start, and the
    quote for the locked part is what [unlocked_amount] releases; the server
    panics exactly where the program reports an arithmetic error.  For any
    percentage up to 100 and a window within [i64] the quote is total and never
    exceeds the allocation. *)
Lemma quotes_match_program cs c s e :
  is_u64 (cs_unlocked_amount cs) → is_u64 (cs_locked_amount cs) → is_i64 s → is_i64 e →
  calculate_claimable_amount_for_new_user (cs_unlocked_amount cs) c s e 50 =
    match update_unlocked_amount_claimed cs c s e with
    | Ok cs' => Ok (cs_unlocked_amount_claimed cs')
    | Err (Custom ClaimingIsNotStarted) => Ok 0
    | Err _ => Err ApiPanic
    end ∧
  calculate_locked_amount_claimable (cs_locked_amount cs) c s e =
    match unlocked_amount cs c s e with Ok a => Ok a | Err _ => Err ApiPanic end ∧
  (e - s ≤ I64_MAX → ∀ pct, 0 ≤ pct ≤ 100 →
     ∃ v, calculate_claimable_amount_for_new_user (cs_unlocked_amount cs) c s e pct = Ok v ∧
       0 ≤ v ≤ cs_unlocked_amount cs).
Proof.
  intros Hu Hl Hs He. split_and!.
  - rewrite calculate_claimable_eq, update_unlocked_amount_claimed_eq by (done || lia).
    rewrite vested_pct_50. destruct (c <? s); [done|]. by destruct (window_overflow c s e).
  - rewrite calculate_locked_eq, unlocked_amount_eq by done. by destruct (window_overflow c s e).
  - intros Hd pct Hpct. rewrite calculate_claimable_eq, window_no_overflow by (done || lia).
    destruct (c <? s); eexists; split; try done; [zlia|]. apply vested_pct_bounds; [zlia|done].
Qed.

(** ** The cache follows the ledger *)
Section cache_follows.
Context `{Hasher} `{AddressDerivation} `{TokenProgram} `{!TokenProgramSpec}.
Context `{PubkeyParser} `{PubkeyText} `{!PubkeyTextSpec}.

(** The ledger by slot, the claim status account at [addr], its claimant [c]. *)
Context (chain : Z → State) (addr c : Pubkey).
Context (Hok : ∀ s, state_ok (chain s)).
Context (Hchain : ∀ s1 s2, s1 ≤ s2 → steps any_ix (chain s1) (chain s2)).

(** A message of the subscription: the account's contents at the message's slot. *)
Definition reports (u : DataAndSlot) : Prop :=
  0 < ds_slot u ∧ st_accounts (chain (ds_slot u)) !! addr = Some (ClaimStatusAcc (ds_data u)).

Definition about (u : DataAndSlot) : Prop := cs_claimant (ds_data u) = c.

(** An account never returns to an earlier state. *)
Lemma status_no_return u1 u2 u3 :
  reports u1 → reports u2 → reports u3 → ds_slot u1 ≤ ds_slot u2 ≤ ds_slot u3 →
  ds_data u1 = ds_data u3 → ds_data u2 = ds_data u1.
Proof.
  intros [_ Hu1] [_ Hu2] [_ Hu3] [H12 H23] Heq.
  destruct (steps_status _ _ _ addr _ (Hok _) Hu1 (Hchain _ _ H12)) as (cs2 & Hcs2 & [Hg2 Hw2]).
  destruct (steps_status _ _ _ addr _ (Hok _) Hu2 (Hchain _ _ H23)) as (cs3 & Hcs3 & [_ Hw3]).
  assert (cs2 = ds_data u2) as -> by congruence.
  assert (cs3 = ds_data u3) as -> by congruence. rewrite <- Heq in Hw3.
  assert (cs_locked_amount_withdrawn (ds_data u2) = cs_locked_amount_withdrawn (ds_data u1))
    as Hw by lia.
  rewrite Hg2, Hw. by destruct (ds_data u1).
Qed.

(** The cached entry is the newest message about [c], or an older one with the
    same contents. *)
Definition tracks (updates : list DataAndSlot) (o : option DataAndSlot) : Prop :=
  match o with
  | None => ∀ u, u ∈ updates → ¬ about u
  | Some e =>
      reports e ∧ about e ∧
      ∃ newest, newest ∈ updates ∧ about newest ∧ ds_data e = ds_data newest ∧
        ds_slot e ≤ ds_slot newest ∧
        ∀ u, u ∈ updates → about u → ds_slot u ≤ ds_slot newest
  end.

Lemma apply_update_tracks m updates u :
  (∀ v, v ∈ updates ++ [u] → about v → reports v) →
  tracks updates (m !! pubkey_to_string c) →
  tracks (updates ++ [u]) (apply_update m u !! pubkey_to_string c).
Proof.
  intros Hrep Htr. unfold apply_update.
  destruct (decide (about u)) as [Hu|Hu].
  2: { assert (tracks (updates ++ [u]) (m !! pubkey_to_string c)) as Hkeep.
       { destruct (m !! _) as [e|]; [destruct Htr as (? & ? & n & ? & ? & ? & ? & Hmax)|];
           simpl; [split_and!; try done; exists n; split_and!; try done|];
           intros; set_solver. }
       assert (pubkey_to_string (cs_claimant (ds_data u)) ≠ pubkey_to_string c) as Hne
         by (intros ?%(inj pubkey_to_string); done).
       repeat case_match; rewrite ?lookup_insert_ne by done; done. }
  unfold about in Hu. rewrite Hu. pose proof (Hrep u ltac:(set_solver) Hu) as Hur.
  destruct (m !! _) as [e|] eqn:He.
  2: { rewrite lookup_insert_eq. split_and!; [done|done|]. exists u. unfold tracks in Htr.
       split_and!; try done; set_solver. }
  destruct Htr as (Her & Hea & n & Hn & Hna & Hen & Hsl & Hmax).
  pose proof (Hrep n ltac:(set_solver) Hna) as Hnr.
  case_bool_decide as Hsame.
  - rewrite He. split_and!; [done|done|].
    destruct (Z.le_gt_cases (ds_slot u) (ds_slot n)).
    + exists n. split_and!; try done; set_solver.
    + exists u. split_and!; try done; try set_solver; try lia.
      intros v Hv Hva. apply elem_of_app in Hv as [Hv|Hv]; [specialize (Hmax v Hv Hva); lia|set_solver].
  - cbn [negb]. rewrite andb_true_r. destruct (Z.eqb_spec (ds_slot u) 0); [destruct Hur; lia|].
    rewrite orb_false_r. destruct (Z.leb_spec (ds_slot e) (ds_slot u)).
    + rewrite lookup_insert_eq. split_and!; [done|done|]. exists u. split_and!; try done; [set_solver|].
      assert (ds_slot n ≤ ds_slot u).
      { destruct (Z.le_gt_cases (ds_slot n) (ds_slot u)); [done|]. exfalso. apply Hsame. symmetry.
        apply (status_no_return e u n); try done. lia. }
      intros v Hv Hva. apply elem_of_app in Hv as [Hv|Hv]; [specialize (Hmax v Hv Hva); lia|set_solver].
    + rewrite He. split_and!; [done|done|]. exists n. split_and!; try done; [set_solver|].
      intros v Hv Hva. apply elem_of_app in Hv as [Hv|Hv]; [auto|].
      apply list_elem_of_singleton in Hv as ->. lia.
Qed.

Lemma updates_track updates m :
  m !! pubkey_to_string c = None → (∀ u, u ∈ updates → about u → reports u) →
  tracks updates (foldl apply_update m updates !! pubkey_to_string c).
Proof.
  intros Hm. induction updates as [|u updates IH] using rev_ind; intros Hrep.
  { simpl. rewrite Hm. simpl. set_solver. }
  rewrite foldl_snoc. apply apply_update_tracks; [done|]. apply IH. set_solver.
Qed.

Lemma apply_update_polled m u :
  ds_slot u = 0 →
  ds_data <$> apply_update m u !! pubkey_to_string (cs_claimant (ds_data u)) = Some (ds_data u).
Proof.
  intros Hs. unfold apply_update. rewrite Hs.
  destruct (m !! pubkey_to_string _) as [e|] eqn:He; [|by rewrite lookup_insert_eq].
  case_bool_decide as Hd; [rewrite He; simpl; by rewrite Hd|].
  simpl. by rewrite orb_true_r, lookup_insert_eq.
Qed.

(** *** A poll

    A polled account is stored with slot 0.  The cache behaves as if the poll had
    been a message of the slot it was taken at, as long as no older message
    follows it. *)

Lemma apply_update_lookup m u e :
  apply_update m u !! pubkey_to_string c = Some e →
  e = u ∧ about u ∨ m !! pubkey_to_string c = Some e.
Proof.
  unfold apply_update. destruct (decide (about u)) as [Hu|Hu].
  - unfold about in Hu. rewrite Hu. destruct (m !! pubkey_to_string c) as [e'|] eqn:Hl.
    + case_bool_decide; [rewrite Hl; auto|]. destruct (_ || _); [|rewrite Hl; auto].
      rewrite lookup_insert_eq. intros [= <-]. by left.
    + rewrite lookup_insert_eq. intros [= <-]. by left.
  - assert (pubkey_to_string (cs_claimant (ds_data u)) ≠ pubkey_to_string c) as Hne
      by (intros ?%(inj pubkey_to_string); done).
    repeat case_match; rewrite ?lookup_insert_ne by done; auto.
Qed.

(** The entry of [c], if any, is one of the updates. *)
Lemma cached_is_received m updates e :
  m !! pubkey_to_string c = None →
  foldl apply_update m updates !! pubkey_to_string c = Some e → e ∈ updates ∧ about e.
Proof.
  intros Hm. revert e. induction updates as [|u updates IH] using rev_ind; intros e; simpl; [congruence|].
  rewrite foldl_snoc. intros [[-> ?]|He]%apply_update_lookup; [set_solver|]. apply IH in He. set_solver.
Qed.

Definition as_message (polled : DataAndSlot) (slot : Z) : DataAndSlot := mkDataAndSlot (ds_data polled) slot.

(** The real entry and the one of a cache that took the poll for a message. *)
Definition same_entry (polled : DataAndSlot) (slot : Z) (o o' : option DataAndSlot) : Prop :=
  o = o' ∨ ∃ e, o = Some e ∧ o' = Some (as_message polled slot) ∧ ds_data e = ds_data polled ∧
             (ds_slot e = 0 ∨ reports e).

Lemma apply_update_same polled slot m m' u :
  reports (as_message polled slot) → (about u → reports u ∧ slot ≤ ds_slot u) →
  same_entry polled slot (m !! pubkey_to_string c) (m' !! pubkey_to_string c) →
  same_entry polled slot (apply_update m u !! pubkey_to_string c) (apply_update m' u !! pubkey_to_string c).
Proof.
  intros Hpoll Hrep Hs. unfold apply_update. destruct (decide (about u)) as [Hu|Hu].
  2: { assert (pubkey_to_string (cs_claimant (ds_data u)) ≠ pubkey_to_string c) as Hne
         by (intros ?%(inj pubkey_to_string); done).
       repeat case_match; rewrite ?lookup_insert_ne by done; done. }
  destruct (Hrep Hu) as [Hur Hsl]. unfold about in Hu. rewrite Hu.
  destruct Hs as [Heq|(e & He & He' & Hd & Hslot)].
  { left. rewrite Heq. destruct (m' !! pubkey_to_string c) as [e|] eqn:Hm'; [|by rewrite !lookup_insert_eq].
    case_bool_decide; [by rewrite Heq, Hm'|]. destruct (_ || _); [by rewrite !lookup_insert_eq|].
    by rewrite Heq, Hm'. }
  rewrite He, He'. simpl. rewrite Hd. case_bool_decide as Hsame; [right; exists e; by rewrite He, He'|].
  rewrite (proj2 (Z.leb_le slot _) Hsl). simpl.
  assert (ds_slot e ≤ ds_slot u) as Hle.
  { destruct Hslot as [-> |Her]; [destruct Hur; lia|].
    destruct (Z.le_gt_cases (ds_slot e) (ds_slot u)); [done|]. exfalso. apply Hsame.
    assert (ds_data u = ds_data (as_message polled slot)) as ->; [|done].
    apply (status_no_return (as_message polled slot) u e); try done. simpl. lia. }
  rewrite (proj2 (Z.leb_le _ _) Hle). simpl. rewrite !lookup_insert_eq. by left.
Qed.

Lemma updates_same polled slot updates m m' :
  reports (as_message polled slot) → (∀ u, u ∈ updates → about u → reports u ∧ slot ≤ ds_slot u) →
  same_entry polled slot (m !! pubkey_to_string c) (m' !! pubkey_to_string c) →
  same_entry polled slot (foldl apply_update m updates !! pubkey_to_string c)
    (foldl apply_update m' updates !! pubkey_to_string c).
Proof.
  intros Hpoll. induction updates as [|u updates IH] using rev_ind; intros Hrep Hs; [done|].
  rewrite !foldl_snoc. apply apply_update_same; [done|apply Hrep, elem_of_app; right; apply list_elem_of_here|].
  apply IH; [|done]. intros v Hv. apply Hrep, elem_of_app. by left.
Qed.

Lemma polled_then_messages polled slot before later m :
  m !! pubkey_to_string c = None → ds_slot polled = 0 → about polled → reports (as_message polled slot) →
  (∀ u, u ∈ before → about u → ds_slot u = 0 ∨ reports u) →
  (∀ u, u ∈ later → about u → reports u ∧ slot ≤ ds_slot u) →
  ∃ e, foldl apply_update m (before ++ polled :: later) !! pubkey_to_string c = Some e ∧
    ∃ newest, newest ∈ as_message polled slot :: later ∧ about newest ∧ ds_data e = ds_data newest ∧
      ∀ u, u ∈ later → about u → ds_slot u ≤ ds_slot newest.
Proof.
  intros Hm H0 Hab Hpoll Hbefore Hlater. rewrite foldl_app. cbn [foldl].
  assert (same_entry polled slot
    (apply_update (foldl apply_update m before) polled !! pubkey_to_string c)
    (apply_update ∅ (as_message polled slot) !! pubkey_to_string c)) as Hs.
  { right. pose proof (apply_update_polled (foldl apply_update m before) polled H0) as Hd.
    rewrite Hab in Hd. apply fmap_Some in Hd as (e & He & Hd). exists e. split_and!; [done| |done|].
    - unfold apply_update. cbn [as_message ds_data]. rewrite lookup_empty, Hab. apply lookup_insert_eq.
    - apply apply_update_lookup in He as [[-> _]|He]; [by left|].
      apply cached_is_received in He as [Hin Hae]; [|done]. by apply Hbefore. }
  pose proof (updates_same polled slot later _ _ Hpoll Hlater Hs) as Hsame.
  pose proof (updates_track (as_message polled slot :: later) ∅ (lookup_empty _)) as Htr. cbn [foldl] in Htr.
  assert (∃ e', foldl apply_update (apply_update ∅ (as_message polled slot)) later !! pubkey_to_string c
    = Some e' ∧ ∃ newest, newest ∈ as_message polled slot :: later ∧ about newest ∧
      ds_data e' = ds_data newest ∧ ∀ u, u ∈ later → about u → ds_slot u ≤ ds_slot newest)
    as (e' & He' & newest & Hin & Hna & Hd & Hmax).
  { assert (∀ u, u ∈ as_message polled slot :: later → about u → reports u) as Hall.
    { intros u [-> |Hu]%elem_of_cons; [done|]. intros Hau. by apply Hlater. }
    specialize (Htr Hall). unfold tracks in Htr. 
    destruct (foldl apply_update (apply_update ∅ (as_message polled slot)) later !! pubkey_to_string c)
      as [e'|].
    - destruct Htr as (_ & _ & n & Hn & ? & ? & _ & Hmax). exists e'. split; [done|]. exists n.
      split_and!; [done..|]. intros u Hu. apply Hmax, elem_of_cons. by right.
    - destruct (Htr (as_message polled slot)); [apply list_elem_of_here|done]. }
  destruct Hsame as [Heq|(e & He & Heq & Hde & _)].
  - exists e'. rewrite Heq. split; [done|]. by exists newest.
  - exists e. split; [done|]. exists newest. split_and!; try done.
    rewrite He' in Heq. injection Heq as ->. by rewrite Hde.
Qed.

(** C28. The cache follows the ledger, for a claimant [c] whose updates all come
    from one claim-status account [addr] (the cache is keyed by claimant, so a
    second account of the claimant would share the entry).  In whatever order the
    subscription messages arrive (late, repeated, interleaved with other
    claimants'), the entry holds the contents of the newest message received
    about [c], and there is no entry exactly when there was none.  A poll takes
    effect at once, whatever came before it; from then on, as long as no message
    older than the poll's slot arrives, the entry holds the contents of the newest
    of the poll and the later messages.  It rests on the program: a claim status
    account never returns to an earlier state. *)
Theorem cache_follows_ledger program_id ds users start_ts end_ts mint :
  let cache := Cache_new program_id ds users start_ts end_ts mint in
  (∀ updates, (∀ u, u ∈ updates → about u → reports u) →
     match cache_get_claim_status (cache_updater cache updates) (pubkey_to_string c) with
     | None => ∀ u, u ∈ updates → ¬ about u
     | Some e =>
         ∃ newest, newest ∈ updates ∧ about newest ∧ ds_data e = ds_data newest ∧
           ∀ u, u ∈ updates → about u → ds_slot u ≤ ds_slot newest
     end) ∧
  (∀ before polled slot later,
     (∀ u, u ∈ before → about u → ds_slot u = 0 ∨ reports u) →
     ds_slot polled = 0 → about polled → reports (as_message polled slot) →
     (∀ u, u ∈ later → about u → reports u ∧ slot ≤ ds_slot u) →
     ∃ e, cache_get_claim_status (cache_updater cache (before ++ polled :: later)) (pubkey_to_string c) = Some e ∧
       ∃ newest, newest ∈ as_message polled slot :: later ∧ about newest ∧ ds_data e = ds_data newest ∧
         ∀ u, u ∈ later → about u → ds_slot u ≤ ds_slot newest).
Proof.
  cbn zeta. split.
  - intros updates Hrep. pose proof (updates_track updates ∅ (lookup_empty _) Hrep) as Htr.
    unfold cache_get_claim_status; simpl in *.
    destruct (_ !! _) as [e|]; [|done]. destruct Htr as (_ & _ & n & ? & ? & ? & _ & ?). eauto.
  - intros before polled slot later ? ? ? ? ?. by apply polled_then_messages.
Qed.
End cache_follows.

(** ** The eligibility endpoint *)
Section eligibility.
Context `{PubkeyParser} `{PubkeyText} `{!PubkeyTextSpec}.

(** The server knows the entry [n] of claimant [c] in the distributor [d] at
    [k]; its start percentage is one. *)
Record serves (s : RouterState) (now : Z) (c k : Pubkey) (n : TreeNode) (proof : list Hash)
    (d : MerkleDistributor) : Prop := {
  sv_entry : rs_tree s !! c = Some (k, n);
  sv_proof : tn_proof n = Some proof;
  sv_amounts : node_wf n ∧ node_total n ≤ U64_MAX;
  sv_distributor : cache_get_distributor (rs_cache s) (pubkey_to_string k) = Some d;
  sv_window : is_i64 (md_start_ts d) ∧ is_i64 (md_end_ts d) ∧
              md_end_ts d - md_start_ts d ≤ I64_MAX;
  sv_pct : 0 ≤ rs_start_amount_pct s ≤ 100;
  sv_cached e : cache_get_claim_status (rs_cache s) (pubkey_to_string c) = Some e →
    cs_wf (ds_data e) ∧
    cs_unlocked_amount (ds_data e) + cs_locked_amount (ds_data e) ≤ U64_MAX ∧
    cs_locked_amount_withdrawn (ds_data e)
      ≤ released (cs_locked_amount (ds_data e)) now (md_start_ts d) (md_end_ts d)
}.

(** What the server quotes to a claimant without a claim status: before the start
    nothing of the unlocked part, then the start percentage and the linear rest;
    and the released part of the locked amount. *)
Definition new_quote (pct : Z) (n : TreeNode) (now start_ts end_ts : Z) : Z :=
  (if now <? start_ts then 0 else vested_pct (tn_amount n) pct now start_ts end_ts)
  + released (locked_amount_of n) now start_ts end_ts.

Lemma progress_new s now c k n proof d p :
  serves s now c k n proof d → up_amount p = tn_amount n → up_locked_amount p = locked_amount_of n →
  cache_get_claim_status (rs_cache s) (pubkey_to_string c) = None →
  claim_progress s (pubkey_to_string c) p now (md_start_ts d) (md_end_ts d)
    = Ok (0, 0, new_quote (rs_start_amount_pct s) n now (md_start_ts d) (md_end_ts d)).
Proof.
  intros [_ _ [[Hu Hl] Htot] _ (Hs & He & Hd) Hpct _] Hpu Hpl Hnone.
  unfold claim_progress, new_quote. rewrite Hnone, Hpu, Hpl.
  rewrite calculate_claimable_eq, calculate_locked_eq by done.
  rewrite !window_no_overflow by done.
  pose proof (vested_pct_bounds (tn_amount n) (rs_start_amount_pct s) now (md_start_ts d) (md_end_ts d)
    ltac:(zlia) Hpct) as Hv.
  pose proof (released_bounds (locked_amount_of n) now (md_start_ts d) (md_end_ts d) ltac:(zlia)).
  unfold node_total in Htot. unfold checked_add_u64.
  destruct (now <? md_start_ts d); cbn [mbind result_bind];
    by rewrite (proj2 (Z.leb_le _ _)) by zlia.
Qed.

Lemma progress_known s now c k n proof d p e :
  serves s now c k n proof d →
  cache_get_claim_status (rs_cache s) (pubkey_to_string c) = Some e →
  ∃ w, amount_withdrawable (ds_data e) now (md_start_ts d) (md_end_ts d) = Ok w ∧
    claim_progress s (pubkey_to_string c) p now (md_start_ts d) (md_end_ts d)
      = Ok (cs_unlocked_amount_claimed (ds_data e), cs_locked_amount_withdrawn (ds_data e), w).
Proof.
  intros [_ _ _ _ (Hs & He & Hd) _ Hc] Hcached.
  destruct (Hc e Hcached) as ((Hl & _) & _ & Hw). unfold claim_progress. rewrite Hcached.
  unfold amount_withdrawable. rewrite unlocked_amount_eq, window_no_overflow by done.
  simpl. unfold checked_sub_u64. rewrite (proj2 (Z.leb_le _ _)) by lia. simpl. eauto.
Qed.

Lemma checked_add_panics a b : a + b ≤ U64_MAX → or_panic (checked_add_u64 a b) = Ok (a + b).
Proof. intros Hab. unfold checked_add_u64. by rewrite (proj2 (Z.leb_le _ _) Hab). Qed.

(** The handler's own computation of the start amount, and what follows it. *)
Lemma start_amount_quoted {A} s u (f : Z → result api_failure A) :
  is_u64 u → 0 ≤ rs_start_amount_pct s ≤ 100 →
  (num ← or_panic (checked_mul_u128 (rs_start_amount_pct s) START_AMOUNT_PCT_PRECISION);
   start_prod ← ok_or (checked_mul_u128 (as_u128 u) num) (ApiErr EMathError);
   start_amount ← ok_or (checked_div_u128 start_prod START_AMOUNT_PCT_DENOM) (ApiErr EMathError);
   f start_amount) = f (u * rs_start_amount_pct s / 100).
Proof.
  intros Hu Hpct. pose proof (start_amount_panics u (rs_start_amount_pct s)) as Hs. apply ok_or_Ok in Hs.
  rewrite (checked_mul_u128_u64 (rs_start_amount_pct s)) by (unfold START_AMOUNT_PCT_PRECISION; zlia).
  cbn [or_panic ok_or mbind result_bind]. rewrite as_u128_u64 by done.
  rewrite checked_mul_u128_u64 by (done || unfold START_AMOUNT_PCT_PRECISION; zlia).
  cbn [ok_or mbind result_bind]. by rewrite Hs.
Qed.

(** What the eligibility endpoint answers for a served entry: one element with the
    distributor, the stored proof and the window; to a claimant without claim
    status the quote above and nothing claimed; to one with a claim status
    [amount_withdrawable] and the recorded amounts.  Start and end amounts are the
    start percentage and all of the unlocked allocation. *)
Lemma eligibility_quotes_the_program s now c k n proof d :
  serves s now c k n proof d →
  ∃ r, get_eligibility s now (pubkey_to_string c) = Ok [r] ∧
    er_claimant r = pubkey_to_string c ∧ er_merkle_tree r = pubkey_to_string k ∧
    er_proof r = proof ∧ er_start_ts r = md_start_ts d ∧ er_end_ts r = md_end_ts d ∧
    er_mint r = pubkey_to_string (md_mint d) ∧
    er_start_amount r = pretty (tn_amount n * rs_start_amount_pct s / 100) ∧
    er_end_amount r = pretty (tn_amount n) ∧
    match cache_get_claim_status (rs_cache s) (pubkey_to_string c) with
    | None =>
        er_claimable_amount r
          = pretty (new_quote (rs_start_amount_pct s) n now (md_start_ts d) (md_end_ts d)) ∧
        er_claimed_amount r = pretty 0
    | Some e => ∃ w,
        amount_withdrawable (ds_data e) now (md_start_ts d) (md_end_ts d) = Ok w ∧
        er_claimable_amount r = pretty w ∧
        er_claimed_amount r = pretty (cs_unlocked_amount_claimed (ds_data e)
                                      + cs_locked_amount_withdrawn (ds_data e))
    end.
Proof.
  intros Hsv. pose proof Hsv as [He Hp [[Hu Hl] _] Hd _ Hpct Hc].
  unfold get_eligibility, get_user_proof. rewrite pubkey_text_roundtrip.
  cbn [ok_or mbind result_bind]. rewrite He. cbn [ok_or mbind result_bind fst snd]. rewrite Hp.
  cbn [ok_or mbind result_bind up_merkle_tree]. rewrite Hd. cbn [vesting_window].
  set (p := mkUserProof _ _ _ _).
  destruct (cache_get_claim_status _ _) as [e|] eqn:Hcs.
  - destruct (progress_known s now c k n proof d p e Hsv Hcs) as (w & Hw & Hpr).
    destruct (Hc e eq_refl) as ((_ & ? & ? & ?) & ? & _). rewrite Hpr. cbn [mbind result_bind].
    rewrite start_amount_quoted, checked_add_panics by (done || zlia).
    eexists. split; [reflexivity|]. split_and!; try done. eauto.
  - rewrite (progress_new s now c k n proof d p Hsv eq_refl eq_refl Hcs). cbn [mbind result_bind].
    rewrite start_amount_quoted, checked_add_panics by (done || zlia).
    eexists. split; [reflexivity|]. by split_and!.
Qed.
End eligibility.

(** ** Witnesses: the scenario's tree and ledger, keys written as 32 characters *)
#[local] Existing Instances raw_parser raw_text raw_text_spec.

Lemma sc_tree_is_built : built sc_tree.
Proof. exists ex_rows. exact (conj ex_rows_wf (conj sc_rows_short sc_tree_built)). Qed.

Lemma served_proofs_are_accepted_witness :
  match get_user_proof (load_trees PROGRAM_ID sc_mint_key [sc_tree]).2 (pubkey_to_string sc_bob) with
  | Ok p =>
      ∃ tree n, tree ∈ [sc_tree] ∧ n ∈ at_tree_nodes tree ∧ tn_claimant n = sc_bob ∧
        up_merkle_tree p
          = pubkey_to_string (distributor_address sc_mint_key (at_airdrop_version tree)) ∧
        up_amount p = tn_amount n ∧ up_locked_amount p = locked_amount_of n ∧
        verify (up_proof p) (at_merkle_root tree)
          (claim_leaf sc_bob (up_amount p) (up_locked_amount p)) = true
  | Err e =>
      e = ApiErr (EUserNotFound (pubkey_to_string sc_bob)) ∧
      ∀ tree, tree ∈ [sc_tree] → sc_bob ∉ map tn_claimant (at_tree_nodes tree)
  end.
Proof.
  exact (served_proofs_are_accepted sc_mint_key [sc_tree] sc_bob
    (Forall_cons_2 _ _ _ sc_tree_is_built (Forall_nil_2 _))).
Defined.

Lemma quotes_match_program_witness :
  calculate_claimable_amount_for_new_user 999 50 0 100 50 = Ok 749 ∧
  calculate_locked_amount_claimable 1000 50 0 100 = Ok 500.
Proof.
  pose proof (quotes_match_program ex_cs 50 0 100 ltac:(simpl; zlia) ltac:(simpl; zlia)
    ltac:(zlia) ltac:(zlia)) as (H1 & H2 & _).
  split; [exact H1|exact H2].
Defined.

(** The ledger of the scenario: the first claim in slot 1, a withdrawal in slot 2. *)
Definition sc_chain (slot : Z) : State := if slot <=? 1 then sc_state2 else sc_state4.

Lemma sc_chain_ok slot : state_ok (sc_chain slot).
Proof.
  unfold sc_chain. destruct (slot <=? 1); [exact sc_state2_ok|].
  exact (step_ok _ _ _ sc_state3_ok sc_step_locked).
Qed.

Lemma sc_chain_steps s1 s2 : s1 ≤ s2 → steps any_ix (sc_chain s1) (sc_chain s2).
Proof.
  intros Hs. unfold sc_chain. destruct (Z.leb_spec s1 1), (Z.leb_spec s2 1); try lia; try reflexivity.
  eapply rtc_l; [exact sc_step_time|]. apply rtc_once, sc_step_locked.
Qed.

Definition sc_status_update (slot : Z) : DataAndSlot :=
  mkDataAndSlot (sc_status_at (sc_chain slot) sc_alice) slot.

Lemma sc_update_reports slot :
  slot = 1 ∨ slot = 2 →
  reports sc_chain (claim_status_address sc_alice sc_dist) (sc_status_update slot).
Proof. intros [-> | ->]; (split; [done|apply sc_status_lookup; vm_compute; reflexivity]). Qed.

(** The two messages arrive in the wrong order. *)
Definition sc_messages : list DataAndSlot := [sc_status_update 2; sc_status_update 1].
Definition sc_cache : Cache := cache_updater (Cache_new (key 0) [] None 0 0 EmptyString) sc_messages.

Lemma sc_messages_report u :
  u ∈ sc_messages → about sc_alice u →
  reports sc_chain (claim_status_address sc_alice sc_dist) u.
Proof.
  unfold sc_messages. intros [-> |[-> |[]%elem_of_nil]%elem_of_cons]%elem_of_cons _;
    apply sc_update_reports; auto.
Qed.

(** A poll at slot 1, then the message of slot 2. *)
Definition sc_poll : DataAndSlot := mkDataAndSlot (ds_data (sc_status_update 1)) 0.

Lemma sc_later_reports u :
  u ∈ [sc_status_update 2] → about sc_alice u →
  reports sc_chain (claim_status_address sc_alice sc_dist) u ∧ 1 ≤ ds_slot u.
Proof. intros -> %list_elem_of_singleton _. split; [apply sc_update_reports; auto|done]. Qed.

Lemma cache_follows_ledger_witness :
  match cache_get_claim_status sc_cache (pubkey_to_string sc_alice) with
  | None => ∀ u, u ∈ sc_messages → ¬ about sc_alice u
  | Some e => ∃ newest, newest ∈ sc_messages ∧ about sc_alice newest ∧
      ds_data e = ds_data newest ∧
      ∀ u, u ∈ sc_messages → about sc_alice u → ds_slot u ≤ ds_slot newest
  end ∧
  ∃ e, cache_get_claim_status (cache_updater (Cache_new (key 0) [] None 0 0 EmptyString)
         ([] ++ sc_poll :: [sc_status_update 2])) (pubkey_to_string sc_alice) = Some e.
Proof.
  destruct (cache_follows_ledger sc_chain (claim_status_address sc_alice sc_dist) sc_alice
    sc_chain_ok sc_chain_steps (key 0) [] None 0 0 EmptyString) as [Hmsg Hpoll].
  split; [exact (Hmsg sc_messages sc_messages_report)|].
  destruct (Hpoll [] sc_poll 1 [sc_status_update 2]) as (e & He & _).
  - intros u Hu. exfalso. exact (not_elem_of_nil u Hu).
  - reflexivity.
  - vm_compute. reflexivity.
  - apply sc_update_reports. left. reflexivity.
  - exact sc_later_reports.
  - exists e. exact He.
Defined.

Example sc_cache_holds_newest :
  option_map (λ e, (cs_locked_amount_withdrawn (ds_data e), ds_slot e))
    (cache_get_claim_status sc_cache (pubkey_to_string sc_alice)) = Some (3, 2).
Proof. vm_compute. reflexivity. Qed.

(** A server that knows Bob's entry. *)
Definition sc_server : RouterState :=
  mkRouterState None None PROGRAM_ID
    {[ sc_bob := (sc_dist, mkTreeNode sc_bob 40 None (Some sc_bob_proof)) ]}
    (set_distributor_cache {[ pubkey_to_string sc_dist := sc_distributor_at sc_state3 ]}
       (Cache_new PROGRAM_ID [] None 0 0 EmptyString)) 50.

Lemma sc_server_serves :
  serves sc_server 1500 sc_bob sc_dist (mkTreeNode sc_bob 40 None (Some sc_bob_proof))
    sc_bob_proof (sc_distributor_at sc_state3).
Proof.
  split; [apply lookup_insert_eq|done|split; [split; simpl; unfold locked_amount_of; simpl; zlia|]
    |apply lookup_insert_eq| |simpl; lia|].
  - unfold node_total, locked_amount_of. simpl. zlia.
  - vm_compute. intuition congruence.
  - intros e He. exfalso. revert He. unfold cache_get_claim_status. simpl.
    rewrite lookup_empty. congruence.
Qed.

Lemma eligibility_quotes_the_program_witness :
  ∃ r, get_eligibility sc_server 1500 (pubkey_to_string sc_bob) = Ok [r] ∧
    er_claimant r = pubkey_to_string sc_bob ∧ er_merkle_tree r = pubkey_to_string sc_dist ∧
    er_proof r = sc_bob_proof ∧ er_start_amount r = pretty 20 ∧ er_end_amount r = pretty 40.
Proof.
  destruct (eligibility_quotes_the_program sc_server 1500 sc_bob sc_dist
    (mkTreeNode sc_bob 40 None (Some sc_bob_proof)) sc_bob_proof (sc_distributor_at sc_state3)
    sc_server_serves) as (r & Hr & H1 & H2 & H3 & _ & _ & _ & H4 & H5 & _).
  exists r. exact (conj Hr (conj H1 (conj H2 (conj H3 (conj H4 H5))))).
Defined.
