(* ===== verification/Startup.v ===== *)
(** * Start of the server (src/api/src/main.rs)

    The files of the tree directory are loaded by concurrent tasks, so the order
    in which they enter the state is open; the vested accounts, the defaults and
    the start percentage come from the options. *)
From S2P Require Import Prelude Machine Hashing Sha256 MerkleTree MerkleProof TreeNode Airdrop.
From S2P Require Import ProgramError ClaimStatus Solana Token State Handlers Program Execution.
From S2P Require Import Scenario Safety Ledger Schedule EndToEnd Layout Api ApiTheorems Routes.
#[local] Open Scope Z_scope.

(** ** [str::parse::<u128>()] *)
Definition digit_of (c : Ascii.ascii) : option Z :=
  let n := Z.of_N (Ascii.N_of_ascii c) in
  if (48 <=? n) && (n <=? 57) then Some (n - 48) else None.

(** Digits from left to right; an error past the maximum. *)
Fixpoint parse_digits (max acc : Z) (s : string) : option Z :=
  match s with
  | EmptyString => Some acc
  | String.String c s =>
      d ← digit_of c;
      if acc * 10 + d <=? max then parse_digits max (acc * 10 + d) s else None
  end.

(** An optional plus sign and at least one digit. *)
Definition parse_uint (max : Z) (s : string) : option Z :=
  match s with
  | EmptyString => None
  | String.String c rest =>
      if N.eqb (Ascii.N_of_ascii c) 43
      then match rest with EmptyString => None | _ => parse_digits max 0 rest end
      else parse_digits max 0 s
  end.

(** ** Files *)

(** An entry of the tree directory: what [new_from_file] makes of it. *)
Record TreeFile := mkTreeFile {
  tf_is_dir : bool;
  tf_extension : option string;
  tf_content : result tree_error AirdropMerkleTree
}.

(** Directories, other extensions and unreadable files are skipped. *)
Definition tree_of_file (f : TreeFile) : option AirdropMerkleTree :=
  if tf_is_dir f then None
  else match tf_extension f with
       | Some extension =>
           if String.eqb extension "json"
           then match tf_content f with Ok tree => Some tree | Err _ => None end
           else None
       | None => None
       end.

(** A row of the vested-accounts file: its fields; [None] is a row the CSV reader
    rejects, which is skipped. *)
Definition vested_row : Type := option (list string).

(** [record[0]], [record[1].parse::<u128>().unwrap()]: a missing field or an amount
    that is not a number panics. *)
Definition read_vested_row (record : list string) : result api_failure (string * Z) :=
  user_pubkey ← or_panic (record !! 0%nat);
  amount ← or_panic (record !! 1%nat);
  a ← or_panic (parse_uint U128_MAX amount);
  Ok (user_pubkey, a).
Definition read_vested_rows (rows : list vested_row) : result api_failure (list (string * Z)) :=
  try_map read_vested_row (omap id rows).

Record ServerArgs := mkServerArgs {
  sa_mint : Pubkey;
  sa_program_id : Pubkey;
  (** The rows of [unvested_accounts_path], if it is given and can be opened. *)
  sa_unvested_accounts : option (list vested_row);
  sa_unvested_accounts_decimals : option Z;
  sa_basic_auth_user : option string;
  sa_basic_auth_password : option string;
  sa_default_start_ts : option Z;
  sa_default_end_ts : option Z;
  sa_default_mint : option string;
  sa_start_amount_pct : string
}.

Section startup.
Context `{Hasher} `{PubkeyParser} `{PubkeyText} `{!PubkeyTextSpec} `{AddressDerivation}.

(** [main] up to the start of the listener; [files] in the order in which their
    tasks take the lock.  [cache.subscribe] starts the tasks of [ApiStream] and
    [ServerSync], which fill the cache from here on. *)
Definition start_server (args : ServerArgs) (files : list TreeFile) : result api_failure RouterState :=
  let '(distributors, tree) :=
    load_trees (sa_program_id args) (sa_mint args) (omap tree_of_file files) in
  vested_users ←
    match sa_unvested_accounts args with
    | Some rows =>
        parsed ← read_vested_rows rows;
        m ← load_vested_users parsed (default 6 (sa_unvested_accounts_decimals args));
        Ok (Some m)
    | None => Ok None
    end;
  let cache := Cache_new (sa_program_id args) distributors vested_users
    (default 0 (sa_default_start_ts args)) (default 3133657200 (sa_default_end_ts args))
    (default "11111111111111111111111111111111"%string (sa_default_mint args)) in
  start_amount_pct ← or_panic (parse_uint U128_MAX (sa_start_amount_pct args));
  Ok (mkRouterState (sa_basic_auth_user args) (sa_basic_auth_password args) (sa_program_id args)
        tree cache start_amount_pct).

(** ** The order of loading *)

(** No claimant is in two of the trees, or twice in one. *)
Definition claimants_distinct (trees : list AirdropMerkleTree) : Prop :=
  NoDup (map tn_claimant (concat (map at_tree_nodes trees))).

Definition tree_entries (program_id mint : Pubkey) (tree : AirdropMerkleTree)
  : list (Pubkey * (Pubkey * TreeNode)) :=
  map (λ n, (tn_claimant n,
             ((get_merkle_distributor_pda program_id mint (at_airdrop_version tree)).1, n)))
    (at_tree_nodes tree).

Lemma insert_nodes_map k ns (m : gmap Pubkey (Pubkey * TreeNode)) :
  NoDup (map tn_claimant ns) → (∀ n, n ∈ ns → m !! tn_claimant n = None) →
  foldl (λ m n, <[tn_claimant n := (k, n)]> m) m ns =
  list_to_map (map (λ n, (tn_claimant n, (k, n))) ns) ∪ m.
Proof.
  revert m. induction ns as [|n ns IH]; intros m Hnd Hfree; simpl; [by rewrite (left_id_L ∅ (∪))|].
  apply NoDup_cons in Hnd as [Hn Hnd]. rewrite IH; [|done|].
  - rewrite <- insert_union_l. rewrite <- insert_union_r; [done|].
    apply not_elem_of_list_to_map_1. rewrite map_map. simpl.
    intros Hin. apply Hn. exact Hin.
  - intros n' Hn'. rewrite lookup_insert_ne; [apply Hfree; set_solver|].
    intros Heq. apply Hn. rewrite Heq. by apply list_elem_of_fmap_2.
Qed.

Lemma load_trees_map program_id mint trees :
  claimants_distinct trees →
  (load_trees program_id mint trees).2 =
  list_to_map (concat (map (tree_entries program_id mint) trees)).
Proof.
  induction trees as [|tree trees IH] using rev_ind; intros Hnd; [done|].
  rewrite load_trees_snoc. unfold claimants_distinct in Hnd.
  rewrite map_app, concat_app, map_app in Hnd. simpl in Hnd. rewrite app_nil_r in Hnd.
  apply NoDup_app in Hnd as (Hnd1 & Hdis & Hnd2). simpl. rewrite insert_nodes_map; [|done|].
  - rewrite IH by done. rewrite map_app, concat_app. simpl. rewrite app_nil_r, list_to_map_app.
    apply map_union_comm. apply map_disjoint_spec. 
    intros c v1 v2 Hv1%elem_of_list_to_map_2 Hv2%elem_of_list_to_map_2.
    apply (Hdis c).
    + apply list_elem_of_In, in_map_iff. apply list_elem_of_In, in_concat in Hv2 as (l & Hl & Hin).
      apply in_map_iff in Hl as (t & <- & Ht). apply in_map_iff in Hin as (n & [= <- _] & Hn).
      exists n. split; [done|]. apply in_concat. exists (at_tree_nodes t). split; [|done]. by apply in_map.
    + apply list_elem_of_In, in_map_iff. apply list_elem_of_In, in_map_iff in Hv1 as (n & [= <- _] & Hn). eauto.
  - intros n Hn. destruct (_ !! _) as [v|] eqn:Hl; [|done].
    apply load_trees_lookup in Hl as (t & Ht & Hv & Hc & _). destruct (Hdis (tn_claimant n)).
    + rewrite <- Hc. apply list_elem_of_fmap_2. apply list_elem_of_In, in_concat. exists (at_tree_nodes t).
      split; [by apply in_map, list_elem_of_In|by apply list_elem_of_In].
    + by apply list_elem_of_fmap_2.
Qed.

Lemma load_trees_order program_id mint trees trees' :
  trees ≡ₚ trees' → claimants_distinct trees →
  (load_trees program_id mint trees).2 = (load_trees program_id mint trees').2 ∧
  (load_trees program_id mint trees).1 ≡ₚ (load_trees program_id mint trees').1.
Proof.
  intros Hperm Hnd. assert (claimants_distinct trees') as Hnd' by (unfold claimants_distinct; by rewrite <- Hperm).
  split.
  - rewrite !load_trees_map by done. apply list_to_map_proper; [|by rewrite Hperm].
    cut (map fst (concat (map (tree_entries program_id mint) trees))
         = map tn_claimant (concat (map at_tree_nodes trees))).
    { intros He. unfold claimants_distinct in Hnd. by rewrite <- He in Hnd. }
    clear. induction trees as [|t trees IH]; simpl; [done|]. rewrite !map_app, IH. f_equal.
    unfold tree_entries. by rewrite map_map.
  - assert (∀ ts, (load_trees program_id mint ts).1 = map (λ tree, mkSingleDistributor
      (pubkey_to_string (get_merkle_distributor_pda program_id mint (at_airdrop_version tree)).1)
      (at_airdrop_version tree) (at_max_num_nodes tree) (at_max_total_claim tree)) ts) as Hds.
    { induction ts as [|t ts IH] using rev_ind; [done|]. by rewrite load_trees_snoc, map_app, <- IH. }
    by rewrite !Hds, Hperm.
Qed.

(** C30. The order in which the loading tasks run does not matter.  When no
    claimant is in two trees, two runs over the same files start alike (both
    panic, or neither does) and the two servers give the same answer to every
    request, up to the order in which the distributors are listed. *)
Theorem startup_order_is_irrelevant args files files' :
  files ≡ₚ files' → claimants_distinct (omap tree_of_file files) →
  match start_server args files, start_server args files' with
  | Ok s, Ok s' =>
      rs_tree s = rs_tree s' ∧ ca_distributors (rs_cache s) ≡ₚ ca_distributors (rs_cache s') ∧
      (∀ user, get_user_info s user = get_user_info s' user) ∧
      (∀ now user, get_eligibility s now user = get_eligibility s' now user) ∧
      (∀ user, route_claim_status s user = route_claim_status s' user) ∧
      get_distributors s = get_distributors s'
  | Err e, Err e' => e = e'
  | _, _ => False
  end.
Proof.
  intros Hperm Hnd.
  destruct (load_trees_order (sa_program_id args) (sa_mint args) (omap tree_of_file files)
    (omap tree_of_file files')) as [Htree Hds]; [by rewrite Hperm|done|].
  unfold start_server.
  destruct (load_trees _ _ (omap tree_of_file files)) as [ds tree].
  destruct (load_trees _ _ (omap tree_of_file files')) as [ds' tree']. simpl in Htree, Hds. subst tree'.
  destruct (match sa_unvested_accounts args with Some _ => _ | None => _ end) as [users|e]; simpl; [|done].
  destruct (or_panic (parse_uint _ _)) as [pct|e]; simpl; [|done]. by split_and!.
Qed.
End startup.

(** ** Witness *)
#[local] Existing Instances raw_parser raw_text raw_text_spec.

Definition tx_args : ServerArgs :=
  mkServerArgs sc_mint_key PROGRAM_ID (Some [Some ["a"%string; "12"%string]; None]) None None None None None
    None "50".
Definition tx_files : list TreeFile :=
  [mkTreeFile false (Some "json"%string) (Ok sc_tree); mkTreeFile false (Some "csv"%string) (Err TreePanic);
   mkTreeFile false (Some "json"%string)
     (Ok (mkAirdrop (key 7) 2 1 5 [mkTreeNode (key 9) 5 None (Some [])]))].

Example tx_parsed :
  parse_uint U128_MAX "50" = Some 50 ∧ parse_uint U128_MAX "+7" = Some 7 ∧
  parse_uint U128_MAX "-7" = None ∧ parse_uint U128_MAX "" = None ∧ parse_uint 255 "256" = None.
Proof. vm_compute. repeat split. Qed.

Lemma tx_distinct : claimants_distinct (omap tree_of_file tx_files).
Proof. apply (bool_decide_unpack _). vm_compute. exact I. Qed.

Lemma tx_started : is_ok (start_server tx_args tx_files) = true.
Proof. vm_compute. reflexivity. Qed.

Lemma startup_order_is_irrelevant_witness :
  match start_server tx_args tx_files, start_server tx_args (reverse tx_files) with
  | Ok s, Ok s' => rs_tree s = rs_tree s'
  | _, _ => False
  end.
Proof.
  pose proof (startup_order_is_irrelevant tx_args tx_files (reverse tx_files)
    (symmetry (reverse_Permutation tx_files)) tx_distinct) as Hs.
  pose proof tx_started as Hok.
  destruct (start_server tx_args tx_files) as [s|e]; [|discriminate Hok].
  destruct (start_server tx_args (reverse tx_files)) as [s'|e]; [|destruct Hs].
  destruct Hs as [Ht _]. exact Ht.
Defined.
