(* ===== verification/ApiStream.v ===== *)
(** * The subscription task of the API cache
    (src/api/src/cache.rs, [hydrate_cache_for_config])

    The background task that connects to the node, subscribes to the program's
    accounts, forwards the decoded claim statuses and reconnects with exponential
    back-off, as a state machine over what the connection does; and the polling
    task.  Decoding a message is code of the RPC client and of Anchor: a message
    is what it decodes to. *)
From S2P Require Import Prelude Machine ClaimStatus Api.

(** One turn of the loop as the connection decides it: the websocket cannot be
    opened, [program_subscribe] fails, or it delivers messages until the stream
    ends.  [None] is a message that does not decode. *)
Inductive ws_event :=
| ConnectError
| SubscribeError
| Subscribed (messages : list (option DataAndSlot)).

Definition max_reconnection_attempts : Z := 20.
Definition base_delay : Z := 5.

(** The task waits for the connection, has returned
    [MaxReconnectionAttemptsReached], or has panicked. *)
Inductive ws_status :=
| Waiting (attempt : Z)
| GaveUp
| Panicked.

Record ws_run_result := mkWsRun {
  wr_updates : list DataAndSlot;
  wr_delays : list Z;
  wr_status : ws_status
}.

(** [base_delay * 2_u32.pow(attempt)], which panics past [u32]: [None]. *)
Definition reconnect_delay (attempt : Z) : option Z :=
  if 2 ^ attempt <? 2 ^ 32 then Some (base_delay * 2 ^ attempt) else None.

(** How a turn ends: with a delay and the next counter, or with the task. *)
Inductive ws_next :=
| Continue (delay attempt : Z)
| Stop (status : ws_status).

(** What follows the [match] on the subscription. *)
Definition ws_wait (attempt : Z) : ws_next :=
  if max_reconnection_attempts <=? attempt then Stop GaveUp
  else match reconnect_delay attempt with
       | Some delay => Continue delay (attempt + 1)
       | None => Stop Panicked
       end.

(** One turn of the loop from counter [attempt]: the updates sent, and its end.
    [PubsubClient::new(..).await.unwrap()] panics when it cannot connect; every
    message, and the end of the stream, resets the counter. *)
Definition ws_turn (attempt : Z) (ev : ws_event) : list DataAndSlot * ws_next :=
  match ev with
  | ConnectError => ([], Stop Panicked)
  | Subscribed messages => (omap id messages, ws_wait 0)
  | SubscribeError =>
      let attempt := attempt + 1 in
      ([], if max_reconnection_attempts <=? attempt then Stop GaveUp else ws_wait attempt)
  end.

(** The loop over the events of the connection. *)
Fixpoint ws_loop (attempt : Z) (events : list ws_event) : ws_run_result :=
  match events with
  | [] => mkWsRun [] [] (Waiting attempt)
  | ev :: events =>
      let '(updates, next) := ws_turn attempt ev in
      match next with
      | Stop status => mkWsRun updates [] status
      | Continue delay attempt' =>
          let r := ws_loop attempt' events in
          mkWsRun (updates ++ wr_updates r) (delay :: wr_delays r) (wr_status r)
      end
  end.

(** One response of the polling task: every account is sent with slot 0, in the
    order in which the spawned tasks reach the channel. *)
Definition poll_updates (accounts : list ClaimStatus) : list DataAndSlot :=
  map (λ cs, mkDataAndSlot cs 0) accounts.

(** ** The back-off *)

(** A failure counts twice: once in the error branch, once after the delay. *)
Lemma ws_turn_error attempt :
  0 ≤ attempt → ws_turn attempt SubscribeError =
  ([], if 19 <=? attempt then Stop GaveUp else Continue (5 * 2 ^ (attempt + 1)) (attempt + 2)).
Proof.
  intros Ha. unfold ws_turn, ws_wait, max_reconnection_attempts. f_equal.
  destruct (Z.leb_spec 20 (attempt + 1)), (Z.leb_spec 19 attempt); try lia; [done|].
  unfold reconnect_delay. rewrite (proj2 (Z.ltb_lt _ _)) by (apply Z.pow_lt_mono_r; lia).
  f_equal. lia.
Qed.

Lemma ws_turn_subscribed attempt ms : ws_turn attempt (Subscribed ms) = (omap id ms, Continue 5 1).
Proof. done. Qed.

(** The failures in a row a task at counter [attempt] survives. *)
Definition spare (attempt : Z) : nat := Z.to_nat ((20 - attempt) / 2).

Lemma spare_end attempt : 0 ≤ attempt ≤ 20 → spare attempt = 0%nat ↔ 19 ≤ attempt.
Proof.
  intros Ha. unfold spare. pose proof (Z.div_mod (20 - attempt) 2 ltac:(lia)).
  pose proof (Z.mod_pos_bound (20 - attempt) 2 ltac:(lia)). lia.
Qed.
Lemma spare_step attempt : attempt ≤ 18 → spare attempt = S (spare (attempt + 2)).
Proof.
  intros Ha. unfold spare. replace (20 - attempt) with (20 - (attempt + 2) + 1 * 2) by lia.
  rewrite Z.div_add by lia. pose proof (Z.div_pos (20 - (attempt + 2)) 2 ltac:(lia) ltac:(lia)). lia.
Qed.

(** The task starts with ten failures to spare, and with nine after a stream. *)
Inductive ws_end := Alive | Stopped | Died.
Fixpoint task_end (rest : nat) (events : list ws_event) : ws_end :=
  match events with
  | [] => Alive
  | ConnectError :: _ => Died
  | SubscribeError :: events => match rest with O => Stopped | S rest => task_end rest events end
  | Subscribed _ :: events => task_end 9 events
  end.

Definition status_end (s : ws_status) : ws_end :=
  match s with Waiting _ => Alive | GaveUp => Stopped | Panicked => Died end.

Lemma ws_loop_end attempt events :
  0 ≤ attempt ≤ 20 →
  status_end (wr_status (ws_loop attempt events)) = task_end (spare attempt) events ∧
  Forall (λ d, 5 ≤ d ≤ 5 * 2 ^ 19) (wr_delays (ws_loop attempt events)).
Proof.
  revert attempt. induction events as [|ev events IH]; intros attempt Ha; [split; [done|constructor]|].
  destruct ev as [| |ms]; cbn [ws_loop task_end]; [split; [done|constructor]| |].
  - rewrite ws_turn_error by lia. destruct (Z.leb_spec 19 attempt) as [Hge|Hlt].
    + rewrite (proj2 (spare_end attempt Ha) Hge). split; [done|constructor].
    + rewrite spare_step by lia. destruct (IH (attempt + 2) ltac:(lia)) as [He Hd].
      split; [done|]. constructor; [|done].
      split; [|apply Z.mul_le_mono_nonneg_l; [lia|apply Z.pow_le_mono_r; lia]].
      assert (1 ≤ 2 ^ (attempt + 1)); [|lia]. apply (Z.pow_le_mono_r 2 0); lia.
  - rewrite ws_turn_subscribed. destruct (IH 1 ltac:(lia)) as [He Hd]. split; [done|].
    constructor; [lia|done].
Qed.

(** While the task is up every message that decodes has been sent, in order. *)
Definition delivered_messages (ev : ws_event) : list DataAndSlot :=
  match ev with Subscribed messages => omap id messages | _ => [] end.

Lemma ws_loop_updates attempt events a :
  0 ≤ attempt → wr_status (ws_loop attempt events) = Waiting a →
  wr_updates (ws_loop attempt events) = concat (map delivered_messages events).
Proof.
  revert attempt. induction events as [|ev events IH]; intros attempt Ha; [done|].
  destruct ev as [| |ms]; cbn [ws_loop]; [done| |].
  - rewrite ws_turn_error by lia. destruct (19 <=? attempt); [done|]. apply IH. lia.
  - rewrite ws_turn_subscribed. cbn [wr_status wr_updates map concat]. intros Hs. f_equal. apply IH; [lia|done].
Qed.

(** ** When the task ends *)

(** Enough failures in a row: eleven at the start or ten after a stream. *)
Definition exhausted (rest : nat) (events : list ws_event) : Prop :=
  ∃ pre post, ConnectError ∉ pre ∧
    (pre = [] ∧ events = replicate (S rest) SubscribeError ++ post ∨
     (∃ pre' ms, pre = pre' ++ [Subscribed ms]) ∧ events = pre ++ replicate 10 SubscribeError ++ post).

Lemma exhausted_error rest events : exhausted rest events → exhausted (S rest) (SubscribeError :: events).
Proof.
  intros (pre & post & Hno & [[-> ->]|[(pre' & ms & ->) ->]]).
  - exists [], post. split; [done|]. by left.
  - exists (SubscribeError :: pre' ++ [Subscribed ms]), post. split; [set_solver|]. right.
    split; [by exists (SubscribeError :: pre'), ms|done].
Qed.
Lemma exhausted_subscribed rest ms events : exhausted 9 events → exhausted rest (Subscribed ms :: events).
Proof.
  intros (pre & post & Hno & [[-> ->]|[(pre' & ms' & ->) ->]]).
  - exists [Subscribed ms], post. split; [set_solver|]. right. split; [by exists [], ms|done].
  - exists (Subscribed ms :: pre' ++ [Subscribed ms']), post. split; [set_solver|]. right.
    split; [by exists (Subscribed ms :: pre'), ms'|done].
Qed.

Lemma task_end_failures rest n post :
  (rest < n)%nat → task_end rest (replicate n SubscribeError ++ post) = Stopped.
Proof. revert n. induction rest as [|rest IH]; intros [|n] Hn; try lia; [done|]. apply IH. lia. Qed.

Lemma task_end_after_stream rest pre ms post :
  ConnectError ∉ pre → task_end rest (pre ++ Subscribed ms :: replicate 10 SubscribeError ++ post) = Stopped.
Proof.
  revert rest. induction pre as [|ev pre IH]; intros rest; cbn [app task_end].
  - intros _. apply task_end_failures. lia.
  - intros [Hev Hno]%not_elem_of_cons. destruct ev; [done|destruct rest; [done|]|]; by apply IH.
Qed.

Lemma task_end_stopped rest events : task_end rest events = Stopped ↔ exhausted rest events.
Proof.
  split.
  - revert rest. induction events as [|[| |ms] events IH]; intros rest; cbn [task_end]; [done|done| |].
    + destruct rest as [|rest]; [intros _|intros Hs; by apply exhausted_error, IH].
      exists [], events. split; [set_solver|]. by left.
    + intros Hs. by apply exhausted_subscribed, IH.
  - intros (pre & post & Hno & [[-> ->]|[(pre' & ms & ->) ->]]).
    + apply task_end_failures. lia.
    + rewrite <- app_assoc. apply task_end_after_stream. set_solver.
Qed.

Lemma task_end_died rest events :
  task_end rest events = Died ↔
  ∃ pre post, events = pre ++ ConnectError :: post ∧ task_end rest pre = Alive.
Proof.
  split.
  - revert rest. induction events as [|ev events IH]; intros rest; cbn [task_end]; [done|].
    intros Hd. assert (ev = ConnectError ∨ ∃ l', (∀ es, task_end rest (ev :: es) = task_end l' es))
      as [-> |[l' Hstep]].
    { destruct ev; [by left|destruct rest; [done|right; by eexists]|right; by eexists]. }
    + by exists [], events.
    + change (task_end rest (ev :: events) = Died) in Hd. rewrite Hstep in Hd.
      destruct (IH _ Hd) as (pre & post & -> & Ha). exists (ev :: pre), post. by rewrite Hstep.
  - intros (pre & post & -> & Ha). revert rest Ha.
    induction pre as [|[| |ms] pre IH]; intros rest; cbn [app task_end]; [done|done| |apply IH].
    destruct rest; [done|apply IH].
Qed.

(** C36. When the subscription task ends, exactly.  Whatever the connection does,
    every delay is between 5 seconds and [5 * 2^19] seconds and the computation of
    the delay never panics: the task panics if and only if the websocket cannot be
    opened at a turn it reaches.  It gives up if and only if eleven subscriptions
    in a row fail from the start, or ten in a row after a stream that ended (each
    failure advances the counter by two), with no failed connection before.  While
    it is up, every message that decodes has been forwarded, in order. *)
Theorem reconnection_is_bounded events :
  let r := ws_loop 0 events in
  Forall (λ d, 5 ≤ d ≤ 5 * 2 ^ 19) (wr_delays r) ∧
  (wr_status r = GaveUp ↔
     ∃ pre post, ConnectError ∉ pre ∧
       (pre = [] ∧ events = replicate 11 SubscribeError ++ post ∨
        (∃ pre' ms, pre = pre' ++ [Subscribed ms]) ∧ events = pre ++ replicate 10 SubscribeError ++ post)) ∧
  (wr_status r = Panicked ↔
     ∃ pre post, events = pre ++ ConnectError :: post ∧ ∃ a, wr_status (ws_loop 0 pre) = Waiting a) ∧
  (∀ a, wr_status r = Waiting a → wr_updates r = concat (map delivered_messages events)).
Proof.
  assert (∀ es, status_end (wr_status (ws_loop 0 es)) = task_end 10 es) as Hend
    by (intros es; by apply (ws_loop_end 0)).
  cbn zeta. split_and!; [by apply (ws_loop_end 0)| | |].
  - change (wr_status (ws_loop 0 events) = GaveUp ↔ exhausted 10 events).
    rewrite <- task_end_stopped, <- Hend. by destruct (wr_status _).
  - trans (task_end 10 events = Died); [rewrite <- Hend; by destruct (wr_status _)|].
    rewrite task_end_died. f_equiv. intros pre. f_equiv. intros post. rewrite <- Hend.
    destruct (wr_status (ws_loop 0 pre)); naive_solver.
  - intros a. apply ws_loop_updates. lia.
Qed.

(** Ten failures at the start are survived, eleven are not; after a stream, nine. *)
Example ws_failures :
  wr_status (ws_loop 0 (replicate 10 SubscribeError)) = Waiting 20 ∧
  wr_status (ws_loop 0 (replicate 11 SubscribeError)) = GaveUp ∧
  wr_status (ws_loop 0 (Subscribed [] :: replicate 9 SubscribeError)) = Waiting 19 ∧
  wr_status (ws_loop 0 (Subscribed [] :: replicate 10 SubscribeError)) = GaveUp.
Proof. vm_compute. repeat split. Qed.
