(* ===== verification/ServerSync.v ===== *)
(** * From the ledger to the server's answers
    (src/api/src/cache.rs: the messages of [hydrate_cache_for_config], the poll,
    [hydrate_distributors_cache] on account data)

    The server reads the chain as bytes: the polls and subscription messages of
    claim statuses, and the distributor accounts.  The text encoding of account
    data in messages is the parameter [Base64].  What the server then answers is
    what is on the ledger. *)
From S2P Require Import Prelude Machine Hashing Sha256 MerkleTree MerkleProof TreeNode Airdrop.
From S2P Require Import ProgramError ClaimStatus Solana Token State Handlers Program Execution.
From S2P Require Import Scenario Safety Ledger Schedule EndToEnd Layout Api ApiTheorems ApiStream.
From stdpp Require Import pretty.
#[local] Open Scope Z_scope.

(** [base64::decode]. *)
Class Base64 := base64_decode : string → option (list byte).

(** [UiAccountData]: binary data with its text, or another encoding. *)
Inductive UiAccountData := Binary (encoded : string) | OtherData.

Section sync.
Context `{PubkeyParser} `{PubkeyText} `{AccountCodec} `{Base64}.

(** A subscription message: the update sent, [None] when it is skipped. *)
Definition decode_message (slot : Z) (data : UiAccountData) : option DataAndSlot :=
  match data with
  | Binary encoded =>
      decoded_data ← base64_decode encoded;
      cs ← ClaimStatus_try_deserialize decoded_data;
      Some (mkDataAndSlot cs slot)
  | OtherData => None
  end.

(** One account of a poll: its task panics if it does not deserialize. *)
Definition poll_account (account : Pubkey * list byte) : result api_failure DataAndSlot :=
  cs ← or_panic (ClaimStatus_try_deserialize account.2);
  Ok (mkDataAndSlot cs 0).

(** The messages of a poll; a task that panicked sends none. *)
Definition poll_messages (accounts : list (Pubkey * list byte)) : list DataAndSlot :=
  omap (λ a, match poll_account a with Ok u => Some u | Err _ => None end) accounts.

(** The answers of the node at one time: to the polls of the distributors' claim
    statuses, in whatever order their tasks reach the channel, and to
    [get_multiple_accounts]. *)
Definition polled (st : State) (ks : list Pubkey) (updates : list DataAndSlot) : Prop :=
  ∃ answers, Forall2 (λ k answer, program_accounts st (subscribe_filters k) answer) ks answers ∧
    updates ≡ₚ concat (map poll_messages answers).
Definition distributor_accounts (st : State) (ks : list Pubkey) : gma_response :=
  GmaAccounts (map (λ k, (λ a, MerkleDistributor_try_deserialize (account_data a)) <$> st_accounts st !! k) ks).

(** ** Claim statuses *)
Context `{AddressDerivation} `{!AddressDerivationSpec} `{!AccountCodecSpec} `{!PubkeyTextSpec}.
Implicit Types (st : State) (k c : Pubkey).

Lemma poll_messages_statuses st k answer u :
  state_ok st → program_accounts st (subscribe_filters k) answer →
  u ∈ poll_messages answer ↔
  ∃ s cs, st_accounts st !! s = Some (ClaimStatusAcc cs) ∧ cs_distributor cs = k ∧ u = mkDataAndSlot cs 0.
Proof.
  intros Hok Hq. destruct (subscription_query_is_exact st k answer Hok Hq) as (l & Hl & _ & Hin).
  assert (poll_messages answer = map (λ p, mkDataAndSlot p.2 0) l) as ->.
  { clear Hin Hq. revert l Hl. unfold claim_status_accounts, poll_messages, poll_account.
    induction answer as [|p answer IH]; intros l Hl; simpl in *; [by injection Hl as <-|].
    destruct (ClaimStatus_try_deserialize p.2) as [cs|]; [|done]. simpl in *.
    destruct (mapM _ answer) as [l'|]; [|done]. injection Hl as <-. simpl. f_equal. by apply IH. }
  rewrite list_elem_of_fmap. split.
  - intros ([s cs] & -> & [? ?]%Hin). eauto.
  - intros (s & cs & ? & ? & ->). exists (s, cs). by rewrite Hin.
Qed.

Lemma polled_statuses st ks updates u :
  state_ok st → polled st ks updates →
  u ∈ updates ↔
  ∃ s cs, st_accounts st !! s = Some (ClaimStatusAcc cs) ∧ cs_distributor cs ∈ ks ∧ u = mkDataAndSlot cs 0.
Proof.
  intros Hok (answers & Hall & ->). induction Hall as [|k answer ks answers Hq _ IH]; simpl.
  - split; [by intros ?%elem_of_nil|]. by intros (? & ? & _ & ?%elem_of_nil & _).
  - rewrite elem_of_app, IH, (poll_messages_statuses st k) by done. set_solver.
Qed.

(** An entry of the cache is decided by the polled messages about its claimant. *)
Lemma apply_update_other m u c :
  cs_claimant (ds_data u) ≠ c → apply_update m u !! pubkey_to_string c = m !! pubkey_to_string c.
Proof.
  intros Hne. assert (pubkey_to_string (cs_claimant (ds_data u)) ≠ pubkey_to_string c) by (by intros ?%(inj _)).
  unfold apply_update. repeat case_match; rewrite ?lookup_insert_ne by done; done.
Qed.

Lemma polled_cache c cs updates m :
  (∀ u, u ∈ updates → cs_claimant (ds_data u) = c → u = mkDataAndSlot cs 0) →
  ds_data <$> foldl apply_update m updates !! pubkey_to_string c =
  if decide (c ∈ map (λ u, cs_claimant (ds_data u)) updates) then Some cs
  else ds_data <$> m !! pubkey_to_string c.
Proof.
  induction updates as [|u updates IH] using rev_ind; intros Hall; [done|].
  rewrite foldl_snoc, map_app. specialize (IH ltac:(set_solver)).
  destruct (decide (cs_claimant (ds_data u) = c)) as [Hc|Hne].
  - rewrite decide_True by (simpl; set_solver). specialize (Hall u ltac:(set_solver) Hc).
    rewrite <- Hc, apply_update_polled by (by rewrite Hall). by rewrite Hall.
  - rewrite apply_update_other, IH by done. by do 2 case_decide; set_solver.
Qed.

(** ** Distributors *)

(** What [hydrate_distributors_cache] does with one account. *)
Definition cache_distributor (m : gmap string MerkleDistributor) (p : SingleDistributor * option (option MerkleDistributor))
  : result api_failure (gmap string MerkleDistributor) :=
  match p.2 with
  | Some data => v ← or_panic data; Ok (<[sd_distributor_pubkey p.1 := v]> m)
  | None => Ok m
  end.

(** The accounts come in the order of the keys. *)
Lemma hydrate_by_position (ds pre suf : list SingleDistributor) accounts m :
  ds = pre ++ suf → length accounts = length suf →
  try_fold (λ m '(index, account),
      d ← or_panic (ds !! index);
      match account with
      | Some data => v ← or_panic data; Ok (<[sd_distributor_pubkey d := v]> m)
      | None => Ok m
      end) m (zip (seq (length pre) (length accounts)) accounts)
  = try_fold cache_distributor m (zip suf accounts).
Proof.
  revert pre suf m. induction accounts as [|a accounts IH]; intros pre [|d suf] m -> Hlen; try done.
  cbn [length seq zip zip_with try_fold]. rewrite list_lookup_middle by done.
  destruct a as [[v|]|]; simpl; [|done|];
    (rewrite <- (IH (pre ++ [d])); [by rewrite length_app, Nat.add_1_r|by rewrite <- (assoc_L (++))|by injection Hlen]).
Qed.

Lemma hydrate_in_order (cache : Cache) accounts :
  length accounts = length (ca_distributors cache) →
  hydrate_distributors_cache cache accounts =
  (m ← try_fold cache_distributor (ca_distributor_cache cache) (zip (ca_distributors cache) accounts);
   Ok (set_distributor_cache m cache)).
Proof.
  intros Hlen. unfold hydrate_distributors_cache. f_equal.
  exact (hydrate_by_position _ [] _ _ _ eq_refl Hlen).
Qed.

Lemma cache_distributors st ds ks m :
  state_ok st → Forall2 (λ d k, sd_distributor_pubkey d = pubkey_to_string k) ds ks →
  (∀ k cs, k ∈ ks → st_accounts st !! k ≠ Some (ClaimStatusAcc cs)) →
  ∃ m', try_fold cache_distributor m (zip ds (map (λ k, (λ a,
            MerkleDistributor_try_deserialize (account_data a)) <$> st_accounts st !! k) ks)) = Ok m' ∧
    (∀ k d, k ∈ ks → st_accounts st !! k = Some (DistributorAcc d) → m' !! pubkey_to_string k = Some d) ∧
    ∀ k d, k ∉ ks ∨ m !! pubkey_to_string k = Some d ∧ st_accounts st !! k = Some (DistributorAcc d) →
      m' !! pubkey_to_string k = m !! pubkey_to_string k.
Proof.
  intros Hok Hall. revert m. induction Hall as [|d k ds ks Hdk _ IH]; intros m Hkind.
  { exists m. split_and!; [done|by intros ? ? ?%elem_of_nil|done]. }
  assert (∀ k' cs, k' ∈ ks → st_accounts st !! k' ≠ Some (ClaimStatusAcc cs)) as Hkind' by set_solver.
  cbn [map zip zip_with try_fold].
  destruct (st_accounts st !! k) as [[v|cs]|] eqn:Hk; cbn [fmap option_fmap option_map].
  - rewrite (read_distributor _ (state_ok_account_typed st k _ Hok Hk)).
    change (cache_distributor m (d, Some (Some v))) with
      (Ok (E:=api_failure) (<[sd_distributor_pubkey d := v]> m)).
    cbn [mbind result_bind]. rewrite Hdk.
    destruct (IH (<[pubkey_to_string k := v]> m) Hkind') as (m' & Hm' & Hin & Hout).
    exists m'. split_and!; [done| |].
    + intros k' d' [-> |Hk']%elem_of_cons Hd'; [|by apply Hin]. assert (d' = v) as -> by congruence.
      rewrite (Hout k v); rewrite lookup_insert_eq; auto.
    + intros k' d' [Hnin|[Hm Hd']]; [|destruct (decide (k' = k)) as [-> |Hne]].
      * rewrite (Hout k' d'), lookup_insert_ne by (set_solver || (intros ?%(inj _); set_solver)). done.
      * assert (d' = v) as -> by congruence. rewrite (Hout k v), lookup_insert_eq, Hm; [done|].
        rewrite lookup_insert_eq. auto.
      * rewrite (Hout k' d'); rewrite lookup_insert_ne by (by intros ?%(inj _)); auto.
  - by destruct (Hkind k cs); [set_solver|].
  - change (cache_distributor m (d, None)) with (Ok (E:=api_failure) m). cbn [mbind result_bind].
    destruct (IH m Hkind') as (m' & Hm' & Hin & Hout). exists m'. split_and!; [done| |].
    + intros k' d' [-> |Hk']%elem_of_cons Hd'; [congruence|by apply Hin].
    + intros k' d' [?|?]; apply (Hout k' d'); [left; set_solver|by right].
Qed.
End sync.

(** ** The server as a view of the ledger *)
Section view.
Context `{Hasher} `{AddressDerivation} `{!AddressDerivationSpec} `{TokenProgram} `{!TokenProgramSpec}.
Context `{PubkeyParser} `{PubkeyText} `{!PubkeyTextSpec} `{AccountCodec} `{!AccountCodecSpec}.

Definition tree_keys (mint : Pubkey) (trees : list AirdropMerkleTree) : list Pubkey :=
  map (λ tree, distributor_address mint (at_airdrop_version tree)) trees.

Lemma load_trees_distributors mint trees :
  Forall2 (λ d k, sd_distributor_pubkey d = pubkey_to_string k)
    (load_trees PROGRAM_ID mint trees).1 (tree_keys mint trees).
Proof.
  induction trees as [|tree trees IH] using rev_ind; [constructor|].
  rewrite load_trees_snoc. unfold tree_keys. rewrite map_app. apply Forall2_app; [exact IH|].
  by repeat constructor.
Qed.

Lemma loaded_keys ds ks :
  Forall2 (λ d k, sd_distributor_pubkey d = pubkey_to_string k) ds ks →
  try_map (λ d, or_panic (pubkey_from_str (sd_distributor_pubkey d))) ds = Ok ks.
Proof.
  intros Hall. apply try_map_Forall2. induction Hall as [|d k ds ks Hdk _ IH]; constructor; [|done].
  by rewrite Hdk, pubkey_text_roundtrip.
Qed.

(** The distributor task succeeds, and both caches hold what the ledger holds. *)
Lemma refresh_spec st mint trees cache updates :
  state_ok st → ca_distributors cache = (load_trees PROGRAM_ID mint trees).1 →
  (∀ k cs, k ∈ tree_keys mint trees → st_accounts st !! k ≠ Some (ClaimStatusAcc cs)) →
  polled st (tree_keys mint trees) updates →
  ∃ cache1, hydrate_cycle (λ _, distributor_accounts st (tree_keys mint trees)) cache = Ok cache1 ∧
    ca_claim_status_cache cache1 = ca_claim_status_cache cache ∧
    ∀ k d, k ∈ tree_keys mint trees → st_accounts st !! k = Some (DistributorAcc d) →
      cache_get_distributor cache1 (pubkey_to_string k) = Some d.
Proof.
  intros Hok Hds Hkind Hpoll. pose proof (load_trees_distributors mint trees) as Hall.
  unfold hydrate_cycle, get_distributor_keys. rewrite Hds, (loaded_keys _ _ Hall).
  cbn [mbind result_bind]. unfold distributor_accounts. simpl hydrate_retry.
  rewrite hydrate_in_order by (rewrite length_map, Hds; symmetry; by eapply Forall2_length).
  rewrite Hds.
  destruct (cache_distributors st _ _ (ca_distributor_cache cache) Hok Hall Hkind) as (m' & -> & Hin & _).
  eexists. split; [reflexivity|]. split; [done|]. intros k d Hk Hd. by apply Hin.
Qed.

(** A distributor created for a tree, as in [EndToEnd]. *)
Context (U : list (Pubkey * Pubkey)) (k : Pubkey).
Context (rows : list TreeNode) (version : Z) (tree : AirdropMerkleTree).
Context (signers0 : gset Pubkey) (st0 st1 : State) (a : NewDistributor) (p : NewDistributorArgs).
Context (Hrows : Forall node_wf rows) (Hlen : Z.of_nat (length rows) ≤ 2 ^ 32 - 1).
Context (Hbuilt : AirdropMerkleTree_new rows version = Ok tree) (Hdist : addresses_distinct U).
Context (Hok0 : state_ok st0) (Hin0 : statuses_in U st0) (Hno0 : no_status_for st0 k).
Context (Hty : ix_typed (INewDistributor a p)) (Hfor : creates_for_tree k tree a p).
Context (Hp : process_instruction signers0 st0 (INewDistributor a p) = Ok st1).

Lemma entry_total n : n ∈ at_tree_nodes tree → node_total n ≤ U64_MAX.
Proof.
  intros Hn. pose proof (built_tree_ok rows version tree Hrows Hlen Hbuilt) as Htree.
  destruct (ao_total _ _ _ Htree) as (Hsum & _ & Hmax).
  assert (node_total n ≤ at_max_total_claim tree); [|zlia]. rewrite Hsum.
  apply (sum_list_elem node_total); [|done].
  intros x Hx. apply node_total_nonneg. by apply (ao_amounts _ _ _ Htree).
Qed.

(** What the ledger knows of a status of the distributor. *)
Lemma status_facts st d s cs now :
  steps (honest_ix U k tree) st1 st → st_accounts st !! k = Some (DistributorAcc d) →
  st_accounts st !! s = Some (ClaimStatusAcc cs) → cs_distributor cs = k → curr_ts st ≤ now →
  cs_wf cs ∧ cs_unlocked_amount cs + cs_locked_amount cs ≤ U64_MAX ∧
  cs_locked_amount_withdrawn cs ≤ released (cs_locked_amount cs) now (md_start_ts d) (md_end_ts d).
Proof.
  intros Hsteps Hd Hs Hk Hnow.
  destruct (from_creation U k rows version tree signers0 st0 st1 a p Hrows Hlen Hbuilt Hdist Hok0 Hin0
    Hno0 Hty Hfor Hp st Hsteps) as [Hok (d' & Hd' & _ & _ & _ & Hft)].
  pose proof (so_wf _ _ (ok_statuses st Hok s cs Hs)) as Hwf. split; [done|]. split.
  - destruct (Hft s cs Hs Hk) as (n & Hn & _ & <- & <-). by apply entry_total.
  - pose proof Hfor as (Hnk & _ & _ & _ & Hcl). pose proof Hno0 as Hno. rewrite <- Hnk in Hd, Hk, Hno.
    pose proof (process_instruction_effect _ _ _ _ (state_ok_typed _ Hok0) Hty Hp) as Heff.
    destruct (steps_schedule U st1 st (nd_distributor a) (nda_start_vesting_ts p) (nda_end_vesting_ts p) Hdist
      (effect_ok _ _ _ _ Hok0 Heff) (creation_statuses_in _ _ _ _ _ _ Hin0 Hp)
      (creation_schedule _ _ _ _ _ Hp Hcl Hno)) as (d2 & Hd2 & _ & _ & _ & Hsch).
    { eapply rtc_subrel; [|exact Hsteps]. intros x y. apply step_allowed_mono. by intros ix [? _]. }
    assert (d2 = d) as -> by congruence.
    destruct (on_schedule_later (curr_ts st) now d d cs Hwf Hnow ltac:(done) (Hsch s cs Hs Hk)). done.
Qed.

(** After a poll the cache entry of [c] is its account on the ledger. *)
Lemma cached_status st mint trees c cache updates :
  steps (honest_ix U k tree) st1 st → k ∈ tree_keys mint trees → (c, k) ∈ U →
  (∀ s cs, st_accounts st !! s = Some (ClaimStatusAcc cs) → cs_claimant cs = c →
     cs_distributor cs ∈ tree_keys mint trees → cs_distributor cs = k) →
  polled st (tree_keys mint trees) updates →
  (st_accounts st !! claim_status_address c k = None →
     cache_get_claim_status cache (pubkey_to_string c) = None) →
  (∀ d, st_accounts st !! claim_status_address c k ≠ Some (DistributorAcc d)) →
  ds_data <$> cache_get_claim_status (cache_updater cache updates) (pubkey_to_string c)
  = get_claim_status st (claim_status_address c k) ∧
  ∀ cs, get_claim_status st (claim_status_address c k) = Some cs →
    cs_claimant cs = c ∧ cs_distributor cs = k.
Proof.
  intros Hsteps Hkey Hu Hone Hpoll Hclean Hkind.
  destruct (from_creation U k rows version tree signers0 st0 st1 a p Hrows Hlen Hbuilt Hdist Hok0 Hin0
    Hno0 Hty Hfor Hp st Hsteps) as [Hok _].
  assert (statuses_in U st) as Hin.
  { eapply (steps_statuses_in U (honest_ix U k tree) st1); [by intros ix [? _]| | |done].
    - eapply effect_ok; [exact Hok0|]. eapply process_instruction_effect; [|exact Hty|exact Hp].
      by apply state_ok_typed.
    - by eapply creation_statuses_in. }
  assert (∀ s cs, st_accounts st !! s = Some (ClaimStatusAcc cs) → cs_claimant cs = c →
    cs_distributor cs ∈ tree_keys mint trees → s = claim_status_address c k) as Haddr.
  { intros s cs Hs Hc Hk. rewrite (so_address _ _ (ok_statuses st Hok s cs Hs)), Hc.
    by rewrite (Hone s cs Hs Hc Hk). }
  unfold cache_get_claim_status in *. unfold cache_updater, get_claim_status. simpl.
  destruct (st_accounts st !! claim_status_address c k) as [[d|cs]|] eqn:Hs; [by destruct (Hkind d)| |].
  - pose proof (so_address _ _ (ok_statuses st Hok _ cs Hs)) as Heq.
    apply (Hdist (_, _) (_, _)) in Heq; [|done|by eapply Hin]. injection Heq as Hc Hk.
    split; [|by intros ? [= <-]]. rewrite (polled_cache c cs).
    + rewrite decide_True; [done|]. apply list_elem_of_fmap. exists (mkDataAndSlot cs 0). split; [done|].
      apply (polled_statuses st (tree_keys mint trees)); [done|done|].
      exists (claim_status_address c k), cs. by rewrite <- Hk.
    + intros u Hin' Hcu. apply (polled_statuses st _ _ _ Hok Hpoll) in Hin' as (s & cs' & Hs' & Hk' & ->).
      simpl in Hcu. rewrite (Haddr s cs' Hs' Hcu Hk') in Hs'. congruence.
  - split; [|done]. rewrite (polled_cache c ClaimStatus_default).
    + rewrite decide_False; [by rewrite Hclean|]. intros (u & Hcu & Hin')%list_elem_of_fmap.
      apply (polled_statuses st _ _ _ Hok Hpoll) in Hin' as (s & cs' & Hs' & Hk' & ->). simpl in Hcu.
      rewrite (Haddr s cs' Hs' (eq_sym Hcu) Hk') in Hs'. congruence.
    + intros u Hin' Hcu. apply (polled_statuses st _ _ _ Hok Hpoll) in Hin' as (s & cs' & Hs' & Hk' & ->).
      simpl in Hcu. rewrite (Haddr s cs' Hs' Hcu Hk') in Hs'. congruence.
Qed.

(** If the program accepts a withdrawal now, it pays what [amount_withdrawable] says. *)
Lemma withdrawal_pays_the_quote st d cs c signers x st' w :
  state_ok st → st_accounts st !! k = Some (DistributorAcc d) →
  st_accounts st !! claim_status_address c k = Some (ClaimStatusAcc cs) →
  md_end_ts d - md_start_ts d ≤ I64_MAX →
  amount_withdrawable cs (curr_ts st) (md_start_ts d) (md_end_ts d) = Ok w →
  cl_distributor x = k → cl_claim_status x = claim_status_address c k →
  process_instruction signers st (IClaimLocked x) = Ok st' →
  ∃ cs', get_claim_status st' (claim_status_address c k) = Some cs' ∧ paid cs' = paid cs + w.
Proof.
  intros Hok Hd Hcs Hwin Hw Hk Hs Hpr. cbn [process_instruction] in Hpr.
  apply handle_claim_locked_Ok in Hpr as (d' & cs' & v & dest & amount & ts & Hacc & ->);
    [|apply accounts_typed_locked, state_ok_typed; done].
  pose proof (cla_distributor _ _ _ _ _ _ _ _ _ Hacc) as Hd'. rewrite Hk in Hd'.
  pose proof (cla_status _ _ _ _ _ _ _ _ _ Hacc) as Hcs'. rewrite Hs in Hcs'.
  assert (d' = d) as -> by congruence. assert (cs' = cs) as -> by congruence.
  eexists. split; [apply get_claim_status_Some; rewrite <- Hs; apply lookup_insert_eq|].
  assert (amount = w) as ->; [|unfold paid; simpl; lia].
  rewrite (cla_amount _ _ _ _ _ _ _ _ _ Hacc).
  destruct (do_i64 _ _ _ (ok_distributors st Hok k d Hd)) as (? & ? & _).
  destruct (so_wf _ _ (ok_statuses st Hok _ cs Hcs)) as (? & _).
  by apply amount_withdrawable_Ok in Hw as [-> _].
Qed.

(** If the program accepts a claim of the entry now, it pays, with the withdrawal
    that is open afterwards, what a server of start percentage 50 quotes. *)
Lemma claim_pays_the_quote st d c n signers x proof st' :
  state_ok st → st_accounts st !! k = Some (DistributorAcc d) → node_wf n →
  md_end_ts d - md_start_ts d ≤ I64_MAX →
  nc_distributor x = k → nc_claimant x = c → nc_claim_status x = claim_status_address c k →
  process_instruction signers st (INewClaim x (tn_amount n) (locked_amount_of n) proof) = Ok st' →
  ∃ cs' w, get_claim_status st' (claim_status_address c k) = Some cs' ∧
    amount_withdrawable cs' (curr_ts st) (md_start_ts d) (md_end_ts d) = Ok w ∧
    new_quote 50 n (curr_ts st) (md_start_ts d) (md_end_ts d) = paid cs' + w.
Proof.
  intros Hok Hd [Hu Hl] Hwin Hk Hc Hs Hpr. cbn [process_instruction] in Hpr.
  apply handle_new_claim_Ok in Hpr as (d' & v & dest & ts & Hacc & ->);
    [|apply accounts_typed_window, state_ok_typed; done|done].
  pose proof (nca_distributor _ _ _ _ _ _ _ _ _ _ Hacc) as Hd'. rewrite Hk in Hd'.
  assert (d' = d) as -> by congruence.
  destruct (do_i64 _ _ _ (ok_distributors st Hok k d Hd)) as (? & ? & _).
  pose proof (nca_started _ _ _ _ _ _ _ _ _ _ Hacc) as Hstart.
  pose proof (released_bounds (locked_amount_of n) (curr_ts st) (md_start_ts d) (md_end_ts d) ltac:(zlia)).
  eexists _, _. split; [apply get_claim_status_Some; rewrite <- Hs; apply lookup_insert_eq|]. split.
  - unfold amount_withdrawable. rewrite unlocked_amount_eq, window_no_overflow by done. simpl.
    unfold checked_sub_u64. rewrite (proj2 (Z.leb_le _ _)) by lia. simpl. done.
  - unfold new_quote, paid. rewrite vested_pct_50. simpl.
    destruct (Z.ltb_spec (curr_ts st) (md_start_ts d)); lia.
Qed.

End view.

(** ** Witness: the scenario's ledger read by a server that loaded its tree *)
#[local] Existing Instances raw_parser raw_text raw_text_spec borsh_codec borsh_codec_spec.

Definition vx_trees : list AirdropMerkleTree := [sc_tree].
Definition vx_cache : Cache :=
  Cache_new PROGRAM_ID (load_trees PROGRAM_ID sc_mint_key vx_trees).1 None 0 0 EmptyString.
Definition vx_updates : list DataAndSlot :=
  concat (map poll_messages [node_answer sc_state3 (subscribe_filters sc_dist)]).
Definition vx_alice_node : TreeNode := mkTreeNode sc_alice 105 (Some 7) (Some sc_alice_proof).

Example vx_updates_are : vx_updates = [mkDataAndSlot (sc_status_at sc_state3 sc_alice) 0].
Proof. vm_compute. reflexivity. Qed.

Lemma vx_keys : tree_keys sc_mint_key vx_trees = [sc_dist].
Proof. done. Qed.
Lemma vx_polled : polled sc_state3 (tree_keys sc_mint_key vx_trees) vx_updates.
Proof.
  exists [node_answer sc_state3 (subscribe_filters sc_dist)]. split; [|reflexivity].
  rewrite vx_keys. constructor; [apply node_answer_program_accounts|constructor].
Qed.
Lemma vx_loaded :
  (load_trees PROGRAM_ID sc_mint_key vx_trees).2 !! sc_alice = Some (sc_dist, vx_alice_node).
Proof. vm_compute. reflexivity. Qed.
Lemma vx_entry : vx_alice_node ∈ at_tree_nodes sc_tree.
Proof. apply elem_of_cons. by left. Qed.
Lemma vx_key_kinds j cs :
  j ∈ tree_keys sc_mint_key vx_trees → st_accounts sc_state3 !! j ≠ Some (ClaimStatusAcc cs).
Proof. rewrite vx_keys. intros -> %list_elem_of_singleton. rewrite sc_dist_at3. discriminate. Qed.
Lemma vx_one s cs :
  st_accounts sc_state3 !! s = Some (ClaimStatusAcc cs) → cs_claimant cs = sc_alice →
  cs_distributor cs ∈ tree_keys sc_mint_key vx_trees → cs_distributor cs = sc_dist.
Proof. rewrite vx_keys. by intros _ _ ?%list_elem_of_singleton. Qed.
Lemma vx_clean :
  st_accounts sc_state3 !! claim_status_address sc_alice sc_dist = None →
  cache_get_claim_status vx_cache (pubkey_to_string sc_alice) = None.
Proof. intros _. apply lookup_empty. Qed.
Lemma vx_status_kind d :
  st_accounts sc_state3 !! claim_status_address sc_alice sc_dist ≠ Some (DistributorAcc d).
Proof. rewrite (proj1 sc_alice_at3). discriminate. Qed.

