(* ===== verification/BTree.v ===== *)
(** * Ordered maps and sorting

    [BTreeMap<String, V>] as a finite map whose iteration is in the order of the
    keys (the byte order of Rust strings), and [sort_unstable] as a sort whose
    result is determined by the order. *)
From S2P Require Import Prelude.
From stdpp Require Export sorting.
#[global] Open Scope Z_scope.

Section btree.
Context {V : Type}.
Implicit Types (m : gmap string V) (p q : string * V).

Definition key_le p q : Prop := String.le p.1 q.1.
#[global] Instance key_le_dec p q : Decision (key_le p q).
Proof. unfold key_le. apply _. Defined.
#[global] Instance key_le_total : Total key_le.
Proof. intros p q. apply String.le_total. Qed.
#[global] Instance key_le_trans : Transitive key_le.
Proof. intros p q r. unfold key_le. by etrans. Qed.

(** [into_iter] of a [BTreeMap]. *)
Definition btree_iter m : list (string * V) := merge_sort key_le (map_to_list m).

Lemma btree_iter_perm m : btree_iter m ≡ₚ map_to_list m.
Proof. apply merge_sort_Permutation. Qed.

Lemma elem_of_btree_iter m k v : (k, v) ∈ btree_iter m ↔ m !! k = Some v.
Proof. rewrite btree_iter_perm. apply elem_of_map_to_list. Qed.

Lemma StronglySorted_fmap {A B} (f : A → B) (R : relation B) (l : list A) :
  StronglySorted (λ a b, R (f a) (f b)) l → StronglySorted R (map f l).
Proof.
  induction 1 as [|a l Hl IH Ha]; simpl; constructor; [done|].
  by apply Forall_map.
Qed.

Lemma btree_iter_sorted m : StronglySorted String.le (map fst (btree_iter m)).
Proof. apply StronglySorted_fmap, (StronglySorted_merge_sort key_le). Qed.

Lemma btree_iter_nodup m : NoDup (map fst (btree_iter m)).
Proof.
  change (NoDup (fst <$> btree_iter m)). rewrite btree_iter_perm.
  apply NoDup_fst_map_to_list.
Qed.

Lemma btree_iter_keys m k : k ∈ map fst (btree_iter m) ↔ is_Some (m !! k).
Proof.
  split.
  - intros ([k' v] & -> & Hin)%list_elem_of_fmap. apply elem_of_btree_iter in Hin. by eexists.
  - intros [v Hv]. apply list_elem_of_fmap. exists (k, v). split; [done|].
    by apply elem_of_btree_iter.
Qed.
End btree.
