(* ===== verification/Aggregate.v ===== *)
(** * Aggregation of allocation files
    (src/cli/src/bin/instructions/process_aggregate_if_csvs.rs)

    The per-market allocations are grouped by mint and every claimant's amounts
    are summed.  Parsing of public keys is the parameter [PubkeyParser]. *)
From S2P Require Import BTree Prelude Machine Hashing MerkleTree TreeNode.
#[local] Open Scope Z_scope.

Record IfMarket := mkIfMarket {
  im_index : Z;
  im_symbol : string;
  im_mint : string
}.

Record MergedMint := mkMergedMint {
  mm_mint : string;
  mm_symbol : string;
  mm_index : Z;
  mm_source_markets : list Z;
  mm_entries : list CsvEntry
}.

(** The three error messages, with the values they are formatted from. *)
Inductive agg_error :=
| InvalidPubkey (index : Z) (symbol pubkey : string)
| AmountOverflow (pubkey mint : string)
| LockedAmountOverflow (pubkey mint : string).

(** A group: the representative market and the sums per claimant. *)
Abbreviation mint_group := (IfMarket * gmap string (Z * Z))%type.

Section aggregate.
Context `{PubkeyParser}.

(** The body of the loop over a market's entries. *)
Definition add_entry (market : IfMarket) (sums : gmap string (Z * Z)) (entry : CsvEntry)
  : result agg_error (gmap string (Z * Z)) :=
  _ ← ok_or (pubkey_from_str (ce_pubkey entry))
        (InvalidPubkey (im_index market) (im_symbol market) (ce_pubkey entry));
  let acc := default (0, 0) (sums !! ce_pubkey entry) in
  amount ← ok_or (checked_add_u64 acc.1 (ce_amount entry))
             (AmountOverflow (ce_pubkey entry) (im_mint market));
  locked ← ok_or (checked_add_u64 acc.2 (default 0 (ce_locked_amount entry)))
             (LockedAmountOverflow (ce_pubkey entry) (im_mint market));
  Ok (<[ce_pubkey entry := (amount, locked)]> sums).

(** The body of the loop over the markets: the group of the mint is looked up or
    created, the lowest index wins, the entries are added. *)
Definition add_market (groups : gmap string mint_group) (input : IfMarket * list CsvEntry)
  : result agg_error (gmap string mint_group) :=
  let '(market, entries) := input in
  let group := default (market, ∅) (groups !! im_mint market) in
  let rep := if im_index market <? im_index group.1 then market else group.1 in
  sums ← try_fold (add_entry market) group.2 entries;
  Ok (<[im_mint market := (rep, sums)]> groups).

Definition source_markets (mint : string) (inputs : list (IfMarket * list CsvEntry)) : list Z :=
  merge_sort Z.le
    (map (λ i, im_index i.1) (filter (λ i, im_mint i.1 = mint) inputs)).

Definition merge_group (inputs : list (IfMarket * list CsvEntry)) (g : string * mint_group)
  : MergedMint :=
  let '(mint, (rep, sums)) := g in
  mkMergedMint mint (im_symbol rep) (im_index rep) (source_markets mint inputs)
    (map (λ '(pubkey, (amount, locked)), mkCsvEntry pubkey amount (Some locked)) (btree_iter sums)).

Definition aggregate_if_entries (inputs : list (IfMarket * list CsvEntry))
  : result agg_error (list MergedMint) :=
  groups ← try_fold add_market ∅ inputs;
  Ok (map (merge_group inputs) (btree_iter groups)).

(** What [process_aggregate_if_csvs] writes for a merged mint: the label
    [<index>-<symbol>] in two parts and the records of the CSV file. *)
Definition merged_label (m : MergedMint) : Z * string := (mm_index m, mm_symbol m).
Definition merged_records (m : MergedMint) : list (string * Z * Z) :=
  map (λ e, (ce_pubkey e, ce_amount e, default 0 (ce_locked_amount e))) (mm_entries m).

(** ** Specification *)
Definition valid_key (e : CsvEntry) : Prop := is_Some (pubkey_from_str (ce_pubkey e)).

(** All rows for a mint, and what they give to a claimant. *)
Definition rows_of (mint : string) (inputs : list (IfMarket * list CsvEntry)) : list CsvEntry :=
  concat (map snd (filter (λ i, im_mint i.1 = mint) inputs)).
Definition amount_of (pk : string) (rows : list CsvEntry) : Z :=
  sum_list (λ e, if bool_decide (ce_pubkey e = pk) then ce_amount e else 0) rows.
Definition locked_of (pk : string) (rows : list CsvEntry) : Z :=
  sum_list (λ e, if bool_decide (ce_pubkey e = pk) then default 0 (ce_locked_amount e) else 0) rows.

(** The market that names a group: one of the mint with the lowest index. *)
Definition represents (rep : IfMarket) (mint : string) (inputs : list (IfMarket * list CsvEntry))
  : Prop :=
  im_mint rep = mint ∧ rep ∈ map fst inputs ∧
  ∀ m, m ∈ map fst inputs → im_mint m = mint → im_index rep ≤ im_index m.

(** ** Sums of one mint *)
Definition sums_ok (sums : gmap string (Z * Z)) (rows : list CsvEntry) : Prop :=
  ∀ pk, match sums !! pk with
        | None => pk ∉ map ce_pubkey rows
        | Some (a, b) => pk ∈ map ce_pubkey rows ∧ a = amount_of pk rows ∧ b = locked_of pk rows ∧
                         a ≤ U64_MAX ∧ b ≤ U64_MAX
        end.

Lemma amount_of_snoc pk rows e :
  amount_of pk (rows ++ [e]) = amount_of pk rows + if bool_decide (ce_pubkey e = pk) then ce_amount e else 0.
Proof. unfold amount_of. rewrite sum_list_app. simpl. lia. Qed.
Lemma locked_of_snoc pk rows e :
  locked_of pk (rows ++ [e]) =
  locked_of pk rows + if bool_decide (ce_pubkey e = pk) then default 0 (ce_locked_amount e) else 0.
Proof. unfold locked_of. rewrite sum_list_app. simpl. lia. Qed.

Lemma amount_of_app_le pk rows rows' :
  Forall csv_entry_wf rows' → amount_of pk rows ≤ amount_of pk (rows ++ rows') ∧
  locked_of pk rows ≤ locked_of pk (rows ++ rows').
Proof.
  intros Hok. unfold amount_of, locked_of. rewrite !sum_list_app.
  assert (∀ f : CsvEntry → Z, (∀ e, csv_entry_wf e → 0 ≤ f e) → 0 ≤ sum_list f rows') as Hs.
  { intros f Hf. apply sum_list_nonneg. intros e He. by eapply Hf, Forall_forall. }
  split; (rewrite <- Z.add_0_r at 1; apply Z.add_le_mono_l, Hs;
    intros e [? ?]; case_bool_decide; zlia).
Qed.

Lemma not_in_zero pk rows :
  pk ∉ map ce_pubkey rows → amount_of pk rows = 0 ∧ locked_of pk rows = 0.
Proof.
  unfold amount_of, locked_of. induction rows as [|e rows IH]; simpl; [done|].
  rewrite not_elem_of_cons. intros [Hne Hin]. destruct (IH Hin) as [-> ->].
  by rewrite bool_decide_eq_false_2 by congruence.
Qed.

(** An overflow, or an unreadable key, somewhere in [rows]. *)
Definition bad_rows (rows : list CsvEntry) : Prop :=
  (∃ e, e ∈ rows ∧ ¬ valid_key e) ∨
  ∃ pk, U64_MAX < amount_of pk rows ∨ U64_MAX < locked_of pk rows.

Lemma bad_rows_app rows rows' : Forall csv_entry_wf rows' → bad_rows rows → bad_rows (rows ++ rows').
Proof.
  intros Hok [(e & He & Hv)|(pk & Hpk)]; [left; exists e; set_solver|].
  right. exists pk. destruct (amount_of_app_le pk rows rows' Hok). lia.
Qed.

Lemma add_entry_spec market sums rows e :
  csv_entry_wf e → sums_ok sums rows →
  match add_entry market sums e with
  | Ok sums' => sums_ok sums' (rows ++ [e]) ∧ valid_key e
  | Err _ => bad_rows (rows ++ [e])
  end.
Proof.
  intros Hok Hs. unfold add_entry.
  destruct (pubkey_from_str (ce_pubkey e)) as [k|] eqn:Hk; cbn [ok_or mbind result_bind].
  2: { left. exists e. split; [set_solver|]. unfold valid_key. rewrite Hk. by intros []. }
  assert (default (0, 0) (sums !! ce_pubkey e) =
    (amount_of (ce_pubkey e) rows, locked_of (ce_pubkey e) rows)) as ->.
  { specialize (Hs (ce_pubkey e)). destruct (sums !! ce_pubkey e) as [[a b]|]; simpl.
    - by destruct Hs as (_ & -> & -> & _).
    - by destruct (not_in_zero _ _ Hs) as [-> ->]. }
  pose proof (amount_of_snoc (ce_pubkey e) rows e) as Ha.
  pose proof (locked_of_snoc (ce_pubkey e) rows e) as Hl.
  rewrite bool_decide_eq_true_2 in Ha, Hl by done. cbn [fst snd]. unfold checked_add_u64.
  destruct (Z.leb_spec (amount_of (ce_pubkey e) rows + ce_amount e) U64_MAX);
    cbn [ok_or mbind result_bind]; [|right; exists (ce_pubkey e); lia].
  destruct (Z.leb_spec (locked_of (ce_pubkey e) rows + default 0 (ce_locked_amount e)) U64_MAX);
    cbn [ok_or mbind result_bind]; [|right; exists (ce_pubkey e); lia].
  split; [|by eexists].
  intros pk. destruct (decide (ce_pubkey e = pk)) as [<- |Hne].
  - rewrite lookup_insert_eq. split_and!; [rewrite map_app; set_solver|lia..].
  - rewrite lookup_insert_ne by done. specialize (Hs pk).
    rewrite map_app, amount_of_snoc, locked_of_snoc, bool_decide_eq_false_2, !Z.add_0_r by done.
    destruct (sums !! pk) as [[a b]|]; set_solver.
Qed.

Lemma add_entries_spec market entries sums rows :
  Forall csv_entry_wf entries → sums_ok sums rows →
  match try_fold (add_entry market) sums entries with
  | Ok sums' => sums_ok sums' (rows ++ entries) ∧ Forall valid_key entries
  | Err _ => bad_rows (rows ++ entries)
  end.
Proof.
  intros Hok. revert sums rows. induction Hok as [|e entries He Hes IH]; intros sums rows Hs; simpl.
  { rewrite app_nil_r. auto. }
  pose proof (add_entry_spec market sums rows e He Hs) as Hadd.
  rewrite (cons_middle e rows entries). rewrite (assoc_L (++)).
  destruct (add_entry market sums e) as [sums1|err]; cbn [mbind result_bind].
  - destruct Hadd as (Hs1 & Hv). specialize (IH sums1 _ Hs1).
    destruct (try_fold _ sums1 entries); [|done]. destruct IH. auto.
  - by apply bad_rows_app.
Qed.

(** ** Groups *)
Definition groups_ok (groups : gmap string mint_group) (inputs : list (IfMarket * list CsvEntry))
  : Prop :=
  ∀ mint, match groups !! mint with
          | None => mint ∉ map (λ i, im_mint i.1) inputs
          | Some (rep, sums) => represents rep mint inputs ∧ sums_ok sums (rows_of mint inputs)
          end.

Lemma rows_of_snoc mint inputs market entries :
  rows_of mint (inputs ++ [(market, entries)]) =
  rows_of mint inputs ++ if bool_decide (im_mint market = mint) then entries else [].
Proof.
  unfold rows_of. rewrite filter_app, map_app, concat_app. f_equal.
  rewrite filter_cons, filter_nil. simpl. case_bool_decide; case_decide; try done.
  simpl. by rewrite app_nil_r.
Qed.

Lemma rows_of_none mint inputs : mint ∉ map (λ i, im_mint i.1) inputs → rows_of mint inputs = [].
Proof.
  induction inputs as [|[m es] inputs IH] using rev_ind; [done|].
  rewrite rows_of_snoc, map_app, not_elem_of_app. simpl. intros [Hi Hm].
  rewrite IH by done. rewrite bool_decide_eq_false_2 by set_solver. done.
Qed.

Lemma represents_snoc_other rep mint inputs market entries :
  im_mint market ≠ mint → represents rep mint inputs →
  represents rep mint (inputs ++ [(market, entries)]).
Proof.
  intros Hne (Hm & Hin & Hmin). unfold represents. rewrite map_app. split_and!; [done|set_solver|].
  intros m [Hi|Hi]%elem_of_app Hmm; [auto|]. simpl in Hi. set_solver.
Qed.

(** The representative after a market of the same mint. *)
Lemma represents_snoc_same o inputs market entries :
  match o with
  | Some rep => represents rep (im_mint market) inputs
  | None => im_mint market ∉ map (λ i, im_mint i.1) inputs
  end →
  represents (let rep := default market o in
              if im_index market <? im_index rep then market else rep)
    (im_mint market) (inputs ++ [(market, entries)]).
Proof.
  intros Ho. unfold represents. rewrite map_app. simpl. destruct o as [rep|]; simpl.
  - destruct Ho as (Hm & Hin & Hmin). destruct (Z.ltb_spec (im_index market) (im_index rep));
      (split_and!; [done|set_solver|]; intros m [Hi|Hi]%elem_of_app Hmm;
       [specialize (Hmin m Hi Hmm); lia|apply list_elem_of_singleton in Hi as ->; lia]).
  - rewrite Z.ltb_irrefl. split_and!; [done|set_solver|].
    intros m [Hi|Hi]%elem_of_app Hmm; [|apply list_elem_of_singleton in Hi as ->; lia].
    exfalso. apply Ho. rewrite <- Hmm. apply list_elem_of_fmap in Hi as (i & -> & Hi).
    by apply (list_elem_of_fmap_2 (λ i, im_mint i.1)).
Qed.

Definition bad_inputs (inputs : list (IfMarket * list CsvEntry)) : Prop :=
  ∃ mint, bad_rows (rows_of mint inputs).

Definition inputs_ok (inputs : list (IfMarket * list CsvEntry)) : Prop :=
  Forall (λ i, Forall csv_entry_wf i.2) inputs.

Lemma bad_inputs_snoc inputs i :
  Forall csv_entry_wf i.2 → bad_inputs inputs → bad_inputs (inputs ++ [i]).
Proof.
  destruct i as [market entries]. intros Hok [mint Hb]. exists mint. rewrite rows_of_snoc.
  apply bad_rows_app; [case_bool_decide; [done|constructor]|done].
Qed.

Lemma add_market_spec groups inputs market entries :
  Forall csv_entry_wf entries → groups_ok groups inputs →
  match add_market groups (market, entries) with
  | Ok groups' => groups_ok groups' (inputs ++ [(market, entries)]) ∧ Forall valid_key entries
  | Err _ => bad_inputs (inputs ++ [(market, entries)])
  end.
Proof.
  intros Hok Hg. unfold add_market. pose proof (Hg (im_mint market)) as Hm.
  set (o := groups !! im_mint market) in *.
  assert (sums_ok (default (market, ∅) o).2 (rows_of (im_mint market) inputs)) as Hs.
  { destruct o as [[rep sums]|]; simpl; [apply Hm|]. rewrite rows_of_none by done.
    intros pk. rewrite lookup_empty. set_solver. }
  assert (represents (if im_index market <? im_index (default (market, ∅) o).1 then market
                      else (default (market, ∅) o).1)
    (im_mint market) (inputs ++ [(market, entries)])) as Hr.
  { pose proof (represents_snoc_same (fst <$> o) inputs market entries) as Hr.
    destruct o as [[rep sums]|]; apply Hr; [apply Hm|exact Hm]. }
  pose proof (add_entries_spec market entries _ _ Hok Hs) as Ha.
  destruct (try_fold _ _ entries) as [sums'|err]; cbn [mbind result_bind].
  - destruct Ha as [Hs' Hv]. split; [|done]. intros mint.
    destruct (decide (im_mint market = mint)) as [<- |Hne].
    + rewrite lookup_insert_eq, rows_of_snoc, bool_decide_eq_true_2 by done. done.
    + rewrite lookup_insert_ne, rows_of_snoc, bool_decide_eq_false_2, app_nil_r by done.
      pose proof (Hg mint) as Hgm. cbn beta in Hgm. destruct (groups !! mint) as [[rep sums]|].
      * destruct Hgm as [? ?]. split; [by apply represents_snoc_other|done].
      * rewrite map_app. set_solver.
  - exists (im_mint market). rewrite rows_of_snoc, bool_decide_eq_true_2 by done. done.
Qed.

Lemma add_markets_spec inputs :
  inputs_ok inputs →
  match try_fold add_market ∅ inputs with
  | Ok groups => groups_ok groups inputs ∧ Forall (λ i, Forall valid_key i.2) inputs
  | Err _ => bad_inputs inputs
  end.
Proof.
  induction inputs as [|[market entries] inputs IH] using rev_ind; intros Hok; simpl.
  { split; [|constructor]. intros mint. rewrite lookup_empty. set_solver. }
  apply Forall_app in Hok as [Hok Hi]. apply Forall_cons in Hi as [Hi _]. specialize (IH Hok).
  rewrite try_fold_app. destruct (try_fold add_market ∅ inputs) as [groups|err];
    [|by apply bad_inputs_snoc]. destruct IH as [Hg Hv]. cbn [mbind result_bind try_fold].
  pose proof (add_market_spec groups inputs market entries Hi Hg) as Ha.
  destruct (add_market groups (market, entries)); cbn [mbind result_bind]; [|done].
  destruct Ha as [Hg' Hv']. split; [done|]. apply Forall_app. auto.
Qed.

(** ** The merged mints *)
Record merged_ok (inputs : list (IfMarket * list CsvEntry)) (m : MergedMint) : Prop := {
  mg_rep : ∃ rep, represents rep (mm_mint m) inputs ∧
    mm_symbol m = im_symbol rep ∧ mm_index m = im_index rep;
  mg_sources : StronglySorted Z.le (mm_source_markets m) ∧
    mm_source_markets m
      ≡ₚ map (λ i, im_index i.1) (filter (λ i, im_mint i.1 = mm_mint m) inputs);
  mg_order : StronglySorted String.le (map ce_pubkey (mm_entries m)) ∧
    NoDup (map ce_pubkey (mm_entries m));
  mg_claimants pk : pk ∈ map ce_pubkey (mm_entries m) ↔
    pk ∈ map ce_pubkey (rows_of (mm_mint m) inputs);
  mg_amounts e : e ∈ mm_entries m →
    ce_amount e = amount_of (ce_pubkey e) (rows_of (mm_mint m) inputs) ∧
    ce_locked_amount e = Some (locked_of (ce_pubkey e) (rows_of (mm_mint m) inputs)) ∧
    ce_amount e ≤ U64_MAX ∧ default 0 (ce_locked_amount e) ≤ U64_MAX
}.

Lemma merged_entries_keys (sums : gmap string (Z * Z)) :
  map ce_pubkey (map (λ '(pubkey, (amount, locked)), mkCsvEntry pubkey amount (Some locked))
                     (btree_iter sums))
  = map fst (btree_iter sums).
Proof. rewrite map_map. apply map_ext. by intros [pk [a b]]. Qed.

Lemma merge_group_ok inputs mint rep sums :
  represents rep mint inputs → sums_ok sums (rows_of mint inputs) →
  merged_ok inputs (merge_group inputs (mint, (rep, sums))).
Proof.
  intros Hrep Hs. split; cbn [merge_group mm_mint mm_symbol mm_index mm_source_markets mm_entries];
    rewrite ?merged_entries_keys.
  - by exists rep.
  - split; [apply (StronglySorted_merge_sort Z.le)|apply merge_sort_Permutation].
  - split; [apply btree_iter_sorted|apply btree_iter_nodup].
  - intros pk. rewrite btree_iter_keys. specialize (Hs pk).
    destruct (sums !! pk) as [[a b]|]; split; try done; try (by intros []); intros _; apply Hs.
  - intros e ([pk [a b]] & -> & Hin)%list_elem_of_fmap. apply elem_of_btree_iter in Hin.
    specialize (Hs pk). rewrite Hin in Hs. destruct Hs as (_ & -> & -> & ? & ?). done.
Qed.

Lemma groups_not_bad groups inputs :
  groups_ok groups inputs → Forall (λ i, Forall valid_key i.2) inputs → ¬ bad_inputs inputs.
Proof.
  intros Hg Hv [mint [(e & He & Hbad)|(pk & Hbad)]].
  - apply Hbad. unfold rows_of in He. apply list_elem_of_In, in_concat in He as (es & Hes & He).
    apply in_map_iff in Hes as (i & <- & Hi%list_elem_of_In). apply list_elem_of_filter in Hi as [_ Hi].
    eapply Forall_forall in Hv; [|exact Hi]. eapply Forall_forall in Hv; [done|].
    by apply list_elem_of_In.
  - pose proof (Hg mint) as Hm. cbn beta in Hm. destruct (groups !! mint) as [[rep sums]|].
    + destruct Hm as [_ Hs]. specialize (Hs pk). destruct (sums !! pk) as [[a b]|].
      * destruct Hs as (_ & -> & -> & ? & ?). lia.
      * destruct (not_in_zero _ _ Hs) as [E1 E2]. rewrite E1, E2 in Hbad. zlia.
    + rewrite (rows_of_none _ _ Hm) in Hbad. simpl in Hbad. zlia.
Qed.

Lemma aggregate_spec inputs :
  inputs_ok inputs →
  match aggregate_if_entries inputs with
  | Ok merged =>
      ¬ bad_inputs inputs ∧
      StronglySorted String.le (map mm_mint merged) ∧ NoDup (map mm_mint merged) ∧
      (∀ mint, mint ∈ map mm_mint merged ↔ mint ∈ map (λ i, im_mint i.1) inputs) ∧
      Forall (merged_ok inputs) merged
  | Err _ => bad_inputs inputs
  end.
Proof.
  intros Hok. unfold aggregate_if_entries. pose proof (add_markets_spec inputs Hok) as Hs.
  destruct (try_fold add_market ∅ inputs) as [groups|err]; cbn [mbind result_bind]; [|done].
  destruct Hs as [Hg Hv].
  assert (map mm_mint (map (merge_group inputs) (btree_iter groups)) = map fst (btree_iter groups))
    as Hkeys by (rewrite map_map; apply map_ext; by intros [mint [rep sums]]).
  rewrite Hkeys. split_and!.
  - by eapply groups_not_bad.
  - apply btree_iter_sorted.
  - apply btree_iter_nodup.
  - intros mint. rewrite btree_iter_keys. pose proof (Hg mint) as Hm. cbn beta in Hm.
    destruct (groups !! mint) as [[rep sums]|]; split; try done; try (by intros []).
    intros _. destruct Hm as [(<- & Hin & _) _]. apply list_elem_of_fmap in Hin as (i & -> & Hi).
    by apply (list_elem_of_fmap_2 (λ i, im_mint i.1)).
  - apply Forall_map, Forall_forall. intros [mint [rep sums]] Hin%elem_of_btree_iter.
    pose proof (Hg mint) as Hm. cbn beta in Hm. rewrite Hin in Hm. destruct Hm.
    by apply merge_group_ok.
Qed.

(** C31. Aggregation loses and invents nothing.  It succeeds exactly when every
    key is readable and every claimant's sums per mint fit [u64]; then the output
    has one group per mint of the inputs, in the order of the mints, named after
    a market of lowest index with all source markets listed in order, and in
    each group one row per claimant of that mint, in the order of the keys, with
    the claimant's unlocked and locked amounts summed over all markets of the
    mint. *)
Theorem aggregate_is_exact inputs :
  inputs_ok inputs →
  match aggregate_if_entries inputs with
  | Ok merged =>
      ¬ bad_inputs inputs ∧
      StronglySorted String.le (map mm_mint merged) ∧ NoDup (map mm_mint merged) ∧
      (∀ mint, mint ∈ map mm_mint merged ↔ mint ∈ map (λ i, im_mint i.1) inputs) ∧
      Forall (merged_ok inputs) merged
  | Err _ => bad_inputs inputs
  end.
Proof. apply aggregate_spec. Qed.
End aggregate.

(** ** The module's unit tests, and the witness *)
Definition any_key : PubkeyParser := λ s, if decide (s = "not-a-key"%string) then None else Some (key 0).
#[local] Existing Instance any_key.

Definition test_market (index : Z) (symbol mint : string) : IfMarket := mkIfMarket index symbol mint.
Definition test_entry (pk : string) (amount locked : Z) : CsvEntry := mkCsvEntry pk amount (Some locked).

Example sums_amount_and_locked_across_same_mint_markets :
  aggregate_if_entries [(test_market 0 "USDC" "M", [test_entry "A" 100 5]);
                        (test_market 10 "USDC" "M", [test_entry "A" 250 7])]
  = Ok [mkMergedMint "M" "USDC" 0 [0; 10] [test_entry "A" 350 12]].
Proof. vm_compute. reflexivity. Qed.

Example output_is_sorted_by_pubkey_and_deduped :
  aggregate_if_entries
    [(test_market 0 "USDC" "M", [test_entry "B" 1 0; test_entry "A" 2 0; test_entry "A" 3 0])]
  = Ok [mkMergedMint "M" "USDC" 0 [0] [test_entry "A" 5 0; test_entry "B" 1 0]].
Proof. vm_compute. reflexivity. Qed.

Example rejects_invalid_pubkey :
  aggregate_if_entries [(test_market 0 "USDC" "M", [test_entry "not-a-key" 1 0])]
  = Err (InvalidPubkey 0 "USDC" "not-a-key").
Proof. vm_compute. reflexivity. Qed.

Example errors_on_amount_overflow :
  aggregate_if_entries [(test_market 0 "USDC" "M", [test_entry "A" U64_MAX 0]);
                        (test_market 10 "USDC" "M", [test_entry "A" 1 0])]
  = Err (AmountOverflow "A" "M").
Proof. vm_compute. reflexivity. Qed.

Definition ex_inputs : list (IfMarket * list CsvEntry) :=
  [(test_market 3 "x" "N", [test_entry "B" 4 1]);
   (test_market 1 "y" "M", [test_entry "B" 2 0; test_entry "A" 3 0]);
   (test_market 2 "z" "N", [test_entry "B" 5 2])].

Lemma ex_inputs_ok : inputs_ok ex_inputs.
Proof. repeat constructor; simpl; zlia. Qed.

Lemma aggregate_is_exact_witness :
  ∃ merged, aggregate_if_entries ex_inputs = Ok merged ∧
    map mm_mint merged = ["M"; "N"]%string ∧ Forall (merged_ok ex_inputs) merged.
Proof.
  pose proof (aggregate_is_exact ex_inputs ex_inputs_ok) as H.
  destruct (aggregate_if_entries ex_inputs) as [merged|] eqn:E; [|vm_compute in E; discriminate E].
  exists merged. split; [reflexivity|]. split; [vm_compute in E; injection E as <-; reflexivity|].
  exact (proj2 (proj2 (proj2 (proj2 H)))).
Defined.
