(* ===== verification/Sharding.v ===== *)
(** * Creating the trees of an airdrop
    (src/cli/src/bin/instructions: process_create_merkle_tree.rs,
    process_find_airdrop_version.rs, process_generate_kv_proof.rs,
    process_create_test_list.rs; lists of src/cli/src/bin/cli.rs)

    The search for a free version, the split of the entries into trees, and the
    export of the proofs in files.  The functions take the parsed rows and
    return what is written; the files themselves are in [Files] and [Tool]. *)
From S2P Require Import Prelude Machine Hashing MerkleTree MerkleProof TreeNode Airdrop.
From S2P Require Import ProgramError ClaimStatus Solana Token State Api.

(** ** The search for a free version *)

(** The answer of [get_account_data]. *)
Inductive account_probe := AccountExists | AccountNotFound | ProbeError.

Definition MAX_VERSION : Z := 1000000000000000000.

Section versions.
Context (probe : Z → account_probe).

(** [while current_version < 1000000000000000000]. *)
Fixpoint find_version_loop (fuel : nat) (current_version : Z) : result loop_error (option Z) :=
  match fuel with
  | O => Err OutOfFuel
  | S fuel =>
      if current_version <? MAX_VERSION then
        match probe current_version with
        | AccountNotFound => Ok (Some current_version)
        | AccountExists | ProbeError => find_version_loop fuel (current_version + 1)
        end
      else Ok None
  end.

(** The first version at or above [v] that is free, and the answers before it. *)
Definition first_free (start v : Z) : Prop :=
  start ≤ v < MAX_VERSION ∧ probe v = AccountNotFound ∧
  ∀ w, start ≤ w < v → probe w ≠ AccountNotFound.

Lemma find_version_found fuel start v :
  first_free start v → (Z.to_nat (v - start) < fuel)%nat →
  find_version_loop fuel start = Ok (Some v).
Proof.
  revert start. induction fuel as [|fuel IH]; intros start (Hv & Hfree & Hbefore) Hfuel; [lia|].
  simpl. rewrite (proj2 (Z.ltb_lt _ _)) by lia.
  destruct (decide (start = v)) as [-> |Hne]; [by rewrite Hfree|].
  destruct (probe start) eqn:Hp.
  2: { by destruct (Hbefore start ltac:(lia)). }
  all: apply IH; [split_and!; [lia|lia|done|intros w Hw; apply Hbefore; lia]|lia].
Qed.

Lemma find_version_sound fuel start v :
  find_version_loop fuel start = Ok (Some v) → first_free start v.
Proof.
  revert start. induction fuel as [|fuel IH]; intros start; simpl; [done|].
  destruct (Z.ltb_spec start MAX_VERSION); [|done]. destruct (probe start) eqn:Hp.
  2: { intros [= <-]. split_and!; [lia|lia|done|lia]. }
  all: intros (? & ? & Hb)%IH; split_and!; [lia|lia|done|];
    intros w Hw; destruct (decide (w = start)) as [-> |]; [congruence|apply Hb; lia].
Qed.

Lemma find_version_terminates fuel start :
  (Z.to_nat (MAX_VERSION - start) < fuel)%nat → ∃ o, find_version_loop fuel start = Ok o.
Proof.
  revert start. induction fuel as [|fuel IH]; intros start Hf; [lia|]. simpl.
  destruct (Z.ltb_spec start MAX_VERSION); [|eauto].
  destruct (probe start); eauto; apply IH; lia.
Qed.

(** [process_find_airdrop_version]: from the given version or 0. *)
Definition process_find_airdrop_version (fuel : nat) (start_airdrop_version : option Z)
  : result loop_error (option Z) :=
  find_version_loop fuel (default 0 start_airdrop_version).
End versions.

(** ** Lists of the tool *)
Definition get_test_list : list string :=
  ["4zvTjdpyr3SAgLeSpCnq4KaHvX2j5SbkwxYydzbfqhRQ";
   "GMtwcuktJfrRcnyGktWW4Vab8cfjPcBy3xbuZgRegw6E";
   "6HQeT87Qgh8TkZPJVcbkZh8bQ3gW2st7ZJin8xEkvdWh"]%string.

Definition get_pre_list : list string :=
  ["4FED9aSQhGfX43FrSUa6GgmNjBsy76GTe9UHig7r2nK6"; "6PAG5Le18uDrwkWWyuMFF3N3G74ksShVbUR5L7uDJtFR";
   "HZ1g3FXyvDt4pC1p7mUFnA44UtPkXghGJUtoxw5TDi42"; "7gcjNCwGKhFsfDgHwH6Ja4pM2xBJj47hJpexxMFDyBpM";
   "8LWr1b9bXN7vRAgSL1Gg8U36ZB7oHGDupRQYVcw4FiQ9"; "9qkVBGAgPzixW8Fky7sTjAoAv6ZAZEymVGvmYvqVwFmR";
   "FtfVWjnft13vKCGHGj6QaZcHWP8GcvJKanXQY3JL3zd3"; "6gS27oW41tRD4GHW5QXe3vQN9SkC7TyFFQmtuRtJRT9Q";
   "dRiaT3YueNdfkhRBkLnzE6TDf4b35uESgL3Boopzxj6"; "DRiL3JgMc8Hdxv6TBkxDcan9qEm2JoBhFiWViQxupPo";
   "DriQrk2v2HsLigaqH2qJtpCQ3MrNLGvq8GTB6jtXC2F"; "DriEp7U5awPuc6p4ZM8gFWWxS79Go7VQstkKaMiGwJb";
   "DriM2HACfSFeh5tHum2aRgfgFeRGy72qpbc4UsMkvLm"]%string.

(** ** The split into trees *)
Record CreateMerkleTreeArgs := mkCreateMerkleTreeArgs {
  cm_max_nodes_per_tree : nat;
  cm_should_include_test_list : bool;
  cm_amount : Z;
  cm_decimals : Z;
  cm_csv_amount_unit : CsvAmountUnit;
  cm_start_airdrop_version : option Z
}.

(** The version of the first tree.  Nothing is searched without a mint, and the
    version stays 0 when the search ends without a free one. *)
Definition start_version (fuel : nat) (probe : Z → account_probe) (mint : Pubkey)
    (args : CreateMerkleTreeArgs) : result loop_error Z :=
  match cm_start_airdrop_version args with
  | Some version => Ok version
  | None =>
      if bool_decide (mint = key 0) then Ok 0
      else found ← find_version_loop probe fuel 0; Ok (default 0 found)
  end.

(** Test wallets are taken out of the entries when they get a tree of their own. *)
Definition without_test_list (args : CreateMerkleTreeArgs) (csv_entries : list CsvEntry)
  : list CsvEntry :=
  if cm_should_include_test_list args
  then filter (λ e, ce_pubkey e ∉ get_test_list) csv_entries
  else csv_entries.

Definition test_list_entries (args : CreateMerkleTreeArgs) : list CsvEntry :=
  map (λ x, mkCsvEntry x (cm_amount args) (Some 0)) get_test_list.

(** [unwrap_or_else(|e| panic!(..))]. *)
Definition unwrap_tree {A : Type} (r : result tree_error A) : result tree_error A :=
  match r with
  | Ok a => Ok a
  | Err TreeFuel => Err TreeFuel
  | Err _ => Err TreePanic
  end.

Section sharding.
Context `{Hasher} `{PubkeyParser}.
Context (args : CreateMerkleTreeArgs).

Definition make_tree (entries : list CsvEntry) (version : Z) : result tree_error AirdropMerkleTree :=
  unwrap_tree (new_from_entries entries version (cm_decimals args) (cm_csv_amount_unit args)).

(** [airdrop_version += 1] under [overflow-checks]. *)
Definition next_version (v : Z) : result tree_error Z := ok_or (checked_add_u64 v 1) TreePanic.

(** [while csv_entries.len() > 0]: the trees written and the version after them. *)
Fixpoint shard_loop (fuel : nat) (csv_entries : list CsvEntry) (airdrop_version : Z)
  : result tree_error (list AirdropMerkleTree * Z) :=
  match csv_entries with
  | [] => Ok ([], airdrop_version)
  | _ =>
      match fuel with
      | O => Err TreeFuel
      | S fuel =>
          let last_index := Nat.min (cm_max_nodes_per_tree args) (length csv_entries) in
          let sub_tree := take last_index csv_entries in
          let rest := drop last_index csv_entries in
          merkle_tree ← make_tree sub_tree airdrop_version;
          v ← next_version airdrop_version;
          '(trees, last) ← shard_loop fuel rest v;
          Ok (merkle_tree :: trees, last)
      end
  end.

(** The trees of all entries, then the tree of the test wallets; the last line
    printed is [airdrop_version - 1]. *)
Definition create_merkle_trees (fuel : nat) (csv_entries : list CsvEntry) (start : Z)
  : result tree_error (list AirdropMerkleTree * Z) :=
  '(trees, v) ← shard_loop fuel (without_test_list args csv_entries) start;
  '(trees, v) ←
    (if cm_should_include_test_list args then
       t ← make_tree (test_list_entries args) v;
       v' ← next_version v;
       Ok (trees ++ [t], v')
     else Ok (trees, v));
  last ← ok_or (checked_sub_u64 v 1) TreePanic;
  Ok (trees, last).
End sharding.

(** [process_create_test_list]: the rows it writes and the arguments it passes on. *)
Definition test_list_rows (amount : Z) : list CsvEntry :=
  map (λ addr, mkCsvEntry addr amount None) get_pre_list.
Definition test_list_args (amount decimals : Z) : CreateMerkleTreeArgs :=
  mkCreateMerkleTreeArgs (Z.to_nat amount) false amount decimals Tokens None.

(** ** Export of the proofs *)
Record KvProof := mkKvProof {
  kv_merkle_tree : string;
  kv_amount : Z;
  kv_locked_amount : option Z;
  kv_proof : list Hash
}.

Section kv.
Context `{PubkeyText} `{AddressDerivation}.
Context (program_id mint : Pubkey) (max_entries_per_file : Z).

(** The files written so far (file index is the position) and the open map. *)
Definition kv_state : Type := list (gmap string KvProof) * gmap string KvProof.

Definition kv_insert (distributor_pubkey : Pubkey) (st : kv_state) (node : TreeNode)
  : result tree_error kv_state :=
  proof ← ok_or (tn_proof node) TreePanic;
  let proofs := <[pubkey_to_string (tn_claimant node) :=
                    mkKvProof (pubkey_to_string distributor_pubkey) (tn_amount node)
                      (tn_locked_amount node) proof]> st.2 in
  if max_entries_per_file <=? Z.of_nat (size proofs)
  then Ok (st.1 ++ [proofs], ∅)
  else Ok (st.1, proofs).

Definition kv_tree (st : kv_state) (tree : AirdropMerkleTree) : result tree_error kv_state :=
  try_fold (kv_insert (get_merkle_distributor_pda program_id mint (at_airdrop_version tree)).1) st
    (at_tree_nodes tree).

(** The contents of the files, in the order of their index. *)
Definition process_generate_kv_proof (trees : list AirdropMerkleTree)
  : result tree_error (list (gmap string KvProof)) :=
  '(files, proofs) ← try_fold kv_tree ([], ∅) trees;
  Ok (if (0 <? size proofs)%nat then files ++ [proofs] else files).
End kv.
