(* ===== verification/ShardingTheorems.v ===== *)
(** * The trees cover the airdrop

    The split of the entries terminates, loses nothing and numbers the trees
    consecutively; the exported proof files hold every node. *)
From S2P Require Import Prelude Machine Hashing MerkleTree MerkleProof TreeNode Airdrop.
From S2P Require Import ProgramError ClaimStatus Solana Token State Api Sharding Sha256.

Lemma try_map_Err {E A B} (f : A → result E B) l e :
  try_map f l = Err e → ∃ a, a ∈ l ∧ f a = Err e.
Proof.
  induction l as [|a l IH]; simpl; [done|]. destruct (f a) as [b|e'] eqn:Ha; simpl.
  - destruct (try_map f l); simpl; [done|]. intros [= ->].
    destruct (IH eq_refl) as (x & ? & ?). exists x. set_solver.
  - intros [= ->]. exists a. set_solver.
Qed.

Lemma csv_amount_no_fuel a d u : csv_amount_to_base_units a d u ≠ Err TreeFuel.
Proof.
  unfold csv_amount_to_base_units. destruct u; [|destruct (d <? 2); [done|]];
    destruct (checked_pow_u64 10 _); simpl; [|done| |done]; by destruct (checked_mul_u64 _ _).
Qed.

Section sharding_theorems.
Context `{Hasher} `{PubkeyParser}.
Context (args : CreateMerkleTreeArgs).
Context (Hdec : 0 ≤ cm_decimals args) (Hamount : is_u64 (cm_amount args)).
Context (Hmax : Z.of_nat (cm_max_nodes_per_tree args) ≤ 2 ^ 32 - 1).

(** The rows of a chunk converted, and the tree built from them. *)
Definition tree_for (chunk : list CsvEntry) (tree : AirdropMerkleTree) : Prop :=
  ∃ rows, Forall2 (λ e n, TreeNode_from_csv e (cm_decimals args) (cm_csv_amount_unit args) = Ok n)
            chunk rows ∧
    airdrop_ok rows (at_airdrop_version tree) tree.

Lemma TreeNode_from_csv_no_fuel e d u : TreeNode_from_csv e d u ≠ Err TreeFuel.
Proof.
  unfold TreeNode_from_csv. destruct (csv_amount_to_base_units (ce_amount e) d u) as [a|err] eqn:Ea.
  2: { simpl. intros [= ->]. by apply csv_amount_no_fuel in Ea. }
  simpl. destruct (ce_locked_amount e) as [l|]; simpl; [|by destruct (pubkey_from_str _)].
  destruct (csv_amount_to_base_units l d u) as [v|err] eqn:El.
  - simpl. by destruct (pubkey_from_str _).
  - simpl. intros [= ->]. by apply csv_amount_no_fuel in El.
Qed.

Lemma converted_wf chunk rows :
  Forall csv_entry_wf chunk →
  Forall2 (λ e n, TreeNode_from_csv e (cm_decimals args) (cm_csv_amount_unit args) = Ok n)
    chunk rows →
  Forall node_wf rows ∧
  Forall2 (λ e n, pubkey_from_str (ce_pubkey e) = Some (tn_claimant n)) chunk rows.
Proof.
  intros Hwf Hrows. induction Hrows as [|e n chunk rows Hn _ IH]; [split; constructor|].
  apply Forall_cons in Hwf as [He Hwf]. destruct (IH Hwf).
  apply TreeNode_from_csv_Ok in Hn as [? ?]; [|done..]. split; constructor; done.
Qed.

Lemma make_tree_spec chunk v :
  Forall csv_entry_wf chunk → Z.of_nat (length chunk) ≤ 2 ^ 32 - 1 →
  match make_tree args chunk v with
  | Ok t => chunk ≠ [] ∧ tree_for chunk t ∧ at_airdrop_version t = v
  | Err e => e = TreePanic
  end.
Proof.
  intros Hwf Hlen. unfold make_tree, new_from_entries.
  destruct (try_map _ chunk) as [rows|e] eqn:Hrows; cbn [mbind result_bind].
  - apply try_map_Forall2 in Hrows. destruct (converted_wf chunk rows Hwf Hrows) as [Hn _].
    assert (length rows = length chunk) as Hl by (by eapply Forall2_length, Forall2_flip).
    pose proof (AirdropMerkleTree_new_spec rows v Hn ltac:(lia)) as Hspec.
    destruct (AirdropMerkleTree_new rows v) as [t|e]; simpl.
    + destruct Hspec as [Hne Hok]. pose proof (ao_version _ _ _ Hok) as Hv.
      split_and!; [intros ->; by apply nil_length_inv in Hl| |done].
      exists rows. by rewrite Hv.
    + by destruct Hspec as [[_ ->]|[_ ->]].
  - apply try_map_Err in Hrows as (x & _ & Hx). destruct e; simpl; try done.
    by apply TreeNode_from_csv_no_fuel in Hx.
Qed.

(** What a list of trees numbered from [v] owes to a list of chunks. *)
Definition numbered (chunks : list (list CsvEntry)) (trees : list AirdropMerkleTree) (v : Z) : Prop :=
  Forall2 tree_for chunks trees ∧
  map at_airdrop_version trees = map (λ i, v + Z.of_nat i) (seq 0 (length trees)).

Lemma numbered_cons chunk chunks tree trees v :
  tree_for chunk tree → at_airdrop_version tree = v → numbered chunks trees (v + 1) →
  numbered (chunk :: chunks) (tree :: trees) v.
Proof.
  intros Ht Hv [Hf Hm]. split; [by constructor|]. simpl. rewrite <- seq_shift, map_map, Hm, Hv.
  f_equal; [lia|]. apply map_ext. intros i. lia.
Qed.

Lemma numbered_snoc chunks chunk trees tree v :
  numbered chunks trees v → tree_for chunk tree →
  at_airdrop_version tree = v + Z.of_nat (length trees) →
  numbered (chunks ++ [chunk]) (trees ++ [tree]) v.
Proof.
  intros [Hf Hm] Ht Hv. split; [by apply Forall2_app; [|constructor]|].
  rewrite length_app, seq_app, !map_app, Hm. simpl. by rewrite Hv.
Qed.

Lemma shard_loop_nil fuel v : shard_loop args fuel [] v = Ok ([], v).
Proof. by destruct fuel. Qed.

Lemma shard_loop_spec fuel entries v :
  Forall csv_entry_wf entries → (length entries ≤ fuel)%nat →
  match shard_loop args fuel entries v with
  | Ok (trees, next) =>
      next = v + Z.of_nat (length trees) ∧
      ∃ chunks, concat chunks = entries ∧
        Forall (λ c, 0 < length c ≤ cm_max_nodes_per_tree args)%nat chunks ∧
        numbered chunks trees v
  | Err e => e = TreePanic
  end.
Proof.
  revert entries v. induction fuel as [|fuel IH]; intros entries v Hwf Hfuel.
  all: destruct entries as [|e entries]; [rewrite shard_loop_nil; split; [simpl; lia|];
    exists []; split_and!; [done|constructor|by split]|].
  { simpl in Hfuel. lia. }
  set (l := e :: entries) in *. cbn [shard_loop]. fold l.
  change (match l with [] => _ | _ => ?x end) with x.
  set (n := Nat.min (cm_max_nodes_per_tree args) (length l)).
  pose proof (make_tree_spec (take n l) v) as Ht.
  assert (Forall csv_entry_wf (take n l)) as Hwf1 by by apply Forall_take.
  assert (length (take n l) = n) as Hlen by (rewrite length_take; lia).
  specialize (Ht Hwf1 ltac:(lia)).
  destruct (make_tree args (take n l) v) as [t|err]; cbn [mbind result_bind]; [|done].
  destruct Ht as (Hne & Ht & Hv). unfold next_version, checked_add_u64.
  destruct (v + 1 <=? U64_MAX); cbn [ok_or mbind result_bind]; [|done].
  assert (0 < n)%nat as Hn by (destruct n; [done|lia]).
  specialize (IH (drop n l) (v + 1)). rewrite length_drop in IH.
  specialize (IH ltac:(by apply Forall_drop) ltac:(subst l; simpl in *; lia)).
  destruct (shard_loop args fuel (drop n l) (v + 1)) as [[trees next]|err];
    cbn [mbind result_bind]; [|done].
  destruct IH as (Hnext & chunks & Hcat & Hsz & Hnum). split; [simpl; lia|].
  exists (take n l :: chunks). split_and!.
  - simpl. rewrite Hcat. apply take_drop.
  - constructor; [lia|done].
  - by apply numbered_cons.
Qed.

Lemma test_list_wf : Forall csv_entry_wf (test_list_entries args).
Proof. apply Forall_map, Forall_forall. intros x _. split; [done|simpl; zlia]. Qed.

Lemma chunk_rows_covered chunks trees v e :
  Forall csv_entry_wf (concat chunks) → numbered chunks trees v → e ∈ concat chunks →
  ∃ tree c, tree ∈ trees ∧ pubkey_from_str (ce_pubkey e) = Some c ∧
    c ∈ map tn_claimant (at_tree_nodes tree).
Proof.
  intros Hwf [Hf _] He. induction Hf as [|chunk tree chunks trees (rows & Hrows & Hok) _ IH];
    [by apply elem_of_nil in He|]. simpl in *. apply Forall_app in Hwf as [Hw1 Hw2].
  apply elem_of_app in He as [He|He].
  - destruct (converted_wf chunk rows Hw1 Hrows) as [_ Hk].
    apply list_elem_of_lookup in He as [i Hi].
    destruct (Forall2_lookup_l _ _ _ _ _ Hk Hi) as (n & Hn & Hp).
    exists tree, (tn_claimant n). split_and!; [set_solver|done|].
    apply (ao_claimants _ _ _ Hok). apply list_elem_of_fmap_2. by eapply list_elem_of_lookup_2.
  - destruct (IH Hw2 He) as (t & c & ? & ?). exists t, c. set_solver.
Qed.

(** Creating the trees terminates, loses nothing and numbers them without
    gaps.  With enough fuel for the rows the only failure is a panic of the tool;
    otherwise the rows that are not test wallets are cut, in order, into
    consecutive chunks of at most [max_nodes_per_tree], each chunk is the rows
    of one valid tree, the trees carry consecutive versions from the start
    version on (the test wallets' tree last), the version printed is the last
    one, and every row's claimant has a node in one of the trees. *)
Lemma create_merkle_trees_spec fuel entries start :
  Forall csv_entry_wf entries → (length entries ≤ fuel)%nat →
  match create_merkle_trees args fuel entries start with
  | Ok (trees, last) =>
      last = start + Z.of_nat (length trees) - 1 ∧
      ∃ chunks, concat chunks = without_test_list args entries ∧
        Forall (λ c, 0 < length c ≤ cm_max_nodes_per_tree args)%nat chunks ∧
        numbered (chunks ++ if cm_should_include_test_list args then [test_list_entries args] else [])
          trees start ∧
        ∀ e, e ∈ without_test_list args entries → ∃ tree c, tree ∈ trees ∧
          pubkey_from_str (ce_pubkey e) = Some c ∧ c ∈ map tn_claimant (at_tree_nodes tree)
  | Err e => e = TreePanic
  end.
Proof.
  intros Hwf Hfuel. unfold create_merkle_trees.
  assert (Forall csv_entry_wf (without_test_list args entries) ∧
          (length (without_test_list args entries) ≤ fuel)%nat) as [Hwf' Hfuel'].
  { unfold without_test_list. destruct (cm_should_include_test_list args); [|done].
    split; [apply Forall_forall; intros x [_ Hx]%list_elem_of_filter; by eapply Forall_forall in Hwf|]. etrans; [apply length_filter|done]. }
  pose proof (shard_loop_spec fuel _ start Hwf' Hfuel') as Hs.
  destruct (shard_loop args fuel _ start) as [[trees v]|]; cbn [mbind result_bind]; [|done].
  destruct Hs as (-> & chunks & Hcat & Hsz & Hnum).
  destruct (cm_should_include_test_list args) eqn:Htest.
  - pose proof (make_tree_spec (test_list_entries args) (start + Z.of_nat (length trees))) as Ht.
    destruct (make_tree args (test_list_entries args) _) as [t|]; cbn [mbind result_bind].
    2: { apply Ht; [apply test_list_wf|simpl; lia]. }
    destruct Ht as (_ & Ht & Hv); [apply test_list_wf|simpl; lia|].
    unfold next_version, checked_add_u64. destruct (_ <=? U64_MAX); cbn [ok_or mbind result_bind]; [|done].
    unfold checked_sub_u64. destruct (1 <=? _); cbn [ok_or mbind result_bind]; [|done].
    rewrite length_app. split; [simpl; lia|]. exists chunks. split_and!; [done|done| |].
    + by apply numbered_snoc.
    + intros e He. destruct (chunk_rows_covered chunks trees start e) as (tr & c & ? & ?);
        [by rewrite Hcat|done|by rewrite Hcat|].
      exists tr, c. set_solver.
  - cbn [mbind result_bind]. unfold checked_sub_u64. destruct (1 <=? _); cbn [ok_or mbind result_bind]; [|done].
    split; [lia|]. exists chunks. rewrite app_nil_r. split_and!; [done..|].
    intros e He. apply (chunk_rows_covered chunks trees start); [by rewrite Hcat|done|by rewrite Hcat].
Qed.

End sharding_theorems.

(** ** The version search *)

(** The search for an airdrop version finds the first free one and always
    ends.  Enough fuel to reach the first free version returns it; whatever is
    returned is free, at or above the start and below the bound, with every
    version between the start and it answered otherwise; and the fuel of the
    loop's own bound always suffices. *)
Lemma version_search_finds_first_free probe start :
  let from := default 0 start in
  (∀ v fuel, first_free probe from v → (Z.to_nat (v - from) < fuel)%nat →
     process_find_airdrop_version probe fuel start = Ok (Some v)) ∧
  (∀ v fuel, process_find_airdrop_version probe fuel start = Ok (Some v) →
     first_free probe from v) ∧
  (∀ fuel, (Z.to_nat (MAX_VERSION - from) < fuel)%nat →
     ∃ o, process_find_airdrop_version probe fuel start = Ok o).
Proof.
  intros from. unfold process_find_airdrop_version. split_and!.
  - intros v fuel. apply find_version_found.
  - intros v fuel. apply find_version_sound.
  - intros fuel. apply find_version_terminates.
Qed.

(** ** The proof files *)
Section kv_theorems.
Context `{PubkeyParser} `{PubkeyText} `{!PubkeyTextSpec} `{AddressDerivation}.
Context (program_id mint : Pubkey) (max_entries_per_file : Z).

Definition kv_of (distributor : Pubkey) (n : TreeNode) (proof : list Hash) : KvProof :=
  mkKvProof (pubkey_to_string distributor) (tn_amount n) (tn_locked_amount n) proof.

Definition tree_address (t : AirdropMerkleTree) : Pubkey :=
  (get_merkle_distributor_pda program_id mint (at_airdrop_version t)).1.

(** The nodes of the trees with the address of their distributor, in order. *)
Definition all_nodes (trees : list AirdropMerkleTree) : list (Pubkey * TreeNode) :=
  concat (map (λ t, map (pair (tree_address t)) (at_tree_nodes t)) trees).

Definition file_limit : nat := Nat.max 1 (Z.to_nat max_entries_per_file).

(** The files and the open map hold exactly the nodes in [nodes]. *)
Record kv_ok (nodes : list (Pubkey * TreeNode)) (st : list (gmap string KvProof) * gmap string KvProof)
    : Prop := {
  kv_found p : p ∈ nodes → ∃ file proof, file ∈ st.1 ++ [st.2] ∧ tn_proof p.2 = Some proof ∧
    file !! pubkey_to_string (tn_claimant p.2) = Some (kv_of p.1 p.2 proof);
  kv_count : length nodes = sum_list_with size (st.1 ++ [st.2]);
  kv_sound file k v : file ∈ st.1 ++ [st.2] → file !! k = Some v →
    ∃ p proof, p ∈ nodes ∧ tn_proof p.2 = Some proof ∧ k = pubkey_to_string (tn_claimant p.2) ∧
      v = kv_of p.1 p.2 proof;
  kv_limit : Forall (λ file, size file ≤ file_limit)%nat st.1 ∧
             (size st.2 < file_limit)%nat
}.

Lemma kv_insert_ok nodes st p :
  kv_ok nodes st → is_Some (tn_proof p.2) →
  tn_claimant p.2 ∉ map (λ q, tn_claimant q.2) nodes →
  ∃ st', kv_insert max_entries_per_file p.1 st p.2 = Ok st' ∧ kv_ok (nodes ++ [p]) st'.
Proof.
  intros [Hfound Hcount Hsound [Hlim1 Hlim2]] [proof Hp] Hnew. unfold kv_insert. rewrite Hp.
  cbn [ok_or mbind result_bind]. fold (kv_of p.1 p.2 proof).
  set (k := pubkey_to_string (tn_claimant p.2)).
  assert (st.2 !! k = None) as Hk.
  { apply eq_None_not_Some. intros [v Hv].
    destruct (Hsound st.2 k v) as (q & ? & Hin & _ & Hq%(inj pubkey_to_string) & _); [set_solver|done|].
    apply Hnew. rewrite Hq. by apply (list_elem_of_fmap_2 (λ q, tn_claimant q.2)). }
  set (m := <[k := kv_of p.1 p.2 proof]> st.2).
  assert (size m = S (size st.2)) as Hsize by (by apply map_size_insert_None).
  assert (∀ q, q ∈ nodes ++ [p] → ∃ file proof', file ∈ st.1 ++ [m] ∧ tn_proof q.2 = Some proof' ∧
    file !! pubkey_to_string (tn_claimant q.2) = Some (kv_of q.1 q.2 proof')) as Hfound'.
  { intros q [Hq|Hq]%elem_of_app.
    - destruct (Hfound q Hq) as (file & pr & [Hf|Hf]%elem_of_app & Hpr & Hl).
      + exists file, pr. set_solver.
      + apply list_elem_of_singleton in Hf as ->. exists m, pr. split_and!; [set_solver|done|].
        unfold m. rewrite lookup_insert_ne; [done|]. intros E. rewrite <- E in Hl. congruence.
    - apply list_elem_of_singleton in Hq as ->. exists m, proof.
      split_and!; [set_solver|done|apply lookup_insert_eq]. }
  assert (∀ file j v, file ∈ st.1 ++ [m] → file !! j = Some v → ∃ q proof', q ∈ nodes ++ [p] ∧
    tn_proof q.2 = Some proof' ∧ j = pubkey_to_string (tn_claimant q.2) ∧ v = kv_of q.1 q.2 proof') as Hsound'.
  { intros file j v [Hf|Hf]%elem_of_app Hv.
    - destruct (Hsound file j v) as (q & pr & ? & ?); [set_solver|done|]. exists q, pr. set_solver.
    - apply list_elem_of_singleton in Hf as ->. apply lookup_insert_Some in Hv as [[<- <-]|[_ Hv]].
      + exists p, proof. set_solver.
      + destruct (Hsound st.2 j v) as (q & pr & ? & ?); [set_solver|done|]. exists q, pr. set_solver. }
  assert (length (nodes ++ [p]) = sum_list_with size (st.1 ++ [m])) as Hcount'.
  { rewrite length_app, Hcount, !sum_list_with_app. simpl. lia. }
  destruct (Z.leb_spec max_entries_per_file (Z.of_nat (size m))) as [Hfull|Hfull].
  - eexists. split; [done|]. split; cbn [fst snd].
    + intros q Hq. destruct (Hfound' q Hq) as (file & pr & Hf & ?). exists file, pr. set_solver.
    + rewrite Hcount', (sum_list_with_app _ (_ ++ _)). simpl. rewrite map_size_empty. lia.
    + intros file j v [Hf|Hf]%elem_of_app Hv; [by apply (Hsound' file)|].
      apply list_elem_of_singleton in Hf as ->. by rewrite lookup_empty in Hv.
    + split; [|rewrite map_size_empty; unfold file_limit; lia].
      apply Forall_app. split; [done|]. constructor; [|constructor]. lia.
  - eexists. split; [done|]. split; cbn [fst snd]; [done|done|done|].
    split; [done|]. unfold file_limit. lia.
Qed.

Lemma kv_nodes_ok distributor ns nodes st :
  kv_ok nodes st → Forall (λ n, is_Some (tn_proof n)) ns →
  NoDup (map (λ q, tn_claimant q.2) nodes ++ map tn_claimant ns) →
  ∃ st', try_fold (kv_insert max_entries_per_file distributor) st ns = Ok st' ∧
    kv_ok (nodes ++ map (pair distributor) ns) st'.
Proof.
  revert nodes st. induction ns as [|n ns IH]; intros nodes st Hok Hp Hnd; simpl.
  { exists st. by rewrite app_nil_r. }
  apply Forall_cons in Hp as [Hpn Hp].
  assert (tn_claimant n ∉ map (λ q, tn_claimant q.2) nodes) as Hnew.
  { intros Hin. apply NoDup_app in Hnd as (_ & Hd & _). apply (Hd _ Hin). simpl. set_solver. }
  destruct (kv_insert_ok nodes st (distributor, n) Hok Hpn Hnew) as (st1 & Hst1 & Hok1).
  cbn [fst snd] in Hst1. rewrite Hst1. cbn [mbind result_bind].
  destruct (IH (nodes ++ [(distributor, n)]) st1 Hok1 Hp) as (st2 & -> & Hok2).
  { rewrite map_app. simpl. by rewrite <- (assoc_L (++)). }
  exists st2. split; [done|]. by rewrite <- (assoc_L (++)) in Hok2.
Qed.

Lemma kv_trees_ok trees :
  Forall (λ p, is_Some (tn_proof p.2)) (all_nodes trees) →
  NoDup (map (λ q, tn_claimant q.2) (all_nodes trees)) →
  ∃ st, try_fold (kv_tree program_id mint max_entries_per_file) ([], ∅) trees = Ok st ∧
    kv_ok (all_nodes trees) st.
Proof.
  induction trees as [|t trees IH] using rev_ind; intros Hp Hnd.
  { eexists. split; [done|]. split; simpl; [set_solver|by rewrite map_size_empty| |].
    - intros file k v -> %list_elem_of_singleton. by rewrite lookup_empty.
    - split; [constructor|]. rewrite map_size_empty. unfold file_limit. lia. }
  unfold all_nodes in Hp, Hnd |- *. rewrite map_app, concat_app in Hp, Hnd |- *. simpl in *.
  rewrite app_nil_r in *. fold (all_nodes trees) in *.
  apply Forall_app in Hp as [Hp1 Hp2]. rewrite map_app in Hnd.
  destruct IH as (st & Hst & Hok); [done|by apply NoDup_app in Hnd as [? _]|].
  rewrite try_fold_app, Hst. cbn [mbind result_bind try_fold]. unfold kv_tree.
  fold (tree_address t).
  destruct (kv_nodes_ok (tree_address t) (at_tree_nodes t) (all_nodes trees) st Hok)
    as (st' & -> & Hok').
  - apply (proj1 (Forall_map (pair (tree_address t)) _ _) Hp2).
  - rewrite map_map in Hnd. exact Hnd.
  - by exists st'.
Qed.

(** The proof files hold every node exactly once: for trees with stored
    proofs and distinct claimants the export succeeds, every node's proof and
    amounts are found under the claimant's key in one of the files, no file has
    more than the limit (one, for a limit of 0), and the files have as many
    entries as there are nodes. *)
Lemma kv_files_hold_every_proof trees :
  Forall (λ p, is_Some (tn_proof p.2)) (all_nodes trees) →
  NoDup (map (λ q, tn_claimant q.2) (all_nodes trees)) →
  ∃ files, process_generate_kv_proof program_id mint max_entries_per_file trees = Ok files ∧
    (∀ p, p ∈ all_nodes trees → ∃ file proof, file ∈ files ∧ tn_proof p.2 = Some proof ∧
       file !! pubkey_to_string (tn_claimant p.2) = Some (kv_of p.1 p.2 proof)) ∧
    (∀ file k v, file ∈ files → file !! k = Some v → ∃ p proof, p ∈ all_nodes trees ∧
       tn_proof p.2 = Some proof ∧ k = pubkey_to_string (tn_claimant p.2) ∧ v = kv_of p.1 p.2 proof) ∧
    Forall (λ file, size file ≤ file_limit)%nat files ∧
    sum_list_with size files = length (all_nodes trees).
Proof.
  intros Hp Hnd. destruct (kv_trees_ok trees Hp Hnd) as ([files cur] & Hst & [Hf Hc Hs [Hl1 Hl2]]).
  unfold process_generate_kv_proof. rewrite Hst. cbn [mbind result_bind fst snd] in *.
  destruct (Nat.ltb_spec 0 (size cur)).
  - exists (files ++ [cur]). split_and!; [done|done|done| |done].
    apply Forall_app. split; [done|]. constructor; [lia|constructor].
  - assert (cur = ∅) as -> by (apply map_size_empty_inv; lia).
    exists files. split_and!; [done| |intros file k v Hin; apply Hs; set_solver|done|].
    + intros p Hin. destruct (Hf p Hin) as (file & pr & [?|Hfile]%elem_of_app & Hpr & Hlk); [eauto|].
      apply list_elem_of_singleton in Hfile as ->. by rewrite lookup_empty in Hlk.
    + rewrite Hc, sum_list_with_app. simpl. rewrite map_size_empty. lia.
Qed.
End kv_theorems.

(** ** Witnesses: two rows in trees of one node; a key is read as the length of its text *)
#[local] Existing Instances sha256_hasher example_derivation.
Definition length_parser : PubkeyParser := λ s, Some (key (Z.of_nat (String.length s))).

Definition ex_args : CreateMerkleTreeArgs := mkCreateMerkleTreeArgs 1 false 0 2 Tokens None.
Definition ex_entries : list CsvEntry :=
  [mkCsvEntry "a" 3 (Some 1); mkCsvEntry "bb" 4 None].

Lemma ex_entries_wf : Forall csv_entry_wf ex_entries.
Proof. repeat constructor; simpl; zlia. Qed.

Lemma ex_shards_ok :
  is_ok (@create_merkle_trees _ length_parser ex_args 2 ex_entries 7) = true.
Proof. vm_compute. reflexivity. Qed.

Lemma ex_created_trees :
  ∃ trees last, @create_merkle_trees _ length_parser ex_args 2 ex_entries 7 = Ok (trees, last) ∧
    last = 7 + Z.of_nat (length trees) - 1 ∧
    ∃ chunks, concat chunks = ex_entries ∧
      Forall (λ c, 0 < length c ≤ 1)%nat chunks ∧
      @numbered _ length_parser ex_args (chunks ++ []) trees 7.
Proof.
  pose proof (@create_merkle_trees_spec _ length_parser ex_args ltac:(simpl; lia)
    ltac:(simpl; zlia) ltac:(simpl; lia) 2 ex_entries 7 ex_entries_wf (le_n 2)) as H.
  pose proof ex_shards_ok as Hok.
  destruct (@create_merkle_trees _ length_parser ex_args 2 ex_entries 7) as [[trees last]|];
    [|discriminate Hok].
  destruct H as (H1 & chunks & H2 & H3 & H4 & _).
  exists trees, last. split; [reflexivity|]. split; [exact H1|].
  exists chunks. exact (conj H2 (conj H3 H4)).
Defined.

Definition ex_kv_tree : AirdropMerkleTree :=
  mkAirdrop (key 9) 1 2 12
    [mkTreeNode (key 1) 5 (Some 3) (Some [key 4]); mkTreeNode (key 2) 4 None (Some [key 5])].

Example ex_kv_files :
  length <$> @process_generate_kv_proof raw_text _ (key 7) (key 8) 1 [ex_kv_tree] = Ok 2%nat.
Proof. vm_compute. reflexivity. Qed.
