(* ===== verification/Network.v ===== *)
(** * The node the tool talks to
    (the RPC client as src/cli/src/bin uses it: [account], [get_account_data],
    [get_latest_blockhash], [send_transaction],
    [send_and_confirm_transaction_with_spinner], [get_signature_status])

    A transaction that [send_transaction] accepts is only submitted: it is in
    flight until the network processes it, successfully or not, or loses it.
    Between two calls of the client anything may happen: transactions in flight
    are processed or lost, blocks are made, time passes, others act; and any call
    may fail, also after the node has taken a submission.  What happens is the
    [net_future] of a [Network], so that a run of a command is a function.  The
    ledger of a [Network] is the one the client sees at its commitment level. *)
From S2P Require Import Prelude Machine Hashing TreeNode Airdrop.
From S2P Require Import ProgramError ClaimStatus Solana Token State Handlers Program Execution.

Inductive cli_failure := CliPanic | CliFuel.

Definition unwrap {E A : Type} (r : result E A) : result cli_failure A :=
  match r with Ok a => Ok a | Err _ => Err CliPanic end.
Definition expect {A : Type} (o : option A) : result cli_failure A := ok_or o CliPanic.

(** [create_associated_token_account(payer, wallet, mint)]. *)
Class AtaProgram := create_associated_token_account : TokenState → Pubkey → Pubkey → option TokenState.

(** It creates an empty account of the wallet at the associated address. *)
Class AtaProgramSpec `{AddressDerivation} `{AtaProgram} : Prop :=
  create_ata_effect ts wallet mint ts' :
    create_associated_token_account ts wallet mint = Some ts' →
    tk_accounts ts !! get_associated_token_address wallet mint = None ∧
    tk_mints ts' = tk_mints ts ∧
    tk_accounts ts' = <[get_associated_token_address wallet mint
                          := mkTokenAccount mint wallet 0 None false]> (tk_accounts ts).

(** ** Commands that may panic half-way

    A command changes a state and returns or panics; a panic keeps what was done
    before it. *)
Definition io (S A : Type) : Type := S → S * result cli_failure A.
#[global] Instance io_ret S : MRet (io S) := λ A a s, (s, Ok a).
#[global] Instance io_bind S : MBind (io S) := λ A B f m s,
  match m s with (s', Ok a) => f a s' | (s', Err e) => (s', Err e) end.

Definition ask {S A : Type} (f : S → result cli_failure A) : io S A := λ s, (s, f s).

Fixpoint for_each {S A : Type} (f : A → io S unit) (l : list A) : io S unit :=
  match l with
  | [] => mret tt
  | x :: l => _ ← f x; for_each f l
  end.
(** A loop that carries a value. *)
Fixpoint for_fold {S A B : Type} (f : B → A → io S B) (b : B) (l : list A) : io S B :=
  match l with
  | [] => mret b
  | x :: l => b ← f b x; for_fold f b l
  end.

(** ** Transactions *)
Inductive TxIx :=
| ProgramIx (ix : Instruction)
| CreateAta (wallet mint : Pubkey)
| TransferTo (from to : Pubkey) (amount : Z).

(** Signed and paid by one key. *)
Record Transaction := mkTransaction {
  tx_payer : Pubkey;
  tx_blockhash : Z;
  tx_ixs : list TxIx
}.

(** [tx.get_signature()] as text, and which texts [Signature::from_str] reads. *)
Class SignatureScheme := {
  signature_of : Transaction → string;
  signature_readable : string → bool
}.
(** A signature identifies its transaction. *)
Class SignatureSchemeSpec `{SignatureScheme} : Prop := {
  signature_inj :: Inj (=) (=) signature_of;
  signature_of_readable tx : signature_readable (signature_of tx) = true
}.

Section network.
Context `{Hasher} `{AddressDerivation} `{TokenProgram} `{AtaProgram} `{SignatureScheme}.
Implicit Types (st : State) (tx : Transaction).

Definition run_ix (payer : Pubkey) st (ix : TxIx) : option State :=
  match ix with
  | ProgramIx ix =>
      match process_instruction {[ payer ]} st ix with Ok st' => Some st' | Err _ => None end
  | CreateAta wallet mint =>
      (λ ts, set_tokens ts st) <$> create_associated_token_account (st_tokens st) wallet mint
  | TransferTo from to amount =>
      (λ ts, set_tokens ts st) <$> token_transfer (st_tokens st) from to payer amount
  end.

(** All instructions or none. *)
Fixpoint run_ixs (payer : Pubkey) st (ixs : list TxIx) : option State :=
  match ixs with
  | [] => Some st
  | ix :: ixs => st' ← run_ix payer st ix; run_ixs payer st' ixs
  end.
Definition execute st tx : option State := run_ixs (tx_payer tx) st (tx_ixs tx).

(** ** What happens between two calls *)
Inductive net_event :=
| Land (i : nat)                 (** the [i]-th transaction in flight is processed *)
| Lose (i : nat)                 (** it expires *)
| NewBlock (blockhash : Z)
| Time (clock : Clock)
| Others (f : State → State).    (** what everybody else does *)

(** How a call ends: the client gets the answer; the node never got the request;
    the node got it and the client gets an error. *)
Inductive rpc_answer := Answered | Refused | AnswerLost.

Record tick := mkTick {
  ti_events : list net_event;
  ti_answer : rpc_answer
}.

Record Network := mkNetwork {
  net_ledger : State;
  net_blockhash : Z;
  (** Submitted and not processed yet. *)
  net_pending : list Transaction;
  (** Every transaction ever submitted. *)
  net_sent : list Transaction;
  (** The signatures processed, and whether the transaction succeeded. *)
  net_log : list (string * bool);
  (** What happens before each of the next calls. *)
  net_future : list tick
}.
Implicit Types (net : Network).

Definition set_ledger st net : Network :=
  mkNetwork st (net_blockhash net) (net_pending net) (net_sent net) (net_log net) (net_future net).
Definition set_future (future : list tick) net : Network :=
  mkNetwork (net_ledger net) (net_blockhash net) (net_pending net) (net_sent net) (net_log net) future.

(** A signature is processed at most once. *)
Definition processed tx net : Prop := signature_of tx ∈ map fst (net_log net).
#[global] Instance processed_dec tx net : Decision (processed tx net).
Proof. unfold processed. apply _. Defined.

Definition process_tx tx (pending : list Transaction) net : Network :=
  let done st ok :=
    mkNetwork st (net_blockhash net) pending (net_sent net) (net_log net ++ [(signature_of tx, ok)])
      (net_future net) in
  match execute (net_ledger net) tx with
  | Some st => done st true
  | None => done (net_ledger net) false
  end.
Definition drop_tx (pending : list Transaction) net : Network :=
  mkNetwork (net_ledger net) (net_blockhash net) pending (net_sent net) (net_log net) (net_future net).

(** The clock does not run backwards. *)
Definition advance_clock (clock : Clock) st : State :=
  if bool_decide (curr_slot st ≤ clk_slot clock ∧ curr_ts st ≤ clk_unix_timestamp clock ∧
                  is_u64 (clk_slot clock) ∧ is_i64 (clk_unix_timestamp clock))
  then set_clock clock st else st.

Definition net_step net (e : net_event) : Network :=
  match e with
  | Land i =>
      match net_pending net !! i with
      | Some tx =>
          let pending := delete i (net_pending net) in
          if decide (processed tx net) then drop_tx pending net else process_tx tx pending net
      | None => net
      end
  | Lose i => drop_tx (delete i (net_pending net)) net
  | NewBlock blockhash =>
      mkNetwork (net_ledger net) blockhash (net_pending net) (net_sent net) (net_log net) (net_future net)
  | Time clock => set_ledger (advance_clock clock (net_ledger net)) net
  | Others f => set_ledger (f (net_ledger net)) net
  end.
Definition net_run net (events : list net_event) : Network := foldl net_step net events.

(** ** Calls of the client *)

(** After the future described nothing happens and every call is answered. *)
Definition next_tick net : tick := default (mkTick [] Answered) (head (net_future net)).
Definition pass net : Network := net_run (set_future (tail (net_future net)) net) (ti_events (next_tick net)).

Definition call {A : Type} (k : rpc_answer → io Network A) : io Network A :=
  λ net, k (ti_answer (next_tick net)) (pass net).

(** A query; the error of a refused call is the one of a missing account. *)
Definition fetch {A : Type} (f : State → option A) : io Network (option A) :=
  call (λ answer, match answer with
                  | Answered => ask (λ net, Ok (f (net_ledger net)))
                  | _ => mret None
                  end).
(** [.unwrap()] of it. *)
Definition fetch_unwrap {A : Type} (f : State → option A) : io Network A :=
  o ← fetch f; ask (λ _, expect o).

(** [client.get_latest_blockhash().unwrap()]. *)
Definition latest_blockhash : io Network Z :=
  call (λ answer, match answer with
                  | Answered => ask (λ net, Ok (net_blockhash net))
                  | _ => ask (λ _, Err CliPanic)
                  end).

(** The node simulates a transaction before it takes it. *)
Definition preflight tx net : bool :=
  bool_decide (is_Some (execute (net_ledger net) tx) ∧ ¬ processed tx net).

Definition submit tx net : Network :=
  mkNetwork (net_ledger net) (net_blockhash net) (net_pending net ++ [tx]) (net_sent net ++ [tx])
    (net_log net) (net_future net).

(** [client.send_transaction(&tx)]: the signature, or an error. *)
Definition send_transaction tx : io Network (option string) :=
  call (λ answer net,
    match answer with
    | Refused => (net, Ok None)
    | Answered => if preflight tx net then (submit tx net, Ok (Some (signature_of tx))) else (net, Ok None)
    | AnswerLost => (if preflight tx net then submit tx net else net, Ok None)
    end).

(** [client.send_and_confirm_transaction_with_spinner(&tx)] returns a signature
    only when the transaction has succeeded. *)
Definition send_and_confirm_transaction tx : io Network (option string) :=
  call (λ answer net,
    match answer with
    | Refused => (net, Ok None)
    | Answered =>
        if preflight tx net
        then (process_tx tx (net_pending net)
                (mkNetwork (net_ledger net) (net_blockhash net) (net_pending net) (net_sent net ++ [tx])
                   (net_log net) (net_future net)), Ok (Some (signature_of tx)))
        else (net, Ok None)
    | AnswerLost => (if preflight tx net then submit tx net else net, Ok None)
    end).

(** What the node knows about a recorded signature. *)
Inductive sig_status := SigSucceeded | SigFailed | SigUnknown | SigRpcError.
#[global] Instance sig_status_eq_dec : EqDecision sig_status.
Proof. solve_decision. Defined.

Definition log_status net (signature : string) : sig_status :=
  if decide ((signature, true) ∈ net_log net) then SigSucceeded
  else if decide ((signature, false) ∈ net_log net) then SigFailed
  else SigUnknown.

(** [client.get_signature_status_with_commitment_and_history(&signature, ..)];
    [Signature::from_str(..).unwrap()] before it panics on another text. *)
Definition get_signature_status (signature : string) : io Network sig_status :=
  if signature_readable signature
  then call (λ answer, match answer with
                       | Answered => ask (λ net, Ok (log_status net signature))
                       | _ => mret SigRpcError
                       end)
  else ask (λ _, Err CliPanic).
End network.

Arguments execute : simpl never.
