(* ===== verification/NetworkTheorems.v ===== *)
(** * Transactions in flight

    What a ledger owes to the transactions submitted to it while nobody else acts:
    every submitted transaction takes effect at most once, in some order, and the
    balances are the initial ones plus the flows of those that have landed.  The
    commands that only submit (funding, mass send) are proved correct against
    these lemmas, whatever the network does with their transactions. *)
From S2P Require Import Prelude Machine Hashing TreeNode Airdrop.
From S2P Require Import ProgramError ClaimStatus Solana Token State Handlers Program Execution Network.

(** ** Commands *)
Lemma io_bind_run {S A B} (m : io S A) (f : A → io S B) s s' r :
  (m ≫= f) s = (s', r) →
  (∃ a s1, m s = (s1, Ok a) ∧ f a s1 = (s', r)) ∨ (∃ e, m s = (s', Err e) ∧ r = Err e).
Proof.
  unfold mbind, io_bind. destruct (m s) as [s1 [a|e]]; [eauto|]. intros [= <- <-]. eauto.
Qed.
Lemma unwrap_Ok {E A : Type} (r : result E A) a : unwrap r = Ok a → r = Ok a.
Proof. destruct r; naive_solver. Qed.
Lemma expect_Ok {A : Type} (o : option A) a : expect o = Ok a → o = Some a.
Proof. apply ok_or_Ok. Qed.

(** What a command returns satisfies [P]. *)
Definition returns {S A} (m : io S A) (P : A → Prop) : Prop := ∀ s s' a, m s = (s', Ok a) → P a.

Lemma returns_ret {S A} (a : A) (P : A → Prop) : P a → returns (mret a : io S A) P.
Proof. by intros Ha s s' a' [= _ <-]. Qed.
Lemma returns_bind {S A B} (m : io S A) (f : A → io S B) P :
  (∀ a, returns (f a) P) → returns (m ≫= f) P.
Proof. intros Hf s s' b [(a & s1 & _ & Hr)|(e & _ & ?)]%io_bind_run; [by eapply Hf|done]. Qed.
Lemma returns_fold {S A B} (f : B → A → io S B) b l P :
  P b → (∀ b x, P b → returns (f b x) P) → returns (for_fold f b l) P.
Proof.
  intros Hb Hf. revert b Hb. induction l as [|x l IH]; intros b Hb; cbn [for_fold]; [by apply returns_ret|].
  intros s s' b' [(b1 & s1 & H1' & Hr)|(e & _ & ?)]%io_bind_run; [|done].
  eapply IH; [|exact Hr]. by eapply Hf.
Qed.

(** ** Balances *)
Definition held (ts : TokenState) (p : Pubkey) : Z := default 0 (ta_amount <$> tk_accounts ts !! p).

Lemma held_Some ts p a : tk_accounts ts !! p = Some a → held ts p = ta_amount a.
Proof. unfold held. by intros ->. Qed.

(** [a'] is the same account with perhaps another balance. *)
Definition same_account (a a' : TokenAccount) : Prop :=
  ta_mint a' = ta_mint a ∧ ta_owner a' = ta_owner a ∧ ta_frozen a' = ta_frozen a ∧
  (ta_delegate a = None → ta_delegate a' = None).
#[global] Instance same_account_preorder : PreOrder same_account.
Proof.
  split; [by intros a|]. intros a b c (?&?&?&?) (?&?&?&?). unfold same_account.
  split_and!; [congruence..|auto].
Qed.

(** What an instruction adds to an account, and which accounts it may change. *)
Definition ix_flow (p : Pubkey) (ix : TxIx) : Z :=
  match ix with
  | TransferTo from to amount =>
      (if bool_decide (to = p) then amount else 0) - (if bool_decide (from = p) then amount else 0)
  | _ => 0
  end.
Definition ix_touches `{AddressDerivation} (p : Pubkey) (ix : TxIx) : Prop :=
  match ix with
  | ProgramIx _ => True
  | CreateAta wallet mint => p = get_associated_token_address wallet mint
  | TransferTo from to _ => p = from ∨ p = to
  end.
Definition token_ix (ix : TxIx) : Prop := match ix with ProgramIx _ => False | _ => True end.
Definition token_tx (tx : Transaction) : Prop := Forall token_ix (tx_ixs tx).

Definition tx_flow (p : Pubkey) (tx : Transaction) : Z := sum_list (ix_flow p) (tx_ixs tx).
Definition flow (p : Pubkey) (txs : list Transaction) : Z := sum_list (tx_flow p) txs.
Definition touched `{AddressDerivation} (p : Pubkey) (txs : list Transaction) : Prop :=
  ∃ tx ix, tx ∈ txs ∧ ix ∈ tx_ixs tx ∧ ix_touches p ix.

Lemma sum_list_zero {A} (l : list A) : sum_list (λ _, 0) l = 0.
Proof. induction l; simpl; lia. Qed.

Lemma flow_app p l1 l2 : flow p (l1 ++ l2) = flow p l1 + flow p l2.
Proof. apply sum_list_app. Qed.

(** Only [tx] among them concerns [p]. *)
Lemma flow_single p landed tx :
  NoDup landed → (∀ tx', tx' ∈ landed → tx' ≠ tx → tx_flow p tx' = 0) →
  (tx ∈ landed → flow p landed = tx_flow p tx) ∧ (tx ∉ landed → flow p landed = 0).
Proof.
  unfold flow. induction 1 as [|x l Hx Hnd IH]; intros Hother; simpl; [split; [by intros ?%elem_of_nil|done]|].
  destruct IH as [IHin IHout]; [set_solver|]. split.
  - intros [<- |Hin]%elem_of_cons.
    + rewrite IHout by done. lia.
    + rewrite IHin, (Hother x) by set_solver. lia.
  - intros [Hne Hnin]%not_elem_of_cons. rewrite IHout, (Hother x) by set_solver. lia.
Qed.
Lemma flow_none p txs : (∀ tx, tx ∈ txs → tx_flow p tx = 0) → flow p txs = 0.
Proof.
  intros Hall. unfold flow. rewrite (sum_list_ext _ (λ _, 0)) by done. apply sum_list_zero.
Qed.

Section flows.
Context `{Hasher} `{AddressDerivation} `{TokenProgram} `{!TokenProgramSpec}.
Context `{AtaProgram} `{!AtaProgramSpec} `{SignatureScheme} `{!SignatureSchemeSpec}.
Implicit Types (st : State) (net : Network) (tx : Transaction).

(** ** The effect of token instructions *)
Record flowed (txs : list Transaction) st st' : Prop := {
  fl_accounts : st_accounts st' = st_accounts st;
  fl_kept p a : tk_accounts (st_tokens st) !! p = Some a →
    ∃ a', tk_accounts (st_tokens st') !! p = Some a' ∧ same_account a a' ∧
      ta_amount a' = ta_amount a + flow p txs;
  fl_held p : held (st_tokens st') p = held (st_tokens st) p + flow p txs;
  fl_other p : ¬ touched p txs → tk_accounts (st_tokens st') !! p = tk_accounts (st_tokens st) !! p
}.

Lemma flowed_nil st st' :
  st_accounts st' = st_accounts st → st_tokens st' = st_tokens st → flowed [] st st'.
Proof.
  intros Ha Ht. split; [done| | |by rewrite Ht]; rewrite Ht; unfold flow; simpl.
  - intros p a Hp. exists a. split_and!; [done|reflexivity|lia].
  - intros p. lia.
Qed.

Lemma flowed_app txs1 txs2 st1 st2 st3 :
  flowed txs1 st1 st2 → flowed txs2 st2 st3 → flowed (txs1 ++ txs2) st1 st3.
Proof.
  intros [Ha1 Hk1 Hh1 Ho1] [Ha2 Hk2 Hh2 Ho2]. split.
  - congruence.
  - intros p a (a1 & Hp1 & Hs1 & Hm1)%Hk1. destruct (Hk2 p a1 Hp1) as (a2 & Hp2 & Hs2 & Hm2).
    exists a2. split_and!; [done|by etrans|]. rewrite flow_app. lia.
  - intros p. rewrite Hh2, Hh1, flow_app. lia.
  - intros p Hno. rewrite Ho2, Ho1; [done|..]; intros (tx & ix & ? & ? & ?); apply Hno;
      exists tx, ix; split_and!; try done; apply elem_of_app; auto.
Qed.

(** Only what the instructions are matters. *)
Lemma flowed_ixs payer h payer' h' ixs ixs' st st1 st2 :
  flowed [mkTransaction payer h ixs] st st1 → flowed [mkTransaction payer' h' ixs'] st1 st2 →
  flowed [mkTransaction payer h (ixs ++ ixs')] st st2.
Proof.
  intros F1 F2. destruct (flowed_app _ _ _ _ _ F1 F2) as [Ha Hk Hh Ho].
  assert (∀ p, flow p ([mkTransaction payer h ixs] ++ [mkTransaction payer' h' ixs'])
    = flow p [mkTransaction payer h (ixs ++ ixs')]) as Hf.
  { intros p. unfold flow, tx_flow. simpl. rewrite sum_list_app. lia. }
  split; [done| | |].
  - intros p a Hp. rewrite <- Hf. by apply Hk.
  - intros p. rewrite <- Hf. apply Hh.
  - intros p Hno. apply Ho. intros (tx & ix & Htx & Hix & Ht). apply Hno.
    exists (mkTransaction payer h (ixs ++ ixs')), ix. split_and!; [apply list_elem_of_here| |done].
    simpl. apply elem_of_app.
    apply elem_of_app in Htx as [-> %list_elem_of_singleton| -> %list_elem_of_singleton]; simpl in Hix; auto.
Qed.

Lemma transfer_flowed payer h from to amount st ts :
  token_transfer (st_tokens st) from to payer amount = Some ts →
  flowed [mkTransaction payer h [TransferTo from to amount]] st (set_tokens ts st).
Proof.
  intros Ht. destruct (token_transfer_effect _ _ _ _ _ _ Ht) as (a & b & Ha & Hb & _ & _ & _ & _ & Hc).
  assert (∀ p, flow p [mkTransaction payer h [TransferTo from to amount]] =
    (if bool_decide (to = p) then amount else 0) - (if bool_decide (from = p) then amount else 0)) as Hf.
  { intros p. unfold flow, tx_flow. simpl. lia. }
  assert (∀ p x, tk_accounts (st_tokens st) !! p = Some x → ∃ x', tk_accounts ts !! p = Some x' ∧
    same_account x x' ∧
    ta_amount x' = ta_amount x + flow p [mkTransaction payer h [TransferTo from to amount]]) as Hk.
  { intros p x Hx. rewrite Hf. case_bool_decide as Heq.
    - rewrite Hc. exists x. split_and!; [done|reflexivity|]. subst. case_bool_decide; lia.
    - destruct Hc as (a' & Hd & ->). apply debited_fields in Hd as (? & ? & Ham & ? & ?).
      destruct (decide (p = to)) as [-> |Hpt]; [|destruct (decide (p = from)) as [-> |Hpf]].
      + rewrite lookup_insert_eq. assert (x = b) as -> by congruence. eexists. split; [done|].
        rewrite bool_decide_eq_true_2, bool_decide_eq_false_2 by done. split; [by split_and!|simpl; lia].
      + rewrite lookup_insert_ne, lookup_insert_eq by done. assert (x = a) as -> by congruence.
        eexists. split; [done|]. rewrite bool_decide_eq_false_2, bool_decide_eq_true_2 by done.
        split; [by split_and!|lia].
      + rewrite !lookup_insert_ne by done. exists x. rewrite !bool_decide_eq_false_2 by done.
        split_and!; [done|reflexivity|lia]. }
  split; [done|exact Hk| |].
  - intros p. change (st_tokens (set_tokens ts st)) with ts.
    destruct (tk_accounts (st_tokens st) !! p) as [x|] eqn:Hx.
    + destruct (Hk p x Hx) as (x' & Hx' & _ & Hm). by rewrite (held_Some _ _ _ Hx), (held_Some _ _ _ Hx').
    + rewrite Hf, !bool_decide_eq_false_2 by congruence. unfold held. rewrite Hx.
      assert (tk_accounts ts !! p = None) as ->; [|simpl; lia].
      case_bool_decide; [by rewrite Hc|]. destruct Hc as (a' & _ & ->).
      rewrite !lookup_insert_ne by congruence. done.
  - intros p Hno. simpl. assert (p ≠ from ∧ p ≠ to) as [? ?].
    { split; intros ->; apply Hno; eexists _, _; (split_and!; [apply list_elem_of_here..|simpl; auto]). }
    case_bool_decide; [by rewrite Hc|]. destruct Hc as (a' & _ & ->). by rewrite !lookup_insert_ne.
Qed.

Lemma create_flowed payer h wallet mint st ts :
  create_associated_token_account (st_tokens st) wallet mint = Some ts →
  flowed [mkTransaction payer h [CreateAta wallet mint]] st (set_tokens ts st).
Proof.
  intros (Hnone & _ & Hts)%create_ata_effect. split; [done| | |].
  - intros p a Hp. exists a. simpl. rewrite Hts, lookup_insert_ne by congruence.
    split_and!; [done|reflexivity|]. unfold flow, tx_flow. simpl. lia.
  - intros p. unfold held, flow, tx_flow. simpl. rewrite Hts.
    destruct (decide (p = get_associated_token_address wallet mint)) as [-> |Hne].
    + rewrite lookup_insert_eq, Hnone. simpl. lia.
    + rewrite lookup_insert_ne by done. lia.
  - intros p Hno. simpl. rewrite Hts, lookup_insert_ne; [done|]. intros <-. apply Hno.
    eexists _, _. split_and!; [apply list_elem_of_here..|done].
Qed.

Lemma run_ixs_flowed payer h ixs st st' :
  Forall token_ix ixs → run_ixs payer st ixs = Some st' → flowed [mkTransaction payer h ixs] st st'.
Proof.
  intros Htok. revert st. induction Htok as [|ix ixs Hix _ IH]; intros st; cbn [run_ixs].
  { intros [= <-]. destruct (flowed_nil st st eq_refl eq_refl) as [? Hk Hh ?].
    assert (∀ p, flow p [mkTransaction payer h []] = flow p []) as Hf by done.
    split; [done| | |done]; [intros p a; rewrite Hf; apply Hk|intros p; rewrite Hf; apply Hh]. }
  intros (st1 & Hr & Hrest)%bind_Some. apply (flowed_ixs payer h payer h [ix] ixs st st1); [|by apply IH].
  destruct ix as [ix|wallet mint|from to amount]; [done|..]; cbn [run_ix] in Hr;
    apply fmap_Some in Hr as (ts & Hts & ->); [by apply create_flowed|by apply transfer_flowed].
Qed.

Lemma execute_flowed tx st st' : token_tx tx → execute st tx = Some st' → flowed [tx] st st'.
Proof. destruct tx as [payer h ixs]. apply run_ixs_flowed. Qed.

(** ** The submissions of a run *)

#[export] Instance transaction_eq_dec : EqDecision Transaction.
Proof.
  refine (λ tx tx', cast_if (decide (signature_of tx = signature_of tx'))); [by apply (inj signature_of)|congruence].
Defined.

(** Nobody else acts. *)
Definition quiet_event (e : net_event) : Prop := match e with Others _ => False | _ => True end.
Definition quiet net : Prop := Forall (λ t, Forall quiet_event (ti_events t)) (net_future net).

(** From [net0], where nothing was in flight, to [net]: [new] has been submitted,
    and of it [landed] has taken effect, in this order. *)
Record since net0 net (new landed : list Transaction) : Prop := {
  si_sent : net_sent net = net_sent net0 ++ new;
  si_pending tx : tx ∈ net_pending net → tx ∈ new;
  si_landed tx : tx ∈ landed → tx ∈ new;
  si_once : NoDup landed;
  si_log tx : tx ∈ new → (signature_of tx, true) ∈ net_log net ↔ tx ∈ landed;
  si_logged : net_log net0 `prefix_of` net_log net;
  si_flow : flowed landed (net_ledger net0) (net_ledger net)
}.

(** Everything submitted since [net0] has succeeded and nothing is in flight. *)
Definition settled net0 net : Prop :=
  net_pending net = [] ∧
  ∀ tx, tx ∈ drop (length (net_sent net0)) (net_sent net) → (signature_of tx, true) ∈ net_log net.

Lemma since_settled net0 net new landed tx :
  since net0 net new landed → settled net0 net → tx ∈ new → tx ∈ landed.
Proof.
  intros Hsi [_ Hlog] Htx. apply (si_log _ _ _ _ Hsi); [done|]. apply Hlog.
  by rewrite (si_sent _ _ _ _ Hsi), drop_app_length.
Qed.

(** What an account has gained. *)
Definition gain net net' (p : Pubkey) : Z :=
  held (st_tokens (net_ledger net')) p - held (st_tokens (net_ledger net)) p.
Lemma since_gain net0 net new landed p : since net0 net new landed → gain net0 net p = flow p landed.
Proof. intros Hsi. unfold gain. rewrite (fl_held _ _ _ (si_flow _ _ _ _ Hsi)). lia. Qed.
Lemma gain_trans net1 net2 net3 p : gain net1 net3 p = gain net1 net2 p + gain net2 net3 p.
Proof. unfold gain. lia. Qed.

Lemma since_start net : net_pending net = [] → since net net [] [].
Proof.
  intros Hp. split; [by rewrite app_nil_r|by rewrite Hp|done|constructor| |done|by apply flowed_nil].
  by intros tx ?%elem_of_nil.
Qed.

Lemma since_ledger net0 net new landed net' :
  since net0 net new landed → net_sent net' = net_sent net → net_log net' = net_log net →
  (∀ tx, tx ∈ net_pending net' → tx ∈ net_pending net) →
  st_accounts (net_ledger net') = st_accounts (net_ledger net) →
  st_tokens (net_ledger net') = st_tokens (net_ledger net) → since net0 net' new landed.
Proof.
  intros [Hs Hp Hl Hnd Hlog Hpre Hf] Hsent Hlg Hpend Hacc Htok.
  split; [by rewrite Hsent|auto|done|done|by rewrite Hlg|by rewrite Hlg|].
  rewrite <- (app_nil_r landed). eapply flowed_app; [exact Hf|]. by apply flowed_nil.
Qed.

Lemma processed_log tx net ok : (signature_of tx, ok) ∈ net_log net → processed tx net.
Proof. intros Hin. unfold processed. exact (list_elem_of_fmap_2 fst _ _ Hin). Qed.

Lemma advance_clock_keeps clock st :
  st_accounts (advance_clock clock st) = st_accounts st ∧ st_tokens (advance_clock clock st) = st_tokens st.
Proof. unfold advance_clock. by case_bool_decide. Qed.

Lemma delete_pending net i tx : tx ∈ delete i (net_pending net) → tx ∈ net_pending net.
Proof. intros Hin. eapply elem_of_submseteq; [exact Hin|]. apply sublist_submseteq, sublist_delete. Qed.

(** A transaction in flight is processed. *)
Lemma since_process net0 net new landed tx pending :
  Forall token_tx new → since net0 net new landed → tx ∈ new → ¬ processed tx net →
  (∀ t, t ∈ pending → t ∈ net_pending net) →
  ∃ landed', since net0 (process_tx tx pending net) new landed' ∧ landed `prefix_of` landed'.
Proof.
  intros Htok Hsi Htx Hnew Hpend. pose proof Hsi as [Hs Hp Hl Hnd Hlog Hpre Hf].
  assert (tx ∉ landed) as Hnl.
  { intros Hin. apply Hnew. eapply processed_log. by apply Hlog. }
  unfold process_tx. destruct (execute (net_ledger net) tx) as [st|] eqn:Hex.
  - exists (landed ++ [tx]). split; [|by apply prefix_app_r]. split; simpl; [done|auto| | | |by apply prefix_app_r|].
    + intros t [?| -> %list_elem_of_singleton]%elem_of_app; auto.
    + apply NoDup_app. split_and!; [done| |apply NoDup_singleton]. intros t Ht -> %list_elem_of_singleton. done.
    + intros t Ht. rewrite !elem_of_app, Hlog, !list_elem_of_singleton by done.
      split; (intros [?|Heq]; [by left|right]); [|by subst].
      injection Heq as Heq. by apply (inj signature_of) in Heq.
    + eapply flowed_app; [exact Hf|]. apply execute_flowed; [|done]. by eapply Forall_forall in Htok.
  - exists landed. split; [|done]. split; simpl; [done|auto|done|done| |by apply prefix_app_r|done].
    intros t Ht. rewrite elem_of_app, Hlog by done. split; [|by left].
    intros [?|Heq%list_elem_of_singleton]; [done|]. congruence.
Qed.

Lemma since_event net0 net new landed e :
  Forall token_tx new → quiet_event e → since net0 net new landed →
  ∃ landed', since net0 (net_step net e) new landed' ∧ landed `prefix_of` landed'.
Proof.
  intros Htok He Hsi.
  destruct e as [i|i|h|clock|f]; simpl in He; [|exists landed; split; [|done]..|done]; cbn [net_step].
  - destruct (net_pending net !! i) as [tx|] eqn:Hi; [|exists landed; by split].
    assert (tx ∈ new) as Htx by (apply (si_pending _ _ _ _ Hsi); by eapply list_elem_of_lookup_2).
    case_decide; [|apply since_process; [done..|apply delete_pending]].
    exists landed. split; [|done]. eapply since_ledger; [exact Hsi|done..|apply delete_pending|done|done].
  - eapply since_ledger; [exact Hsi|done..|apply delete_pending|done|done].
  - by eapply since_ledger; [exact Hsi|..].
  - destruct (advance_clock_keeps clock (net_ledger net)). by eapply since_ledger; [exact Hsi|..].
Qed.

Lemma since_run net0 net new landed events :
  Forall token_tx new → Forall quiet_event events → since net0 net new landed →
  ∃ landed', since net0 (net_run net events) new landed' ∧ landed `prefix_of` landed'.
Proof.
  intros Htok Hq. revert net landed. induction Hq as [|e events He _ IH]; intros net landed Hsi.
  { exists landed. by split. }
  destruct (since_event net0 net new landed e Htok He Hsi) as (l1 & Hsi1 & Hp1).
  destruct (IH _ _ Hsi1) as (l2 & Hsi2 & Hp2). exists l2. split; [done|by etrans].
Qed.

Lemma net_step_future net e : net_future (net_step net e) = net_future net.
Proof.
  destruct e as [i|i|h|clock|f]; cbn [net_step]; try done.
  destruct (net_pending net !! i); [|done]. case_decide; [done|].
  unfold process_tx. by destruct (execute _ _).
Qed.
Lemma net_run_future net events : net_future (net_run net events) = net_future net.
Proof.
  revert net. induction events as [|e events IH]; intros net; [done|]. unfold net_run in *. simpl.
  by rewrite IH, net_step_future.
Qed.
Lemma pass_future net : net_future (pass net) = tail (net_future net).
Proof. apply net_run_future. Qed.

(** The log only grows. *)
Lemma elem_of_prefix {A} (x : A) l l' : x ∈ l → l `prefix_of` l' → x ∈ l'.
Proof. intros Hx [k ->]. apply elem_of_app. by left. Qed.
Lemma net_step_log net e : net_log net `prefix_of` net_log (net_step net e).
Proof.
  destruct e as [i|i|h|clock|f]; cbn [net_step]; try done.
  destruct (net_pending net !! i); [|done]. case_decide; [done|].
  unfold process_tx. destruct (execute _ _); by apply prefix_app_r.
Qed.
Lemma net_run_log net events : net_log net `prefix_of` net_log (net_run net events).
Proof.
  revert net. induction events as [|e events IH]; intros net; [done|]. unfold net_run in *. simpl.
  etrans; [apply net_step_log|apply IH].
Qed.
Lemma pass_log net : net_log net `prefix_of` net_log (pass net).
Proof. apply (net_run_log (set_future (tail (net_future net)) net)). Qed.

Lemma quiet_pass net : quiet net → quiet (pass net) ∧ Forall quiet_event (ti_events (next_tick net)).
Proof.
  unfold quiet, next_tick. rewrite pass_future.
  destruct (net_future net) as [|t future]; simpl; [by split|]. by intros [? ?]%Forall_cons.
Qed.

(** No answer to a submission is lost. *)
Definition reliable net : Prop := Forall (λ t, ti_answer t ≠ AnswerLost) (net_future net).

Lemma reliable_pass net : reliable net → reliable (pass net) ∧ ti_answer (next_tick net) ≠ AnswerLost.
Proof.
  unfold reliable, next_tick. rewrite pass_future.
  destruct (net_future net) as [|t future]; simpl; [by split|]. by intros [? ?]%Forall_cons.
Qed.

Lemma since_pass net0 net new landed :
  Forall token_tx new → quiet net → since net0 net new landed →
  quiet (pass net) ∧ ∃ landed', since net0 (pass net) new landed'.
Proof.
  intros Htok [Hq He]%quiet_pass Hsi. split; [done|].
  destruct (since_run net0 (set_future (tail (net_future net)) net) new landed (ti_events (next_tick net)))
    as (l & ? & _); [done|done| |eauto]. by eapply since_ledger; [exact Hsi|..].
Qed.

Lemma preflight_true tx net :
  preflight tx net = true ↔ is_Some (execute (net_ledger net) tx) ∧ ¬ processed tx net.
Proof. apply bool_decide_eq_true. Qed.

Lemma since_submit net0 net new landed tx :
  since net0 net new landed → preflight tx net = true → since net0 (submit tx net) (new ++ [tx]) landed.
Proof.
  intros [Hs Hp Hl Hnd Hlog Hlg Hf] [_ Hnew]%preflight_true. split; simpl; [| | |done| |done|done].
  - rewrite Hs. by rewrite app_assoc.
  - intros t [?| -> %list_elem_of_singleton]%elem_of_app; set_solver.
  - intros t ?. apply elem_of_app. auto.
  - intros t [Ht| -> %list_elem_of_singleton]%elem_of_app; [auto|].
    split; [by intros ?%processed_log|]. intros Hin. destruct Hnew. eapply processed_log. by apply Hlog; [apply Hl|].
Qed.

Lemma log_status_succeeded net s : log_status net s = SigSucceeded ↔ (s, true) ∈ net_log net.
Proof. unfold log_status. repeat case_decide; naive_solver. Qed.

(** ** The calls *)
Lemma call_run {A} (k : rpc_answer → io Network A) net : call k net = k (ti_answer (next_tick net)) (pass net).
Proof. done. Qed.

Lemma fetch_run {A} (f : State → option A) net net' r :
  fetch f net = (net', r) →
  net' = pass net ∧ (r = Ok None ∨ r = Ok (f (net_ledger (pass net))) ∧ ti_answer (next_tick net) = Answered).
Proof.
  unfold fetch. rewrite call_run. destruct (ti_answer _); unfold ask, mret, io_ret; intros [= <- <-]; auto.
Qed.
Lemma fetch_unwrap_run {A} (f : State → option A) net net' r :
  fetch_unwrap f net = (net', r) →
  net' = pass net ∧ (r = Err CliPanic ∨ ∃ a, f (net_ledger (pass net)) = Some a ∧ r = Ok a).
Proof.
  unfold fetch_unwrap. intros [(o & net1 & Hf & Ha)|(e & Hf & ->)]%io_bind_run;
    apply fetch_run in Hf as [-> Hr]; [|by destruct Hr as [?|[? _]]].
  unfold ask in Ha. injection Ha as <- <-. split; [done|].
  destruct Hr as [[= ->]|[[= ->] _]]; [by left|]. destruct (f _) as [a|]; [right; eauto|by left].
Qed.
Lemma latest_blockhash_run net net' r :
  latest_blockhash net = (net', r) → net' = pass net ∧ (r = Err CliPanic ∨ ∃ h, r = Ok h).
Proof.
  unfold latest_blockhash. rewrite call_run. destruct (ti_answer _); unfold ask; intros [= <- <-]; eauto.
Qed.
Lemma send_transaction_run tx net net' r :
  send_transaction tx net = (net', r) →
  net' = pass net ∧ r = Ok None ∨
  net' = submit tx (pass net) ∧ preflight tx (pass net) = true ∧
    (r = Ok (Some (signature_of tx)) ∨ r = Ok None ∧ ti_answer (next_tick net) = AnswerLost).
Proof.
  unfold send_transaction. rewrite call_run.
  destruct (ti_answer (next_tick net)), (preflight tx (pass net)) eqn:Hp; intros [= <- <-]; eauto 10.
Qed.
End flows.

(** ** What a command can do to the ledger

    If every transaction submitted ([Q]), time and everybody else move the ledger
    within [R] from states of [I], so does the command, whatever becomes of its
    transactions and answers. *)
Section keeps.
Context `{Hasher} `{AddressDerivation} `{TokenProgram} `{AtaProgram} `{SignatureScheme}.
Context (R : relation State) `{!PreOrder R} (I : State → Prop) (Q : Transaction → Prop).
Context (HI : ∀ st st', I st → R st st' → I st').
Context (Hexec : ∀ tx st st', Q tx → I st → execute st tx = Some st' → R st st').
Context (Htime : ∀ clock st, I st → R st (advance_clock clock st)).
Implicit Types (net : Network) (tx : Transaction).

Definition event_ok (e : net_event) : Prop :=
  match e with Others f => ∀ st, I st → R st (f st) | _ => True end.

Record net_ok net : Prop := {
  no_ledger : I (net_ledger net);
  no_pending : Forall Q (net_pending net);
  no_future : Forall (λ t, Forall event_ok (ti_events t)) (net_future net)
}.

Definition keeps {A : Type} (m : io Network A) : Prop :=
  ∀ net net' r, net_ok net → m net = (net', r) → R (net_ledger net) (net_ledger net') ∧ net_ok net'.

Lemma keeps_ask {A} (f : Network → result cli_failure A) : keeps (ask f).
Proof. intros net net' r Hok [= <- _]. by split. Qed.
Lemma keeps_ret {A} (a : A) : keeps (mret a).
Proof. intros net net' r Hok [= <- _]. by split. Qed.
Lemma keeps_bind {A B} (m : io Network A) (f : A → io Network B) :
  keeps m → (∀ a, keeps (f a)) → keeps (m ≫= f).
Proof.
  intros Hm Hf net net' r Hok [(a & net1 & Hr & Hr')|(e & Hr & _)]%io_bind_run; [|by eapply Hm].
  destruct (Hm _ _ _ Hok Hr) as [HR1 Hok1]. destruct (Hf a _ _ _ Hok1 Hr') as [HR2 Hok2].
  split; [by etrans|done].
Qed.
(** A value computed without the network. *)
Lemma keeps_bind_value {A B} (v : result cli_failure A) (f : A → io Network B) :
  (∀ a, v = Ok a → keeps (f a)) → keeps (a ← ask (λ _, v); f a).
Proof.
  intros Hf net net' r Hok [(a & net1 & [= <- Hv] & Hr)|(e & [= <- _] & _)]%io_bind_run; [|by split].
  by eapply Hf.
Qed.
Lemma keeps_bind_post {A B} (m : io Network A) (f : A → io Network B) P :
  keeps m → returns m P → (∀ a, P a → keeps (f a)) → keeps (m ≫= f).
Proof.
  intros Hm HP Hf net net' r Hok [(a & net1 & Hr & Hr')|(e & Hr & _)]%io_bind_run; [|by eapply Hm].
  destruct (Hm _ _ _ Hok Hr) as [HR1 Hok1]. destruct (Hf a (HP _ _ _ Hr) _ _ _ Hok1 Hr') as [HR2 Hok2].
  split; [by etrans|done].
Qed.
Lemma keeps_fold_post {A B} (f : B → A → io Network B) b l P :
  P b → (∀ b x, P b → keeps (f b x) ∧ returns (f b x) P) → keeps (for_fold f b l).
Proof.
  intros Hb Hf. revert b Hb. induction l as [|x l IH]; intros b Hb; cbn [for_fold]; [apply keeps_ret|].
  destruct (Hf b x Hb) as [Hk HP]. by apply (keeps_bind_post _ _ P).
Qed.
Lemma keeps_each {A} (f : A → io Network unit) l : (∀ x, x ∈ l → keeps (f x)) → keeps (for_each f l).
Proof.
  induction l as [|x l IH]; intros Hf; cbn [for_each]; [apply keeps_ret|].
  apply keeps_bind; [apply Hf, list_elem_of_here|]. intros _. apply IH. intros y Hy. apply Hf. by right.
Qed.
Lemma keeps_fold {A B} (f : B → A → io Network B) b l :
  (∀ b x, x ∈ l → keeps (f b x)) → keeps (for_fold f b l).
Proof.
  revert b. induction l as [|x l IH]; intros b Hf; cbn [for_fold]; [apply keeps_ret|].
  apply keeps_bind; [apply Hf, list_elem_of_here|]. intros b'. apply IH. intros b'' y Hy. apply Hf. by right.
Qed.

Lemma net_ok_move net st pending sent log h :
  net_ok net → R (net_ledger net) st → Forall Q pending →
  R (net_ledger net) st ∧ net_ok (mkNetwork st h pending sent log (net_future net)).
Proof. intros [Hl Hp Hf] HR HQ. split; [done|]. split; [by eapply HI|done|done]. Qed.

Lemma delete_Forall i (l : list Transaction) : Forall Q l → Forall Q (delete i l).
Proof.
  intros Hl. apply Forall_forall. intros tx Htx. eapply Forall_forall in Hl; [exact Hl|].
  eapply elem_of_submseteq; [exact Htx|]. apply sublist_submseteq, sublist_delete.
Qed.

Lemma process_tx_ok tx pending net :
  Q tx → net_ok net → Forall Q pending →
  R (net_ledger net) (net_ledger (process_tx tx pending net)) ∧ net_ok (process_tx tx pending net).
Proof.
  intros HQ Hok Hp. unfold process_tx. destruct (execute (net_ledger net) tx) as [st|] eqn:Hex;
    apply net_ok_move; try done. eapply Hexec; [done|apply Hok|done].
Qed.

Lemma net_step_ok net e :
  net_ok net → event_ok e → R (net_ledger net) (net_ledger (net_step net e)) ∧ net_ok (net_step net e).
Proof.
  intros Hok He. pose proof Hok as [Hl Hp Hf].
  destruct e as [i|i|h|clock|f]; cbn [net_step].
  - destruct (net_pending net !! i) as [tx|] eqn:Hi; [|by split]. case_decide.
    + apply net_ok_move; [done|done|by apply delete_Forall].
    + apply process_tx_ok; [by eapply Forall_lookup_1|done|by apply delete_Forall].
  - apply net_ok_move; [done|done|by apply delete_Forall].
  - by apply net_ok_move.
  - apply net_ok_move; [done|by apply Htime|done].
  - apply net_ok_move; [done|by apply He|done].
Qed.
Lemma net_run_ok net events :
  net_ok net → Forall event_ok events →
  R (net_ledger net) (net_ledger (net_run net events)) ∧ net_ok (net_run net events).
Proof.
  intros Hok Hev. revert net Hok. induction Hev as [|e events He _ IH]; intros net Hok; [by split|].
  destruct (net_step_ok net e Hok He) as [HR1 Hok1]. destruct (IH _ Hok1) as [HR2 Hok2].
  split; [by etrans|done].
Qed.
Lemma pass_ok net : net_ok net → R (net_ledger net) (net_ledger (pass net)) ∧ net_ok (pass net).
Proof.
  intros [Hl Hp Hf].
  assert (net_ok (set_future (tail (net_future net)) net) ∧ Forall event_ok (ti_events (next_tick net)))
    as [Hok Hev].
  { unfold next_tick. destruct (net_future net) as [|t future]; simpl in *; [by repeat split|].
    apply Forall_cons in Hf as [? ?]. by repeat split. }
  exact (net_run_ok _ _ Hok Hev).
Qed.

Lemma keeps_call {A} (k : rpc_answer → io Network A) : (∀ answer, keeps (k answer)) → keeps (call k).
Proof.
  intros Hk net net' r Hok Hr. destruct (pass_ok net Hok) as [HR1 Hok1].
  destruct (Hk _ _ _ _ Hok1 Hr) as [HR2 Hok2]. split; [by etrans|done].
Qed.
Lemma keeps_fetch {A} (f : State → option A) : keeps (fetch f).
Proof. apply keeps_call. intros []; [apply keeps_ask|apply keeps_ret..]. Qed.
Lemma keeps_fetch_unwrap {A} (f : State → option A) : keeps (fetch_unwrap f).
Proof. apply keeps_bind; [apply keeps_fetch|intros; apply keeps_ask]. Qed.
Lemma keeps_blockhash : keeps latest_blockhash.
Proof. apply keeps_call. intros []; apply keeps_ask. Qed.
Lemma keeps_status signature : keeps (get_signature_status signature).
Proof.
  unfold get_signature_status. destruct (signature_readable _); [|apply keeps_ask].
  apply keeps_call. intros []; [apply keeps_ask|apply keeps_ret..].
Qed.

Lemma submit_ok tx net : Q tx → net_ok net → net_ok (submit tx net).
Proof.
  intros HQ [Hl Hp Hf]. split; simpl; [done| |done]. apply Forall_app. split; [done|by constructor].
Qed.
Lemma keeps_send tx : Q tx → keeps (send_transaction tx).
Proof.
  intros HQ. apply keeps_call. intros answer net net' r Hok.
  destruct answer, (preflight tx net); intros [= <- _]; split; try done; by apply submit_ok.
Qed.
Lemma keeps_confirm tx : Q tx → keeps (send_and_confirm_transaction tx).
Proof.
  intros HQ. apply keeps_call. intros answer net net' r Hok. pose proof Hok as [Hl Hp Hf].
  destruct answer, (preflight tx net); intros [= <- _]; try (by split); [|split; [done|by apply submit_ok]].
  destruct (process_tx_ok tx (net_pending net) (mkNetwork (net_ledger net) (net_blockhash net) (net_pending net)
    (net_sent net ++ [tx]) (net_log net) (net_future net))) as [HR' Hok']; [done|by split|done|].
  split; [exact HR'|exact Hok'].
Qed.
End keeps.

(** ** Steps of the ledger *)
Section steps.
Context `{Hasher} `{AddressDerivation} `{TokenProgram} `{!TokenProgramSpec}.
Context `{AtaProgram} `{!AtaProgramSpec} `{SignatureScheme}.
Implicit Types (st : State) (tx : Transaction).

(** A transfer by a key that is not a distributor's is a foreign transaction. *)
Lemma transfer_step allowed st from to authority amount ts :
  state_ok st → ¬ is_distributor st authority → 0 ≤ amount →
  token_transfer (st_tokens st) from to authority amount = Some ts → step allowed st (set_tokens ts st).
Proof.
  intros Hok Hnd Hpos Ht. apply step_tokens.
  destruct (token_transfer_effect _ _ _ _ _ _ Ht) as (x & y & Hx & Hy & _ & Hsp & Hle & _ & Hc).
  assert (∀ p a, tk_accounts (st_tokens st) !! p = Some a → 0 ≤ ta_amount a) as Hnn
    by apply (ok_tokens st Hok).
  split.
  - intros p a Ha Hdist. destruct (decide (p = from)) as [-> |Hne].
    + assert (x = a) as -> by congruence. case_bool_decide.
      { rewrite Hc. exists a. split_and!; [done..|]. intros _. reflexivity. }
      destruct Hc as (a' & Hd & ->). apply debited_fields in Hd as (? & ? & _).
      exists a'. rewrite lookup_insert_ne, lookup_insert_eq by done. split_and!; [done..|].
      intros Hnodel. destruct Hsp as [Ho|Hdel]; [|congruence]. rewrite Ho in Hdist. done.
    + destruct (token_transfer_lookup _ _ _ _ _ _ p a Hpos Ht Ha Hne) as (a' & Ha' & Hk & _).
      exists a'. pose proof Hk as (? & ? & _). by split_and!.
  - intros p a' Ha'. case_bool_decide; [rewrite Hc in Ha'; eauto|].
    destruct Hc as (x' & Hd & Hts). rewrite Hts in Ha'. apply debited_fields in Hd as (_ & _ & Hax & _).
    apply lookup_insert_Some in Ha' as [[_ <-]|[_ [[_ <-]|[_ ?]]%lookup_insert_Some]]; [|lia|eauto].
    simpl. specialize (Hnn _ _ Hy). lia.
Qed.

(** So is the creation of an associated account. *)
Lemma create_ata_step allowed st wallet mint ts :
  state_ok st → create_associated_token_account (st_tokens st) wallet mint = Some ts →
  step allowed st (set_tokens ts st).
Proof.
  intros Hok (Hnone & _ & Hts)%create_ata_effect. apply step_tokens. split.
  - intros p a Ha _. exists a. split_and!; [|done..]. rewrite Hts, lookup_insert_ne by congruence. done.
  - intros p a Ha. rewrite Hts in Ha.
    apply lookup_insert_Some in Ha as [[_ <-]|[_ ?]]; [done|by apply (ok_tokens st Hok p)].
Qed.

Lemma clock_step allowed clock st : steps allowed st (advance_clock clock st).
Proof.
  unfold advance_clock. case_bool_decide as Hc; [|apply rtc_refl]. destruct Hc as (? & ? & ? & ?).
  destruct clock as [slot t]. by apply rtc_once, step_clock.
Qed.

(** A transaction of token instructions by an ordinary key. *)
Definition paying_ix (ix : TxIx) : Prop :=
  match ix with ProgramIx _ => False | CreateAta _ _ => True | TransferTo _ _ amount => 0 ≤ amount end.

Lemma paying_steps allowed tx st st' :
  Forall paying_ix (tx_ixs tx) → state_ok st → ¬ is_distributor st (tx_payer tx) →
  execute st tx = Some st' → steps allowed st st' ∧ st_accounts st' = st_accounts st.
Proof.
  unfold execute. intros Hix. revert st. induction Hix as [|ix ixs Hix _ IH]; intros st Hok Hnd; cbn [run_ixs].
  { intros [= <-]. by split. }
  intros (st1 & Hr & Hrest)%bind_Some.
  assert (step allowed st st1 ∧ st_accounts st1 = st_accounts st) as [Hs Ha].
  { destruct ix as [ix|wallet mint|from to amount]; [done|..]; cbn [run_ix] in Hr;
      apply fmap_Some in Hr as (ts & Hts & ->); (split; [|done]);
      [by eapply create_ata_step|by eapply transfer_step]. }
  destruct (IH st1) as [Hs' Ha'].
  - by eapply step_ok.
  - intros [d Hd]. apply Hnd. exists d. by rewrite <- Ha.
  - done.
  - split; [by eapply rtc_l|congruence].
Qed.
End steps.
