(* ===== verification/Signatures.v ===== *)
(** * A signature scheme

    A concrete scheme that meets the interface [SignatureScheme]: the text of a
    transaction is its binary encoding.  The examples are evaluated with it. *)
From S2P Require Import Prelude Machine Hashing TreeNode Airdrop.
From S2P Require Import ProgramError ClaimStatus Solana Token State Handlers Program Execution Network.

(** The accounts, hashes and numbers of an instruction. *)
Definition ix_code (ix : Instruction) : Z * list Bytes32 * list Z :=
  match ix with
  | INewDistributor a p =>
      (0, [nd_distributor a; nd_clawback_receiver a; nd_mint a; nd_token_vault a; nd_admin a; nda_root p],
       [nda_version p; nda_max_total_claim p; nda_max_num_nodes p; nda_start_vesting_ts p; nda_end_vesting_ts p;
        nda_clawback_start_ts p; nda_enable_slot p; Z.b2z (nda_closable p)])
  | ICloseDistributor a =>
      (1, [cd_distributor a; cd_token_vault a; cd_admin a; cd_destination_token_account a], [])
  | ICloseClaimStatus a => (2, [cc_claim_status a; cc_claimant a; cc_admin a; cc_distributor a], [])
  | ISetEnableSlot a slot => (3, [se_distributor a; se_admin a], [slot])
  | ISetRoot a new old nodes max =>
      (4, [sr_distributor a; sr_token_vault a; sr_mint a; sr_admin a; new; old], [nodes; max])
  | INewClaim a u l proof =>
      (5, nc_distributor a :: nc_claim_status a :: nc_from a :: nc_to a :: nc_claimant a :: proof, [u; l])
  | IClaimLocked a => (6, [cl_distributor a; cl_claim_status a; cl_from a; cl_to a; cl_claimant a], [])
  | IClawback a => (7, [cb_distributor a; cb_from a; cb_to a; cb_claimant a], [])
  | ISetClawbackReceiver a => (8, [sv_distributor a; sv_new_clawback_account a; sv_admin a], [])
  | ISetClawbackStartTs a ts => (9, [sc_distributor a; sc_admin a], [ts])
  | ISetAdmin a => (10, [sa_distributor a; sa_admin a; sa_new_admin a], [])
  end.

#[local] Instance ix_code_inj : Inj (=) (=) ix_code.
Proof.
  intros x y Heq. destruct x as [a p|a|a|a s|a r o n m|a u l pr|a|a|a|a t|a],
    y as [a' p'|a'|a'|a' s'|a' r' o' n' m'|a' u' l' pr'|a'|a'|a'|a' t'|a'];
    try discriminate Heq; destruct a, a'; [destruct p as [???????? closable], p' as [???????? closable']|..];
    cbn in Heq; injection Heq as Heq; simplify_eq; try done.
  by destruct closable, closable'.
Qed.

(** Program instructions, and those of the token and associated-account programs. *)
Definition txix_code (ix : TxIx) : Z * list Bytes32 * list Z :=
  match ix with
  | ProgramIx ix => ix_code ix
  | CreateAta wallet mint => (11, [wallet; mint], [])
  | TransferTo from to amount => (12, [from; to], [amount])
  end.

#[local] Instance txix_code_inj : Inj (=) (=) txix_code.
Proof.
  intros [x|w m|f t a] [y|w' m'|f' t' a']; cbn [txix_code]; intros Heq;
    [f_equal; by apply (inj ix_code)|..]; try (injection Heq as; congruence);
    exfalso; (destruct x || destruct y); discriminate Heq.
Qed.

Definition tx_code (tx : Transaction) : Pubkey * Z * list (Z * list Bytes32 * list Z) :=
  (tx_payer tx, tx_blockhash tx, map txix_code (tx_ixs tx)).

#[local] Instance tx_code_inj : Inj (=) (=) tx_code.
Proof.
  intros [p h l] [p' h' l'] Heq. unfold tx_code in Heq. simpl in Heq. injection Heq as -> -> Hl. f_equal.
  by apply (inj (fmap txix_code)) in Hl.
Qed.

(** Binary digits. *)
Fixpoint binary (p : positive) : string :=
  match p with
  | xH => EmptyString
  | xO p => ("0" ++ binary p)%string
  | xI p => ("1" ++ binary p)%string
  end.
#[local] Instance binary_inj : Inj (=) (=) binary.
Proof. intros p. induction p; intros []; cbn; intros [=]; f_equal; auto. Qed.

#[local] Instance reference_signatures : SignatureScheme := {
  signature_of tx := binary (encode (tx_code tx));
  signature_readable _ := true
}.
#[local] Instance reference_signatures_spec : SignatureSchemeSpec.
Proof.
  split; [|done]. intros tx tx' Heq. apply (inj tx_code), (inj encode), (inj binary). exact Heq.
Qed.
