(* ===== verification/Deploy.v ===== *)
(** * Deploying and funding from the command line
    (src/cli/src/bin: cli.rs and instructions/process_new_distributor.rs,
    process_fund_all.rs, process_verify.rs)

    The commands that put a distributor on chain for a tree, check it, fund its
    vault and verify it.  A transaction the tool waits for is executed on the
    ledger, so deployment and verification are functions of the ledger (with
    [skip_verify] the deployment does not wait: the function then gives the ledger
    once its transactions are processed; see [Tool] for the run itself); funding
    only submits its transfers, so it is a function of the [Network].  [unwrap],
    [expect], [assert_eq!] and [panic!] are [CliPanic]. *)
From S2P Require Import Prelude Machine Hashing MerkleTree MerkleProof TreeNode Airdrop.
From S2P Require Import ProgramError ClaimStatus Solana Token State Handlers Program Network.

(** The options of the tool that the commands read; the payer is the key of the
    keypair file. *)
Record Args := mkArgs {
  arg_mint : Pubkey;
  arg_program_id : Pubkey;
  arg_payer : Pubkey
}.

(** [NewDistributorArgs] of the tool. *)
Record DeployArgs := mkDeployArgs {
  da_start_vesting_ts : Z;
  da_end_vesting_ts : Z;
  da_clawback_start_ts : Z;
  da_enable_slot : Z;
  da_airdrop_version : option Z;
  da_closable : bool;
  da_skip_verify : bool
}.

Record VerifyArgs := mkVerifyArgs {
  va_clawback_start_ts : Z;
  va_clawback_receiver_owner : Pubkey;
  va_enable_slot : Z;
  va_admin : Pubkey;
  va_closable : bool;
  va_skip_verify_amount : bool
}.

Inductive onchain_mismatch :=
| RootMismatch | MaxTotalClaimMismatch | MaxNumNodesMismatch | StartTsMismatch | EndTsMismatch
| ClawbackStartTsMismatch | EnableSlotMismatch | ClosableMismatch | ClawbackReceiverMismatch
| AdminMismatch.

(** An account whose data is not a distributor passes. *)
Definition check_distributor_onchain_matches (account : ProgramAccount)
    (merkle_tree : AirdropMerkleTree) (args : DeployArgs) (pubkey : Pubkey) (tokens : TokenState)
  : result onchain_mismatch unit :=
  match account with
  | DistributorAcc d =>
      _ ← require (bool_decide (md_root d = at_merkle_root merkle_tree)) RootMismatch;
      _ ← require (md_max_total_claim d =? at_max_total_claim merkle_tree) MaxTotalClaimMismatch;
      _ ← require (md_max_num_nodes d =? at_max_num_nodes merkle_tree) MaxNumNodesMismatch;
      _ ← require (md_start_ts d =? da_start_vesting_ts args) StartTsMismatch;
      _ ← require (md_end_ts d =? da_end_vesting_ts args) EndTsMismatch;
      _ ← require (md_clawback_start_ts d =? da_clawback_start_ts args) ClawbackStartTsMismatch;
      _ ← require (md_enable_slot d =? da_enable_slot args) EnableSlotMismatch;
      _ ← require (Bool.eqb (md_closable d) (da_closable args)) ClosableMismatch;
      receiver ← ok_or (tk_accounts tokens !! md_clawback_receiver d) ClawbackReceiverMismatch;
      _ ← require (bool_decide (ta_owner receiver = md_admin d)) ClawbackReceiverMismatch;
      require (bool_decide (md_admin d = pubkey)) AdminMismatch
  | _ => Ok tt
  end.

Section deploy.
Context `{Hasher} `{AddressDerivation} `{TokenProgram} `{AtaProgram} `{SignatureScheme}.
Implicit Types (st : State) (args : Args) (tree : AirdropMerkleTree).

Definition distributor_of args tree : Pubkey :=
  (get_merkle_distributor_pda (arg_program_id args) (arg_mint args) (at_airdrop_version tree)).1.
Definition vault_address args tree : Pubkey :=
  get_associated_token_address (distributor_of args tree) (arg_mint args).

(** The associated account of [wallet] is created unless it exists. *)
Definition ensure_ata (ts : TokenState) (wallet mint : Pubkey) : result cli_failure TokenState :=
  match tk_accounts ts !! get_associated_token_address wallet mint with
  | Some _ => Ok ts
  | None => expect (create_associated_token_account ts wallet mint)
  end.

(** [get_or_create_ata] for the payer sends its own transaction. *)
Definition get_or_create_ata (st : State) (mint user : Pubkey) : result cli_failure (Pubkey * State) :=
  ts ← ensure_ata (st_tokens st) user mint;
  Ok (get_associated_token_address user mint, set_tokens ts st).

Definition new_distributor_ix args (da : DeployArgs) tree (clawback_receiver : Pubkey) : Instruction :=
  INewDistributor
    (mkNewDistributor (distributor_of args tree) clawback_receiver (arg_mint args)
       (vault_address args tree) (arg_payer args))
    (mkNewDistributorArgs (at_airdrop_version tree) (at_merkle_root tree) (at_max_total_claim tree)
       (at_max_num_nodes tree) (da_start_vesting_ts da) (da_end_vesting_ts da)
       (da_clawback_start_ts da) (da_enable_slot da) (da_closable da)).

(** One tree: an existing account is checked; otherwise the receiver's account is
    made, then one transaction makes the vault if it is missing and creates the
    distributor, which is read back and checked unless [skip_verify] is set.
    The vault's existence is looked up before the receiver's account is made. *)
Definition deploy_tree args (da : DeployArgs) st tree : result cli_failure State :=
  let k := distributor_of args tree in
  match st_accounts st !! k with
  | Some account =>
      _ ← unwrap (check_distributor_onchain_matches account tree da (arg_payer args) (st_tokens st));
      Ok st
  | None =>
      let vault_missing := bool_decide (tk_accounts (st_tokens st) !! vault_address args tree = None) in
      '(clawback_receiver, st1) ← get_or_create_ata st (arg_mint args) (arg_payer args);
      ts ← (if vault_missing
            then expect (create_associated_token_account (st_tokens st1) k (arg_mint args))
            else Ok (st_tokens st1));
      st2 ← unwrap (process_instruction {[ arg_payer args ]} (set_tokens ts st1)
                      (new_distributor_ix args da tree clawback_receiver));
      _ ← (if da_skip_verify da then Ok tt
           else match st_accounts st2 !! k with
                | Some account =>
                    unwrap (check_distributor_onchain_matches account tree da (arg_payer args)
                              (st_tokens st2))
                | None => Ok tt
                end);
      Ok st2
  end.

(** [for file in paths], over the trees that could be read.  With a version given
    the other trees are skipped and the loop ends after creating that one. *)
Fixpoint process_new_distributor args (da : DeployArgs) st (trees : list AirdropMerkleTree)
  : result cli_failure State :=
  match trees with
  | [] => Ok st
  | tree :: trees =>
      let existed := bool_decide (is_Some (st_accounts st !! distributor_of args tree)) in
      match da_airdrop_version da with
      | Some version =>
          if version =? at_airdrop_version tree then
            st' ← deploy_tree args da st tree;
            if existed then process_new_distributor args da st' trees else Ok st'
          else process_new_distributor args da st trees
      | None =>
          st' ← deploy_tree args da st tree;
          process_new_distributor args da st' trees
      end
  end.

(** ** Funding *)
Definition source_vault args : Pubkey :=
  get_associated_token_address (arg_payer args) (arg_mint args).

Definition fund_tx args tree (fund_amount blockhash : Z) : Transaction :=
  mkTransaction (arg_payer args) blockhash
    [TransferTo (source_vault args) (vault_address args tree) fund_amount].

(** One tree of [process_fund_all]: a transfer of what the vault lacks of what can
    still be claimed is submitted.  The client reads the ledger as finalized and
    does not wait for the transfer. *)
Definition fund_tree args tree : io Network unit :=
  let k := distributor_of args tree in
  let token_vault := vault_address args tree in
  distributor_state ← fetch_unwrap (λ st, get_distributor st k);
  if md_clawed_back distributor_state then mret tt
  else
    target ← ask (λ _, expect (checked_sub_u64 (at_max_total_claim tree)
                                 (md_total_amount_claimed distributor_state)));
    token_vault_state ← fetch_unwrap (λ st, tk_accounts (st_tokens st) !! token_vault);
    if target <=? ta_amount token_vault_state then mret tt
    else
      fund_amount ← ask (λ _, expect (checked_sub_u64 target (ta_amount token_vault_state)));
      blockhash ← latest_blockhash;
      signature ← send_transaction (fund_tx args tree fund_amount blockhash);
      ask (λ _, match signature with Some _ => Ok tt | None => Err CliPanic end).

Definition process_fund_all args (trees : list AirdropMerkleTree) : io Network unit :=
  for_each (fund_tree args) trees.

(** ** Verification *)
Definition verify_tree args (va : VerifyArgs) st tree : result cli_failure unit :=
  let k := distributor_of args tree in
  _ ← (if va_skip_verify_amount va then Ok tt
       else
         vault ← expect (tk_accounts (st_tokens st) !! vault_address args tree);
         require (ta_amount vault =? at_max_total_claim tree) CliPanic);
  d ← expect (get_distributor st k);
  _ ← require (bool_decide (md_root d = at_merkle_root tree)) CliPanic;
  _ ← require (md_clawback_start_ts d =? va_clawback_start_ts va) CliPanic;
  _ ← require (Bool.eqb (md_closable d) (va_closable va)) CliPanic;
  _ ← require (bool_decide (md_admin d = va_admin va)) CliPanic;
  _ ← require (md_enable_slot d =? va_enable_slot va) CliPanic;
  require (bool_decide (md_clawback_receiver d =
             get_associated_token_address (va_clawback_receiver_owner va) (arg_mint args))) CliPanic.

Definition process_verify args (va : VerifyArgs) st (trees : list AirdropMerkleTree)
  : result cli_failure unit :=
  try_fold (λ _ tree, verify_tree args va st tree) tt trees.

(** ** Totals *)

(** [get_total_claim] over the versions [0..=num_tree]: nodes, claimed, forgone. *)
Definition get_total_claim args st (num_tree : nat) : result cli_failure (Z * Z * Z) :=
  try_fold (λ '(n, c, f) i,
      d ← expect (get_distributor st
                    (get_merkle_distributor_pda (arg_program_id args) (arg_mint args) (Z.of_nat i)).1);
      n' ← expect (checked_add_u64 n (md_num_nodes_claimed d));
      c' ← expect (checked_add_u64 c (md_total_amount_claimed d));
      f' ← expect (checked_add_u64 f (md_total_amount_forgone d));
      Ok (n', c', f'))
    (0, 0, 0) (seq 0 (S num_tree)).
End deploy.
