(* ===== verification/KvCheck.v ===== *)
(** * The check of the exported proofs against the server
    (src/cli/src/bin/instructions/verify_kv_proof.rs)

    [verify_kv_proof] samples rows of the allocation list and compares what the
    key-value store serves (the exported files) with what the server serves (the
    loaded trees).  JSON is serde's: the parameter [Serde] with the documented
    behaviour of the derived implementations on the two structs. *)
From S2P Require Import Prelude Machine Hashing Sha256 MerkleTree MerkleProof TreeNode Airdrop.
From S2P Require Import ProgramError ClaimStatus Solana Token State Handlers Program Execution.
From S2P Require Import Scenario Safety Ledger Schedule EndToEnd Layout Api ApiTheorems Routes Startup.
From S2P Require Import Sharding ShardingTheorems Network Deploy.
#[local] Open Scope Z_scope.

(** ** JSON of the two structs *)
Class Serde := {
  Value : Type;
  user_proof_to_value : UserProof → Value;
  user_proof_from_value : Value → option UserProof;
  kv_proof_to_value : KvProof → Value
}.

(** Fields are read by name; [None] is written as [null], which is not a [u64]. *)
Class SerdeSpec `{Serde} : Prop := {
  user_proof_value p : is_u64 (up_amount p) → is_u64 (up_locked_amount p) →
    user_proof_from_value (user_proof_to_value p) = Some p;
  kv_proof_value v : is_u64 (kv_amount v) → is_u64 (default 0 (kv_locked_amount v)) →
    user_proof_from_value (kv_proof_to_value v) =
    l ← kv_locked_amount v; Some (mkUserProof (kv_merkle_tree v) (kv_amount v) l (kv_proof v))
}.

(** *** An instance *)
Inductive Json :=
| JNull
| JBool (b : bool)
| JNum (z : Z)
| JFloat (text : string)
| JStr (s : string)
| JArr (l : list Json)
| JObj (l : list (string * Json)).

Definition json_field (name : string) (j : Json) : option Json :=
  match j with
  | JObj l => snd <$> find (λ p, String.eqb p.1 name) l
  | _ => None
  end.
Definition json_u64 (j : Json) : option Z :=
  match j with JNum z => if (0 <=? z) && (z <=? U64_MAX) then Some z else None | _ => None end.
Definition json_str (j : Json) : option string := match j with JStr s => Some s | _ => None end.
Definition json_byte (j : Json) : option byte :=
  match j with JNum z => if (0 <=? z) && (z <? 256) then Some (byte_of_Z z) else None | _ => None end.
Definition json_hash (j : Json) : option Hash :=
  match j with
  | JArr l => bs ← mapM json_byte l; if (length bs =? 32)%nat then Some (b32_of_list bs) else None
  | _ => None
  end.
Definition json_proof (j : Json) : option (list Hash) :=
  match j with JArr l => mapM json_hash l | _ => None end.

Definition hash_json (h : Hash) : Json := JArr (map (λ b, JNum (byte_to_Z b)) (b32_list h)).
Definition proof_json (l : list Hash) : Json := JArr (map hash_json l).

Definition json_serde : Serde := {|
  Value := Json;
  user_proof_to_value p :=
    JObj [("merkle_tree", JStr (up_merkle_tree p)); ("amount", JNum (up_amount p));
          ("locked_amount", JNum (up_locked_amount p)); ("proof", proof_json (up_proof p))]%string;
  user_proof_from_value j :=
    merkle_tree ← json_field "merkle_tree" j ≫= json_str;
    amount ← json_field "amount" j ≫= json_u64;
    locked_amount ← json_field "locked_amount" j ≫= json_u64;
    proof ← json_field "proof" j ≫= json_proof;
    Some (mkUserProof merkle_tree amount locked_amount proof);
  kv_proof_to_value v :=
    JObj [("merkle_tree", JStr (kv_merkle_tree v)); ("amount", JNum (kv_amount v));
          ("locked_amount", match kv_locked_amount v with Some l => JNum l | None => JNull end);
          ("proof", proof_json (kv_proof v))]%string
|}.

Lemma json_u64_num z : is_u64 z → json_u64 (JNum z) = Some z.
Proof. intros Hz. simpl. rewrite !(proj2 (Z.leb_le _ _)) by zlia. done. Qed.
Lemma json_hash_json h : json_hash (hash_json h) = Some h.
Proof.
  unfold json_hash, hash_json.
  assert (∀ l, mapM json_byte (map (λ b, JNum (byte_to_Z b)) l) = Some l) as Hl.
  { induction l as [|b l IH]; simpl; [done|]. pose proof (byte_to_Z_range b).
    rewrite (proj2 (Z.leb_le _ _)), (proj2 (Z.ltb_lt _ _)) by lia. simpl. rewrite IH. simpl. do 2 f_equal.
    apply (inj byte_to_Z). rewrite byte_to_of_Z. apply Z.mod_small. lia. }
  rewrite Hl. simpl. by rewrite b32_length, b32_of_list_list.
Qed.
Lemma json_proof_json l : json_proof (proof_json l) = Some l.
Proof.
  unfold json_proof, proof_json. induction l as [|h l IH]; [done|]. cbn [map mapM]. rewrite json_hash_json.
  simpl. by rewrite IH.
Qed.

Lemma json_serde_spec : @SerdeSpec json_serde.
Proof.
  split.
  - intros p Ha Hl. cbn [user_proof_from_value user_proof_to_value json_serde]. unfold json_field. simpl find.
    cbn [fmap option_fmap option_map snd mbind option_bind json_str].
    rewrite !json_u64_num, json_proof_json by done. by destruct p.
  - intros v Ha Hl. cbn [user_proof_from_value kv_proof_to_value json_serde]. unfold json_field. simpl find.
    cbn [fmap option_fmap option_map snd mbind option_bind json_str].
    rewrite json_u64_num, json_proof_json by done. cbn [mbind option_bind].
    destruct (kv_locked_amount v) as [l|]; [|done]. rewrite json_u64_num by done. done.
Qed.

Section check.
Context `{Serde} `{PubkeyParser} `{PubkeyText}.

(** One comparison: [kv_api] and [local_api] give the JSON body of the response. *)
Definition verify_one (kv_api local_api : string → option Value) (pubkey : string) : result cli_failure unit :=
  kv_proof ← expect (kv_api pubkey ≫= user_proof_from_value);
  local_proof ← expect (local_api pubkey ≫= user_proof_from_value);
  _ ← require (up_amount kv_proof =? up_amount local_proof) CliPanic;
  _ ← require (String.eqb (up_merkle_tree kv_proof) (up_merkle_tree local_proof)) CliPanic;
  require (bool_decide (up_proof kv_proof = up_proof local_proof)) CliPanic.

(** [gen_range i n] is the [i]-th sample of [rng.gen_range(0, n)], which panics on
    an empty range. *)
Definition sample (csv_entries : list CsvEntry) (gen_range : nat → nat → nat) (i : nat)
  : result cli_failure string :=
  let num_addresses := length csv_entries in
  _ ← require (0 <? num_addresses)%nat CliPanic;
  entry ← expect (csv_entries !! gen_range i num_addresses);
  Ok (ce_pubkey entry).

Definition verify_kv_proof (csv_entries : list CsvEntry) (kv_api local_api : string → option Value)
    (num_verify : nat) (gen_range : nat → nat → nat) : result cli_failure unit :=
  try_fold (λ _ i, pubkey ← sample csv_entries gen_range i; verify_one kv_api local_api pubkey)
    tt (seq 0 num_verify).

(** The store after the files were uploaded, and the [/user] route of a server. *)
Definition kv_store (files : list (gmap string KvProof)) (pubkey : string) : option Value :=
  kv_proof_to_value <$> union_list files !! pubkey.
Definition user_route (s : RouterState) (pubkey : string) : option Value :=
  match get_user_info s pubkey with Ok p => Some (user_proof_to_value p) | Err _ => None end.
End check.

(** ** When the check passes *)
Section passes.
Context `{Serde} `{!SerdeSpec} `{PubkeyParser} `{PubkeyText} `{!PubkeyTextSpec} `{AddressDerivation} `{Hasher}.
Context (program_id mint : Pubkey) (trees : list AirdropMerkleTree).
Context (Hproofs : Forall (λ p, is_Some (tn_proof p.2)) (all_nodes program_id mint trees)).
Context (Hdistinct : claimants_distinct trees).
Context (Hwf : Forall (λ p, node_wf p.2) (all_nodes program_id mint trees)).

Lemma all_nodes_claimants :
  map (λ q, tn_claimant q.2) (all_nodes program_id mint trees)
  = map tn_claimant (concat (map at_tree_nodes trees)).
Proof.
  unfold all_nodes. clear. induction trees as [|t ts IH]; simpl; [done|].
  rewrite !map_app, IH, map_map. done.
Qed.

Lemma same_claimant p q :
  p ∈ all_nodes program_id mint trees → q ∈ all_nodes program_id mint trees →
  tn_claimant p.2 = tn_claimant q.2 → p = q.
Proof.
  intros Hp Hq Heq. pose proof Hdistinct as Hnd. unfold claimants_distinct in Hnd.
  rewrite <- all_nodes_claimants in Hnd.
  apply list_elem_of_lookup in Hp as [i Hi]. apply list_elem_of_lookup in Hq as [j Hj].
  assert (i = j) as -> by (eapply (NoDup_lookup _ i j (tn_claimant p.2) Hnd);
    rewrite list_lookup_fmap, ?Hi, ?Hj; simpl; congruence).
  congruence.
Qed.

(** The server's map has every node under its claimant. *)
Lemma loaded_node p :
  p ∈ all_nodes program_id mint trees →
  (load_trees program_id mint trees).2 !! tn_claimant p.2 = Some p.
Proof.
  intros Hp. rewrite load_trees_map by done. apply elem_of_list_to_map_1'.
  - intros q Hq. apply same_claimant; [done| |].
    + apply list_elem_of_In, in_concat in Hq as (l & Hl & Hq). apply in_map_iff in Hl as (t & <- & Ht).
      apply in_map_iff in Hq as (n & [= _ <-] & Hn). apply list_elem_of_In, in_concat.
      exists (map (pair (tree_address program_id mint t)) (at_tree_nodes t)).
      split; [by apply (in_map (λ t, map (pair (tree_address program_id mint t)) (at_tree_nodes t)))|].
      by apply in_map.
    + apply list_elem_of_In, in_concat in Hq as (l & Hl & Hq). apply in_map_iff in Hl as (t & <- & Ht).
      apply in_map_iff in Hq as (n & [= Hc <-] & Hn). by rewrite <- Hc.
  - apply list_elem_of_In, in_concat in Hp as (l & Hl & Hp'). apply in_map_iff in Hl as (t & <- & Ht).
    apply in_map_iff in Hp' as (n & <- & Hn). apply list_elem_of_In, in_concat.
    exists (tree_entries program_id mint t). split; [by apply in_map|].
    by apply (in_map (λ n, (tn_claimant n, (tree_address program_id mint t, n)))).
Qed.

Lemma union_list_lookup (files : list (gmap string KvProof)) k v :
  (∃ file, file ∈ files ∧ file !! k = Some v) →
  (∀ file w, file ∈ files → file !! k = Some w → w = v) → union_list files !! k = Some v.
Proof.
  induction files as [|file files IH]; intros (f & Hf & Hk) Hall; [by apply elem_of_nil in Hf|]. simpl.
  destruct (file !! k) as [w|] eqn:Hw.
  - rewrite (lookup_union_Some_l _ _ _ _ Hw). f_equal. apply (Hall file); [set_solver|done].
  - rewrite lookup_union_r by done. apply IH; [|intros f' w Hf' Hw'; apply (Hall f'); [set_solver|done]].
    exists f. split; [|done]. apply elem_of_cons in Hf as [-> |?]; [congruence|done].
Qed.

Context (max_entries_per_file : Z) (files : list (gmap string KvProof)) (s : RouterState).
Context (Hfiles : process_generate_kv_proof program_id mint max_entries_per_file trees = Ok files).
Context (Hserver : rs_tree s = (load_trees program_id mint trees).2).

(** Both sides have the same data of a node; the exported one reads back only if
    the node has a locked amount. *)
Lemma verify_one_node p :
  p ∈ all_nodes program_id mint trees →
  verify_one (kv_store files) (user_route s) (pubkey_to_string (tn_claimant p.2)) =
  match tn_locked_amount p.2 with Some _ => Ok tt | None => Err CliPanic end.
Proof.
  intros Hp. pose proof Hdistinct as Hnd. unfold claimants_distinct in Hnd.
  rewrite <- all_nodes_claimants in Hnd.
  destruct (kv_files_hold_every_proof program_id mint max_entries_per_file trees Hproofs Hnd)
    as (files' & Hf & Hfound & Hsound & _). assert (files' = files) as -> by congruence.
  destruct (Hfound p Hp) as (file & proof & Hfile & Hproof & Hlk).
  assert (kv_store files (pubkey_to_string (tn_claimant p.2)) = Some (kv_proof_to_value (kv_of p.1 p.2 proof))) as Hkv.
  { unfold kv_store. erewrite union_list_lookup; [done|by exists file|].
    intros f w Hf' (q & pr & Hq & Hpr & Hk%(inj pubkey_to_string) & ->)%Hsound; [|done].
    assert (q = p) as -> by (by apply same_claimant). congruence. }
  assert (user_route s (pubkey_to_string (tn_claimant p.2)) = Some (user_proof_to_value
    (mkUserProof (pubkey_to_string p.1) (tn_amount p.2) (locked_amount_of p.2) proof))) as Hrt.
  { unfold user_route, get_user_info, get_user_proof. rewrite pubkey_text_roundtrip, Hserver.
    cbn [ok_or mbind result_bind]. rewrite (loaded_node p Hp). cbn [ok_or mbind result_bind fst snd].
    by rewrite Hproof. }
  destruct (proj1 (Forall_forall _ _) Hwf p Hp) as [Hwu Hwl].
  unfold verify_one. rewrite Hkv, Hrt. cbn [mbind option_bind].
  rewrite kv_proof_value, user_proof_value by done.
  unfold kv_of. cbn [kv_locked_amount kv_merkle_tree kv_amount kv_proof].
  destruct (tn_locked_amount p.2) as [l|]; [|done]. cbn.
  by rewrite Z.eqb_refl, String.eqb_refl, bool_decide_eq_true_2.
Qed.

(** C33. The check of the exported proofs.  For trees with stored proofs and
    distinct claimants, the export of the trees and a server that loaded them
    agree on the amount, the distributor and the proof of every row of the list;
    the check passes exactly when every sampled row belongs to an entry with a
    locked amount, and panics otherwise, because the export writes a missing
    locked amount as [null] and the comparison reads it as an integer. *)
Theorem kv_check_passes_iff csv_entries num_verify gen_range :
  csv_entries ≠ [] → (∀ i n, (0 < n)%nat → (gen_range i n < n)%nat) →
  (∀ e, e ∈ csv_entries → ∃ p, p ∈ all_nodes program_id mint trees ∧
     ce_pubkey e = pubkey_to_string (tn_claimant p.2)) →
  let r := verify_kv_proof csv_entries (kv_store files) (user_route s) num_verify gen_range in
  (r = Ok tt ∨ r = Err CliPanic) ∧
  (r = Ok tt ↔ ∀ i p, (i < num_verify)%nat → p ∈ all_nodes program_id mint trees →
     sample csv_entries gen_range i = Ok (pubkey_to_string (tn_claimant p.2)) →
     is_Some (tn_locked_amount p.2)).
Proof.
  intros Hne Hgen Hlist. unfold verify_kv_proof.
  assert (∀ i, ∃ p, p ∈ all_nodes program_id mint trees ∧
    sample csv_entries gen_range i = Ok (pubkey_to_string (tn_claimant p.2))) as Hsample.
  { intros i. assert (0 < length csv_entries)%nat as Hpos by (destruct csv_entries; [done|simpl; lia]).
    destruct (lookup_lt_is_Some_2 csv_entries (gen_range i (length csv_entries))) as [e He]; [by apply Hgen|].
    destruct (Hlist e) as (p & Hp & Hk); [by eapply list_elem_of_lookup_2|]. exists p. split; [done|].
    unfold sample. rewrite (proj2 (Nat.ltb_lt _ _) Hpos). cbn [require mbind result_bind]. rewrite He. simpl.
    by rewrite Hk. }
  induction num_verify as [|m IH]; cbn zeta.
  { split; [by left|]. split; [intros _ i p Hi; lia|done]. }
  destruct IH as [IHr IHiff]. rewrite seq_S, try_fold_app. destruct (Hsample m) as (q & Hq & Hsq).
  assert (∀ p, p ∈ all_nodes program_id mint trees →
    sample csv_entries gen_range m = Ok (pubkey_to_string (tn_claimant p.2)) → p = q) as Huniq.
  { intros p Hp Hs. apply same_claimant; [done|done|]. apply (inj pubkey_to_string). congruence. }
  destruct IHr as [Hr|Hr]; rewrite Hr in IHiff |- *; cbn [mbind result_bind try_fold plus].
  - rewrite Hsq. cbn [mbind result_bind]. rewrite verify_one_node by done.
    destruct (tn_locked_amount q.2) as [l|] eqn:Hl; cbn [mbind result_bind];
      (split; [by auto|]); (split; [|try done]).
    + intros _ i p Hi Hp Hs. destruct (decide (i = m)) as [-> |]; [|apply (proj1 IHiff eq_refl i p); [lia|done|done]].
      rewrite (Huniq p Hp Hs), Hl. by eexists.
    + done.
    + intros Hall. destruct (Hall m q) as [? ?]; [lia|done|done|congruence].
  - split; [by right|]. split; [done|]. intros Hall. exfalso.
    assert (Err (A:=unit) CliPanic = Ok tt) as [=]. apply IHiff. intros i p Hi. apply Hall. lia.
Qed.
End passes.

(** ** Witness: the exported file of two entries, one without a locked amount *)
#[local] Existing Instances sha256_hasher example_derivation raw_parser raw_text raw_text_spec.
#[local] Existing Instances json_serde json_serde_spec.

Definition kx_files : list (gmap string KvProof) :=
  match process_generate_kv_proof (key 7) (key 8) 10 [ex_kv_tree] with Ok files => files | Err _ => [] end.
Definition kx_server : RouterState :=
  mkRouterState None None (key 7) (load_trees (key 7) (key 8) [ex_kv_tree]).2
    (Cache_new (key 7) [] None 0 0 EmptyString) 50.
Definition kx_list : list CsvEntry := [mkCsvEntry (pubkey_to_string (key 1)) 5 (Some 3)].

Example kx_checks :
  verify_kv_proof kx_list (kv_store kx_files) (user_route kx_server) 3 (λ _ _, 0%nat) = Ok tt ∧
  verify_kv_proof [mkCsvEntry (pubkey_to_string (key 2)) 4 None] (kv_store kx_files)
    (user_route kx_server) 1 (λ _ _, 0%nat) = Err CliPanic.
Proof. vm_compute. done. Qed.

Lemma kx_exported : process_generate_kv_proof (key 7) (key 8) 10 [ex_kv_tree] = Ok kx_files.
Proof.
  unfold kx_files. assert (is_ok (process_generate_kv_proof (key 7) (key 8) 10 [ex_kv_tree]) = true) as Hok
    by (vm_compute; reflexivity).
  by destruct (process_generate_kv_proof _ _ _ _).
Qed.
Lemma kx_proofs : Forall (λ p, is_Some (tn_proof p.2)) (all_nodes (key 7) (key 8) [ex_kv_tree]).
Proof. repeat constructor; eexists; reflexivity. Qed.
Lemma kx_distinct : claimants_distinct [ex_kv_tree].
Proof. apply (bool_decide_unpack _). vm_compute. exact I. Qed.
Lemma kx_wf : Forall (λ p, node_wf p.2) (all_nodes (key 7) (key 8) [ex_kv_tree]).
Proof. do 2 (apply Forall_cons; split; [split; cbn; zlia|]). apply Forall_nil_2. Qed.
Lemma kx_listed e :
  e ∈ kx_list → ∃ p, p ∈ all_nodes (key 7) (key 8) [ex_kv_tree] ∧
    ce_pubkey e = pubkey_to_string (tn_claimant p.2).
Proof.
  intros -> %list_elem_of_singleton. eexists (_, mkTreeNode (key 1) 5 (Some 3) (Some [key 4])).
  split; [by apply elem_of_cons; left|done].
Qed.

Lemma kv_check_passes_iff_witness :
  verify_kv_proof kx_list (kv_store kx_files) (user_route kx_server) 3 (λ _ _, 0%nat) = Ok tt ∨
  verify_kv_proof kx_list (kv_store kx_files) (user_route kx_server) 3 (λ _ _, 0%nat) = Err CliPanic.
Proof.
  destruct (kv_check_passes_iff (key 7) (key 8) [ex_kv_tree] kx_proofs kx_distinct kx_wf 10 kx_files
    kx_server kx_exported eq_refl kx_list 3 (λ _ _, 0%nat) ltac:(discriminate) (λ _ _ H, H) kx_listed)
    as [Hr _].
  exact Hr.
Defined.
