(* ===== verification/Files.v ===== *)
(** * Files
    (src/merkle-tree/src/csv_entry.rs: [new_from_file]; airdrop_merkle_tree.rs:
    [new_from_csv], [new_from_file], [write_to_file]; the directory loops of the
    commands)

    A file system is a map of directories, each a map from names to files and
    directories.  What a file holds is the type [Content] of the interface
    [FileFormats]: the readers and writers of the csv and serde_json crates on the
    records the program gives them, with their round trips as laws. *)
From S2P Require Import BTree.
From S2P Require Import Prelude Machine Hashing MerkleTree TreeNode Airdrop Api.
From S2P Require Import Aggregate Sharding Startup Network Deploy KvCheck.
From stdpp Require Import pretty.
#[local] Open Scope Z_scope.

(** ** Contents *)
Class FileFormats := {
  Content : Type;
  (** [csv::Writer]: one [write_record] per record. *)
  csv_write : list (list string) → Content;
  (** [csv::Reader::deserialize::<CsvEntry>] over all records; [None] when one of
      them is an error. *)
  csv_entries : Content → option (list CsvEntry);
  csv_strings : Content → option (list string);
  (** [serde_json]: a value, a tree, the map of sent addresses, exported proofs. *)
  json_write : Json → Content;
  json_value : Content → option Json;
  tree_write : AirdropMerkleTree → Content;
  tree_read : Content → option AirdropMerkleTree;
  sent_write : gmap string string → Content;
  sent_read : Content → option (gmap string string);
  kv_write : gmap string KvProof → Content
}.

(** The fields of a tree have their types. *)
Definition tree_typed (t : AirdropMerkleTree) : Prop :=
  is_u64 (at_airdrop_version t) ∧ is_u64 (at_max_num_nodes t) ∧ is_u64 (at_max_total_claim t) ∧
  Forall node_wf (at_tree_nodes t).
#[global] Instance is_u64_dec z : Decision (is_u64 z).
Proof. unfold is_u64. apply _. Defined.
#[global] Instance node_wf_dec n : Decision (node_wf n).
Proof. unfold node_wf. apply _. Defined.
#[global] Instance csv_entry_wf_dec e : Decision (csv_entry_wf e).
Proof. unfold csv_entry_wf. apply _. Defined.
#[global] Instance tree_typed_dec t : Decision (tree_typed t).
Proof. unfold tree_typed. apply _. Defined.

(** The records the tool writes: with and without a locked amount. *)
Definition header : list string := ["pubkey"; "amount"]%string.
Definition header_locked : list string := ["pubkey"; "amount"; "locked_amount"]%string.
Definition record (row : string * Z) : list string := [row.1; pretty row.2].
Definition record_locked (row : string * Z * Z) : list string :=
  [row.1.1; pretty row.1.2; pretty row.2].

(** Rows are read by the names of the header; a column that is missing is [None]
    for an optional field. *)
Class FileFormatsSpec `{FileFormats} : Prop := {
  csv_entries_plain rows : Forall (λ r, is_u64 r.2) rows →
    csv_entries (csv_write (header :: map record rows)) =
    Some (map (λ r : string * Z, mkCsvEntry r.1 r.2 None) rows);
  csv_entries_with_locked rows : Forall (λ r, is_u64 r.1.2 ∧ is_u64 r.2) rows →
    csv_entries (csv_write (header_locked :: map record_locked rows)) =
    Some (map (λ r : string * Z * Z, mkCsvEntry r.1.1 r.1.2 (Some r.2)) rows);
  csv_entries_typed c l : csv_entries c = Some l → Forall csv_entry_wf l;
  json_roundtrip j : json_value (json_write j) = Some j;
  tree_roundtrip t : tree_typed t → tree_read (tree_write t) = Some t;
  tree_read_typed c t : tree_read c = Some t → tree_typed t;
  sent_roundtrip m : sent_read (sent_write m) = Some m
}.

(** ** Names *)

(** The text before and after the last dot. *)
Fixpoint rsplit_dot (s : string) : option (string * string) :=
  match s with
  | EmptyString => None
  | String.String c rest =>
      match rsplit_dot rest with
      | Some (before, after) => Some (String.String c before, after)
      | None => if N.eqb (Ascii.N_of_ascii c) 46 then Some (""%string, rest) else None
      end
  end.

(** [Path::extension] of a file name: [None] without a dot, or when the only dot
    is the first character. *)
Definition extension (name : string) : option string :=
  match rsplit_dot name with
  | Some (before, after) => if String.eqb before "" then None else Some after
  | None => None
  end.

(** [format!("tree_{}.json", v)], [format!("{}.json", i)], [format!("{}-{}.csv", i, s)]. *)
Definition tree_name (version : Z) : string := "tree_" +:+ pretty version +:+ ".json".
Definition kv_name (file_index : Z) : string := pretty file_index +:+ ".json".
Definition csv_name (index : Z) (symbol : string) : string :=
  pretty index +:+ "-" +:+ symbol +:+ ".csv".

(** ** The file system *)
Section files.
Context `{FileFormats}.

Inductive Node :=
| FileNode (content : Content)
| DirNode.

Definition FS : Type := gmap string (gmap string Node).

(** A path: directory and file name. *)
Definition Path : Type := string * string.

(** [fs::read_dir(dir).unwrap()] sorted by path. *)
Definition read_dir (fs : FS) (dir : string) : option (list (string * Node)) :=
  btree_iter <$> fs !! dir.

Definition lookup_file (fs : FS) (p : Path) : option Content :=
  entries ← fs !! p.1;
  match entries !! p.2 with Some (FileNode c) => Some c | _ => None end.

(** [File::create(path)] and [write_all]: [None] when the directory is missing or
    the name is a directory's. *)
Definition write_file (fs : FS) (p : Path) (c : Content) : option FS :=
  entries ← fs !! p.1;
  match entries !! p.2 with
  | Some DirNode => None
  | _ => Some (<[p.1 := <[p.2 := FileNode c]> entries]> fs)
  end.

Lemma fs_insert_eq (fs : FS) dir entries : (<[dir := entries]> fs : FS) !! dir = Some entries.
Proof. unfold FS in *. apply lookup_insert_eq. Qed.
Lemma fs_insert_ne (fs : FS) dir dir' entries :
  dir ≠ dir' → (<[dir := entries]> fs : FS) !! dir' = fs !! dir'.
Proof. unfold FS in *. apply lookup_insert_ne. Qed.

Lemma write_file_lookup fs p c fs' : write_file fs p c = Some fs' → lookup_file fs' p = Some c.
Proof.
  unfold write_file. intros (entries & He & Hw)%bind_Some. unfold lookup_file.
  destruct (entries !! p.2) as [[]|]; [|done|]; injection Hw as <-; rewrite fs_insert_eq; simpl;
    by rewrite lookup_insert_eq.
Qed.
Lemma write_file_other fs p c fs' dir : write_file fs p c = Some fs' → p.1 ≠ dir → fs' !! dir = fs !! dir.
Proof.
  unfold write_file. intros (entries & He & Hw)%bind_Some Hne.
  destruct (entries !! p.2) as [[]|]; [|done|]; injection Hw as <-; by apply fs_insert_ne.
Qed.

(** [fs::create_dir_all(dir)]. *)
Definition create_dir_all (fs : FS) (dir : string) : FS :=
  match fs !! dir with Some _ => fs | None => <[dir := ∅]> fs end.

Lemma create_dir_exists fs dir : is_Some (create_dir_all fs dir !! dir).
Proof. unfold create_dir_all. destruct (fs !! dir) eqn:He; [by rewrite He|]. rewrite fs_insert_eq. eauto. Qed.

(** [CsvEntry::new_from_file]: a row that cannot be read panics. *)
Definition CsvEntry_new_from_file (fs : FS) (p : Path) : result tree_error (list CsvEntry) :=
  file ← ok_or (lookup_file fs p) (TreeErr IoError);
  ok_or (csv_entries file) TreePanic.

Definition new_from_csv `{Hasher} `{PubkeyParser} (fs : FS) (p : Path) (version mint_decimals : Z)
    (csv_amount_unit : CsvAmountUnit) : result tree_error AirdropMerkleTree :=
  csv_entries ← CsvEntry_new_from_file fs p;
  new_from_entries csv_entries version mint_decimals csv_amount_unit.

(** [AirdropMerkleTree::new_from_file] of a directory entry, and of a path. *)
Definition tree_of_node (n : Node) : result tree_error AirdropMerkleTree :=
  match n with
  | FileNode c => ok_or (tree_read c) (TreeErr SerdeError)
  | DirNode => Err (TreeErr SerdeError)
  end.
Definition new_from_file (fs : FS) (p : Path) : result tree_error AirdropMerkleTree :=
  n ← ok_or (entries ← fs !! p.1; entries !! p.2) (TreeErr IoError);
  tree_of_node n.

(** [write_to_file] unwraps. *)
Definition write_to_file (fs : FS) (t : AirdropMerkleTree) (p : Path) : result cli_failure FS :=
  expect (write_file fs p (tree_write t)).

(** The entry as the server's start-up sees it. *)
Definition tree_file (e : string * Node) : TreeFile :=
  mkTreeFile (match e.2 with DirNode => true | FileNode _ => false end) (extension e.1)
    (tree_of_node e.2).

(** The files [process_fund_all] does not skip. *)
Definition is_json_file (e : string * Node) : bool :=
  match e.2 with
  | DirNode => false
  | FileNode _ => match extension e.1 with Some ext => String.eqb ext "json" | None => false end
  end.
End files.

(** ** Written numbers are read back *)
Lemma digit_cases (d : N) : (d < 10)%N →
  (d = 0 ∨ d = 1 ∨ d = 2 ∨ d = 3 ∨ d = 4 ∨ d = 5 ∨ d = 6 ∨ d = 7 ∨ d = 8 ∨ d = 9)%N.
Proof. lia. Qed.

Lemma digit_of_char (d : N) : (d < 10)%N → digit_of (pretty_N_char d) = Some (Z.of_N d).
Proof.
  intros Hd. by destruct (digit_cases d Hd) as
    [-> |[-> |[-> |[-> |[-> |[-> |[-> |[-> |[-> | ->]]]]]]]]].
Qed.

Lemma parse_digits_pretty max (x : N) s :
  Z.of_N x ≤ max → parse_digits max 0 (pretty_N_go x s) = parse_digits max (Z.of_N x) s.
Proof.
  revert s. induction (N.lt_wf_0 x) as [x _ IH]; intros s Hx.
  destruct (decide (x = 0)%N) as [-> |Hne]; [by rewrite pretty_N_go_0|].
  rewrite pretty_N_go_step by lia. pose proof (N.div_mod x 10 ltac:(done)) as Hdm.
  pose proof (N.mod_lt x 10 ltac:(done)).
  assert (x / 10 < x)%N by (apply N.div_lt; lia).
  rewrite IH by lia. simpl. rewrite digit_of_char by done. simpl.
  assert (Z.of_N (x / 10) * 10 + Z.of_N (x mod 10) = Z.of_N x) as ->
    by (rewrite Hdm at 3; rewrite N2Z.inj_add, N2Z.inj_mul; lia).
  by rewrite (proj2 (Z.leb_le _ _)).
Qed.

(** The text of a number does not begin with a sign. *)
Lemma pretty_go_head (x : N) s : (0 < x)%N → ∃ d t, (d < 10)%N ∧ pretty_N_go x s = String.String (pretty_N_char d) t.
Proof.
  revert s. induction (N.lt_wf_0 x) as [x _ IH]; intros s Hx. rewrite pretty_N_go_step by lia.
  destruct (decide (x / 10 = 0)%N) as [-> |Hne].
  - rewrite pretty_N_go_0. eexists _, _. split; [|done]. by apply N.mod_lt.
  - apply IH; [apply N.div_lt; lia|]. by apply N.neq_0_lt_0.
Qed.

Lemma parse_uint_pretty max z : 0 ≤ z ≤ max → parse_uint max (pretty z) = Some z.
Proof.
  intros Hz. destruct z as [|p|p]; [simpl; by rewrite (proj2 (Z.leb_le _ _)) by lia| |lia].
  change (pretty (Z.pos p)) with (pretty_N_go (N.pos p) "").
  pose proof (parse_digits_pretty max (N.pos p) "" ltac:(lia)) as Hp.
  destruct (pretty_go_head (N.pos p) "" ltac:(lia)) as (d & t & Hd & Ht).
  rewrite Ht in Hp |- *. unfold parse_uint.
  assert (N.eqb (Ascii.N_of_ascii (pretty_N_char d)) 43 = false) as ->; [|done].
  by destruct (digit_cases d Hd) as [-> |[-> |[-> |[-> |[-> |[-> |[-> |[-> |[-> | ->]]]]]]]]].
Qed.

(** ** Names of the files written *)
Lemma string_app_assoc (a b c : string) : a +:+ b +:+ c = (a +:+ b) +:+ c.
Proof. induction a as [|x a IH]; [done|]. exact (f_equal (String.String x) IH). Qed.

Lemma rsplit_dot_app before after :
  rsplit_dot after = None → rsplit_dot (before +:+ "." +:+ after) = Some (before, after).
Proof. intros Ha. induction before as [|c s IH]; simpl; [|by rewrite IH]. change (""%string +:+ after) with after. by rewrite Ha. Qed.

Lemma rsplit_tree_name version :
  rsplit_dot (tree_name version) = Some ("tree_" +:+ pretty version, "json"%string).
Proof.
  unfold tree_name. change ".json"%string with ("." +:+ "json")%string.
  rewrite string_app_assoc. by apply rsplit_dot_app.
Qed.
Lemma tree_name_extension version : extension (tree_name version) = Some "json"%string.
Proof. unfold extension. by rewrite rsplit_tree_name. Qed.
#[export] Instance tree_name_inj : Inj (=) (=) tree_name.
Proof.
  intros v w Hvw. pose proof (rsplit_tree_name v) as Hv. rewrite Hvw, rsplit_tree_name in Hv.
  injection Hv as Hp. change (pretty w = pretty v) in Hp. by apply (inj pretty) in Hp.
Qed.

(** ** A directory of written trees *)
Section directory.
Context `{FileFormats} `{!FileFormatsSpec}.
Implicit Types (trees : list AirdropMerkleTree) (entries : gmap string Node).

Definition tree_entry (t : AirdropMerkleTree) : string * Node :=
  (tree_name (at_airdrop_version t), FileNode (tree_write t)).

(** The directory holds exactly the files of the trees. *)
Definition holds_trees (fs : FS) (dir : string) trees : Prop :=
  ∃ entries, fs !! dir = Some entries ∧ map_to_list entries ≡ₚ map tree_entry trees.

Lemma tree_of_entry t : tree_typed t → tree_of_node (tree_entry t).2 = Ok t.
Proof. intros Ht. simpl. by rewrite tree_roundtrip. Qed.

Lemma tree_of_file_entry t : tree_typed t → tree_of_file (tree_file (tree_entry t)) = Some t.
Proof.
  intros Ht. unfold tree_of_file, tree_file. rewrite tree_of_entry by done.
  cbn [tree_entry fst snd tf_is_dir tf_extension tf_content]. by rewrite tree_name_extension.
Qed.

(** What each reader makes of the directory: the tool's commands read every entry,
    the funding command the json files, the server the json files that parse. *)
Lemma holds_trees_read fs dir trees :
  Forall tree_typed trees → holds_trees fs dir trees →
  ∃ l trees', read_dir fs dir = Some l ∧ trees' ≡ₚ trees ∧ l = map tree_entry trees' ∧
    try_map tree_of_node (map snd l) = Ok trees' ∧
    filter is_json_file l = l ∧
    omap tree_of_file (map tree_file l) = trees'.
Proof.
  intros Hty (entries & Hdir & Hl). unfold read_dir. rewrite Hdir.
  assert (btree_iter entries ≡ₚ map tree_entry trees) as Hp by (by rewrite btree_iter_perm).
  apply Permutation_map_inv in Hp as (trees' & Hl' & Hp). exists (btree_iter entries), trees'.
  assert (Forall tree_typed trees') as Hty' by (by rewrite <- Hp).
  split_and!; [done|by symmetry|done| | |]; rewrite Hl'; clear Hl Hp Hl'.
  - induction Hty' as [|t l Ht Hl IH]; [done|]. cbn [map try_map snd tree_entry tree_of_node].
    rewrite tree_roundtrip by done. simpl in IH |- *. by rewrite IH.
  - induction trees' as [|t l IH]; [done|]. cbn [map]. apply Forall_cons in Hty' as [_ Hty'].
    rewrite filter_cons_True, IH; [done|done|].
    unfold is_json_file, tree_entry. cbn [fst snd]. by rewrite tree_name_extension.
  - induction Hty' as [|t l Ht Hl IH]; [done|]. cbn [map omap list_omap].
    rewrite tree_of_file_entry by done. cbn [option_bind]. f_equal. exact IH.
Qed.
End directory.

(** ** Reference formats *)
Inductive RefContent :=
| Rows (records : list (list string))
| JsonDoc (j : Json)
| TreeDoc (t : AirdropMerkleTree)
| SentDoc (m : gmap string string)
| KvDoc (m : gmap string KvProof).

Definition column (name : string) (names record : list string) : option string :=
  snd <$> find (λ p, String.eqb p.1 name) (zip names record).

(** An empty or missing optional column is [None]. *)
Definition read_entry (names record : list string) : option CsvEntry :=
  pubkey ← column "pubkey" names record;
  amount ← column "amount" names record ≫= parse_uint U64_MAX;
  match column "locked_amount" names record with
  | None => Some (mkCsvEntry pubkey amount None)
  | Some text =>
      if String.eqb text "" then Some (mkCsvEntry pubkey amount None)
      else locked ← parse_uint U64_MAX text; Some (mkCsvEntry pubkey amount (Some locked))
  end.

Definition reference_formats : FileFormats := {|
  Content := RefContent;
  csv_write := Rows;
  csv_entries c := match c with
                   | Rows (names :: records) => mapM (read_entry names) records
                   | Rows [] => Some []
                   | _ => None
                   end;
  csv_strings c := match c with
                   | Rows (_ :: records) =>
                       mapM (λ r, match r with [s] => Some s | _ => None end) records
                   | Rows [] => Some []
                   | _ => None
                   end;
  json_write := JsonDoc;
  json_value c := match c with JsonDoc j => Some j | _ => None end;
  tree_write := TreeDoc;
  tree_read c := match c with TreeDoc t => if decide (tree_typed t) then Some t else None | _ => None end;
  sent_write := SentDoc;
  sent_read c := match c with SentDoc m => Some m | _ => None end;
  kv_write := KvDoc
|}.

Lemma mapM_map_Some {A B C : Type} (f : A → option B) (g : C → A) (h : C → B) (l : list C) :
  Forall (λ x, f (g x) = Some (h x)) l → mapM f (map g l) = Some (map h l).
Proof. induction 1 as [|x l Hx _ IH]; [done|]. cbn [map mapM]. rewrite Hx. simpl. by rewrite IH. Qed.

Lemma pretty_nonempty z : is_u64 z → String.eqb (pretty z) "" = false.
Proof.
  intros Hz. pose proof (parse_uint_pretty U64_MAX z Hz) as Hp.
  destruct (String.eqb_spec (pretty z) "") as [He|]; [|done]. by rewrite He in Hp.
Qed.

Lemma read_entry_typed names record e : read_entry names record = Some e → csv_entry_wf e.
Proof.
  assert (∀ s v, parse_uint U64_MAX s = Some v → is_u64 v) as Hparse.
  { assert (∀ s acc v, 0 ≤ acc → parse_digits U64_MAX acc s = Some v → acc ≤ U64_MAX → is_u64 v) as Hd.
    { induction s as [|c s IH]; simpl; [intros acc v ? [= <-] ?; done|].
      intros acc v Hacc (d & Hd & Hv)%bind_Some Hle. unfold digit_of in Hd.
      destruct (andb _ _) eqn:Hr; [|done]. injection Hd as <-. zbool. case_match; [|done]. zbool.
      eapply IH; [|exact Hv|]; lia. }
    intros [|c s] v; [done|]. unfold parse_uint.
    case_match; [destruct s; [done|]|]; intros Hv; (eapply Hd; [|exact Hv|]; zlia). }
  unfold read_entry. intros (k & _ & (a & (ta & _ & Ha)%bind_Some & He)%bind_Some)%bind_Some.
  destruct (column _ _ _) as [t|]; [destruct (String.eqb t "")|]; simplify_eq/=.
  - split; simpl; [eauto|zlia].
  - apply bind_Some in He as (l & Hl & [= <-]). split; simpl; eauto.
  - split; simpl; [eauto|zlia].
Qed.

Lemma reference_formats_spec : @FileFormatsSpec reference_formats.
Proof.
  split; cbn [csv_entries csv_write json_value json_write tree_read tree_write sent_read sent_write
              reference_formats]; try done.
  - intros rows Hrows. apply mapM_map_Some. eapply Forall_impl; [exact Hrows|]. intros [k a] Ha. simpl in Ha.
    cbv [read_entry column header record]. simpl find. cbn [fmap option_fmap option_map snd mbind option_bind].
    by rewrite parse_uint_pretty.
  - intros rows Hrows. apply mapM_map_Some. eapply Forall_impl; [exact Hrows|].
    intros [[k a] b] [Ha Hb]. simpl in Ha, Hb.
    cbv [read_entry column header_locked record_locked]. simpl find.
    cbn [fmap option_fmap option_map fst snd mbind option_bind].
    rewrite parse_uint_pretty by done. cbn [mbind option_bind].
    by rewrite pretty_nonempty, parse_uint_pretty.
  - intros c l. destruct c as [[|names rows]|j|t|m|m]; try done.
    { by intros [= <-]. }
    intros Hl%mapM_Some. induction Hl; constructor; eauto using read_entry_typed.
  - intros t Ht. by rewrite decide_True.
  - intros c t. destruct c; try done. case_decide; [|done]. by intros [= <-].
Qed.
