(* ===== verification/DeployTheorems.v ===== *)
(** * Deploying a set of trees

    A run of the deployment command leaves every tree's distributor on chain with
    exactly the tree's and the command's parameters and can be repeated without
    effect. *)
From S2P Require Import Prelude Machine Hashing Sha256 MerkleTree MerkleProof TreeNode Airdrop.
From S2P Require Import ProgramError ClaimStatus Solana Token State Handlers Program Execution.
From S2P Require Import Scenario Safety HandlerTheorems Network NetworkTheorems Deploy.

(** ** Checking *)

(** The parameters on chain are those of the tree and the command. *)
Definition parameters_match (d : MerkleDistributor) (tree : AirdropMerkleTree) (da : DeployArgs)
    (admin : Pubkey) : Prop :=
  md_root d = at_merkle_root tree ∧ md_max_total_claim d = at_max_total_claim tree ∧
  md_max_num_nodes d = at_max_num_nodes tree ∧ md_start_ts d = da_start_vesting_ts da ∧
  md_end_ts d = da_end_vesting_ts da ∧ md_clawback_start_ts d = da_clawback_start_ts da ∧
  md_enable_slot d = da_enable_slot da ∧ md_closable d = da_closable da ∧ md_admin d = admin.

(** The clawback receiver is a token account of the admin. *)
Definition receiver_of_admin (d : MerkleDistributor) (ts : TokenState) : Prop :=
  ∃ receiver, tk_accounts ts !! md_clawback_receiver d = Some receiver ∧ ta_owner receiver = md_admin d.

Lemma check_distributor_onchain_matches_Ok d tree da admin ts :
  check_distributor_onchain_matches (DistributorAcc d) tree da admin ts = Ok tt ↔
  parameters_match d tree da admin ∧ receiver_of_admin d ts.
Proof.
  unfold parameters_match, receiver_of_admin. simpl. split.
  - intros Hc. inv_ok. zbool. apply eqb_prop in Hok6. naive_solver.
  - intros [(-> & -> & -> & -> & -> & -> & -> & -> & Hadmin) (r & Hr & Howner)].
    rewrite !Z.eqb_refl, bool_decide_eq_true_2, eqb_reflx by done. simpl. rewrite Hr. simpl.
    by rewrite Howner, Hadmin, !bool_decide_eq_true_2.
Qed.

Lemma check_mono account tree da admin ts ts' :
  tk_accounts ts ⊆ tk_accounts ts' →
  check_distributor_onchain_matches account tree da admin ts = Ok tt →
  check_distributor_onchain_matches account tree da admin ts' = Ok tt.
Proof.
  intros Hsub. destruct account as [d|cs]; [|done].
  rewrite !check_distributor_onchain_matches_Ok. intros [? (r & ? & ?)]. split; [done|].
  exists r. eauto using lookup_weaken.
Qed.

Section deploy_theorems.
Context `{Hasher} `{AddressDerivation} `{TokenProgram} `{!TokenProgramSpec} `{AtaProgram} `{!AtaProgramSpec}.
Implicit Types (st : State) (args : Args) (tree : AirdropMerkleTree) (da : DeployArgs).

(** A ledger that only gained accounts. *)
Definition grows st st' : Prop :=
  st_accounts st ⊆ st_accounts st' ∧ tk_accounts (st_tokens st) ⊆ tk_accounts (st_tokens st') ∧
  tk_mints (st_tokens st') = tk_mints (st_tokens st) ∧ st_clock st' = st_clock st ∧
  st_events st' = st_events st.

#[export] Instance grows_preorder : PreOrder grows.
Proof.
  split; [intros st; by unfold grows|]. intros s1 s2 s3 (?&?&?&?&?) (?&?&?&?&?).
  unfold grows. split_and!; try congruence; by etrans.
Qed.

(** The distributor of the tree exists and passes the check. *)
Definition deployed args da tree st : Prop :=
  ∃ account, st_accounts st !! distributor_of args tree = Some account ∧
    check_distributor_onchain_matches account tree da (arg_payer args) (st_tokens st) = Ok tt.

Lemma deployed_mono args da tree st st' :
  grows st st' → deployed args da tree st → deployed args da tree st'.
Proof.
  intros (Ha & Ht & _) (account & ? & ?). exists account.
  eauto using lookup_weaken, check_mono.
Qed.

Lemma create_ata_grows ts wallet mint ts' :
  create_associated_token_account ts wallet mint = Some ts' →
  tk_accounts ts ⊆ tk_accounts ts' ∧ tk_mints ts' = tk_mints ts.
Proof.
  intros (? & ? & ->)%create_ata_effect. split; [by apply insert_subseteq|done].
Qed.

Lemma ensure_ata_grows ts wallet mint ts' :
  ensure_ata ts wallet mint = Ok ts' →
  tk_accounts ts ⊆ tk_accounts ts' ∧ tk_mints ts' = tk_mints ts.
Proof.
  unfold ensure_ata. case_match; [by intros [= ->]|].
  intros ?%expect_Ok. by apply create_ata_grows with wallet mint.
Qed.

(** What creating the distributor of a tree does to the ledger. *)
Lemma deploy_tree_creates args da st tree st' :
  st_accounts st !! distributor_of args tree = None →
  deploy_tree args da st tree = Ok st' →
  ∃ ts1 ts2,
    ensure_ata (st_tokens st) (arg_payer args) (arg_mint args) = Ok ts1 ∧
    (if bool_decide (tk_accounts (st_tokens st) !! vault_address args tree = None)
     then create_associated_token_account ts1 (distributor_of args tree) (arg_mint args) = Some ts2
     else ts2 = ts1) ∧
    process_instruction {[ arg_payer args ]} (set_tokens ts2 st)
      (new_distributor_ix args da tree (get_associated_token_address (arg_payer args) (arg_mint args)))
      = Ok st' ∧
    (da_skip_verify da = false → deployed args da tree st').
Proof.
  unfold deploy_tree. intros Hnone. rewrite Hnone. unfold get_or_create_ata. intros Hd.
  apply bind_Ok in Hd as ([r st1] & Hg & Hd). simpl in Hg.
  apply bind_Ok in Hg as (ts1 & Hts1 & [= <- <-]).
  apply bind_Ok in Hd as (ts2 & Hts2 & Hd). apply bind_Ok in Hd as (st2 & Hp%unwrap_Ok & Hd).
  exists ts1, ts2. split; [done|]. split; [|].
  { case_bool_decide; [by apply expect_Ok|]. by injection Hts2. }
  apply bind_Ok in Hd as (u & Hc & [= ->]). split; [exact Hp|]. intros Hskip. rewrite Hskip in Hc.
  assert (∃ account, st_accounts st' !! distributor_of args tree = Some account) as [account Hacc].
  { cbn [process_instruction new_distributor_ix] in Hp.
    apply handle_new_distributor_Ok in Hp as (? & ? & ? & Hp). destruct_and! Hp. subst st'.
    eexists. apply lookup_insert_eq. }
  exists account. rewrite Hacc in Hc. apply unwrap_Ok in Hc. destruct u. by split.
Qed.

Lemma deploy_tree_grows args da st tree st' :
  deploy_tree args da st tree = Ok st' → grows st st'.
Proof.
  destruct (st_accounts st !! distributor_of args tree) as [account|] eqn:Hacc.
  - unfold deploy_tree. rewrite Hacc. intros (? & _ & [= ->])%bind_Ok. done.
  - intros (ts1 & ts2 & Hts1 & Hts2 & Hp & _)%deploy_tree_creates; [|done].
    apply ensure_ata_grows in Hts1 as [??].
    assert (tk_accounts ts1 ⊆ tk_accounts ts2 ∧ tk_mints ts2 = tk_mints ts1) as [??].
    { case_bool_decide; [by eapply create_ata_grows|by subst]. }
    cbn [process_instruction new_distributor_ix] in Hp.
    apply handle_new_distributor_Ok in Hp as (? & ? & ? & Hp). destruct_and! Hp. subst st'.
    unfold grows. simpl. split_and!; [by apply insert_subseteq|by etrans|congruence|done|done].
Qed.

Lemma deploy_tree_deployed args da st tree st' :
  da_skip_verify da = false → deploy_tree args da st tree = Ok st' → deployed args da tree st'.
Proof.
  intros Hskip. destruct (st_accounts st !! distributor_of args tree) as [account|] eqn:Hacc.
  - unfold deploy_tree. rewrite Hacc. intros ([] & Hc%unwrap_Ok & [= ->])%bind_Ok. by exists account.
  - intros (_ & _ & _ & _ & _ & Hd)%deploy_tree_creates; auto.
Qed.

(** A deployed tree is left alone. *)
Lemma deployed_deploy_tree args da tree st :
  deployed args da tree st → deploy_tree args da st tree = Ok st.
Proof. intros (account & Hacc & Hc). unfold deploy_tree. by rewrite Hacc, Hc. Qed.

Lemma process_new_distributor_all args da st trees :
  da_airdrop_version da = None →
  process_new_distributor args da st trees = try_fold (deploy_tree args da) st trees.
Proof.
  intros Hv. revert st. induction trees as [|tree trees IH]; intros st; simpl; [done|].
  rewrite Hv. destruct (deploy_tree args da st tree); simpl; [apply IH|done].
Qed.

Lemma deploy_all args da st trees st' :
  da_skip_verify da = false → try_fold (deploy_tree args da) st trees = Ok st' →
  grows st st' ∧ ∀ tree, tree ∈ trees → deployed args da tree st'.
Proof.
  intros Hskip. revert st. induction trees as [|tree trees IH]; intros st; simpl.
  - intros [= ->]. split; [done|]. set_solver.
  - intros (st1 & Hd & Hf)%bind_Ok. apply IH in Hf as [Hg Hall].
    pose proof (deploy_tree_grows _ _ _ _ _ Hd). split; [by etrans|].
    intros t [-> |Ht]%elem_of_cons; [|auto]. eauto using deployed_mono, deploy_tree_deployed.
Qed.

Lemma deployed_all_noop args da st trees :
  (∀ tree, tree ∈ trees → deployed args da tree st) →
  try_fold (deploy_tree args da) st trees = Ok st.
Proof.
  induction trees as [|tree trees IH]; intros Hall; simpl; [done|].
  rewrite deployed_deploy_tree by set_solver. simpl. apply IH. set_solver.
Qed.

(** C34. A deployment run without a version filter and with its verification on
    only adds accounts to the ledger; afterwards every tree's address is taken
    and a distributor there has exactly the tree's root and totals, the command's
    schedule, enable slot and closable flag, the payer as admin and a clawback
    receiver owned by the admin; and running the command again on the same trees
    succeeds and changes nothing. *)
Theorem deployment_is_exact_and_repeatable args da st trees st' :
  da_airdrop_version da = None → da_skip_verify da = false →
  process_new_distributor args da st trees = Ok st' →
  grows st st' ∧
  (∀ tree, tree ∈ trees → is_Some (st_accounts st' !! distributor_of args tree) ∧
     ∀ d, get_distributor st' (distributor_of args tree) = Some d →
       parameters_match d tree da (arg_payer args) ∧ receiver_of_admin d (st_tokens st')) ∧
  process_new_distributor args da st' trees = Ok st'.
Proof.
  intros Hv Hskip. rewrite !process_new_distributor_all by done.
  intros [Hg Hall]%deploy_all; [|done]. split_and!; [done| |by apply deployed_all_noop].
  intros tree (account & Hacc & Hc)%Hall. split; [by eexists|].
  intros d Hd%get_distributor_Some. assert (account = DistributorAcc d) as -> by congruence.
  by apply check_distributor_onchain_matches_Ok.
Qed.

(** ** A fresh deployment *)

(** The verification options that go with a deployment. *)
Definition verify_args_of args da : VerifyArgs :=
  mkVerifyArgs (da_clawback_start_ts da) (arg_payer args) (da_enable_slot da) (arg_payer args)
    (da_closable da) false.

(** A vault the command made, or one that was empty. *)
Definition vault_unfunded args st tree : Prop :=
  ∀ v, tk_accounts (st_tokens st) !! vault_address args tree = Some v → ta_amount v = 0 ∧ ta_delegate v = None.

Lemma deploy_tree_fresh args da st tree st' :
  st_accounts st !! distributor_of args tree = None → vault_unfunded args st tree →
  source_vault args ≠ vault_address args tree →
  deploy_tree args da st tree = Ok st' →
  ∃ d v, get_distributor st' (distributor_of args tree) = Some d ∧
    parameters_match d tree da (arg_payer args) ∧
    md_clawback_receiver d = source_vault args ∧ md_token_vault d = vault_address args tree ∧
    md_total_amount_claimed d = 0 ∧ md_clawed_back d = false ∧
    tk_accounts (st_tokens st') !! vault_address args tree = Some v ∧ ta_amount v = 0 ∧
    ta_delegate v = None.
Proof.
  intros Hnone Hempty Hne (ts1 & ts2 & Hts1 & Hts2 & Hp & _)%deploy_tree_creates; [|done].
  cbn [process_instruction new_distributor_ix] in Hp.
  apply handle_new_distributor_Ok in Hp as (r & v & s & Hp). destruct_and! Hp. subst st'.
  match goal with Hv : _ !! nd_token_vault _ = Some v |- _ => simpl in Hv; rename Hv into Hvault end.
  eexists _, v. split; [apply get_distributor_Some, lookup_insert_eq|].
  assert (ta_amount v = 0 ∧ ta_delegate v = None) as [??].
  { case_bool_decide as Hmiss.
    - apply create_ata_effect in Hts2 as (_ & _ & Hts2).
      rewrite Hts2 in Hvault. unfold vault_address in Hvault. rewrite lookup_insert_eq in Hvault.
      by injection Hvault as <-.
    - subst ts2. apply Hempty. unfold ensure_ata in Hts1. case_match; [by injection Hts1 as <-|].
      apply expect_Ok, create_ata_effect in Hts1 as (_ & _ & Hts1).
      rewrite Hts1, lookup_insert_ne in Hvault by done. done. }
  by split_and!.
Qed.

End deploy_theorems.

(** ** Witnesses *)

(** An associated-token-account program that meets the interface. *)
Definition reference_ata : AtaProgram := λ ts wallet mint,
  match tk_accounts ts !! get_associated_token_address wallet mint with
  | Some _ => None
  | None => Some (mkTokenState (<[get_associated_token_address wallet mint
                                  := mkTokenAccount mint wallet 0 None false]> (tk_accounts ts))
                               (tk_mints ts))
  end.
#[local] Existing Instance reference_ata.

#[local] Instance reference_ata_spec : AtaProgramSpec.
Proof.
  intros ts wallet mint ts'. unfold create_associated_token_account, reference_ata.
  case_match; [done|]. by intros [= <-].
Qed.

Definition dx_args : Args := mkArgs sc_mint_key PROGRAM_ID ADMIN_ID.
Definition dx_deploy : DeployArgs := mkDeployArgs 500 2500 88900 10 None false false.
Definition dx_tree : AirdropMerkleTree := mkAirdrop (key 7) 1 2 152 [].
Definition dx_state0 : State :=
  mkState ∅
    (mkTokenState {[ source_vault dx_args := mkTokenAccount sc_mint_key ADMIN_ID 1000 None false ]}
       {[ sc_mint_key := 1000 ]})
    (mkClock 50 1000) [].
Definition dx_run (r : result cli_failure State) : State :=
  match r with Ok st => st | Err _ => dx_state0 end.
Definition dx_state1 : State := dx_run (deploy_tree dx_args dx_deploy dx_state0 dx_tree).

Lemma dx_run_ok r : is_ok r = true → r = Ok (dx_run r).
Proof. by destruct r. Qed.
Lemma dx_deploy_ok : deploy_tree dx_args dx_deploy dx_state0 dx_tree = Ok dx_state1.
Proof. apply dx_run_ok. vm_compute. reflexivity. Qed.
Lemma dx_vaults_differ : source_vault dx_args ≠ vault_address dx_args dx_tree.
Proof. apply (bool_decide_unpack _). vm_compute. exact I. Qed.
Lemma dx_fresh : st_accounts dx_state0 !! distributor_of dx_args dx_tree = None.
Proof. apply lookup_empty. Qed.
Lemma dx_no_vault : tk_accounts (st_tokens dx_state0) !! vault_address dx_args dx_tree = None.
Proof. vm_compute. reflexivity. Qed.
Lemma dx_unfunded : vault_unfunded dx_args dx_state0 dx_tree.
Proof. intros v Hv. exfalso. rewrite dx_no_vault in Hv. discriminate Hv. Qed.

Lemma dx_process_new : process_new_distributor dx_args dx_deploy dx_state0 [dx_tree] = Ok dx_state1.
Proof. rewrite process_new_distributor_all by done. simpl. by rewrite dx_deploy_ok. Qed.

Lemma deployment_is_exact_and_repeatable_witness :
  grows dx_state0 dx_state1 ∧
  process_new_distributor dx_args dx_deploy dx_state1 [dx_tree] = Ok dx_state1.
Proof.
  destruct (deployment_is_exact_and_repeatable dx_args dx_deploy dx_state0 [dx_tree] dx_state1
    eq_refl eq_refl dx_process_new) as (Hg & _ & Hr).
  exact (conj Hg Hr).
Defined.
