(* ===== verification/Funding.v ===== *)
(** * Funding the vaults of a set of trees
    (src/cli/src/bin/instructions/process_fund_all.rs)

    The funding command submits transfers and does not wait for them.  Whatever
    becomes of them, no vault ever gets more than it lacks; once they have landed
    every vault covers what can still be claimed, and the command can be repeated
    without effect.  Run again too early, it would fund twice. *)
From S2P Require Import Prelude Machine Hashing Sha256 MerkleTree MerkleProof TreeNode Airdrop.
From S2P Require Import ProgramError ClaimStatus Solana Token State Handlers Program Execution.
From S2P Require Import Scenario Safety HandlerTheorems Network NetworkTheorems Signatures.
From S2P Require Import Deploy DeployTheorems.

Section funding.
Context `{Hasher} `{AddressDerivation} `{TokenProgram} `{!TokenProgramSpec} `{AtaProgram} `{!AtaProgramSpec}.
Context `{SignatureScheme} `{!SignatureSchemeSpec}.
Implicit Types (st : State) (args : Args) (tree : AirdropMerkleTree) (net : Network).

(** What the vault of the tree lacks. *)
Definition vault_deficit args st tree : Z :=
  match get_distributor st (distributor_of args tree),
        tk_accounts (st_tokens st) !! vault_address args tree with
  | Some d, Some vault =>
      if md_clawed_back d then 0
      else Z.max 0 (at_max_total_claim tree - md_total_amount_claimed d - ta_amount vault)
  | _, _ => 0
  end.

(** The command has what it reads: a distributor and, unless clawed back, a vault. *)
Definition fundable args st tree : Prop :=
  ∃ d, get_distributor st (distributor_of args tree) = Some d ∧
    (md_clawed_back d = true ∨
     md_total_amount_claimed d ≤ at_max_total_claim tree ∧
     is_Some (tk_accounts (st_tokens st) !! vault_address args tree)).

(** The vault lacks nothing. *)
Definition funded args st tree : Prop :=
  ∃ d, get_distributor st (distributor_of args tree) = Some d ∧
    (md_clawed_back d = true ∨
     md_total_amount_claimed d ≤ at_max_total_claim tree ∧
     ∃ vault, tk_accounts (st_tokens st) !! vault_address args tree = Some vault ∧
       at_max_total_claim tree - md_total_amount_claimed d ≤ ta_amount vault).

Lemma funded_deficit args st tree : funded args st tree → vault_deficit args st tree = 0.
Proof.
  intros (d & Hd & Hc). unfold vault_deficit. rewrite Hd.
  destruct Hc as [Hcb|(_ & vault & -> & ?)]; [rewrite Hcb; by case_match|]. case_match; lia.
Qed.

(** ** The transfers of a run *)
Section run.
Context (args : Args) (st0 : State).
Abbreviation vault := (vault_address args).
Abbreviation lacks := (vault_deficit args st0).

(** The trees whose transfer was submitted, with the blockhash it was made with. *)
Definition funding (l : list (AirdropMerkleTree * Z)) : list Transaction :=
  map (λ p, fund_tx args p.1 (lacks p.1) p.2) l.

Lemma fund_tx_flow tree v h p :
  tx_flow p (fund_tx args tree v h) =
  (if bool_decide (vault tree = p) then v else 0) - (if bool_decide (source_vault args = p) then v else 0).
Proof. unfold tx_flow. simpl. lia. Qed.
Lemma funding_token l : Forall token_tx (funding l).
Proof. apply Forall_map, Forall_forall. intros p _. by repeat constructor. Qed.
Lemma funding_app l l' : funding (l ++ l') = funding l ++ funding l'.
Proof. apply map_app. Qed.

Lemma vault_untouched l landed tree :
  (∀ tx, tx ∈ landed → tx ∈ funding l) → source_vault args ≠ vault tree → vault tree ∉ map (vault ∘ fst) l →
  ¬ touched (vault tree) landed.
Proof.
  intros Hsub Hsrc Hnew (tx & ix & Htx%Hsub & Hix & Ht).
  apply list_elem_of_fmap in Htx as ([t h] & -> & Hin). simpl in Hix.
  apply list_elem_of_singleton in Hix as ->. destruct Ht as [Heq|Heq]; [by rewrite Heq in Hsrc|].
  apply Hnew. simpl in Heq. rewrite Heq. exact (list_elem_of_fmap_2 (vault ∘ fst) _ _ Hin).
Qed.

Lemma fund_tree_run net0 net l landed tree net' r :
  net_ledger net0 = st0 → since net0 net (funding l) landed → quiet net →
  source_vault args ≠ vault tree → vault tree ∉ map (vault ∘ fst) l →
  fund_tree args tree net = (net', r) →
  ∃ l' landed', since net0 net' (funding (l ++ l')) landed' ∧ quiet net' ∧
    (l' = [] ∨ ∃ h, l' = [(tree, h)] ∧ 0 < lacks tree) ∧
    (r = Ok tt → fundable args st0 tree ∧ (0 < lacks tree → l' ≠ [])).
Proof.
  intros H0 Hsi Hq Hsrc Hnew. pose proof (funding_token l) as Htok.
  assert (∀ net2, (∃ landed2, since net0 net2 (funding l) landed2) → quiet net2 → r ≠ Ok tt →
    ∃ l' landed', since net0 net2 (funding (l ++ l')) landed' ∧ quiet net2 ∧
    (l' = [] ∨ ∃ h, l' = [(tree, h)] ∧ 0 < lacks tree) ∧
    (r = Ok tt → fundable args st0 tree ∧ (0 < lacks tree → l' ≠ []))) as Hfail.
  { intros net2 [landed2 Hsi2] Hq2 Hr. exists [], landed2. rewrite app_nil_r. split_and!; auto. done. }
  destruct (since_pass net0 net _ landed Htok Hq Hsi) as [Hq1 [landed1 Hsi1]].
  unfold fund_tree. intros [(d & net1 & Hf & Hrun)|(e & Hf & ->)]%io_bind_run.
  2: { apply fetch_unwrap_run in Hf as [-> _]. apply Hfail; eauto. }
  apply fetch_unwrap_run in Hf as [-> [?|(d' & Hd & [= <-])]]; [done|].
  assert (get_distributor st0 (distributor_of args tree) = Some d) as Hd0.
  { unfold get_distributor in *. by rewrite (fl_accounts _ _ _ (si_flow _ _ _ _ Hsi1)), H0 in Hd. }
  destruct (md_clawed_back d) eqn:Hcb.
  { injection Hrun as <- <-. exists [], landed1. rewrite app_nil_r. split_and!; auto. intros _.
    split; [exists d; auto|]. unfold vault_deficit. rewrite Hd0, Hcb. case_match; lia. }
  apply io_bind_run in Hrun as [(target & net2 & [= <- Ht] & Hrun)|(e & [= <- _] & ->)]; [|apply Hfail; eauto].
  apply expect_Ok, checked_sub_u64_Some in Ht as [-> Hle].
  destruct (since_pass net0 (pass net) _ landed1 Htok Hq1 Hsi1) as [Hq2 [landed2 Hsi2]].
  apply io_bind_run in Hrun as [(va & net2 & Hf & Hrun)|(e & Hf & ->)].
  2: { apply fetch_unwrap_run in Hf as [-> _]. apply Hfail; eauto. }
  apply fetch_unwrap_run in Hf as [-> [?|(va' & Hva & [= <-])]]; [done|].
  assert (tk_accounts (st_tokens st0) !! vault tree = Some va) as Hva0.
  { rewrite (fl_other _ _ _ (si_flow _ _ _ _ Hsi2)), H0 in Hva; [done|].
    eapply vault_untouched; [apply (si_landed _ _ _ _ Hsi2)|done|done]. }
  assert (fundable args st0 tree) as Hfd by (exists d; eauto 6).
  assert (lacks tree = Z.max 0 (at_max_total_claim tree - md_total_amount_claimed d - ta_amount va)) as Hlack.
  { unfold vault_deficit. by rewrite Hd0, Hva0, Hcb. }
  destruct (Z.leb_spec (at_max_total_claim tree - md_total_amount_claimed d) (ta_amount va)) as [Hfull|Hshort].
  { injection Hrun as <- <-. exists [], landed2. rewrite app_nil_r. split_and!; auto. intros _.
    split; [done|lia]. }
  apply io_bind_run in Hrun as [(amount & net3 & [= <- Ham] & Hrun)|(e & [= <- _] & ->)]; [|apply Hfail; eauto].
  apply expect_Ok, checked_sub_u64_Some in Ham as [-> _]. rewrite Z.max_r in Hlack by lia.
  destruct (since_pass net0 _ _ landed2 Htok Hq2 Hsi2) as [Hq3 [landed3 Hsi3]].
  apply io_bind_run in Hrun as [(h & net4 & Hf & Hrun)|(e & Hf & ->)];
    apply latest_blockhash_run in Hf as [-> _]; [|apply Hfail; eauto].
  destruct (since_pass net0 _ _ landed3 Htok Hq3 Hsi3) as [Hq4 [landed4 Hsi4]]. rewrite <- Hlack in Hrun.
  apply io_bind_run in Hrun as [(sig & net5 & Hs & Hrun)|(e & Hs & ->)]; apply send_transaction_run in Hs;
    [|by destruct Hs as [[_ ?]|(_ & _ & [?|[? _]])]].
  unfold ask in Hrun. injection Hrun as <- <-. destruct Hs as [[-> [= ->]]|(-> & Hpre & Hsig)].
  { exists [], landed4. rewrite app_nil_r. by split_and!; auto. }
  exists [(tree, h)], landed4. rewrite funding_app. split_and!; [by apply since_submit|done| |auto].
  right. exists h. split; [done|]. lia.
Qed.

Lemma process_fund_all_run net0 net l landed trees net' r :
  net_ledger net0 = st0 → since net0 net (funding l) landed → quiet net →
  NoDup (map (vault ∘ fst) l ++ map vault trees) → source_vault args ∉ map vault trees →
  process_fund_all args trees net = (net', r) →
  ∃ l' landed', since net0 net' (funding (l ++ l')) landed' ∧ quiet net' ∧
    map fst l' `sublist_of` trees ∧ (∀ p, p ∈ l' → 0 < lacks p.1) ∧
    (r = Ok tt → ∀ tree, tree ∈ trees → fundable args st0 tree ∧ (0 < lacks tree → tree ∈ map fst l')).
Proof.
  unfold process_fund_all. intros H0. revert net l landed.
  induction trees as [|tree trees IH]; intros net l landed Hsi Hq Hnd Hsrc Hrun; cbn [for_each] in Hrun.
  { injection Hrun as <- <-. exists [], landed. rewrite app_nil_r.
    split_and!; [done|done|done|set_solver|set_solver]. }
  cbn [map] in Hsrc. apply not_elem_of_cons in Hsrc as [Hs1 Hs2].
  assert (vault tree ∉ map (vault ∘ fst) l) as Hnew.
  { apply NoDup_app in Hnd as (_ & Hdis & _). intros Hin. apply (Hdis _ Hin), list_elem_of_here. }
  assert (∀ l1, (l1 = [] ∨ ∃ h, l1 = [(tree, h)]) → NoDup (map (vault ∘ fst) (l ++ l1) ++ map vault trees))
    as Hnd1.
  { intros l1 Hl1. rewrite map_app, <- app_assoc. destruct Hl1 as [-> |[h ->]]; simpl; [|done].
    eapply sublist_NoDup; [exact Hnd|]. apply sublist_app; [done|]. by apply sublist_cons. }
  apply io_bind_run in Hrun as [([] & net1 & Hone & Hrest)|(e & Hone & ->)];
    destruct (fund_tree_run net0 net l landed tree _ _ H0 Hsi Hq Hs1 Hnew Hone)
      as (l1 & landed1 & Hsi1 & Hq1 & Hl1 & Hok1).
  - destruct (IH net1 (l ++ l1) landed1 Hsi1 Hq1) as (l2 & landed2 & Hsi2 & Hq2 & Hsub & Hpos & Hok2);
      [apply Hnd1; naive_solver|done|done|].
    exists (l1 ++ l2), landed2. rewrite app_assoc, map_app. split_and!; [done|done| | |].
    + destruct Hl1 as [-> |(h & -> & _)]; simpl; by constructor.
    + intros p [Hp|Hp]%elem_of_app; [|auto]. destruct Hl1 as [-> |(h & -> & ?)]; set_solver.
    + intros -> t [-> |Ht]%elem_of_cons.
      * destruct (Hok1 eq_refl) as [Hfd Hsent]. split; [done|]. intros Hlack. apply elem_of_app. left.
        destruct Hl1 as [-> |(h & -> & _)]; [by destruct (Hsent Hlack)|apply list_elem_of_here].
      * destruct (Hok2 eq_refl t Ht) as [Hfd Hsent]. split; [done|]. intros Hlack%Hsent.
        apply elem_of_app. by right.
  - exists l1, landed1. split_and!; [done|done| | |done].
    + destruct Hl1 as [-> |(h & -> & _)]; simpl; [apply sublist_nil_l|]. constructor. apply sublist_nil_l.
    + intros p Hp. destruct Hl1 as [-> |(h & -> & ?)]; set_solver.
Qed.

(** ** Balances *)
Section balances.
Context (trees : list AirdropMerkleTree) (l : list (AirdropMerkleTree * Z)) (landed : list Transaction).
Context (Hnd : NoDup (map vault trees)) (Hsrc : source_vault args ∉ map vault trees).
Context (Hsub : map fst l `sublist_of` trees).
Context (Hlanded : ∀ tx, tx ∈ landed → tx ∈ funding l) (Honce : NoDup landed).

Lemma vault_not_source tree : tree ∈ trees → source_vault args ≠ vault tree.
Proof. intros Ht Heq. apply Hsrc. rewrite Heq. by apply list_elem_of_fmap_2. Qed.

Lemma funded_tree p : p ∈ l → p.1 ∈ trees.
Proof.
  intros Hp. eapply elem_of_submseteq; [exact (list_elem_of_fmap_2 fst _ _ Hp)|]. by apply sublist_submseteq.
Qed.

Lemma vault_inj t t' : t ∈ trees → t' ∈ trees → vault t = vault t' → t = t'.
Proof.
  clear -Hnd. induction trees as [|x ts IH]; [by intros ?%elem_of_nil|].
  cbn [map] in Hnd. apply NoDup_cons in Hnd as [Hx Hts].
  intros [-> |Ht]%elem_of_cons [-> |Ht']%elem_of_cons Heq; [done| | |auto].
  - destruct Hx. rewrite Heq. by apply list_elem_of_fmap_2.
  - destruct Hx. rewrite <- Heq. by apply list_elem_of_fmap_2.
Qed.

(** One transfer per tree. *)
Lemma one_transfer p p' : p ∈ l → p' ∈ l → vault p.1 = vault p'.1 → p = p'.
Proof.
  intros Hp Hp' Heq. pose proof (vault_inj _ _ (funded_tree p Hp) (funded_tree p' Hp') Heq) as Ht.
  assert (NoDup (map fst l)) as Hl.
  { apply (NoDup_fmap_1 vault). eapply sublist_NoDup; [exact Hnd|]. by apply fmap_sublist. }
  clear -Hl Hp Hp' Ht. induction l as [|x xs IH]; [by apply elem_of_nil in Hp|].
  cbn [map] in Hl. apply NoDup_cons in Hl as [Hx Hxs].
  apply elem_of_cons in Hp as [-> |Hp]; apply elem_of_cons in Hp' as [-> |Hp']; [done| | |auto].
  - destruct Hx. rewrite Ht. exact (list_elem_of_fmap_2 fst _ _ Hp').
  - destruct Hx. rewrite <- Ht. exact (list_elem_of_fmap_2 fst _ _ Hp).
Qed.

Lemma vault_flow_in p :
  p ∈ l → let tx := fund_tx args p.1 (lacks p.1) p.2 in
  (tx ∈ landed → flow (vault p.1) landed = lacks p.1) ∧ (tx ∉ landed → flow (vault p.1) landed = 0).
Proof.
  intros Hp tx. destruct (flow_single (vault p.1) landed tx Honce) as [Hin Hout].
  - intros tx' Htx' Hne. apply Hlanded, list_elem_of_fmap in Htx' as (p' & -> & Hp').
    rewrite fund_tx_flow, !bool_decide_eq_false_2; [lia|by apply vault_not_source, funded_tree|].
    intros Heq. apply Hne. unfold tx. by rewrite (one_transfer p' p Hp' Hp Heq).
  - split; [|done]. intros Hl. rewrite Hin by done. unfold tx.
    rewrite fund_tx_flow, bool_decide_eq_true_2, bool_decide_eq_false_2;
      [lia|by apply vault_not_source, funded_tree|done].
Qed.
Lemma vault_flow_out tree : tree ∈ trees → tree ∉ map fst l → flow (vault tree) landed = 0.
Proof.
  intros Ht Hno. apply flow_none. intros tx Htx. apply Hlanded, list_elem_of_fmap in Htx as (p & -> & Hp).
  rewrite fund_tx_flow, !bool_decide_eq_false_2; [lia|by apply vault_not_source|].
  intros Heq. apply Hno. rewrite <- (vault_inj _ _ (funded_tree p Hp) Ht Heq).
  exact (list_elem_of_fmap_2 fst _ _ Hp).
Qed.
Lemma vault_flow tree :
  tree ∈ trees → (∀ p, p ∈ l → 0 < lacks p.1) →
  flow (vault tree) landed = 0 ∨ 0 < lacks tree ∧ flow (vault tree) landed = lacks tree.
Proof.
  intros Ht Hpos. destruct (decide (vault tree ∈ map vault (map fst l))) as [Hin|Hno].
  - apply list_elem_of_fmap in Hin as (t & Hv & ([t' h] & -> & Hp)%list_elem_of_fmap). simpl in Hv.
    rewrite (vault_inj tree t' Ht (funded_tree _ Hp) Hv).
    destruct (vault_flow_in _ Hp) as [Hl Hn]. simpl in *. specialize (Hpos _ Hp). simpl in Hpos.
    destruct (decide (flow (vault t') landed = 0)) as [?|Hne]; [by left|]. right. split; [done|].
    apply Hl. destruct (decide (fund_tx args t' (lacks t') h ∈ landed)) as [?|?]; [done|].
    by destruct Hne; apply Hn.
  - left. apply vault_flow_out; [done|]. intros Hin. apply Hno. by apply list_elem_of_fmap_2.
Qed.

(** What the vaults gained is what the source gave. *)
Lemma sum_over_vaults t v :
  t ∈ trees → sum_list (λ t', if bool_decide (vault t = vault t') then v else 0) trees = v.
Proof.
  clear -Hnd. induction trees as [|x ts IH]; [by intros ?%elem_of_nil|]. cbn [map] in Hnd.
  apply NoDup_cons in Hnd as [Hx Hts]. intros [-> |Ht]%elem_of_cons; simpl.
  - rewrite bool_decide_eq_true_2 by done. rewrite (sum_list_ext _ (λ _, 0)).
    + rewrite sum_list_zero. lia.
    + intros t' Ht'. rewrite bool_decide_eq_false_2; [done|]. intros Heq. apply Hx. rewrite Heq.
      by apply list_elem_of_fmap_2.
  - rewrite IH by done. rewrite bool_decide_eq_false_2; [lia|]. intros Heq. apply Hx. rewrite <- Heq.
    by apply list_elem_of_fmap_2.
Qed.
Lemma source_flow : flow (source_vault args) landed = - sum_list (λ t, flow (vault t) landed) trees.
Proof.
  clear Honce. induction landed as [|tx txs IH].
  - unfold flow. simpl. by rewrite sum_list_zero.
  - assert (tx ∈ funding l) as Htx by (apply Hlanded, list_elem_of_here).
    apply list_elem_of_fmap in Htx as (p & -> & Hp).
    assert (∀ q, flow q (fund_tx args p.1 (lacks p.1) p.2 :: txs)
      = tx_flow q (fund_tx args p.1 (lacks p.1) p.2) + flow q txs) as Hcons by done.
    rewrite Hcons, IH by (intros; apply Hlanded; by right).
    rewrite (sum_list_ext (λ t, flow (vault t) (fund_tx args p.1 (lacks p.1) p.2 :: txs))
      (λ t, (if bool_decide (vault p.1 = vault t) then lacks p.1 else 0) + flow (vault t) txs)).
    + rewrite sum_list_add, sum_over_vaults by by apply funded_tree.
      rewrite fund_tx_flow, bool_decide_eq_false_2, bool_decide_eq_true_2; [lia|done|].
      intros Heq. by destruct (vault_not_source p.1 (funded_tree p Hp)).
    + intros t Ht. rewrite Hcons, fund_tx_flow, (bool_decide_eq_false_2 (source_vault args = vault t)); [lia|].
      by apply vault_not_source.
Qed.
End balances.

(** A vault after the transfers in [landed]. *)
Lemma vault_after net0 net new landed tree :
  net_ledger net0 = st0 → since net0 net new landed → fundable args st0 tree →
  flow (vault tree) landed = lacks tree → funded args (net_ledger net) tree.
Proof.
  intros H0 Hsi (d & Hd & Hc) Hflow. pose proof (si_flow _ _ _ _ Hsi) as Hf. rewrite H0 in Hf.
  exists d. split; [unfold get_distributor in *; by rewrite (fl_accounts _ _ _ Hf)|].
  destruct Hc as [Hc|(Hle & v & Hv)]; [by left|].
  destruct (md_clawed_back d) eqn:Hcb; [by left|right]. split; [done|].
  destruct (fl_kept _ _ _ Hf _ _ Hv) as (v' & Hv' & _ & Ham). exists v'. split; [done|].
  rewrite Hflow in Ham. unfold vault_deficit in Ham. rewrite Hd, Hv, Hcb in Ham. lia.
Qed.
End run.

(** A run where every vault is covered submits nothing. *)
Lemma process_fund_all_noop args trees net net' r :
  NoDup (map (vault_address args) trees) → source_vault args ∉ map (vault_address args) trees →
  quiet net → net_pending net = [] → (∀ tree, tree ∈ trees → funded args (net_ledger net) tree) →
  process_fund_all args trees net = (net', r) → net_sent net' = net_sent net.
Proof.
  intros Hnd Hsrc Hq Hp Hall Hrun.
  destruct (process_fund_all_run args _ net net [] [] trees net' r eq_refl (since_start net Hp) Hq Hnd Hsrc Hrun)
    as (l & landed & Hsi & _ & Hsub & Hpos & _).
  destruct l as [|p l]; [by rewrite (si_sent _ _ _ _ Hsi), app_nil_r|].
  specialize (Hpos p (list_elem_of_here _ _)). exfalso.
  rewrite (funded_deficit args (net_ledger net) p.1) in Hpos; [lia|]. apply Hall.
  eapply (funded_tree trees (p :: l)); [exact Hsub|apply list_elem_of_here].
Qed.

(** What every run leaves, after any further events in which nobody else acts. *)
Lemma process_fund_all_later args trees net net1 r events :
  NoDup (map (vault_address args) trees) → source_vault args ∉ map (vault_address args) trees →
  quiet net → net_pending net = [] →
  process_fund_all args trees net = (net1, r) → Forall quiet_event events →
  ∃ l landed, since net (net_run net1 events) (funding args (net_ledger net) l) landed ∧
    quiet (net_run net1 events) ∧
    map fst l `sublist_of` trees ∧ (∀ p, p ∈ l → 0 < vault_deficit args (net_ledger net) p.1) ∧
    (r = Ok tt → ∀ tree, tree ∈ trees → fundable args (net_ledger net) tree ∧
       (0 < vault_deficit args (net_ledger net) tree → tree ∈ map fst l)).
Proof.
  intros Hnd Hsrc Hq Hp Hrun Hev.
  destruct (process_fund_all_run args _ net net [] [] trees net1 r eq_refl (since_start net Hp) Hq Hnd Hsrc Hrun)
    as (l & landed1 & Hsi1 & Hq1 & Hsub & Hpos & Hok).
  destruct (since_run net net1 _ landed1 events (funding_token _ _ l) Hev Hsi1) as (landed & Hsi & _).
  exists l, landed. split_and!; [done| |done..]. unfold quiet. by rewrite net_run_future.
Qed.

(** Once the transfers of a run that returned have landed. *)
Lemma process_fund_all_settled args trees net net1 events :
  NoDup (map (vault_address args) trees) → source_vault args ∉ map (vault_address args) trees →
  quiet net → net_pending net = [] →
  process_fund_all args trees net = (net1, Ok tt) → Forall quiet_event events →
  settled net (net_run net1 events) →
  (∃ landed, flowed landed (net_ledger net) (net_ledger (net_run net1 events)) ∧
     ∀ tree, tree ∈ trees → flow (vault_address args tree) landed = vault_deficit args (net_ledger net) tree) ∧
  ∀ tree, tree ∈ trees → funded args (net_ledger (net_run net1 events)) tree.
Proof.
  intros Hnd Hsrc Hq Hp Hrun Hev Hset. set (lacks := vault_deficit args (net_ledger net)).
  destruct (process_fund_all_later _ _ _ _ _ _ Hnd Hsrc Hq Hp Hrun Hev)
    as (l & landed & Hsi & _ & Hsub & Hpos & Hok).
  pose proof (si_landed _ _ _ _ Hsi) as Hin. pose proof (si_once _ _ _ _ Hsi) as Honce.
  assert (∀ tree, tree ∈ trees → flow (vault_address args tree) landed = lacks tree) as Hfull.
  { intros tree Ht. destruct (Hok eq_refl tree Ht) as [Hfd Hsent].
    destruct (vault_flow args _ trees l landed Hnd Hsrc Hsub Hin Honce tree Ht Hpos) as [Hz|[_ ?]]; [|done].
    assert (0 ≤ lacks tree) as Hnn by (unfold lacks, vault_deficit; repeat case_match; lia).
    destruct (decide (0 < lacks tree)) as [Hlack|?]; [|lia].
    apply Hsent, list_elem_of_fmap in Hlack as ([t h] & Heq & Hl). simpl in Heq. subst t.
    destruct (vault_flow_in args _ trees l landed Hnd Hsrc Hsub Hin Honce _ Hl) as [Hpaid _].
    apply Hpaid. eapply since_settled; [exact Hsi|done|].
    exact (list_elem_of_fmap_2 (λ p, fund_tx args p.1 (lacks p.1) p.2) _ _ Hl). }
  split; [exists landed; split; [apply Hsi|done]|].
  intros tree Ht. eapply vault_after; [done|exact Hsi|by apply Hok|by apply Hfull].
Qed.

Lemma process_fund_all_one args tree net net' :
  fund_tree args tree net = (net', Ok tt) → process_fund_all args [tree] net = (net', Ok tt).
Proof. unfold process_fund_all. cbn [for_each]. unfold mbind, io_bind. by intros ->. Qed.

(** Deploying a fresh tree, funding it and letting the transfer land makes the
    verification command with the same options pass, vault amount included, and,
    unless closable, leaves a distributor whose vault covers every claim. *)
Lemma deploy_fund_verify args da st tree net net1 events :
  st_accounts st !! distributor_of args tree = None → vault_unfunded args st tree →
  source_vault args ≠ vault_address args tree → 0 ≤ at_max_total_claim tree →
  deploy_tree args da st tree = Ok (net_ledger net) → quiet net → net_pending net = [] →
  fund_tree args tree net = (net1, Ok tt) → Forall quiet_event events →
  settled net (net_run net1 events) →
  verify_tree args (verify_args_of args da) (net_ledger (net_run net1 events)) tree = Ok tt ∧
  (da_closable da = false → solvent (net_ledger (net_run net1 events)) (distributor_of args tree)).
Proof.
  intros Hnone Hempty Hne Hmax Hd Hq Hp Hf%process_fund_all_one Hev Hset.
  destruct (deploy_tree_fresh _ _ _ _ _ Hnone Hempty Hne Hd)
    as (d & v & Hgd & Hm & Hrcv & Hvk & Hcl & Hcb & Hv & Hv0 & Hdel).
  destruct (process_fund_all_settled args [tree] net net1 events) as [(landed & Hfl & Hflow) _];
    [apply NoDup_singleton|by intros ?%list_elem_of_singleton|done..|].
  specialize (Hflow tree (list_elem_of_here _ _)).
  destruct (fl_kept _ _ _ Hfl _ _ Hv) as (v2 & Hv2 & (_ & _ & _ & Hdel2) & Ham).
  assert (ta_amount v2 = at_max_total_claim tree) as Ham2.
  { rewrite Ham, Hflow. unfold vault_deficit. rewrite Hgd, Hv, Hcb. lia. }
  assert (get_distributor (net_ledger (net_run net1 events)) (distributor_of args tree) = Some d) as Hgd2.
  { unfold get_distributor. by rewrite (fl_accounts _ _ _ Hfl). }
  destruct Hm as (Hr & Hmt & Hmn & Hs & He & Hcs & Hen & Hclo & Hadm). split.
  - unfold verify_tree. rewrite Hv2, Hgd2. simpl.
    by rewrite Ham2, Hr, Hcs, Hclo, Hadm, Hen, Hrcv, !Z.eqb_refl, eqb_reflx, !bool_decide_eq_true_2.
  - intros Hncl. exists d. split_and!; [by apply get_distributor_Some|congruence|]. right.
    exists v2. split; [split; [by rewrite Hvk|auto]|]. unfold deficit. lia.
Qed.

(** C35.  Funding is exact and can be repeated once its transfers have landed.
    The vaults are distinct and none of them is the source, nothing of the
    operator's is in flight when the command starts, and nobody else acts during
    the run.  Then the command submits at most one transfer per vault, of exactly
    what the vault lacks of what can still be claimed, and none to a covered or
    clawed-back one; when it returns it has submitted one for every short vault.
    Submission is not payment: whatever the network does with the transfers
    afterwards (process them in any order, fail or lose them, also while time
    passes), each vault has gained nothing or exactly what it lacked, never more;
    the source has paid the sum of the gains; nothing else has changed.  When the
    command has returned and all its transfers have succeeded, every vault covers
    what can be claimed, and a second run submits nothing, whatever answers it
    gets.  (Before that a second run may fund twice: [early_rerun_funds_twice].) *)
Theorem funding_is_exact_and_repeatable args trees net net1 r :
  NoDup (map (vault_address args) trees) → source_vault args ∉ map (vault_address args) trees →
  quiet net → net_pending net = [] →
  process_fund_all args trees net = (net1, r) →
  let lacks := vault_deficit args (net_ledger net) in
  (∃ l, net_sent net1 = net_sent net ++ map (λ '(tree, h), fund_tx args tree (lacks tree) h) l ∧
     map fst l `sublist_of` trees ∧ (∀ tree, tree ∈ map fst l → 0 < lacks tree) ∧
     (r = Ok tt → ∀ tree, tree ∈ trees → 0 < lacks tree → tree ∈ map fst l)) ∧
  ∀ events, Forall quiet_event events →
    let net2 := net_run net1 events in
    let gain := gain net net2 in
    (∀ tree, tree ∈ trees →
       gain (vault_address args tree) = 0 ∨
       0 < lacks tree ∧ gain (vault_address args tree) = lacks tree) ∧
    gain (source_vault args) = - sum_list (λ tree, gain (vault_address args tree)) trees ∧
    st_accounts (net_ledger net2) = st_accounts (net_ledger net) ∧
    (∀ p, p ≠ source_vault args → p ∉ map (vault_address args) trees →
       tk_accounts (st_tokens (net_ledger net2)) !! p = tk_accounts (st_tokens (net_ledger net)) !! p) ∧
    (r = Ok tt → settled net net2 →
       (∀ tree, tree ∈ trees →
          gain (vault_address args tree) = lacks tree ∧ funded args (net_ledger net2) tree) ∧
       ∀ net3 r', process_fund_all args trees net2 = (net3, r') → net_sent net3 = net_sent net2).
Proof.
  intros Hnd Hsrc Hq Hp Hrun lacks.
  destruct (process_fund_all_run args _ net net [] [] trees net1 r eq_refl (since_start net Hp) Hq Hnd Hsrc Hrun)
    as (l & landed1 & Hsi1 & Hq1 & Hsub & Hpos & Hok). simpl in Hsi1. split.
  { exists l. split_and!; [|done| |].
    - rewrite (si_sent _ _ _ _ Hsi1). f_equal. unfold funding. by apply map_ext; intros [].
    - intros tree ([t h] & -> & Hin)%list_elem_of_fmap. exact (Hpos _ Hin).
    - intros -> tree Ht. by apply Hok. }
  intros events Hev net2 gain.
  destruct (process_fund_all_later _ _ _ _ _ _ Hnd Hsrc Hq Hp Hrun Hev)
    as (l' & landed & Hsi & Hq2 & Hsub' & Hpos' & _).
  pose proof (si_flow _ _ _ _ Hsi) as Hf.
  assert (∀ p, gain p = flow p landed) as Hgain by (intros p; by eapply since_gain).
  pose proof (si_landed _ _ _ _ Hsi) as Hin. pose proof (si_once _ _ _ _ Hsi) as Honce.
  split_and!; [| |apply Hf| |].
  - intros tree Ht. rewrite Hgain.
    destruct (vault_flow args _ trees l' landed Hnd Hsrc Hsub' Hin Honce tree Ht Hpos') as [?|[??]];
      [by left|by right].
  - rewrite Hgain, (source_flow args _ trees l' landed Hnd Hsrc Hsub' Hin).
    rewrite (sum_list_ext (λ tree, gain (vault_address args tree))
      (λ tree, flow (vault_address args tree) landed)) by (intros; apply Hgain). done.
  - intros p Hs Hv. apply (fl_other _ _ _ Hf). intros (tx & ix & Htx & Hix & Ht).
    apply Hin, list_elem_of_fmap in Htx as (q & -> & Hq'). apply list_elem_of_singleton in Hix as ->.
    destruct Ht as [-> | ->]; [done|]. apply Hv, list_elem_of_fmap_2. by eapply funded_tree.
  - intros -> Hset.
    destruct (process_fund_all_settled _ _ _ _ _ Hnd Hsrc Hq Hp Hrun Hev Hset) as [(landed' & Hf' & Hfull) Hfunded].
    split.
    + intros tree Ht. split; [|by apply Hfunded]. unfold gain, NetworkTheorems.gain, net2. rewrite (fl_held _ _ _ Hf'), Hfull by done.
      unfold lacks. lia.
    + intros net3 r' Hrerun.
      by eapply process_fund_all_noop; [..|apply Hset|exact Hfunded|exact Hrerun].
Qed.
End funding.

(** ** Witnesses *)
#[local] Existing Instances reference_ata reference_ata_spec reference_signatures reference_signatures_spec.

(** The scenario's tree has been deployed; the transfer lands after the run. *)
Definition fx_net0 : Network := mkNetwork dx_state1 7 [] [] [] [].
Definition fx_net1 : Network := (process_fund_all dx_args [dx_tree] fx_net0).1.
Definition fx_net2 : Network := net_run fx_net1 [Time (mkClock 60 1010); Land 0].

Lemma fx_run : process_fund_all dx_args [dx_tree] fx_net0 = (fx_net1, Ok tt).
Proof.
  assert ((process_fund_all dx_args [dx_tree] fx_net0).2 = Ok tt) as <- by (vm_compute; reflexivity).
  apply surjective_pairing.
Qed.

Lemma fx_settled : settled fx_net0 fx_net2.
Proof.
  split; [vm_compute; reflexivity|].
  assert (Forall (λ tx, (signature_of tx, true) ∈ net_log fx_net2)
    (drop (length (net_sent fx_net0)) (net_sent fx_net2))) as Hall
    by (apply (bool_decide_unpack _); vm_compute; exact I).
  exact (proj1 (Forall_forall _ _) Hall).
Qed.

Lemma funding_is_exact_and_repeatable_witness :
  gain fx_net0 fx_net2 (vault_address dx_args dx_tree) = 152 ∧
  funded dx_args (net_ledger fx_net2) dx_tree.
Proof.
  destruct (funding_is_exact_and_repeatable dx_args [dx_tree] fx_net0 fx_net1 (Ok tt)
    ltac:(apply NoDup_singleton)
    ltac:(intros Heq; apply list_elem_of_singleton in Heq; by apply dx_vaults_differ)
    ltac:(constructor) eq_refl fx_run) as [_ Hlater].
  destruct (Hlater [Time (mkClock 60 1010); Land 0] ltac:(repeat constructor)) as (_ & _ & _ & _ & Hdone).
  destruct (Hdone eq_refl fx_settled) as [Hall _].
  destruct (Hall dx_tree (list_elem_of_here _ _)) as [Hgain Hfunded].
  split; [|exact Hfunded]. refine (eq_trans Hgain _). vm_compute. reflexivity.
Defined.

(** A second run while the first transfer is in flight submits it again, made with
    a newer blockhash; both land and the vault holds twice what it needs. *)
Example early_rerun_funds_twice :
  let net1 := (process_fund_all dx_args [dx_tree] (net_run fx_net1 [NewBlock 8])).1 in
  held (st_tokens (net_ledger (net_run net1 [Land 0; Land 0]))) (vault_address dx_args dx_tree) = 2 * 152.
Proof. vm_compute. reflexivity. Qed.

(** A transfer that is lost leaves the vault empty although the run returned. *)
Example lost_transfer_leaves_vault_short :
  held (st_tokens (net_ledger (net_run fx_net1 [Lose 0]))) (vault_address dx_args dx_tree) = 0.
Proof. vm_compute. reflexivity. Qed.
