(* ===== verification/Commands.v ===== *)
(** * The remaining commands of the tool
    (src/cli/src/bin/instructions: process_set_admin.rs, process_clawback.rs,
    process_set_clawback_receiver.rs, process_set_enable_slot.rs,
    process_set_enable_slot_by_time.rs, process_get_slot.rs,
    proccess_close_distribitor.rs, process_close_claim_status.rs,
    process_new_claim.rs, process_claim.rs)

    The commands that send instructions for existing distributors, as functions
    of the [Network].  Four of them retry a transaction until the node takes it:
    their loops take fuel.  The claim commands wait for their transactions and are
    functions of the ledger. *)
From S2P Require Import Prelude Machine Hashing MerkleTree MerkleProof TreeNode Airdrop.
From S2P Require Import ProgramError ClaimStatus Solana Token State Handlers Program Network Deploy.

(** ** Slots *)

(** [DEFAULT_MS_PER_SLOT] of the Solana SDK. *)
Definition DEFAULT_MS_PER_SLOT : Z := 400.

(** [RpcPerfSample]: the fields the average reads. *)
Record PerfSample := mkPerfSample { ps_sample_period_secs : Z; ps_num_slots : Z }.

Definition checked_div_u64 (a b : Z) : option Z := if b =? 0 then None else Some (a / b).

(** Milliseconds per slot; outside half to double the default it is the default. *)
Definition get_average_slot_time (samples : list PerfSample) : result cli_failure Z :=
  let num_samples := Z.of_nat (length samples) in
  if num_samples =? 0 then Ok DEFAULT_MS_PER_SLOT
  else
    total_time ← try_fold (λ total sample,
        ms ← expect (checked_mul_u64 (ps_sample_period_secs sample) 1000);
        per_slot ← expect (checked_div_u64 ms (ps_num_slots sample));
        expect (checked_add_u64 total per_slot)) 0 samples;
    let average_time := total_time / num_samples in
    if (average_time <? DEFAULT_MS_PER_SLOT / 2) || (DEFAULT_MS_PER_SLOT * 2 <? average_time)
    then Ok DEFAULT_MS_PER_SLOT
    else Ok average_time.

(** The slot at [enable_time], extrapolated from the clock. *)
Definition process_get_slot (clock : Clock) (samples : list PerfSample) (enable_time : Z)
  : result cli_failure Z :=
  current_time ← expect (if 0 <=? clk_unix_timestamp clock then Some (clk_unix_timestamp clock) else None);
  let current_slot := clk_slot clock in
  average_slot_time ← get_average_slot_time samples;
  if current_time <? enable_time then
    ms ← expect (checked_mul_u64 (enable_time - current_time) 1000);
    slots ← expect (checked_div_u64 ms average_slot_time);
    expect (checked_add_u64 current_slot slots)
  else
    ms ← expect (checked_mul_u64 (current_time - enable_time) 1000);
    slots ← expect (checked_div_u64 ms average_slot_time);
    expect (checked_sub_u64 current_slot slots).

Section commands.
Context `{Hasher} `{AddressDerivation} `{TokenProgram} `{AtaProgram} `{SignatureScheme}.
Implicit Types (st : State) (args : Args) (tree : AirdropMerkleTree).

(** ** Sending *)

(** A transaction signed by the payer, submitted ([send_transaction]) or waited for
    ([send_and_confirm_transaction_with_spinner]). *)
Definition send_ixs args (confirm : bool) (ixs : list Instruction) : io Network (option string) :=
  blockhash ← latest_blockhash;
  (if confirm then send_and_confirm_transaction else send_transaction)
    (mkTransaction (arg_payer args) blockhash (map ProgramIx ixs)).

(** [loop { if already done { break } match send { Ok => break, Err => print } }]
    for the distributor [k]. *)
Fixpoint retry_loop args (confirm : bool) (already : MerkleDistributor → bool)
    (ix : MerkleDistributor → Instruction) (k : Pubkey) (fuel : nat) : io Network unit :=
  match fuel with
  | O => ask (λ _, Err CliFuel)
  | S fuel =>
      distributor_state ← fetch_unwrap (λ st, get_distributor st k);
      if already distributor_state then mret tt
      else
        signature ← send_ixs args confirm [ix distributor_state];
        match signature with
        | Some _ => mret tt
        | None => retry_loop args confirm already ix k fuel
        end
  end.

(** ** process_set_admin.rs *)
Definition set_admin_done (new_admin : Pubkey) (d : MerkleDistributor) : bool :=
  bool_decide (md_admin d = new_admin).
Definition set_admin_ix args (new_admin k : Pubkey) (_ : MerkleDistributor) : Instruction :=
  ISetAdmin (mkSetAdmin k (arg_payer args) new_admin).

(** ** process_clawback.rs *)
Definition clawback_ix args (k : Pubkey) (d : MerkleDistributor) : Instruction :=
  IClawback (mkClawback k (md_token_vault d) (md_clawback_receiver d) (arg_payer args)).

(** ** process_set_clawback_receiver.rs *)
Definition new_clawback_account args (receiver : Pubkey) : Pubkey :=
  get_associated_token_address receiver (arg_mint args).
Definition set_clawback_receiver_done args (receiver : Pubkey) (d : MerkleDistributor) : bool :=
  bool_decide (md_clawback_receiver d = new_clawback_account args receiver).
Definition set_clawback_receiver_ix args (receiver k : Pubkey) (_ : MerkleDistributor) : Instruction :=
  ISetClawbackReceiver (mkSetClawbackReceiver k (new_clawback_account args receiver) (arg_payer args)).

(** ** process_set_enable_slot.rs *)
Definition set_enable_slot_done (slot : Z) (d : MerkleDistributor) : bool := md_enable_slot d =? slot.
Definition set_enable_slot_ix args (slot : Z) (k : Pubkey) (_ : MerkleDistributor) : Instruction :=
  ISetEnableSlot (mkSetEnableSlot k (arg_payer args)) slot.

(** [send_and_confirm_transaction_with_spinner(&tx).unwrap()]. *)
Definition send_unwrap args (ix : Instruction) : io Network unit :=
  signature ← send_ixs args true [ix];
  ask (λ _, match signature with Some _ => Ok tt | None => Err CliPanic end).

(** With a version: one attempt. *)
Definition set_enable_slot_once args (slot version : Z) : io Network unit :=
  let k := (get_merkle_distributor_pda (arg_program_id args) (arg_mint args) version).1 in
  distributor_state ← fetch_unwrap (λ st, get_distributor st k);
  if set_enable_slot_done slot distributor_state then mret tt
  else send_unwrap args (set_enable_slot_ix args slot k distributor_state).

(** ** process_set_enable_slot_by_time.rs *)
Definition set_slot args (slot : Z) (k : Pubkey) : io Network unit :=
  send_unwrap args (ISetEnableSlot (mkSetEnableSlot k (arg_payer args)) slot).

(** ** proccess_close_distribitor.rs *)
Definition close_distributor_ix args (k : Pubkey) (d : MerkleDistributor) : Instruction :=
  ICloseDistributor (mkCloseDistributor k (md_token_vault d) (arg_payer args)
                       (get_associated_token_address (arg_payer args) (arg_mint args))).

(** A failed submission is only printed. *)
Definition close_distributor args (k : Pubkey) (d : MerkleDistributor) : io Network unit :=
  _ ← send_ixs args false [close_distributor_ix args k d]; mret tt.

(** ** process_close_claim_status.rs *)
Definition numer_of_close_ix_per_transaction : nat := 11.

Definition close_claim_status_ix args (value : Pubkey * ClaimStatus) : Instruction :=
  ICloseClaimStatus (mkCloseClaimStatus value.1 (cs_claimant value.2) (arg_payer args)
                       (cs_distributor value.2)).

(** A failed batch is kept and grows. *)
Definition close_batch args (close_ixs : list Instruction) (value : Pubkey * ClaimStatus)
  : io Network (list Instruction) :=
  let close_ixs := close_ixs ++ [close_claim_status_ix args value] in
  if (numer_of_close_ix_per_transaction <=? length close_ixs)%nat then
    signature ← send_ixs args false close_ixs;
    mret (match signature with Some _ => [] | None => close_ixs end)
  else mret close_ixs.
(** [accounts] is what the RPC query returned. *)
Definition process_close_claim_status args (accounts : list (Pubkey * ClaimStatus)) : io Network unit :=
  close_ixs ← for_fold (close_batch args) [] accounts;
  if (0 <? length close_ixs)%nat then _ ← send_ixs args true close_ixs; mret tt else mret tt.

(** ** process_new_claim.rs *)
Definition claim_status_of args tree : Pubkey :=
  (get_claim_status_pda (arg_program_id args) (arg_payer args) (distributor_of args tree)).1.
Definition claimant_ata args : Pubkey :=
  get_associated_token_address (arg_payer args) (arg_mint args).

Definition new_claim_ix args tree (node : TreeNode) (proof : list Hash) : Instruction :=
  INewClaim (mkNewClaim (distributor_of args tree) (claim_status_of args tree)
               (vault_address args tree) (claimant_ata args) (arg_payer args))
    (unlocked_amount_of node) (locked_amount_of node) proof.

(** The claimant is the payer; one transaction makes the token account if it is
    missing and claims. *)
Definition process_new_claim args st tree : result cli_failure State :=
  node ← unwrap (get_node tree (arg_payer args));
  proof ← expect (tn_proof node);
  ts ← ensure_ata (st_tokens st) (arg_payer args) (arg_mint args);
  unwrap (process_instruction {[ arg_payer args ]} (set_tokens ts st) (new_claim_ix args tree node proof)).

(** ** process_claim.rs *)
Definition claim_locked_ix args tree : Instruction :=
  IClaimLocked (mkClaimLocked (distributor_of args tree) (claim_status_of args tree)
                  (vault_address args tree) (claimant_ata args) (arg_payer args)).

(** The ledger the command leaves, and whether it ended in a panic. *)
Definition process_claim args st tree : State * result cli_failure unit :=
  match (if bool_decide (st_accounts st !! claim_status_of args tree = None)
         then process_new_claim args st tree else Ok st) with
  | Err e => (st, Err e)
  | Ok st =>
      match process_instruction {[ arg_payer args ]} st (claim_locked_ix args tree) with
      | Ok st' => (st', Ok tt)
      | Err _ => (st, Err CliPanic)
      end
  end.
End commands.
