(* ===== verification/CommandsTheorems.v ===== *)
(** * The remaining commands: termination, goals, outcomes

    When the retrying commands return and what they have reached then, how exact
    the slot estimate is, and what the claim command does for the entries of a
    tree. *)
From S2P Require Import Prelude Machine Hashing Sha256 MerkleTree MerkleProof TreeNode Airdrop.
From S2P Require Import ProgramError ClaimStatus Solana Token State Handlers Program Execution.
From S2P Require Import Scenario Safety NoPanic Ledger EndToEnd Network NetworkTheorems Signatures.
From S2P Require Import Deploy DeployTheorems Commands.

(** ** The slot estimate *)

Lemma get_average_slot_time_bounds samples avg :
  get_average_slot_time samples = Ok avg → 200 ≤ avg ≤ 800.
Proof.
  unfold get_average_slot_time, DEFAULT_MS_PER_SLOT. destruct (_ =? 0); [intros [= <-]; lia|].
  intros (total & _ & Hc)%bind_Ok.
  destruct (Z.ltb_spec (total / Z.of_nat (length samples)) (400 / 2)) as [?|Hlo]; simpl in Hc;
    [injection Hc as <-; lia|].
  destruct (Z.ltb_spec (400 * 2) (total / Z.of_nat (length samples))) as [?|Hhi];
    injection Hc as <-; [lia|]. change (400 / 2) with 200 in Hlo. lia.
Qed.

Lemma checked_div_u64_Some a b c : checked_div_u64 a b = Some c ↔ c = a / b ∧ b ≠ 0.
Proof. unfold checked_div_u64. case_match; zbool; naive_solver. Qed.

(** What the node returns: [sample_period_secs] is a [u16], [num_slots] a [u64],
    and at most the 720 samples asked for. *)
Definition samples_typed (samples : list PerfSample) : Prop :=
  Forall (λ s, 0 ≤ ps_sample_period_secs s ≤ 65535 ∧ 0 ≤ ps_num_slots s) samples ∧
  (length samples ≤ 720)%nat.

(** The sum is far from overflowing: it fails only at a sample without slots. *)
Lemma sample_sum samples total :
  Forall (λ s, 0 ≤ ps_sample_period_secs s ≤ 65535 ∧ 0 ≤ ps_num_slots s) samples →
  0 ≤ total → total + 65535000 * Z.of_nat (length samples) ≤ U64_MAX →
  match try_fold (λ total sample,
        ms ← expect (checked_mul_u64 (ps_sample_period_secs sample) 1000);
        per_slot ← expect (checked_div_u64 ms (ps_num_slots sample));
        expect (checked_add_u64 total per_slot)) total samples with
  | Ok _ => Forall (λ s, ps_num_slots s ≠ 0) samples
  | Err e => e = CliPanic ∧ ∃ s, s ∈ samples ∧ ps_num_slots s = 0
  end.
Proof.
  intros Hall. revert total. induction Hall as [|s samples [Hp Hn] _ IH]; intros total Hpos Hle; [constructor|].
  cbn [length try_fold] in *. unfold checked_mul_u64.
  rewrite (proj2 (Z.leb_le _ _)) by zlia. cbn [expect ok_or mbind result_bind].
  unfold checked_div_u64. destruct (Z.eqb_spec (ps_num_slots s) 0) as [Hz|Hz]; cbn [expect ok_or mbind result_bind].
  { split; [done|]. exists s. set_solver. }
  set (q := ps_sample_period_secs s * 1000 / ps_num_slots s).
  assert (0 ≤ q ≤ 65535000) as Hq.
  { split; [apply Z.div_pos; lia|]. trans (ps_sample_period_secs s * 1000); [|lia].
    apply Z.div_le_upper_bound; [lia|]. nia. }
  unfold checked_add_u64. rewrite (proj2 (Z.leb_le _ _)) by lia. cbn [expect ok_or mbind result_bind].
  specialize (IH (total + q) ltac:(lia) ltac:(lia)). destruct (try_fold _ _ samples).
  - by constructor.
  - destruct IH as [-> (s' & ? & ?)]. split; [done|]. exists s'. set_solver.
Qed.

Lemma get_average_slot_time_spec samples :
  samples_typed samples →
  match get_average_slot_time samples with
  | Ok avg => 200 ≤ avg ≤ 800 ∧ Forall (λ s, ps_num_slots s ≠ 0) samples
  | Err e => e = CliPanic ∧ ∃ s, s ∈ samples ∧ ps_num_slots s = 0
  end.
Proof.
  intros [Hall Hlen]. pose proof (get_average_slot_time_bounds samples) as Hb.
  pose proof (sample_sum samples 0 Hall (Z.le_refl 0) ltac:(zlia)) as Hs.
  unfold get_average_slot_time in *. destruct (Z.eqb_spec (Z.of_nat (length samples)) 0) as [He|He].
  { split; [by apply Hb|]. by destruct samples. }
  destruct (try_fold _ 0 samples) as [total|e]; cbn [mbind result_bind] in *; [|done].
  destruct (_ || _); by split; [apply Hb|].
Qed.

(** The time is too far from the clock for the arithmetic of [u64]. *)
Definition too_far (clock : Clock) (avg t : Z) : Prop :=
  let now := clk_unix_timestamp clock in
  U64_MAX < Z.abs (t - now) * 1000 ∨ U64_MAX < clk_slot clock + (t - now) * 1000 / avg ∨
  clk_slot clock < (now - t) * 1000 / avg.

Lemma slot_arithmetic clock samples avg t :
  get_average_slot_time samples = Ok avg → 200 ≤ avg ≤ 800 →
  is_u64 (clk_slot clock) → 0 ≤ clk_unix_timestamp clock → 0 ≤ t →
  let now := clk_unix_timestamp clock in
  match process_get_slot clock samples t with
  | Ok slot =>
      is_u64 slot ∧ ¬ too_far clock avg t ∧
      (now < t → clk_slot clock ≤ slot ∧
         (slot - clk_slot clock) * avg ≤ (t - now) * 1000 < (slot - clk_slot clock + 1) * avg) ∧
      (t ≤ now → slot ≤ clk_slot clock ∧
         (clk_slot clock - slot) * avg ≤ (now - t) * 1000 < (clk_slot clock - slot + 1) * avg)
  | Err e => e = CliPanic ∧ too_far clock avg t
  end.
Proof.
  intros Havg Hb Hslot Hnow Ht now.
  unfold process_get_slot, too_far. rewrite (proj2 (Z.leb_le _ _) Hnow). cbn [expect ok_or mbind result_bind].
  rewrite Havg. cbn [mbind result_bind]. subst now. set (now := clk_unix_timestamp clock) in *.
  assert (∀ ms, ms / avg * avg ≤ ms < (ms / avg + 1) * avg) as Hdiv.
  { intros ms. pose proof (Z.div_mod ms avg ltac:(lia)). pose proof (Z.mod_pos_bound ms avg ltac:(lia)). lia. }
  pose proof (Hdiv ((t - now) * 1000)) as Hf. pose proof (Hdiv ((now - t) * 1000)) as Hp.
  destruct (Z.ltb_spec now t) as [Hlt|Hge].
  - unfold checked_mul_u64. destruct (Z.leb_spec ((t - now) * 1000) U64_MAX); simpl; [|split; [done|lia]].
    unfold checked_div_u64. rewrite (proj2 (Z.eqb_neq avg 0)) by lia. simpl.
    unfold checked_add_u64. destruct (Z.leb_spec (clk_slot clock + (t - now) * 1000 / avg) U64_MAX);
      simpl; [|auto].
    pose proof (Z.div_pos ((t - now) * 1000) avg ltac:(lia) ltac:(lia)).
    replace (clk_slot clock + (t - now) * 1000 / avg - clk_slot clock) with ((t - now) * 1000 / avg) by lia.
    assert ((now - t) * 1000 / avg ≤ 0) by nia.
    split_and!; [zlia|zlia|intros _; split; [lia|apply Hdiv]|lia].
  - unfold checked_mul_u64. destruct (Z.leb_spec ((now - t) * 1000) U64_MAX); simpl; [|split; [done|lia]].
    unfold checked_div_u64. rewrite (proj2 (Z.eqb_neq avg 0)) by lia. simpl.
    unfold checked_sub_u64. destruct (Z.leb_spec ((now - t) * 1000 / avg) (clk_slot clock)); simpl; [|auto].
    pose proof (Z.div_pos ((now - t) * 1000) avg ltac:(lia) ltac:(lia)).
    replace (clk_slot clock - (clk_slot clock - (now - t) * 1000 / avg)) with ((now - t) * 1000 / avg) by lia.
    assert ((t - now) * 1000 / avg ≤ 0) by nia.
    split_and!; [zlia|zlia|lia|intros _; split; [lia|apply Hdiv]].
Qed.

(** C40. The slot estimate is exact up to one slot, and fails exactly when it must.
    When it returns, the average [avg] it used is between 200 and 800 milliseconds
    per slot and the slot returned for a future time is the last one that starts
    at or before that time, for a past time the first one that starts at or after
    it; it fits [u64] and is on the same side of the current slot as the time is
    of the current time.  It panics if and only if the clock is before 1970, one
    of the node's performance samples counts no slots (a division by zero), or
    the time is too far away for [u64]. *)
Theorem slot_estimate_is_tight clock samples t :
  samples_typed samples → is_u64 (clk_slot clock) → 0 ≤ t →
  let now := clk_unix_timestamp clock in
  (∀ slot, process_get_slot clock samples t = Ok slot →
     ∃ avg, get_average_slot_time samples = Ok avg ∧ 200 ≤ avg ≤ 800 ∧ is_u64 slot ∧
       (now < t → clk_slot clock ≤ slot ∧
          (slot - clk_slot clock) * avg ≤ (t - now) * 1000 < (slot - clk_slot clock + 1) * avg) ∧
       (t ≤ now → slot ≤ clk_slot clock ∧
          (clk_slot clock - slot) * avg ≤ (now - t) * 1000 < (clk_slot clock - slot + 1) * avg)) ∧
  (process_get_slot clock samples t = Err CliPanic ↔
     now < 0 ∨ (∃ s, s ∈ samples ∧ ps_num_slots s = 0) ∨
     (∃ avg, get_average_slot_time samples = Ok avg ∧ too_far clock avg t)).
Proof.
  intros Hs Hslot Ht. cbn zeta. pose proof (get_average_slot_time_spec samples Hs) as Hspec.
  destruct (Z.leb_spec 0 (clk_unix_timestamp clock)) as [Hnow|Hneg].
  2: { assert (process_get_slot clock samples t = Err CliPanic) as ->; [|by split; [|split; [left|]]].
       unfold process_get_slot. by rewrite (proj2 (Z.leb_gt _ _) Hneg). }
  destruct (get_average_slot_time samples) as [avg|e] eqn:Havg.
  - destruct Hspec as [Hb Hnz]. rewrite Forall_forall in Hnz.
    pose proof (slot_arithmetic clock samples avg t Havg Hb Hslot Hnow Ht) as Hres. cbn zeta in Hres.
    destruct (process_get_slot clock samples t) as [slot|e].
    + destruct Hres as (Hu & Hfar & Hfut & Hpast). split.
      * intros ? [= <-]. by exists avg.
      * split; [done|]. intros [?|[(s & ? & ?)|(avg' & [= <-] & ?)]]; [lia|by edestruct Hnz|done].
    + destruct Hres as [-> Hfar]. split; [done|]. split; [|done]. intros _. right. right. by exists avg.
  - destruct Hspec as [-> Hz].
    assert (process_get_slot clock samples t = Err CliPanic) as ->.
    { unfold process_get_slot. by rewrite (proj2 (Z.leb_le _ _) Hnow), Havg. }
    split; [done|]. split; [|done]. intros _. right. by left.
Qed.

(** ** Commands that retry *)
Section retry.
Context `{Hasher} `{AddressDerivation} `{TokenProgram} `{!TokenProgramSpec} `{AtaProgram}.
Context `{SignatureScheme} `{!SignatureSchemeSpec}.
Implicit Types (st : State) (args : Args) (tree : AirdropMerkleTree) (net : Network).

(** What such a command promises: its accepted instruction reaches the goal on
    the distributor and leaves every other account alone. *)
Class RetryCommand args (already : MerkleDistributor → bool)
    (ix : Pubkey → MerkleDistributor → Instruction) : Prop :=
  retry_command_effect st k d st' :
    get_distributor st k = Some d →
    process_instruction {[ arg_payer args ]} st (ix k d) = Ok st' →
    (∃ d', get_distributor st' k = Some d' ∧ already d' = true) ∧
    ∀ j, j ≠ k → st_accounts st' !! j = st_accounts st !! j.

Lemma put_reaches (already : MerkleDistributor → bool) k d st accounts :
  st_accounts st = accounts → already d = true →
  (∃ d', get_distributor (put k (DistributorAcc d) st) k = Some d' ∧ already d' = true) ∧
  ∀ j, j ≠ k → st_accounts (put k (DistributorAcc d) st) !! j = accounts !! j.
Proof.
  intros <- Ha. split.
  - exists d. split; [apply get_distributor_Some, lookup_insert_eq|done].
  - intros j Hj. simpl. by rewrite lookup_insert_ne.
Qed.

#[export] Instance set_admin_command args new_admin :
  RetryCommand args (set_admin_done new_admin) (set_admin_ix args new_admin).
Proof.
  intros st k d st' _ Hp. apply handle_set_admin_Ok in Hp as (d0 & _ & _ & ->).
  apply put_reaches; [done|]. unfold set_admin_done. by apply bool_decide_eq_true.
Qed.
#[export] Instance clawback_command args : RetryCommand args md_clawed_back (clawback_ix args).
Proof.
  intros st k d st' _ Hp. apply handle_clawback_Ok in Hp as (d0 & v & r & ts & Hp).
  destruct_and! Hp. subst st'. by apply put_reaches.
Qed.
#[export] Instance set_clawback_receiver_command args receiver :
  RetryCommand args (set_clawback_receiver_done args receiver) (set_clawback_receiver_ix args receiver).
Proof.
  intros st k d st' _ Hp. apply handle_set_clawback_receiver_Ok in Hp as (d0 & r & _ & _ & _ & _ & ->).
  apply put_reaches; [done|]. by apply bool_decide_eq_true.
Qed.
#[export] Instance set_enable_slot_command args slot :
  RetryCommand args (set_enable_slot_done slot) (set_enable_slot_ix args slot).
Proof.
  intros st k d st' _ Hp. apply handle_set_enable_slot_Ok in Hp as (d0 & _ & ->).
  apply put_reaches; [done|]. unfold set_enable_slot_done. simpl. apply Z.eqb_refl.
Qed.

(** ** Waiting *)

(** The network after [n] calls that submitted nothing, and the answer to the
    [n]-th call. *)
Definition after (n : nat) net : Network := Nat.iter n pass net.
Definition answer net (n : nat) : rpc_answer := ti_answer (next_tick (after n net)).

(** Nothing but time has passed since [net0]. *)
Record idle net0 net : Prop := {
  id_quiet : quiet net;
  id_pending : net_pending net = [];
  id_log : net_log net = net_log net0;
  id_sent : net_sent net = net_sent net0;
  id_ledger : net_ledger net = set_clock (st_clock (net_ledger net)) (net_ledger net0)
}.

Lemma set_clock_same st : set_clock (st_clock st) st = st.
Proof. by destruct st. Qed.

Lemma advance_clock_eq clock st : ∃ c, advance_clock clock st = set_clock c st.
Proof. unfold advance_clock. case_bool_decide; [by exists clock|]. exists (st_clock st). by rewrite set_clock_same. Qed.

Lemma idle_run net0 net events : Forall quiet_event events → idle net0 net → idle net0 (net_run net events).
Proof.
  intros Hev. revert net. induction Hev as [|e events He _ IH]; intros net Hid; [done|]. apply IH.
  destruct Hid as [Hq Hp Hl Hs Hst]. destruct e as [i|i|h|clock|f]; simpl in He; [..|done]; cbn [net_step].
  - by rewrite Hp.
  - split; simpl; [done|by rewrite Hp|done..].
  - by split.
  - split; simpl; [done..|]. destruct (advance_clock_eq clock (net_ledger net)) as [c ->]. by rewrite Hst.
Qed.
Lemma idle_pass net0 net : idle net0 net → idle net0 (pass net).
Proof.
  intros Hid. destruct (quiet_pass net (id_quiet _ _ Hid)) as [Hq Hev].
  destruct (idle_run net0 (set_future (tail (net_future net)) net) (ti_events (next_tick net)) Hev) as [_ Hp Hl Hs Hst].
  { destruct Hid as [Hq' Hp Hl Hs Hst]. split; [|done..]. unfold quiet in *. simpl.
    destruct (net_future net); [done|]. by apply Forall_cons in Hq' as [_ ?]. }
  by split.
Qed.
Lemma idle_after net n : quiet net → net_pending net = [] → idle net (after n net).
Proof.
  intros Hq Hp. induction n as [|n IH]; [split; [done..|]; by rewrite set_clock_same|]. by apply idle_pass.
Qed.

(** ** The loop *)
Section command.
Context (args : Args) (confirm : bool) (already : MerkleDistributor → bool)
  (ix : Pubkey → MerkleDistributor → Instruction).
Context `{!RetryCommand args already ix} (k : Pubkey).
Abbreviation loop := (retry_loop args confirm already (ix k) k).

(** The transaction of the command. *)
Definition retry_tx (d : MerkleDistributor) (blockhash : Z) : Transaction :=
  mkTransaction (arg_payer args) blockhash [ProgramIx (ix k d)].

(** The [i]-th attempt reaches the node at a time when the program accepts the
    instruction: of the ledger only the clock has changed since the start. *)
Definition accepted_at net d (i : nat) : Prop :=
  answer net (3 * i + 2) = Answered ∧
  ∃ st', process_instruction {[ arg_payer args ]}
           (set_clock (st_clock (net_ledger (after (3 * i + 3) net))) (net_ledger net)) (ix k d) = Ok st'.

(** The [i]-th attempt is answered when it reads; its submission is answered or
    never gets to the node. *)
Definition attempt_answered net (i : nat) : Prop :=
  answer net (3 * i) = Answered ∧ answer net (3 * i + 1) = Answered ∧ answer net (3 * i + 2) ≠ AnswerLost.

(** The goal is reached from [st], on this distributor only. *)
Definition goal_reached st st' : Prop :=
  (∃ d', get_distributor st' k = Some d' ∧ already d' = true) ∧
  ∀ j, j ≠ k → st_accounts st' !! j = st_accounts st !! j.

Section run.
Context (net : Network) (d : MerkleDistributor).
Context (Hquiet : quiet net) (Hpending : net_pending net = []).
Context (Hd : get_distributor (net_ledger net) k = Some d).
Context (Hnew : ∀ h, ¬ processed (retry_tx d h) net).

Lemma after_distributor n : get_distributor (net_ledger (after n net)) k = Some d.
Proof. rewrite (id_ledger _ _ (idle_after net n Hquiet Hpending)). exact Hd. Qed.

Lemma preflight_accepted n h :
  preflight (retry_tx d h) (after n net) = true ↔
  ∃ st', process_instruction {[ arg_payer args ]}
           (set_clock (st_clock (net_ledger (after n net))) (net_ledger net)) (ix k d) = Ok st'.
Proof.
  pose proof (idle_after net n Hquiet Hpending) as Hid. rewrite preflight_true.
  rewrite <- (id_ledger _ _ Hid). unfold execute. cbn [retry_tx tx_payer tx_ixs run_ixs run_ix].
  destruct (process_instruction _ _ _) as [st'|e].
  - split; [by eauto|]. intros _. split; [by eexists|]. unfold processed. rewrite (id_log _ _ Hid). apply Hnew.
  - split; [by intros [[? ?] _]|by intros [? ?]].
Qed.

(** Where the loop leaves the network when the [i]-th attempt is taken. *)
Definition taken (i : nat) : Network :=
  let net' := after (3 * i + 3) net in
  let tx := retry_tx d (net_blockhash (after (3 * i + 2) net)) in
  if confirm
  then process_tx tx (net_pending net')
         (mkNetwork (net_ledger net') (net_blockhash net') (net_pending net') (net_sent net' ++ [tx])
            (net_log net') (net_future net'))
  else submit tx net'.

Lemma retry_goal fuel :
  already d = true → attempt_answered net 0 → loop (S fuel) net = (after 1 net, Ok tt).
Proof.
  intros Ha (H1' & _). unfold answer in H1'. change (after (3 * 0) net) with net in H1'.
  pose proof (after_distributor 1) as Hd1. change (after 1 net) with (pass net) in *.
  cbn [retry_loop]. unfold fetch_unwrap, fetch, mbind, io_bind. rewrite call_run, H1'. unfold ask.
  rewrite Hd1. cbn [expect ok_or]. by rewrite Ha.
Qed.

Lemma retry_turn i fuel :
  already d = false → attempt_answered net i →
  accepted_at net d i ∧ loop (S fuel) (after (3 * i) net) = (taken i, Ok tt) ∨
  ¬ accepted_at net d i ∧ loop (S fuel) (after (3 * i) net) = loop fuel (after (3 * S i) net).
Proof.
  intros Ha (H1' & H2' & H3'). pose proof (preflight_accepted (3 * i + 3)) as Hpre. unfold accepted_at, answer in *.
  replace (3 * i + 1)%nat with (S (3 * i)) in * by lia. replace (3 * i + 2)%nat with (S (S (3 * i))) in * by lia.
  replace (3 * S i)%nat with (S (S (S (3 * i)))) by lia. unfold taken.
  replace (3 * i + 2)%nat with (S (S (3 * i))) by lia. replace (3 * i + 3)%nat with (S (S (S (3 * i)))) in * by lia.
  pose proof (after_distributor (S (3 * i))) as Hd1.
  set (net0 := after (3 * i) net) in *.
  change (after (S (S (S (3 * i)))) net) with (pass (pass (pass net0))) in *.
  change (after (S (S (3 * i))) net) with (pass (pass net0)) in *. change (after (S (3 * i)) net) with (pass net0) in *.
  cbn [retry_loop]. unfold mbind, io_bind, fetch_unwrap, fetch, send_ixs, latest_blockhash, mbind, io_bind.
  rewrite !call_run, H1'. unfold ask. rewrite Hd1. cbn [expect ok_or]. rewrite Ha.
  rewrite call_run, H2'. cbn [map]. set (h := net_blockhash (pass (pass net0))).
  specialize (Hpre h). destruct confirm; [unfold send_and_confirm_transaction|unfold send_transaction];
    rewrite call_run; fold (retry_tx d h); destruct (ti_answer (next_tick (pass (pass net0)))); try done.
  all: try (right; split; [intros [? _]; done|done]).
  all: destruct (preflight (retry_tx d h) (pass (pass (pass net0)))) eqn:Hp;
    [left; split; [split; [done|by apply Hpre]|done]
    |right; split; [|done]; intros [_ Hacc]; apply Hpre in Hacc; done].
Qed.

Lemma retry_from j fuel :
  already d = false → (∀ i, (j ≤ i < j + fuel)%nat → attempt_answered net i) →
  (∃ i, (j ≤ i < j + fuel)%nat ∧ accepted_at net d i ∧ loop fuel (after (3 * j) net) = (taken i, Ok tt)) ∨
  (∀ i, (j ≤ i < j + fuel)%nat → ¬ accepted_at net d i) ∧
    loop fuel (after (3 * j) net) = (after (3 * (j + fuel)) net, Err CliFuel).
Proof.
  intros Ha. revert j. induction fuel as [|fuel IH]; intros j Hans.
  { right. split; [lia|]. by rewrite Nat.add_0_r. }
  destruct (retry_turn j fuel Ha) as [[Hacc Hl]|[Hno Hl]]; [apply Hans; lia| |].
  - left. exists j. split; [lia|done].
  - rewrite Hl. destruct (IH (S j)) as [(i & Hi & Hacc & Hr)|[Hall Hr]]; [intros i Hi; apply Hans; lia| |].
    + left. exists i. split; [lia|done].
    + right. rewrite Hr. replace (S j + fuel)%nat with (j + S fuel)%nat by lia. split; [|done].
      intros i Hi. destruct (decide (i = j)) as [-> |]; [done|]. apply Hall. lia.
Qed.

(** *** After the transaction was taken *)
Abbreviation landed tx net2 := ((signature_of tx, true) ∈ net_log net2).

Definition in_flight tx net2 : Prop :=
  net_ledger net2 = set_clock (st_clock (net_ledger net2)) (net_ledger net) ∧ ¬ landed tx net2 ∧
  (net_pending net2 = [] ∨ net_pending net2 = [tx]).
Definition arrived tx net2 : Prop :=
  goal_reached (net_ledger net) (net_ledger net2) ∧ landed tx net2 ∧ net_pending net2 = [].

Lemma process_arrives h net2 pending :
  net_ledger net2 = set_clock (st_clock (net_ledger net2)) (net_ledger net) → ¬ landed (retry_tx d h) net2 →
  pending = [] →
  in_flight (retry_tx d h) (process_tx (retry_tx d h) pending net2) ∧ execute (net_ledger net2) (retry_tx d h) = None ∨
  arrived (retry_tx d h) (process_tx (retry_tx d h) pending net2).
Proof.
  intros Hl Hn Hp. unfold process_tx. destruct (execute (net_ledger net2) (retry_tx d h)) as [st|] eqn:Hex.
  - right. unfold arrived; simpl. split; [|split; [apply elem_of_app; right; apply list_elem_of_here|done]].
    unfold execute in Hex. cbn [retry_tx tx_payer tx_ixs run_ixs run_ix] in Hex.
    destruct (process_instruction _ _ _) as [st'|] eqn:Hpi; [|done]. injection Hex as <-.
    apply (retry_command_effect (net_ledger net2) k d st') in Hpi as [Hg Ho]; [|by rewrite Hl].
    split; [done|]. intros j Hj. rewrite (Ho j Hj), Hl. done.
  - left. split; [|done]. unfold in_flight; simpl. split; [done|]. split; [|auto].
    intros [?|?%list_elem_of_singleton]%elem_of_app; [done|congruence].
Qed.

Lemma in_flight_step h net2 e :
  quiet_event e → in_flight (retry_tx d h) net2 ∨ arrived (retry_tx d h) net2 →
  in_flight (retry_tx d h) (net_step net2 e) ∨ arrived (retry_tx d h) (net_step net2 e).
Proof.
  intros He [(Hl & Hn & Hp)|(Hg & Hy & Hp)]; destruct e as [i|i|b|clock|f]; simpl in He; try done; cbn [net_step].
  - destruct Hp as [Hp|Hp]; rewrite Hp; [left; split_and!; auto|].
    destruct i as [|i]; simpl; [|left; split_and!; auto]. case_decide; [left; split_and!; auto|].
    destruct (process_arrives h net2 [] Hl Hn eq_refl) as [[? _]|?]; auto.
  - left. split_and!; simpl; [done|done|]. destruct Hp as [-> | ->]; [by left|]. destruct i; simpl; auto.
  - left. by split_and!.
  - left. destruct (advance_clock_eq clock (net_ledger net2)) as [c Hc].
    split_and!; simpl; [|done|done]. rewrite Hc, Hl. done.
  - rewrite Hp. right. by split_and!.
  - right. split_and!; simpl; [done|done|by rewrite Hp].
  - right. by split_and!.
  - right. destruct (advance_clock_keeps clock (net_ledger net2)) as [Hacc _].
    split_and!; simpl; [|done|done]. destruct Hg as [(d' & Hd' & ?) Ho]. split.
    + exists d'. split; [|done]. unfold get_distributor in *. by rewrite Hacc.
    + intros j Hj. rewrite Hacc. auto.
Qed.
Lemma in_flight_run h net2 events :
  Forall quiet_event events → in_flight (retry_tx d h) net2 ∨ arrived (retry_tx d h) net2 →
  in_flight (retry_tx d h) (net_run net2 events) ∨ arrived (retry_tx d h) (net_run net2 events).
Proof.
  intros Hev. revert net2. induction Hev as [|e events He _ IH]; intros net2 Hin; [done|].
  apply IH. by apply in_flight_step.
Qed.

Lemma taken_outcome i :
  accepted_at net d i → ∃ h, net_sent (taken i) = net_sent net ++ [retry_tx d h] ∧
    if confirm then arrived (retry_tx d h) (taken i) else in_flight (retry_tx d h) (taken i).
Proof.
  intros [_ Hacc]. set (n := (3 * i + 3)%nat) in *. pose proof (idle_after net n Hquiet Hpending) as Hid.
  set (h := net_blockhash (after (3 * i + 2) net)). exists h.
  assert (¬ landed (retry_tx d h) (after n net)) as Hn.
  { rewrite (id_log _ _ Hid). intros ?%processed_log. by apply (Hnew h). }
  unfold taken. fold n h. destruct confirm.
  - split; [unfold process_tx; destruct (execute _ _); simpl; by rewrite (id_sent _ _ Hid)|].
    destruct (process_arrives h (mkNetwork (net_ledger (after n net)) (net_blockhash (after n net))
      (net_pending (after n net)) (net_sent (after n net) ++ [retry_tx d h]) (net_log (after n net))
      (net_future (after n net))) (net_pending (after n net))) as [[_ Hex]|Harr];
      [apply Hid|done|apply Hid| |done].
    apply (preflight_accepted n h), preflight_true in Hacc as [[st Hst] _]. simpl in Hex. congruence.
  - simpl. split; [by rewrite (id_sent _ _ Hid)|]. unfold in_flight; simpl.
    split; [apply Hid|]. split; [done|]. right. by rewrite (id_pending _ _ Hid).
Qed.
End run.

End command.
End retry.

(** ** The claim command *)
Section claim.
Context `{Hasher} `{AddressDerivation} `{!AddressDerivationSpec} `{TokenProgram} `{!TokenProgramSpec}.
Context `{AtaProgram} `{!AtaProgramSpec}.
Implicit Types (st : State) (args : Args) (tree : AirdropMerkleTree).

(** Nothing locked, nothing to withdraw. *)
Lemma nothing_withdrawable cs now s e v :
  cs_locked_amount cs = 0 → cs_locked_amount_withdrawn cs = 0 →
  amount_withdrawable cs now s e = Ok v → v = 0.
Proof.
  intros Hl Hw. unfold amount_withdrawable, unlocked_amount. rewrite Hl, Hw.
  intros (u & Hu & [-> _]%ok_or_Ok%checked_sub_u64_Some)%bind_Ok.
  assert (u = 0) as ->; [|done]. revert Hu.
  destruct (s <=? now); [|by intros [= <-]]. destruct (e <=? now); [by intros [= <-]|].
  intros (a & _ & (b & _ & (c & [-> _]%ok_or_Ok%checked_mul_u128_Some &
    (q & [-> _]%ok_or_Ok%checked_div_u128_Some & [= <-])%bind_Ok)%bind_Ok)%bind_Ok)%bind_Ok.
  change (as_u128 0) with 0. by rewrite Z.mul_0_r.
Qed.

Lemma claim_locked_fails signers st a cs :
  st_accounts st !! cl_claim_status a = Some (ClaimStatusAcc cs) →
  cs_locked_amount cs = 0 → cs_locked_amount_withdrawn cs = 0 →
  ∀ st', process_instruction signers st (IClaimLocked a) ≠ Ok st'.
Proof.
  intros Hcs Hl Hw st' Hp. cbn [process_instruction] in Hp. unfold handle_claim_locked in Hp.
  apply bind_Ok in Hp as ([d cs'] & Hacc & Hp).
  apply ClaimLocked_try_accounts_Ok in Hacc as (v & r & ? & Hc & _).
  assert (cs' = cs) as -> by congruence. inv_ok.
  match goal with Ha : amount_withdrawable _ _ _ _ = Ok _ |- _ =>
    apply nothing_withdrawable in Ha as ->; [|done..] end.
  done.
Qed.

(** Creating an associated account is a step of the ledger's environment. *)
Lemma ensure_ata_step allowed st wallet mint ts :
  state_ok st → ensure_ata (st_tokens st) wallet mint = Ok ts → step allowed st (set_tokens ts st).
Proof.
  intros Hok Hts. apply step_tokens. split.
  - intros p a Ha _. exists a. split_and!; [|done..].
    destruct (ensure_ata_grows _ _ _ _ Hts) as [Hs _]. by eapply lookup_weaken.
  - intros p a Ha. revert Hts. unfold ensure_ata. case_match.
    + intros [= <-]. by apply (ok_tokens st Hok p).
    + intros (_ & _ & He)%expect_Ok%create_ata_effect. rewrite He in Ha.
      apply lookup_insert_Some in Ha as [[_ <-]|[_ ?]]; [done|by apply (ok_tokens st Hok p)].
Qed.

(** The status a claim through the tool leaves. *)
Lemma process_new_claim_status args st tree n st' d :
  state_ok st → get_node tree (arg_payer args) = Ok n → is_u64 (tn_amount n) →
  st_accounts st !! distributor_of args tree = Some (DistributorAcc d) →
  process_new_claim args st tree = Ok st' →
  ∃ cs, st_accounts st' !! claim_status_of args tree = Some (ClaimStatusAcc cs) ∧
    cs_claimant cs = arg_payer args ∧
    cs_unlocked_amount_claimed cs
      = vested (tn_amount n) (curr_ts st) (md_start_ts d) (md_end_ts d) ∧
    cs_locked_amount cs = locked_amount_of n ∧ cs_locked_amount_withdrawn cs = 0.
Proof.
  intros Hok Hnode Hu Hd. unfold process_new_claim. rewrite Hnode. cbn [unwrap mbind result_bind].
  intros (proof & _ & (ts & _ & Hp%unwrap_Ok)%bind_Ok)%bind_Ok.
  cbn [process_instruction new_claim_ix] in Hp.
  apply handle_new_claim_Ok in Hp as (d' & v & r & ts' & Hacc & ->);
    [|exact (accounts_typed_window _ _ (state_ok_typed _ Hok))|done].
  pose proof (nca_distributor _ _ _ _ _ _ _ _ _ _ Hacc) as Hd'. simpl in Hd'.
  assert (d' = d) as -> by congruence.
  eexists. split; [apply lookup_insert_eq|]. by split_and!.
Qed.

Section entry.
Context (args : Args) (U : list (Pubkey * Pubkey)) (rows : list TreeNode) (version : Z)
  (tree : AirdropMerkleTree).
Context (signers0 : gset Pubkey) (st0 st1 : State) (a : NewDistributor) (p : NewDistributorArgs).
Abbreviation k := (distributor_of args tree).
Context (Hprogram : arg_program_id args = PROGRAM_ID).
Context (Hrows : Forall node_wf rows) (Hlen : Z.of_nat (length rows) ≤ 2 ^ 32 - 1).
Context (Hbuilt : AirdropMerkleTree_new rows version = Ok tree) (Hdist : addresses_distinct U).
Context (Hok0 : state_ok st0) (Hin0 : statuses_in U st0) (Hno0 : no_status_for st0 k).
Context (Hty : ix_typed (INewDistributor a p)) (Hfor : creates_for_tree k tree a p).
Context (Hp : process_instruction signers0 st0 (INewDistributor a p) = Ok st1).

(** What the payer needs: the window is open, the vault's account is not frozen,
    the payer's token account exists and can take the amount or can be made, and
    the payer's key is no distributor's. *)
Record payer_ready st d (amount : Z) : Prop := {
  pr_open : md_clawed_back d = false;
  pr_enabled : md_enable_slot d ≤ curr_slot st;
  pr_started : md_start_ts d ≤ curr_ts st;
  pr_window : md_end_ts d - md_start_ts d ≤ I64_MAX;
  pr_mint : md_mint d = arg_mint args;
  pr_signer : signers_ok st {[ arg_payer args ]};
  pr_vault vault : vault_of st d vault → ta_mint vault = md_mint d ∧ ta_frozen vault = false;
  pr_ata : ∃ ts, ensure_ata (st_tokens st) (arg_payer args) (arg_mint args) = Ok ts;
  pr_dest dest : tk_accounts (st_tokens st) !! claimant_ata args = Some dest →
    ta_owner dest = arg_payer args ∧ ta_mint dest = md_mint d ∧ ta_frozen dest = false ∧
    ta_amount dest + amount ≤ U64_MAX
}.

Lemma payer_ready_claim st d amount ts vault :
  is_u64 amount → payer_ready st d amount → vault_of st d vault →
  ensure_ata (st_tokens st) (arg_payer args) (arg_mint args) = Ok ts →
  vault_of (set_tokens ts st) d vault ∧
  ready_to_claim {[ arg_payer args ]} (set_tokens ts st) d (arg_payer args) (claimant_ata args) amount.
Proof.
  intros Hu [Ho He Hs Hw Hm Hsig Hvault _ Hdest] [Hv Hdel] Hts.
  destruct (ensure_ata_grows _ _ _ _ Hts) as [Hsub _].
  assert (tk_accounts ts !! md_token_vault d = Some vault) as Hv' by (by eapply lookup_weaken).
  split; [by split|]. split; try done.
  - split; [done|set_solver].
  - intros v [Hl _]. simpl in Hl. assert (v = vault) as -> by congruence. by apply Hvault.
  - revert Hts. unfold ensure_ata. case_match eqn:Hata.
    + intros [= <-]. destruct (Hdest _ Hata) as (? & ? & ? & ?). by eexists.
    + intros (_ & _ & Hts)%expect_Ok%create_ata_effect. eexists. simpl. rewrite Hts.
      split; [apply lookup_insert_eq|]. simpl. split_and!; try done. zlia.
Qed.

Lemma process_new_claim_entry st d vault n :
  steps (honest_ix U k tree) st1 st → n ∈ at_tree_nodes tree → tn_claimant n = arg_payer args →
  st_accounts st !! k = Some (DistributorAcc d) →
  st_accounts st !! claim_status_of args tree = None → vault_of st d vault → deficit d vault ≤ 0 →
  payer_ready st d (tn_amount n) → ∃ st', process_new_claim args st tree = Ok st'.
Proof.
  intros Hsteps Hn Hc Hd Hfree Hv Hdef Hready.
  assert (airdrop_ok rows version tree) as Htree by (by eapply built_tree_ok).
  destruct (ao_amounts _ _ _ Htree n Hn) as (_ & _ & Hwu & _).
  destruct (pr_ata _ _ _ Hready) as [ts Hts].
  destruct (payer_ready_claim _ _ _ _ _ Hwu Hready Hv Hts) as [Hv2 Hrc].
  assert (state_ok st) as Hok by (by eapply from_creation).
  assert (steps (honest_ix U k tree) st1 (set_tokens ts st)) as Hsteps2
    by (eapply rtc_r; [done|by eapply ensure_ata_step]).
  destruct (from_creation U k rows version tree signers0 st0 st1 a p Hrows Hlen Hbuilt Hdist Hok0 Hin0
    Hno0 Hty Hfor Hp _ Hsteps2) as [Hok2 (d' & Hd' & _ & Hl & Htp & Hft)].
  simpl in Hd'. assert (d' = d) as -> by congruence.
  destruct (ao_proofs _ _ _ Htree n Hn) as (proof & Hproof & Hver & _).
  assert (vault_address args tree = md_token_vault d) as Hva.
  { unfold vault_address. rewrite <- (pr_mint _ _ _ Hready).
    symmetry. apply (do_vault _ _ _ (ok_distributors st Hok k d Hd)). }
  assert (claim_status_of args tree = claim_status_address (arg_payer args) k) as Hcs.
  { unfold claim_status_of. by rewrite Hprogram. }
  rewrite Hcs in Hfree.
  pose proof (entry_claim_accepts k rows version tree {[ arg_payer args ]} (set_tokens ts st) d vault
    (claimant_ata args) n proof) as Haccepts. rewrite Hc in Haccepts.
  destruct (Haccepts Htree Hok2 Hd' Hl Htp Hft Hn Hfree Hv2 Hdef Hrc Hver) as [st' Hst'].
  exists st'. unfold process_new_claim.
  assert (get_node tree (arg_payer args) = Ok n) as Hnode.
  { apply get_node_in_spec; [apply (ao_nodup _ _ _ Htree)|done]. }
  rewrite Hnode. cbn [unwrap mbind result_bind]. rewrite Hproof. cbn [expect ok_or mbind result_bind].
  rewrite Hts. cbn [mbind result_bind]. unfold new_claim_ix, unlocked_amount_of.
  by rewrite Hcs, Hva, Hst'.
Qed.

(** The claim command for an entry of the tree. *)
Lemma claim_command_entry st d vault n :
  steps (honest_ix U k tree) st1 st → n ∈ at_tree_nodes tree → tn_claimant n = arg_payer args →
  st_accounts st !! k = Some (DistributorAcc d) →
  st_accounts st !! claim_status_of args tree = None → vault_of st d vault → deficit d vault ≤ 0 →
  payer_ready st d (tn_amount n) →
  ∃ st', process_new_claim args st tree = Ok st' ∧
    (∃ cs, st_accounts st' !! claim_status_of args tree = Some (ClaimStatusAcc cs) ∧
       cs_claimant cs = arg_payer args ∧
       cs_unlocked_amount_claimed cs
         = vested (tn_amount n) (curr_ts st) (md_start_ts d) (md_end_ts d)) ∧
    process_claim args st tree =
      match process_instruction {[ arg_payer args ]} st' (claim_locked_ix args tree) with
      | Ok st'' => (st'', Ok tt)
      | Err _ => (st', Err CliPanic)
      end ∧
    (locked_amount_of n = 0 →
       process_claim args st tree = (st', Err CliPanic) ∧
       ∀ clock, process_claim args (set_clock clock st') tree = (set_clock clock st', Err CliPanic)).
Proof.
  intros Hsteps Hn Hc Hd Hfree Hv Hdef Hready.
  destruct (process_new_claim_entry st d vault n) as [st' Hst']; [done..|]. exists st'. split; [done|].
  assert (state_ok st) as Hok by (by eapply from_creation).
  assert (airdrop_ok rows version tree) as Htree by (by eapply built_tree_ok).
  destruct (ao_amounts _ _ _ Htree n Hn) as (_ & _ & Hwu & _).
  assert (get_node tree (arg_payer args) = Ok n) as Hnode.
  { apply get_node_in_spec; [apply (ao_nodup _ _ _ Htree)|done]. }
  destruct (process_new_claim_status args st tree n st' d) as (cs & Hcs & ? & ? & Hl & Hw); [done..|].
  assert (process_claim args st tree =
      match process_instruction {[ arg_payer args ]} st' (claim_locked_ix args tree) with
      | Ok st'' => (st'', Ok tt)
      | Err _ => (st', Err CliPanic)
      end) as Hrun.
  { unfold process_claim. by rewrite bool_decide_eq_true_2, Hst'. }
  split_and!; [eauto|done|]. intros Hlock. rewrite Hlock in Hl. split.
  - rewrite Hrun. destruct (process_instruction _ st' _) as [s|] eqn:Hp'; [|done].
    by eapply claim_locked_fails in Hp'.
  - intros clock. unfold process_claim.
    rewrite bool_decide_eq_false_2 by (simpl; rewrite Hcs; done).
    destruct (process_instruction _ (set_clock clock st') _) as [s|] eqn:Hp'; [|done].
    by eapply claim_locked_fails in Hp'.
Qed.
End entry.
End claim.

(** ** Witnesses *)

Lemma slot_estimate_is_tight_witness :
  (1025 - 1000) * 400 ≤ (5010 - 5000) * 1000 < (1025 - 1000 + 1) * 400 ∧
  process_get_slot (mkClock 1000 5000) [mkPerfSample 60 0] 5010 = Err CliPanic.
Proof.
  assert (samples_typed []) as Hnone by (split; [constructor|simpl; lia]).
  assert (samples_typed [mkPerfSample 60 0]) as Hzero
    by (split; [repeat constructor; simpl; lia|simpl; lia]).
  destruct (slot_estimate_is_tight (mkClock 1000 5000) [] 5010 Hnone ltac:(simpl; zlia) ltac:(lia))
    as [Hok _].
  destruct (slot_estimate_is_tight (mkClock 1000 5000) [mkPerfSample 60 0] 5010 Hzero ltac:(simpl; zlia)
    ltac:(lia)) as [_ Hfail].
  split.
  - destruct (Hok 1025 eq_refl) as (avg & Havg & _ & _ & Hfut & _). injection Havg as <-.
    exact (proj2 (Hfut ltac:(simpl; lia))).
  - apply Hfail. right. left. exists (mkPerfSample 60 0). split; [apply list_elem_of_here|reflexivity].
Defined.

(** The admin hands the scenario's distributor over; the first submission never
    reaches the node. *)
#[local] Existing Instances reference_ata reference_ata_spec reference_signatures reference_signatures_spec.

Definition cx_args : Args := mkArgs sc_mint_key PROGRAM_ID ADMIN_ID.
Definition cx_net : Network :=
  mkNetwork sc_state1 7 [] [] [] [mkTick [] Answered; mkTick [] Answered; mkTick [] Refused].
Definition cx_run : Network * result cli_failure unit :=
  retry_loop cx_args false (set_admin_done sc_alice) (set_admin_ix cx_args sc_alice sc_dist) sc_dist 2 cx_net.

Lemma cx_distributor : get_distributor sc_state1 sc_dist = Some (sc_distributor_at sc_state1).
Proof. apply get_distributor_Some, sc_distributor_lookup. vm_compute. reflexivity. Qed.
Lemma cx_fresh h :
  ¬ processed (retry_tx cx_args (set_admin_ix cx_args sc_alice) sc_dist (sc_distributor_at sc_state1) h) cx_net.
Proof. apply not_elem_of_nil. Qed.
Lemma cx_quiet : quiet cx_net.
Proof. repeat constructor. Qed.
Lemma cx_answered i : (i < 2)%nat → attempt_answered cx_net i.
Proof. intros Hi. destruct i as [|[|i]]; [vm_compute; split_and!; done..|lia]. Qed.
Lemma cx_returns : cx_run = (cx_run.1, Ok tt).
Proof.
  assert (cx_run.2 = Ok tt) as <- by (vm_compute; reflexivity). apply surjective_pairing.
Qed.


(** Somebody else's key is refused at every attempt. *)
Example cx_not_admin :
  let args := mkArgs sc_mint_key PROGRAM_ID sc_bob in
  (retry_loop args false (set_admin_done sc_alice) (set_admin_ix args sc_alice sc_dist) sc_dist 5 cx_net).2
  = Err CliFuel.
Proof. vm_compute. reflexivity. Qed.

(** A clawback tried before its time is refused, and taken once the clock has
    passed [clawback_start_ts]. *)
Definition cx_wait : Network :=
  mkNetwork sc_state1 7 [] [] []
    [mkTick [] Answered; mkTick [] Answered; mkTick [] Answered; mkTick [] Answered; mkTick [] Answered;
     mkTick [Time (mkClock 500000 100000)] Answered].
Example cx_clawback_waits :
  let run fuel := retry_loop cx_args false md_clawed_back (clawback_ix cx_args sc_dist) sc_dist fuel cx_wait in
  (run 1%nat).2 = Err CliFuel ∧ (run 2%nat).2 = Ok tt ∧
  (md_clawed_back <$> get_distributor (net_ledger (net_run (run 2%nat).1 [Land 0])) sc_dist) = Some true.
Proof. vm_compute. repeat split. Qed.
