(* ===== verification/MassSend.v ===== *)
(** * Sending tokens to a list of addresses
    (src/cli/src/bin/instructions/process_send.rs)

    The batches of [process_mass_send], the transaction of a batch and the record
    of what was submitted, and [process_resend] for transactions that failed or
    were lost.  A batch's transaction is atomic, and only submitted: what becomes
    of it is the network's business. *)
From S2P Require Import Prelude Machine Hashing TreeNode Airdrop.
From S2P Require Import ProgramError ClaimStatus Solana Token State Handlers Program Network Deploy.

Section send.
Context `{Hasher} `{PubkeyParser} `{AddressDerivation} `{TokenProgram} `{AtaProgram} `{SignatureScheme}.
Implicit Types (args : Args) (sent : gmap string string) (addresses : list string).

(** ** One transaction *)
Definition user_ata args (user : Pubkey) : Pubkey := get_associated_token_address user (arg_mint args).

(** One address of a batch: its instructions, and the address among the
    qualified ones.  Whether its account exists is asked before the transaction
    (an error counts as no); addresses that are not keys are skipped. *)
Definition add_address args (amount : Z) (acc : list TxIx * list string) (address : string)
  : io Network (list TxIx * list string) :=
  let '(mass_ixs, qualified_address) := acc in
  match pubkey_from_str address with
  | Some user =>
      account ← fetch (λ st, tk_accounts (st_tokens st) !! user_ata args user);
      let create := match account with Some _ => [] | None => [CreateAta user (arg_mint args)] end in
      mret (mass_ixs ++ create ++ [TransferTo (source_vault args) (user_ata args user) amount],
            qualified_address ++ [address])
  | None => mret acc
  end.

Definition send_for_batch_address args (amount : Z) (batch_address : list string)
  : io Network (option (string * list string)) :=
  '(mass_ixs, qualified_address) ← for_fold (add_address args amount) ([], []) batch_address;
  blockhash ← latest_blockhash;
  signature ← send_transaction (mkTransaction (arg_payer args) blockhash mass_ixs);
  mret ((λ s, (s, qualified_address)) <$> signature).

(** ** Batches *)

(** The [while] loop over the addresses, with the batch under construction. *)
Fixpoint make_batches (max_address_per_tx : nat) sent (batch_addresses addresses : list string)
  : list (list string) :=
  match addresses with
  | [] => match batch_addresses with [] => [] | _ => [batch_addresses] end
  | a :: addresses =>
      match sent !! a with
      | Some _ => make_batches max_address_per_tx sent batch_addresses addresses
      | None =>
          let batch := batch_addresses ++ [a] in
          if (max_address_per_tx <=? length batch)%nat
          then batch :: make_batches max_address_per_tx sent [] addresses
          else make_batches max_address_per_tx sent batch addresses
      end
  end.

Definition record_sent (signature : string) (addresses : list string) sent : gmap string string :=
  foldl (λ m a, <[a := signature]> m) sent addresses.

(** A batch that fails is printed and skipped. *)
Definition send_batch args (amount : Z) sent (batch : list string) : io Network (gmap string string) :=
  o ← send_for_batch_address args amount batch;
  mret (match o with
        | Some (signature, qualified) => record_sent signature qualified sent
        | None => sent
        end).

Definition process_mass_send args (amount : Z) (max_address_per_tx : nat) addresses sent
  : io Network (gmap string string) :=
  for_fold (send_batch args amount) sent (make_batches max_address_per_tx sent [] addresses).

(** ** Resending *)

(** [signature_to_address], from the iteration [entries] over the sent addresses. *)
Definition group_by_signature (entries : list (string * string)) : gmap string (list string) :=
  foldl (λ m '(address, signature),
      <[signature := default [] (m !! signature) ++ [address]]> m) ∅ entries.

Definition should_resend (s : sig_status) : bool :=
  match s with SigFailed | SigUnknown => true | _ => false end.

Definition resend_group args (amount : Z) (max_address_per_tx : nat) sent (group : string * list string)
  : io Network (gmap string string) :=
  let '(signature, addresses) := group in
  status ← get_signature_status signature;
  if should_resend status then send_batch args amount sent (take max_address_per_tx addresses)
  else mret sent.

(** [groups] is the iteration over [signature_to_address]. *)
Definition process_resend args (amount : Z) (max_address_per_tx : nat)
    (groups : list (string * list string)) sent : io Network (gmap string string) :=
  for_fold (resend_group args amount max_address_per_tx) sent groups.
End send.
