(* ===== verification/MassSendTheorems.v ===== *)
(** * Mass sending pays every address once

    The batches partition the unsent addresses, and a run submits at most one
    transaction for each.  Whatever becomes of the transactions, an address is
    paid when its recorded transaction succeeds and not otherwise; a resend, when
    nothing is in flight, only repeats transactions that have not succeeded. *)
From S2P Require Import Prelude Machine Hashing TreeNode Airdrop.
From S2P Require Import ProgramError ClaimStatus Solana Token State Handlers Program Network.
From S2P Require Import NetworkTheorems Signatures Deploy DeployTheorems Scenario MassSend.

Section send_theorems.
Context `{Hasher} `{PubkeyParser} `{AddressDerivation} `{TokenProgram} `{!TokenProgramSpec}.
Context `{AtaProgram} `{!AtaProgramSpec} `{SignatureScheme} `{!SignatureSchemeSpec}.
Context (args : Args) (amount : Z).
Implicit Types (net : Network) (sent : gmap string string) (addresses batch : list string).
Abbreviation source := (source_vault args).

(** ** Batches *)
Definition unsent sent addresses : list string := filter (λ a, sent !! a = None) addresses.

Lemma unsent_sublist sent addresses : unsent sent addresses `sublist_of` addresses.
Proof.
  unfold unsent. induction addresses as [|a l IH]; [done|]. rewrite filter_cons.
  case_decide; by constructor.
Qed.

Lemma make_batches_spec max sent cur addresses :
  (length cur < Nat.max 1 max)%nat →
  concat (make_batches max sent cur addresses) = cur ++ unsent sent addresses ∧
  Forall (λ b, 0 < length b ≤ Nat.max 1 max)%nat (make_batches max sent cur addresses).
Proof.
  revert cur. induction addresses as [|a addresses IH]; intros cur Hcur; simpl.
  - destruct cur; simpl in *; [done|]. rewrite !app_nil_r. split; [done|]. constructor; [simpl; lia|done].
  - unfold unsent. rewrite filter_cons. destruct (sent !! a) as [s|] eqn:Hs.
    + rewrite decide_False by done. by apply IH.
    + rewrite decide_True by done.
      destruct (Nat.leb_spec max (length (cur ++ [a]))) as [Hle|Hlt]; rewrite length_app in *; simpl in *.
      * destruct (IH []) as [Hc Hf]; [simpl; lia|]. simpl. rewrite Hc. split; [by rewrite <- app_assoc|].
        constructor; [rewrite length_app; simpl; lia|done].
      * destruct (IH (cur ++ [a])) as [Hc Hf]; [rewrite length_app; simpl; lia|].
        rewrite Hc. split; [by rewrite <- app_assoc|done].
Qed.

(** ** The transaction of a batch *)

(** The readable addresses, and the accounts they are paid on. *)
Definition qualified_address batch : list string := filter (λ a, is_Some (pubkey_from_str a)) batch.
Definition qualified_users batch : list Pubkey := omap pubkey_from_str batch.
Definition atas addresses : list Pubkey := map (user_ata args) (qualified_users addresses).
Definition copies (p : Pubkey) (l : list Pubkey) : Z :=
  sum_list (λ x, if bool_decide (x = p) then 1 else 0) l.

Lemma atas_app l1 l2 : atas (l1 ++ l2) = atas l1 ++ atas l2.
Proof. unfold atas, qualified_users. by rewrite omap_app, map_app. Qed.

Lemma atas_sublist l1 l2 : l1 `sublist_of` l2 → atas l1 `sublist_of` atas l2.
Proof.
  unfold atas, qualified_users.
  induction 1 as [|a l1 l2 Hs IH|a l1 l2 Hs IH]; simpl; [done| |];
    destruct (pubkey_from_str a); simpl; try done; by constructor.
Qed.

Lemma elem_of_atas a u l : a ∈ l → pubkey_from_str a = Some u → user_ata args u ∈ atas l.
Proof.
  intros Ha Hu. apply list_elem_of_fmap. exists u. split; [done|]. apply list_elem_of_omap. eauto.
Qed.

(** Distinct accounts come from distinct addresses. *)
Lemma atas_inj l a a' u u' :
  NoDup (atas l) → a ∈ l → a' ∈ l → pubkey_from_str a = Some u → pubkey_from_str a' = Some u' →
  user_ata args u = user_ata args u' → a = a'.
Proof.
  intros Hnd Ha Ha' Hu Hu' Heq. induction l as [|b l IH]; [by apply elem_of_nil in Ha|].
  unfold atas, qualified_users in Hnd. simpl in Hnd.
  apply elem_of_cons in Ha as [-> |Ha]; apply elem_of_cons in Ha' as [-> |Ha']; [done| | |].
  - rewrite Hu in Hnd. simpl in Hnd. apply NoDup_cons in Hnd as [Hnin _].
    destruct Hnin. rewrite Heq. by apply (elem_of_atas a').
  - rewrite Hu' in Hnd. simpl in Hnd. apply NoDup_cons in Hnd as [Hnin _].
    destruct Hnin. rewrite <- Heq. by apply (elem_of_atas a).
  - apply IH; [|done..]. destruct (pubkey_from_str b); [|done]. by apply NoDup_cons in Hnd as [_ ?].
Qed.

Lemma elem_of_qualified a l : a ∈ qualified_address l ↔ is_Some (pubkey_from_str a) ∧ a ∈ l.
Proof. unfold qualified_address. by rewrite list_elem_of_filter. Qed.

Lemma qualified_address_cons a l :
  qualified_address (a :: l) =
  match pubkey_from_str a with
  | Some _ => a :: qualified_address l
  | None => qualified_address l
  end.
Proof.
  unfold qualified_address. rewrite filter_cons.
  case_decide as Hs; destruct (pubkey_from_str a) as [u|]; try done; by destruct Hs.
Qed.

Lemma qualified_NoDup l : NoDup (atas l) → NoDup (qualified_address l).
Proof.
  unfold atas, qualified_users. induction l as [|a l IH]; [constructor|].
  rewrite qualified_address_cons. simpl. destruct (pubkey_from_str a) as [u|] eqn:Hu; simpl; [|done].
  intros [Hn Hnd]%NoDup_cons. constructor; [|auto].
  intros [_ Ha]%elem_of_qualified. destruct Hn. by apply (elem_of_atas a).
Qed.

Lemma copies_NoDup p l : NoDup l → copies p l = if bool_decide (p ∈ l) then 1 else 0.
Proof.
  unfold copies. induction 1 as [|x l Hx Hnd IH]; simpl; [done|]. rewrite IH.
  destruct (decide (x = p)) as [-> |Hne].
  - rewrite (bool_decide_eq_true_2 (p = p)), (bool_decide_eq_false_2 (p ∈ l)) by done.
    by rewrite bool_decide_eq_true_2 by set_solver.
  - rewrite (bool_decide_eq_false_2 (x = p)) by done.
    rewrite (bool_decide_ext (p ∈ x :: l) (p ∈ l)) by set_solver. lia.
Qed.

(** The instructions pay [amount] to every account of the batch. *)
Record pays_batch batch (ixs : list TxIx) : Prop := {
  pb_token : Forall token_ix ixs;
  pb_flow p : sum_list (ix_flow p) ixs = amount * copies p (atas batch)
    - (if bool_decide (source = p) then amount * Z.of_nat (length (atas batch)) else 0);
  pb_touches p ix : ix ∈ ixs → ix_touches p ix → p = source ∨ p ∈ atas batch
}.

Lemma pays_batch_nil : pays_batch [] [].
Proof. split; [constructor| |by intros p ix ?%elem_of_nil]. intros p. cbn. case_bool_decide; lia. Qed.

Lemma pays_batch_app b1 b2 ixs1 ixs2 :
  pays_batch b1 ixs1 → pays_batch b2 ixs2 → pays_batch (b1 ++ b2) (ixs1 ++ ixs2).
Proof.
  intros [Ht1 Hf1 Hp1] [Ht2 Hf2 Hp2]. split; [by apply Forall_app| |].
  - intros p. rewrite sum_list_app, Hf1, Hf2, atas_app, length_app. unfold copies. rewrite sum_list_app.
    case_bool_decide; lia.
  - intros p ix [Hix|Hix]%elem_of_app Ht; rewrite atas_app, elem_of_app; naive_solver.
Qed.

Lemma pays_batch_one a user create :
  pubkey_from_str a = Some user → create = [] ∨ create = [CreateAta user (arg_mint args)] →
  pays_batch [a] (create ++ [TransferTo source (user_ata args user) amount]).
Proof.
  intros Hu Hc. assert (atas [a] = [user_ata args user]) as Hat by (unfold atas, qualified_users; simpl; by rewrite Hu).
  split.
  - apply Forall_app. split; [destruct Hc as [-> | ->]; by repeat constructor|by repeat constructor].
  - intros p. rewrite sum_list_app, Hat. unfold copies.
    assert (sum_list (ix_flow p) create = 0) as -> by (destruct Hc as [-> | ->]; done). cbn.
    repeat case_bool_decide; lia.
  - intros p ix [Hix|Hix]%elem_of_app Ht; rewrite Hat.
    + destruct Hc as [-> | ->]; [by apply elem_of_nil in Hix|]. apply list_elem_of_singleton in Hix as ->.
      right. apply list_elem_of_singleton. exact Ht.
    + apply list_elem_of_singleton in Hix as ->. destruct Ht as [->|Ht]; [by left|]. right.
      by apply list_elem_of_singleton.
Qed.

(** [net'] is reached from [net] by waiting. *)
Record waited net net' : Prop := {
  wa_since net0 new landed : Forall token_tx new → since net0 net new landed →
    ∃ landed', since net0 net' new landed';
  wa_quiet : quiet net';
  wa_reliable : reliable net → reliable net'
}.
Lemma waited_refl net : quiet net → waited net net.
Proof. intros Hq. split; eauto. Qed.
Lemma waited_pass net : quiet net → waited net (pass net).
Proof.
  intros Hq. split; [|by apply quiet_pass|by intros [? _]%reliable_pass].
  intros net0 new landed Htok Hsi. by destruct (since_pass net0 net new landed Htok Hq Hsi).
Qed.
Lemma waited_trans net1 net2 net3 : waited net1 net2 → waited net2 net3 → waited net1 net3.
Proof.
  intros [Hs1 _ Hr1] [Hs2 Hq Hr2]. split; [|done|auto]. intros net0 new landed Htok Hsi.
  destruct (Hs1 _ _ _ Htok Hsi) as [landed' Hsi']. eauto.
Qed.

Lemma add_addresses_run batch ixs0 q0 net net' r :
  quiet net → for_fold (add_address args amount) (ixs0, q0) batch net = (net', r) →
  waited net net' ∧
  ∃ ixs, r = Ok (ixs0 ++ ixs, q0 ++ qualified_address batch) ∧ pays_batch batch ixs.
Proof.
  revert ixs0 q0 net. induction batch as [|a batch IH]; intros ixs0 q0 net Hq; cbn [for_fold].
  { intros [= <- <-]. split; [by apply waited_refl|]. exists []. rewrite !app_nil_r.
    split; [done|apply pays_batch_nil]. }
  rewrite qualified_address_cons.
  destruct (pubkey_from_str a) as [user|] eqn:Hu.
  - intros [(acc & net1 & Hone & Hrest)|(e & Hone & ->)]%io_bind_run; unfold add_address in Hone; rewrite Hu in Hone;
      (apply io_bind_run in Hone as [(account & net2 & Hf & Hone)|(e' & Hf & He)];
       apply fetch_run in Hf as [-> Hr]; [|by destruct Hr as [?|[? _]]]); [|done].
    injection Hone as <- <-. apply IH in Hrest as (Hw & ixs & -> & Hp); [|by apply waited_pass].
    split; [by eapply waited_trans; [apply waited_pass|]|].
    eexists. rewrite <- !app_assoc. split; [done|]. rewrite app_assoc.
    apply (pays_batch_app [a] batch); [|done]. apply pays_batch_one; [done|]. destruct account; auto.
  - intros [(acc & net1 & Hone & Hrest)|(e & Hone & ->)]%io_bind_run; unfold add_address in Hone; rewrite Hu in Hone;
      [|done].
    injection Hone as <- <-. apply IH in Hrest as (Hw & ixs & -> & Hp); [|done].
    split; [done|]. exists ixs. split; [done|]. destruct Hp as [Ht Hf Hp].
    assert (atas (a :: batch) = atas batch) as Hat by (unfold atas, qualified_users; simpl; by rewrite Hu).
    split; [done|intros p; by rewrite Hat|intros p ix; rewrite Hat; apply Hp].
Qed.

(** ** A run *)

(** [tx] is a transaction of the payer for the batch. *)
Definition batch_tx batch (tx : Transaction) : Prop := tx_payer tx = arg_payer args ∧ pays_batch batch (tx_ixs tx).

Lemma batch_tx_token batch tx : batch_tx batch tx → token_tx tx.
Proof. by intros [_ [Ht _ _]]. Qed.

Lemma send_for_batch_address_run batch net net' r :
  quiet net → send_for_batch_address args amount batch net = (net', r) →
  waited net net' ∧ (r = Ok None ∨ r = Err CliPanic) ∨
  ∃ net1 tx, waited net net1 ∧ net' = submit tx net1 ∧ preflight tx net1 = true ∧ batch_tx batch tx ∧
    (r = Ok (Some (signature_of tx, qualified_address batch)) ∨ r = Ok None ∧ ¬ reliable net).
Proof.
  intros Hq. unfold send_for_batch_address.
  intros [([ixs q] & net1 & Hadd & Hsend)|(e & Hadd & ->)]%io_bind_run;
    apply add_addresses_run in Hadd as (Hw1 & ixs' & Hr & Hp); try done.
  injection Hr as -> ->. simpl in Hsend.
  assert (waited net (pass net1)) as Hw2 by (eapply waited_trans; [done|apply waited_pass, Hw1]).
  apply io_bind_run in Hsend as [(h & net2 & Hh & Hsend)|(e & Hh & ->)];
    apply latest_blockhash_run in Hh as [-> Hr].
  2: { left. split; [done|]. destruct Hr as [[= ->]|[h ?]]; [by right|done]. }
  assert (waited net (pass (pass net1))) as Hw3 by (eapply waited_trans; [done|apply waited_pass, Hw2]).
  apply io_bind_run in Hsend as [(sg & net3 & Hs & Hret)|(e & Hs & ->)]; apply send_transaction_run in Hs;
    [|by destruct Hs as [[_ ?]|(_ & _ & [?|[? _]])]].
  injection Hret as <- <-. destruct Hs as [[-> [= ->]]|(-> & Hpre & Hsig)]; [left; auto|]. right.
  eexists _, _. split; [exact Hw3|]. split; [done|]. split; [exact Hpre|]. split; [by split|].
  destruct Hsig as [[= ->]|[[= ->] Hlost]]; [by left|right]. split; [done|].
  intros Hrel. apply (wa_reliable _ _ Hw2), reliable_pass in Hrel as [_ ?]. done.
Qed.

Lemma send_batch_run sent batch net net' r :
  quiet net → send_batch args amount sent batch net = (net', r) →
  waited net net' ∧ (r = Ok sent ∨ r = Err CliPanic) ∨
  ∃ net1 tx, waited net net1 ∧ net' = submit tx net1 ∧ preflight tx net1 = true ∧ batch_tx batch tx ∧
    (r = Ok (record_sent (signature_of tx) (qualified_address batch) sent) ∨ r = Ok sent ∧ ¬ reliable net).
Proof.
  intros Hq. unfold send_batch. intros [(o & net1 & Hs & [= <- <-])|(e & Hs & ->)]%io_bind_run;
    apply send_for_batch_address_run in Hs as [[Hw Hr]|(net2 & tx & Hw & -> & Hpre & Htx & Hr)]; try done.
  - left. destruct Hr as [[= ->]|?]; [auto|done].
  - right. exists net2, tx. do 4 (split; [done|]). destruct Hr as [[= ->]|[[= ->] ?]]; auto.
  - left. destruct Hr as [?|[= ->]]; [done|auto].
  - by destruct Hr as [?|[? _]].
Qed.

Lemma record_sent_lookup signature l sent a :
  record_sent signature l sent !! a = if bool_decide (a ∈ l) then Some signature else sent !! a.
Proof.
  unfold record_sent. revert sent. induction l as [|b l IH]; intros sent; simpl; [done|].
  rewrite IH. destruct (decide (a ∈ l)).
  - rewrite !bool_decide_eq_true_2 by set_solver. done.
  - rewrite (bool_decide_eq_false_2 (a ∈ l)) by done. destruct (decide (a = b)) as [-> |Hne].
    + rewrite lookup_insert_eq, bool_decide_eq_true_2 by set_solver. done.
    + rewrite lookup_insert_ne, bool_decide_eq_false_2 by set_solver. done.
Qed.

Lemma concat_map_sublist {A B} (g : A → list B) l l' :
  l `sublist_of` l' → concat (map g l) `sublist_of` concat (map g l').
Proof.
  induction 1 as [|x l l' Hs IH|x l l' Hs IH]; simpl; [done|by apply sublist_app|by apply sublist_inserts_l].
Qed.
Lemma elem_of_concat_map {A B} (g : A → list B) l x b : x ∈ l → b ∈ g x → b ∈ concat (map g l).
Proof.
  intros Hx Hb. apply list_elem_of_In, in_concat. exists (g x).
  split; [by apply in_map, list_elem_of_In|by apply list_elem_of_In].
Qed.
(** In a concatenation without repetition an element comes from one part. *)
Lemma concat_unique {A B} (g : A → list B) l x y b :
  NoDup (concat (map g l)) → x ∈ l → y ∈ l → b ∈ g x → b ∈ g y → x = y.
Proof.
  induction l as [|z l IH]; intros Hnd Hx Hy Hbx Hby; [by apply elem_of_nil in Hx|].
  simpl in Hnd. apply NoDup_app in Hnd as (_ & Hdis & Hnd).
  apply elem_of_cons in Hx as [-> |Hx]; apply elem_of_cons in Hy as [-> |Hy]; [done| | |auto].
  - destruct (Hdis b Hbx). by eapply elem_of_concat_map.
  - destruct (Hdis b Hby). by eapply elem_of_concat_map.
Qed.
Lemma atas_concat (l : list (list string)) : atas (concat l) = concat (map atas l).
Proof. induction l as [|b l IH]; [done|]. simpl. by rewrite atas_app, IH. Qed.

Lemma copies_total (small all : list Pubkey) :
  NoDup all → (∀ q, q ∈ small → q ∈ all) → sum_list (λ q, copies q small) all = Z.of_nat (length small).
Proof.
  intros Hall. induction small as [|x small IH]; intros Hin.
  - apply (sum_list_zero all).
  - unfold copies. simpl. rewrite sum_list_add. unfold copies in IH. rewrite IH by set_solver.
    assert (sum_list (λ q, if bool_decide (x = q) then 1 else 0) all = 1) as ->; [|lia].
    assert (x ∈ all) as Hx by (apply Hin; set_solver). clear -Hall Hx.
    induction Hall as [|y all Hy Hall IH]; [by apply elem_of_nil in Hx|]. simpl.
    apply elem_of_cons in Hx as [-> |Hx].
    + rewrite bool_decide_eq_true_2 by done. rewrite (sum_list_ext _ (λ _, 0)).
      * rewrite sum_list_zero. lia.
      * intros q Hq. by rewrite bool_decide_eq_false_2 by congruence.
    + rewrite IH by done. rewrite bool_decide_eq_false_2 by congruence. lia.
Qed.

(** ** A loop of submissions

    Each element of a list is skipped, or a transaction for its batch is submitted
    and, unless the answer is lost, recorded. *)
Section loop.
Context {X : Type} (f : gmap string string → X → io Network (gmap string string)) (batch_of : X → list string).
(** When an element may be sent, given the network at the start. *)
Context (net0 : Network) (guard : X → Prop).
Context (Hstep : ∀ sent x net net' r,
  quiet net → net_log net0 `prefix_of` net_log net → f sent x net = (net', r) →
  waited net net' ∧ (r = Ok sent ∨ r = Err CliPanic) ∨
  ∃ net1 tx, waited net net1 ∧ net' = submit tx net1 ∧ preflight tx net1 = true ∧
    batch_tx (batch_of x) tx ∧ guard x ∧
    (r = Ok (record_sent (signature_of tx) (qualified_address (batch_of x)) sent) ∨ r = Ok sent ∧ ¬ reliable net)).

Abbreviation batches l := (concat (map batch_of l)).
Abbreviation sub_ok := (λ p : X * Transaction, batch_tx (batch_of p.1) p.2 ∧ guard p.1).

Lemma subs_token (subs : list (X * Transaction)) : Forall sub_ok subs → Forall token_tx (map snd subs).
Proof.
  intros Hs. apply Forall_map, Forall_forall. intros p Hp. eapply Forall_forall in Hs as [Htx _]; [|exact Hp].
  by eapply batch_tx_token.
Qed.

(** [subs'] are the submissions of the loop, of which the recorded ones carry their
    signature. *)
Lemma loop_run l subs landed sent net net' sent' :
  since net0 net (map snd subs) landed → Forall sub_ok subs → quiet net →
  (reliable net0 → reliable net) → NoDup (qualified_address (batches l)) →
  for_fold f sent l net = (net', Ok sent') →
  ∃ subs' landed', since net0 net' (map snd (subs ++ subs')) landed' ∧ quiet net' ∧
    (reliable net0 → reliable net') ∧ Forall sub_ok subs' ∧ map fst subs' `sublist_of` l ∧
    (∀ p a, p ∈ subs' → a ∈ qualified_address (batch_of p.1) →
       sent' !! a = Some (signature_of p.2) ∨ sent' !! a = sent !! a ∧ ¬ reliable net0) ∧
    (∀ a, a ∉ qualified_address (batches (map fst subs')) → sent' !! a = sent !! a).
Proof.
  revert subs landed sent net. induction l as [|x l IH]; intros subs landed sent net Hsi Hall Hq Hrel Hnd;
    cbn [for_fold].
  { intros [= <- <-]. exists [], landed. rewrite app_nil_r. split_and!; try done. by intros p a ?%elem_of_nil. }
  cbn [map concat] in Hnd. unfold qualified_address in Hnd. rewrite filter_app in Hnd.
  apply NoDup_app in Hnd as (_ & Hdis & Hnd).
  intros [(sent1 & net1 & Hone & Hrest)|(e & _ & ?)]%io_bind_run; [|done].
  apply Hstep in Hone as [[Hw Hr]|(net2 & tx & Hw & -> & Hpre & Htx & Hg & Hr)]; [| |done|apply Hsi].
  - destruct Hr as [[= ->]|?]; [|done].
    destruct (wa_since _ _ Hw _ _ _ (subs_token _ Hall) Hsi) as [landed1 Hsi1].
    destruct (IH subs landed1 sent net1 Hsi1 Hall (wa_quiet _ _ Hw)) as (subs' & landed' & ?&?&?&?&?&?&?);
      [intros ?; by apply (wa_reliable _ _ Hw), Hrel|done|done|].
    exists subs', landed'. split_and!; try done. by constructor.
  - destruct (wa_since _ _ Hw _ _ _ (subs_token _ Hall) Hsi) as [landed1 Hsi1].
    destruct (IH (subs ++ [(x, tx)]) landed1 sent1 (submit tx net2))
      as (subs' & landed' & Hsi' & Hq' & Hrel' & Hok' & Hsub & Hin & Hout);
      [rewrite map_app; by apply since_submit|apply Forall_app; split; [done|by constructor]|apply Hw
      |intros ?; by apply (wa_reliable _ _ Hw), Hrel|done|done|].
    assert (∀ a, a ∈ qualified_address (batch_of x) → a ∉ qualified_address (batches (map fst subs'))) as Hnin.
    { intros a Ha Hb. apply (Hdis a Ha). apply list_elem_of_filter in Hb as [? Hb].
      apply list_elem_of_filter. split; [done|]. apply list_elem_of_In, in_concat in Hb as (b & Hb & ?).
      apply in_map_iff in Hb as (y & <- & Hy%list_elem_of_In). apply list_elem_of_In, in_concat.
      exists (batch_of y). split; [|done]. apply in_map, list_elem_of_In.
      eapply elem_of_submseteq; [exact Hy|by apply sublist_submseteq]. }
    exists ((x, tx) :: subs'), landed'. rewrite <- app_assoc in Hsi'.
    split_and!; [done|done|done|by constructor|by constructor| |].
    + intros p a [-> |Hp]%elem_of_cons Ha; simpl in *.
      * rewrite (Hout a (Hnin a Ha)). destruct Hr as [[= ->]|[[= ->] Hnr]]; [left|right; split; [done|auto]].
        by rewrite record_sent_lookup, bool_decide_eq_true_2.
      * destruct (Hin p a Hp Ha) as [?|[Heq ?]]; [by left|right]. split; [|done]. rewrite Heq.
        destruct Hr as [[= ->]|[[= ->] _]]; [|done]. rewrite record_sent_lookup, bool_decide_eq_false_2; [done|].
        intros Hx. apply (Hnin a Hx). apply list_elem_of_filter in Ha as [? Ha]. apply list_elem_of_filter.
        split; [done|]. apply list_elem_of_In, in_concat. exists (batch_of p.1).
        split; [by apply in_map, list_elem_of_In, list_elem_of_fmap_2|by apply list_elem_of_In].
    + intros a Ha. simpl in Ha. unfold qualified_address in Ha. rewrite filter_app in Ha.
      apply not_elem_of_app in Ha as [Hx Ha]. rewrite (Hout a Ha).
      destruct Hr as [[= ->]|[[= ->] _]]; [|done]. by rewrite record_sent_lookup, bool_decide_eq_false_2.
Qed.

(** *** What it moves *)
Section balances.
Context (l : list X) (subs : list (X * Transaction)) (landed : list Transaction).
Context (Hnd : NoDup (atas (batches l))) (Hsrc : source ∉ atas (batches l)).
Context (Hok : Forall sub_ok subs) (Hsub : map fst subs `sublist_of` l).
Context (Hlanded : ∀ tx, tx ∈ landed → tx ∈ map snd subs) (Honce : NoDup landed).

Abbreviation paid := (concat (map (atas ∘ batch_of ∘ fst) subs)).

Lemma paid_sublist : paid `sublist_of` atas (batches l).
Proof.
  assert (paid = atas (batches (map fst subs))) as ->; [|by apply atas_sublist, concat_map_sublist].
  rewrite atas_concat, !map_map. done.
Qed.
Lemma paid_in q : q ∈ paid → q ∈ atas (batches l).
Proof. intros Hq. eapply elem_of_submseteq; [exact Hq|]. apply sublist_submseteq, paid_sublist. Qed.

Lemma sub_flow p q :
  p ∈ subs → q ≠ source → tx_flow q p.2 = if bool_decide (q ∈ atas (batch_of p.1)) then amount else 0.
Proof.
  intros Hp Hq. eapply Forall_forall in Hok as [[_ [_ Hf _]] _]; [|exact Hp]. unfold tx_flow.
  rewrite Hf, (bool_decide_eq_false_2 (source = q)), copies_NoDup; [case_bool_decide; lia| |done].
  eapply sublist_NoDup; [exact Hnd|]. etrans; [|apply paid_sublist]. apply list_elem_of_split in Hp as (s1 & s2 & ->).
  rewrite map_app, concat_app. simpl. by apply sublist_inserts_l, sublist_inserts_r.
Qed.

Lemma sub_paid p q :
  p ∈ subs → q ∈ atas (batch_of p.1) → flow q landed = if decide (p.2 ∈ landed) then amount else 0.
Proof.
  intros Hp Hq. assert (q ∈ paid) as Hqp by exact (elem_of_concat_map (atas ∘ batch_of ∘ fst) subs p q Hp Hq).
  assert (q ≠ source) as Hne by (intros ->; by apply Hsrc, paid_in).
  destruct (flow_single q landed p.2 Honce) as [Hin Hout].
  - intros tx' Htx' Hdiff. apply Hlanded, list_elem_of_fmap in Htx' as (p' & -> & Hp').
    rewrite sub_flow, bool_decide_eq_false_2; [done| |done|done]. intros Hq'. apply Hdiff. f_equal.
    eapply (concat_unique (atas ∘ batch_of ∘ fst) subs); [|done|done|exact Hq'|exact Hq].
    eapply sublist_NoDup; [exact Hnd|apply paid_sublist].
  - case_decide; [|by apply Hout]. rewrite Hin by done. by rewrite sub_flow, bool_decide_eq_true_2.
Qed.

Lemma not_paid q : q ≠ source → q ∉ paid → flow q landed = 0.
Proof.
  intros Hne Hq. apply flow_none. intros tx (p & -> & Hp)%Hlanded%list_elem_of_fmap.
  rewrite sub_flow, bool_decide_eq_false_2; [done| |done|done]. intros Hq'. apply Hq.
  exact (elem_of_concat_map (atas ∘ batch_of ∘ fst) subs p q Hp Hq').
Qed.

Lemma not_touched q : q ≠ source → q ∉ paid → ¬ touched q landed.
Proof.
  intros Hne Hq (tx & ix & (p & -> & Hp)%Hlanded%list_elem_of_fmap & Hix & Ht).
  pose proof Hok as Hok'. eapply Forall_forall in Hok' as [[_ [_ _ Hpt]] _]; [|exact Hp].
  destruct (Hpt q ix Hix Ht) as [?|Hq']; [done|]. apply Hq.
  exact (elem_of_concat_map (atas ∘ batch_of ∘ fst) subs p q Hp Hq').
Qed.

(** What the accounts gained is what the source gave. *)
Lemma source_pays : flow source landed = - sum_list (λ q, flow q landed) (atas (batches l)).
Proof.
  clear Honce. induction landed as [|tx txs IH].
  - unfold flow. simpl. by rewrite sum_list_zero.
  - assert (tx ∈ map snd subs) as (p & -> & Hp)%list_elem_of_fmap by (apply Hlanded, list_elem_of_here).
    assert (∀ q, flow q (p.2 :: txs) = tx_flow q p.2 + flow q txs) as Hcons by done.
    rewrite Hcons, IH by (intros; apply Hlanded; by right).
    rewrite (sum_list_ext (λ q, flow q (p.2 :: txs))
      (λ q, amount * copies q (atas (batch_of p.1)) + flow q txs)).
    + rewrite sum_list_add. eapply Forall_forall in Hok as [[_ [_ Hf _]] _]; [|exact Hp].
      unfold tx_flow. rewrite Hf, bool_decide_eq_true_2 by done.
      assert (∀ q, q ∈ atas (batch_of p.1) → q ∈ atas (batches l)) as Hall.
      { intros q Hq. apply paid_in. exact (elem_of_concat_map (atas ∘ batch_of ∘ fst) subs p q Hp Hq). }
      assert (copies source (atas (batch_of p.1)) = 0) as ->.
      { rewrite copies_NoDup, bool_decide_eq_false_2; [done|by intros ?%Hall|].
        eapply sublist_NoDup; [exact Hnd|]. etrans; [|apply paid_sublist].
        apply list_elem_of_split in Hp as (s1 & s2 & ->).
        rewrite map_app, concat_app. simpl. by apply sublist_inserts_l, sublist_inserts_r. }
      pose proof (copies_total _ _ Hnd Hall) as Htot.
      assert (sum_list (λ q, amount * copies q (atas (batch_of p.1))) (atas (batches l))
        = amount * Z.of_nat (length (atas (batch_of p.1)))) as ->; [|lia].
      rewrite <- Htot. clear. induction (atas (batches l)); simpl; lia.
    + intros q Hq. rewrite Hcons. f_equal. eapply Forall_forall in Hok as [[_ [_ Hf _]] _]; [|exact Hp].
      unfold tx_flow. rewrite Hf, bool_decide_eq_false_2; [lia|]. by intros <-.
Qed.
End balances.

(** The outcome of a loop, after any further events in which nobody else acts. *)
Record outcome (l : list X) sent sent' net2 : Prop := {
  oc_address x a u : x ∈ l → a ∈ batch_of x → pubkey_from_str a = Some u →
    (guard x ∧ ∃ tx, sent' !! a = Some (signature_of tx) ∧
       gain net0 net2 (user_ata args u) =
         if decide (log_status net2 (signature_of tx) = SigSucceeded) then amount else 0) ∨
    sent' !! a = sent !! a ∧
      (gain net0 net2 (user_ata args u) = 0 ∨
       guard x ∧ gain net0 net2 (user_ata args u) = amount ∧ ¬ reliable net0);
  oc_kept a : a ∉ batches l → sent' !! a = sent !! a;
  oc_other p : p ≠ source → p ∉ atas (batches l) →
    tk_accounts (st_tokens (net_ledger net2)) !! p = tk_accounts (st_tokens (net_ledger net0)) !! p;
  oc_source : gain net0 net2 source = - sum_list (gain net0 net2) (atas (batches l));
  oc_accounts : st_accounts (net_ledger net2) = st_accounts (net_ledger net0);
  oc_quiet : quiet net2;
  oc_reliable : reliable net0 → reliable net2
}.

Lemma loop_outcome l sent net1 sent' events :
  quiet net0 → net_pending net0 = [] → NoDup (atas (batches l)) → source ∉ atas (batches l) →
  for_fold f sent l net0 = (net1, Ok sent') → Forall quiet_event events →
  outcome l sent sent' (net_run net1 events).
Proof.
  intros Hq Hp Hnd Hsrc Hrun Hev.
  destruct (loop_run l [] [] sent net0 net1 sent' (since_start net0 Hp) ltac:(constructor) Hq id
    (qualified_NoDup _ Hnd) Hrun) as (subs & landed1 & Hsi1 & Hq1 & Hrel1 & Hok & Hsub & Hin & Hout).
  simpl in Hsi1.
  destruct (since_run net0 net1 _ landed1 events (subs_token _ Hok) Hev Hsi1) as (landed & Hsi & _).
  pose proof (si_landed _ _ _ _ Hsi) as Hl. pose proof (si_once _ _ _ _ Hsi) as Honce.
  assert (∀ p, p ∈ subs → p.1 ∈ l) as Hsubl.
  { intros p Hps. eapply elem_of_submseteq; [exact (list_elem_of_fmap_2 fst _ _ Hps)|by apply sublist_submseteq]. }
  assert (∀ q, q ∈ concat (map (atas ∘ batch_of ∘ fst) subs) → q ∈ atas (batches l)) as Hpaid
    by exact (paid_in l subs Hsub).
  split.
  - intros x a u Hx Ha Hu. rewrite (since_gain _ _ _ _ _ Hsi).
    assert (user_ata args u ∈ atas (batch_of x)) as Hax by by eapply elem_of_atas.
    destruct (decide (user_ata args u ∈ concat (map (atas ∘ batch_of ∘ fst) subs))) as [Hyes|Hno].
    + apply list_elem_of_In, in_concat in Hyes as (b & (p & <- & Hps%list_elem_of_In)%in_map_iff & Hb%list_elem_of_In).
      assert (p.1 = x) as Hpx.
      { eapply (concat_unique (atas ∘ batch_of) l); [|by apply Hsubl|done|exact Hb|exact Hax].
        rewrite atas_concat, map_map in Hnd. exact Hnd. }
      assert (a ∈ qualified_address (batch_of p.1)) as Haq by (rewrite Hpx; apply elem_of_qualified; eauto).
      pose proof Hok as Hok'. eapply Forall_forall in Hok' as [_ Hg]; [|exact Hps]. rewrite Hpx in Hg.
      rewrite (sub_paid l subs landed Hnd Hsrc Hok Hsub Hl Honce p _ Hps Hb).
      destruct (Hin p a Hps Haq) as [Hrec|[Hkeep Hnr]].
      * left. split; [done|]. exists p.2. split; [done|]. apply decide_ext.
        rewrite log_status_succeeded, (si_log _ _ _ _ Hsi); [done|]. by apply list_elem_of_fmap_2.
      * right. split; [done|]. case_decide; auto.
    + right. rewrite (not_paid l subs landed Hnd Hok Hsub Hl); [|by intros Heq; apply Hsrc; rewrite <- Heq, atas_concat;
        eapply elem_of_concat_map; [apply list_elem_of_fmap_2; exact Hx|]|done].
      split; [|by left]. apply Hout. intros (_ & Hb)%elem_of_qualified. apply Hno.
      apply list_elem_of_In, in_concat in Hb as (b & (y & <- & (p & <- & Hps)%in_map_iff)%in_map_iff & Hb%list_elem_of_In).
      apply list_elem_of_In in Hps. eapply (elem_of_concat_map (atas ∘ batch_of ∘ fst)); [exact Hps|].
      by eapply elem_of_atas.
  - intros a Ha. apply Hout. intros [_ Hb]%elem_of_qualified. apply Ha.
    eapply elem_of_submseteq; [exact Hb|]. by apply sublist_submseteq, concat_map_sublist.
  - intros p Hps Hpa. apply (fl_other _ _ _ (si_flow _ _ _ _ Hsi)).
    apply (not_touched subs landed Hok Hl); [done|auto].
  - rewrite (since_gain _ _ _ _ _ Hsi), (source_pays l subs landed Hnd Hsrc Hok Hsub Hl). f_equal.
    apply sum_list_ext. intros q _. symmetry. by eapply since_gain.
  - apply Hsi.
  - unfold quiet. by rewrite net_run_future.
  - intros Hr%Hrel1. unfold reliable. by rewrite net_run_future.
Qed.
End loop.

(** ** The commands *)
Lemma mass_send_step net0 sent batch net net' r :
  quiet net → net_log net0 `prefix_of` net_log net → send_batch args amount sent batch net = (net', r) →
  waited net net' ∧ (r = Ok sent ∨ r = Err CliPanic) ∨
  ∃ net1 tx, waited net net1 ∧ net' = submit tx net1 ∧ preflight tx net1 = true ∧ batch_tx batch tx ∧ True ∧
    (r = Ok (record_sent (signature_of tx) (qualified_address batch) sent) ∨ r = Ok sent ∧ ¬ reliable net).
Proof. intros Hq _ [?|(net1 & tx & ?&?&?&?&?)]%send_batch_run; [by left| |done]. right. exists net1, tx. auto 10. Qed.

(** A group is resent only if its transaction had not succeeded at the start. *)
Definition not_succeeded net0 (group : string * list string) : Prop := log_status net0 group.1 ≠ SigSucceeded.
Definition resent max (group : string * list string) : list string := take max group.2.

Lemma resend_step max net0 sent group net net' r :
  quiet net → net_log net0 `prefix_of` net_log net → resend_group args amount max sent group net = (net', r) →
  waited net net' ∧ (r = Ok sent ∨ r = Err CliPanic) ∨
  ∃ net1 tx, waited net net1 ∧ net' = submit tx net1 ∧ preflight tx net1 = true ∧
    batch_tx (resent max group) tx ∧ not_succeeded net0 group ∧
    (r = Ok (record_sent (signature_of tx) (qualified_address (resent max group)) sent) ∨
     r = Ok sent ∧ ¬ reliable net).
Proof.
  intros Hq Hlog. destruct group as [signature addresses]. unfold resend_group, get_signature_status.
  destruct (signature_readable signature).
  2: { intros [(status & net1 & ? & _)|(e & [= <- <-] & ->)]%io_bind_run; [done|].
       left. split; [by apply waited_refl|by right]. }
  pose proof (waited_pass net Hq) as Hw.
  intros [(status & net1 & Hst & Hrest)|(e & Hst & ->)]%io_bind_run;
    rewrite call_run in Hst; [|by destruct (ti_answer _)].
  assert (net1 = pass net ∧ (should_resend status = true → not_succeeded net0 (signature, addresses)))
    as [-> Hguard].
  { destruct (ti_answer _); injection Hst as <- <-; (split; [done|]); try done.
    intros Hs Hl. cbn [fst] in Hl. rewrite log_status_succeeded in Hl.
    assert ((signature, true) ∈ net_log (pass net)) as Hin; [|apply log_status_succeeded in Hin; by rewrite Hin in Hs].
    eapply elem_of_prefix; [exact Hl|]. etrans; [exact Hlog|]. apply pass_log. }
  destruct (should_resend status).
  - apply send_batch_run in Hrest as [[Hw' ?]|(net2 & tx & Hw' & ? & ? & ? & Hr)]; [| |apply Hw].
    + left. split; [by eapply waited_trans|done].
    + right. exists net2, tx. split; [by eapply waited_trans|]. do 3 (split; [done|]). split; [by apply Hguard|].
      destruct Hr as [?|[? Hnr]]; [by left|right]. split; [done|]. intros Hrel. apply Hnr. by apply Hw.
  - injection Hrest as <- <-. left. auto.
Qed.

Lemma group_by_signature_spec entries signature a :
  a ∈ default [] (group_by_signature entries !! signature) ↔ (a, signature) ∈ entries.
Proof.
  unfold group_by_signature.
  enough (∀ m : gmap string (list string),
    a ∈ default [] (foldl (λ m '(address, signature),
      <[signature := default [] (m !! signature) ++ [address]]> m) m entries !! signature) ↔
    a ∈ default [] (m !! signature) ∨ (a, signature) ∈ entries) as Hm.
  { rewrite Hm, lookup_empty. simpl. set_solver. }
  induction entries as [|[b sg] entries IH]; intros m; simpl; [set_solver|].
  rewrite IH. destruct (decide (sg = signature)) as [-> |Hne].
  - rewrite lookup_insert_eq. simpl. set_solver.
  - rewrite lookup_insert_ne by done. set_solver.
Qed.


(** The accounts of distinct addresses differ, also from those of a part of them. *)
Lemma ata_outside part addresses a u :
  NoDup (atas addresses) → (∀ b, b ∈ part → b ∈ addresses) → a ∈ addresses → pubkey_from_str a = Some u →
  a ∉ part → user_ata args u ∉ atas part.
Proof.
  intros Hnd Hpart Ha Hu Hno (u' & Heq & (a' & Ha' & Hu')%list_elem_of_omap)%list_elem_of_fmap.
  apply Hno. by rewrite (atas_inj addresses a a' u u' Hnd Ha (Hpart _ Ha') Hu Hu' Heq).
Qed.

Lemma gain_same net net' p :
  tk_accounts (st_tokens (net_ledger net')) !! p = tk_accounts (st_tokens (net_ledger net)) !! p → gain net net' p = 0.
Proof. unfold gain, held. intros ->. lia. Qed.

(** A resend started when nothing is in flight. *)
Lemma resend_outcome max entries groups sent net net1 sent1 events a u s :
  entries ≡ₚ map_to_list sent → groups ≡ₚ map_to_list (group_by_signature entries) →
  NoDup (atas (concat (map snd groups))) → source ∉ atas (concat (map snd groups)) →
  quiet net → net_pending net = [] → process_resend args amount max groups sent net = (net1, Ok sent1) →
  Forall quiet_event events → sent !! a = Some s → pubkey_from_str a = Some u →
  let g := gain net (net_run net1 events) (user_ata args u) in
  (log_status net s = SigSucceeded → sent1 !! a = Some s ∧ g = 0) ∧ (g = 0 ∨ g = amount).
Proof.
  intros He Hg Hnd Hsrc Hq Hp Hrun Hev Ha Hu g.
  assert (concat (map (resent max) groups) `sublist_of` concat (map snd groups)) as Htake.
  { clear. induction groups as [|x groups IH]; simpl; [done|]. apply sublist_app; [apply sublist_take|done]. }
  pose proof (loop_outcome (resend_group args amount max) (resent max) net (not_succeeded net)
    (resend_step max net) groups sent net1 sent1 events Hq Hp) as [Haddr Hkept Hother _ _ _ _].
  { eapply sublist_NoDup; [exact Hnd|by apply atas_sublist]. }
  { intros Hin. apply Hsrc. eapply elem_of_submseteq; [exact Hin|]. by apply sublist_submseteq, atas_sublist. }
  { exact Hrun. }
  { exact Hev. }
  assert (∃ addresses, (s, addresses) ∈ groups ∧ a ∈ addresses) as (addresses & Hgr & Hain).
  { assert ((a, s) ∈ entries) as Hin by (rewrite He; by apply elem_of_map_to_list).
    apply group_by_signature_spec in Hin.
    destruct (group_by_signature entries !! s) as [l|] eqn:Hl; [|by apply elem_of_nil in Hin].
    exists l. rewrite Hg. split; [by apply elem_of_map_to_list|done]. }
  assert (a ∈ concat (map snd groups)) as Hac by exact (elem_of_concat_map snd groups _ a Hgr Hain).
  destruct (decide (a ∈ concat (map (resent max) groups))) as [Hin|Hout].
  - apply list_elem_of_In, in_concat in Hin as (b & (x & <- & Hx%list_elem_of_In)%in_map_iff & Hb%list_elem_of_In).
    assert (x = (s, addresses)) as ->.
    { eapply (concat_unique (atas ∘ snd) groups); [by rewrite atas_concat, map_map in Hnd|done|done| |].
      - eapply elem_of_atas; [|exact Hu]. eapply elem_of_submseteq; [exact Hb|]. apply sublist_submseteq, sublist_take.
      - by eapply elem_of_atas. }
    destruct (Haddr _ a u Hx Hb Hu) as [(Hns & tx & _ & Hgain)|(Hk & Hgain)].
    + split; [intros ?; by destruct Hns|]. unfold g. rewrite Hgain. case_decide; auto.
    + rewrite Ha in Hk. split; [|destruct Hgain as [?|(_ & ? & _)]; auto].
      intros Hs. split; [done|]. destruct Hgain as [?|(Hns & _)]; [done|by destruct Hns].
  - assert (g = 0) as Hg0.
    { apply gain_same, Hother.
      - intros Heq. apply Hsrc. rewrite <- Heq. by eapply elem_of_atas.
      - eapply ata_outside; [exact Hnd| |done|done|done]. intros b Hb. eapply elem_of_submseteq; [exact Hb|].
        by apply sublist_submseteq. }
    split; [|by left]. intros _. split; [|done]. by rewrite (Hkept a Hout).
Qed.

(** C37.  Mass sending pays each address at most once.  The addresses have distinct
    token accounts, none of them the payer's own; nothing of the payer's is in
    flight when the command starts and nobody else acts.  When it has returned,
    and after whatever then becomes of its transactions: an address recorded
    before the run keeps its record and has received nothing; an address the run
    recorded has received exactly [amount] if the transaction recorded for it has
    succeeded, and nothing otherwise (recorded means submitted, not paid); an
    address left unrecorded has received nothing, unless the answer to a
    submission was lost, when it may have received [amount].  Records of other
    addresses, other accounts and the program's accounts are unchanged, the payer
    has paid the sum of the gains, and every batch has between one and the
    configured number of addresses.  A resend started once nothing is in flight,
    in whatever order the two maps are iterated, pays no address whose recorded
    transaction had succeeded, and the two commands together pay an address at
    most once.  (Counterexamples without the conditions: [mx_duplicate_paid_twice],
    [mx_resend_in_flight_pays_twice], [mx_lost_answer_unrecorded].) *)
Theorem mass_send_pays_each_address_once max addresses sent net net1 sent1 events :
  NoDup (atas addresses) → source ∉ atas addresses → quiet net → net_pending net = [] →
  process_mass_send args amount max addresses sent net = (net1, Ok sent1) → Forall quiet_event events →
  let net2 := net_run net1 events in
  (∀ a u, a ∈ addresses → pubkey_from_str a = Some u →
     let g := gain net net2 (user_ata args u) in
     match sent !! a, sent1 !! a with
     | Some s, s1 => s1 = Some s ∧ g = 0
     | None, Some s1 => g = if decide (log_status net2 s1 = SigSucceeded) then amount else 0
     | None, None => g = 0 ∨ g = amount ∧ ¬ reliable net
     end) ∧
  (∀ a, a ∉ addresses → sent1 !! a = sent !! a) ∧
  (∀ p, p ∉ atas addresses → p ≠ source →
     tk_accounts (st_tokens (net_ledger net2)) !! p = tk_accounts (st_tokens (net_ledger net)) !! p) ∧
  gain net net2 source = - sum_list (gain net net2) (atas (unsent sent addresses)) ∧
  st_accounts (net_ledger net2) = st_accounts (net_ledger net) ∧
  Forall (λ b, 0 < length b ≤ Nat.max 1 max)%nat (make_batches max sent [] addresses) ∧
  ∀ max' entries groups net3 sent3 events',
    entries ≡ₚ map_to_list sent1 → groups ≡ₚ map_to_list (group_by_signature entries) →
    NoDup (atas (concat (map snd groups))) → source ∉ atas (concat (map snd groups)) →
    net_pending net2 = [] → process_resend args amount max' groups sent1 net2 = (net3, Ok sent3) →
    Forall quiet_event events' →
    let net4 := net_run net3 events' in
    ∀ a u s, sent1 !! a = Some s → pubkey_from_str a = Some u →
      (log_status net2 s = SigSucceeded → sent3 !! a = Some s ∧ gain net2 net4 (user_ata args u) = 0) ∧
      (a ∈ addresses → sent !! a = None →
         gain net net4 (user_ata args u) = 0 ∨ gain net net4 (user_ata args u) = amount).
Proof.
  intros Hnd Hsrc Hq Hp Hrun Hev net2.
  destruct (make_batches_spec max sent [] addresses) as [Hcat Hsizes]; [simpl; lia|]. simpl in Hcat.
  assert (concat (map id (make_batches max sent [] addresses)) = unsent sent addresses) as Hun
    by (rewrite map_id; exact Hcat).
  assert (atas (unsent sent addresses) `sublist_of` atas addresses) as Hsub
    by apply atas_sublist, unsent_sublist.
  assert (∀ b, b ∈ unsent sent addresses → b ∈ addresses) as Hin
    by (intros b Hb; eapply elem_of_submseteq; [exact Hb|]; apply sublist_submseteq, unsent_sublist).
  pose proof (loop_outcome (send_batch args amount) id net (λ _, True) (mass_send_step net)
    (make_batches max sent [] addresses) sent net1 sent1 events Hq Hp) as Hout.
  rewrite Hun in Hout. destruct Hout as [Haddr Hkept Hother Hpays Hacc Hq2 _];
    [by eapply sublist_NoDup|intros Hs; apply Hsrc; eapply elem_of_submseteq; [exact Hs|by apply sublist_submseteq]
    |exact Hrun|exact Hev|]. rewrite Hun in *. fold net2 in Haddr, Hother, Hpays, Hacc, Hq2.
  assert (∀ a u, a ∈ addresses → pubkey_from_str a = Some u →
    match sent !! a, sent1 !! a with
    | Some s, s1 => s1 = Some s ∧ gain net net2 (user_ata args u) = 0
    | None, Some s1 =>
        gain net net2 (user_ata args u) = if decide (log_status net2 s1 = SigSucceeded) then amount else 0
    | None, None => gain net net2 (user_ata args u) = 0 ∨ gain net net2 (user_ata args u) = amount ∧ ¬ reliable net
    end) as Hmain.
  { intros a u Ha Hu. destruct (sent !! a) as [s|] eqn:Hs.
    - assert (a ∉ unsent sent addresses) as Hno by (intros [? _]%list_elem_of_filter; congruence).
      split; [by rewrite (Hkept a Hno)|]. apply gain_same, Hother; [|by eapply ata_outside].
      intros Heq. apply Hsrc. rewrite <- Heq. by eapply elem_of_atas.
    - assert (a ∈ unsent sent addresses) as Hyes by by apply list_elem_of_filter.
      rewrite <- Hcat in Hyes. apply list_elem_of_In, in_concat in Hyes as (b & Hb%list_elem_of_In & Hab%list_elem_of_In).
      destruct (Haddr b a u Hb Hab Hu) as [(_ & tx & -> & ->)|(-> & Hg)]; [done|]. rewrite Hs.
      destruct Hg as [?|(_ & ?)]; auto. }
  split_and!; [done| | |done|done|done|].
  - intros a Ha. apply Hkept. intros ?%Hin. done.
  - intros p Hpa Hps. apply Hother; [done|]. intros Hq'. apply Hpa.
    eapply elem_of_submseteq; [exact Hq'|by apply sublist_submseteq].
  - intros max' entries groups net3 sent3 events' He Hg Hnd' Hsrc' Hp2 Hrun' Hev' net4 a u s Hs Hu.
    destruct (resend_outcome max' entries groups sent1 net2 net3 sent3 events' a u s He Hg Hnd' Hsrc' Hq2 Hp2
      Hrun' Hev' Hs Hu) as [Hdone Hgain]. split; [done|].
    intros Ha Hnone. specialize (Hmain a u Ha Hu). rewrite Hnone, Hs in Hmain.
    rewrite (gain_trans net net2 net4), Hmain. case_decide as Hd.
    + destruct (Hdone Hd) as [_ Hz]. fold net4 in Hz. rewrite Hz. right. lia.
    + fold net4 in Hgain. destruct Hgain as [-> | ->]; auto.
Qed.
End send_theorems.

(** ** Witnesses: a key is read as the length of its text *)
#[local] Existing Instances reference_ata reference_ata_spec reference_signatures reference_signatures_spec.
#[local] Instance length_parser : PubkeyParser := λ s,
  if decide (s = "not-a-key"%string) then None else Some (key (Z.of_nat (String.length s))).

Definition mx_addresses : list string := ["a"; "bb"; "not-a-key"; "ccc"]%string.
Definition mx_sent : gmap string string := {[ "bb" := "old" ]}%string.
Definition mx_net0 : Network := mkNetwork dx_state0 7 [] [] [] [].
Definition mx_value (r : Network * result cli_failure (gmap string string)) : gmap string string :=
  match r.2 with Ok m => m | Err _ => ∅ end.
Definition mx_run1 : Network * result cli_failure (gmap string string) :=
  process_mass_send dx_args 10 2 mx_addresses mx_sent mx_net0.
Definition mx_sent1 : gmap string string := mx_value mx_run1.
(** The first transaction is lost, the second lands. *)
Definition mx_net2 : Network := net_run mx_run1.1 [Lose 0; Land 0; NewBlock 8].
Definition mx_groups : list (string * list string) := map_to_list (group_by_signature (map_to_list mx_sent1)).
Definition mx_run2 : Network * result cli_failure (gmap string string) :=
  process_resend dx_args 10 2 mx_groups mx_sent1 mx_net2.
(** The repeated transactions land. *)
Definition mx_net4 : Network := net_run mx_run2.1 [Land 0; Land 0].

Definition mx_held (net : Network) (n : Z) : Z := held (st_tokens (net_ledger net)) (user_ata dx_args (key n)).

(** After the run only the third key has been paid; the resend pays the first, and
    the second, whose record is not a signature the node knows. *)
Example mx_balances :
  map (mx_held mx_net2) [1; 2; 3] = [0; 0; 10] ∧ map (mx_held mx_net4) [1; 2; 3] = [10; 10; 10] ∧
  map (λ a, bool_decide (is_Some (mx_sent1 !! a))) mx_addresses = [true; true; false; true].
Proof. vm_compute. repeat split. Qed.

(** An address listed twice is paid twice when it falls into two batches. *)
Example mx_duplicate_paid_twice :
  let run := process_mass_send dx_args 10 1 ["a"; "a"]%string ∅
               (mkNetwork dx_state0 7 [] [] [] [mkTick [] Answered; mkTick [] Answered; mkTick [] Answered;
                  mkTick [Land 0; NewBlock 8] Answered]) in
  mx_held (net_run run.1 [Land 0]) 1 = 20.
Proof. vm_compute. reflexivity. Qed.

(** A resend while the transaction is in flight pays again, if the account existed
    (otherwise the second transaction fails to create it). *)
Definition mx_existing : State :=
  set_tokens (mkTokenState (<[user_ata dx_args (key 1) := mkTokenAccount sc_mint_key (key 1) 0 None false]>
                              (tk_accounts (st_tokens dx_state0))) (tk_mints (st_tokens dx_state0))) dx_state0.
Example mx_resend_in_flight_pays_twice :
  let run := process_mass_send dx_args 10 1 ["a"]%string ∅ (mkNetwork mx_existing 7 [] [] [] []) in
  let groups := map_to_list (group_by_signature (map_to_list (mx_value run))) in
  let again := process_resend dx_args 10 1 groups (mx_value run) (net_run run.1 [NewBlock 8]) in
  mx_held (net_run again.1 [Land 0; Land 0]) 1 = 20.
Proof. vm_compute. reflexivity. Qed.

(** A lost answer leaves a paid address unrecorded. *)
Example mx_lost_answer_unrecorded :
  let run := process_mass_send dx_args 10 1 ["a"]%string ∅
               (mkNetwork dx_state0 7 [] [] [] [mkTick [] Answered; mkTick [] Answered; mkTick [] AnswerLost]) in
  mx_held (net_run run.1 [Land 0]) 1 = 10 ∧ mx_value run !! "a"%string = None.
Proof. vm_compute. split; reflexivity. Qed.

Lemma mx_distinct : NoDup (atas dx_args mx_addresses).
Proof. apply (bool_decide_unpack _). vm_compute. exact I. Qed.
Lemma mx_source : source_vault dx_args ∉ atas dx_args mx_addresses.
Proof. apply (bool_decide_unpack _). vm_compute. exact I. Qed.
Lemma mx_groups_distinct : NoDup (atas dx_args (concat (map snd mx_groups))).
Proof. apply (bool_decide_unpack _). vm_compute. exact I. Qed.
Lemma mx_groups_source : source_vault dx_args ∉ atas dx_args (concat (map snd mx_groups)).
Proof. apply (bool_decide_unpack _). vm_compute. exact I. Qed.

Lemma mx_ok (run : Network * result cli_failure (gmap string string)) :
  is_ok run.2 = true → run = (run.1, Ok (mx_value run)).
Proof. destruct run as [net [m|e]]; [reflexivity|discriminate]. Qed.
Lemma mx_sends : process_mass_send dx_args 10 2 mx_addresses mx_sent mx_net0 = (mx_run1.1, Ok mx_sent1).
Proof. unfold mx_sent1. apply mx_ok. vm_compute. reflexivity. Qed.
Lemma mx_resends : process_resend dx_args 10 2 mx_groups mx_sent1 mx_net2 = (mx_run2.1, Ok (mx_value mx_run2)).
Proof. apply mx_ok. vm_compute. reflexivity. Qed.
Lemma mx_recorded : ∃ s, mx_sent1 !! "ccc"%string = Some s.
Proof.
  assert (bool_decide (is_Some (mx_sent1 !! "ccc"%string)) = true) as Hs by (vm_compute; reflexivity).
  apply bool_decide_eq_true in Hs as [s Hs]. exists s. exact Hs.
Qed.

Lemma mass_send_pays_each_address_once_witness :
  gain mx_net0 mx_net2 (source_vault dx_args)
    = - sum_list (gain mx_net0 mx_net2) (atas dx_args (unsent mx_sent mx_addresses)) ∧
  (gain mx_net0 mx_net4 (user_ata dx_args (key 3)) = 0 ∨ gain mx_net0 mx_net4 (user_ata dx_args (key 3)) = 10).
Proof.
  destruct (mass_send_pays_each_address_once dx_args 10 2 mx_addresses mx_sent mx_net0 mx_run1.1 mx_sent1
    [Lose 0; Land 0; NewBlock 8] mx_distinct mx_source ltac:(constructor) eq_refl mx_sends
    ltac:(repeat constructor)) as (_ & _ & _ & Hs & _ & _ & Hre).
  split; [exact Hs|]. destruct mx_recorded as [s Hrec].
  destruct (Hre 2%nat (map_to_list mx_sent1) mx_groups mx_run2.1 (mx_value mx_run2) [Land 0; Land 0]
    (Permutation_refl _) (Permutation_refl _) mx_groups_distinct mx_groups_source
    ltac:(vm_compute; reflexivity) mx_resends ltac:(repeat constructor) "ccc"%string (key 3) s Hrec
    ltac:(vm_compute; reflexivity)) as [_ Hgain].
  apply Hgain; [|vm_compute; reflexivity].
  apply (bool_decide_unpack _). vm_compute. exact I.
Defined.
