(* ===== verification/ListTools.v ===== *)
(** * Recipient lists
    (src/cli/src/bin/instructions: process_filter_list.rs,
    process_filter_and_merge.rs, process_extend_list.rs,
    process_create_dummy_csv.rs)

    The rows the list tools write for the rows they read.  [sort_unstable] on
    pairs is a sort by key, then amount; its result is determined because the
    order is total.  [Pubkey::new_unique] is a parameter. *)
From S2P Require Import BTree.
From S2P Require Import Prelude Machine TreeNode Solana State Network Deploy Sharding.

Section lists.
Context `{PubkeyParser}.
(** The keys [Pubkey::new_unique] returns, by number of the call. *)
Context (new_unique : nat → Pubkey).
Implicit Types (rows : list (Pubkey * Z)).

(** ** Reading keys, sorting, removing duplicates *)

(** Rows whose key does not parse are printed and skipped. *)
Definition read_rows (entries : list (string * Z)) : list (Pubkey * Z) :=
  omap (λ '(text, amount), option_map (λ k, (k, amount)) (pubkey_from_str text)) entries.

(** The order of [(Pubkey, u64)]. *)
Definition row_leb (a b : Pubkey * Z) : bool :=
  if bool_decide (a.1 = b.1) then a.2 <=? b.2 else b32_leb a.1 b.1.
Definition row_le (a b : Pubkey * Z) : Prop := row_leb a b = true.
#[global] Instance row_le_dec a b : Decision (row_le a b).
Proof. unfold row_le. apply _. Defined.

Definition sort_unstable rows : list (Pubkey * Z) := merge_sort row_le rows.

(** [dedup_by(|a, b| same)]: an element is dropped if it is the same as the last
    one kept. *)
Fixpoint dedup_from {A : Type} (same : A → A → bool) (last : A) (l : list A) : list A :=
  match l with
  | [] => []
  | a :: l => if same a last then dedup_from same last l else a :: dedup_from same a l
  end.
Definition dedup_by {A : Type} (same : A → A → bool) (l : list A) : list A :=
  match l with [] => [] | a :: l => a :: dedup_from same a l end.

Definition same_key (a b : Pubkey * Z) : bool := bool_decide (a.1 = b.1).
Definition same_row (a b : Pubkey * Z) : bool := bool_decide (a = b).

(** ** process_filter_list.rs *)
Definition process_filter_list (community_list : list CsvEntry) (amount : Z) : list (Pubkey * Z) :=
  dedup_by same_key (sort_unstable (read_rows (map (λ node, (ce_pubkey node, amount)) community_list))).

(** ** process_filter_and_merge.rs *)
Definition process_filter_and_merge (community_list : list CsvEntry) (new_records : list string)
    (amount : Z) : list (Pubkey * Z) :=
  dedup_by same_key (sort_unstable
    (read_rows (map (λ node, (ce_pubkey node, 200)) community_list ++
                map (λ node, (node, amount)) new_records ++
                map (λ node, (node, amount)) get_pre_list))).

(** ** process_extend_list.rs, process_create_dummy_csv.rs *)

(** [Vec::insert], which panics past the end. *)
Definition vec_insert {A : Type} (index : nat) (x : A) (l : list A) : result cli_failure (list A) :=
  if (index <=? length l)%nat then Ok (take index l ++ x :: drop index l) else Err CliPanic.

(** [for (i, address) in pre_list.iter().enumerate()]. *)
Definition merge_pre_list {A : Type} (num_node : nat) (pre_list full_list : list A)
  : result cli_failure (list A) :=
  try_fold (λ l '(i, address), vec_insert (num_node * i) address l) full_list
    (zip (seq 0 (length pre_list)) pre_list).

Definition extend_pre_list (community_list : list CsvEntry) (amount : Z) : list (Pubkey * Z) :=
  dedup_by same_row (sort_unstable
    (read_rows (map (λ node, (ce_pubkey node, ce_amount node)) community_list ++
                map (λ node, (node, amount)) get_pre_list))).

(** [full_list] is empty when its length is subtracted from [num_records]. *)
Definition process_extend_list (community_list : list CsvEntry) (num_records : nat) (amount : Z)
  : result cli_failure (list (Pubkey * Z)) :=
  let pre_list := extend_pre_list community_list amount in
  let full_list := map (λ i, (new_unique i, amount)) (seq 0 num_records) in
  _ ← require (0 <? length pre_list)%nat CliPanic;
  merge_pre_list (num_records / length pre_list) pre_list full_list.

Context `{unique_text : nat → string}.

Definition process_create_dummy_csv (num_records : nat) (amount : Z)
  : result cli_failure (list (string * Z)) :=
  let pre_list := get_pre_list in
  _ ← require (length pre_list <=? num_records)%nat CliPanic;
  full_list ← merge_pre_list (num_records / length pre_list) pre_list
                (map unique_text (seq 0 (num_records - length pre_list)));
  Ok (map (λ address, (address, amount)) full_list).
End lists.

(** ** Sorted lists without duplicates *)
#[global] Instance row_le_total : Total row_le.
Proof.
  intros [a x] [b y]. unfold row_le, row_leb. simpl.
  destruct (decide (a = b)) as [-> |Hne].
  - rewrite bool_decide_eq_true_2 by done. destruct (Z.leb_spec x y); [by left|]. right.
    apply Z.leb_le. lia.
  - rewrite !bool_decide_eq_false_2 by congruence. destruct (b32_leb a b) eqn:Hab; [by left|].
    right. by apply b32_leb_total.
Qed.
#[global] Instance row_le_trans : Transitive row_le.
Proof.
  intros [a x] [b y] [c z]. unfold row_le, row_leb. simpl.
  repeat case_bool_decide; subst; try done; rewrite ?Z.leb_le; try lia.
  - intros Hab Hba. pose proof (b32_leb_antisym _ _ Hab Hba). done.
  - apply bytes_leb_trans.
Qed.

(** The least amount listed with a key. *)
Definition least_amount (rows : list (Pubkey * Z)) (row : Pubkey * Z) : Prop :=
  row ∈ rows ∧ ∀ v, (row.1, v) ∈ rows → row.2 ≤ v.

Section dedup.
Implicit Types (rows : list (Pubkey * Z)) (last row : Pubkey * Z).

(** In a sorted list the rows of a key are adjacent. *)
Lemma sorted_key_adjacent last a rows row :
  StronglySorted row_le (last :: a :: rows) → last.1 ≠ a.1 → row ∈ a :: rows → row.1 ≠ last.1.
Proof.
  intros [Hs Hlast]%StronglySorted_inv Hne Hin Heq. apply Hne.
  apply Forall_cons in Hlast as [Hla _]. apply StronglySorted_inv in Hs as [_ Ha].
  apply elem_of_cons in Hin as [-> |Hin]; [done|].
  pose proof (proj1 (Forall_forall _ _) Ha row Hin) as Har. unfold row_le, row_leb in *.
  rewrite bool_decide_eq_false_2 in Hla by done. rewrite bool_decide_eq_false_2 in Har by congruence.
  rewrite Heq in Har. by apply b32_leb_antisym.
Qed.

Lemma row_le_same_key a b : row_le a b → a.1 = b.1 → a.2 ≤ b.2.
Proof. unfold row_le, row_leb. intros Hab Heq. rewrite bool_decide_eq_true_2 in Hab by done. lia. Qed.

Lemma dedup_from_cons last a rows :
  dedup_from same_key last (a :: rows) =
  if bool_decide (a.1 = last.1) then dedup_from same_key last rows else a :: dedup_from same_key a rows.
Proof. done. Qed.

(** What is kept after [last] of a sorted list: each other key once, with its
    least amount, in order. *)
Lemma dedup_from_spec last rows :
  StronglySorted row_le (last :: rows) →
  StronglySorted row_le (last :: dedup_from same_key last rows) ∧
  NoDup (map fst (last :: dedup_from same_key last rows)) ∧
  (∀ k, k ∈ map fst (last :: dedup_from same_key last rows) ↔ k ∈ map fst (last :: rows)) ∧
  ∀ row, row ∈ last :: dedup_from same_key last rows → least_amount (last :: rows) row.
Proof.
  revert last. induction rows as [|a rows IH]; intros last Hs.
  { simpl. split_and!; [done|apply NoDup_singleton|done|].
    intros row ->%list_elem_of_singleton. split; [set_solver|].
    intros v Hv%list_elem_of_singleton. by inversion Hv. }
  rewrite dedup_from_cons. case_bool_decide as Hk.
  - assert (StronglySorted row_le (last :: rows)) as Hs'.
    { apply StronglySorted_inv in Hs as [[Hr _]%StronglySorted_inv [_ Hl]%Forall_cons]. by constructor. }
    destruct (IH last Hs') as (Hsort & Hnd & Hkeys & Hleast). split_and!; [done|done| |].
    + intros k. rewrite Hkeys. simpl. rewrite Hk. set_solver.
    + intros row [Hin Hle]%Hleast. split; [set_solver|]. intros v Hv.
      apply elem_of_cons in Hv as [Hv|[Hv|Hv]%elem_of_cons]; [apply Hle; set_solver| |apply Hle; set_solver].
      apply StronglySorted_inv in Hs as [_ [Hla _]%Forall_cons].
      pose proof (row_le_same_key _ _ Hla (eq_sym Hk)). subst a. simpl in *.
      assert (row.2 ≤ last.2); [|lia]. apply Hle. rewrite Hk. by destruct last; left.
  - assert (last.1 ≠ a.1) as Hne by congruence.
    destruct (IH a) as (Hsort & Hnd & Hkeys & Hleast); [by apply StronglySorted_inv in Hs as [? _]|].
    assert (∀ row, row ∈ a :: rows → row.1 ≠ last.1) as Hdiff
      by (intros row; by apply sorted_key_adjacent).
    split_and!.
    + constructor; [done|]. apply Forall_forall. intros row [Hin _]%Hleast.
      apply StronglySorted_inv in Hs as [_ Hl]. by eapply Forall_forall in Hl.
    + cbn [map fst]. apply NoDup_cons. split; [|done]. change (last.1 ∉ map fst (a :: dedup_from same_key a rows)).
      rewrite Hkeys. intros (row & Heq & Hin)%list_elem_of_fmap. by apply (Hdiff row).
    + intros k. change (k ∈ last.1 :: map fst (a :: dedup_from same_key a rows) ↔ k ∈ last.1 :: map fst (a :: rows)).
      rewrite !elem_of_cons, Hkeys. done.
    + intros row [-> |Hrow]%elem_of_cons.
      * split; [set_solver|]. intros v [Hv|Hv]%elem_of_cons; [by rewrite <- Hv|].
        by destruct (Hdiff _ Hv).
      * destruct (Hleast row Hrow) as [Hin Hle]. split; [set_solver|].
        intros v [Hv|Hv]%elem_of_cons; [|by apply Hle].
        destruct (Hdiff row Hin). by rewrite <- Hv.
Qed.

(** A deduplicated sorted list. *)
Record canonical rows result : Prop := {
  ca_sorted : StronglySorted row_le result;
  ca_unique : NoDup (map fst result);
  ca_keys k : k ∈ map fst result ↔ k ∈ map fst rows;
  ca_least row : row ∈ result → least_amount rows row
}.

Lemma least_amount_perm rows rows' row : rows ≡ₚ rows' → least_amount rows row → least_amount rows' row.
Proof. intros Hp [Hin Hle]. split; [by rewrite <- Hp|]. intros v Hv. apply Hle. by rewrite Hp. Qed.

Lemma sort_dedup_canonical rows : canonical rows (dedup_by same_key (sort_unstable rows)).
Proof.
  pose proof (merge_sort_Permutation row_le rows) as Hp. fold (sort_unstable rows) in Hp.
  pose proof (StronglySorted_merge_sort row_le rows) as Hs. fold (sort_unstable rows) in Hs.
  destruct (sort_unstable rows) as [|a l].
  - apply Permutation_nil_l in Hp as <-. split; [constructor|constructor|done|set_solver].
  - destruct (dedup_from_spec a l Hs) as (H1 & H2 & H3 & H4). split; simpl; [done|done| |].
    + intros k. rewrite H3. by rewrite <- Hp.
    + intros row Hrow. eapply least_amount_perm; [exact Hp|by apply H4].
Qed.
End dedup.

(** ** Spreading the list over the records *)
Section spread.
Context {A : Type}.
Implicit Types (pre full l : list A).

Lemma vec_insert_Ok i (x : A) l :
  (i ≤ length l)%nat → ∃ l', vec_insert i x l = Ok l' ∧ l' ≡ₚ x :: l.
Proof.
  intros Hi. unfold vec_insert. rewrite (proj2 (Nat.leb_le _ _) Hi). eexists. split; [done|].
  rewrite <- Permutation_middle. by rewrite take_drop.
Qed.

Lemma merge_from_Ok num_node pre full j :
  (∀ i, (i < length pre)%nat → (num_node * (j + i) ≤ length full + i)%nat) →
  ∃ l, try_fold (λ l '(i, address), vec_insert (num_node * i) address l) full
         (zip (seq j (length pre)) pre) = Ok l ∧ l ≡ₚ pre ++ full.
Proof.
  revert full j. induction pre as [|x pre IH]; intros full j Hi; simpl; [by eauto|].
  destruct (vec_insert_Ok (num_node * j) x full) as (l' & -> & Hl').
  { specialize (Hi 0%nat). simpl in Hi. rewrite Nat.add_0_r in Hi. lia. }
  cbn [mbind result_bind]. destruct (IH l' (S j)) as (l & -> & Hl).
  - intros i Hlt. specialize (Hi (S i)). simpl in Hi. rewrite (Permutation_length Hl'). simpl.
    replace (S j + i)%nat with (j + S i)%nat by lia. lia.
  - exists l. split; [done|]. rewrite Hl, Hl'. by rewrite <- Permutation_middle.
Qed.

Lemma merge_pre_list_Ok num_node pre full :
  (∀ i, (i < length pre)%nat → (num_node * i ≤ length full + i)%nat) →
  ∃ l, merge_pre_list num_node pre full = Ok l ∧ l ≡ₚ pre ++ full.
Proof. intros Hi. apply (merge_from_Ok num_node pre full 0). exact Hi. Qed.
End spread.

(** The insertion points of both tools are within the list. *)
Lemma spread_extend n p i : (i < p)%nat → (n / p * i ≤ n + i)%nat.
Proof. intros Hi. pose proof (Nat.Div0.mul_div_le n p). nia. Qed.

Lemma spread_dummy n p i : (i < p)%nat → (p ≤ n)%nat → (n / p * i ≤ n - p + i)%nat.
Proof.
  intros Hi Hp. pose proof (Nat.Div0.mul_div_le n p).
  assert (1 ≤ n / p)%nat by (apply Nat.div_le_lower_bound; lia). nia.
Qed.

Section list_theorems.
Context `{PubkeyParser} (new_unique : nat → Pubkey) (unique_text : nat → string).

(** The list tools write what they promise.  Filtering keeps every readable
    key exactly once, in the order of the keys; merging does the same over the
    three sources and gives a key that is listed several times the least of its
    amounts; extending a list never panics on a non-empty list and yields the
    given rows plus [num_records] fresh ones (so more than [num_records]);
    a dummy CSV has exactly [num_records] rows with the built-in keys among them
    and panics exactly below their number. *)
Theorem list_tools_are_exact community sub amount n :
  canonical (read_rows (map (λ e, (ce_pubkey e, amount)) community))
    (process_filter_list community amount) ∧
  canonical (read_rows (map (λ e, (ce_pubkey e, 200)) community ++
                        map (λ t, (t, amount)) sub ++ map (λ t, (t, amount)) get_pre_list))
    (process_filter_and_merge community sub amount) ∧
  match process_extend_list new_unique community n amount with
  | Ok l => l ≡ₚ extend_pre_list community amount ++ map (λ i, (new_unique i, amount)) (seq 0 n) ∧
            (n < length l)%nat
  | Err e => e = CliPanic ∧ extend_pre_list community amount = []
  end ∧
  match process_create_dummy_csv (unique_text:=unique_text) n amount with
  | Ok l => (13 ≤ n)%nat ∧ length l = n ∧ ∀ t, t ∈ get_pre_list → (t, amount) ∈ l
  | Err e => e = CliPanic ∧ (n < 13)%nat
  end.
Proof.
  split_and!; [apply sort_dedup_canonical|apply sort_dedup_canonical| |].
  - unfold process_extend_list. set (pre := extend_pre_list community amount).
    destruct (Nat.ltb_spec 0 (length pre)) as [Hlt|Hge]; cbn [require mbind result_bind].
    + set (full := map _ _). assert (length full = n) as Hf by (unfold full; by rewrite length_map, length_seq).
      destruct (merge_pre_list_Ok (n / length pre) pre full) as (l & -> & Hl).
      { intros i Hi. rewrite Hf. by apply spread_extend. }
      split; [done|]. rewrite (Permutation_length Hl), length_app. lia.
    + split; [done|]. apply nil_length_inv. lia.
  - unfold process_create_dummy_csv. change (length get_pre_list) with 13%nat.
    destruct (Nat.leb_spec 13 n) as [Hle|Hgt]; cbn [require mbind result_bind]; [|done].
    set (full := map _ _).
    assert (length full = (n - 13)%nat) as Hf by (unfold full; by rewrite length_map, length_seq).
    destruct (merge_pre_list_Ok (n / 13) get_pre_list full) as (l & -> & Hl).
    { intros i Hi. rewrite Hf. by apply spread_dummy. }
    cbn [mbind result_bind]. split_and!; [done| |].
    + rewrite length_map, (Permutation_length Hl), length_app, Hf. change (length get_pre_list) with 13%nat. lia.
    + intros t Ht. apply list_elem_of_fmap. exists t. split; [done|]. rewrite Hl. set_solver.
Qed.
End list_theorems.

(** ** An example: a key is read as the length of its text *)
#[local] Instance text_length : PubkeyParser := λ s,
  if decide (s = "not-a-key"%string) then None else Some (key (Z.of_nat (String.length s))).

Example filter_example :
  process_filter_list [mkCsvEntry "bb" 5 None; mkCsvEntry "a" 6 None; mkCsvEntry "not-a-key" 1 None;
                       mkCsvEntry "cc" 7 None]%string 9 = [(key 1, 9); (key 2, 9)].
Proof. vm_compute. reflexivity. Qed.
