(* ===== verification/BadDebt.v ===== *)
(** * A program that claims for itself
    (src/cpi-example/programs/bad-debt-example/src/lib.rs)

    The example of a program whose PDA is an entry of the tree: [claim_dfx] calls
    the distributor's [new_claim] signed by the PDA, [withdraw] lets the
    configured admin move the tokens out.  The pre-funding of rent in [claim_dfx]
    moves lamports only, which are not part of the ledger here. *)
From S2P Require Import Prelude Machine Hashing TreeNode ProgramError ClaimStatus Solana Token.
From S2P Require Import State Handlers Program Execution Scenario Safety.

Record Config := mkConfig { cf_admin : Pubkey; cf_bump : Z }.

(** The program's own accounts beside the ledger. *)
Record BadDebtState := mkBadDebtState {
  bd_accounts : gmap Pubkey Config;
  bd_ledger : State
}.

(** [ErrorCode::Unauthorized], or an error of Anchor or of a called program. *)
Inductive BadDebtError := BdUnauthorized | BdErr (e : ProgramError).

(** [?] on a call. *)
Definition call {A : Type} (r : fallible A) : result BadDebtError A :=
  match r with Ok a => Ok a | Err e => Err (BdErr e) end.

Section bad_debt.
Context `{Hasher} `{AddressDerivation} `{TokenProgram}.
Implicit Types (s : BadDebtState) (signers : gset Pubkey).

Definition BAD_DEBT_ID : Pubkey := pubkey "3jFBjgMyNBTJwpELbmn6wyYJXDBZgRMYXcQMBywC9keV".
Definition CONFIG_SEED : list byte := bytes_of_string "config".
Definition BAD_DEBT_SEED : list byte := bytes_of_string "bad_debt".

Definition config_address : Pubkey := (find_program_address [CONFIG_SEED] BAD_DEBT_ID).1.
Definition config_bump : Z := (find_program_address [CONFIG_SEED] BAD_DEBT_ID).2.
Definition authority_address : Pubkey := (find_program_address [BAD_DEBT_SEED] BAD_DEBT_ID).1.
Definition authority_bump : Z := (find_program_address [BAD_DEBT_SEED] BAD_DEBT_ID).2.

(** The runtime accepts the PDA as a signer of a CPI. *)
Definition authority_signs (bad_debt_authority : Pubkey) : fallible unit :=
  require (bool_decide (create_program_address [BAD_DEBT_SEED; [byte_of_Z authority_bump]] BAD_DEBT_ID
                        = Some bad_debt_authority)) PrivilegeEscalation.

(** ** initialize *)
Record Initialize := mkInitialize { in_config : Pubkey; in_admin : Pubkey }.

Definition initialize signers s (a : Initialize) : result BadDebtError BadDebtState :=
  _ ← call (check_signer signers (in_admin a));
  _ ← call (check_eq (in_config a) config_address (Anchor ConstraintSeeds));
  _ ← call (require (bool_decide (bd_accounts s !! in_config a = None)) (Anchor AccountAlreadyInUse));
  Ok (mkBadDebtState (<[in_config a := mkConfig (in_admin a) config_bump]> (bd_accounts s)) (bd_ledger s)).

(** ** claim_dfx *)
Record ClaimDfx := mkClaimDfx {
  cx_payer : Pubkey;
  cx_distributor : Pubkey;
  cx_claim_status : Pubkey;
  cx_from : Pubkey;
  cx_to : Pubkey;
  cx_bad_debt_authority : Pubkey
}.

Definition ClaimDfx_try_accounts signers s (a : ClaimDfx) : fallible unit :=
  _ ← check_signer signers (cx_payer a);
  distributor ← load_distributor (bd_ledger s) (cx_distributor a);
  _ ← load_token (bd_ledger s) (cx_from a);
  to ← load_token (bd_ledger s) (cx_to a);
  _ ← check_eq (cx_from a) (md_token_vault distributor) (Anchor ConstraintAddress);
  _ ← check_eq (ta_mint to) (md_mint distributor) (Anchor ConstraintTokenMint);
  _ ← check_eq (ta_owner to) (cx_bad_debt_authority a) (Anchor ConstraintTokenOwner);
  check_eq (cx_bad_debt_authority a) authority_address (Anchor ConstraintSeeds).

Definition claim_dfx signers s (a : ClaimDfx) (amount : Z) (proof : list Hash)
  : result BadDebtError BadDebtState :=
  _ ← call (ClaimDfx_try_accounts signers s a);
  _ ← call (authority_signs (cx_bad_debt_authority a));
  st ← call (process_instruction (signers ∪ {[ cx_bad_debt_authority a ]}) (bd_ledger s)
               (INewClaim (mkNewClaim (cx_distributor a) (cx_claim_status a) (cx_from a) (cx_to a)
                             (cx_bad_debt_authority a)) amount 0 proof));
  Ok (mkBadDebtState (bd_accounts s) st).

(** ** withdraw *)
Record Withdraw := mkWithdraw {
  wd_config : Pubkey;
  wd_admin : Pubkey;
  wd_bad_debt_authority : Pubkey;
  wd_from : Pubkey;
  wd_destination : Pubkey
}.

(** Returns the balance of [from]. *)
Definition Withdraw_try_accounts signers s (a : Withdraw) : result BadDebtError Z :=
  config ← call (ok_or (bd_accounts s !! wd_config a) (Anchor AccountNotInitialized));
  _ ← call (check_signer signers (wd_admin a));
  from ← call (load_token (bd_ledger s) (wd_from a));
  destination ← call (load_token (bd_ledger s) (wd_destination a));
  _ ← call (require (bool_decide (create_program_address [CONFIG_SEED; [byte_of_Z (cf_bump config)]]
                                    BAD_DEBT_ID = Some (wd_config a))) (Anchor ConstraintSeeds));
  _ ← require (bool_decide (cf_admin config = wd_admin a)) BdUnauthorized;
  _ ← call (check_eq (wd_bad_debt_authority a) authority_address (Anchor ConstraintSeeds));
  _ ← call (check_eq (ta_owner from) (wd_bad_debt_authority a) (Anchor ConstraintTokenOwner));
  _ ← call (check_eq (ta_mint destination) (ta_mint from) (Anchor ConstraintTokenMint));
  Ok (ta_amount from).

Definition withdraw signers s (a : Withdraw) (amount : Z) : result BadDebtError BadDebtState :=
  balance ← Withdraw_try_accounts signers s a;
  let amount := if amount =? U64_MAX then balance else amount in
  _ ← call (authority_signs (wd_bad_debt_authority a));
  ts ← call (ok_or (token_transfer (st_tokens (bd_ledger s)) (wd_from a) (wd_destination a)
                      (wd_bad_debt_authority a) amount) TokenProgramError);
  Ok (mkBadDebtState (bd_accounts s) (set_tokens ts (bd_ledger s))).

Inductive BadDebtIx :=
| BdInitialize (a : Initialize)
| BdClaimDfx (a : ClaimDfx) (amount : Z) (proof : list Hash)
| BdWithdraw (a : Withdraw) (amount : Z).

Definition bad_debt_process signers s (ix : BadDebtIx) : result BadDebtError BadDebtState :=
  match ix with
  | BdInitialize a => initialize signers s a
  | BdClaimDfx a amount proof => claim_dfx signers s a amount proof
  | BdWithdraw a amount => withdraw signers s a amount
  end.

(** ** Properties *)
Context `{!AddressDerivationSpec} `{!TokenProgramSpec}.

Lemma call_Ok {A : Type} (r : fallible A) a : call r = Ok a → r = Ok a.
Proof. destruct r; naive_solver. Qed.

Ltac inv_call :=
  repeat (inv_ok; match goal with
  | Hc : call _ = Ok _ |- _ => apply call_Ok in Hc
  | Hc : check_eq _ _ _ = Ok _ |- _ => apply check_eq_Ok in Hc
  | Hc : check_signer _ _ = Ok _ |- _ => apply check_signer_Ok in Hc
  end); inv_ok.

(** An account of the PDA that nobody else may spend from. *)
Definition pda_account s (p : Pubkey) (acc : TokenAccount) : Prop :=
  tk_accounts (st_tokens (bd_ledger s)) !! p = Some acc ∧
  ta_owner acc = authority_address ∧ ta_delegate acc = None.

(** The PDA is not itself a distributor's address. *)
Definition authority_free s : Prop :=
  ∀ d, st_accounts (bd_ledger s) !! authority_address ≠ Some (DistributorAcc d).

Lemma authority_seeds_valid : authority_signs authority_address = Ok tt.
Proof.
  unfold authority_signs. apply require_Ok, bool_decide_eq_true.
  apply (find_program_address_create [BAD_DEBT_SEED]). unfold authority_address, authority_bump.
  by destruct (find_program_address [BAD_DEBT_SEED] BAD_DEBT_ID).
Qed.

(** What [withdraw] checks and does. *)
Lemma withdraw_Ok signers s a amount s' :
  withdraw signers s a amount = Ok s' →
  ∃ config from ts, bd_accounts s !! wd_config a = Some config ∧ cf_admin config = wd_admin a ∧
    wd_admin a ∈ signers ∧ tk_accounts (st_tokens (bd_ledger s)) !! wd_from a = Some from ∧
    ta_owner from = authority_address ∧
    token_transfer (st_tokens (bd_ledger s)) (wd_from a) (wd_destination a) authority_address
      (if amount =? U64_MAX then ta_amount from else amount) = Some ts ∧
    s' = mkBadDebtState (bd_accounts s) (set_tokens ts (bd_ledger s)).
Proof.
  unfold withdraw, Withdraw_try_accounts. intros Hw. inv_call.
  repeat match goal with
  | Hl : load_token _ _ = Ok _ |- _ => apply ok_or_Ok in Hl
  end.
  match goal with He : wd_bad_debt_authority a = _ |- _ => rewrite He in * end.
  do 3 eexists. split_and!; try done; congruence.
Qed.

(** What [claim_dfx] checks and does. *)
Lemma claim_dfx_Ok signers s a amount proof s' :
  accounts_typed (bd_ledger s) → is_u64 amount → claim_dfx signers s a amount proof = Ok s' →
  ∃ d vault dest ts,
    let na := mkNewClaim (cx_distributor a) (cx_claim_status a) (cx_from a) (cx_to a) authority_address in
    new_claim_accepts (signers ∪ {[ authority_address ]}) (bd_ledger s) na amount 0 proof d vault dest ts ∧
    s' = mkBadDebtState (bd_accounts s) (new_claim_result (bd_ledger s) na amount 0 d ts).
Proof.
  unfold claim_dfx, ClaimDfx_try_accounts. intros Hty Hu Hc. inv_call.
  match goal with He : cx_bad_debt_authority a = _ |- _ => rewrite He in * end.
  match goal with Hp : handle_new_claim _ _ _ _ _ _ = Ok _ |- _ =>
    apply handle_new_claim_Ok in Hp as (d & vault & dest & ts & Hacc & ->);
      [|by apply accounts_typed_window|done] end.
  by exists d, vault, dest, ts.
Qed.

Definition bad_debt_ix_typed (ix : BadDebtIx) : Prop :=
  match ix with
  | BdInitialize _ => True
  | BdClaimDfx _ amount _ | BdWithdraw _ amount => is_u64 amount
  end.

(** [p] lost exactly what the configured admin withdrew. *)
Definition withdrawn_by_admin signers s (ix : BadDebtIx) (p : Pubkey) (acc acc' : TokenAccount) : Prop :=
  ∃ a amount config, ix = BdWithdraw a amount ∧ wd_from a = p ∧
    bd_accounts s !! wd_config a = Some config ∧ cf_admin config ∈ signers ∧
    ta_amount acc' = ta_amount acc - (if amount =? U64_MAX then ta_amount acc else amount).

Lemma withdraw_moves signers s a amount s' p acc :
  state_ok (bd_ledger s) → is_u64 amount → pda_account s p acc → withdraw signers s a amount = Ok s' →
  ∃ acc', tk_accounts (st_tokens (bd_ledger s')) !! p = Some acc' ∧ ta_owner acc' = authority_address ∧
    (ta_amount acc ≤ ta_amount acc' ∨ withdrawn_by_admin signers s (BdWithdraw a amount) p acc acc').
Proof.
  intros Hok Hu (Hp & Ho & _) Hw.
  apply withdraw_Ok in Hw as (config & from & ts & Hcfg & Hadm & Hsig & Hfrom & _ & Ht & ->).
  destruct (decide (p = wd_from a)) as [-> |Hne].
  - assert (from = acc) as -> by congruence.
    destruct (decide (wd_from a = wd_destination a)) as [Heq|Hne].
    + destruct (token_transfer_effect _ _ _ _ _ _ Ht) as (x & y & _ & _ & _ & _ & _ & _ & Hc).
      rewrite bool_decide_eq_true_2 in Hc by done. exists acc. simpl. rewrite Hc. auto with lia.
    + destruct (token_transfer_from _ _ _ _ _ _ Ht Hne) as (x & x' & y & Hx & Hx' & Hd & _).
      assert (x = acc) as -> by congruence. apply debited_fields in Hd as (_ & Ho' & Ha & _).
      exists x'. split_and!; [done|congruence|]. right.
      exists a, amount, config. split_and!; try done. by rewrite Hadm.
  - assert (0 ≤ (if amount =? U64_MAX then ta_amount from else amount)) as Hpos
      by (pose proof (ok_tokens _ Hok _ _ Hfrom); case_match; [lia|zlia]).
    destruct (token_transfer_lookup _ _ _ _ _ _ p acc Hpos Ht Hp Hne)
      as (acc' & Hl & (_ & Ho' & _ & Hle) & _).
    exists acc'. split_and!; [done|congruence|by left].
Qed.

(** C38. The example program keeps its tokens: whatever instruction of it anybody
    sends, a token account of its PDA keeps its owner and loses tokens only in a
    [withdraw] signed by the admin of its configuration, exactly the requested
    amount or the whole balance for [u64::MAX]; and a configuration, once made,
    never changes, so the admin stays the same. *)
Theorem bad_debt_funds_move_only_for_the_admin signers s ix s' p acc :
  state_ok (bd_ledger s) → authority_free s → bad_debt_ix_typed ix → pda_account s p acc →
  bad_debt_process signers s ix = Ok s' →
  (∃ acc', tk_accounts (st_tokens (bd_ledger s')) !! p = Some acc' ∧ ta_owner acc' = authority_address ∧
     (ta_amount acc ≤ ta_amount acc' ∨ withdrawn_by_admin signers s ix p acc acc')) ∧
  ∀ k config, bd_accounts s !! k = Some config → bd_accounts s' !! k = Some config.
Proof.
  intros Hok Hfree Hty Hpda Hp. destruct ix as [a|a amount proof|a amount]; simpl in *.
  - unfold initialize in Hp. inv_call. destruct Hpda as (Hp' & Ho & _). split; simpl.
    + exists acc. auto with lia.
    + intros k config Hk. rewrite lookup_insert_ne; [done|]. congruence.
  - apply claim_dfx_Ok in Hp as (d & vault & dest & ts & Hacc & ->); [|by apply state_ok_typed|done].
    split; [|done]. destruct Hpda as (Hp' & Ho & Hdel).
    assert (cx_distributor a ≠ authority_address) as Hne.
    { intros Heq. pose proof (nca_distributor _ _ _ _ _ _ _ _ _ _ Hacc) as Hd. simpl in Hd.
      rewrite Heq in Hd. by eapply Hfree. }
    pose proof (nca_transfer _ _ _ _ _ _ _ _ _ _ Hacc) as Ht. simpl in Ht.
    pose proof (vested_nonneg amount (curr_ts (bd_ledger s)) (md_start_ts d) (md_end_ts d)
      ltac:(zlia)) as Hpos.
    assert (¬ may_spend acc (cx_distributor a)) as Hns by (intros [?|?]; congruence).
    destruct (token_transfer_kept _ _ _ _ _ _ p acc (proj1 Hpos) Ht Hp' Hns) as (acc' & Hl & (_ & Ho' & _ & Hle)).
    exists acc'. split_and!; [done|congruence|by left].
  - split; [by eapply withdraw_moves|].
    apply withdraw_Ok in Hp as (config & from & ts & _ & _ & _ & _ & _ & _ & ->). done.
Qed.
End bad_debt.

(** ** Witness: the admin withdraws everything *)
Definition bx_account : TokenAccount := mkTokenAccount sc_mint_key authority_address 100 None false.
Definition bx_tokens : TokenState :=
  mkTokenState
    (list_to_map [(key 40, bx_account); (key 41, mkTokenAccount sc_mint_key sc_alice 1 None false)])
    {[ sc_mint_key := 1000 ]}.
Definition bx_state : BadDebtState :=
  mkBadDebtState {[ config_address := mkConfig sc_alice config_bump ]}
    (mkState ∅ bx_tokens (mkClock 50 1000) []).
Definition bx_withdraw : BadDebtIx :=
  BdWithdraw (mkWithdraw config_address sc_alice authority_address (key 40) (key 41)) U64_MAX.
Definition bx_run : result BadDebtError BadDebtState := bad_debt_process {[ sc_alice ]} bx_state bx_withdraw.
Definition bx_after : BadDebtState := match bx_run with Ok s => s | Err _ => bx_state end.

Lemma bx_run_ok : bad_debt_process {[ sc_alice ]} bx_state bx_withdraw = Ok bx_after.
Proof.
  assert (is_ok bx_run = true) as Hok by (vm_compute; reflexivity).
  fold bx_run. unfold bx_after. destruct bx_run; [reflexivity|discriminate Hok].
Qed.

Lemma bx_state_ok : state_ok (bd_ledger bx_state).
Proof.
  split; [vm_compute; intuition congruence|vm_compute; intuition congruence| |done|done].
  assert (map_Forall (λ _ a, 0 ≤ ta_amount a) (tk_accounts bx_tokens)) as Hf.
  { apply (bool_decide_unpack _). vm_compute. exact I. }
  exact Hf.
Qed.

Lemma bx_pda : pda_account bx_state (key 40) bx_account.
Proof. split; [apply lookup_insert_eq|done]. Qed.

(** Nobody but the admin gets in, and the PDA's account is empty afterwards. *)
Example bx_outcome :
  bad_debt_process {[ sc_bob ]} bx_state
    (BdWithdraw (mkWithdraw config_address sc_bob authority_address (key 40) (key 41)) 5)
    = Err BdUnauthorized ∧
  balance (bd_ledger bx_after) (key 40) = Some 0 ∧ balance (bd_ledger bx_after) (key 41) = Some 101.
Proof. vm_compute. repeat split. Qed.

Lemma bx_free : authority_free bx_state.
Proof. intros d. unfold bx_state. cbn [bd_ledger st_accounts]. rewrite lookup_empty. discriminate. Qed.
Lemma bx_typed : bad_debt_ix_typed bx_withdraw.
Proof. cbn [bad_debt_ix_typed bx_withdraw]. zlia. Qed.

Lemma bad_debt_funds_move_only_for_the_admin_witness :
  ∃ acc', tk_accounts (st_tokens (bd_ledger bx_after)) !! key 40 = Some acc' ∧
    ta_owner acc' = authority_address ∧
    (ta_amount bx_account ≤ ta_amount acc' ∨
     withdrawn_by_admin {[ sc_alice ]} bx_state bx_withdraw (key 40) bx_account acc').
Proof.
  destruct (bad_debt_funds_move_only_for_the_admin {[ sc_alice ]} bx_state bx_withdraw bx_after
    (key 40) bx_account bx_state_ok bx_free bx_typed bx_pda bx_run_ok) as [Hw _].
  exact Hw.
Defined.
