(* ===== verification/Pipeline.v ===== *)
(** * From the allocation list to the payment, with the tool

    The whole path: rows are made into a tree, the tree is deployed and funded by
    the operator's commands, anything may happen on the ledger, and an entry's
    owner runs the claim command. *)
From S2P Require Import Prelude Machine Hashing Sha256 MerkleTree MerkleProof TreeNode Airdrop.
From S2P Require Import ProgramError ClaimStatus Solana Token State Handlers Program Execution.
From S2P Require Import Scenario Safety NoPanic Ledger EndToEnd Network NetworkTheorems Signatures.
From S2P Require Import Deploy DeployTheorems Funding Commands CommandsTheorems.

Section pipeline.
Context `{Hasher} `{AddressDerivation} `{!AddressDerivationSpec} `{TokenProgram} `{!TokenProgramSpec}.
Context `{AtaProgram} `{!AtaProgramSpec} `{SignatureScheme} `{!SignatureSchemeSpec}.
Implicit Types (st : State) (args : Args) (tree : AirdropMerkleTree) (net : Network).

(** ** The commands as steps of the ledger *)

(** Funding submits transfers of the operator only; whatever becomes of them, and
    while time passes, the ledger moves by steps of its environment. *)
Definition same_program st st' : Prop := st_accounts st' = st_accounts st.
Definition paying_tx args (tx : Transaction) : Prop :=
  tx_payer tx = arg_payer args ∧ Forall paying_ix (tx_ixs tx).
Definition payable args st : Prop := state_ok st ∧ ¬ is_distributor st (arg_payer args).

Lemma fund_tree_keeps (R : relation State) `{!PreOrder R} (I : State → Prop) (Q : Transaction → Prop) args tree :
  (∀ st st', I st → R st st' → I st') →
  (∀ tx st st', Q tx → I st → execute st tx = Some st' → R st st') →
  (∀ clock st, I st → R st (advance_clock clock st)) →
  (∀ tx, paying_tx args tx → Q tx) → keeps R I Q (fund_tree args tree).
Proof.
  intros HI Hexec Htime HQ. unfold fund_tree.
  apply keeps_bind; [done|by apply keeps_fetch_unwrap|]. intros d.
  destruct (md_clawed_back d); [by apply keeps_ret|].
  apply keeps_bind_value; [done|]. intros target _.
  apply keeps_bind; [done|by apply keeps_fetch_unwrap|]. intros vault.
  destruct (target <=? ta_amount vault); [by apply keeps_ret|].
  apply keeps_bind_value; [done|]. intros amount [-> ?]%expect_Ok%checked_sub_u64_Some.
  apply keeps_bind; [done|by apply keeps_blockhash|]. intros h.
  apply keeps_bind; [done| |intros; by apply keeps_ask]. apply keeps_send; [done..|].
  apply HQ. split; [done|]. repeat constructor. simpl. lia.
Qed.

Section funding_steps.
Context (allowed : Instruction → Prop) (args : Args).
Definition funding_move st st' : Prop := steps allowed st st' ∧ same_program st st'.
#[local] Instance funding_move_preorder : PreOrder funding_move.
Proof.
  split; [by intros st; split|]. intros x y z [H1' H2'] [H3' H4']. split; [unfold steps in *; by etrans|].
  unfold same_program in *. congruence.
Qed.

Lemma funding_move_ok st st' : payable args st → funding_move st st' → payable args st'.
Proof.
  intros [Hok Hnd] [Hs Ha]. split; [by eapply steps_ok|]. intros [d Hd]. apply Hnd. exists d. by rewrite <- Ha.
Qed.
Lemma funding_move_exec tx st st' :
  paying_tx args tx → payable args st → execute st tx = Some st' → funding_move st st'.
Proof. intros [Hp Hix] [Hok Hnd]. apply paying_steps; [done|done|by rewrite Hp]. Qed.
Lemma funding_move_time clock st : payable args st → funding_move st (advance_clock clock st).
Proof. intros _. split; [apply clock_step|]. apply advance_clock_keeps. Qed.

Lemma fund_tree_steps tree net net1 r events :
  payable args (net_ledger net) → quiet net → net_pending net = [] →
  fund_tree args tree net = (net1, r) → Forall quiet_event events →
  steps allowed (net_ledger net) (net_ledger (net_run net1 events)).
Proof.
  intros Hpay Hq Hp Hrun Hev.
  assert (∀ l, Forall quiet_event l → Forall (event_ok funding_move (payable args)) l) as Hsub.
  { intros l Hl. eapply Forall_impl; [exact Hl|]. by intros []. }
  assert (net_ok funding_move (payable args) (paying_tx args) net) as Hok.
  { split; [done|by rewrite Hp|]. eapply Forall_impl; [exact Hq|]. intros t Ht. by apply Hsub. }
  destruct (fund_tree_keeps funding_move (payable args) (paying_tx args) args tree funding_move_ok
    funding_move_exec funding_move_time ltac:(done) net net1 r Hok Hrun) as [[Hs1 _] Hok1].
  destruct (net_run_ok funding_move (payable args) (paying_tx args) funding_move_ok funding_move_exec
    funding_move_time net1 events Hok1 (Hsub _ Hev)) as [[Hs2 _] _].
  unfold steps in *. by etrans.
Qed.
End funding_steps.

(** The ledger the creation transaction runs on is well formed, with the same
    accounts. *)
Lemma create_ata_ok ts ts' wallet mint st :
  state_ok (set_tokens ts st) → create_associated_token_account ts wallet mint = Some ts' →
  state_ok (set_tokens ts' st).
Proof.
  intros Hok Hc. destruct (create_ata_effect _ _ _ _ Hc) as (Hnone & _ & Hts).
  eapply (step_ok any_ix (set_tokens ts st)); [done|]. apply (step_tokens _ (set_tokens ts st)). split.
  - simpl. intros p a Ha _. exists a. split_and!; [|done..].
    rewrite Hts, lookup_insert_ne by congruence. done.
  - intros p a Ha. rewrite Hts in Ha.
    apply lookup_insert_Some in Ha as [[_ <-]|[_ ?]]; [done|by apply (ok_tokens _ Hok p)].
Qed.

Lemma deploy_tree_instruction args da st tree st' :
  state_ok st → st_accounts st !! distributor_of args tree = None →
  deploy_tree args da st tree = Ok st' →
  ∃ st0, state_ok st0 ∧ st_accounts st0 = st_accounts st ∧
    process_instruction {[ arg_payer args ]} st0
      (new_distributor_ix args da tree (source_vault args)) = Ok st'.
Proof.
  intros Hok Hnone (ts1 & ts2 & Hts1 & Hts2 & Hp & _)%deploy_tree_creates; [|done].
  exists (set_tokens ts2 st). split_and!; [|done|exact Hp].
  assert (state_ok (set_tokens ts1 st)) as Hok1.
  { eapply (step_ok any_ix); [exact Hok|]. by eapply ensure_ata_step. }
  case_bool_decide; [by eapply create_ata_ok|by subst ts2].
Qed.

(** ** The path *)
Section path.
Context (operator claimant : Args) (da : DeployArgs) (U : list (Pubkey * Pubkey)).
Context (rows : list TreeNode) (version : Z) (tree : AirdropMerkleTree) (st0 : State).
Context (net1 net2 : Network) (events : list net_event).
Abbreviation st1 := (net_ledger net1).
Abbreviation st2 := (net_ledger (net_run net2 events)).
Abbreviation k := (distributor_of claimant tree).
(** Both use the distributor program and the same mint. *)
Context (Hprogram : arg_program_id claimant = PROGRAM_ID ∧ arg_program_id operator = PROGRAM_ID).
Context (Hmint : arg_mint operator = arg_mint claimant).
(** The tree is built from well-formed rows. *)
Context (Hrows : Forall node_wf rows) (Hlen : Z.of_nat (length rows) ≤ 2 ^ 32 - 1).
Context (Hversion : is_u64 version) (Hbuilt : AirdropMerkleTree_new rows version = Ok tree).
(** The ledger before: well formed, the address and its vault unused, the
    addresses of the claims considered distinct. *)
Context (Hok0 : state_ok st0) (Hdist : addresses_distinct U) (Hin0 : statuses_in U st0).
Context (Hno0 : no_status_for st0 k) (Hfree : st_accounts st0 !! k = None).
Context (Hvault : vault_unfunded operator st0 tree).
Context (Hsource : source_vault operator ≠ vault_address operator tree).
(** The command's options are of their types; the distributor is not closable. *)
Context (Hoptions : is_i64 (da_start_vesting_ts da) ∧ is_i64 (da_end_vesting_ts da) ∧
  is_i64 (da_clawback_start_ts da) ∧ is_u64 (da_enable_slot da)).
Context (Hclosable : da_closable da = false).
(** The operator deploys; nothing of the operator's is in flight, and nobody else
    acts until the funding transfer, which the fund command submits, has landed. *)
Context (Hdeploy : deploy_tree operator da st0 tree = Ok st1).
Context (Hoperator : ¬ is_distributor st1 (arg_payer operator)).
Context (Hquiet : quiet net1) (Hpending : net_pending net1 = []).
Context (Hfund : fund_tree operator tree net1 = (net2, Ok tt)).
Context (Hevents : Forall quiet_event events) (Hsettled : settled net1 (net_run net2 events)).

Lemma same_distributor : distributor_of operator tree = k.
Proof. unfold distributor_of. destruct Hprogram as [-> ->]. by rewrite Hmint. Qed.

Lemma tree_count : airdrop_ok rows version tree → is_u64 (at_max_num_nodes tree).
Proof.
  intros Htree. rewrite (ao_count _ _ _ Htree).
  assert (length (at_tree_nodes tree) ≤ length rows)%nat; [|zlia].
  rewrite <- (length_map tn_claimant (at_tree_nodes tree)), <- (length_map tn_claimant rows).
  apply submseteq_length, NoDup_submseteq; [apply (ao_nodup _ _ _ Htree)|].
  intros c. apply (ao_claimants _ _ _ Htree).
Qed.

Abbreviation creation := (mkNewDistributor (distributor_of operator tree) (source_vault operator)
  (arg_mint operator) (vault_address operator tree) (arg_payer operator)).
Abbreviation parameters := (mkNewDistributorArgs (at_airdrop_version tree) (at_merkle_root tree)
  (at_max_total_claim tree) (at_max_num_nodes tree) (da_start_vesting_ts da) (da_end_vesting_ts da)
  (da_clawback_start_ts da) (da_enable_slot da) (da_closable da)).

Lemma creation_typed : airdrop_ok rows version tree → ix_typed (INewDistributor creation parameters).
Proof.
  intros Htree. pose proof (ao_total _ _ _ Htree) as (_ & _ & ?). pose proof (tree_count Htree).
  pose proof (ao_version _ _ _ Htree). destruct Hoptions as (? & ? & ? & ?).
  simpl. split_and!; try done; congruence.
Qed.

Lemma creation_for_tree : creates_for_tree k tree creation parameters.
Proof. unfold creates_for_tree. by rewrite same_distributor. Qed.

(** C2. The whole path.  Rows are built into a tree, the operator's deploy and fund
    commands return (the distributor is not closable) and the submitted transfer
    lands, nobody else acting until then; then, after any sequence of instructions by anybody on the
    program (short of re-rooting this distributor or exhibiting a hash collision),
    foreign token transactions and time, an entry that has not claimed and whose
    window is open gets its vested amount by running the claim command: nobody
    can have used up its place, its share of the maximum, or the vault.  The
    command then withdraws what has been released of the locked part; if there is
    nothing to withdraw it panics with the claim made, which for an entry without
    locked amount it always does. *)
Theorem rows_to_payment st d n :
  steps (honest_ix U k tree) st2 st → n ∈ at_tree_nodes tree → tn_claimant n = arg_payer claimant →
  st_accounts st !! k = Some (DistributorAcc d) →
  st_accounts st !! claim_status_of claimant tree = None → payer_ready claimant st d (tn_amount n) →
  ∃ st', process_new_claim claimant st tree = Ok st' ∧
    (∃ cs, st_accounts st' !! claim_status_of claimant tree = Some (ClaimStatusAcc cs) ∧
       cs_claimant cs = arg_payer claimant ∧
       cs_unlocked_amount_claimed cs
         = vested (tn_amount n) (curr_ts st) (md_start_ts d) (md_end_ts d)) ∧
    process_claim claimant st tree =
      match process_instruction {[ arg_payer claimant ]} st' (claim_locked_ix claimant tree) with
      | Ok st'' => (st'', Ok tt)
      | Err _ => (st', Err CliPanic)
      end ∧
    (locked_amount_of n = 0 →
       process_claim claimant st tree = (st', Err CliPanic) ∧
       ∀ clock, process_claim claimant (set_clock clock st') tree = (set_clock clock st', Err CliPanic)).
Proof.
  intros Hsteps Hn Hc Hd Hnew Hready.
  pose proof same_distributor as Hk.
  assert (airdrop_ok rows version tree) as Htree.
  { pose proof (AirdropMerkleTree_new_spec rows version Hrows Hlen) as Hs. rewrite Hbuilt in Hs.
    by destruct Hs. }
  pose proof (ao_total _ _ _ Htree) as (_ & _ & Hmax).
  assert (solvent st2 k) as Hsol.
  { rewrite <- Hk. eapply deploy_fund_verify; [by rewrite Hk|done|done|zlia|done..]. }
  destruct (deploy_tree_instruction _ _ _ _ _ Hok0 ltac:(by rewrite Hk) Hdeploy)
    as (stc & Hokc & Hacc & Hp).
  assert (statuses_in U stc) as Hinc by (intros s cs; rewrite Hacc; apply Hin0).
  assert (no_status_for stc k) as Hnoc by (intros s cs; rewrite Hacc; apply Hno0).
  pose proof (creation_typed Htree) as Hty.
  assert (∀ s, steps (honest_ix U k tree) st1 s → state_ok s) as Hoks.
  { intros s Hs. by eapply from_creation; [..|exact creation_for_tree|exact Hp|exact Hs]. }
  assert (steps (honest_ix U k tree) st1 st2) as Hs12.
  { eapply fund_tree_steps; [|done..]. split; [apply Hoks; reflexivity|done]. }
  assert (solvent st k) as Hsolst by (by eapply steps_solvent; [apply Hoks|..]).
  destruct Hsolst as (d' & Hd' & _ & Hcov). assert (d' = d) as -> by congruence.
  destruct Hcov as [Hcb|(vault & Hv & Hdef)]; [by rewrite (pr_open _ _ _ _ Hready) in Hcb|].
  destruct Hprogram as [Hpc _].
  eapply (claim_command_entry claimant U rows version tree {[ arg_payer operator ]} stc st1 creation
    parameters); try done; by etrans.
Qed.
End path.
End pipeline.

(** ** Witness: the scenario's tree, deployed and funded with the tool; Bob claims *)
#[local] Existing Instances reference_ata reference_ata_spec reference_signatures reference_signatures_spec.

Definition px_bob : Args := mkArgs sc_mint_key PROGRAM_ID sc_bob.
Definition px_state1 : State := dx_run (deploy_tree dx_args dx_deploy dx_state0 sc_tree).
(** The transfer lands a little later. *)
Definition px_net1 : Network := mkNetwork px_state1 7 [] [] [] [].
Definition px_net2 : Network := (fund_tree dx_args sc_tree px_net1).1.
Definition px_state2 : State := net_ledger (net_run px_net2 [Land 0]).
Definition px_bob_node : TreeNode := mkTreeNode sc_bob 40 None (Some sc_bob_proof).
Definition px_distributor : MerkleDistributor :=
  match st_accounts px_state2 !! distributor_of px_bob sc_tree with
  | Some (DistributorAcc d) => d
  | _ => sc_distributor_at sc_state3
  end.

Lemma px_deployed : deploy_tree dx_args dx_deploy dx_state0 sc_tree = Ok px_state1.
Proof. apply dx_run_ok. vm_compute. reflexivity. Qed.
Lemma px_funded : fund_tree dx_args sc_tree px_net1 = (px_net2, Ok tt).
Proof.
  assert ((fund_tree dx_args sc_tree px_net1).2 = Ok tt) as <- by (vm_compute; reflexivity).
  apply surjective_pairing.
Qed.
Lemma px_settled : settled px_net1 (net_run px_net2 [Land 0]).
Proof.
  split; [vm_compute; reflexivity|].
  assert (Forall (λ tx, (signature_of tx, true) ∈ net_log (net_run px_net2 [Land 0]))
    (drop (length (net_sent px_net1)) (net_sent (net_run px_net2 [Land 0])))) as Hall
    by (apply (bool_decide_unpack _); vm_compute; exact I).
  exact (proj1 (Forall_forall _ _) Hall).
Qed.

Lemma px_state0_ok : state_ok dx_state0.
Proof.
  split; [vm_compute; intuition congruence|vm_compute; intuition congruence| |done|done].
  assert (map_Forall (λ _ a, 0 ≤ ta_amount a) (tk_accounts (st_tokens dx_state0))) as Hf.
  { apply (bool_decide_unpack _). vm_compute. exact I. }
  exact Hf.
Qed.
Lemma px_no_statuses :
  statuses_in sc_universe dx_state0 ∧ no_status_for dx_state0 (distributor_of px_bob sc_tree).
Proof. split; intros s cs Hs; exfalso; unfold dx_state0 in Hs; cbn [st_accounts] in Hs;
  rewrite lookup_empty in Hs; discriminate Hs. Qed.
Lemma px_fresh : st_accounts dx_state0 !! distributor_of px_bob sc_tree = None.
Proof. apply lookup_empty. Qed.
Lemma px_unfunded : vault_unfunded dx_args dx_state0 sc_tree.
Proof.
  assert (tk_accounts (st_tokens dx_state0) !! vault_address dx_args sc_tree = None) as Hn
    by (vm_compute; reflexivity).
  intros v Hv. exfalso. rewrite Hn in Hv. discriminate Hv.
Qed.
Lemma px_source : source_vault dx_args ≠ vault_address dx_args sc_tree.
Proof. apply (bool_decide_unpack _). vm_compute. exact I. Qed.
Lemma px_options : is_i64 (da_start_vesting_ts dx_deploy) ∧ is_i64 (da_end_vesting_ts dx_deploy) ∧
  is_i64 (da_clawback_start_ts dx_deploy) ∧ is_u64 (da_enable_slot dx_deploy).
Proof. vm_compute. intuition congruence. Qed.
Lemma px_operator : ¬ is_distributor px_state1 (arg_payer dx_args).
Proof.
  assert (∀ k, is_distributor px_state1 k → k ∉ ({[ ADMIN_ID ]} : gset Pubkey)) as Hs
    by (apply sc_signers_ok; vm_compute; reflexivity).
  intros Hd. apply (Hs _ Hd). apply elem_of_singleton. reflexivity.
Qed.
Lemma px_at : st_accounts px_state2 !! distributor_of px_bob sc_tree
  = Some (DistributorAcc px_distributor).
Proof. vm_compute. reflexivity. Qed.
Lemma px_unclaimed : st_accounts px_state2 !! claim_status_of px_bob sc_tree = None.
Proof. vm_compute. reflexivity. Qed.
Lemma px_no_ata : tk_accounts (st_tokens px_state2) !! claimant_ata px_bob = None.
Proof. vm_compute. reflexivity. Qed.
Lemma px_vault : tk_accounts (st_tokens px_state2) !! md_token_vault px_distributor
  = Some (mkTokenAccount sc_mint_key sc_dist 152 None false).
Proof. vm_compute. reflexivity. Qed.
Lemma px_fields : md_clawed_back px_distributor = false ∧ md_enable_slot px_distributor = 10 ∧
  md_start_ts px_distributor = 500 ∧ md_end_ts px_distributor = 2500 ∧
  md_mint px_distributor = sc_mint_key ∧ curr_slot px_state2 = 50 ∧ curr_ts px_state2 = 1000.
Proof. vm_compute. repeat split. Qed.

Lemma reference_ata_creates ts wallet mint :
  tk_accounts ts !! get_associated_token_address wallet mint = None →
  ∃ ts', ensure_ata ts wallet mint = Ok ts'.
Proof.
  intros Hn. unfold ensure_ata, create_associated_token_account, reference_ata. rewrite Hn. eauto.
Qed.

Lemma px_ready : payer_ready px_bob px_state2 px_distributor 40.
Proof.
  destruct px_fields as (? & He & Hs & Hend & Hm & Hslot & Hts).
  split; [done|by rewrite He, Hslot|by rewrite Hs, Hts|by rewrite Hs, Hend|done|..].
  - unfold signers_ok. apply sc_signers_ok. vm_compute. reflexivity.
  - intros vault [Hv _]. pose proof (eq_trans (eq_sym Hv) px_vault) as Hv'. injection Hv' as ->.
    exact (conj (eq_sym Hm) eq_refl).
  - exact (reference_ata_creates _ _ _ px_no_ata).
  - intros dest Hd. exfalso. pose proof (eq_trans (eq_sym Hd) px_no_ata) as He'. discriminate He'.
Qed.

Lemma rows_to_payment_witness :
  ∃ st', process_new_claim px_bob px_state2 sc_tree = Ok st' ∧
    process_claim px_bob px_state2 sc_tree = (st', Err CliPanic).
Proof.
  destruct (rows_to_payment dx_args px_bob dx_deploy sc_universe ex_rows 1 sc_tree dx_state0
    px_net1 px_net2 [Land 0] (conj eq_refl eq_refl) eq_refl ex_rows_wf sc_rows_short
    ltac:(vm_compute; intuition congruence) sc_tree_built px_state0_ok sc_addresses_distinct
    (proj1 px_no_statuses) (proj2 px_no_statuses) px_fresh px_unfunded px_source px_options eq_refl
    px_deployed px_operator ltac:(constructor) eq_refl px_funded ltac:(repeat constructor) px_settled px_state2 px_distributor px_bob_node
    (rtc_refl _ _) sc_bob_entry eq_refl px_at px_unclaimed px_ready)
    as (st' & Hst' & _ & _ & Hlock).
  exists st'. split; [exact Hst'|]. destruct (Hlock eq_refl) as [Hp _]. exact Hp.
Defined.
