(* ===== verification/Tool.v ===== *)
(** * The command-line tool
    (src/cli/src/bin/cli.rs: [Args], [Commands], the options of the commands and
    [main]; the file handling of the commands in src/cli/src/bin/instructions)

    A run of the tool reads and writes a [World], the network and the file system,
    and returns or panics; a panic keeps what was done before it.  The commands
    are the functions of [Deploy], [Commands], [MassSend], [Sharding],
    [Aggregate], [ListTools] and [KvCheck], applied to the files they read and
    one transaction at a time.  A transaction that a command only submits goes
    through the calls of [Network]; one that deployment or a claim waits for is
    executed on the ledger. *)
From S2P Require Import BTree.
From S2P Require Import Prelude Machine Hashing MerkleTree MerkleProof TreeNode Airdrop.
From S2P Require Import ProgramError ClaimStatus Solana Token State Handlers Program Execution Layout.
From S2P Require Import Api Startup Aggregate Sharding Network Deploy KvCheck Files Commands MassSend ListTools.
From stdpp Require Import pretty.
#[local] Open Scope Z_scope.

(** ** Options of the commands *)
Record CloseDistributorArgs := mkCloseDistributorArgs {
  cd_merkle_tree_path : string;
  cd_airdrop_version : option Z
}.
Record SetAdminArgs := mkSetAdminArgs {
  sa_new_admin : Pubkey;
  sa_merkle_tree_path : string
}.
Record SetEnableSlotArgs := mkSetEnableSlotArgs {
  ss_merkle_tree_path : string;
  ss_airdrop_version : option Z;
  ss_slot : Z
}.
Record SetEnableSlotByTimeArgs := mkSetEnableSlotByTimeArgs {
  st_merkle_tree_path : string;
  st_timestamp : Z;
  st_airdrop_version : option Z
}.
Record CreateTestListArgs := mkCreateTestListArgs {
  ct_csv_path : string * string;
  ct_merkle_tree_path : string;
  ct_amount : Z;
  ct_decimals : Z
}.
Record CreateDummyCsv := mkCreateDummyCsv {
  dc_csv_path : string * string;
  dc_num_records : Z;
  dc_amount : Z
}.
Record ExtendListArgs := mkExtendListArgs {
  el_csv_path : string * string;
  el_num_records : Z;
  el_amount : Z;
  el_destination_path : string * string
}.
Record FilterListArgs := mkFilterListArgs {
  fl_csv_path : string * string;
  fl_amount : Z;
  fl_destination_path : string * string
}.
Record FilterAndMergeListArgs := mkFilterAndMergeListArgs {
  fm_csv_path : string * string;
  fm_sub_path : string * string;
  fm_amount : Z;
  fm_destination_path : string * string
}.
Record AggregateIfCsvsArgs := mkAggregateIfCsvsArgs {
  ag_config : string * string;
  ag_csv_dir : option string;
  ag_out_csv_dir : string;
  ag_out_config : string * string
}.
Record GenerateKvProofArgs := mkGenerateKvProofArgs {
  gk_merkle_tree_path : string;
  gk_kv_path : string;
  gk_max_entries_per_file : Z
}.
Record MassSendArgs := mkMassSendArgs {
  ms_csv_path : string * string;
  ms_des_path : string * string;
  ms_max_address_per_tx : Z;
  ms_amount : Z
}.
Record ResendSendArgs := mkResendSendArgs {
  rs_des_path : string * string;
  rs_max_address_per_tx : Z;
  rs_amount : Z
}.
Record VerifyKvProofArgs := mkVerifyKvProofArgs {
  vk_csv_path : string * string;
  vk_kv_api : string;
  vk_local_api : string;
  vk_num_verify : Z
}.
Record ClawbackReceiverArgs := mkClawbackReceiverArgs {
  cr_merkle_tree_path : string;
  cr_receiver : Pubkey
}.

(** The options of [new-distributor], [verify] and [create-merkle-tree] that are
    not paths are the records of [Deploy] and [Sharding]. *)
Inductive Commands :=
| Claim (merkle_tree_path : string * string)
| NewDistributor (merkle_tree_path : string) (a : DeployArgs)
| CloseDistributor (a : CloseDistributorArgs)
| CloseClaimStatus
| Clawback (merkle_tree_path : string)
| CreateMerkleTree (csv_path : string * string) (merkle_tree_path : string) (a : CreateMerkleTreeArgs)
| SetAdmin (a : SetAdminArgs)
| SetEnableSlot (a : SetEnableSlotArgs)
| SetEnableSlotByTime (a : SetEnableSlotByTimeArgs)
| CreateTestList (a : CreateTestListArgs)
| CreateDummyCsvCmd (a : CreateDummyCsv)
| ExtendList (a : ExtendListArgs)
| FundAll (merkle_tree_path : string)
| Verify (merkle_tree_path : string) (a : VerifyArgs)
| FilterList (a : FilterListArgs)
| FilterAndMergeList (a : FilterAndMergeListArgs)
| SlotByTime (timestamp : Z)
| GenerateKvProof (a : GenerateKvProofArgs)
| MassSend (a : MassSendArgs)
| Resend (a : ResendSendArgs)
| ViewClaimStatus
| VerifyKvProof (a : VerifyKvProofArgs)
| TotalClaim (num_tree : Z)
| SetClawbackReceiver (a : ClawbackReceiverArgs)
| FindAirdropVersion (start_airdrop_version : option Z)
| AggregateIfCsvs (a : AggregateIfCsvsArgs).

(** ** Runs *)
Section tool.
Context `{Hasher} `{AddressDerivation} `{TokenProgram} `{AtaProgram} `{PubkeyParser} `{PubkeyText}.
Context `{AccountCodec} `{Serde} `{FileFormats} `{SignatureScheme}.
Implicit Types (args : Args) (fs : FS) (st : State).

Record World := mkWorld {
  w_net : Network;
  w_files : FS
}.
Definition w_ledger (w : World) : State := net_ledger (w_net w).

Abbreviation tool := (io World).

(** Calls of the client, a confirmed change of the ledger, a change of the files. *)
Definition on_net {A : Type} (m : io Network A) : tool A := λ w,
  let '(net, r) := m (w_net w) in (mkWorld net (w_files w), r).
Definition on_ledger (f : State → result cli_failure State) : tool unit := λ w,
  match f (w_ledger w) with
  | Ok st => (mkWorld (set_ledger st (w_net w)) (w_files w), Ok tt)
  | Err e => (w, Err e)
  end.
Definition on_files (f : FS → result cli_failure FS) : tool unit := λ w,
  match f (w_files w) with Ok fs => (mkWorld (w_net w) fs, Ok tt) | Err e => (w, Err e) end.

(** [unwrap] of the errors of the libraries. *)
Definition of_tree {A : Type} (r : result tree_error A) : result cli_failure A :=
  match r with Ok a => Ok a | Err TreeFuel => Err CliFuel | Err _ => Err CliPanic end.
Definition of_loop {A : Type} (r : result loop_error A) : result cli_failure A :=
  match r with Ok a => Ok a | Err OutOfFuel => Err CliFuel | Err Panicked => Err CliPanic end.

(** What a run meets outside the network and the files: the answers of the node
    that are not on the ledger, HTTP servers, random and fresh values, the order
    of a [HashMap]; and the fuel of the unbounded loops. *)
Record Env := mkEnv {
  env_fuel : nat;
  env_probe_fails : Z → bool;
  env_samples : list PerfSample;
  env_accounts : State → list RpcFilterType → list (Pubkey * list byte);
  env_entries : gmap string string → list (string * string);
  env_groups : gmap string (list string) → list (string * list string);
  env_http : string → string → option Value;
  env_gen_range : nat → nat → nat;
  env_new_unique : nat → Pubkey
}.
Implicit Types (env : Env).

(** ** Reading trees *)
Definition tree_dir (dir : string) : tool (list (string * Node)) :=
  ask (λ w, expect (read_dir (w_files w) dir)).
(** [AirdropMerkleTree::new_from_file(..).expect("failed to read")]. *)
Definition read_tree (e : string * Node) : tool AirdropMerkleTree :=
  ask (λ _, unwrap (tree_of_node e.2)).
Definition for_trees (f : AirdropMerkleTree → tool unit) (entries : list (string * Node)) : tool unit :=
  for_each (λ e, tree ← read_tree e; f tree) entries.

(** ** process_new_distributor.rs *)

(** The transaction that creates the distributor, and its vault if that is missing. *)
Definition creation_ixs args (da : DeployArgs) (tree : AirdropMerkleTree) (vault_missing : bool) : list TxIx :=
  (if vault_missing then [CreateAta (distributor_of args tree) (arg_mint args)] else []) ++
  [ProgramIx (new_distributor_ix args da tree (source_vault args))].

(** The receiver's account is a transaction of its own.  With [skip_verify] the
    creation is only submitted. *)
Definition deploy_tree_cmd args (da : DeployArgs) (tree : AirdropMerkleTree) : tool unit :=
  let k := distributor_of args tree in
  st ← ask (λ w, Ok (w_ledger w));
  match st_accounts st !! k with
  | Some account =>
      ask (λ _, unwrap (check_distributor_onchain_matches account tree da (arg_payer args) (st_tokens st)))
  | None =>
      let vault_missing := bool_decide (tk_accounts (st_tokens st) !! vault_address args tree = None) in
      _ ← on_ledger (λ st, '(_, st) ← get_or_create_ata st (arg_mint args) (arg_payer args); Ok st);
      if da_skip_verify da then
        blockhash ← on_net latest_blockhash;
        signature ← on_net (send_transaction (mkTransaction (arg_payer args) blockhash
                                                (creation_ixs args da tree vault_missing)));
        ask (λ _, match signature with Some _ => Ok tt | None => Err CliPanic end)
      else
        _ ← on_ledger (λ st, expect (run_ixs (arg_payer args) st (creation_ixs args da tree vault_missing)));
        st ← ask (λ w, Ok (w_ledger w));
        match st_accounts st !! k with
        | Some account =>
            ask (λ _, unwrap (check_distributor_onchain_matches account tree da (arg_payer args)
                                (st_tokens st)))
        | None => mret tt
        end
  end.

(** Files that are not trees are skipped. *)
Fixpoint new_distributor_loop args (da : DeployArgs) (entries : list (string * Node)) : tool unit :=
  match entries with
  | [] => mret tt
  | e :: entries =>
      match tree_of_node e.2 with
      | Err _ => new_distributor_loop args da entries
      | Ok tree =>
          if (match da_airdrop_version da with
              | Some version => negb (version =? at_airdrop_version tree)
              | None => false
              end)
          then new_distributor_loop args da entries
          else
            existed ← ask (λ w, Ok (bool_decide (is_Some (st_accounts (w_ledger w) !! distributor_of args tree))));
            _ ← deploy_tree_cmd args da tree;
            match da_airdrop_version da, existed with
            | Some _, false => mret tt
            | _, _ => new_distributor_loop args da entries
            end
      end
  end.
Definition new_distributor_cmd args (merkle_tree_path : string) (da : DeployArgs) : tool unit :=
  entries ← tree_dir merkle_tree_path;
  new_distributor_loop args da entries.

(** ** process_fund_all.rs, process_verify.rs *)
Definition fund_all_cmd args (merkle_tree_path : string) : tool unit :=
  entries ← tree_dir merkle_tree_path;
  for_each (λ e, if is_json_file e
                 then tree ← read_tree e; on_net (fund_tree args tree)
                 else mret tt) entries.

Definition verify_cmd args (merkle_tree_path : string) (va : VerifyArgs) : tool unit :=
  entries ← tree_dir merkle_tree_path;
  for_trees (λ tree, ask (λ w, verify_tree args va (w_ledger w) tree)) entries.

(** ** The commands that retry *)

(** [for file in paths] around the loop. *)
Definition retry_trees_cmd env args (confirm : bool) (already : MerkleDistributor → bool)
    (ix : Pubkey → MerkleDistributor → Instruction) (merkle_tree_path : string) : tool unit :=
  entries ← tree_dir merkle_tree_path;
  for_trees (λ tree,
    let k := distributor_of args tree in
    on_net (retry_loop args confirm already (ix k) k (env_fuel env))) entries.

Definition set_admin_cmd env args (a : SetAdminArgs) : tool unit :=
  retry_trees_cmd env args false (set_admin_done (sa_new_admin a)) (set_admin_ix args (sa_new_admin a))
    (sa_merkle_tree_path a).
Definition clawback_cmd env args (merkle_tree_path : string) : tool unit :=
  retry_trees_cmd env args false md_clawed_back (clawback_ix args) merkle_tree_path.
Definition set_clawback_receiver_cmd env args (a : ClawbackReceiverArgs) : tool unit :=
  retry_trees_cmd env args false (set_clawback_receiver_done args (cr_receiver a))
    (set_clawback_receiver_ix args (cr_receiver a)) (cr_merkle_tree_path a).

(** With a version the directory is not read. *)
Definition set_enable_slot_cmd env args (a : SetEnableSlotArgs) : tool unit :=
  match ss_airdrop_version a with
  | Some version => on_net (set_enable_slot_once args (ss_slot a) version)
  | None =>
      retry_trees_cmd env args true (set_enable_slot_done (ss_slot a)) (set_enable_slot_ix args (ss_slot a))
        (ss_merkle_tree_path a)
  end.

(** The directory is listed first; the slot is computed once. *)
Definition set_enable_slot_by_time_cmd env args (a : SetEnableSlotByTimeArgs) : tool unit :=
  entries ← tree_dir (st_merkle_tree_path a);
  clock ← on_net (fetch_unwrap (λ st, Some (st_clock st)));
  slot ← ask (λ _, process_get_slot clock (env_samples env) (st_timestamp a));
  match st_airdrop_version a with
  | Some version =>
      on_net (set_slot args slot (get_merkle_distributor_pda (arg_program_id args) (arg_mint args) version).1)
  | None => for_trees (λ tree, on_net (set_slot args slot (distributor_of args tree))) entries
  end.

(** ** Closing *)

(** The file is read before its version is compared. *)
Fixpoint close_distributor_loop args (airdrop_version : option Z) (entries : list (string * Node))
  : tool unit :=
  match entries with
  | [] => mret tt
  | e :: entries =>
      tree ← read_tree e;
      let k := distributor_of args tree in
      if (match airdrop_version with Some v => negb (v =? at_airdrop_version tree) | None => false end)
      then close_distributor_loop args airdrop_version entries
      else
        state ← on_net (fetch (λ st, get_distributor st k));
        match state with
        | None => close_distributor_loop args airdrop_version entries
        | Some d =>
            _ ← on_ledger (λ st, '(_, st) ← get_or_create_ata st (arg_mint args) (arg_payer args); Ok st);
            _ ← on_net (close_distributor args k d);
            match airdrop_version with
            | Some _ => mret tt
            | None => close_distributor_loop args airdrop_version entries
            end
        end
  end.
Definition close_distributor_cmd args (a : CloseDistributorArgs) : tool unit :=
  entries ← tree_dir (cd_merkle_tree_path a);
  close_distributor_loop args (cd_airdrop_version a) entries.

(** [program.accounts(filters).unwrap()]. *)
Definition query_statuses env : tool (list (Pubkey * ClaimStatus)) :=
  ask (λ w, expect (claim_status_accounts (env_accounts env (w_ledger w) closable_filters))).
Definition close_claim_status_cmd env args : tool unit :=
  accounts ← query_statuses env;
  on_net (process_close_claim_status args accounts).

(** ** Claiming *)
Definition claim_cmd args (merkle_tree_path : Path) : tool unit := λ w,
  match new_from_file (w_files w) merkle_tree_path with
  | Ok tree =>
      let '(st, r) := process_claim args (w_ledger w) tree in
      (mkWorld (set_ledger st (w_net w)) (w_files w), r)
  | Err _ => (w, Err CliPanic)
  end.

(** ** process_send.rs *)
Definition parse_new_record (p : Path) : tool (list string) :=
  ask (λ w, expect (lookup_file (w_files w) p ≫= csv_strings)).
Definition parse_send_addresse (p : Path) : tool (gmap string string) :=
  ask (λ w, expect (lookup_file (w_files w) p ≫= sent_read)).

(** A batch that was sent is recorded in the file at once. *)
Definition send_batch_cmd args (amount : Z) (des_path : Path) (sent : gmap string string)
    (batch : list string) : tool (gmap string string) :=
  o ← on_net (send_for_batch_address args amount batch);
  match o with
  | Some (signature, qualified) =>
      let sent := record_sent signature qualified sent in
      _ ← on_files (λ fs, expect (write_file fs des_path (sent_write sent)));
      mret sent
  | None => mret sent
  end.

Definition mass_send_cmd args (a : MassSendArgs) : tool unit :=
  addresses ← parse_new_record (ms_csv_path a);
  sent ← parse_send_addresse (ms_des_path a);
  _ ← for_fold (send_batch_cmd args (ms_amount a) (ms_des_path a)) sent
        (make_batches (Z.to_nat (ms_max_address_per_tx a)) sent [] addresses);
  mret tt.

Definition resend_group_cmd args (a : ResendSendArgs) (sent : gmap string string)
    (group : string * list string) : tool (gmap string string) :=
  status ← on_net (get_signature_status group.1);
  if should_resend status
  then send_batch_cmd args (rs_amount a) (rs_des_path a) sent
         (take (Z.to_nat (rs_max_address_per_tx a)) group.2)
  else mret sent.
Definition resend_cmd env args (a : ResendSendArgs) : tool unit :=
  sent ← parse_send_addresse (rs_des_path a);
  _ ← for_fold (resend_group_cmd args a) sent
        (env_groups env (group_by_signature (env_entries env sent)));
  mret tt.

(** ** Versions and slots *)
Definition version_probe env args st (v : Z) : account_probe :=
  if env_probe_fails env v then ProbeError
  else match st_accounts st !! (get_merkle_distributor_pda (arg_program_id args) (arg_mint args) v).1 with
       | Some _ => AccountExists
       | None => AccountNotFound
       end.
Definition find_airdrop_version_cmd env args (start_airdrop_version : option Z) : tool (option Z) :=
  ask (λ w, of_loop (process_find_airdrop_version (version_probe env args (w_ledger w)) (env_fuel env)
                       start_airdrop_version)).
Definition slot_by_time_cmd env (timestamp : Z) : tool Z :=
  clock ← on_net (fetch_unwrap (λ st, Some (st_clock st)));
  ask (λ _, process_get_slot clock (env_samples env) timestamp).

(** ** process_create_merkle_tree.rs, process_create_test_list.rs *)
Definition write_tree (base_path : string) (tree : AirdropMerkleTree) (version : Z) : tool unit :=
  on_files (λ fs, write_to_file fs tree (base_path, tree_name version)).

(** The loop of [shard_loop]; every tree is written before the next one is made. *)
Fixpoint write_shards (a : CreateMerkleTreeArgs) (base_path : string) (fuel : nat)
    (csv_entries : list CsvEntry) (airdrop_version : Z) : tool Z :=
  match csv_entries with
  | [] => mret airdrop_version
  | _ =>
      match fuel with
      | O => ask (λ _, Err CliFuel)
      | S fuel =>
          let last_index := Nat.min (cm_max_nodes_per_tree a) (length csv_entries) in
          merkle_tree ← ask (λ _, of_tree (make_tree a (take last_index csv_entries) airdrop_version));
          _ ← write_tree base_path merkle_tree airdrop_version;
          v ← ask (λ _, of_tree (next_version airdrop_version));
          write_shards a base_path fuel (drop last_index csv_entries) v
      end
  end.

(** Returns the version printed last. *)
Definition create_merkle_tree_cmd env args (csv_path : Path) (base_path : string)
    (a : CreateMerkleTreeArgs) : tool Z :=
  start ← ask (λ w, of_loop (start_version (env_fuel env) (version_probe env args (w_ledger w))
                               (arg_mint args) a));
  csv_entries ← ask (λ w, of_tree (CsvEntry_new_from_file (w_files w) csv_path));
  let rows := without_test_list a csv_entries in
  (* a tree takes at least one row unless [max_nodes_per_tree] is 0, which panics *)
  v ← write_shards a base_path (length csv_entries) rows start;
  v ← (if cm_should_include_test_list a then
         merkle_tree ← ask (λ _, of_tree (make_tree a (test_list_entries a) v));
         _ ← write_tree base_path merkle_tree v;
         ask (λ _, of_tree (next_version v))
       else mret v);
  ask (λ _, expect (checked_sub_u64 v 1)).

Definition create_test_list_cmd env args (a : CreateTestListArgs) : tool Z :=
  _ ← on_files (λ fs, expect (write_file fs (ct_csv_path a)
        (csv_write (header :: map record (map (λ addr, (addr, ct_amount a)) get_pre_list)))));
  create_merkle_tree_cmd env args (ct_csv_path a) (ct_merkle_tree_path a)
    (test_list_args (ct_amount a) (ct_decimals a)).

(** ** process_generate_kv_proof.rs *)
Definition write_kv (kv_path : string) (file_index : Z) (proofs : gmap string KvProof) : tool unit :=
  on_files (λ fs, expect (write_file fs (kv_path, kv_name file_index) (kv_write proofs))).

(** One node: [kv_insert], and the file when the map is full. *)
Definition kv_node_cmd (a : GenerateKvProofArgs) (distributor_pubkey : Pubkey) (s : kv_state)
    (node : TreeNode) : tool kv_state :=
  s' ← ask (λ _, of_tree (kv_insert (gk_max_entries_per_file a) distributor_pubkey s node));
  _ ← (if (length s.1 <? length s'.1)%nat
       then write_kv (gk_kv_path a) (Z.of_nat (length s.1)) (default ∅ (s'.1 !! length s.1))
       else mret tt);
  mret s'.
Definition generate_kv_proof_cmd args (a : GenerateKvProofArgs) : tool unit :=
  entries ← tree_dir (gk_merkle_tree_path a);
  s ← for_fold (λ s e,
        tree ← read_tree e;
        for_fold (kv_node_cmd a (distributor_of args tree)) s (at_tree_nodes tree)) ([], ∅) entries;
  if (0 <? size s.2)%nat then write_kv (gk_kv_path a) (Z.of_nat (length s.1)) s.2 else mret tt.

(** ** Lists *)
Definition read_csv (p : Path) : tool (list CsvEntry) :=
  ask (λ w, of_tree (CsvEntry_new_from_file (w_files w) p)).
(** [Writer::from_path], the header, the rows, [flush]. *)
Definition write_rows (p : Path) (rows : list (string * Z)) : tool unit :=
  on_files (λ fs, expect (write_file fs p (csv_write (header :: map record rows)))).
Definition write_keys (p : Path) (rows : list (Pubkey * Z)) : tool unit :=
  write_rows p (map (λ r, (pubkey_to_string r.1, r.2)) rows).

Definition filter_list_cmd (a : FilterListArgs) : tool unit :=
  community_list ← read_csv (fl_csv_path a);
  write_keys (fl_destination_path a) (process_filter_list community_list (fl_amount a)).
Definition filter_and_merge_cmd (a : FilterAndMergeListArgs) : tool unit :=
  community_list ← read_csv (fm_csv_path a);
  new_records ← parse_new_record (fm_sub_path a);
  write_keys (fm_destination_path a) (process_filter_and_merge community_list new_records (fm_amount a)).
Definition extend_list_cmd env (a : ExtendListArgs) : tool unit :=
  community_list ← read_csv (el_csv_path a);
  rows ← ask (λ _, process_extend_list (env_new_unique env) community_list (Z.to_nat (el_num_records a))
                     (el_amount a));
  write_keys (el_destination_path a) rows.
(** The file is created, with the header, before the rows are made. *)
Definition create_dummy_csv_cmd env (a : CreateDummyCsv) : tool unit :=
  _ ← write_rows (dc_csv_path a) [];
  rows ← ask (λ _, process_create_dummy_csv (unique_text := λ i, pubkey_to_string (env_new_unique env i))
                     (Z.to_nat (dc_num_records a)) (dc_amount a));
  write_rows (dc_csv_path a) rows.

(** ** process_aggregate_if_csvs.rs *)
Definition json_arr (j : Json) : option (list Json) := match j with JArr l => Some l | _ => None end.
Definition json_market (j : Json) : option IfMarket :=
  index ← json_field "index" j ≫= json_u64;
  symbol ← json_field "symbol" j ≫= json_str;
  mint ← json_field "mint" j ≫= json_str;
  Some (mkIfMarket index symbol mint).
Definition config_markets (config : Json) : option (list IfMarket) :=
  l ← json_field "markets" config ≫= json_arr; mapM json_market l.
(** The option comes before the configuration. *)
Definition choose_csv_dir (a : AggregateIfCsvsArgs) (config : Json) : option string :=
  match ag_csv_dir a with Some dir => Some dir | None => json_field "csv_dir" config ≫= json_str end.
(** [config[name] = v] on an object; on anything else it panics. *)
Definition json_set (name : string) (v : Json) (j : Json) : option Json :=
  match j with
  | JObj l =>
      Some (JObj (if existsb (λ p, String.eqb p.1 name) l
                  then map (λ p, if String.eqb p.1 name then (name, v) else p) l
                  else l ++ [(name, v)]))
  | _ => None
  end.

Definition market_csv_path (csv_dir : string) (market : IfMarket) : Path :=
  (csv_dir, csv_name (im_index market) (im_symbol market)).
Definition merged_market_json (m : MergedMint) : Json :=
  JObj [("index", JNum (mm_index m)); ("symbol", JStr (mm_symbol m)); ("mint", JStr (mm_mint m));
        ("source_markets", JArr (map JNum (mm_source_markets m)))]%string.

Definition merged_config (config : Json) (merged : list MergedMint) (out_csv_dir : string) : option Json :=
  config ← json_set "markets" (JArr (map merged_market_json merged)) config;
  json_set "csv_dir" (JStr out_csv_dir) config.

Definition read_market (csv_dir : string) (market : IfMarket) : tool (IfMarket * list CsvEntry) :=
  entries ← ask (λ w, of_tree (CsvEntry_new_from_file (w_files w) (market_csv_path csv_dir market)));
  mret (market, entries).
Definition write_merged (out_csv_dir : string) (m : MergedMint) : tool unit :=
  on_files (λ fs, expect (write_file fs (out_csv_dir, csv_name (mm_index m) (mm_symbol m))
    (csv_write (header_locked :: map record_locked (merged_records m))))).

(** The merged lists, then the configuration that points to them. *)
Definition write_aggregate (a : AggregateIfCsvsArgs) (config : Json) (merged : list MergedMint) : tool unit :=
  _ ← on_files (λ fs, Ok (create_dir_all fs (ag_out_csv_dir a)));
  _ ← for_each (write_merged (ag_out_csv_dir a)) merged;
  config ← ask (λ _, expect (merged_config config merged (ag_out_csv_dir a)));
  on_files (λ fs, expect (write_file fs (ag_out_config a) (json_write config))).

Definition aggregate_cmd (a : AggregateIfCsvsArgs) : tool unit :=
  config ← ask (λ w, expect (lookup_file (w_files w) (ag_config a) ≫= json_value));
  markets ← ask (λ _, expect (config_markets config));
  _ ← ask (λ _, require (0 <? length markets)%nat CliPanic);
  csv_dir ← ask (λ _, expect (choose_csv_dir a config));
  inputs ← for_fold (λ inputs market, i ← read_market csv_dir market; mret (inputs ++ [i])) [] markets;
  merged ← ask (λ _, unwrap (aggregate_if_entries inputs));
  write_aggregate a config merged.

(** ** verify_kv_proof.rs *)
Definition verify_kv_proof_cmd env (a : VerifyKvProofArgs) : tool unit :=
  csv_entries ← read_csv (vk_csv_path a);
  ask (λ _, verify_kv_proof csv_entries (env_http env (vk_kv_api a)) (env_http env (vk_local_api a))
              (Z.to_nat (vk_num_verify a)) (env_gen_range env)).

(** ** main *)
Definition ignore {A : Type} (m : tool A) : tool unit := _ ← m; mret tt.

Definition main env args (command : Commands) : tool unit :=
  match command with
  | NewDistributor merkle_tree_path a => new_distributor_cmd args merkle_tree_path a
  | CloseDistributor a => close_distributor_cmd args a
  | Claim merkle_tree_path => claim_cmd args merkle_tree_path
  | Clawback merkle_tree_path => clawback_cmd env args merkle_tree_path
  | CreateMerkleTree csv_path merkle_tree_path a =>
      ignore (create_merkle_tree_cmd env args csv_path merkle_tree_path a)
  | SetAdmin a => set_admin_cmd env args a
  | SetEnableSlot a => set_enable_slot_cmd env args a
  | SetEnableSlotByTime a => set_enable_slot_by_time_cmd env args a
  | CreateDummyCsvCmd a => create_dummy_csv_cmd env a
  | CreateTestList a => ignore (create_test_list_cmd env args a)
  | FundAll merkle_tree_path => fund_all_cmd args merkle_tree_path
  | Verify merkle_tree_path a => verify_cmd args merkle_tree_path a
  | ExtendList a => extend_list_cmd env a
  | FilterList a => filter_list_cmd a
  | SlotByTime timestamp => ignore (slot_by_time_cmd env timestamp)
  | CloseClaimStatus => close_claim_status_cmd env args
  | FilterAndMergeList a => filter_and_merge_cmd a
  | GenerateKvProof a => generate_kv_proof_cmd args a
  | MassSend a => mass_send_cmd args a
  | Resend a => resend_cmd env args a
  | ViewClaimStatus => ignore (query_statuses env)
  | VerifyKvProof a => verify_kv_proof_cmd env a
  | TotalClaim num_tree => ignore (ask (λ w, get_total_claim args (w_ledger w) (Z.to_nat num_tree)))
  | SetClawbackReceiver a => set_clawback_receiver_cmd env args a
  | FindAirdropVersion start => ignore (find_airdrop_version_cmd env args start)
  | AggregateIfCsvs a => aggregate_cmd a
  end.
End tool.
