(* ===== verification/ToolTheorems.v ===== *)
(** * What a run of the tool can do

    Every effect of the tool on the ledger, whatever the command, its options, the
    files, the answers of the network and the fate of what was submitted, and also
    when it panics: instructions signed by the operator alone, token accounts
    created, transfers from accounts the operator controls. *)
From S2P Require Import BTree.
From S2P Require Import Prelude Machine Hashing Sha256 MerkleTree MerkleProof TreeNode Airdrop.
From S2P Require Import ProgramError ClaimStatus Solana Token State Handlers Program Execution.
From S2P Require Import Scenario Safety NoPanic Ledger EndToEnd Layout Api Startup Aggregate Sharding.
From S2P Require Import Network NetworkTheorems Signatures Deploy KvCheck Files DeployTheorems.
From S2P Require Import Commands CommandsTheorems MassSend ListTools Pipeline Tool.
#[local] Open Scope Z_scope.

Section acts.
Context `{Hasher} `{AddressDerivation} `{!AddressDerivationSpec} `{TokenProgram} `{!TokenProgramSpec}.
Context `{AtaProgram} `{!AtaProgramSpec} `{PubkeyParser} `{PubkeyText}.
Context `{AccountCodec} `{Serde} `{FileFormats} `{!FileFormatsSpec} `{SignatureScheme}.
Implicit Types (args : Args) (st : State) (env : Env) (w : World).
Abbreviation tool := (io World).

(** One effect of a run: the operator's, time passing, or what others do. *)
Inductive op_step (payer : Pubkey) (others : relation State) : relation State :=
| op_tx ix st st' :
    ix_typed ix → process_instruction {[ payer ]} st ix = Ok st' → op_step payer others st st'
| op_ata wallet mint st ts :
    create_associated_token_account (st_tokens st) wallet mint = Some ts →
    op_step payer others st (set_tokens ts st)
| op_transfer from to amount st ts :
    0 ≤ amount → token_transfer (st_tokens st) from to payer amount = Some ts →
    op_step payer others st (set_tokens ts st)
| op_time clock st : op_step payer others st (advance_clock clock st)
| op_others st st' : others st st' → op_step payer others st st'.

(** Effects of several operators. *)
Definition acts (payers : list Pubkey) (others : relation State) : relation State :=
  rtc (λ st st', ∃ payer, payer ∈ payers ∧ op_step payer others st st').

(** A key with a private key: not the derived address of a distributor. *)
Definition operator_key (payer : Pubkey) : Prop := ∀ mint version, payer ≠ distributor_address mint version.

Section operators.
Context (payers : list Pubkey) (others : relation State).
Context (Hpayers : ∀ payer, payer ∈ payers → operator_key payer).
Context (Hothers : ∀ st st', others st st' → step any_ix st st').

Lemma operator_not_distributor payer st : payer ∈ payers → state_ok st → ¬ is_distributor st payer.
Proof.
  intros Hin Hok [d Hd]. apply (Hpayers payer Hin (md_mint d) (md_version d)), (ok_distributors st Hok _ _ Hd).
Qed.

Lemma op_step_steps payer st st' :
  payer ∈ payers → state_ok st → op_step payer others st st' → steps any_ix st st'.
Proof.
  intros Hin Hok. destruct 1 as [ix st st' Hty Hp|wallet mint st ts Hc|from to amount st ts Hpos Ht|clock st|st st' Ho].
  - eapply rtc_once, step_tx; [done|done| |done]. intros k Hk ->%elem_of_singleton.
    by eapply operator_not_distributor.
  - by eapply rtc_once, create_ata_step.
  - eapply rtc_once, transfer_step; [done| |done|done]. by apply operator_not_distributor.
  - apply clock_step.
  - apply rtc_once. auto.
Qed.

Lemma acts_steps st st' : state_ok st → acts payers others st st' → steps any_ix st st'.
Proof.
  intros Hok Ha. induction Ha as [|st1 st2 st3 (payer & Hin & Hs) _ IH]; [done|].
  pose proof (op_step_steps _ _ _ Hin Hok Hs) as Hst. unfold steps in *.
  etrans; [done|]. apply IH. by eapply steps_ok.
Qed.
Lemma acts_ok st st' : state_ok st → acts payers others st st' → state_ok st'.
Proof. intros Hok Ha. by eapply steps_ok, acts_steps. Qed.

(** The program's configuration of somebody else's distributor. *)
Lemma op_step_config payer st st' k d :
  (∀ s s', ¬ others s s') → state_ok st → op_step payer others st st' →
  st_accounts st !! k = Some (DistributorAcc d) → md_admin d ≠ payer →
  ∃ d', st_accounts st' !! k = Some (DistributorAcc d') ∧ same_identity d d' ∧ same_config d d'.
Proof.
  intros Hno Hok Hs Hd Hadmin.
  destruct Hs as [ix st st' Hty Hp|wallet mint st ts Hc|from to amount st ts Hpos Ht|clock st|st st' Ho].
  - destruct (effect_distributor {[ payer ]} st ix st' k d Hok Hd) as [(_ & _ & Hin)|(d' & Hd' & Hev)].
    + eapply process_instruction_effect; eauto using state_ok_typed.
    + by apply elem_of_singleton in Hin.
    + exists d'. split; [done|]. split; [apply Hev|]. apply (ev_config _ _ _ _ Hev). set_solver.
  - exists d. by split_and!.
  - exists d. by split_and!.
  - exists d. destruct (advance_clock_keeps clock st) as [-> _]. by split_and!.
  - by destruct (Hno st st').
Qed.

Lemma acts_config st st' k d :
  (∀ s s', ¬ others s s') → state_ok st → acts payers others st st' →
  st_accounts st !! k = Some (DistributorAcc d) → md_admin d ∉ payers →
  ∃ d', st_accounts st' !! k = Some (DistributorAcc d') ∧ same_identity d d' ∧ same_config d d'.
Proof.
  intros Hno Hok Ha. revert d. induction Ha as [st|st1 st2 st3 (payer & Hin & Hs) _ IH]; intros d Hd Hadmin.
  { exists d. by split_and!. }
  destruct (op_step_config _ _ _ _ _ Hno Hok Hs Hd) as (d2 & Hd2 & Hi & Hc);
    [intros Heq; apply Hadmin; by rewrite Heq|].
  assert (state_ok st2) as Hok2 by (eapply steps_ok; [done|by eapply op_step_steps]).
  destruct (IH Hok2 d2 Hd2) as (d3 & Hd3 & Hi3 & Hc3).
  { destruct Hc as (_ & _ & _ & _ & -> & _). done. }
  exists d3. split; [done|]. split; by etrans.
Qed.

(** ** Transactions of the operators *)
Definition txix_typed (ix : TxIx) : Prop :=
  match ix with ProgramIx ix => ix_typed ix | CreateAta _ _ => True | TransferTo _ _ amount => 0 ≤ amount end.
Definition operator_tx (tx : Transaction) : Prop := tx_payer tx ∈ payers ∧ Forall txix_typed (tx_ixs tx).

#[local] Instance acts_preorder : PreOrder (acts payers others).
Proof. unfold acts. apply _. Qed.

Lemma run_ixs_acts payer ixs st st' :
  payer ∈ payers → Forall txix_typed ixs → run_ixs payer st ixs = Some st' → acts payers others st st'.
Proof.
  intros Hin Hix. revert st. induction Hix as [|ix ixs Hty _ IH]; intros st; cbn [run_ixs]; [by intros [= <-]|].
  intros (st1 & Hr & Hrest)%bind_Some. eapply rtc_l; [|by apply IH]. exists payer. split; [done|].
  destruct ix as [ix|wallet mint|from to amount]; cbn [run_ix] in Hr.
  - destruct (process_instruction _ _ _) eqn:Hp; [|done]. injection Hr as <-. by eapply op_tx.
  - apply fmap_Some in Hr as (ts & Hts & ->). by eapply op_ata.
  - apply fmap_Some in Hr as (ts & Hts & ->). by eapply op_transfer.
Qed.
Lemma operator_tx_acts tx st st' :
  operator_tx tx → state_ok st → execute st tx = Some st' → acts payers others st st'.
Proof. intros [Hin Hix] _. by apply run_ixs_acts. Qed.

Lemma acts_time clock st : payers ≠ [] → acts payers others st (advance_clock clock st).
Proof.
  destruct payers as [|payer l]; [done|]. intros _. apply rtc_once. exists payer.
  split; [apply list_elem_of_here|]. apply op_time.
Qed.

(** ** Runs that only act *)
Context (Hsome : payers ≠ []).
Abbreviation net_ok := (net_ok (acts payers others) state_ok operator_tx).
Abbreviation keeps := (keeps (acts payers others) state_ok operator_tx).

Definition moves {A : Type} (m : tool A) w : Prop :=
  net_ok (w_net w) → acts payers others (w_ledger w) (w_ledger (m w).1) ∧ net_ok (w_net (m w).1).

Lemma moves_ret {A} (a : A) w : moves (mret a) w.
Proof. intros Hok. split; [apply rtc_refl|done]. Qed.
Lemma moves_ask {A} (f : World → result cli_failure A) w : moves (ask f) w.
Proof. intros Hok. split; [apply rtc_refl|done]. Qed.
Lemma moves_files f w : moves (on_files f) w.
Proof. intros Hok. unfold on_files. destruct (f (w_files w)); (split; [apply rtc_refl|done]). Qed.
Lemma moves_net {A} (m : io Network A) w : keeps m → moves (on_net m) w.
Proof.
  intros Hm Hok. unfold on_net. destruct (m (w_net w)) as [net r] eqn:Hr. by apply (Hm _ _ _ Hok Hr).
Qed.
Lemma set_ledger_ok net st :
  net_ok net → acts payers others (net_ledger net) st → net_ok (set_ledger st net).
Proof. intros [Hl Hp Hf] Ha. split; [by eapply acts_ok|done|done]. Qed.
Lemma moves_ledger f w :
  (∀ st, state_ok (w_ledger w) → f (w_ledger w) = Ok st → acts payers others (w_ledger w) st) →
  moves (on_ledger f) w.
Proof.
  intros Hf Hok. unfold on_ledger. destruct (f (w_ledger w)) as [st|] eqn:He; [|split; [apply rtc_refl|done]].
  assert (acts payers others (w_ledger w) st) as Ha by (apply Hf; [apply Hok|done]).
  split; [done|by apply set_ledger_ok].
Qed.
Lemma moves_bind {A B} (m : tool A) (f : A → tool B) w :
  moves m w → (∀ a w', m w = (w', Ok a) → moves (f a) w') → moves (m ≫= f) w.
Proof.
  intros Hm Hf Hok. destruct (Hm Hok) as [Ha1 Hok1]. unfold mbind, io_bind.
  destruct (m w) as [w' [a|e]] eqn:He; simpl in *; [|done].
  destruct (Hf a w' eq_refl Hok1) as [Ha2 Hok2]. split; [by etrans|done].
Qed.
Lemma moves_each {A} (f : A → tool unit) l w : (∀ x w', x ∈ l → moves (f x) w') → moves (for_each f l) w.
Proof.
  revert w. induction l as [|x l IH]; intros w Hf; cbn [for_each]; [apply moves_ret|].
  apply moves_bind; [apply Hf; set_solver|]. intros _ w' _. apply IH. intros y w'' Hy. apply Hf. set_solver.
Qed.
Lemma moves_fold {A S} (f : S → A → tool S) s l w :
  (∀ s x w', x ∈ l → moves (f s x) w') → moves (for_fold f s l) w.
Proof.
  revert s w. induction l as [|x l IH]; intros s w Hf; cbn [for_fold]; [apply moves_ret|].
  apply moves_bind; [apply Hf; set_solver|]. intros s' w' _. apply IH. intros s'' y w'' Hy. apply Hf. set_solver.
Qed.
Lemma moves_ignore {A} (m : tool A) w : moves m w → moves (ignore m) w.
Proof. intros Hm. apply moves_bind; [done|]. intros. apply moves_ret. Qed.

Lemma read_tree_typed e w w' tree : read_tree e w = (w', Ok tree) → tree_typed tree ∧ w' = w.
Proof.
  unfold read_tree, ask. intros [= <- Ht%unwrap_Ok]. split; [|done].
  destruct e as [name [c|]]; simpl in Ht; [|done].
  destruct (tree_read c) as [t|] eqn:Hr; simplify_eq/=. by eapply tree_read_typed.
Qed.
Lemma moves_tree {A} e (f : AirdropMerkleTree → tool A) w :
  (∀ tree, tree_typed tree → moves (f tree) w) → moves (tree ← read_tree e; f tree) w.
Proof.
  intros Hf. apply moves_bind; [apply moves_ask|]. intros tree w' [Ht ->]%read_tree_typed. auto.
Qed.

(** ** One transaction *)
Context (args : Args) (Hargs : arg_payer args ∈ payers).

Lemma acts_tx ix st st' :
  ix_typed ix → process_instruction {[ arg_payer args ]} st ix = Ok st' → acts payers others st st'.
Proof. intros Hty Hp. apply rtc_once. exists (arg_payer args). split; [done|]. by eapply op_tx. Qed.
Lemma acts_ata wallet mint st ts :
  ensure_ata (st_tokens st) wallet mint = Ok ts → acts payers others st (set_tokens ts st).
Proof.
  unfold ensure_ata. case_match; [intros [= <-]; by destruct st|].
  intros Hc%expect_Ok. apply rtc_once. exists (arg_payer args). split; [done|]. by eapply op_ata.
Qed.
Lemma acts_get_ata mint user st k st' :
  get_or_create_ata st mint user = Ok (k, st') → acts payers others st st'.
Proof. unfold get_or_create_ata. intros (ts & Hts & [= _ <-])%bind_Ok. by eapply acts_ata. Qed.

(** The calls keep to the operators' transactions. *)
Lemma keeps_time clock st : state_ok st → acts payers others st (advance_clock clock st).
Proof. intros _. by apply acts_time. Qed.
#[local] Hint Resolve acts_ok operator_tx_acts keeps_time : keeps.
#[local] Hint Resolve keeps_ask keeps_ret keeps_fetch keeps_fetch_unwrap keeps_blockhash keeps_status : keeps.
#[local] Hint Extern 1 (PreOrder _) => apply acts_preorder : keeps.

Lemma operator_keeps_bind {A B} (m : io Network A) (f : A → io Network B) :
  keeps m → (∀ a, keeps (f a)) → keeps (m ≫= f).
Proof. apply keeps_bind. apply _. Qed.
Lemma operator_keeps_send tx : operator_tx tx → keeps (send_transaction tx).
Proof. apply keeps_send; eauto with keeps. Qed.
Lemma operator_keeps_confirm tx : operator_tx tx → keeps (send_and_confirm_transaction tx).
Proof. apply keeps_confirm; eauto with keeps. Qed.
#[local] Hint Resolve operator_keeps_bind operator_keeps_send operator_keeps_confirm : keeps.

Lemma program_tx ixs h :
  Forall ix_typed ixs → operator_tx (mkTransaction (arg_payer args) h (map ProgramIx ixs)).
Proof. intros Hix. split; [done|]. by apply Forall_map. Qed.
Lemma send_ixs_keeps confirm ixs : Forall ix_typed ixs → keeps (send_ixs args confirm ixs).
Proof.
  intros Hix. apply operator_keeps_bind; [eauto with keeps|]. intros h.
  destruct confirm; [apply operator_keeps_confirm|apply operator_keeps_send]; by apply program_tx.
Qed.
#[local] Hint Resolve send_ixs_keeps : keeps.

(** ** The commands *)
Definition deploy_args_typed (da : DeployArgs) : Prop :=
  is_i64 (da_start_vesting_ts da) ∧ is_i64 (da_end_vesting_ts da) ∧
  is_i64 (da_clawback_start_ts da) ∧ is_u64 (da_enable_slot da).

Lemma deploy_tree_moves da tree w :
  deploy_args_typed da → tree_typed tree → moves (deploy_tree_cmd args da tree) w.
Proof.
  intros Hda Ht. unfold deploy_tree_cmd. apply moves_bind; [apply moves_ask|]. intros st w1 _.
  destruct (st_accounts st !! _); [apply moves_ask|].
  apply moves_bind.
  { apply moves_ledger. intros st' _ ([k st1] & Hg & [= <-])%bind_Ok. by eapply acts_get_ata. }
  intros _ w2 _.
  assert (Forall txix_typed (creation_ixs args da tree
    (bool_decide (tk_accounts (st_tokens st) !! vault_address args tree = None)))) as Hixs.
  { unfold creation_ixs. apply Forall_app. split; [case_bool_decide; by repeat constructor|].
    apply Forall_singleton. destruct Ht as (? & ? & ? & _). unfold deploy_args_typed in Hda. simpl. naive_solver. }
  destruct (da_skip_verify da).
  { apply moves_bind; [apply moves_net; eauto with keeps|]. intros h w3 _.
    apply moves_bind; [|intros; apply moves_ask]. apply moves_net, operator_keeps_send. by split. }
  apply moves_bind.
  { apply moves_ledger. intros st' _ Hr%expect_Ok. by eapply run_ixs_acts. }
  intros _ w3 _. apply moves_bind; [apply moves_ask|]. intros st3 w4 _.
  destruct (st_accounts st3 !! _); [apply moves_ask|apply moves_ret].
Qed.

Lemma new_distributor_moves path da w : deploy_args_typed da → moves (new_distributor_cmd args path da) w.
Proof.
  intros Hda. unfold new_distributor_cmd. apply moves_bind; [apply moves_ask|]. intros entries w' _.
  clear w. revert w'. induction entries as [|e entries IH]; intros w; cbn [new_distributor_loop]; [apply moves_ret|].
  destruct (tree_of_node e.2) as [tree|] eqn:Ht; [|apply IH].
  assert (tree_typed tree) as Hty.
  { destruct e as [name [c|]]; simpl in Ht; [|done].
    destruct (tree_read c) eqn:Hr; simplify_eq/=. by eapply tree_read_typed. }
  case_match; [apply IH|]. apply moves_bind; [apply moves_ask|]. intros existed w1 _.
  apply moves_bind; [by apply deploy_tree_moves|]. intros _ w2 _.
  repeat case_match; try apply IH. apply moves_ret.
Qed.

Lemma fund_all_moves path w : moves (fund_all_cmd args path) w.
Proof.
  unfold fund_all_cmd. apply moves_bind; [apply moves_ask|]. intros entries w' _. apply moves_each.
  intros e w1 _. destruct (is_json_file e); [|apply moves_ret]. apply moves_tree. intros tree _.
  apply moves_net, fund_tree_keeps; eauto with keeps. intros tx [Hp Hix]. split; [by rewrite Hp|].
  eapply Forall_impl; [exact Hix|]. by intros [].
Qed.

Lemma verify_moves path va w : moves (verify_cmd args path va) w.
Proof.
  unfold verify_cmd. apply moves_bind; [apply moves_ask|]. intros entries w' _. apply moves_each.
  intros e w1 _. apply moves_tree. intros tree _. apply moves_ask.
Qed.

(** *** Retries *)
Lemma retry_keeps confirm already ix k fuel :
  (∀ d, ix_typed (ix d)) → keeps (retry_loop args confirm already ix k fuel).
Proof.
  intros Hty. induction fuel as [|fuel IH]; cbn [retry_loop]; [eauto with keeps|].
  apply operator_keeps_bind; [eauto with keeps|]. intros d. destruct (already d); [eauto with keeps|].
  apply operator_keeps_bind; [by apply send_ixs_keeps; repeat constructor|]. intros []; [eauto with keeps|done].
Qed.

Context (env : Env).

Lemma for_trees_moves f entries w :
  (∀ tree w', tree_typed tree → moves (f tree) w') → moves (for_trees f entries) w.
Proof. intros Hf. apply moves_each. intros e w1 _. apply moves_tree. auto. Qed.

Lemma retry_trees_moves confirm already ix path w :
  (∀ k d, ix_typed (ix k d)) → moves (retry_trees_cmd env args confirm already ix path) w.
Proof.
  intros Hty. unfold retry_trees_cmd. apply moves_bind; [apply moves_ask|]. intros entries w' _.
  apply for_trees_moves. intros tree w1 _. apply moves_net. by apply retry_keeps.
Qed.

Lemma send_unwrap_keeps ix : ix_typed ix → keeps (send_unwrap args ix).
Proof.
  intros Hty. apply operator_keeps_bind; [by apply send_ixs_keeps; repeat constructor|eauto with keeps].
Qed.

Lemma set_enable_slot_moves a w : is_u64 (ss_slot a) → moves (set_enable_slot_cmd env args a) w.
Proof.
  intros Hty. unfold set_enable_slot_cmd. destruct (ss_airdrop_version a); [|by apply retry_trees_moves].
  apply moves_net, operator_keeps_bind; [eauto with keeps|]. intros d.
  destruct (set_enable_slot_done _ _); [eauto with keeps|]. by apply send_unwrap_keeps.
Qed.

Lemma process_get_slot_u64 clock samples t slot :
  is_u64 (clk_slot clock) → process_get_slot clock samples t = Ok slot → is_u64 slot.
Proof.
  intros Hs (now & _ & (avg & Havg%get_average_slot_time_bounds & Hc)%bind_Ok)%bind_Ok.
  assert (∀ a q, 0 ≤ a → checked_div_u64 a avg = Some q → 0 ≤ q) as Hdiv.
  { intros a q Ha [-> _]%checked_div_u64_Some. apply Z.div_pos; lia. }
  destruct (Z.ltb_spec now t) as [Hlt|Hge];
    apply bind_Ok in Hc as (ms & Hms%expect_Ok & (q & Hq%expect_Ok & Hr%expect_Ok)%bind_Ok);
    apply checked_mul_u64_Some in Hms as [-> _]; apply Hdiv in Hq; try lia.
  - apply checked_add_u64_Some in Hr as [-> ?]. zlia.
  - apply checked_sub_u64_Some in Hr as [-> ?]. zlia.
Qed.

(** The clock that is read is that of a well-formed ledger. *)
Lemma clock_moves {A} (f : Clock → tool A) w :
  (∀ clock w', is_u64 (clk_slot clock) → moves (f clock) w') →
  moves (clock ← on_net (fetch_unwrap (λ st, Some (st_clock st))); f clock) w.
Proof.
  intros Hf Hok. revert Hok.
  assert (keeps (fetch_unwrap (λ st, Some (st_clock st)))) as Hk by eauto with keeps.
  intros Hok. apply moves_bind; [by apply moves_net| |done]. intros clock w' Hr.
  apply Hf. unfold on_net in Hr. destruct (fetch_unwrap _ (w_net w)) as [net r] eqn:Hfe. injection Hr as <- ->.
  destruct (Hk _ _ _ Hok Hfe) as [_ Hok']. apply fetch_unwrap_run in Hfe as [-> [?|(c & [= <-] & [= ->])]]; [done|].
  apply (ok_slot _ (no_ledger _ _ _ _ Hok')).
Qed.

Lemma set_enable_slot_by_time_moves a w : moves (set_enable_slot_by_time_cmd env args a) w.
Proof.
  unfold set_enable_slot_by_time_cmd. apply moves_bind; [apply moves_ask|]. intros entries w1 _.
  apply clock_moves. intros clock w2 Hslot. apply moves_bind; [apply moves_ask|]. intros slot w3 [= <- Hs].
  assert (∀ k w', moves (on_net (set_slot args slot k)) w') as Hsend.
  { intros k w'. apply moves_net, send_unwrap_keeps. by eapply process_get_slot_u64. }
  destruct (st_airdrop_version a); [apply Hsend|]. apply for_trees_moves. intros. apply Hsend.
Qed.

(** *** Closing and claiming *)
Lemma get_node_in_elem ns c n : get_node_in ns c = Ok n → n ∈ ns.
Proof. induction ns as [|x ns IH]; simpl; [done|]. case_bool_decide; [intros [= <-]|]; set_solver. Qed.
Lemma close_distributor_moves a w : moves (close_distributor_cmd args a) w.
Proof.
  unfold close_distributor_cmd. apply moves_bind; [apply moves_ask|]. intros entries w' _.
  clear w. revert w'. induction entries as [|e entries IH]; intros w; cbn [close_distributor_loop]; [apply moves_ret|].
  apply moves_tree. intros tree _. case_match; [apply IH|].
  apply moves_bind; [apply moves_net; eauto with keeps|]. intros [d|] w1 _; [|apply IH].
  apply moves_bind.
  { apply moves_ledger. intros st' _ ([k st1] & Hg & [= <-])%bind_Ok. by eapply acts_get_ata. }
  intros _ w2 _. apply moves_bind.
  { apply moves_net, operator_keeps_bind; [|eauto with keeps]. apply send_ixs_keeps. by repeat constructor. }
  intros _ w3 _. destruct (cd_airdrop_version a); [apply moves_ret|apply IH].
Qed.

Lemma close_ix_typed ixs value : Forall ix_typed ixs → Forall ix_typed (ixs ++ [close_claim_status_ix args value]).
Proof. intros Hix. apply Forall_app. split; [done|by repeat constructor]. Qed.
Lemma close_batch_keeps ixs value : Forall ix_typed ixs → keeps (close_batch args ixs value).
Proof.
  intros Hix. unfold close_batch. case_match; [|eauto with keeps].
  apply operator_keeps_bind; [|eauto with keeps]. by apply send_ixs_keeps, close_ix_typed.
Qed.
Lemma close_batch_typed ixs value : Forall ix_typed ixs → returns (close_batch args ixs value) (Forall ix_typed).
Proof.
  intros Hix. unfold close_batch. case_match; [|by apply returns_ret, close_ix_typed].
  apply returns_bind. intros []; apply returns_ret; [constructor|by apply close_ix_typed].
Qed.

Lemma close_claim_status_moves w : moves (close_claim_status_cmd env args) w.
Proof.
  unfold close_claim_status_cmd. apply moves_bind; [apply moves_ask|]. intros accounts w' _.
  apply moves_net. unfold process_close_claim_status.
  apply (keeps_bind_post _ _ _ _ _ (Forall ix_typed)).
  - apply (keeps_fold_post _ _ _ _ _ _ (Forall ix_typed)); [constructor|]. intros ixs value Hix.
    split; [by apply close_batch_keeps|by apply close_batch_typed].
  - apply returns_fold; [constructor|]. intros. by apply close_batch_typed.
  - intros ixs Hix. case_match; [|eauto with keeps].
    apply operator_keeps_bind; [by apply send_ixs_keeps|eauto with keeps].
Qed.

Lemma claim_acts tree st : tree_typed tree → acts payers others st (process_claim args st tree).1.
Proof.
  intros (_ & _ & _ & Hnodes). unfold process_claim.
  assert (∀ st', process_new_claim args st tree = Ok st' → acts payers others st st') as Hnew.
  { intros st' (node & Hn%unwrap_Ok & (proof & _ & (ts & Hts & Hp%unwrap_Ok)%bind_Ok)%bind_Ok)%bind_Ok.
    trans (set_tokens ts st); [by eapply acts_ata|]. eapply acts_tx; [|exact Hp].
    assert (node_wf node) as [? ?].
    { eapply Forall_forall; [exact Hnodes|]. by eapply get_node_in_elem. }
    done. }
  destruct (if bool_decide _ then _ else _) as [st1|] eqn:Hfirst; [|done].
  assert (acts payers others st st1) as Ha1.
  { case_bool_decide; [by apply Hnew|]. by injection Hfirst as <-. }
  destruct (process_instruction _ st1 _) eqn:Hp; [|done]. trans st1; [done|].
  eapply acts_tx; [|exact Hp]. done.
Qed.
Lemma claim_moves path w : moves (claim_cmd args path) w.
Proof.
  intros Hok. unfold claim_cmd. destruct (new_from_file _ _) as [tree|] eqn:Hf; [|split; [apply rtc_refl|done]].
  assert (tree_typed tree) as Hty.
  { unfold new_from_file in Hf. apply bind_Ok in Hf as ([c|] & _ & Hr); simpl in Hr; [|done].
    destruct (tree_read c) eqn:Ht; simplify_eq/=. by eapply tree_read_typed. }
  pose proof (claim_acts tree (w_ledger w) Hty) as Ha. destruct (process_claim _ _ _) as [st r]. simpl in *.
  split; [done|by apply set_ledger_ok].
Qed.

(** *** Sending *)
Abbreviation paying acc := (Forall txix_typed (acc : list TxIx * list string).1).

Lemma add_address_typed amount acc address :
  0 ≤ amount → paying acc → returns (add_address args amount acc address) (λ acc', paying acc').
Proof.
  intros Hpos Hp. destruct acc as [ixs q]. unfold add_address. destruct (pubkey_from_str address); [|by apply returns_ret].
  apply returns_bind. intros account. apply returns_ret. apply Forall_app. split; [done|].
  apply Forall_app. split; [destruct account; by repeat constructor|by repeat constructor].
Qed.

Lemma send_for_batch_keeps amount batch : 0 ≤ amount → keeps (send_for_batch_address args amount batch).
Proof.
  intros Hpos. unfold send_for_batch_address.
  assert (∀ acc address, keeps (add_address args amount acc address)) as Hadd.
  { intros [ixs q] address. unfold add_address. destruct (pubkey_from_str address); [|eauto with keeps].
    apply operator_keeps_bind; eauto with keeps. }
  apply (keeps_bind_post _ _ _ _ _ (λ acc, paying acc)).
  - apply (keeps_fold_post _ _ _ _ _ _ (λ acc, paying acc)); [constructor|]. intros acc address Hacc.
    split; [done|by apply add_address_typed].
  - apply returns_fold; [constructor|]. intros. by apply add_address_typed.
  - intros [ixs q] Hix. apply operator_keeps_bind; [eauto with keeps|]. intros h.
    apply operator_keeps_bind; [|eauto with keeps]. apply operator_keeps_send. by split.
Qed.

Lemma send_batch_moves amount des_path sent batch w :
  0 ≤ amount → moves (send_batch_cmd args amount des_path sent batch) w.
Proof.
  intros Hpos. unfold send_batch_cmd. apply moves_bind; [by apply moves_net, send_for_batch_keeps|].
  intros [[signature qualified]|] w1 _; [|apply moves_ret].
  apply moves_bind; [apply moves_files|intros; apply moves_ret].
Qed.

Lemma mass_send_moves a w : 0 ≤ ms_amount a → moves (mass_send_cmd args a) w.
Proof.
  intros Hpos. unfold mass_send_cmd. apply moves_bind; [apply moves_ask|]. intros addresses w1 _.
  apply moves_bind; [apply moves_ask|]. intros sent w2 _.
  apply moves_bind; [|intros; apply moves_ret]. apply moves_fold. intros. by apply send_batch_moves.
Qed.

Lemma resend_moves a w : 0 ≤ rs_amount a → moves (resend_cmd env args a) w.
Proof.
  intros Hpos. unfold resend_cmd. apply moves_bind; [apply moves_ask|]. intros sent w1 _.
  apply moves_bind; [|intros; apply moves_ret]. apply moves_fold. intros s group w2 _.
  unfold resend_group_cmd. apply moves_bind; [apply moves_net; eauto with keeps|]. intros status w3 _.
  destruct (should_resend status); [by apply send_batch_moves|apply moves_ret].
Qed.

(** *** Files only *)
Lemma write_shards_moves a base fuel entries v w : moves (write_shards a base fuel entries v) w.
Proof.
  revert entries v w. induction fuel as [|fuel IH]; intros [|e entries] v w; cbn [write_shards];
    try apply moves_ret; [apply moves_ask|].
  apply moves_bind; [apply moves_ask|]. intros tree w1 _. apply moves_bind; [apply moves_files|]. intros _ w2 _.
  apply moves_bind; [apply moves_ask|]. intros v' w3 _. apply IH.
Qed.

Lemma create_merkle_tree_moves csv base a w : moves (create_merkle_tree_cmd env args csv base a) w.
Proof.
  unfold create_merkle_tree_cmd. apply moves_bind; [apply moves_ask|]. intros start w1 _.
  apply moves_bind; [apply moves_ask|]. intros entries w2 _.
  apply moves_bind; [apply write_shards_moves|]. intros v w3 _. apply moves_bind; [|intros; apply moves_ask].
  destruct (cm_should_include_test_list a); [|apply moves_ret].
  apply moves_bind; [apply moves_ask|]. intros tree w4 _.
  apply moves_bind; [apply moves_files|intros; apply moves_ask].
Qed.

Lemma generate_kv_proof_moves a w : moves (generate_kv_proof_cmd args a) w.
Proof.
  unfold generate_kv_proof_cmd. apply moves_bind; [apply moves_ask|]. intros entries w1 _.
  apply moves_bind; [|intros s w2 _; case_match; [apply moves_files|apply moves_ret]].
  apply moves_fold. intros s e w2 _. apply moves_tree. intros tree _. apply moves_fold. intros s' n w3 _.
  unfold kv_node_cmd. apply moves_bind; [apply moves_ask|]. intros s'' w4 _.
  apply moves_bind; [case_match; [apply moves_files|apply moves_ret]|intros; apply moves_ret].
Qed.

Lemma aggregate_moves a w : moves (aggregate_cmd a) w.
Proof.
  unfold aggregate_cmd. do 4 (apply moves_bind; [apply moves_ask|]; intros ? ? _).
  apply moves_bind.
  { apply moves_fold. intros inputs market w5 _. apply moves_bind; [|intros; apply moves_ret].
    unfold read_market. apply moves_bind; [apply moves_ask|intros; apply moves_ret]. }
  intros inputs w5 _. apply moves_bind; [apply moves_ask|]. intros merged w6 _. unfold write_aggregate.
  apply moves_bind; [apply moves_files|]. intros _ w7 _.
  apply moves_bind; [apply moves_each; intros; apply moves_files|]. intros _ w8 _.
  apply moves_bind; [apply moves_ask|intros; apply moves_files].
Qed.

(** *** Every command *)

(** The options that reach an instruction or a transfer have their types. *)
Definition command_typed (c : Commands) : Prop :=
  match c with
  | NewDistributor _ da => deploy_args_typed da
  | SetEnableSlot a => is_u64 (ss_slot a)
  | MassSend a => 0 ≤ ms_amount a
  | Resend a => 0 ≤ rs_amount a
  | _ => True
  end.

Lemma main_moves c w : command_typed c → moves (main env args c) w.
Proof.
  intros Hty. destruct c; cbn [main]; simpl in Hty;
    auto using claim_moves, new_distributor_moves, close_distributor_moves, close_claim_status_moves,
      set_enable_slot_moves, set_enable_slot_by_time_moves, fund_all_moves, verify_moves,
      mass_send_moves, resend_moves, generate_kv_proof_moves, aggregate_moves, moves_ignore,
      create_merkle_tree_moves, moves_ask.
  - by apply retry_trees_moves.
  - by apply retry_trees_moves.
  - apply moves_ignore, moves_bind; [apply moves_files|]. intros. apply create_merkle_tree_moves.
  - apply moves_bind; [apply moves_files|]. intros. apply moves_bind; [apply moves_ask|]. intros. apply moves_files.
  - do 2 (apply moves_bind; [apply moves_ask|]; intros ? ? _). apply moves_files.
  - apply moves_bind; [apply moves_ask|]. intros. apply moves_files.
  - do 2 (apply moves_bind; [apply moves_ask|]; intros ? ? _). apply moves_files.
  - apply moves_ignore, clock_moves. intros. apply moves_ask.
  - apply moves_ignore, moves_ask.
  - apply moves_bind; [apply moves_ask|]. intros. apply moves_ask.
  - by apply retry_trees_moves.
  - apply moves_ignore, moves_ask.
Qed.
End operators.

(** ** Sequences of runs *)
Record Run := mkRun {
  run_env : Env;
  run_args : Args;
  run_command : Commands
}.
Definition run_tool (w : World) (r : Run) : World := (main (run_env r) (run_args r) (run_command r) w).1.
Definition tool_runs (runs : list Run) (w : World) : World := foldl run_tool w runs.

(** The operator has a private key and the options have their types. *)
Definition run_ok (r : Run) : Prop := operator_key (arg_payer (run_args r)) ∧ command_typed (run_command r).
Definition operators (runs : list Run) : list Pubkey := map (λ r, arg_payer (run_args r)) runs.

(** Nothing is in flight, and what the network's future holds besides the runs'
    transactions and time is what [others] do. *)
Definition only_others (others : relation State) (net : Network) : Prop :=
  net_pending net = [] ∧
  Forall (λ t, Forall (λ e, match e with Others f => ∀ st, state_ok st → rtc others st (f st) | _ => True end)
                 (ti_events t)) (net_future net).

Lemma only_others_ok payers others net :
  payers ≠ [] → only_others others net → state_ok (net_ledger net) →
  net_ok (acts payers others) state_ok (operator_tx payers) net.
Proof.
  intros Hsome [Hp Hf] Hok. split; [done|by rewrite Hp|]. eapply Forall_impl; [exact Hf|]. intros t Ht.
  eapply Forall_impl; [exact Ht|]. intros [| | | |f]; try done. intros Ho st Hst.
  destruct payers as [|payer l]; [done|].
  eapply rtc_congruence with (f := id); [|by apply Ho]. intros x y Hxy. exists payer.
  split; [apply list_elem_of_here|by apply op_others].
Qed.

Lemma runs_act payers others runs w :
  (∀ payer, payer ∈ payers → operator_key payer) → (∀ st st', others st st' → step any_ix st st') →
  payers ≠ [] → Forall run_ok runs → (∀ r, r ∈ runs → arg_payer (run_args r) ∈ payers) →
  net_ok (acts payers others) state_ok (operator_tx payers) (w_net w) →
  acts payers others (w_ledger w) (w_ledger (tool_runs runs w)).
Proof.
  intros Hkeys Hothers Hsome Hruns. unfold tool_runs. revert w.
  induction Hruns as [|r runs [Hkey Hty] _ IH]; intros w Hin Hok; cbn [foldl]; [apply rtc_refl|].
  destruct (main_moves payers others Hkeys Hothers Hsome (run_args r) (Hin r (list_elem_of_here _ _)) (run_env r)
    (run_command r) w Hty Hok) as [Ha Hok1].
  unfold acts in *. etrans; [exact Ha|]. apply IH; [|done]. intros r' Hr'. apply Hin. by right.
Qed.

(** C21. The tool acts for its operator only.  Whatever commands are run, by
    whatever operators, on whatever files and with whatever answers of the
    network, whenever what they submit is processed or lost, and also when runs
    panic half-way: the ledger moves only by instructions signed by one of the
    operators alone, by the creation of token accounts, by transfers one of the
    operators authorises, by time passing and by what others do meanwhile.  So it
    stays well formed, and when nobody else acts every distributor whose admin
    runs no command still exists, with the same identity and configuration.
    (Nothing is in flight before the first run.) *)
Theorem tool_acts_for_its_operator others runs w :
  (∀ st st', others st st' → step any_ix st st') → Forall run_ok runs → state_ok (w_ledger w) →
  only_others others (w_net w) →
  let st := w_ledger w in
  let st' := w_ledger (tool_runs runs w) in
  rtc (λ s s', ∃ r, r ∈ runs ∧ op_step (arg_payer (run_args r)) others s s') st st' ∧
  steps any_ix st st' ∧ state_ok st' ∧
  ((∀ s s', ¬ others s s') → ∀ k d, st_accounts st !! k = Some (DistributorAcc d) →
     (∀ r, r ∈ runs → arg_payer (run_args r) ≠ md_admin d) →
     ∃ d', st_accounts st' !! k = Some (DistributorAcc d') ∧ same_identity d d' ∧ same_config d d').
Proof.
  intros Hothers Hruns Hok Honly. cbn zeta.
  assert (∀ payer, payer ∈ operators runs → operator_key payer) as Hkeys.
  { intros payer (r & -> & Hr)%list_elem_of_fmap. by eapply Forall_forall in Hruns as [? _]. }
  assert (acts (operators runs) others (w_ledger w) (w_ledger (tool_runs runs w))) as Ha.
  { destruct runs as [|r runs]; [apply rtc_refl|]. apply runs_act; try done.
    - intros r' Hr'. exact (list_elem_of_fmap_2 (λ r, arg_payer (run_args r)) _ _ Hr').
    - by apply only_others_ok. }
  pose proof (acts_steps _ _ Hkeys Hothers _ _ Hok Ha) as Hsteps. split_and!; [|done|by eapply steps_ok|].
  - eapply rtc_subrel; [|exact Ha]. intros s s' (payer & (r & -> & Hr)%list_elem_of_fmap & Hs). by exists r.
  - intros Hno k d Hd Hadm. eapply acts_config; [exact Hkeys|exact Hothers|exact Hno|exact Hok|exact Ha|exact Hd|].
    intros (r & Heq & Hr)%list_elem_of_fmap. by apply (Hadm r Hr).
Qed.
End acts.

(** ** Witness: a list made into a tree, deployed and funded *)
#[local] Existing Instances reference_ata reference_ata_spec raw_parser raw_text borsh_codec json_serde.
#[local] Existing Instances reference_formats reference_formats_spec reference_signatures reference_signatures_spec.

Definition wx_rows : list (string * Z * Z) :=
  [(pubkey_to_string sc_alice, 105, 7); (pubkey_to_string sc_bob, 40, 0)].
Definition wx_csv : Path := ("lists", "list.csv")%string.
Definition wx_create : CreateMerkleTreeArgs := mkCreateMerkleTreeArgs 10 false 0 0 Tokens (Some 1).
Definition wx_env : Env :=
  mkEnv 10 (λ _, false) [] node_answer map_to_list map_to_list (λ _ _, None) (λ _ _, O) (λ _, key 0).
Definition wx_world0 : World :=
  mkWorld (mkNetwork dx_state0 7 [] [] [] [])
    {[ "lists" := {[ "list.csv" := FileNode (csv_write (header_locked :: map record_locked wx_rows)) ]};
       "trees" := ∅ ]}%string.
Definition wx_runs : list Run :=
  [mkRun wx_env dx_args (CreateMerkleTree wx_csv "trees" wx_create);
   mkRun wx_env dx_args (NewDistributor "trees" dx_deploy);
   mkRun wx_env dx_args (FundAll "trees")].

Lemma b32_list_of_list l : length l = 32%nat → b32_list (b32_of_list l) = l.
Proof.
  intros Hl. change (pad32 l = l). unfold pad32. rewrite take_app_le by lia. by apply take_ge; lia.
Qed.
(** An address of the example derivation is a small number; the admin's key is not. *)
Lemma mix_range h bs : 0 ≤ h < 65521 → 0 ≤ mix h bs < 65521.
Proof.
  unfold mix. revert h. induction bs as [|b bs IH]; intros h Hh; simpl; [done|]. apply IH.
  by apply Z.mod_pos_bound.
Qed.
Lemma wx_admin_key : operator_key ADMIN_ID.
Proof.
  intros mint version Heq. apply (f_equal (λ k, from_le_bytes (b32_list k))) in Heq.
  assert (∀ l h, 0 ≤ h < 65521 → 0 ≤ foldl mix h l < 65521) as Hr.
  { induction l as [|bs l IH]; intros h Hh; simpl; [done|]. by apply IH, mix_range. }
  unfold distributor_address, get_merkle_distributor_pda in Heq. cbn [find_program_address example_derivation fst] in Heq.
  unfold digest_address in Heq.
  match type of Heq with _ = from_le_bytes (b32_list (key ?n)) =>
    assert (0 ≤ n < 65521) as Hn by (apply Hr; lia); generalize dependent n end.
  intros n Heq Hn. unfold key in Heq.
  assert (b32_list (b32_of_list (to_le_bytes 32 n)) = to_le_bytes 32 n) as Hb.
  { apply b32_list_of_list, length_to_le_bytes. }
  rewrite Hb, from_to_le_bytes in Heq by (simpl; lia).
  assert (65521 <= from_le_bytes (b32_list ADMIN_ID)) by (vm_compute; congruence). lia.
Qed.

Lemma wx_runs_ok : Forall run_ok wx_runs.
Proof. repeat apply Forall_cons_2; [| | |constructor]; (split; [exact wx_admin_key|done]). Qed.

(** The three runs leave a distributor that is funded once the transfer has landed. *)
Lemma wx_funded :
  match tk_accounts (st_tokens (net_ledger (net_run (w_net (tool_runs wx_runs wx_world0)) [Land 0]))) !! sc_vault with
  | Some vault => ta_amount vault = 152
  | None => False
  end.
Proof. vm_compute. reflexivity. Qed.

Lemma tool_acts_for_its_operator_witness :
  state_ok (w_ledger (tool_runs wx_runs wx_world0)) ∧
  steps any_ix dx_state0 (w_ledger (tool_runs wx_runs wx_world0)).
Proof.
  destruct (tool_acts_for_its_operator (λ _ _, False) wx_runs wx_world0 (λ st st' H, False_ind _ H)
    wx_runs_ok px_state0_ok (conj eq_refl (Forall_nil_2 _))) as (_ & Hsteps & Hok & _).
  split; [exact Hok|exact Hsteps].
Defined.
