(* ===== verification/AirdropRun.v ===== *)
(** * From a list of recipients to the chain, through files

    The commands composed by the files they leave: the trees [create-merkle-tree]
    writes are what [new-distributor], [fund-all] and the server read. *)
From S2P Require Import BTree.
From S2P Require Import Prelude Machine Hashing Sha256 MerkleTree MerkleProof TreeNode Airdrop.
From S2P Require Import ProgramError ClaimStatus Solana Token State Handlers Program Execution.
From S2P Require Import Scenario Safety NoPanic Ledger EndToEnd Layout Api ApiTheorems Startup Aggregate.
From S2P Require Import Sharding ShardingTheorems Network NetworkTheorems Signatures Deploy KvCheck Files DeployTheorems.
From S2P Require Import Funding Commands CommandsTheorems MassSend ListTools Pipeline Tool ToolTheorems.
#[local] Open Scope Z_scope.

(** ** Runs that return *)
Section runs.
Context `{Hasher} `{AddressDerivation} `{TokenProgram} `{AtaProgram} `{PubkeyParser} `{PubkeyText}.
Context `{AccountCodec} `{Serde} `{FileFormats} `{SignatureScheme}.
Implicit Types (args : Args) (w : World).
Abbreviation tool := (io World).

Lemma bind_run {A B} (m : tool A) (f : A → tool B) w w' b :
  (m ≫= f) w = (w', Ok b) → ∃ a w1, m w = (w1, Ok a) ∧ f a w1 = (w', Ok b).
Proof. intros [?|(e & _ & ?)]%io_bind_run; [done|done]. Qed.
Lemma ask_run {A} (f : World → result cli_failure A) w w' a : ask f w = (w', Ok a) → w' = w ∧ f w = Ok a.
Proof. by intros [= <- ->]. Qed.
(** A confirmed transaction changes the ledger only. *)
Definition ledger_only w w' : Prop := w_net w' = set_ledger (w_ledger w') (w_net w) ∧ w_files w' = w_files w.
#[export] Instance ledger_only_preorder : PreOrder ledger_only.
Proof.
  split; [by intros [[] fs]|]. intros w1 w2 w3 [H1' H2'] [H3' H4']. split; [|congruence].
  rewrite H3', H1'. done.
Qed.
Lemma ledger_run f w w' u :
  on_ledger f w = (w', Ok u) → f (w_ledger w) = Ok (w_ledger w') ∧ ledger_only w w'.
Proof. unfold on_ledger. destruct (f (w_ledger w)); [|done]. by intros [= <- _]. Qed.
Lemma files_run f w w' u :
  on_files f w = (w', Ok u) → f (w_files w) = Ok (w_files w') ∧ w_net w' = w_net w.
Proof. unfold on_files. destruct (f (w_files w)); [|done]. by intros [= <- _]. Qed.
Lemma net_call_run {A} (m : io Network A) w w' r :
  on_net m w = (w', r) → m (w_net w) = (w_net w', r) ∧ w_files w' = w_files w.
Proof. unfold on_net. destruct (m (w_net w)). by intros [= <- <-]. Qed.

(** The creation transaction is the one of [deploy_tree]. *)
Lemma creation_run args da tree (missing : bool) st st' :
  run_ixs (arg_payer args) st (creation_ixs args da tree missing) = Some st' →
  ∃ ts, (if missing then expect (create_associated_token_account (st_tokens st) (distributor_of args tree) (arg_mint args))
         else Ok (st_tokens st)) = Ok ts ∧
    process_instruction {[ arg_payer args ]} (set_tokens ts st)
      (new_distributor_ix args da tree (source_vault args)) = Ok st'.
Proof.
  unfold creation_ixs. destruct missing; cbn [app run_ixs run_ix].
  - intros (st1 & (ts & -> & ->)%fmap_Some & Hp)%bind_Some. exists ts. split; [done|].
    destruct (process_instruction _ _ _); [by injection Hp as ->|done].
  - intros Hp. exists (st_tokens st). split; [done|].
    replace (set_tokens (st_tokens st) st) with st by by destruct st.
    destruct (process_instruction _ _ _); [by injection Hp as ->|done].
Qed.

(** The command for one tree is [deploy_tree] when it waits and returns. *)
Lemma deploy_tree_run args da tree w w' :
  da_skip_verify da = false → deploy_tree_cmd args da tree w = (w', Ok tt) →
  deploy_tree args da (w_ledger w) tree = Ok (w_ledger w') ∧ ledger_only w w'.
Proof.
  intros Hskip. unfold deploy_tree_cmd, deploy_tree. intros (st & w1 & [-> [= <-]]%ask_run & Hr)%bind_run.
  destruct (st_accounts (w_ledger w) !! distributor_of args tree) as [account|].
  { apply ask_run in Hr as [-> Hc]. by rewrite Hc. }
  apply bind_run in Hr as ([] & w2 & [Hg Hf2]%ledger_run & Hr).
  apply bind_Ok in Hg as ([k st1] & Hg & [= Hst1]).
  assert (k = source_vault args) as ->.
  { unfold get_or_create_ata in Hg. by apply bind_Ok in Hg as (ts & _ & [= <- _]). }
  rewrite Hskip in Hr |- *.
  apply bind_run in Hr as ([] & w3 & [(ts & Hts & Hp)%expect_Ok%creation_run Hf3]%ledger_run & Hr).
  rewrite Hg. cbn [mbind result_bind]. rewrite Hst1, Hts. cbn [mbind result_bind]. rewrite Hp. cbn [unwrap mbind result_bind].
  apply bind_run in Hr as (st3 & w4 & [-> [= <-]]%ask_run & Hr).
  assert (ledger_only w w3) by by etrans.
  destruct (st_accounts (w_ledger w3) !! _).
  - apply ask_run in Hr as [-> Hc]. by rewrite Hc.
  - by injection Hr as <-.
Qed.

(** A mass send is [process_mass_send] when it returns; the file follows the record. *)
Lemma send_batches_run args amount des sent batches w w' sent' :
  for_fold (send_batch_cmd args amount des) sent batches w = (w', Ok sent') →
  for_fold (send_batch args amount) sent batches (w_net w) = (w_net w', Ok sent').
Proof.
  revert sent w. induction batches as [|b batches IH]; intros sent w; cbn [for_fold]; [by intros [= <- <-]|].
  intros (sent1 & w1 & Hb & Hr%IH)%bind_run. unfold mbind, io_bind.
  assert (send_batch args amount sent b (w_net w) = (w_net w1, Ok sent1)) as ->; [|done].
  unfold send_batch_cmd in Hb. apply bind_run in Hb as (o & w2 & [Hs _]%net_call_run & Hb).
  unfold send_batch, mbind, io_bind. rewrite Hs. destruct o as [[signature qualified]|]; [|by injection Hb as <- <-].
  apply bind_run in Hb as ([] & w3 & [_ Hl]%files_run & [= <- <-]). by rewrite Hl.
Qed.
End runs.

Section files.
Context `{Hasher} `{AddressDerivation} `{!AddressDerivationSpec} `{TokenProgram} `{!TokenProgramSpec}.
Context `{AtaProgram} `{!AtaProgramSpec} `{PubkeyParser} `{PubkeyText} `{!PubkeyTextSpec}.
Context `{AccountCodec} `{Serde} `{FileFormats} `{!FileFormatsSpec} `{SignatureScheme} `{!SignatureSchemeSpec}.
Implicit Types (args : Args) (w : World) (trees : list AirdropMerkleTree) (fs : FS).

(** The trees of a directory, in the order they are read. *)
Definition dir_trees w (dir : string) : list AirdropMerkleTree :=
  omap (λ e, match tree_of_node e.2 with Ok t => Some t | Err _ => None end)
    (default [] (read_dir (w_files w) dir)).

Lemma new_distributor_run args da trees w w' :
  da_airdrop_version da = None → da_skip_verify da = false → Forall tree_typed trees →
  new_distributor_loop args da (map tree_entry trees) w = (w', Ok tt) →
  try_fold (deploy_tree args da) (w_ledger w) trees = Ok (w_ledger w') ∧ ledger_only w w'.
Proof.
  intros Hv Hskip Hty. revert w. induction Hty as [|t trees Ht Hty IH]; intros w; cbn [map new_distributor_loop].
  { by intros [= <-]. }
  rewrite tree_of_entry, Hv by done. cbv iota. intros (existed & w1 & [-> _]%ask_run & Hr)%bind_run.
  apply bind_run in Hr as ([] & w2 & [Hd Hf]%deploy_tree_run & Hr); [|done].
  apply IH in Hr as [Hr Hf']. cbn [try_fold]. rewrite Hd. split; [done|by etrans].
Qed.

Lemma fund_all_run args trees w w' :
  Forall tree_typed trees →
  for_each (λ e, if is_json_file e then tree ← read_tree e; on_net (fund_tree args tree)
                 else mret tt) (map tree_entry trees) w = (w', Ok tt) →
  process_fund_all args trees (w_net w) = (w_net w', Ok tt) ∧ w_files w' = w_files w.
Proof.
  intros Hty. unfold process_fund_all. revert w.
  induction Hty as [|t trees Ht Hty IH]; intros w; cbn [map for_each]; [by intros [= <-]|].
  intros ([] & w1 & Hf & Hr)%bind_run. unfold is_json_file, tree_entry in Hf. cbn [fst snd] in Hf.
  rewrite tree_name_extension in Hf. simpl in Hf.
  apply bind_run in Hf as (t' & w2 & [-> Ht']%ask_run & [Hf Hfs]%net_call_run).
  cbn [snd tree_of_node] in Ht'. rewrite tree_roundtrip in Ht' by done. injection Ht' as <-.
  apply IH in Hr as [Hr Hfs']. unfold mbind, io_bind. rewrite Hf. split; [done|congruence].
Qed.

(** ** The files of the trees *)
Definition add_tree (entries : gmap string Node) (t : AirdropMerkleTree) : gmap string Node :=
  <[(tree_entry t).1 := (tree_entry t).2]> entries.

(** The trees were written into [base], one after the other. *)
Definition wrote (base : string) trees fs fs' : Prop :=
  ∀ entries, fs !! base = Some entries → fs' !! base = Some (foldl add_tree entries trees).

Lemma wrote_app base t1 t2 fs1 fs2 fs3 :
  wrote base t1 fs1 fs2 → wrote base t2 fs2 fs3 → wrote base (t1 ++ t2) fs1 fs3.
Proof. intros H1' H2' entries He. rewrite foldl_app. by apply H2', H1'. Qed.

Lemma write_tree_run base t v w w' :
  at_airdrop_version t = v → write_tree base t v w = (w', Ok tt) →
  wrote base [t] (w_files w) (w_files w') ∧ w_net w' = w_net w.
Proof.
  intros Hv. unfold write_tree. intros [Hw Hl]%files_run. split; [|done]. unfold write_to_file, write_file in Hw. cbn [fst snd] in Hw.
  apply expect_Ok, bind_Some in Hw as (entries & He & Hw). intros entries' He'.
  assert (entries' = entries) as -> by congruence.
  destruct (entries !! tree_name v) as [[c|]|]; [|done|]; injection Hw as <-; rewrite fs_insert_eq;
    unfold add_tree; cbn [foldl tree_entry fst snd]; by rewrite Hv.
Qed.

Lemma added_entries entries trees :
  NoDup (map at_airdrop_version trees) →
  (∀ t, t ∈ trees → entries !! tree_name (at_airdrop_version t) = None) →
  map_to_list (foldl add_tree entries trees) ≡ₚ map_to_list entries ++ map tree_entry trees.
Proof.
  revert entries. induction trees as [|t trees IH]; intros entries; simpl; [by rewrite app_nil_r|].
  intros [Hnew Hnd]%NoDup_cons Hfree. rewrite IH; [|done|].
  - unfold add_tree. rewrite map_to_list_insert by (apply Hfree; set_solver). simpl.
    by rewrite <- Permutation_middle.
  - intros t' Ht'. unfold add_tree. cbn [tree_entry fst snd]. rewrite lookup_insert_ne; [apply Hfree; set_solver|].
    intros Heq%(inj tree_name). apply Hnew. rewrite Heq. by apply list_elem_of_fmap_2.
Qed.

Lemma wrote_holds base trees fs fs' :
  fs !! base = Some ∅ → wrote base trees fs fs' → NoDup (map at_airdrop_version trees) →
  holds_trees fs' base trees.
Proof.
  intros He Hw Hnd. eexists. split; [by apply Hw|]. rewrite added_entries; [by rewrite map_to_list_empty|done|].
  intros t _. apply lookup_empty.
Qed.

(** ** create-merkle-tree *)
Section create.
Context (env : Env) (args : Args) (a : CreateMerkleTreeArgs) (base : string).
Context (Hdec : 0 ≤ cm_decimals a) (Hamount : is_u64 (cm_amount a)).
Context (Hmax : Z.of_nat (cm_max_nodes_per_tree a) ≤ 2 ^ 32 - 1).

Lemma make_tree_typed chunk v t :
  Forall csv_entry_wf chunk → Z.of_nat (length chunk) ≤ 2 ^ 32 - 1 → is_u64 v →
  make_tree a chunk v = Ok t → tree_typed t ∧ at_airdrop_version t = v.
Proof.
  intros Hwf Hlen Hv Hm. pose proof (make_tree_spec a Hdec chunk v Hwf Hlen) as Hs.
  rewrite Hm in Hs. destruct Hs as (_ & (rows & Hrows & Hok) & <-). split; [|done]. split_and!; [done|..].
  - eapply tree_count; [|exact Hok]. by rewrite <- (Forall2_length _ _ _ Hrows).
  - apply (ao_total _ _ _ Hok).
  - apply Forall_forall. intros n Hn. by destruct (ao_amounts _ _ _ Hok n Hn) as (_ & _ & ?).
Qed.

Lemma next_version_Ok v v' : next_version v = Ok v' → v' = v + 1 ∧ v + 1 ≤ U64_MAX.
Proof. unfold next_version, checked_add_u64. case_match; zbool; [|done]. intros [= <-]. done. Qed.

Lemma of_tree_Ok {A} (r : result tree_error A) x : of_tree r = Ok x → r = Ok x.
Proof. destruct r as [|[]]; simpl; congruence. Qed.

Lemma of_loop_Ok {A} (r : result loop_error A) x : of_loop r = Ok x → r = Ok x.
Proof. destruct r as [|[]]; simpl; congruence. Qed.

Lemma write_shards_run fuel entries v w w' v' :
  Forall csv_entry_wf entries → 0 ≤ v → write_shards a base fuel entries v w = (w', Ok v') →
  ∃ trees, shard_loop a fuel entries v = Ok (trees, v') ∧ Forall tree_typed trees ∧
    wrote base trees (w_files w) (w_files w') ∧ w_net w' = w_net w ∧ v ≤ v'.
Proof.
  revert entries v w. induction fuel as [|fuel IH]; intros [|e entries] v w Hwf Hv; cbn [write_shards];
    [|by intros [_ ?]%ask_run| |].
  1, 2: intros [= <- <-]; exists []; split_and!; [done|constructor|by intros entries|done|lia].
  set (l := e :: entries) in *. cbn [shard_loop]. fold l.
  change (match l with [] => _ | _ => ?x end) with x.
  set (n := Nat.min (cm_max_nodes_per_tree a) (length l)).
  intros (t & w1 & [-> Ht%of_tree_Ok]%ask_run & Hr)%bind_run.
  apply bind_run in Hr as ([] & w2 & Hwr & Hr).
  apply bind_run in Hr as (v1 & w3 & [-> Hv1%of_tree_Ok]%ask_run & Hr).
  destruct (next_version_Ok _ _ Hv1) as [-> Hle].
  destruct (make_tree_typed (take n l) v t) as [Hty Hver]; [by apply Forall_take| |zlia|done|].
  { rewrite length_take. lia. }
  apply write_tree_run in Hwr as [Hw1 Hl1]; [|done].
  apply IH in Hr as (trees & Hs & Htys & Hw2 & Hl2 & Hle2); [|by apply Forall_drop|lia].
  exists (t :: trees). rewrite Ht. cbn [mbind result_bind]. rewrite Hv1. cbn [mbind result_bind]. rewrite Hs.
  split_and!; [done|by constructor| |congruence|lia]. by apply (wrote_app base [t] trees _ _ _ Hw1).
Qed.

Lemma start_version_nonneg probe v :
  0 ≤ default 0 (cm_start_airdrop_version a) → start_version (env_fuel env) probe (arg_mint args) a = Ok v → 0 ≤ v.
Proof.
  unfold start_version. intros Hs. destruct (cm_start_airdrop_version a) as [s|]; [intros [= <-]; simpl in Hs; lia|].
  case_bool_decide; [by intros [= <-]|]. intros ([v'|] & Hf & [= <-])%bind_Ok; [|done].
  apply find_version_sound in Hf as (? & _). simpl. lia.
Qed.

Lemma without_test_list_wf entries : Forall csv_entry_wf entries → Forall csv_entry_wf (without_test_list a entries).
Proof.
  intros Hwf. unfold without_test_list. destruct (cm_should_include_test_list a); [|done].
  apply Forall_forall. intros e [_ He]%list_elem_of_filter. by eapply Forall_forall in Hwf.
Qed.

Lemma create_run csv w w' last :
  0 ≤ default 0 (cm_start_airdrop_version a) → w_files w !! base = Some ∅ →
  create_merkle_tree_cmd env args csv base a w = (w', Ok last) →
  ∃ entries start trees, CsvEntry_new_from_file (w_files w) csv = Ok entries ∧ Forall csv_entry_wf entries ∧
    create_merkle_trees a (length entries) entries start = Ok (trees, last) ∧
    Forall tree_typed trees ∧ holds_trees (w_files w') base trees ∧ w_net w' = w_net w.
Proof.
  intros Hs Hbase (start & w1 & [-> Hstart]%ask_run & Hr)%bind_run.
  assert (0 ≤ start) as Hpos.
  { eapply start_version_nonneg; [done|]. by apply of_loop_Ok. }
  apply bind_run in Hr as (entries & w2 & [-> He%of_tree_Ok]%ask_run & Hr).
  assert (Forall csv_entry_wf entries) as Hwf.
  { unfold CsvEntry_new_from_file in He. apply bind_Ok in He as (c & _ & He).
    destruct (csv_entries c) eqn:Hc; simplify_eq/=. by eapply csv_entries_typed. }
  apply bind_run in Hr as (v & w3 & Hw & Hr).
  apply write_shards_run in Hw as (trees & Hshard & Hty & Hw3 & Hl3 & Hv); [|by apply without_test_list_wf|done].
  apply bind_run in Hr as (v2 & w4 & Htest & [-> Hlast%expect_Ok]%ask_run).
  assert (∃ extra, Forall tree_typed extra ∧ wrote base extra (w_files w3) (w_files w4) ∧
    w_net w4 = w_net w3 ∧
    create_merkle_trees a (length entries) entries start = Ok (trees ++ extra, last))
    as (extra & Htye & Hw4 & Hl4 & Hcreate).
  { unfold create_merkle_trees. rewrite Hshard. cbn [mbind result_bind].
    destruct (cm_should_include_test_list a).
    - apply bind_run in Htest as (t & w5 & [-> Ht%of_tree_Ok]%ask_run & Htest).
      apply bind_run in Htest as ([] & w6 & Hwr & [-> Hv2%of_tree_Ok]%ask_run).
      destruct (next_version_Ok _ _ Hv2) as [-> Hle].
      destruct (make_tree_typed (test_list_entries a) v t) as [Htyt Hver];
        [by apply test_list_wf|simpl; lia|zlia|done|].
      apply write_tree_run in Hwr as [Hwr Hlw]; [|done]. exists [t].
      split_and!; [by constructor|done|done|]. rewrite Ht. cbn [mbind result_bind]. rewrite Hv2.
      cbn [mbind result_bind]. by rewrite Hlast.
    - injection Htest as <- <-. exists []. split_and!; [constructor|by intros m|done|].
      cbn [mbind result_bind]. by rewrite Hlast, app_nil_r. }
  exists entries, start, (trees ++ extra).
  split_and!; [done|done|done|by apply Forall_app| |congruence].
  eapply wrote_holds; [exact Hbase|by eapply wrote_app|].
  pose proof (create_merkle_trees_spec a Hdec Hamount Hmax _ entries start Hwf (le_n _)) as Hspec.
  rewrite Hcreate in Hspec. destruct Hspec as (_ & chunks & _ & _ & [_ ->] & _).
  apply NoDup_fmap_2; [|apply NoDup_ListNoDup, seq_NoDup]. intros x y. lia.
Qed.
End create.

(** ** The whole path *)
Section path.
Context (env : Env) (args : Args) (a : CreateMerkleTreeArgs) (da : DeployArgs).
Context (csv : Path) (base : string) (w0 w1 w2 w3 : World) (last : Z) (entries : list CsvEntry).
Context (events : list net_event).
(** The options have their types; the deployment covers every tree and is checked. *)
Context (Hdec : 0 ≤ cm_decimals a) (Hamount : is_u64 (cm_amount a)).
Context (Hmax : Z.of_nat (cm_max_nodes_per_tree a) ≤ 2 ^ 32 - 1).
Context (Hstart : 0 ≤ default 0 (cm_start_airdrop_version a)).
Context (Hall : da_airdrop_version da = None) (Hcheck : da_skip_verify da = false).
(** The list, and a directory that is empty before. *)
Context (Hcsv : CsvEntry_new_from_file (w_files w0) csv = Ok entries).
Context (Hempty : w_files w0 !! base = Some ∅).
(** The three commands return. *)
Context (Hcreate : create_merkle_tree_cmd env args csv base a w0 = (w1, Ok last)).
Context (Hdeploy : new_distributor_cmd args base da w1 = (w2, Ok tt)).
Context (Hfund : fund_all_cmd args base w2 = (w3, Ok tt)).
(** Nothing is in flight before, nobody else acts, and in the end the funding
    transfers have landed. *)
Context (Hquiet : quiet (w_net w0)) (Hpending : net_pending (w_net w0) = []).
Context (Hevents : Forall quiet_event events) (Hsettled : settled (w_net w2) (net_run (w_net w3) events)).
Abbreviation ledger := (net_ledger (net_run (w_net w3) events)).
(** The vaults of the trees are distinct, and none is the payer's account. *)
Context (Hvaults : NoDup (map (vault_address args) (dir_trees w1 base))).
Context (Hsource : source_vault args ∉ map (vault_address args) (dir_trees w1 base)).

Lemma path_trees :
  ∃ start trees, create_merkle_trees a (length entries) entries start = Ok (trees, last) ∧
    Forall csv_entry_wf entries ∧ Forall tree_typed trees ∧ dir_trees w1 base ≡ₚ trees ∧
    w_net w1 = w_net w0 ∧
    read_dir (w_files w1) base = Some (map tree_entry (dir_trees w1 base)) ∧
    omap tree_of_file (map tree_file (map tree_entry (dir_trees w1 base))) = dir_trees w1 base.
Proof.
  destruct (create_run env args a base Hdec Hamount Hmax csv w0 w1 last Hstart Hempty Hcreate)
    as (entries' & start & trees & He & Hwf & Hc & Hty & Hholds & Hnet).
  assert (entries' = entries) as -> by congruence. exists start, trees.
  destruct (holds_trees_read _ _ _ Hty Hholds) as (l & trees' & Hl & Hp & -> & Htrees & _ & Hserver).
  assert (dir_trees w1 base = trees') as Hdir.
  { unfold dir_trees. rewrite Hl. simpl.
    assert (Forall tree_typed trees') as Hty' by (by rewrite Hp). clear -Hty' H13.
    induction Hty' as [|t l Ht _ IH]; [done|]. cbn [map omap list_omap]. rewrite tree_of_entry by done. by f_equal. }
  rewrite Hdir. by split_and!.
Qed.

Lemma path_runs :
  Forall tree_typed (dir_trees w1 base) →
  read_dir (w_files w1) base = Some (map tree_entry (dir_trees w1 base)) →
  try_fold (deploy_tree args da) (w_ledger w1) (dir_trees w1 base) = Ok (w_ledger w2) ∧
  process_fund_all args (dir_trees w1 base) (w_net w2) = (w_net w3, Ok tt) ∧
  w_net w2 = set_ledger (w_ledger w2) (w_net w1) ∧ w_files w3 = w_files w1.
Proof.
  intros Hty Hl. unfold new_distributor_cmd, fund_all_cmd, tree_dir in *.
  apply bind_run in Hdeploy as (l & w' & [-> Hr]%ask_run & Hd). rewrite Hl in Hr. injection Hr as <-.
  apply new_distributor_run in Hd as [Hd [Hn2 Hf2]]; [|done..].
  apply bind_run in Hfund as (l & w' & [-> Hr]%ask_run & Hf). rewrite Hf2, Hl in Hr. injection Hr as <-.
  apply fund_all_run in Hf as [Hf Hf3]; [|done]. split_and!; [done|done|done|congruence].
Qed.

(** The trees on disk are deployed with the options and funded. *)
Lemma path_ledger tree :
  tree ∈ dir_trees w1 base → ∃ d, get_distributor ledger (distributor_of args tree) = Some d ∧
    parameters_match d tree da (arg_payer args) ∧
    (md_clawed_back d = true ∨
     ∃ vault, tk_accounts (st_tokens ledger) !! vault_address args tree = Some vault ∧
       at_max_total_claim tree - md_total_amount_claimed d ≤ ta_amount vault).
Proof.
  intros Ht. destruct path_trees as (start & trees & _ & _ & Hty & Hp & Hnet & Hl & _).
  destruct path_runs as (Hd & Hf & Hn2 & _); [by rewrite Hp|done|].
  destruct (process_fund_all_settled args (dir_trees w1 base) (w_net w2) (w_net w3) events)
    as [(landed & Hflow & _) Hfunded]; try done; [by rewrite Hn2, Hnet|by rewrite Hn2, Hnet|].
  destruct (Hfunded tree Ht) as (d & Hgd & Hcov). exists d. split; [done|].
  apply deploy_all in Hd as [_ Hdep]; [|done]. destruct (Hdep tree Ht) as (account & Hac & Hc).
  assert (account = DistributorAcc d) as ->.
  { apply get_distributor_Some in Hgd. rewrite (fl_accounts _ _ _ Hflow) in Hgd. unfold w_ledger in Hac. congruence. }
  apply check_distributor_onchain_matches_Ok in Hc as [Hm _]. split; [done|].
  destruct Hcov as [?|(_ & ?)]; [by left|by right].
Qed.

(** What a node owes to the rows of its chunk of the list: exactly the sums of the
    rows of its key. *)
Definition entitled (chunk : list CsvEntry) (n : TreeNode) : Prop :=
  ∃ rows, Forall2 (λ e m, TreeNode_from_csv e (cm_decimals a) (cm_csv_amount_unit a) = Ok m) chunk rows ∧
    tn_claimant n ∈ map tn_claimant rows ∧
    tn_amount n = amount_for (tn_claimant n) rows ∧ locked_amount_of n = locked_for (tn_claimant n) rows.

(** The node and the proof of a row of the chunk its tree was built from. *)
Lemma row_node chunk tree e :
  Forall csv_entry_wf chunk → tree_for a chunk tree → e ∈ chunk →
  ∃ n proof, n ∈ at_tree_nodes tree ∧
    pubkey_from_str (ce_pubkey e) = Some (tn_claimant n) ∧ tn_proof n = Some proof ∧
    verify proof (at_merkle_root tree) (claim_leaf (tn_claimant n) (tn_amount n) (locked_amount_of n)) = true.
Proof.
  intros Hwfc (rows & Hrows & Hok) He.
  destruct (converted_wf a Hdec chunk rows Hwfc Hrows) as [_ Hkeys].
  destruct (Forall2_elem_l _ _ _ e Hkeys He) as (m & Hm & Hkey).
  assert (tn_claimant m ∈ map tn_claimant (at_tree_nodes tree)) as Hin.
  { apply (ao_claimants _ _ _ Hok). by apply list_elem_of_fmap_2. }
  apply list_elem_of_fmap in Hin as (n & Hnm & Hn).
  destruct (ao_proofs _ _ _ Hok n Hn) as (proof & Hproof & Hv & _).
  exists n, proof. rewrite claim_leaf_of_node, <- Hnm. by split_and!.
Qed.

Lemma tree_for_entitled chunk tree n : tree_for a chunk tree → n ∈ at_tree_nodes tree → entitled chunk n.
Proof.
  intros (rows & Hrows & Hok) Hn. destruct (ao_amounts _ _ _ Hok n Hn) as (Ha & Hl & _).
  exists rows. split_and!; [done| |done|done]. apply (ao_claimants _ _ _ Hok). by apply list_elem_of_fmap_2.
Qed.

(** What a server started on the directory answers. *)
Lemma served_row tree n proof key :
  tree ∈ dir_trees w1 base → n ∈ at_tree_nodes tree → pubkey_from_str key = Some (tn_claimant n) →
  tn_proof n = Some proof →
  ∀ sargs s files,
    files ≡ₚ map tree_file (default [] (read_dir (w_files w1) base)) →
    start_server sargs files = Ok s →
    sa_program_id sargs = arg_program_id args → sa_mint sargs = arg_mint args →
    claimants_distinct (dir_trees w1 base) →
    get_user_info s key =
      Ok (mkUserProof (pubkey_to_string (distributor_of args tree)) (tn_amount n) (locked_amount_of n) proof).
Proof.
  intros Ht Hn Hkey Hproof sargs s files Hperm Hs Hpid Hmint Hdist.
  destruct path_trees as (start & trees & _ & _ & _ & _ & _ & Hl & Hserver). rewrite Hl in Hperm. simpl in Hperm.
  unfold start_server in Hs. rewrite Hpid, Hmint in Hs.
  destruct (load_trees_order (arg_program_id args) (arg_mint args) (omap tree_of_file files)
    (dir_trees w1 base)) as [Htree _].
  { rewrite <- Hserver. by rewrite Hperm. }
  { unfold claimants_distinct in *. rewrite <- Hserver in Hdist. by rewrite Hperm. }
  destruct (load_trees _ _ (omap tree_of_file files)) as [ds m]. simpl in Htree.
  apply bind_Ok in Hs as (users & _ & (pct & _ & [= <-])%bind_Ok).
  unfold get_user_info, get_user_proof. simpl. rewrite Hkey. cbn [ok_or mbind result_bind].
  rewrite Htree, (loaded_node (arg_program_id args) (arg_mint args) (dir_trees w1 base) Hdist
    (distributor_of args tree, n)).
  - cbn [ok_or mbind result_bind fst snd]. by rewrite Hproof.
  - apply list_elem_of_In, in_concat. eexists. rewrite in_map_iff. split; [eexists; split; [done|]|].
    + by apply list_elem_of_In.
    + apply in_map_iff. exists n. split; [done|]. by apply list_elem_of_In.
Qed.

(** C3. From the list to the chain and to the server.  A list of recipients is
    made into trees, the trees are deployed (waiting for each) and the vaults
    funded, by the three commands, each reading the files the one before left;
    nothing of the operator's was in flight, nobody else acts, and the submitted
    transfers have landed.  Then the rows of the list (without the test wallets,
    when those get a tree of their own) are cut into consecutive chunks, the trees
    on disk are one for each chunk (and the test tree), and every node of a
    chunk's tree has exactly the sums of its key's rows in that chunk.  Every row
    has a node for its key in its chunk's tree, and that tree's distributor is on
    the ledger with the tree's root and totals, the command's schedule, and the
    payer as admin, with a vault that covers what can still be claimed unless it
    was clawed back; the node's proof is accepted against that root; and a server
    started on the directory, whatever the order it loads the files in, answers a
    request for the row's key with that distributor, those amounts and that
    proof, if no key is in two trees. *)
Theorem list_to_chain_and_server :
  ∃ chunks trees, concat chunks = without_test_list a entries ∧
    Forall (λ c, 0 < length c ≤ cm_max_nodes_per_tree a)%nat chunks ∧
    dir_trees w3 base ≡ₚ trees ∧
    length trees = (length chunks + if cm_should_include_test_list a then 1 else 0)%nat ∧
    ∀ i chunk tree, chunks !! i = Some chunk → trees !! i = Some tree →
      (∀ n, n ∈ at_tree_nodes tree → entitled chunk n) ∧
      ∀ e, e ∈ chunk → ∃ n proof d, n ∈ at_tree_nodes tree ∧
        pubkey_from_str (ce_pubkey e) = Some (tn_claimant n) ∧
        get_distributor ledger (distributor_of args tree) = Some d ∧
        parameters_match d tree da (arg_payer args) ∧
        (md_clawed_back d = true ∨
         ∃ vault, tk_accounts (st_tokens ledger) !! vault_address args tree = Some vault ∧
           at_max_total_claim tree - md_total_amount_claimed d ≤ ta_amount vault) ∧
        verify proof (md_root d) (claim_leaf (tn_claimant n) (tn_amount n) (locked_amount_of n)) = true ∧
        ∀ sargs s files,
          files ≡ₚ map tree_file (default [] (read_dir (w_files w3) base)) →
          start_server sargs files = Ok s →
          sa_program_id sargs = arg_program_id args → sa_mint sargs = arg_mint args →
          claimants_distinct (dir_trees w3 base) →
          get_user_info s (ce_pubkey e) =
            Ok (mkUserProof (pubkey_to_string (distributor_of args tree)) (tn_amount n) (locked_amount_of n) proof).
Proof.
  destruct path_trees as (start & trees & Hc & Hwf & Hty & Hp & _ & Hl & _).
  destruct path_runs as (_ & _ & _ & Hfs); [by rewrite Hp|done|].
  assert (dir_trees w3 base = dir_trees w1 base) as Hdir by (unfold dir_trees; by rewrite Hfs).
  pose proof (create_merkle_trees_spec a Hdec Hamount Hmax _ entries start Hwf (le_n _)) as Hspec.
  rewrite Hc in Hspec. destruct Hspec as (_ & chunks & Hcat & Hsizes & [Hf _] & _).
  exists chunks, trees. rewrite Hdir. split_and!; [done|done|done| |].
  { rewrite <- (Forall2_length _ _ _ Hf), length_app. by destruct (cm_should_include_test_list a). }
  intros i chunk tree Hi Ht.
  assert (tree_for a chunk tree) as Hfor.
  { eapply Forall2_lookup_lr; [exact Hf| |exact Ht]. by apply lookup_app_l_Some. }
  split; [intros n; by apply tree_for_entitled|]. intros e He.
  assert (Forall csv_entry_wf chunk) as Hwfc.
  { apply Forall_forall. intros x Hx. assert (x ∈ without_test_list a entries) as Hxin.
    { rewrite <- Hcat. apply list_elem_of_In, in_concat. exists chunk.
      split; apply list_elem_of_In; [by eapply list_elem_of_lookup_2|done]. }
    eapply Forall_forall in Hxin; [exact Hxin|by apply without_test_list_wf]. }
  destruct (row_node chunk tree e Hwfc Hfor He) as (n & proof & Hn & Hkey & Hproof & Hv).
  assert (tree ∈ dir_trees w1 base) as Hin by (rewrite Hp; by eapply list_elem_of_lookup_2).
  destruct (path_ledger tree Hin) as (d & Hgd & Hpar & Hcov). exists n, proof, d.
  split_and!; try done; [by destruct Hpar as (-> & _)|]. rewrite Hfs. by apply served_row.
Qed.
End path.
End files.

(** ** Witness *)
#[local] Existing Instances reference_ata reference_ata_spec raw_parser raw_text raw_text_spec.
#[local] Existing Instances borsh_codec json_serde reference_formats reference_formats_spec.
#[local] Existing Instances reference_signatures reference_signatures_spec.

Definition wx_entries : list CsvEntry :=
  map (λ r : string * Z * Z, mkCsvEntry r.1.1 r.1.2 (Some r.2)) wx_rows.
Definition wx_world1 : World := (create_merkle_tree_cmd wx_env dx_args wx_csv "trees" wx_create wx_world0).1.
Definition wx_world2 : World := (new_distributor_cmd dx_args "trees" dx_deploy wx_world1).1.
Definition wx_world3 : World := (fund_all_cmd dx_args "trees" wx_world2).1.

Lemma run_pair {A} (m : io World A) w r : (m w).2 = r → m w = ((m w).1, r).
Proof. destruct (m w). by intros <-. Qed.

Lemma wx_read : CsvEntry_new_from_file (w_files wx_world0) wx_csv = Ok wx_entries.
Proof. vm_compute. reflexivity. Qed.
Lemma wx_created : create_merkle_tree_cmd wx_env dx_args wx_csv "trees" wx_create wx_world0 = (wx_world1, Ok 1).
Proof. unfold wx_world1. apply run_pair. vm_compute. reflexivity. Qed.
Lemma wx_deployed : new_distributor_cmd dx_args "trees" dx_deploy wx_world1 = (wx_world2, Ok tt).
Proof. unfold wx_world2. apply run_pair. vm_compute. reflexivity. Qed.
Lemma wx_paid : fund_all_cmd dx_args "trees" wx_world2 = (wx_world3, Ok tt).
Proof. unfold wx_world3. apply run_pair. vm_compute. reflexivity. Qed.
Lemma wx_vaults : NoDup (map (vault_address dx_args) (dir_trees wx_world1 "trees")).
Proof. apply (bool_decide_unpack _). vm_compute. exact I. Qed.
Lemma wx_source : source_vault dx_args ∉ map (vault_address dx_args) (dir_trees wx_world1 "trees").
Proof. apply (bool_decide_unpack _). vm_compute. exact I. Qed.
Lemma wx_settled : settled (w_net wx_world2) (net_run (w_net wx_world3) [Land 0]).
Proof.
  split; [vm_compute; reflexivity|].
  assert (Forall (λ tx, (signature_of tx, true) ∈ net_log (net_run (w_net wx_world3) [Land 0]))
    (drop (length (net_sent (w_net wx_world2))) (net_sent (net_run (w_net wx_world3) [Land 0])))) as Hall
    by (apply (bool_decide_unpack _); vm_compute; exact I).
  exact (proj1 (Forall_forall _ _) Hall).
Qed.

Lemma list_to_chain_and_server_witness :
  ∃ chunks trees, concat chunks = wx_entries ∧ dir_trees wx_world3 "trees" ≡ₚ trees ∧
    length trees = length chunks ∧
    ∀ i chunk tree, chunks !! i = Some chunk → trees !! i = Some tree →
      ∀ n, n ∈ at_tree_nodes tree → entitled wx_create chunk n.
Proof.
  destruct (list_to_chain_and_server wx_env dx_args wx_create dx_deploy wx_csv "trees" wx_world0 wx_world1
    wx_world2 wx_world3 1 wx_entries [Land 0] ltac:(vm_compute; congruence) ltac:(vm_compute; intuition congruence)
    ltac:(vm_compute; congruence) ltac:(vm_compute; congruence) eq_refl eq_refl wx_read eq_refl wx_created
    wx_deployed wx_paid ltac:(constructor) eq_refl ltac:(repeat constructor) wx_settled wx_vaults wx_source)
    as (chunks & trees & Hcat & _ & Hp & Hlen & Hall).
  exists chunks, trees. split; [exact Hcat|]. split; [exact Hp|].
  split; [exact (eq_trans Hlen (Nat.add_0_r _))|].
  intros i chunk tree Hc Ht. exact (proj1 (Hall i chunk tree Hc Ht)).
Defined.
