(* ===== verification/AggregateFiles.v ===== *)
(** * The files of the aggregation
    (src/cli/src/bin/instructions/process_aggregate_if_csvs.rs:
    [process_aggregate_if_csvs], on the files it reads and writes)

    What the merged lists and the merged configuration contain when they are read
    back, and that aggregating them again changes nothing. *)
From S2P Require Import BTree.
From S2P Require Import Prelude Machine Hashing MerkleTree TreeNode Airdrop Solana State Api.
From S2P Require Import Sha256 Scenario Aggregate Sharding Startup Network NetworkTheorems.
From S2P Require Import Deploy DeployTheorems KvCheck Files Layout Commands MassSend ListTools Token Program Tool AirdropRun.
From stdpp Require Import pretty.
#[local] Open Scope Z_scope.

(** ** Names of the lists *)

(** The digits a text begins with. *)
Fixpoint digits (s : string) : string :=
  match s with
  | EmptyString => EmptyString
  | String.String c s =>
      match digit_of c with Some _ => String.String c (digits s) | None => EmptyString end
  end.

Lemma digits_pretty_go (x : N) s : digits s = s → digits (pretty_N_go x s) = pretty_N_go x s.
Proof.
  revert s. induction (N.lt_wf_0 x) as [x _ IH]; intros s Hs.
  destruct (decide (x = 0)%N) as [-> |Hne]; [by rewrite pretty_N_go_0|].
  rewrite pretty_N_go_step by lia. apply IH; [apply N.div_lt; lia|].
  cbn [digits]. rewrite digit_of_char by (by apply N.mod_lt). by rewrite Hs.
Qed.
Lemma digits_app (s t : string) : digits s = s → digits t = ""%string → digits (s +:+ t) = s.
Proof.
  intros Hs Ht. induction s as [|c s IH]; [done|]. cbn [digits] in Hs. change (String.String c s +:+ t) with (String.String c (s +:+ t)).
  cbn [digits]. destruct (digit_of c); [|done]. injection Hs as Hs. by rewrite IH.
Qed.
Lemma digits_csv_name index symbol : 0 ≤ index → digits (csv_name index symbol) = pretty index.
Proof.
  intros Hi. unfold csv_name. apply digits_app; [|done].
  destruct index as [|p|p]; [done| |lia]. by apply (digits_pretty_go (N.pos p)).
Qed.
Lemma csv_name_index i j s t : 0 ≤ i → 0 ≤ j → csv_name i s = csv_name j t → i = j.
Proof.
  intros Hi Hj Heq. apply (f_equal digits) in Heq. rewrite !digits_csv_name in Heq by done.
  by apply (inj pretty) in Heq.
Qed.

(** ** Aggregating merged lists *)
Section again.
Context `{PubkeyParser}.
Implicit Types (inputs : list (IfMarket * list CsvEntry)) (merged : list MergedMint).

(** The merged configuration: one market per mint, with its merged list. *)
Definition merged_market (m : MergedMint) : IfMarket := mkIfMarket (mm_index m) (mm_symbol m) (mm_mint m).
Definition merged_input (m : MergedMint) : IfMarket * list CsvEntry := (merged_market m, mm_entries m).
Definition own_source (m : MergedMint) : MergedMint :=
  mkMergedMint (mm_mint m) (mm_symbol m) (mm_index m) [mm_index m] (mm_entries m).

Lemma mint_input merged m :
  NoDup (map mm_mint merged) → m ∈ merged →
  filter (λ i, im_mint i.1 = mm_mint m) (map merged_input merged) = [merged_input m].
Proof.
  induction merged as [|m' merged IH]; intros Hnd Hm; [by apply elem_of_nil in Hm|].
  cbn [map] in *. apply NoDup_cons in Hnd as [Hnew Hnd]. rewrite filter_cons. cbn [fst merged_input merged_market im_mint].
  apply elem_of_cons in Hm as [-> |Hm].
  - rewrite decide_True by done. f_equal. clear IH. induction merged as [|x merged IH]; [done|].
    cbn [map] in *. rewrite filter_cons. cbn [fst merged_input merged_market im_mint].
    apply not_elem_of_cons in Hnew as [Hx Hnew]. apply NoDup_cons in Hnd as [_ Hnd].
    rewrite decide_False by congruence. by apply IH.
  - rewrite decide_False; [by apply IH|]. intros Heq. apply Hnew. rewrite Heq. by apply list_elem_of_fmap_2.
Qed.

Lemma rows_of_merged merged m :
  NoDup (map mm_mint merged) → m ∈ merged → rows_of (mm_mint m) (map merged_input merged) = mm_entries m.
Proof. intros Hnd Hm. unfold rows_of. rewrite mint_input by done. simpl. apply app_nil_r. Qed.

Lemma sums_of_distinct rows e :
  NoDup (map ce_pubkey rows) → e ∈ rows →
  amount_of (ce_pubkey e) rows = ce_amount e ∧ locked_of (ce_pubkey e) rows = default 0 (ce_locked_amount e).
Proof.
  intros Hnd He. induction rows as [|x rows IH]; [by apply elem_of_nil in He|].
  cbn [map] in Hnd. apply NoDup_cons in Hnd as [Hnew Hnd].
  change (amount_of (ce_pubkey e) (x :: rows)) with
    ((if bool_decide (ce_pubkey x = ce_pubkey e) then ce_amount x else 0) + amount_of (ce_pubkey e) rows).
  change (locked_of (ce_pubkey e) (x :: rows)) with
    ((if bool_decide (ce_pubkey x = ce_pubkey e) then default 0 (ce_locked_amount x) else 0)
     + locked_of (ce_pubkey e) rows).
  apply elem_of_cons in He as [<- |He].
  - destruct (not_in_zero _ _ Hnew) as [-> ->]. rewrite bool_decide_eq_true_2 by done. lia.
  - rewrite bool_decide_eq_false_2.
    + destruct (IH Hnd He). lia.
    + intros Heq. apply Hnew. rewrite Heq. by apply list_elem_of_fmap_2.
Qed.

(** Sorted lists of the same distinct keys are equal. *)
Lemma sorted_keys_eq (l k : list string) :
  StronglySorted String.le l → StronglySorted String.le k → NoDup l → NoDup k →
  (∀ x, x ∈ l ↔ x ∈ k) → l = k.
Proof.
  intros Hl Hk Hnl Hnk Hiff. apply (StronglySorted_unique String.le); [done|done|].
  by apply NoDup_Permutation.
Qed.

Lemma entries_eq (l k : list CsvEntry) :
  map ce_pubkey l = map ce_pubkey k → NoDup (map ce_pubkey l) →
  (∀ x y, x ∈ l → y ∈ k → ce_pubkey x = ce_pubkey y → x = y) → l = k.
Proof.
  revert k. induction l as [|x l IH]; intros [|y k] Heq Hnd Hall; try done. cbn [map] in *.
  injection Heq as Hxy Heq. apply NoDup_cons in Hnd as [_ Hnd].
  f_equal; [apply Hall; [set_solver|set_solver|done]|]. apply IH; [done|done|]. intros. apply Hall; set_solver.
Qed.

Lemma merged_entries_wf inputs m :
  inputs_ok inputs → merged_ok inputs m → Forall csv_entry_wf (mm_entries m).
Proof.
  intros Hin Hok. apply Forall_forall. intros e He. destruct (mg_amounts _ _ Hok e He) as (Ha & Hl & ? & Hlm).
  destruct (amount_of_app_le (ce_pubkey e) [] (rows_of (mm_mint m) inputs)) as [Ha0 Hl0].
  { apply Forall_concat, Forall_map, Forall_forall. intros i [_ Hi]%list_elem_of_filter.
    eapply Forall_forall in Hin; [exact Hin|done]. }
  simpl in Ha0, Hl0. split; [|rewrite Hl in Hlm |- *; simpl in *]; unfold amount_of, locked_of in *; simpl in *; zlia.
Qed.

Lemma merged_again inputs merged m m' :
  NoDup (map mm_mint merged) → m ∈ merged → merged_ok inputs m →
  merged_ok (map merged_input merged) m' → mm_mint m' = mm_mint m → m' = own_source m.
Proof.
  intros Hnd Hm Hok Hok' Hmint. pose proof (rows_of_merged merged m Hnd Hm) as Hrows.
  destruct (mg_rep _ _ Hok') as (rep & (Hrm & Hrin & _) & Hsym & Hidx).
  assert (rep = merged_market m) as ->.
  { rewrite map_map in Hrin. apply list_elem_of_fmap in Hrin as (x & -> & Hx). simpl in Hrm.
    assert (x = m) as ->; [|done]. rewrite Hmint in Hrm.
    apply list_elem_of_lookup in Hx as [i Hi]. apply list_elem_of_lookup in Hm as [j Hj].
    assert (i = j) as -> by (eapply (NoDup_lookup _ i j (mm_mint x) Hnd);
      rewrite list_lookup_fmap, ?Hi, ?Hj; simpl; congruence). congruence. }
  assert (mm_source_markets m' = [mm_index m]) as Hsrc.
  { destruct (mg_sources _ _ Hok') as [_ Hp]. rewrite Hmint, mint_input in Hp by done. simpl in Hp.
    by apply Permutation_singleton_r in Hp. }
  assert (mm_entries m' = mm_entries m) as Hent.
  { destruct (mg_order _ _ Hok) as [Hs Hn]. destruct (mg_order _ _ Hok') as [Hs' Hn'].
    apply entries_eq; [|done|].
    - apply sorted_keys_eq; [done..|]. intros pk. by rewrite (mg_claimants _ _ Hok'), Hmint, Hrows.
    - intros x y Hx Hy Hk. destruct (mg_amounts _ _ Hok' x Hx) as (Ha & Hl & _).
      rewrite Hmint, Hrows, Hk in Ha, Hl. destruct (sums_of_distinct (mm_entries m) y Hn Hy) as [Hsa Hsl].
      destruct (mg_amounts _ _ Hok y Hy) as (_ & Hly & _). destruct x, y; simpl in *. subst. simpl in Hsl.
      f_equal; congruence. }
  destruct m'; unfold own_source; simpl in *. subst. reflexivity.
Qed.

Lemma merged_not_bad inputs merged :
  NoDup (map mm_mint merged) → Forall (merged_ok inputs) merged → ¬ bad_inputs inputs →
  ¬ bad_inputs (map merged_input merged).
Proof.
  intros Hnd Hall Hgood [mint Hbad].
  assert (mint ∈ map mm_mint merged) as Hin.
  { destruct (decide (mint ∈ map mm_mint merged)) as [|Hno]; [done|]. exfalso.
    assert (rows_of mint (map merged_input merged) = []) as Hnil.
    { unfold rows_of. clear -Hno. induction merged as [|m merged IH]; [done|]. cbn [map] in *.
      apply not_elem_of_cons in Hno as [Hm Hno]. rewrite filter_cons, decide_False by (simpl; congruence).
      by apply IH. }
    rewrite Hnil in Hbad. destruct Hbad as [(e & He & _)|(pk & Hpk)]; [by apply elem_of_nil in He|].
    unfold amount_of, locked_of in Hpk. simpl in Hpk. zlia. }
  apply list_elem_of_fmap in Hin as (m & -> & Hm). rewrite rows_of_merged in Hbad by done.
  eapply Forall_forall in Hall as Hok; [|exact Hm]. destruct (mg_order _ _ Hok) as [_ Hn].
  destruct Hbad as [(e & He & Hv)|(pk & Hpk)].
  - apply (list_elem_of_fmap_2 ce_pubkey) in He. apply (mg_claimants _ _ Hok) in He.
    apply list_elem_of_fmap in He as (e0 & Hpk & He0). apply Hgood. exists (mm_mint m). left.
    exists e0. split; [done|]. unfold valid_key in *. by rewrite <- Hpk.
  - destruct (decide (pk ∈ map ce_pubkey (mm_entries m))) as [Hin|Hno].
    + apply list_elem_of_fmap in Hin as (e & -> & He).
      destruct (sums_of_distinct _ e Hn He) as [Ha Hl]. rewrite Ha, Hl in Hpk.
      destruct (mg_amounts _ _ Hok e He) as (_ & _ & ? & ?). lia.
    + destruct (not_in_zero _ _ Hno) as [Ha Hl]. rewrite Ha, Hl in Hpk. zlia.
Qed.

Lemma map_same_keys {A B : Type} (f : A → B) (g : A → A) (l l' : list A) :
  map f l' = map f l → (∀ x y, x ∈ l' → y ∈ l → f x = f y → x = g y) → l' = map g l.
Proof.
  revert l. induction l' as [|x l' IH]; intros [|y l] Heq Hall; try done. cbn [map] in *. injection Heq as Hxy Heq.
  f_equal; [apply Hall; [set_solver|set_solver|done]|]. apply IH; [done|]. intros. apply Hall; set_solver.
Qed.

(** Aggregating the merged lists again gives the same lists. *)
Lemma aggregate_again inputs merged :
  inputs_ok inputs → aggregate_if_entries inputs = Ok merged →
  aggregate_if_entries (map merged_input merged) = Ok (map own_source merged).
Proof.
  intros Hin Hagg. pose proof (aggregate_spec inputs Hin) as Hs. rewrite Hagg in Hs.
  destruct Hs as (Hgood & Hsorted & Hnd & _ & Hall).
  assert (inputs_ok (map merged_input merged)) as Hin'.
  { apply Forall_map, Forall_forall. intros m Hm. eapply Forall_forall in Hall; [|exact Hm].
    by eapply merged_entries_wf. }
  pose proof (aggregate_spec (map merged_input merged) Hin') as Hs'.
  destruct (aggregate_if_entries (map merged_input merged)) as [merged'|err];
    [|by destruct (merged_not_bad inputs merged)].
  destruct Hs' as (_ & Hsorted' & Hnd' & Hmints & Hall'). f_equal.
  apply (map_same_keys mm_mint); [apply sorted_keys_eq; try done|].
  - intros mint. rewrite Hmints, map_map. done.
  - intros x y Hx Hy Hxy. eapply Forall_forall in Hall; [|exact Hy]. eapply Forall_forall in Hall'; [|exact Hx].
    exact (merged_again inputs merged y x Hnd Hy Hall Hall' Hxy).
Qed.
End again.

(** ** The command *)
Section command.
Context `{Hasher} `{AddressDerivation} `{TokenProgram} `{AtaProgram} `{PubkeyParser} `{PubkeyText}.
Context `{AccountCodec} `{Serde} `{FileFormats} `{!FileFormatsSpec}.
Implicit Types (a : AggregateIfCsvsArgs) (w : World) (merged : list MergedMint).

Lemma read_markets_run csv_dir markets acc w w' inputs :
  for_fold (λ inputs market, i ← read_market csv_dir market; mret (inputs ++ [i])) acc markets w = (w', Ok inputs) →
  w' = w ∧ ∃ l, inputs = acc ++ l ∧
    Forall2 (λ m i, i.1 = m ∧ CsvEntry_new_from_file (w_files w) (market_csv_path csv_dir m) = Ok i.2) markets l.
Proof.
  revert acc. induction markets as [|m markets IH]; intros acc; cbn [for_fold].
  { intros [= <- <-]. split; [done|]. exists []. by rewrite app_nil_r. }
  intros (acc' & w1 & (i & w2 & (es & w3 & [-> He%of_tree_Ok]%ask_run & [= <- <-])%bind_run & [= <- <-])%bind_run
    & (-> & l & -> & Hl)%IH)%bind_run.
  split; [done|]. exists ((m, es) :: l). rewrite <- app_assoc. split; [done|]. by constructor.
Qed.

Definition merged_content (m : MergedMint) : Content :=
  csv_write (header_locked :: map record_locked (merged_records m)).
Definition merged_name (m : MergedMint) : string := csv_name (mm_index m) (mm_symbol m).

Lemma write_all_merged out merged w w' entries :
  w_files w !! out = Some entries → for_each (write_merged out) merged w = (w', Ok tt) →
  ∃ entries', w_files w' !! out = Some entries' ∧
    (∀ name, name ∉ map merged_name merged → entries' !! name = entries !! name) ∧
    (NoDup (map merged_name merged) → ∀ m, m ∈ merged → entries' !! merged_name m = Some (FileNode (merged_content m))).
Proof.
  revert w entries. induction merged as [|m merged IH]; intros w entries He; cbn [for_each].
  { intros [= <-]. exists entries. split_and!; [done|done|]. intros _ m Hm. by apply elem_of_nil in Hm. }
  intros ([] & w1 & Hw & Hr)%bind_run. unfold write_merged in Hw. apply files_run in Hw as [Hw _]. unfold write_file in Hw. cbn [fst snd] in Hw.
  apply expect_Ok in Hw. rewrite He in Hw. cbn [mbind option_bind] in Hw. fold (merged_name m) in Hw.
  assert (w_files w1 = <[out := <[merged_name m := FileNode (merged_content m)]> entries]> (w_files w)) as Hf.
  { destruct (entries !! merged_name m) as [[c|]|]; [|done|]; by injection Hw as <-. }
  destruct (IH w1 (<[merged_name m := FileNode (merged_content m)]> entries)) as (entries' & He' & Hother & Hin); [|done|].
  { rewrite Hf. apply fs_insert_eq. }
  exists entries'. cbn [map]. split_and!; [done| |].
  - intros name [Hn1 Hn2]%not_elem_of_cons. rewrite Hother by done. by rewrite lookup_insert_ne.
  - intros [Hnew Hnd]%NoDup_cons m' [-> |Hm']%elem_of_cons; [|by apply Hin].
    rewrite Hother by done. by rewrite lookup_insert_eq.
Qed.

Lemma merged_rows_back inputs m :
  inputs_ok inputs → merged_ok inputs m → csv_entries (merged_content m) = Some (mm_entries m).
Proof.
  intros Hin Hok. unfold merged_content. rewrite csv_entries_with_locked.
  - f_equal. unfold merged_records. rewrite map_map.
    assert (∀ e, e ∈ mm_entries m → mkCsvEntry (ce_pubkey e) (ce_amount e) (Some (default 0 (ce_locked_amount e))) = e)
      as He.
    { intros e He. destruct (mg_amounts _ _ Hok e He) as (_ & Hl & _). destruct e; simpl in *. by subst. }
    induction (mm_entries m) as [|e l IH]; [done|]. cbn [map fst snd]. rewrite He by set_solver.
    f_equal. apply IH. intros. apply He. set_solver.
  - apply Forall_map. exact (merged_entries_wf inputs m Hin Hok).
Qed.

(** *** The configuration *)
Lemma json_field_set name v j j' : json_set name v j = Some j' → json_field name j' = Some v.
Proof.
  destruct j as [| | | | | |l]; try done. intros [= <-]. unfold json_field.
  destruct (existsb _ l) eqn:He.
  - induction l as [|[k x] l IH]; [done|]. simpl in *. destruct (String.eqb k name) eqn:Hk.
    + simpl. by rewrite String.eqb_refl.
    + simpl. rewrite Hk. by apply IH.
  - induction l as [|[k x] l IH]; simpl in *; [by rewrite String.eqb_refl|].
    destruct (String.eqb k name); [done|]. by apply IH.
Qed.
Lemma json_field_set_ne name name' v j j' :
  json_set name v j = Some j' → String.eqb name name' = false → json_field name' j' = json_field name' j.
Proof.
  destruct j as [| | | | | |l]; try done. intros [= <-] Hne. unfold json_field.
  destruct (existsb _ l); induction l as [|[k x] l IH]; simpl; try done; [|by rewrite Hne|].
  - destruct (String.eqb_spec k name) as [-> |]; simpl; [rewrite Hne|destruct (String.eqb k name'); [done|]]; apply IH.
  - destruct (String.eqb k name'); [done|]. apply IH.
Qed.

Lemma merged_markets_back merged :
  Forall (λ m, is_u64 (mm_index m)) merged →
  mapM json_market (map merged_market_json merged) = Some (map merged_market merged).
Proof.
  intros Hall. apply mapM_map_Some. eapply Forall_impl; [exact Hall|]. intros m Hm.
  unfold json_market, merged_market_json, json_field. simpl find.
  cbn [fmap option_fmap option_map snd mbind option_bind json_str]. by rewrite json_u64_num.
Qed.

Lemma market_index_u64 config markets :
  config_markets config = Some markets → Forall (λ m, is_u64 (im_index m)) markets.
Proof.
  unfold config_markets. intros (l & _ & Hl)%bind_Some. apply mapM_Some in Hl.
  induction Hl as [|j m l markets Hm _ IH]; constructor; [|done]. unfold json_market in Hm.
  apply bind_Some in Hm as (index & (v & _ & Hv)%bind_Some & Hm).
  apply bind_Some in Hm as (symbol & _ & Hm). apply bind_Some in Hm as (mint & _ & [= <-]). simpl.
  destruct v; try done. simpl in Hv. destruct (andb _ _) eqn:Hr; [|done]. injection Hv as <-. zbool. zlia.
Qed.

(** *** Names and sums of the merged lists *)
Lemma merged_index inputs m : merged_ok inputs m →
  ∃ market, market ∈ map fst inputs ∧ im_mint market = mm_mint m ∧ im_index market = mm_index m.
Proof. intros Hok. destruct (mg_rep _ _ Hok) as (rep & (Hm & Hin & _) & _ & Hi). by exists rep. Qed.

Lemma merged_names_distinct inputs merged :
  Forall (λ m, is_u64 (im_index m)) (map fst inputs) → NoDup (map im_index (map fst inputs)) →
  NoDup (map mm_mint merged) → Forall (merged_ok inputs) merged → NoDup (map merged_name merged).
Proof.
  intros Hidx Hnd Hmints Hall. apply NoDup_fmap_2_strong; [|by eapply NoDup_fmap_1].
  intros x y Hx Hy Hname. eapply Forall_forall in Hall as Hokx; [|exact Hx].
  eapply Forall_forall in Hall as Hoky; [|exact Hy].
  destruct (merged_index _ _ Hokx) as (mx & Hmx & Hmintx & Hix).
  destruct (merged_index _ _ Hoky) as (my & Hmy & Hminty & Hiy).
  assert (mx = my) as ->.
  { destruct (proj1 (Forall_forall _ _) Hidx _ Hmx) as [Hpx _].
    destruct (proj1 (Forall_forall _ _) Hidx _ Hmy) as [Hpy _].
    apply csv_name_index in Hname; [|lia|lia].
    apply list_elem_of_lookup in Hmx as [i Hi]. apply list_elem_of_lookup in Hmy as [j Hj].
    assert (i = j) as -> by (eapply (NoDup_lookup _ i j (im_index mx) Hnd);
      rewrite list_lookup_fmap, ?Hi, ?Hj; simpl; congruence). congruence. }
  apply list_elem_of_lookup in Hx as [i Hi]. apply list_elem_of_lookup in Hy as [j Hj].
  assert (i = j) as -> by (eapply (NoDup_lookup _ i j (mm_mint x) Hmints);
    rewrite list_lookup_fmap, ?Hi, ?Hj; simpl; congruence). congruence.
Qed.

Lemma merged_sums inputs m pk : merged_ok inputs m →
  amount_of pk (mm_entries m) = amount_of pk (rows_of (mm_mint m) inputs) ∧
  locked_of pk (mm_entries m) = locked_of pk (rows_of (mm_mint m) inputs).
Proof.
  intros Hok. destruct (mg_order _ _ Hok) as [_ Hn].
  destruct (decide (pk ∈ map ce_pubkey (mm_entries m))) as [Hin|Hno].
  - apply list_elem_of_fmap in Hin as (e & -> & He). destruct (sums_of_distinct _ e Hn He) as [-> ->].
    destruct (mg_amounts _ _ Hok e He) as (-> & -> & _). done.
  - destruct (not_in_zero _ _ Hno) as [-> ->]. rewrite (mg_claimants _ _ Hok) in Hno.
    by destruct (not_in_zero _ _ Hno) as [-> ->].
Qed.

Lemma read_inputs_ok fs csv_dir markets inputs :
  Forall2 (λ m i, i.1 = m ∧ CsvEntry_new_from_file fs (market_csv_path csv_dir m) = Ok i.2) markets inputs →
  inputs_ok inputs.
Proof.
  induction 1 as [|m i ms l [_ He] _ IH]; constructor; [|done].
  unfold CsvEntry_new_from_file in He. apply bind_Ok in He as (c & _ & He).
  destruct (csv_entries c) eqn:Hc; simplify_eq/=. by eapply csv_entries_typed.
Qed.

(** The stages of a run that returns. *)
Lemma aggregate_run a w w' :
  aggregate_cmd a w = (w', Ok tt) →
  ∃ config markets csv_dir inputs merged w1 w2 config',
    lookup_file (w_files w) (ag_config a) ≫= json_value = Some config ∧
    config_markets config = Some markets ∧ choose_csv_dir a config = Some csv_dir ∧
    Forall2 (λ m i, i.1 = m ∧ CsvEntry_new_from_file (w_files w) (market_csv_path csv_dir m) = Ok i.2)
      markets inputs ∧
    aggregate_if_entries inputs = Ok merged ∧
    create_dir_all (w_files w) (ag_out_csv_dir a) = w_files w1 ∧
    for_each (write_merged (ag_out_csv_dir a)) merged w1 = (w2, Ok tt) ∧
    merged_config config merged (ag_out_csv_dir a) = Some config' ∧
    write_file (w_files w2) (ag_out_config a) (json_write config') = Some (w_files w').
Proof.
  intros Hrun. unfold aggregate_cmd in Hrun.
  apply bind_run in Hrun as (config & w1 & [-> Hconfig%expect_Ok]%ask_run & Hrun).
  apply bind_run in Hrun as (markets & w1 & [-> Hmarkets%expect_Ok]%ask_run & Hrun).
  apply bind_run in Hrun as (u & w1 & [-> _]%ask_run & Hrun).
  apply bind_run in Hrun as (csv_dir & w1 & [-> Hdir%expect_Ok]%ask_run & Hrun).
  apply bind_run in Hrun as (inputs & w1 & (-> & l & -> & Hin)%read_markets_run & Hrun). simpl in Hrun.
  apply bind_run in Hrun as (merged & w1 & [-> Hagg%unwrap_Ok]%ask_run & Hrun). unfold write_aggregate in Hrun.
  apply bind_run in Hrun as ([] & w1 & [[= Hf1] _]%files_run & Hrun).
  apply bind_run in Hrun as ([] & w2 & Hwrite & Hrun).
  apply bind_run in Hrun as (config' & w3 & [-> Hset%expect_Ok]%ask_run & [Hf3%expect_Ok _]%files_run).
  exists config, markets, csv_dir, l, merged, w1, w2, config'. by split_and!.
Qed.

(** C32. The merged files.  When the aggregation command returns (and writes its
    configuration outside the directory of the lists), every market's list was
    read; if the markets have distinct indices, then for every mint of the
    configuration there is a list on disk that reads back with one row per
    claimant and exactly the claimant's sums over all lists of the mint, and
    none else; the merged configuration reads back with one market per mint and
    the directory of those lists; and aggregating the merged configuration again
    gives the same lists. *)
Theorem merged_files_hold_the_sums a w w' :
  aggregate_cmd a w = (w', Ok tt) → (ag_out_config a).1 ≠ ag_out_csv_dir a →
  ∃ config markets csv_dir inputs merged,
    lookup_file (w_files w) (ag_config a) ≫= json_value = Some config ∧
    config_markets config = Some markets ∧ choose_csv_dir a config = Some csv_dir ∧
    Forall2 (λ m i, i.1 = m ∧ CsvEntry_new_from_file (w_files w) (market_csv_path csv_dir m) = Ok i.2)
      markets inputs ∧
    (NoDup (map im_index markets) → ∀ mint, mint ∈ map im_mint markets →
       ∃ m rows, m ∈ merged ∧ mm_mint m = mint ∧
         CsvEntry_new_from_file (w_files w') (ag_out_csv_dir a, merged_name m) = Ok rows ∧
         NoDup (map ce_pubkey rows) ∧
         ∀ pk, amount_of pk rows = amount_of pk (rows_of mint inputs) ∧
               locked_of pk rows = locked_of pk (rows_of mint inputs)) ∧
    (∃ config', lookup_file (w_files w') (ag_out_config a) ≫= json_value = Some config' ∧
       config_markets config' = Some (map merged_market merged) ∧
       json_field "csv_dir" config' ≫= json_str = Some (ag_out_csv_dir a)) ∧
    aggregate_if_entries (map merged_input merged) = Ok (map own_source merged).
Proof.
  intros Hrun Hdirs. destruct (aggregate_run _ _ _ Hrun) as (config & markets & csv_dir & l & merged & w1 & w2
    & config' & Hconfig & Hmarkets & Hdir & Hin & Hagg & Hf1 & Hwrite & Hset & Hf3).
  exists config, markets, csv_dir, l, merged.
  assert (map fst l = markets) as Hfst.
  { clear -Hin. induction Hin as [|m i ms l [Hm _] _ IH]; [done|]. simpl. by rewrite IH, Hm. }
  assert (inputs_ok l) as Hok.
  { by eapply read_inputs_ok. }
  pose proof (aggregate_spec l Hok) as Hspec. rewrite Hagg in Hspec.
  destruct Hspec as (_ & _ & Hmints & Hcover & Hall).
  pose proof (market_index_u64 _ _ Hmarkets) as Hidx. rewrite <- Hfst in Hidx.
  split_and!; [done|done|done|done| | |by eapply aggregate_again].
  - intros Hnd mint Hmint. rewrite <- Hfst in Hnd, Hmint.
    assert (mint ∈ map mm_mint merged) as (m & -> & Hm)%list_elem_of_fmap.
    { apply Hcover. by rewrite map_map in Hmint. }
    eapply Forall_forall in Hall as Hmok; [|exact Hm].
    destruct (create_dir_exists (w_files w) (ag_out_csv_dir a)) as [entries0 He0]. rewrite Hf1 in He0.
    destruct (write_all_merged _ _ _ _ _ He0 Hwrite) as (entries' & He' & _ & Hfiles).
    exists m, (mm_entries m). split_and!; [done|done| |by apply (mg_order _ _ Hmok)|].
    + unfold CsvEntry_new_from_file, lookup_file. cbn [fst snd].
      rewrite (write_file_other _ _ _ _ _ Hf3 Hdirs), He'. cbn [mbind option_bind].
      rewrite Hfiles by (done || by eapply merged_names_distinct). cbn [ok_or mbind result_bind].
      by rewrite (merged_rows_back l m Hok Hmok).
    + intros pk. by apply merged_sums.
  - exists config'. rewrite (write_file_lookup _ _ _ _ Hf3). cbn [mbind option_bind].
    unfold merged_config in Hset. apply bind_Some in Hset as (c1 & Hc1 & Hc2).
    split_and!; [by rewrite json_roundtrip| |by rewrite (json_field_set _ _ _ _ Hc2)].
    unfold config_markets. rewrite (json_field_set_ne _ _ _ _ _ Hc2) by done.
    rewrite (json_field_set _ _ _ _ Hc1). cbn [mbind option_bind json_arr]. apply merged_markets_back.
    apply Forall_forall. intros m Hm. eapply Forall_forall in Hall as Hmok; [|exact Hm].
    destruct (merged_index _ _ Hmok) as (market & Hin' & _ & <-). by eapply Forall_forall in Hidx.
Qed.
End command.

(** ** Witness: two markets of one mint *)
#[local] Existing Instances sha256_hasher example_derivation reference_token reference_ata any_key raw_text.
#[local] Existing Instances borsh_codec json_serde reference_formats reference_formats_spec.

Definition ax_list (pk : string) (amount locked : Z) : Content :=
  csv_write [header_locked; record_locked (pk, amount, locked)].
Definition ax_config : Json :=
  JObj [("csv_dir", JStr "in");
        ("markets", JArr [JObj [("index", JNum 0); ("symbol", JStr "USDC"); ("mint", JStr "M")];
                          JObj [("index", JNum 10); ("symbol", JStr "USDC"); ("mint", JStr "M")]])]%string.
Definition ax_args : AggregateIfCsvsArgs :=
  mkAggregateIfCsvsArgs ("conf", "if.json") None "out" ("conf", "merged.json")%string.
Definition ax_world : World :=
  mkWorld (mkNetwork dx_state0 7 [] [] [] [])
    {[ "in" := {[ "0-USDC.csv" := FileNode (ax_list "A" 100 5); "10-USDC.csv" := FileNode (ax_list "A" 250 7) ]};
       "conf" := {[ "if.json" := FileNode (json_write ax_config) ]} ]}%string.
Definition ax_after : World := (aggregate_cmd ax_args ax_world).1.

Lemma ax_ran : aggregate_cmd ax_args ax_world = (ax_after, Ok tt).
Proof. unfold ax_after. apply run_pair. vm_compute. reflexivity. Qed.
Example ax_merged :
  CsvEntry_new_from_file (w_files ax_after) ("out", "0-USDC.csv")%string = Ok [mkCsvEntry "A" 350 (Some 12)].
Proof. vm_compute. reflexivity. Qed.

Lemma merged_files_hold_the_sums_witness :
  ∃ config', lookup_file (w_files ax_after) (ag_out_config ax_args) ≫= json_value = Some config' ∧
    json_field "csv_dir" config' ≫= json_str = Some (ag_out_csv_dir ax_args).
Proof.
  destruct (merged_files_hold_the_sums ax_args ax_world ax_after ax_ran ltac:(discriminate))
    as (config & markets & csv_dir & inputs & merged & _ & _ & _ & _ & _ & (config' & Hc & _ & Hd) & _).
  exists config'. exact (conj Hc Hd).
Defined.
